(* ===== verification/_CoqProject ===== *)
-Q . S2P
Prelude.v
Deque.v
Lru.v
Wire.v
GoStrings.v
Runes.v
NetIP.v
Metadata.v
TuicV5.v
TuicFrag.v
TuicServer.v
FakeIP.v
DomainTrie.v
Louds.v
DomainSet.v
SetTrie.v
DomainMap.v
SetBin.v
IpCidr.v
Wildcard.v
Ranges.v
Rules.v
RuleParser.v
SubRules.v
Config.v
RuleProvider.v
ProviderSpec.v
ProviderDump.v
Hosts.v
Dns.v
Enhancer.v
SniffTls.v
SniffHttp.v
Sniffer.v
Tunnel.v
Handle.v
GoFloat.v
ExprValue.v
ExprParse.v
ExprStore.v
ExprEval.v
ExprParseSpec.v
ExprStoreSpec.v
ExprEvalSpec.v
ExprRep.v
ExprRefine.v
ExprBinary.v
ExprStatements.v
ProxyParser.v
