(* ===== verification/Prelude.v ===== *)
(** * Verification of the proxy core

    The program under src/ is a rule based proxy core written in Go.  It accepts
    connections, finds out which host they are for, chooses an outbound proxy with a
    list of rules, and relays.  This library is a shallow embedding of the parts that
    decide: Go functions are Gallina functions, a Go structure is a record, and what
    the code mutates is passed along and returned.

    ** How Go is represented

    - A machine integer is a [Z] with its wrap-around written out ([u8], [u16], [u32],
      [i64]).  A slice of bytes is a [list Z], a string is a Rocq [string] of bytes.
    - Code that can panic or loop is in the monad [outcome]: [Ret x] is a return,
      [Panic msg] a Go panic (an index out of range, a nil pointer, a call of
      panic), and [OutOfFuel] a recursion that was cut off.  Functions that return an
      error use [result] of Wire.v; a reader of a stream is in the monad [rd].
    - A Go map is a [gmap], or an association list where the order of iteration is
      seen.  Where the code shares a pointer, as the entries of a cloned cache, the bag
      of a defragmenter or the mapping of a proxy under an override, the model has a
      heap with addresses.
    - Goroutines are interleavings of whole handlers given as a list of events
      (TuicServer.v), or the order in which answers arrive (Dns.v).  Time is an
      argument.
    - Third party code is an argument: the geo databases, regular expressions and
      rule providers (the record [World] of Rules.v), DNS servers, the QUIC key
      exporter, the system's hosts and processes; the bitmap library of the succinct
      trie ([BitmapLib], Louds.v), netipx, YAML and zstd (IpCidr.v, RuleProvider.v), the
      sorting of slices, regexp2 and age (ExprEval.v, ProxyParser.v); and what the Go
      runtime is free to choose, the growth of slices and the order of maps
      (ExprStore.v).  Two functions of the program are arguments as well, the conversion
      of share links and the parser of one proxy: they may panic or not return, and
      theorems that need them to return have this as a hypothesis (ProxyParser.v).  What
      a theorem needs of an argument is a hypothesis of the theorem, with a witness that
      meets it.
    - Memory is not limited, with one exception: where an update of a path fills an array
      up to an index that the user wrote, an array that the runtime cannot make is its
      panic ([extend], ExprStore.v).  Theorems on overrides are about indices below 2^40,
      or say that this panic may occur.

    ** The files

    - Prelude.v: integers, [outcome], index and slice operations, tactics and hints.
    - Deque.v (common/deque/deque.go): the ring buffer.  Every history of operations
      other than copies and iteration is that of a list, panics included.
    - Lru.v (common/lru/lrucache.go, and the linked list it uses behind the class
      [DList]): every history of calls other than CloneTo is that of one list of entries
      in order of use; the size limit; a stored value is found until it expires.
    - Wire.v, GoStrings.v, NetIP.v: errors, readers and writers, functions of strings
      and strconv, addresses and prefixes of net/netip.
    - Metadata.v (constant/metadata.go, transport/socks5): a connection's metadata.
    - TuicV5.v, TuicFrag.v, TuicServer.v (transport/tuic/v5): commands and their round
      trip, fragments and their reassembly in any order, and the server with its
      authentication under every interleaving: nothing is handed on without it, and a
      stream of an authenticated client is.
    - FakeIP.v (component/fakeip): the pool of fake addresses, proved against the
      interface [Store], which the memory store implements; an address leads back to
      its host until other hosts are looked up.
    - DomainTrie.v (component/trie/domain.go, node.go): search finds exactly the
      domains that the inserted patterns cover, with the documented priority;
      optimisation changes no result; iteration gives patterns that rebuild the trie.
    - Runes.v (common/utils/strings.go, unicode/utf8): bytes and runes, and reversal.
    - Louds.v, DomainSet.v, SetTrie.v (component/trie/domain_set.go), DomainMap.v
      (domain_map.go): the succinct tries.  The bitmaps encode the nodes of a trie of
      sorted keys; a query returns; the set finds what the domain trie finds, and the
      map finds its value, with the same priority, for ASCII patterns and valid domains.
    - SetBin.v (component/trie/domain_set_bin.go, domain_map_bin.go), IpCidr.v
      (component/cidr): the binary forms and their round trips.
    - Wildcard.v (component/wildcard), Ranges.v (common/utils/range.go, ranges.go):
      wildcard matching is glob matching; merging keeps the numbers; iteration ends at
      the largest value.
    - Rules.v (rules/common, rules/logic, constant/rule.go), RuleParser.v
      (rules/parser.go, rules/common/base.go, rules/logic/logic.go): every rule with
      its Match, and the parser.  The parser returns, and accepts well-formed rules.
    - SubRules.v, Config.v (config/config.go): the check for circular sub-rules is
      exact, and each rule of an accepted configuration can be evaluated.
    - RuleProvider.v (rules/provider, constant/provider), ProviderSpec.v, ProviderDump.v:
      rule sets of domains, prefixes and classical rules from text, YAML and the binary
      form MRS.  A text file gives the provider of its rules; a binary file read back
      is the same provider, and so is the text printed from it; evaluation ends when
      rule sets do not refer to each other in a circle.
    - Hosts.v (component/resolver/host.go, config/config.go): aliases of hosts.
    - Dns.v (dns/util.go, dns/resolver.go), Enhancer.v (dns/enhancer.go,
      dns/middleware.go, dns/service.go, component/fakeip/skipper.go): the cache and
      its times to live, policies and fallback, and the chain of handlers with hosts,
      mapping and fake addresses.
    - SniffTls.v (component/sniffer/tls_sniffer.go), SniffHttp.v (http_sniffer.go),
      Sniffer.v (dispatcher.go, base_sniffer.go): the sniffers never panic, keep their
      verdict, and find the name, TLS in every cut of a ClientHello into records and
      HTTP in the Host field of a request; the dispatcher ends and bounds what it
      waits for.
    - Tunnel.v, Handle.v (tunnel/tunnel.go, rules/wrapper, adapter/outbound/rematch.go,
      tunnel/mode.go, tunnel/status.go): the search through the rules ends, with
      the proxy of the first rule that decides; it asks for the address and for the
      process of a connection at most once; a fake address that the DNS service gave out
      is handled as its host.
    - GoFloat.v: float64 as the format of SpecFloat, and numbers as text (strconv).
    - ExprValue.v, ExprParse.v, ExprStore.v, ExprEval.v (adapter/provider/override_expr.go,
      override.go): the override language for proxies: values and operators, lexer and
      parser, the store of shared maps and slices with updates and deletions of paths,
      and the evaluation of expressions and statements.
    - ExprParseSpec.v, ExprStoreSpec.v, ExprEvalSpec.v: every text is parsed or refused;
      on a valid store every operation returns, unless an index is too large, and keeps it
      valid; expressions change no object that was there, statements only what the
      mapping reaches.
    - ExprRep.v, ExprRefine.v, ExprBinary.v, ExprStatements.v: a relation between objects
      that are held once and trees, and the refinement of the statements in place by
      functions on trees.
    - ProxyParser.v (adapter/provider/provider.go): the parser of a proxy list with its
      filters and overrides returns when the functions that it calls do, and without
      overrides selects each name that the settings ask for once.

    ** Fuel

    A loop whose bound is known from its input has its fuel computed from it: the TLS
    sniffer uses the length of the buffer, the doubling loops of the deque 65 rounds,
    the dispatcher one round per byte of its buffer, the rule parser the length of the
    text, the parser of overrides the bytes of the tokens, the search in a succinct trie
    two rounds per edge, the lines of a rule set a round per byte, the reading of a
    value from a store the number of objects, and the deletion of paths the length of
    the longest path.  That these are enough is part of the theorems: they state that a
    result is returned.  Where the bound depends on a configuration (sub-rules, groups, aliases of
    hosts), the fuel is an argument, and a theorem gives an amount from which every
    larger one returns.  A loop of the program that does not end is proved to use up
    every fuel.

    ** What is not modelled

    Sockets, TLS, QUIC and other cryptography, and with them the outbound and inbound
    protocols other than TUIC, whose code is mostly calls of these libraries; the
    databases of geo data; the fetching of providers, their health checks and
    subscription data, which are timers and HTTP requests; UDP sessions and the relaying
    of bytes; QUIC sniffing; the ARC cache and single-flight in the resolver; outbound
    groups beyond their interface [ProxyOps]; the YAML configuration other than rules,
    sub-rules, hosts and rule and proxy providers; the platform code.  Letters are
    lower-cased in ASCII only.  Times and mappings with keys that are not strings, which
    YAML can decode to, are left out of the override values.  Logging and locks have no effect in the model. *)

From Stdlib Require Export ZArith Lia.
From stdpp Require Export base list gmap strings numbers.
Export list_basics.list list_relations.list list_monad.list list_misc.list.

#[global] Open Scope Z_scope.

(** ** Notation *)

Declare Scope go_scope.
Delimit Scope go_scope with go.
#[global] Open Scope go_scope.

(** Go's [len] on a slice. *)
Abbreviation len l := (Z.of_nat (length l)).

(** ** Machine integers *)

(** [T(z)] for an unsigned type of width [w]: Go integer conversion and
    arithmetic wrap modulo [2^w]. *)
Definition wrapu (w z : Z) : Z := z mod 2 ^ w.

(** [T(z)] for a signed type of width [w], two's complement. *)
Definition wraps (w z : Z) : Z := (z + 2 ^ (w - 1)) mod 2 ^ w - 2 ^ (w - 1).

Abbreviation u8 := (wrapu 8).
Abbreviation u16 := (wrapu 16).
Abbreviation u32 := (wrapu 32).
Abbreviation u64 := (wrapu 64).
Abbreviation i32 := (wraps 32).
Abbreviation i64 := (wraps 64).

(** ** Outcomes of a Go computation *)

(** A call returns, panics, or (for a loop whose termination is not evident)
    does not return within the fuel it was given. *)
Inductive outcome (A : Type) : Type :=
| Ret (a : A)
| Panic (msg : string)
| OutOfFuel.
Arguments Ret {A} a.
Arguments Panic {A} msg%_string.
Arguments OutOfFuel {A}.

#[global] Instance outcome_ret : MRet outcome := @Ret.
#[global] Instance outcome_bind : MBind outcome := λ A B f m,
  match m with
  | Ret a => f a
  | Panic s => Panic s
  | OutOfFuel => OutOfFuel
  end.
#[global] Instance outcome_fmap : FMap outcome := λ A B f m,
  match m with
  | Ret a => Ret (f a)
  | Panic s => Panic s
  | OutOfFuel => OutOfFuel
  end.

(** [l[i]] on a slice: panics out of range. *)
Definition idx {A} (l : list A) (i : Z) : outcome A :=
  if bool_decide (0 ≤ i < len l) then
    match l !! Z.to_nat i with
    | Some x => Ret x
    | None => Panic "index out of range"
    end
  else Panic "index out of range".

(** [l[i] = x]. *)
Definition upd {A} (l : list A) (i : Z) (x : A) : outcome (list A) :=
  if bool_decide (0 ≤ i < len l) then Ret (<[Z.to_nat i := x]> l)
  else Panic "index out of range".

(** [l[lo:hi]] on a slice whose capacity is its length. *)
Definition slice {A} (l : list A) (lo hi : Z) : outcome (list A) :=
  if bool_decide (0 ≤ lo ≤ hi ∧ hi ≤ len l)
  then Ret (take (Z.to_nat (hi - lo)) (drop (Z.to_nat lo) l))
  else Panic "slice bounds out of range".

(** [copy(dst, src)]: the overwritten [dst] and the number of elements copied. *)
Definition copy {A} (dst src : list A) : list A * Z :=
  let n := Nat.min (length dst) (length src) in
  (take n src ++ drop n dst, Z.of_nat n).

(** [make([]T, n)]. *)
Definition make {A} (zero : A) (n : Z) : outcome (list A) :=
  if bool_decide (0 ≤ n) then Ret (replicate (Z.to_nat n) zero)
  else Panic "makeslice: len out of range".

(** A counted loop: [n] runs of a body that may panic. *)
Fixpoint iterM {S} (n : nat) (body : S → outcome S) (s : S) : outcome S :=
  match n with
  | O => Ret s
  | S n => s' ← body s; iterM n body s'
  end.

#[global] Arguments idx : simpl never.
#[global] Arguments upd : simpl never.
#[global] Arguments slice : simpl never.
#[global] Arguments copy : simpl never.
#[global] Arguments make : simpl never.

(** ** Generic lemmas *)

(** Powers of two and the bitwise modulus. *)
Definition is_pow2 (c : Z) : Prop := ∃ k, 0 ≤ k ∧ c = 2 ^ k.

Lemma is_pow2_pos c : is_pow2 c → 0 < c.
Proof. intros (k & Hk & ->). by apply Z.pow_pos_nonneg. Qed.

Lemma is_pow2_double c : is_pow2 c → is_pow2 (Z.shiftl c 1).
Proof.
  intros (k & Hk & ->). exists (k + 1). split; [lia|].
  rewrite Z.shiftl_mul_pow2, Z.pow_add_r by lia. done.
Qed.

Lemma land_pow2 c x : is_pow2 c → Z.land x (c - 1) = x mod c.
Proof.
  intros (k & Hk & ->). rewrite <- Z.land_ones by done.
  by rewrite Z.ones_equiv, Z.sub_1_r.
Qed.

Lemma bool_decide_iff_true P `{Decision P} : P → bool_decide P = true.
Proof. apply bool_decide_eq_true_2. Qed.

Lemma wraps_small w z :
  0 < w → - 2 ^ (w - 1) ≤ z < 2 ^ (w - 1) → wraps w z = z.
Proof.
  intros Hw Hz. unfold wraps.
  replace (2 ^ w) with (2 * 2 ^ (w - 1)).
  2: { rewrite <- Z.pow_succ_r by lia. f_equal. lia. }
  rewrite Z.mod_small; lia.
Qed.

Lemma i64_small z : - 2 ^ 63 ≤ z < 2 ^ 63 → i64 z = z.
Proof. intros. by apply wraps_small. Qed.

Lemma wrapu_small w z : 0 ≤ z < 2 ^ w → wrapu w z = z.
Proof. intros. unfold wrapu. by rewrite Z.mod_small. Qed.

Lemma wrapu_range w z : 0 ≤ w → 0 ≤ wrapu w z < 2 ^ w.
Proof. intros. apply Z.mod_pos_bound. by apply Z.pow_pos_nonneg. Qed.

(** Indexing. *)
Lemma idx_Ret {A} (l : list A) i x :
  idx l i = Ret x ↔ 0 ≤ i ∧ l !! Z.to_nat i = Some x.
Proof.
  unfold idx. case_bool_decide as Hi.
  - destruct (l !! Z.to_nat i) eqn:E; split; intros ?; destruct_and?; simplify_eq; auto with lia.
  - split; [done|]. intros [? Hx%lookup_lt_Some]. lia.
Qed.

Lemma idx_lookup {A} (l : list A) i x :
  0 ≤ i → l !! Z.to_nat i = Some x → idx l i = Ret x.
Proof. intros. by apply idx_Ret. Qed.

Lemma idx_total {A} (l : list A) i :
  0 ≤ i < len l → ∃ x, idx l i = Ret x ∧ l !! Z.to_nat i = Some x.
Proof.
  intros Hi. destruct (lookup_lt_is_Some_2 l (Z.to_nat i)) as [x Hx]; [lia|].
  exists x. split; [by apply idx_lookup; [lia|]|done].
Qed.

Lemma idx_panic {A} (l : list A) i :
  ¬ (0 ≤ i < len l) → idx l i = Panic "index out of range".
Proof. intros. unfold idx. by rewrite bool_decide_eq_false_2. Qed.

Lemma upd_Ret {A} (l : list A) i x :
  0 ≤ i < len l → upd l i x = Ret (<[Z.to_nat i := x]> l).
Proof. intros. unfold upd. by rewrite bool_decide_eq_true_2. Qed.

Lemma upd_panic {A} (l : list A) i x :
  ¬ (0 ≤ i < len l) → upd l i x = Panic "index out of range".
Proof. intros. unfold upd. by rewrite bool_decide_eq_false_2. Qed.

Lemma slice_Ret {A} (l : list A) lo hi :
  0 ≤ lo ≤ hi → hi ≤ len l →
  slice l lo hi = Ret (take (Z.to_nat (hi - lo)) (drop (Z.to_nat lo) l)).
Proof. intros. unfold slice. rewrite bool_decide_eq_true_2; done. Qed.

Lemma make_Ret {A} (z : A) n :
  0 ≤ n → make z n = Ret (replicate (Z.to_nat n) z).
Proof. intros. unfold make. by rewrite bool_decide_eq_true_2. Qed.

Lemma length_copy {A} (dst src : list A) : length (copy dst src).1 = length dst.
Proof. unfold copy. simpl. rewrite length_app, length_take, length_drop. lia. Qed.

(** [copy] into a destination at least as long as the source. *)
Lemma copy_fits {A} (dst src : list A) :
  (length src ≤ length dst)%nat →
  copy dst src = (src ++ drop (length src) dst, len src).
Proof.
  intros H. unfold copy. rewrite Nat.min_r by done.
  by rewrite take_ge by done.
Qed.

(** Automation: simplify the guards of Go's partial operations. *)
Create HintDb go.
Create Rewrite HintDb go.
#[export] Hint Resolve is_pow2_pos is_pow2_double : go.
#[export] Hint Rewrite @upd_Ret @make_Ret @slice_Ret using lia : go.

Lemma bind_Ret {A B} (m : outcome A) (f : A → outcome B) b :
  (m ≫= f) = Ret b → ∃ a, m = Ret a ∧ f a = Ret b.
Proof. destruct m as [a| |]; [|done..]. by exists a. Qed.

(** Run the binds whose first computation has returned. *)
Ltac run := cbn [mbind outcome_bind mret outcome_ret].

(** [case_if] on every boolean guard of the goal, turning it into a
    proposition [lia] understands. *)
Ltac guards :=
  repeat match goal with
  | |- context [bool_decide ?P] =>
      let H := fresh "G" in destruct (bool_decide_reflect P) as [H|H]
  | |- context [if ?b then _ else _] =>
      lazymatch b with
      | Z.ltb ?x ?y => let H := fresh "G" in destruct (Z.ltb_spec x y) as [H|H]
      | Z.leb ?x ?y => let H := fresh "G" in destruct (Z.leb_spec x y) as [H|H]
      | Z.eqb ?x ?y => let H := fresh "G" in destruct (Z.eqb_spec x y) as [H|H]
      end
  end.

(** Positions in a ring of size [c]. *)
Lemma ring_inj c h i j :
  0 ≤ i < c → 0 ≤ j < c → (h + i) mod c = (h + j) mod c → i = j.
Proof.
  intros Hi Hj E.
  pose proof (Z.div_mod (h + i) c ltac:(lia)) as E1.
  pose proof (Z.div_mod (h + j) c ltac:(lia)) as E2.
  rewrite E in E1.
  assert (i - j = c * ((h + i) / c - (h + j) / c)) by lia.
  assert ((h + i) / c - (h + j) / c = 0) by nia.
  nia.
Qed.

Lemma ring_wrap c x : c ≤ x < 2 * c → x mod c = x - c.
Proof. intros. symmetry. apply (Z.mod_unique_pos _ _ 1); lia. Qed.

Lemma ring_neg c x : - c ≤ x < 0 → x mod c = x + c.
Proof. intros. symmetry. apply (Z.mod_unique_pos _ _ (-1)); lia. Qed.

(** ** Lists *)

Lemma filter_all {A} (P : A → Prop) `{!∀ x, Decision (P x)} (l : list A) :
  Forall P l → filter P l = l.
Proof.
  induction 1 as [|x l Hx _ IH]; [done|]. rewrite filter_cons, decide_True by done.
  by rewrite IH.
Qed.

Lemma filter_ext_elem {A} (P Q : A → Prop) `{!∀ x, Decision (P x)}
    `{!∀ x, Decision (Q x)} (l : list A) :
  (∀ x, x ∈ l → P x ↔ Q x) → filter P l = filter Q l.
Proof.
  induction l as [|x l IH]; intros HPQ; [done|]. rewrite !filter_cons.
  rewrite IH by (intros; apply HPQ; by right).
  destruct (HPQ x ltac:(left)). clear HPQ IH. by repeat case_decide; naive_solver.
Qed.

Lemma NoDup_fmap_filter {A B} (f : A → B) (P : A → Prop) `{!∀ x, Decision (P x)}
    (l : list A) :
  NoDup (f <$> l) → NoDup (f <$> filter P l).
Proof.
  induction l as [|x l IH]; [done|]. rewrite filter_cons. csimpl.
  intros [Hn Hd]%NoDup_cons. case_decide; [|by apply IH]. csimpl.
  apply NoDup_cons. split; [|by apply IH]. intros (y & Heq & Hy)%list_elem_of_fmap.
  apply list_elem_of_filter in Hy as [_ Hy]. apply Hn. rewrite Heq.
  by apply list_elem_of_fmap_2.
Qed.

Lemma submseteq_NoDup {A} (l k : list A) : l ⊆+ k → NoDup k → NoDup l.
Proof.
  intros [r ->]%submseteq_Permutation Hd. by apply NoDup_app in Hd as [? _].
Qed.

Lemma take_min_length {A} n (l : list A) : take (Nat.min n (length l)) l = take n l.
Proof.
  destruct (decide (n ≤ length l)%nat); [by rewrite Nat.min_l|].
  rewrite Nat.min_r by lia. by rewrite !take_ge by lia.
Qed.

Lemma elem_flat_map {A B} (f : A → list B) l y : y ∈ flat_map f l ↔ ∃ x, x ∈ l ∧ y ∈ f x.
Proof. rewrite list_elem_of_In, in_flat_map. by setoid_rewrite list_elem_of_In. Qed.

Lemma length_omap_le {A B} (f : A → option B) (l : list A) : (length (omap f l) ≤ length l)%nat.
Proof. induction l as [|x l IH]; csimpl; [lia|]. destruct (f x); simpl; lia. Qed.

Lemma list_max_elem (l : list nat) x : x ∈ l → (x ≤ list_max l)%nat.
Proof. intros Hx. induction Hx as [x l|x y l _ IH]; [apply Nat.le_max_l|]. etrans; [exact IH|apply Nat.le_max_r]. Qed.
