(* ===== verification/Deque.v ===== *)
(** * The ring-buffer deque ([common/deque/deque.go])

    [Deque] is the Go struct: a power-of-two buffer with head, tail and count.
    Every method is a definition of the same name; a Go panic is [Panic], a
    loop that may not return takes fuel.  [repr q l] relates a deque to the
    list of its elements, front first, and the theorems show that each method
    implements the list operation its documentation promises. *)

From S2P Require Import Prelude.

Definition minCapacity : Z := 8.

Record Deque (T : Type) := mkDeque {
  buf : list T;
  head : Z;
  tail : Z;
  count : Z;
  minCap : Z;
}.
Arguments mkDeque {T} _ _ _ _ _.
Arguments buf {T} _.
Arguments head {T} _.
Arguments tail {T} _.
Arguments count {T} _.
Arguments minCap {T} _.

Section ops.
Context {T : Type} (zero : T).
Implicit Types q : Deque T.

(** Field assignments of the Go code. *)
Definition set_buf q (b : list T) : Deque T := mkDeque b (head q) (tail q) (count q) (minCap q).
Definition set_head q h := mkDeque (buf q) h (tail q) (count q) (minCap q).
Definition set_tail q t := mkDeque (buf q) (head q) t (count q) (minCap q).
Definition set_count q c := mkDeque (buf q) (head q) (tail q) c (minCap q).
Definition set_minCap q m := mkDeque (buf q) (head q) (tail q) (count q) m.

(** [var d Deque[T]]. *)
Definition empty_deque : Deque T := mkDeque [] 0 0 0 0.

Definition Cap (q : option (Deque T)) : Z :=
  match q with
  | None => 0
  | Some q => len (buf q)
  end.

Definition Len (q : option (Deque T)) : Z :=
  match q with
  | None => 0
  | Some q => count q
  end.

Definition prev q (i : Z) : Z := Z.land (i - 1) (len (buf q) - 1).

Definition next q (i : Z) : Z := Z.land (i + 1) (len (buf q) - 1).

Definition checkRange q (i : Z) : outcome unit :=
  if (i <? 0) || (i >=? count q) then Panic "deque: index out of range"
  else Ret ().

Definition resize q (newSize : Z) : outcome (Deque T) :=
  newBuf ← make zero newSize;
  newBuf ←
    (if tail q >? head q then
       s ← slice (buf q) (head q) (tail q);
       Ret (copy newBuf s).1
     else
       s ← slice (buf q) (head q) (len (buf q));
       let '(newBuf, n) := copy newBuf s in
       s ← slice (buf q) 0 (tail q);
       Ret (take (Z.to_nat n) newBuf ++ (copy (drop (Z.to_nat n) newBuf) s).1));
  Ret (mkDeque newBuf 0 (count q) (count q) (minCap q)).

(** [for c < n { c <<= 1 }] on 64-bit [int]s. *)
Fixpoint double_until (fuel : nat) (c n : Z) : outcome Z :=
  match fuel with
  | O => OutOfFuel
  | S fuel => if c <? n then double_until fuel (i64 (Z.shiftl c 1)) n else Ret c
  end.

(** Sixty-five tests see every value the doubling can take before it is stuck
    at zero. *)
Definition loop_fuel : nat := 65.

Definition growIfFull q : outcome (Deque T) :=
  if negb (count q =? len (buf q)) then Ret q
  else if len (buf q) =? 0 then
    let q := if minCap q =? 0 then set_minCap q minCapacity else q in
    b ← make zero (minCap q);
    Ret (set_buf q b)
  else resize q (Z.shiftl (count q) 1).

Definition shrinkIfExcess q : outcome (Deque T) :=
  if (len (buf q) >? minCap q) && (Z.shiftl (count q) 2 =? len (buf q))
  then resize q (Z.shiftl (count q) 1)
  else Ret q.

Definition shrinkToFit q : outcome (Deque T) :=
  if (len (buf q) >? minCap q) && (Z.shiftl (count q) 2 <=? len (buf q)) then
    if count q =? 0 then
      b ← make zero (minCap q);
      Ret (mkDeque b 0 0 (count q) (minCap q))
    else
      c ← double_until loop_fuel (minCap q) (count q);
      resize q c
  else Ret q.

Definition PushBack q (elem : T) : outcome (Deque T) :=
  q ← growIfFull q;
  b ← upd (buf q) (tail q) elem;
  let q := set_buf q b in
  let q := set_tail q (next q (tail q)) in
  Ret (set_count q (count q + 1)).

Definition PushFront q (elem : T) : outcome (Deque T) :=
  q ← growIfFull q;
  let q := set_head q (prev q (head q)) in
  b ← upd (buf q) (head q) elem;
  let q := set_buf q b in
  Ret (set_count q (count q + 1)).

Definition PopFront q : outcome (T * Deque T) :=
  if count q <=? 0 then Panic "deque: PopFront() called on empty queue"
  else
    ret ← idx (buf q) (head q);
    b ← upd (buf q) (head q) zero;
    let q := set_buf q b in
    let q := set_head q (next q (head q)) in
    let q := set_count q (count q - 1) in
    q ← shrinkIfExcess q;
    Ret (ret, q).

Definition PopBack q : outcome (T * Deque T) :=
  if count q <=? 0 then Panic "deque: PopBack() called on empty queue"
  else
    let q := set_tail q (prev q (tail q)) in
    ret ← idx (buf q) (tail q);
    b ← upd (buf q) (tail q) zero;
    let q := set_buf q b in
    let q := set_count q (count q - 1) in
    q ← shrinkIfExcess q;
    Ret (ret, q).

Definition Front q : outcome T :=
  if count q <=? 0 then Panic "deque: Front() called when empty"
  else idx (buf q) (head q).

Definition Back q : outcome T :=
  if count q <=? 0 then Panic "deque: Back() called when empty"
  else idx (buf q) (prev q (tail q)).

Definition At q (i : Z) : outcome T :=
  checkRange q i ≫= λ _, idx (buf q) (Z.land (head q + i) (len (buf q) - 1)).

Definition Set_ q (i : Z) (item : T) : outcome (Deque T) :=
  checkRange q i ≫= λ _,
  b ← upd (buf q) (Z.land (head q + i) (len (buf q) - 1)) item;
  Ret (set_buf q b).

(** *** Iterators

    A [yield] callback has a state [S] of its own and access to the deque it
    ranges over, which it may modify; it answers whether to go on. *)
Section iterators.
Context {S : Type} (yield : T → S → Deque T → bool * S * Deque T).

Fixpoint IterPopFront_loop (fuel : nat) q (s : S) : outcome (S * Deque T) :=
  match fuel with
  | O => OutOfFuel
  | Datatypes.S fuel =>
    if count q =? 0 then Ret (s, q)
    else
      ret ← idx (buf q) (head q);
      b ← upd (buf q) (head q) zero;
      let q := set_buf q b in
      let q := set_head q (next q (head q)) in
      let q := set_count q (count q - 1) in
      let '(go_on, s, q) := yield ret s q in
      if go_on then IterPopFront_loop fuel q s else Ret (s, q)
  end.

Definition IterPopFront (fuel : nat) q (s : S) : outcome (S * Deque T) :=
  if Len (Some q) =? 0 then Ret (s, q)
  else
    '(s, q) ← IterPopFront_loop fuel q s;
    q ← shrinkToFit q;
    Ret (s, q).

Fixpoint IterPopBack_loop (fuel : nat) q (s : S) : outcome (S * Deque T) :=
  match fuel with
  | O => OutOfFuel
  | Datatypes.S fuel =>
    if count q =? 0 then Ret (s, q)
    else
      let q := set_tail q (prev q (tail q)) in
      ret ← idx (buf q) (tail q);
      b ← upd (buf q) (tail q) zero;
      let q := set_buf q b in
      let q := set_count q (count q - 1) in
      let '(go_on, s, q) := yield ret s q in
      if go_on then IterPopBack_loop fuel q s else Ret (s, q)
  end.

Definition IterPopBack (fuel : nat) q (s : S) : outcome (S * Deque T) :=
  if Len (Some q) =? 0 then Ret (s, q)
  else
    '(s, q) ← IterPopBack_loop fuel q s;
    q ← shrinkToFit q;
    Ret (s, q).

Fixpoint Iter_loop (fuel : nat) (origHead origTail hd i : Z) q (s : S)
    : outcome (S * Deque T) :=
  match fuel with
  | O => OutOfFuel
  | Datatypes.S fuel =>
    if i <? Len (Some q) then
      if negb (head q =? origHead) || negb (tail q =? origTail)
      then Panic "deque: modified during iteration"
      else
        x ← idx (buf q) hd;
        let '(go_on, s, q) := yield x s q in
        if go_on
        then Iter_loop fuel origHead origTail (next q hd) (i + 1) q s
        else Ret (s, q)
    else Ret (s, q)
  end.

Definition Iter (fuel : nat) q (s : S) : outcome (S * Deque T) :=
  Iter_loop fuel (head q) (tail q) (head q) 0 q s.

Fixpoint RIter_loop (fuel : nat) (origHead origTail tl i : Z) q (s : S)
    : outcome (S * Deque T) :=
  match fuel with
  | O => OutOfFuel
  | Datatypes.S fuel =>
    if i <? Len (Some q) then
      if negb (head q =? origHead) || negb (tail q =? origTail)
      then Panic "deque: modified during iteration"
      else
        let tl := prev q tl in
        x ← idx (buf q) tl;
        let '(go_on, s, q) := yield x s q in
        if go_on then RIter_loop fuel origHead origTail tl (i + 1) q s
        else Ret (s, q)
    else Ret (s, q)
  end.

Definition RIter (fuel : nat) q (s : S) : outcome (S * Deque T) :=
  RIter_loop fuel (head q) (tail q) (tail q) 0 q s.

End iterators.

(** [clearSlice(b[lo:hi])]: zero the cells of a sub-slice in place. *)
Definition clearSlice (b : list T) (lo hi : Z) : outcome (list T) :=
  s ← slice b lo hi;
  Ret (take (Z.to_nat lo) b ++ replicate (length s) zero ++ drop (Z.to_nat hi) b).

Definition Clear q : outcome (Deque T) :=
  if Len (Some q) =? 0 then Ret q
  else
    let hd := head q in
    let tl := tail q in
    let q := mkDeque (buf q) 0 0 0 (minCap q) in
    '(b, hd) ←
      (if hd >=? tl then
         b ← clearSlice (buf q) hd (len (buf q));
         Ret (b, 0)
       else Ret (buf q, hd));
    b ← clearSlice b hd tl;
    Ret (set_buf q b).

Definition Grow q (n : Z) : outcome (Deque T) :=
  if n <? 0 then Panic "deque.Grow: negative count"
  else
    let c := Cap (Some q) in
    let l := Len (Some q) in
    if n <=? c - l then Ret q
    else
      let c := if c =? 0 then minCapacity else c in
      let newLen := i64 (l + n) in
      c ← double_until loop_fuel c newLen;
      if l =? 0 then
        b ← make zero c;
        Ret (mkDeque b 0 0 (count q) (minCap q))
      else resize q c.

Definition AppendToSlice q (out : list T) : outcome (list T) :=
  if count q =? 0 then Ret out
  else
    '(out, hd) ←
      (if head q >=? tail q then
         s ← slice (buf q) (head q) (len (buf q));
         Ret (out ++ s, 0)
       else Ret (out, head q));
    s ← slice (buf q) hd (tail q);
    Ret (out ++ s).

(** The new contents of [out] and the number of elements copied. *)
Definition CopyOutSlice q (out : list T) : outcome (list T * Z) :=
  if (count q =? 0) || (len out =? 0) then Ret (out, 0)
  else
    if head q >=? tail q then
      s ← slice (buf q) (head q) (len (buf q));
      let '(out1, n) := copy out s in
      let rest := drop (Z.to_nat n) out1 in
      if len rest =? 0 then Ret (out1, n)
      else
        s ← slice (buf q) 0 (tail q);
        let '(rest, m) := copy rest s in
        Ret (take (Z.to_nat n) out1 ++ rest, n + m)
    else
      s ← slice (buf q) (head q) (tail q);
      Ret (copy out s).

Definition Copy q (src : Deque T) : outcome (Deque T * Z) :=
  q ← Clear q;
  q ← Grow q (Len (Some src));
  '(b, n) ← CopyOutSlice src (buf q);
  Ret (mkDeque b 0 n n (minCap q), n).

Definition CopyInSlice q (inp : list T) : outcome (Deque T) :=
  q ←
    (if len (buf q) <? len inp then
       let newCap := len (buf q) in
       let '(newCap, q) :=
         if newCap =? 0 then (minCapacity, set_minCap q minCapacity)
         else (newCap, q) in
       newCap ← double_until loop_fuel newCap (len inp);
       b ← make zero newCap;
       Ret (set_buf q b)
     else if len (buf q) >? len inp then Clear q
     else Ret q);
  let '(b, n) := copy (buf q) inp in
  Ret (mkDeque b 0 n n (minCap q)).

Definition rotate_back1 (modBits : Z) q : outcome (Deque T) :=
  let q := set_head q (Z.land (head q - 1) modBits) in
  let q := set_tail q (Z.land (tail q - 1) modBits) in
  x ← idx (buf q) (tail q);
  b ← upd (buf q) (head q) x;
  b ← upd b (tail q) zero;
  Ret (set_buf q b).

Definition rotate_front1 (modBits : Z) q : outcome (Deque T) :=
  x ← idx (buf q) (head q);
  b ← upd (buf q) (tail q) x;
  b ← upd b (head q) zero;
  let q := set_buf q b in
  let q := set_head q (Z.land (head q + 1) modBits) in
  Ret (set_tail q (Z.land (tail q + 1) modBits)).

Definition Rotate q (n : Z) : outcome (Deque T) :=
  if Len (Some q) <=? 1 then Ret q
  else
    let n := Z.rem n (count q) in
    if n =? 0 then Ret q
    else
      let modBits := len (buf q) - 1 in
      if head q =? tail q then
        let h := Z.land (head q + n) modBits in
        Ret (mkDeque (buf q) h h (count q) (minCap q))
      else if n <? 0 then iterM (Z.to_nat (- n)) (rotate_back1 modBits) q
      else iterM (Z.to_nat n) (rotate_front1 modBits) q.

(** The remaining iterations of [for i := i; i < count; i++]. *)
Fixpoint Index_loop (todo : nat) q (f : T → bool) (i : Z) : outcome Z :=
  match todo with
  | O => Ret (-1)
  | S todo =>
    x ← idx (buf q) (Z.land (head q + i) (len (buf q) - 1));
    if f x then Ret i else Index_loop todo q f (i + 1)
  end.

Definition Index q (f : T → bool) : outcome Z :=
  if Len (Some q) >? 0 then Index_loop (Z.to_nat (count q)) q f 0 else Ret (-1).

Fixpoint RIndex_loop (todo : nat) q (f : T → bool) (i : Z) : outcome Z :=
  match todo with
  | O => Ret (-1)
  | S todo =>
    x ← idx (buf q) (Z.land (head q + i) (len (buf q) - 1));
    if f x then Ret i else RIndex_loop todo q f (i - 1)
  end.

Definition RIndex q (f : T → bool) : outcome Z :=
  if Len (Some q) >? 0 then RIndex_loop (Z.to_nat (count q)) q f (count q - 1)
  else Ret (-1).

(** [b[i], b[j] = b[j], b[i]]. *)
Definition swap_cells (b : list T) (i j : Z) : outcome (list T) :=
  x ← idx b j;
  y ← idx b i;
  b ← upd b i x;
  upd b j y.

(** One step of the bubbling loops of [Insert] and [Remove]: exchange the cell
    at the cursor with its neighbour and move the cursor there. *)
Definition bubble (nb : Deque T → Z → Z) (st : Deque T * Z) : outcome (Deque T * Z) :=
  let '(q, i) := st in
  let j := nb q i in
  b ← swap_cells (buf q) i j;
  Ret (set_buf q b, j).

Definition Insert q (at_ : Z) (item : T) : outcome (Deque T) :=
  if at_ <=? 0 then PushFront q item
  else if at_ >=? Len (Some q) then PushBack q item
  else if at_ * 2 <? count q then
    q ← PushFront q item;
    '(q, _) ← iterM (Z.to_nat at_) (bubble next) (q, head q);
    Ret q
  else
    let swaps := count q - at_ in
    q ← PushBack q item;
    '(q, _) ← iterM (Z.to_nat swaps) (bubble prev) (q, prev q (tail q));
    Ret q.

Definition Remove q (at_ : Z) : outcome (T * Deque T) :=
  checkRange q at_ ≫= λ _,
  let rm := Z.land (head q + at_) (len (buf q) - 1) in
  if at_ * 2 <? count q then
    '(q, _) ← iterM (Z.to_nat at_) (bubble prev) (q, rm);
    PopFront q
  else
    let swaps := count q - at_ - 1 in
    '(q, _) ← iterM (Z.to_nat swaps) (bubble next) (q, rm);
    PopBack q.

Definition SetBaseCap q (baseCap : Z) : outcome (Deque T) :=
  minCap ← double_until loop_fuel minCapacity baseCap;
  Ret (set_minCap q minCap).

Definition Swap q (idxA idxB : Z) : outcome (Deque T) :=
  checkRange q idxA ≫= λ _,
  checkRange q idxB ≫= λ _,
  if idxA =? idxB then Ret q
  else
    let realA := Z.land (head q + idxA) (len (buf q) - 1) in
    let realB := Z.land (head q + idxB) (len (buf q) - 1) in
    b ← swap_cells (buf q) realA realB;
    Ret (set_buf q b).

End ops.

(** ** The representation *)

Section repr.
Context {T : Type} (zero : T).
Implicit Types (q : Deque T) (l : list T).

(** Well-formed ring buffers: a power-of-two capacity (or none yet), and a
    tail that is the cell after the last element, modulo the capacity. *)
Record wf q : Prop := {
  wf_cap : buf q = [] ∨ is_pow2 (len (buf q));
  wf_minCap : minCap q = 0 ∨ is_pow2 (minCap q);
  wf_count : 0 ≤ count q ≤ len (buf q);
  wf_head : 0 ≤ head q < Z.max 1 (len (buf q));
  wf_tail : tail q = (head q + count q) mod len (buf q);
}.

(** [repr q l]: the deque [q] holds the elements [l], front first. *)
Record repr q l : Prop := {
  repr_wf : wf q;
  repr_len : len l = count q;
  repr_elem : ∀ i, 0 ≤ i < count q →
    l !! Z.to_nat i = buf q !! Z.to_nat ((head q + i) mod len (buf q));
}.

Lemma cap_pow2 q : wf q → 0 < count q ∨ buf q ≠ [] → is_pow2 (len (buf q)).
Proof.
  intros [[E|?] _ Hcnt _ _] Hc; [|done]. rewrite E in Hcnt, Hc. simpl in *.
  destruct Hc; [lia|done].
Qed.

Lemma next_mod q i : is_pow2 (len (buf q)) → next q i = (i + 1) mod len (buf q).
Proof. intros. by apply land_pow2. Qed.

Lemma prev_mod q i : is_pow2 (len (buf q)) → prev q i = (i - 1) mod len (buf q).
Proof. intros. by apply land_pow2. Qed.

Lemma repr_empty : repr (@empty_deque T) [].
Proof.
  split; [|done|simpl; lia].
  split; simpl; [by left|by left|lia|lia|done].
Qed.

(** The occupied cells in order, as the two-segment copies of the code read
    them. *)
Definition segments q : list T :=
  if tail q >? head q
  then take (Z.to_nat (tail q - head q)) (drop (Z.to_nat (head q)) (buf q))
  else drop (Z.to_nat (head q)) (buf q) ++ take (Z.to_nat (tail q)) (buf q).

(** Where the tail is relative to the head, for a non-empty deque. *)
Lemma tail_cases q :
  wf q → 0 < count q →
  (head q < tail q ∧ tail q = head q + count q ∧ tail q < len (buf q)) ∨
  (tail q ≤ head q ∧ tail q = head q + count q - len (buf q) ∧ 0 ≤ tail q).
Proof.
  intros Hwf Hc. pose proof (is_pow2_pos _ (cap_pow2 q Hwf (or_introl Hc))) as Hp.
  destruct Hwf as [_ _ ? Hh Ht].
  destruct (decide (head q + count q < len (buf q))).
  - left. rewrite Z.mod_small in Ht by lia. lia.
  - right. rewrite ring_wrap in Ht by lia. lia.
Qed.

Lemma segments_repr q l : repr q l → 0 < count q → segments q = l.
Proof.
  intros [Hwf Hl He] Hc. pose proof (tail_cases q Hwf Hc) as Ht.
  destruct Hwf as [_ _ Hcnt Hh _].
  apply list_eq. intros i. unfold segments.
  destruct (decide (Z.of_nat i < count q)) as [Hi|Hi].
  - specialize (He (Z.of_nat i) ltac:(lia)). rewrite Nat2Z.id in He. rewrite He.
    rewrite Z.gtb_ltb. destruct (Z.ltb_spec (head q) (tail q)).
    + rewrite lookup_take_lt, lookup_drop by lia. f_equal.
      rewrite Z.mod_small by lia. lia.
    + destruct (decide (head q + Z.of_nat i < len (buf q))).
      * rewrite lookup_app_l by (rewrite length_drop; lia).
        rewrite lookup_drop, Z.mod_small by lia. f_equal. lia.
      * rewrite lookup_app_r by (rewrite length_drop; lia).
        rewrite length_drop, lookup_take_lt by lia. f_equal.
        rewrite ring_wrap by lia. lia.
  - rewrite (lookup_ge_None_2 l) by lia. apply lookup_ge_None_2.
    rewrite Z.gtb_ltb. destruct (Z.ltb_spec (head q) (tail q)).
    + rewrite length_take, length_drop. lia.
    + rewrite length_app, length_take, length_drop. lia.
Qed.

(** A freshly laid out buffer represents its prefix. *)
Lemma repr_linear l (k : nat) m x :
  m = 0 ∨ is_pow2 m → is_pow2 (len l + Z.of_nat k) → (0 < k)%nat →
  repr (mkDeque (l ++ replicate k x) 0 (len l) (len l) m) l.
Proof.
  intros Hm Hp Hk. split; simpl; [|done|].
  - split; simpl; rewrite ?length_app, ?length_replicate, ?Nat2Z.inj_add; try done.
    + by right.
    + lia.
    + lia.
    + rewrite Z.mod_small; lia.
  - intros i Hi. rewrite length_app, length_replicate, Z.mod_small by lia.
    by rewrite lookup_app_l by lia.
Qed.

(** [resize] lays the elements out from the first cell of the new buffer. *)
Lemma resize_layout q l n :
  repr q l → 0 < count q ≤ n →
  resize zero q n = Ret (mkDeque (l ++ replicate (Z.to_nat (n - count q)) zero)
                           0 (count q) (count q) (minCap q)).
Proof.
  intros HR Hc. pose proof (segments_repr q l HR ltac:(lia)) as Hs.
  destruct HR as [Hwf Hl He].
  pose proof (tail_cases q Hwf ltac:(lia)) as Ht. pose proof Hwf as [_ _ Hcnt Hh _].
  unfold resize, segments in *. rewrite make_Ret by lia. run.
  rewrite Z.gtb_ltb in *. destruct (Z.ltb_spec (head q) (tail q)).
  - rewrite slice_Ret by lia. run. rewrite Hs.
    rewrite copy_fits by (rewrite length_replicate; lia). simpl.
    rewrite drop_replicate. by rewrite <- Hl, Z2Nat.inj_sub, Nat2Z.id by lia.
  - rewrite (slice_Ret _ (head q)) by lia. run.
    rewrite (take_ge (drop _ _)) by (rewrite length_drop; lia).
    rewrite copy_fits by (rewrite length_replicate, length_drop; lia).
    rewrite slice_Ret by lia. run.
    rewrite Nat2Z.id, take_app_length, drop_app_length, drop_0, drop_replicate.
    rewrite Z.sub_0_r.
    rewrite copy_fits by (rewrite length_replicate, length_take, length_drop; lia).
    simpl. rewrite app_assoc, Hs, drop_replicate. do 4 f_equal.
    rewrite length_take, length_drop. lia.
Qed.

(** With room to spare the result is well-formed. *)
Lemma resize_spec q l n :
  repr q l → 0 < count q < n → is_pow2 n →
  ∃ q', resize zero q n = Ret q' ∧ repr q' l ∧ len (buf q') = n.
Proof.
  intros HR Hc Hn. rewrite (resize_layout q l) by (done || lia).
  destruct HR as [Hwf Hl He]. eexists. split; [done|]. simpl. rewrite <- Hl. split.
  - apply repr_linear.
    + apply Hwf.
    + replace (len l + Z.of_nat (Z.to_nat (n - len l))) with n by lia. done.
    + lia.
  - rewrite length_app, length_replicate. lia.
Qed.

Lemma growIfFull_spec q l :
  repr q l →
  ∃ q', growIfFull zero q = Ret q' ∧ repr q' l ∧ count q' < len (buf q').
Proof.
  intros HR. pose proof HR as [Hwf Hl He]. pose proof Hwf as [Hcap Hmin Hcnt Hh Ht].
  unfold growIfFull. destruct (Z.eqb_spec (count q) (len (buf q))) as [E|E]; simpl.
  2: { exists q. split; [done|]. split; [done|lia]. }
  destruct (Z.eqb_spec (len (buf q)) 0) as [E0|E0].
  - set (q0 := if minCap q =? 0 then set_minCap q minCapacity else q).
    assert (is_pow2 (minCap q0) ∧ head q0 = 0 ∧ tail q0 = 0 ∧ count q0 = 0)
      as (Hp & H1 & H2 & H3).
    { rewrite E0 in *. assert (head q = 0) as H0 by lia.
      rewrite H0, E in Ht. simpl in Ht. subst q0.
      destruct (Z.eqb_spec (minCap q) 0); simpl.
      - split_and!; [|done|done|by rewrite E]. by exists 3.
      - destruct Hmin; [lia|]. split_and!; [done|done|done|by rewrite E]. }
    pose proof (is_pow2_pos _ Hp). rewrite make_Ret by lia. run.
    eexists. split; [done|]. assert (l = []) as -> by (destruct l; simpl in *; [done|lia]).
    unfold set_buf. simpl. rewrite H1, H2, H3, length_replicate. split; [|lia].
    apply (repr_linear [] _ (minCap q0) zero); [by right|simpl|lia].
    by rewrite Z2Nat.id by lia.
  - assert (is_pow2 (len (buf q))) as Hp.
    { apply cap_pow2; [done|]. left. lia. }
    destruct (resize_spec q l (Z.shiftl (count q) 1)) as (q' & -> & HR' & Hb);
      [done| | |].
    + rewrite Z.shiftl_mul_pow2 by lia. lia.
    + rewrite E. by apply is_pow2_double.
    + exists q'. split; [done|]. split; [done|].
      rewrite Hb, <- (repr_len _ _ HR'), Hl, Z.shiftl_mul_pow2 by lia. lia.
Qed.

(** The four elementary buffer updates, without resizing. *)
Lemma raw_push_back q l x :
  repr q l → count q < len (buf q) →
  repr (mkDeque (<[Z.to_nat (tail q) := x]> (buf q)) (head q)
          ((tail q + 1) mod len (buf q)) (count q + 1) (minCap q)) (l ++ [x]).
Proof.
  intros [[Hcap Hmin Hcnt Hh Ht] Hl He] Hlt.
  split; simpl.
  - split; simpl; rewrite ?length_insert; try done; try lia.
    + right. destruct Hcap as [E|]; [rewrite E in Hlt; simpl in Hlt; lia|done].
    + rewrite Ht, Zplus_mod_idemp_l. f_equal. lia.
  - rewrite length_app. simpl. lia.
  - intros i Hi. rewrite length_insert.
    pose proof (Z.mod_pos_bound (head q + count q) (len (buf q)) ltac:(lia)).
    pose proof (Z.mod_pos_bound (head q + i) (len (buf q)) ltac:(lia)).
    destruct (decide (i = count q)) as [->|Hne].
    + rewrite lookup_app_r by lia. rewrite <- Ht.
      rewrite list_lookup_insert_eq by lia.
      by replace (Z.to_nat (count q) - length l)%nat with 0%nat by lia.
    + rewrite lookup_app_l, list_lookup_insert_ne; [by apply He; lia| |lia].
      intros E. apply Hne. apply (ring_inj (len (buf q)) (head q)); lia.
Qed.

Lemma raw_push_front q l x :
  repr q l → count q < len (buf q) →
  repr (mkDeque (<[Z.to_nat ((head q - 1) mod len (buf q)) := x]> (buf q))
          ((head q - 1) mod len (buf q)) (tail q) (count q + 1) (minCap q)) (x :: l).
Proof.
  intros [[Hcap Hmin Hcnt Hh Ht] Hl He] Hlt.
  pose proof (Z.mod_pos_bound (head q - 1) (len (buf q)) ltac:(lia)) as Hb.
  split; simpl.
  - split; simpl; rewrite ?length_insert; try done; try lia.
    + right. destruct Hcap as [E|]; [rewrite E in Hlt; simpl in Hlt; lia|done].
    + rewrite Ht, Zplus_mod_idemp_l. f_equal. lia.
  - lia.
  - intros i Hi. rewrite length_insert, Zplus_mod_idemp_l.
    pose proof (Z.mod_pos_bound (head q - 1 + i) (len (buf q)) ltac:(lia)).
    destruct (decide (i = 0)) as [->|Hne].
    + rewrite Z.add_0_r, list_lookup_insert_eq by lia. done.
    + replace (Z.to_nat i) with (S (Z.to_nat (i - 1))) by lia. simpl.
      rewrite list_lookup_insert_ne.
      * rewrite He by lia. do 3 f_equal. lia.
      * intros E. apply Hne.
        apply (ring_inj (len (buf q)) (head q - 1)); [lia|lia|].
        rewrite Z.add_0_r. lia.
Qed.

Lemma raw_pop_front q l :
  repr q l → 0 < count q →
  ∃ x l', l = x :: l' ∧ idx (buf q) (head q) = Ret x ∧
  repr (mkDeque (<[Z.to_nat (head q) := zero]> (buf q))
          ((head q + 1) mod len (buf q)) (tail q) (count q - 1) (minCap q)) l'.
Proof.
  intros [[Hcap Hmin Hcnt Hh Ht] Hl He] Hlt.
  destruct l as [|x l]; simpl in *; [lia|]. exists x, l. split; [done|]. split.
  - apply idx_lookup; [lia|]. specialize (He 0 ltac:(lia)). simpl in He.
    rewrite Z.add_0_r, Z.mod_small in He by lia. done.
  - split; simpl.
    + split; simpl; rewrite ?length_insert; try done; try lia.
      * right. destruct Hcap as [E|]; [rewrite E in Hcnt; simpl in Hcnt; lia|done].
      * pose proof (Z.mod_pos_bound (head q + 1) (len (buf q)) ltac:(lia)). lia.
      * rewrite Ht, Zplus_mod_idemp_l. f_equal. lia.
    + lia.
    + intros i Hi. rewrite length_insert, Zplus_mod_idemp_l.
      rewrite list_lookup_insert_ne.
      * specialize (He (i + 1) ltac:(lia)).
        replace (Z.to_nat (i + 1)) with (S (Z.to_nat i)) in He by lia. simpl in He.
        rewrite He. do 3 f_equal. lia.
      * pose proof (Z.mod_pos_bound (head q + 1 + i) (len (buf q)) ltac:(lia)).
        intros E. assert (i + 1 = 0); [|lia].
        apply (ring_inj (len (buf q)) (head q)); [lia|lia|].
        rewrite Z.add_0_r, (Z.mod_small (head q)) by lia. rewrite Z.add_assoc in *.
        replace (head q + i + 1) with (head q + 1 + i) by lia. lia.
Qed.

Lemma raw_pop_back q l :
  repr q l → 0 < count q →
  ∃ x l', l = l' ++ [x] ∧
  idx (buf q) ((tail q - 1) mod len (buf q)) = Ret x ∧
  repr (mkDeque (<[Z.to_nat ((tail q - 1) mod len (buf q)) := zero]> (buf q))
          (head q) ((tail q - 1) mod len (buf q)) (count q - 1) (minCap q)) l'.
Proof.
  intros [[Hcap Hmin Hcnt Hh Ht] Hl He] Hlt.
  destruct l as [|x l _] using rev_ind; simpl in *; [lia|].
  rewrite length_app in Hl. simpl in Hl.
  assert ((tail q - 1) mod len (buf q) = (head q + (count q - 1)) mod len (buf q)) as Et.
  { rewrite Ht, Zminus_mod_idemp_l. f_equal. lia. }
  pose proof (Z.mod_pos_bound (tail q - 1) (len (buf q)) ltac:(lia)).
  exists x, l. split; [done|]. split.
  - apply idx_lookup; [lia|]. rewrite Et, <- He by lia.
    rewrite lookup_app_r by lia.
    by replace (Z.to_nat (count q - 1) - length l)%nat with 0%nat by lia.
  - split; simpl.
    + split; simpl; rewrite ?length_insert; try done; try lia.
      right. destruct Hcap as [E|]; [rewrite E in Hcnt; simpl in Hcnt; lia|done].
    + lia.
    + intros i Hi. rewrite length_insert, list_lookup_insert_ne.
      * rewrite <- He by lia. by rewrite lookup_app_l by lia.
      * pose proof (Z.mod_pos_bound (head q + i) (len (buf q)) ltac:(lia)).
        intros E. assert (i = count q - 1); [|lia].
        apply (ring_inj (len (buf q)) (head q)); [lia|lia|]. lia.
Qed.

(** ** The doubling loops *)

Lemma double_until_spec fuel c n :
  is_pow2 c → n ≤ 2 ^ 62 → n ≤ c * 2 ^ (Z.of_nat fuel) →
  ∃ c', double_until (S fuel) c n = Ret c' ∧ is_pow2 c' ∧ c ≤ c' ∧ n ≤ c' ∧
        (c' = c ∨ c' < 2 * n).
Proof.
  revert c. induction fuel as [|fuel IH]; intros c Hp Hn Hf.
  - exists c. simpl in *. destruct (Z.ltb_spec c n); [lia|].
    split_and!; [done|done|lia|lia|by left].
  - pose proof (is_pow2_pos _ Hp). cbn [double_until].
    destruct (Z.ltb_spec c n) as [Hlt|Hge].
    + assert (Z.shiftl c 1 = 2 * c) as E by (rewrite Z.shiftl_mul_pow2; lia).
      assert (i64 (Z.shiftl c 1) = 2 * c) as -> by (rewrite E, i64_small; lia).
      destruct (IH (2 * c)) as (c' & Hc' & ? & ? & ? & ?).
      * rewrite <- E. auto with go.
      * done.
      * rewrite Nat2Z.inj_succ, Z.pow_succ_r in Hf by lia. lia.
      * exists c'. split_and!; try done; lia.
    + exists c. split_and!; [done|done|lia|lia|by left].
Qed.

Lemma double_until_ok c n :
  is_pow2 c → n ≤ 2 ^ 62 →
  ∃ c', double_until loop_fuel c n = Ret c' ∧ is_pow2 c' ∧ c ≤ c' ∧ n ≤ c' ∧
        (c' = c ∨ c' < 2 * n).
Proof.
  intros Hp Hn. apply double_until_spec; [done|done|].
  pose proof (is_pow2_pos _ Hp). nia.
Qed.

(** From zero the doubling never ends. *)
Lemma double_until_zero fuel n : 0 < n → double_until fuel 0 n = OutOfFuel.
Proof.
  intros Hn. induction fuel as [|fuel IH]; [done|].
  cbn [double_until]. destruct (Z.ltb_spec 0 n); [|lia]. done.
Qed.

(** ** Operations at the ends *)

Lemma PushBack_spec q l x :
  repr q l → ∃ q', PushBack zero q x = Ret q' ∧ repr q' (l ++ [x]).
Proof.
  intros HR. destruct (growIfFull_spec q l HR) as (q1 & E & HR1 & Hlt).
  unfold PushBack. rewrite E. run.
  pose proof HR1 as [Hwf Hl _]. pose proof Hwf as [_ _ Hcnt _ Ht].
  assert (is_pow2 (len (buf q1))) as Hp.
  { apply cap_pow2; [done|]. right. intros E0. rewrite E0 in Hlt. simpl in Hlt. lia. }
  pose proof (Z.mod_pos_bound (head q1 + count q1) (len (buf q1)) ltac:(lia)).
  rewrite upd_Ret by lia. run. eexists. split; [done|].
  unfold set_count, set_tail, set_buf. cbn [buf head tail count minCap].
  rewrite next_mod by (simpl; by rewrite length_insert).
  simpl. rewrite length_insert. by apply raw_push_back.
Qed.

Lemma PushFront_spec q l x :
  repr q l → ∃ q', PushFront zero q x = Ret q' ∧ repr q' (x :: l).
Proof.
  intros HR. destruct (growIfFull_spec q l HR) as (q1 & E & HR1 & Hlt).
  unfold PushFront. rewrite E. run.
  pose proof HR1 as [Hwf Hl _]. pose proof Hwf as [_ _ Hcnt _ Ht].
  assert (is_pow2 (len (buf q1))) as Hp.
  { apply cap_pow2; [done|]. right. intros E0. rewrite E0 in Hlt. simpl in Hlt. lia. }
  pose proof (Z.mod_pos_bound (head q1 - 1) (len (buf q1)) ltac:(lia)).
  unfold set_count, set_head, set_buf. cbn [buf head tail count minCap].
  rewrite prev_mod by done. rewrite upd_Ret by lia. run. eexists. split; [done|].
  by apply raw_push_front.
Qed.

Lemma shrinkIfExcess_spec q l :
  repr q l → ∃ q', shrinkIfExcess zero q = Ret q' ∧ repr q' l.
Proof.
  intros HR. pose proof HR as [Hwf Hl _]. unfold shrinkIfExcess.
  destruct (Z.gtb_spec (len (buf q)) (minCap q)) as [Hgt|]; simpl; [|by exists q].
  destruct (Z.eqb_spec (Z.shiftl (count q) 2) (len (buf q))) as [E|]; [|by exists q].
  rewrite Z.shiftl_mul_pow2 in E by lia. change (2 ^ 2) with 4 in E.
  assert (0 ≤ minCap q) as Hm.
  { destruct Hwf as [_ [->|H%is_pow2_pos] _ _ _]; lia. }
  destruct (resize_spec q l (Z.shiftl (count q) 1)) as (q' & -> & HR' & _);
    [done| | |].
  - rewrite Z.shiftl_mul_pow2 by lia. lia.
  - rewrite Z.shiftl_mul_pow2 by lia.
    destruct (cap_pow2 q Hwf) as (k & Hk & Ek); [left; lia|].
    exists (k - 1). rewrite <- E in Ek.
    assert (1 ≤ k). { destruct (decide (k = 0)) as [->|]; [simpl in Ek; lia|lia]. }
    replace k with (Z.succ (k - 1)) in Ek by lia. rewrite Z.pow_succ_r in Ek by lia.
    split; lia.
  - by exists q'.
Qed.

Lemma PopFront_spec q x l :
  repr q (x :: l) → ∃ q', PopFront zero q = Ret (x, q') ∧ repr q' l.
Proof.
  intros HR. pose proof HR as [Hwf Hl _]. simpl in Hl.
  destruct (raw_pop_front q _ HR) as (y & l' & E & Hi & HR'); [lia|].
  simplify_eq. unfold PopFront. destruct (Z.leb_spec (count q) 0); [lia|].
  pose proof (cap_pow2 q Hwf ltac:(left; lia)) as Hp.
  pose proof (wf_head q Hwf). pose proof (is_pow2_pos _ Hp).
  rewrite Hi, upd_Ret by lia. run.
  unfold set_count, set_head, set_buf. cbn [buf head tail count minCap].
  rewrite next_mod by (simpl; by rewrite length_insert).
  cbn [buf]. rewrite length_insert.
  destruct (shrinkIfExcess_spec _ _ HR') as (q' & -> & ?). by exists q'.
Qed.

Lemma PopBack_spec q x l :
  repr q (l ++ [x]) → ∃ q', PopBack zero q = Ret (x, q') ∧ repr q' l.
Proof.
  intros HR. pose proof HR as [Hwf Hl _]. rewrite length_app in Hl. simpl in Hl.
  destruct (raw_pop_back q _ HR) as (y & l' & E & Hi & HR'); [lia|].
  apply app_inj_tail in E as [-> ->].
  unfold PopBack. destruct (Z.leb_spec (count q) 0); [lia|].
  pose proof (cap_pow2 q Hwf ltac:(left; lia)) as Hp. pose proof (is_pow2_pos _ Hp).
  pose proof (Z.mod_pos_bound (tail q - 1) (len (buf q)) ltac:(lia)).
  unfold set_count, set_tail, set_buf. cbn [buf head tail count minCap].
  rewrite prev_mod by done. rewrite Hi, upd_Ret by lia. run.
  destruct (shrinkIfExcess_spec _ _ HR') as (q' & -> & ?). by exists q'.
Qed.

Lemma Pop_empty q :
  repr q [] →
  PopFront zero q = Panic "deque: PopFront() called on empty queue" ∧
  PopBack zero q = Panic "deque: PopBack() called on empty queue".
Proof.
  intros [_ Hl _]. unfold PopFront, PopBack. simpl in Hl. by rewrite <- Hl.
Qed.

(** ** Random access *)

(** The cell of the [i]-th element. *)
Definition pos q (i : Z) : Z := (head q + i) mod len (buf q).

Lemma pos_range q i : 0 < len (buf q) → 0 ≤ pos q i < len (buf q).
Proof. intros. by apply Z.mod_pos_bound. Qed.

Lemma land_pos q i :
  is_pow2 (len (buf q)) → Z.land (head q + i) (len (buf q) - 1) = pos q i.
Proof. apply land_pow2. Qed.

Lemma repr_pow2 q l i : repr q l → 0 ≤ i < len l → is_pow2 (len (buf q)).
Proof. intros [Hwf Hl _] Hi. apply cap_pow2; [done|]. left. lia. Qed.

Lemma repr_cell q l i x :
  repr q l → 0 ≤ i → l !! Z.to_nat i = Some x → idx (buf q) (pos q i) = Ret x.
Proof.
  intros HR Hi Hx. pose proof (lookup_lt_Some _ _ _ Hx).
  pose proof (is_pow2_pos _ (repr_pow2 q l i HR ltac:(lia))).
  destruct HR as [Hwf Hl He].
  apply idx_lookup; [by apply pos_range|]. rewrite <- Hx. symmetry. apply He. lia.
Qed.

Lemma raw_set q l i x :
  repr q l → 0 ≤ i < len l →
  repr (set_buf q (<[Z.to_nat (pos q i) := x]> (buf q))) (<[Z.to_nat i := x]> l).
Proof.
  intros HR Hi. pose proof (is_pow2_pos _ (repr_pow2 q l i HR Hi)) as Hp.
  destruct HR as [[Hcap Hmin Hcnt Hh Ht] Hl He]. split; simpl.
  - split; simpl; rewrite ?length_insert; try done.
    destruct Hcap as [E|]; [left|by right]. by rewrite E.
  - by rewrite length_insert.
  - intros j Hj. rewrite length_insert.
    pose proof (pos_range q i Hp). pose proof (pos_range q j Hp).
    destruct (decide (i = j)) as [->|Hne].
    + rewrite !list_lookup_insert_eq by (unfold pos in *; lia). done.
    + rewrite !list_lookup_insert_ne; [by apply He| |lia].
      intros E. apply Hne. apply (ring_inj (len (buf q)) (head q)); [lia|lia|].
      unfold pos in *. lia.
Qed.

Lemma checkRange_ok q l i : repr q l → 0 ≤ i < len l → checkRange q i = Ret ().
Proof.
  intros [_ Hl _] Hi. unfold checkRange. rewrite <- Hl.
  destruct (Z.ltb_spec i 0); [lia|]. by destruct (Z.geb_spec i (len l)); [lia|].
Qed.

Lemma checkRange_panic q l i :
  repr q l → ¬ (0 ≤ i < len l) → checkRange q i = Panic "deque: index out of range".
Proof.
  intros [_ Hl _] Hi. unfold checkRange. rewrite <- Hl.
  destruct (Z.ltb_spec i 0); [done|]. by destruct (Z.geb_spec i (len l)); [|lia].
Qed.

Lemma At_lookup q l i x :
  repr q l → 0 ≤ i → l !! Z.to_nat i = Some x → At q i = Ret x.
Proof.
  intros HR Hi Hx. pose proof (lookup_lt_Some _ _ _ Hx). unfold At.
  rewrite (checkRange_ok q l) by (done || lia). run.
  rewrite land_pos by (apply (repr_pow2 q l i); [done|lia]).
  by apply (repr_cell q l).
Qed.

Lemma Set_spec q l i x :
  repr q l → 0 ≤ i < len l →
  ∃ q', Set_ q i x = Ret q' ∧ repr q' (<[Z.to_nat i := x]> l).
Proof.
  intros HR Hi. unfold Set_. rewrite (checkRange_ok q l) by done. run.
  pose proof (repr_pow2 q l i HR Hi) as Hp. rewrite land_pos by done.
  rewrite upd_Ret by (apply pos_range; auto with go). run.
  eexists. split; [done|]. by apply raw_set.
Qed.

(** ** Exchanging cells *)

Lemma swap_cells_spec q l i j x y :
  repr q l → 0 ≤ i → 0 ≤ j →
  l !! Z.to_nat i = Some x → l !! Z.to_nat j = Some y →
  ∃ b, swap_cells (buf q) (pos q i) (pos q j) = Ret b ∧
       length b = length (buf q) ∧
       repr (set_buf q b) (<[Z.to_nat j := x]> (<[Z.to_nat i := y]> l)).
Proof.
  intros HR Hi Hj Hx Hy.
  pose proof (lookup_lt_Some _ _ _ Hx). pose proof (lookup_lt_Some _ _ _ Hy).
  pose proof (is_pow2_pos _ (repr_pow2 q l i HR ltac:(lia))) as Hp.
  unfold swap_cells. rewrite (repr_cell q l j y), (repr_cell q l i x) by done. run.
  rewrite upd_Ret by (by apply pos_range). run.
  rewrite upd_Ret by (rewrite length_insert; by apply pos_range).
  eexists. split; [done|]. split; [by rewrite !length_insert|].
  pose proof (raw_set q l i y HR ltac:(lia)) as HR1.
  pose proof (raw_set _ _ j x HR1 ltac:(rewrite length_insert; lia)) as HR2.
  unfold pos in HR2. simpl in HR2. rewrite length_insert in HR2. exact HR2.
Qed.

Lemma Swap_spec q l i j x y :
  repr q l → 0 ≤ i → 0 ≤ j →
  l !! Z.to_nat i = Some x → l !! Z.to_nat j = Some y →
  ∃ q', Swap q i j = Ret q' ∧ repr q' (<[Z.to_nat j := x]> (<[Z.to_nat i := y]> l)).
Proof.
  intros HR Hi Hj Hx Hy.
  pose proof (lookup_lt_Some _ _ _ Hx). pose proof (lookup_lt_Some _ _ _ Hy).
  unfold Swap. rewrite !(checkRange_ok q l) by (done || lia). run.
  destruct (Z.eqb_spec i j) as [->|Hne].
  - exists q. split; [done|]. rewrite Hx in Hy. simplify_eq.
    by rewrite list_insert_insert_eq, list_insert_id.
  - rewrite !land_pos by (apply (repr_pow2 q l i); [done|lia]).
    destruct (swap_cells_spec q l i j x y) as (b & -> & _ & HR'); [done..|].
    eexists. by split.
Qed.

Lemma bubble_spec nb q l i j x y :
  repr q l → 0 ≤ i → 0 ≤ j →
  l !! Z.to_nat i = Some x → l !! Z.to_nat j = Some y →
  nb q (pos q i) = pos q j →
  ∃ q', bubble nb (q, pos q i) = Ret (q', pos q' j) ∧
        repr q' (<[Z.to_nat j := x]> (<[Z.to_nat i := y]> l)).
Proof.
  intros HR Hi Hj Hx Hy En.
  destruct (swap_cells_spec q l i j x y) as (b & Eb & Hb & HR'); [done..|].
  exists (set_buf q b). split; [|done].
  unfold bubble. rewrite En, Eb. run. unfold pos. simpl. by rewrite Hb.
Qed.

Lemma next_pos q i : is_pow2 (len (buf q)) → next q (pos q i) = pos q (i + 1).
Proof.
  intros. rewrite next_mod by done. unfold pos. rewrite Zplus_mod_idemp_l.
  f_equal. lia.
Qed.

Lemma prev_pos q i : is_pow2 (len (buf q)) → prev q (pos q i) = pos q (i - 1).
Proof.
  intros. rewrite prev_mod by done. unfold pos. rewrite Zminus_mod_idemp_l.
  f_equal. lia.
Qed.

Lemma prev_tail q l :
  repr q l → is_pow2 (len (buf q)) → prev q (tail q) = pos q (count q - 1).
Proof.
  intros [Hwf _ _] Hp. rewrite prev_mod, (wf_tail q Hwf) by done.
  unfold pos. rewrite Zminus_mod_idemp_l. f_equal. lia.
Qed.

Lemma head_pos q l : repr q l → 0 < len (buf q) → head q = pos q 0.
Proof.
  intros [Hwf _ _] Hp. pose proof (wf_head q Hwf). unfold pos.
  rewrite Z.add_0_r, Z.mod_small; lia.
Qed.

Lemma repr_pow2_mid q l1 x l2 : repr q (l1 ++ x :: l2) → is_pow2 (len (buf q)).
Proof. intros HR. apply (repr_pow2 q _ 0 HR). rewrite length_app. simpl. lia. Qed.

Lemma bubble_next_step q l1 x y l2 :
  repr q (l1 ++ x :: y :: l2) →
  ∃ q', bubble next (q, pos q (len l1)) = Ret (q', pos q' (len l1 + 1)) ∧
        repr q' (l1 ++ y :: x :: l2).
Proof.
  intros HR. pose proof (repr_pow2_mid _ _ _ _ HR) as Hp.
  destruct (bubble_spec next q _ (len l1) (len l1 + 1) x y HR) as (q' & E & HR').
  - lia.
  - lia.
  - rewrite Nat2Z.id. by rewrite list_lookup_middle.
  - rewrite lookup_app_r by lia.
    by replace (Z.to_nat (len l1 + 1) - length l1)%nat with 1%nat by lia.
  - by apply next_pos.
  - exists q'. split; [done|].
    replace (Z.to_nat (len l1 + 1)) with (length l1 + 1)%nat in HR' by lia.
    replace (Z.to_nat (len l1)) with (length l1 + 0)%nat in HR' by lia.
    rewrite !insert_app_r in HR'. exact HR'.
Qed.

Lemma bubble_prev_step q l1 x y l2 :
  repr q (l1 ++ x :: y :: l2) →
  ∃ q', bubble prev (q, pos q (len l1 + 1)) = Ret (q', pos q' (len l1)) ∧
        repr q' (l1 ++ y :: x :: l2).
Proof.
  intros HR. pose proof (repr_pow2_mid _ _ _ _ HR) as Hp.
  destruct (bubble_spec prev q _ (len l1 + 1) (len l1) y x HR) as (q' & E & HR').
  - lia.
  - lia.
  - rewrite lookup_app_r by lia.
    by replace (Z.to_nat (len l1 + 1) - length l1)%nat with 1%nat by lia.
  - rewrite Nat2Z.id. by rewrite list_lookup_middle.
  - rewrite prev_pos by done. f_equal. lia.
  - exists q'. split; [done|].
    replace (Z.to_nat (len l1 + 1)) with (length l1 + 1)%nat in HR' by lia.
    replace (Z.to_nat (len l1)) with (length l1 + 0)%nat in HR' by lia.
    rewrite !insert_app_r in HR'. exact HR'.
Qed.

(** Bubbling an element towards the back, or towards the front. *)
Lemma bubble_next_iter q l1 x a l2 :
  repr q (l1 ++ x :: a ++ l2) →
  ∃ q' i, iterM (length a) (bubble next) (q, pos q (len l1)) = Ret (q', i) ∧
          repr q' (l1 ++ a ++ x :: l2).
Proof.
  revert q l1. induction a as [|y a IH]; intros q l1 HR.
  - by eexists _, _.
  - destruct (bubble_next_step q l1 x y (a ++ l2) HR) as (q1 & E & HR1).
    destruct (IH q1 (l1 ++ [y])) as (q' & i & E' & HR').
    { by rewrite <- app_assoc. }
    exists q', i. rewrite <- app_assoc in HR'. split; [|exact HR'].
    cbn [length iterM]. rewrite E. run. rewrite <- E'. do 3 f_equal.
    rewrite length_app. simpl. lia.
Qed.

Lemma bubble_prev_iter q l1 a x l2 :
  repr q (l1 ++ a ++ x :: l2) →
  ∃ q' i, iterM (length a) (bubble prev) (q, pos q (len l1 + len a)) = Ret (q', i) ∧
          repr q' (l1 ++ x :: a ++ l2).
Proof.
  revert q l2. induction a as [|y a IH] using rev_ind; intros q l2 HR.
  - by eexists _, _.
  - rewrite <- app_assoc in HR. simpl in HR. rewrite app_assoc in HR.
    destruct (bubble_prev_step q (l1 ++ a) y x l2 HR) as (q1 & E & HR1).
    rewrite <- app_assoc in HR1.
    destruct (IH q1 (y :: l2) HR1) as (q' & i & E' & HR').
    exists q', i. rewrite <- app_assoc. simpl. split; [|exact HR'].
    rewrite !length_app in *. simpl. rewrite Nat.add_comm. cbn [Nat.add iterM].
    replace (len l1 + Z.of_nat (S (length a))) with
      (Z.of_nat (length l1 + length a) + 1) by lia.
    rewrite E. run. rewrite <- E'. do 3 f_equal. lia.
Qed.

(** ** Insertion and removal in the middle *)

Lemma Insert_middle q l1 l2 x :
  repr q (l1 ++ l2) →
  ∃ q', Insert zero q (len l1) x = Ret q' ∧ repr q' (l1 ++ x :: l2).
Proof.
  intros HR. pose proof HR as [_ Hl _]. rewrite length_app in Hl. unfold Insert.
  destruct (Z.leb_spec (len l1) 0).
  { destruct l1; [|simpl in *; lia]. by apply PushFront_spec. }
  destruct (Z.geb_spec (len l1) (Len (Some q))); simpl in *.
  { destruct l2; [|simpl in *; lia]. rewrite app_nil_r in HR.
    by apply PushBack_spec. }
  destruct (Z.ltb_spec (len l1 * 2) (count q)).
  - destruct (PushFront_spec q _ x HR) as (q1 & -> & HR1). run.
    rewrite Nat2Z.id.
    rewrite (head_pos q1 _ HR1) by apply is_pow2_pos, (repr_pow2_mid q1 [] x _ HR1).
    destruct (bubble_next_iter q1 [] x l1 l2 HR1) as (q' & i & E & HR').
    change (len []) with 0 in E. rewrite E. by exists q'.
  - destruct (PushBack_spec q _ x HR) as (q1 & -> & HR1). run.
    rewrite <- app_assoc in HR1. simpl in HR1.
    rewrite (prev_tail q1 _ HR1).
    2: { apply (repr_pow2_mid q1 (l1 ++ l2) x []). by rewrite <- app_assoc. }
    destruct (bubble_prev_iter q1 l1 l2 x [] HR1) as (q' & i & E & HR').
    rewrite app_nil_r in HR'. pose proof (repr_len _ _ HR1) as Hc.
    rewrite !length_app in Hc. simpl in Hc.
    replace (count q1 - 1) with (len l1 + len l2) by lia.
    replace (Z.to_nat (count q - len l1)) with (length l2) by lia.
    rewrite E. by exists q'.
Qed.

Lemma Remove_middle q l1 x l2 :
  repr q (l1 ++ x :: l2) →
  ∃ q', Remove zero q (len l1) = Ret (x, q') ∧ repr q' (l1 ++ l2).
Proof.
  intros HR. pose proof (repr_len _ _ HR) as Hl. rewrite length_app in Hl.
  simpl in Hl. unfold Remove.
  rewrite (checkRange_ok q _ _ HR) by (rewrite length_app; simpl; lia). run.
  rewrite land_pos by (by eapply repr_pow2_mid).
  destruct (Z.ltb_spec (len l1 * 2) (count q)).
  - rewrite Nat2Z.id.
    destruct (bubble_prev_iter q [] l1 x l2 HR) as (q' & i & E & HR').
    change (len [] + len l1) with (len l1) in E. rewrite E. run.
    by apply PopFront_spec.
  - replace (Z.to_nat (count q - len l1 - 1)) with (length l2) by lia.
    destruct (bubble_next_iter q l1 x l2 []) as (q' & i & E & HR').
    { by rewrite app_nil_r. }
    rewrite E. run. apply PopBack_spec. by rewrite <- app_assoc.
Qed.

(** ** Rotation *)

Lemma rotate_front1_spec q x l :
  repr q (x :: l) → count q < len (buf q) →
  ∃ q', rotate_front1 zero (len (buf q) - 1) q = Ret q' ∧ repr q' (l ++ [x]) ∧
        len (buf q') = len (buf q) ∧ count q' = count q.
Proof.
  intros HR Hlt. pose proof (repr_pow2_mid q [] x l HR) as Hp.
  pose proof (is_pow2_pos _ Hp). pose proof HR as [Hwf Hl _]. simpl in Hl.
  pose proof (wf_head q Hwf) as Hh. pose proof (tail_cases q Hwf ltac:(lia)) as Ht.
  destruct (raw_pop_front q _ HR) as (y & l' & E & Hi & HR1); [lia|]. simplify_eq.
  apply (raw_push_back _ _ y) in HR1; [|simpl; rewrite length_insert; lia].
  unfold rotate_front1. rewrite Hi. run. rewrite upd_Ret by lia. run.
  rewrite upd_Ret by (rewrite length_insert; lia). run.
  eexists. split; [done|]. split; [|by rewrite ?length_insert; simpl;
    rewrite !length_insert].
  unfold set_tail, set_head, set_buf. simpl in *. rewrite !land_pow2 by done.
  rewrite length_insert in HR1. rewrite list_insert_insert_ne in HR1 by lia.
  replace (count q - 1 + 1) with (count q) in HR1 by lia. exact HR1.
Qed.

Lemma rotate_back1_spec q x l :
  repr q (l ++ [x]) → count q < len (buf q) →
  ∃ q', rotate_back1 zero (len (buf q) - 1) q = Ret q' ∧ repr q' (x :: l) ∧
        len (buf q') = len (buf q) ∧ count q' = count q.
Proof.
  intros HR Hlt. pose proof (repr_pow2_mid q l x [] HR) as Hp.
  pose proof (is_pow2_pos _ Hp). pose proof HR as [Hwf Hl _].
  rewrite length_app in Hl. simpl in Hl.
  pose proof (wf_head q Hwf) as Hh. pose proof (wf_tail q Hwf) as Ht.
  pose proof (Z.mod_pos_bound (head q - 1) (len (buf q)) ltac:(lia)).
  pose proof (Z.mod_pos_bound (tail q - 1) (len (buf q)) ltac:(lia)).
  assert ((tail q - 1) mod len (buf q) ≠ (head q - 1) mod len (buf q)).
  { rewrite Ht, Zminus_mod_idemp_l. intros E.
    assert (count q = 0); [|lia].
    apply (ring_inj (len (buf q)) (head q - 1)); [lia|lia|].
    rewrite Z.add_0_r, <- E. f_equal. lia. }
  destruct (raw_pop_back q _ HR) as (y & l' & E & Hi & HR1); [lia|].
  apply app_inj_tail in E as [-> ->].
  apply (raw_push_front _ _ y) in HR1; [|simpl; rewrite length_insert; lia].
  unfold rotate_back1, set_tail, set_head, set_buf. cbn [buf head tail count minCap].
  rewrite !land_pow2 by done. rewrite Hi. run. rewrite upd_Ret by lia. run.
  rewrite upd_Ret by (rewrite length_insert; lia). run.
  eexists. split; [done|]. simpl in *. split; [|by rewrite !length_insert].
  rewrite length_insert in HR1. rewrite list_insert_insert_ne in HR1 by lia.
  replace (count q - 1 + 1) with (count q) in HR1 by lia. exact HR1.
Qed.

Lemma rotate_front_iter q a l :
  repr q (a ++ l) → count q < len (buf q) →
  ∃ q', iterM (length a) (rotate_front1 zero (len (buf q) - 1)) q = Ret q' ∧
        repr q' (l ++ a).
Proof.
  revert q l. induction a as [|x a IH]; intros q l HR Hlt.
  - exists q. by rewrite app_nil_r.
  - destruct (rotate_front1_spec q x (a ++ l) HR Hlt) as (q1 & E & HR1 & Hb & Hc).
    destruct (IH q1 (l ++ [x])) as (q' & E' & HR').
    + by rewrite app_assoc.
    + lia.
    + exists q'. rewrite <- app_assoc in HR'. split; [|done].
      cbn [length iterM]. rewrite E. run. by rewrite <- E', Hb.
Qed.

Lemma rotate_back_iter q l a :
  repr q (l ++ a) → count q < len (buf q) →
  ∃ q', iterM (length a) (rotate_back1 zero (len (buf q) - 1)) q = Ret q' ∧
        repr q' (a ++ l).
Proof.
  revert q l. induction a as [|x a IH] using rev_ind; intros q l HR Hlt.
  - exists q. by rewrite app_nil_r in HR.
  - rewrite app_assoc in HR.
    destruct (rotate_back1_spec q x (l ++ a) HR Hlt) as (q1 & E & HR1 & Hb & Hc).
    destruct (IH q1 (x :: l) HR1) as (q' & E' & HR'); [lia|].
    exists q'. rewrite <- app_assoc. split; [|done].
    rewrite length_app, Nat.add_comm. cbn [length Nat.add iterM]. rewrite E. run.
    by rewrite <- E', Hb.
Qed.

(** Rotating a full buffer only moves the head. *)
Lemma rotate_full q l k :
  repr q l → count q = len (buf q) → 0 ≤ k < count q →
  repr (mkDeque (buf q) (pos q k) (pos q k) (count q) (minCap q))
       (drop (Z.to_nat k) l ++ take (Z.to_nat k) l).
Proof.
  intros [[Hcap Hmin Hcnt Hh Ht] Hl He] Hfull Hk.
  pose proof (pos_range q k ltac:(lia)). split; simpl.
  - split; simpl; try done; [lia|].
    rewrite Hfull. replace (pos q k + len (buf q)) with (pos q k + 1 * len (buf q)) by lia.
    rewrite Z_mod_plus_full, Z.mod_small; lia.
  - rewrite length_app, length_drop, length_take. lia.
  - intros i Hi. unfold pos. rewrite Zplus_mod_idemp_l.
    destruct (decide (i < count q - k)).
    + rewrite lookup_app_l by (rewrite length_drop; lia). rewrite lookup_drop.
      replace (Z.to_nat k + Z.to_nat i)%nat with (Z.to_nat (k + i)) by lia.
      rewrite He by lia. do 3 f_equal. lia.
    + rewrite lookup_app_r by (rewrite length_drop; lia).
      rewrite length_drop, lookup_take_lt by lia.
      replace (Z.to_nat i - (length l - Z.to_nat k))%nat
        with (Z.to_nat (i - (count q - k))) by lia.
      rewrite He by lia. do 2 f_equal.
      replace (head q + k + i) with
        (head q + (i - (count q - k)) + 1 * len (buf q)) by lia.
      by rewrite Z_mod_plus_full.
Qed.

Lemma rem_mod n c : 0 < c → Z.rem n c mod c = n mod c.
Proof.
  intros Hc. rewrite Z.rem_eq by lia.
  replace (n - c * (n ÷ c)) with (n + (- (n ÷ c)) * c) by lia.
  by rewrite Z_mod_plus_full.
Qed.

Lemma Rotate_drop_take q l n :
  repr q l → l ≠ [] →
  ∃ q', Rotate zero q n = Ret q' ∧
        repr q' (drop (Z.to_nat (n mod len l)) l ++ take (Z.to_nat (n mod len l)) l).
Proof.
  intros HR Hne. pose proof HR as [Hwf Hl _]. unfold Rotate. cbn [Len].
  assert (0 < len l) by (destruct l; [done|simpl; lia]).
  destruct (Z.leb_spec (count q) 1).
  { exists q. split; [done|]. replace (len l) with 1 by lia.
    rewrite Z.mod_1_r. simpl. by rewrite drop_0, app_nil_r. }
  rewrite <- Hl. rewrite <- (rem_mod n) by lia.
  pose proof (Z.rem_bound_abs n (len l) ltac:(lia)) as Hr.
  set (r := Z.rem n (len l)) in *. clearbody r.
  destruct (Z.eqb_spec r 0) as [->|Hr0].
  { exists q. split; [done|]. rewrite Zmod_0_l. simpl.
    by rewrite drop_0, app_nil_r. }
  pose proof (cap_pow2 q Hwf ltac:(left; lia)) as Hp. pose proof (is_pow2_pos _ Hp).
  pose proof (tail_cases q Hwf ltac:(lia)) as Ht. pose proof (wf_count q Hwf).
  pose proof (wf_head q Hwf).
  assert (r mod len l = if r <? 0 then r + len l else r) as Hm.
  { destruct (Z.ltb_spec r 0); [apply ring_neg|apply Z.mod_small]; lia. }
  destruct (Z.eqb_spec (head q) (tail q)) as [E|E].
  - rewrite land_pos by done. eexists. split; [done|].
    assert (pos q r = pos q (r mod len l)) as ->.
    { unfold pos. rewrite Hm. destruct (Z.ltb_spec r 0); [|done].
      replace (head q + (r + len l)) with (head q + r + 1 * len (buf q)) by lia.
      by rewrite Z_mod_plus_full. }
    pose proof (Z.mod_pos_bound r (len l) ltac:(lia)).
    rewrite Hl in *. apply rotate_full; [done|lia|lia].
  - destruct (Z.ltb_spec r 0); rewrite Hm.
    + destruct (rotate_back_iter q (take (Z.to_nat (r + len l)) l)
                  (drop (Z.to_nat (r + len l)) l)) as (q' & E' & HR').
      { by rewrite take_drop. }
      { lia. }
      exists q'. split; [|done]. rewrite <- E', length_drop. do 2 f_equal. lia.
    + destruct (rotate_front_iter q (take (Z.to_nat r) l) (drop (Z.to_nat r) l))
        as (q' & E' & HR').
      { by rewrite take_drop. }
      { lia. }
      exists q'. split; [|done]. rewrite <- E', length_take. do 2 f_equal. lia.
Qed.

(** ** Bulk operations *)

Lemma length_clearSlice b lo hi b' :
  clearSlice zero b lo hi = Ret b' → length b' = length b.
Proof.
  unfold clearSlice, slice. case_bool_decide; simpl; [|done]. intros. simplify_eq.
  rewrite !length_app, length_replicate, !length_take, !length_drop. lia.
Qed.

Lemma clearSlice_Ret b lo hi :
  0 ≤ lo ≤ hi → hi ≤ len b → ∃ b', clearSlice zero b lo hi = Ret b'.
Proof. intros. unfold clearSlice. rewrite slice_Ret by done. by eexists. Qed.

(** A deque without elements, whatever its cells hold. *)
Lemma repr_nil b m h :
  (b = [] ∨ is_pow2 (len b)) → (m = 0 ∨ is_pow2 m) → 0 ≤ h < Z.max 1 (len b) →
  repr (mkDeque b h h 0 m) [].
Proof.
  intros Hb Hm Hh. split; simpl; [|done|lia].
  split; simpl; try done; [lia|]. rewrite Z.add_0_r.
  destruct Hb as [->|Hp]; [by destruct h|]. apply is_pow2_pos in Hp.
  rewrite Z.mod_small; lia.
Qed.

Lemma Clear_spec q l :
  repr q l →
  ∃ q', Clear zero q = Ret q' ∧ repr q' [] ∧ len (buf q') = len (buf q) ∧
        minCap q' = minCap q.
Proof.
  intros HR. pose proof HR as [Hwf Hl _]. unfold Clear. cbn [Len].
  destruct (Z.eqb_spec (count q) 0) as [E|E].
  { exists q. split_and!; try done.
    destruct l; [done|simpl in Hl; lia]. }
  pose proof (wf_count q Hwf). pose proof (tail_cases q Hwf ltac:(lia)) as Ht.
  pose proof (wf_head q Hwf). cbn [buf].
  set (b1 := if head q >=? tail q then _ else _).
  assert (∃ b h, b1 = Ret (b, h) ∧ length b = length (buf q) ∧ 0 ≤ h ≤ tail q)
    as (b & h & -> & Hb & Hh).
  { subst b1. destruct (Z.geb_spec (head q) (tail q)).
    - destruct (clearSlice_Ret (buf q) (head q) (len (buf q))) as [b Eb]; [lia|lia|].
      rewrite Eb. run. exists b, 0. split_and!; [done| |lia|lia].
      by apply length_clearSlice in Eb.
    - exists (buf q), (head q). split_and!; [done|done|lia|lia]. }
  run. destruct (clearSlice_Ret b h (tail q)) as [b' Eb']; [lia|lia|].
  rewrite Eb'. run. apply length_clearSlice in Eb'.
  eexists. split; [done|]. unfold set_buf. simpl.
  split_and!; [|by rewrite Eb', Hb|done]. destruct Hwf as [Hcap Hmin _ _ _].
  apply repr_nil; [|done|lia]. rewrite Eb', Hb.
  destruct Hcap as [E0|]; [|by right]. left. destruct b'; [done|].
  rewrite E0 in Hb. rewrite Hb in Eb'. done.
Qed.

Lemma Grow_spec q l n :
  repr q l → 0 ≤ n → len l + n ≤ 2 ^ 62 →
  ∃ q', Grow zero q n = Ret q' ∧ repr q' l ∧ n ≤ len (buf q') - len l.
Proof.
  intros HR Hn Hsz. pose proof HR as [Hwf Hl _]. unfold Grow. cbn [Len Cap].
  destruct (Z.ltb_spec n 0); [lia|]. rewrite <- Hl.
  destruct (Z.leb_spec n (len (buf q) - len l)) as [|Hbig]; [by exists q|].
  pose proof (wf_count q Hwf).
  set (c0 := if len (buf q) =? 0 then minCapacity else len (buf q)).
  assert (is_pow2 c0) as Hp0.
  { subst c0. destruct (Z.eqb_spec (len (buf q)) 0); [by exists 3|].
    apply cap_pow2; [done|]. right. intros E. rewrite E in *. done. }
  rewrite (i64_small (len l + n)) by lia.
  destruct (double_until_ok c0 (len l + n) Hp0 Hsz) as (c & -> & Hp & _ & Hc & _). run.
  pose proof (is_pow2_pos _ Hp).
  destruct (Z.eqb_spec (len l) 0) as [E|E].
  - rewrite make_Ret by lia. run. eexists. split; [done|]. simpl.
    rewrite length_replicate. split; [|lia].
    destruct l; [|simpl in E; lia]. replace (count q) with 0 by (simpl in Hl; lia).
    apply repr_nil; rewrite ?length_replicate, ?Z2Nat.id by lia;
      [by right|apply Hwf|lia].
  - destruct (resize_spec q l c) as (q' & -> & HR' & Hb); [done|lia|done|].
    exists q'. split; [done|]. split; [done|lia].
Qed.

Lemma SetBaseCap_spec q l baseCap :
  repr q l → baseCap ≤ 2 ^ 62 → ∃ q', SetBaseCap q baseCap = Ret q' ∧ repr q' l.
Proof.
  intros [Hwf Hl He] Hb. unfold SetBaseCap.
  destruct (double_until_ok minCapacity baseCap) as (c & -> & Hp & _); [by exists 3|done|]. run.
  eexists. split; [done|]. split; [|done|done]. destruct Hwf. split; try done. by right.
Qed.

Lemma AppendToSlice_spec q l out :
  repr q l → AppendToSlice q out = Ret (out ++ l).
Proof.
  intros HR. pose proof HR as [Hwf Hl _]. unfold AppendToSlice.
  destruct (Z.eqb_spec (count q) 0) as [E|E].
  { destruct l; [by rewrite app_nil_r|simpl in Hl; lia]. }
  pose proof (wf_count q Hwf). pose proof (wf_head q Hwf).
  rewrite <- (segments_repr q l HR) by lia. unfold segments.
  pose proof (tail_cases q Hwf ltac:(lia)) as Ht.
  rewrite Z.geb_leb, Z.gtb_ltb.
  destruct (Z.leb_spec (tail q) (head q)), (Z.ltb_spec (head q) (tail q)); try lia.
  - rewrite (slice_Ret _ (head q)) by lia. run.
    rewrite slice_Ret by lia. run. rewrite Z.sub_0_r, drop_0, <- app_assoc.
    by rewrite (take_ge (drop _ _)) by (rewrite length_drop; lia).
  - run. by rewrite slice_Ret by lia.
Qed.

Lemma CopyOutSlice_spec q l out :
  repr q l →
  CopyOutSlice q out =
    Ret (take (length out) l ++ drop (length l) out, Z.min (len l) (len out)).
Proof.
  intros HR. pose proof HR as [Hwf Hl _]. unfold CopyOutSlice.
  destruct (Z.eqb_spec (count q) 0) as [E|E]; cbn [orb].
  { destruct l; [|simpl in Hl; lia]. rewrite take_nil. simpl. rewrite drop_0.
    do 2 f_equal. lia. }
  destruct (Z.eqb_spec (len out) 0) as [E'|E'].
  { destruct out; [|simpl in E'; lia]. simpl. rewrite drop_nil. do 2 f_equal. lia. }
  pose proof (wf_count q Hwf). pose proof (wf_head q Hwf).
  pose proof (segments_repr q l HR ltac:(lia)) as Hs. unfold segments in Hs.
  pose proof (tail_cases q Hwf ltac:(lia)) as Ht.
  rewrite Z.geb_leb. rewrite Z.gtb_ltb in Hs.
  destruct (Z.leb_spec (tail q) (head q)), (Z.ltb_spec (head q) (tail q)); try lia.
  - rewrite (slice_Ret _ (head q)) by lia. run.
    rewrite (take_ge (drop _ _)) by (rewrite length_drop; lia).
    set (s1 := drop (Z.to_nat (head q)) (buf q)) in *.
    set (s2 := take (Z.to_nat (tail q)) (buf q)) in *.
    unfold copy at 1. rewrite Nat2Z.id.
    destruct (decide (length out ≤ length s1)%nat) as [Hle|Hgt].
    + rewrite Nat.min_l by done. rewrite (drop_ge out) by done. rewrite app_nil_r.
      rewrite (drop_ge (take _ s1)) by (rewrite length_take; lia). simpl.
      rewrite <- Hs, take_app_le by done.
      rewrite (drop_ge out) by (rewrite length_app; lia). rewrite app_nil_r.
      do 2 f_equal. rewrite length_app. lia.
    + rewrite Nat.min_r by lia. rewrite (take_ge s1) by done.
      rewrite drop_app_length. rewrite take_app_length.
      destruct (Z.eqb_spec (len (drop (length s1) out)) 0) as [E0|E0].
      { rewrite length_drop in E0. lia. }
      rewrite slice_Ret by lia. run. rewrite Z.sub_0_r, drop_0. fold s2.
      unfold copy. rewrite length_drop, <- Hs, take_app, drop_drop, length_app.
      rewrite (take_ge s1 (length out)) by lia. rewrite <- app_assoc.
      do 2 f_equal; [|lia]. f_equal.
      destruct (decide (length s2 ≤ length out - length s1)%nat).
      * rewrite Nat.min_r, !(take_ge s2) by lia. done.
      * rewrite Nat.min_l by lia. f_equal. rewrite !drop_ge by lia. done.
  - rewrite slice_Ret by lia. run. rewrite Hs. unfold copy.
    destruct (decide (length l ≤ length out)%nat).
    + rewrite Nat.min_r, !(take_ge l) by lia. do 2 f_equal. lia.
    + rewrite Nat.min_l by lia. rewrite !drop_ge by lia. do 2 f_equal. lia.
Qed.

(** A buffer filled to the last cell from the front, as a bulk copy or a
    shrink to an exact fit leaves it: the elements are in place, but the tail is
    one past the buffer instead of wrapped to zero. *)
Record packed q l : Prop := {
  packed_buf : buf q = l;
  packed_head : head q = 0;
  packed_tail : tail q = len l;
  packed_count : count q = len l;
  packed_pow2 : is_pow2 (len l);
}.

(** What a bulk fill of a buffer [b] with the elements [l] leaves. *)
Lemma fill_cases l b m :
  (m = 0 ∨ is_pow2 m) → (b = [] ∨ is_pow2 (len b)) → (length l ≤ length b)%nat →
  let q := mkDeque (l ++ drop (length l) b) 0 (len l) (len l) m in
  repr q l ∨ packed q l.
Proof.
  intros Hm Hb Hle q.
  destruct (decide (length l = length b)) as [E|E].
  - destruct Hb as [->|Hp].
    + left. destruct l; [|done]. apply repr_nil; [by left|done|simpl; lia].
    + right. subst q. rewrite drop_ge, app_nil_r by lia.
      split; simpl; try done. by rewrite E.
  - left. subst q. split; simpl; [|done|].
    + split; simpl; rewrite ?length_app, ?length_drop; try done; try lia.
      * right. replace (length l + (length b - length l))%nat with (length b) by lia.
        destruct Hb as [->|]; [simpl in *; lia|done].
      * rewrite Z.mod_small; lia.
    + intros i Hi. rewrite length_app, length_drop, Z.mod_small by lia.
      by rewrite lookup_app_l by lia.
Qed.

Lemma shrinkToFit_spec q l :
  repr q l → is_pow2 (minCap q) → len l ≤ 2 ^ 62 →
  ∃ q', shrinkToFit zero q = Ret q' ∧ (repr q' l ∨ packed q' l).
Proof.
  intros HR Hm Hsz. pose proof HR as [Hwf Hl _]. unfold shrinkToFit.
  destruct ((len (buf q) >? minCap q) && _); [|exists q; auto].
  pose proof (is_pow2_pos _ Hm).
  destruct (Z.eqb_spec (count q) 0) as [E|E].
  - rewrite make_Ret by lia. run. eexists. split; [done|]. left.
    destruct l; [|simpl in Hl; lia]. rewrite E.
    apply repr_nil; rewrite ?length_replicate, ?Z2Nat.id by lia; [by right..|lia].
  - destruct (double_until_ok (minCap q) (count q)) as (c & -> & Hp & _ & Hc & _);
      [done|lia|]. run. pose proof (wf_count q Hwf).
    rewrite (resize_layout q l) by (done || lia). eexists. split; [done|].
    rewrite <- Hl.
    replace (replicate _ _) with (drop (length l) (replicate (Z.to_nat c) zero))
      by (rewrite drop_replicate; f_equal; lia).
    apply fill_cases; [by right| |]; rewrite length_replicate; [right|lia].
    by rewrite Z2Nat.id by lia.
Qed.

Lemma CopyInSlice_cases q l inp :
  repr q l → len inp ≤ 2 ^ 62 →
  ∃ q', CopyInSlice zero q inp = Ret q' ∧ (repr q' inp ∨ packed q' inp).
Proof.
  intros HR Hsz. pose proof HR as [Hwf Hl _].
  pose proof Hwf as [Hcap Hmin _ _ _]. unfold CopyInSlice.
  set (step := if len (buf q) <? len inp then _ else _).
  assert (∃ q1, step = Ret q1 ∧ (minCap q1 = 0 ∨ is_pow2 (minCap q1)) ∧
    (buf q1 = [] ∨ is_pow2 (len (buf q1))) ∧ (length inp ≤ length (buf q1))%nat)
    as (q1 & -> & Hm1 & Hb1 & Hle).
  { subst step. destruct (Z.ltb_spec (len (buf q)) (len inp)) as [Hlt|Hge].
    - destruct (Z.eqb_spec (len (buf q)) 0) as [E|E].
      + destruct (double_until_ok minCapacity (len inp)) as (c & -> & Hp & _ & Hc & _);
          [by exists 3|lia|]. run. pose proof (is_pow2_pos _ Hp).
        rewrite make_Ret by lia. run. eexists. split; [done|]. simpl.
        rewrite length_replicate, Z2Nat.id by lia.
        split_and!; [right; by exists 3|by right|lia].
      + destruct Hcap as [E0|Hp0]; [rewrite E0 in E; done|].
        destruct (double_until_ok (len (buf q)) (len inp)) as (c & -> & Hp & _ & Hc & _);
          [done|lia|]. run. pose proof (is_pow2_pos _ Hp).
        rewrite make_Ret by lia. run. eexists. split; [done|]. simpl.
        rewrite length_replicate, Z2Nat.id by lia. split_and!; [done|by right|lia].
    - destruct (Z.gtb_spec (len (buf q)) (len inp)).
      + destruct (Clear_spec q l HR) as (q1 & -> & HR1 & Hb & Hm).
        exists q1. split_and!; [done|by rewrite Hm| |lia]. apply HR1.
      + exists q. split_and!; [done..|lia]. }
  run. rewrite copy_fits by done. eexists. split; [done|]. by apply fill_cases.
Qed.

Lemma Copy_cases q l src lsrc :
  repr q l → repr src lsrc → len lsrc ≤ 2 ^ 62 →
  ∃ q', Copy zero q src = Ret (q', len lsrc) ∧ (repr q' lsrc ∨ packed q' lsrc).
Proof.
  intros HR HS Hsz. pose proof HS as [_ Hls _]. unfold Copy.
  destruct (Clear_spec q l HR) as (q1 & -> & HR1 & _). run. cbn [Len].
  rewrite <- Hls.
  destruct (Grow_spec q1 [] (len lsrc) HR1) as (q2 & -> & HR2 & Hroom);
    [lia|simpl; lia|]. run. simpl in Hroom.
  rewrite (CopyOutSlice_spec src lsrc) by done. run.
  rewrite take_ge by lia. rewrite Z.min_l by lia.
  eexists. split; [done|]. destruct HR2 as [[Hcap Hmin _ _ _] _ _].
  apply fill_cases; [done|done|lia].
Qed.

(** The defect of a packed buffer: popping the front and pushing at the back
    writes past the end. *)
Lemma packed_pop_push q x l y :
  packed q (x :: l) →
  ∃ q', PopFront zero q = Ret (x, q') ∧
        PushBack zero q' y = Panic "index out of range".
Proof.
  intros [Hb Hh Ht Hc Hp].
  pose proof (is_pow2_pos _ Hp) as Hpos.
  unfold PopFront. rewrite Hc. destruct (Z.leb_spec (len (x :: l)) 0); [lia|].
  rewrite Hb, Hh. change (idx (x :: l) 0) with (Ret x).
  rewrite upd_Ret by lia. run. unfold set_count, set_head, set_buf.
  cbn [buf head tail count minCap]. unfold shrinkIfExcess. cbn [buf count minCap].
  rewrite Hc, length_insert, Z.shiftl_mul_pow2 by lia.
  destruct (Z.eqb_spec ((len (x :: l) - 1) * 2 ^ 2) (len (x :: l))); [lia|].
  rewrite andb_false_r. eexists. split; [done|].
  unfold PushBack, growIfFull. cbn [buf count tail]. rewrite length_insert, Ht.
  destruct (Z.eqb_spec (len (x :: l) - 1) (len (x :: l))); [lia|]. simpl.
  rewrite upd_panic; [done|]. simpl. lia.
Qed.

(** ** Searching *)

Lemma Index_loop_spec q f l1 l2 :
  repr q (l1 ++ l2) →
  Index_loop (length l2) q f (len l1) =
    Ret (match list_find f l2 with
         | Some (i, _) => len l1 + Z.of_nat i
         | None => -1
         end).
Proof.
  revert l1. induction l2 as [|x l2 IH]; intros l1 HR; [done|]. simpl.
  rewrite land_pos by (by eapply repr_pow2_mid).
  rewrite (repr_cell q _ (len l1) x HR); [|lia|by rewrite Nat2Z.id, list_lookup_middle].
  run. destruct (f x); case_decide as D; try done.
  - f_equal. lia.
  - replace (len l1 + 1) with (len (l1 ++ [x])) by (rewrite length_app; simpl; lia).
    rewrite IH by (by rewrite <- app_assoc). f_equal.
    destruct (list_find f l2) as [[i z]|]; simpl; [|done].
    rewrite length_app. simpl. lia.
Qed.

Lemma Index_find q f l :
  repr q l →
  Index q f = Ret (match list_find f l with Some (i, _) => Z.of_nat i | None => -1 end).
Proof.
  intros HR. pose proof HR as [_ Hl _]. unfold Index. cbn [Len].
  destruct (Z.gtb_spec (count q) 0) as [H|H].
  - rewrite <- Hl, Nat2Z.id. apply (Index_loop_spec q f [] l HR).
  - destruct l; [done|simpl in Hl; lia].
Qed.

Lemma RIndex_loop_spec q f l1 l2 :
  repr q (l1 ++ l2) →
  RIndex_loop (length l1) q f (len l1 - 1) =
    Ret (match list_find f (reverse l1) with
         | Some (i, _) => len l1 - 1 - Z.of_nat i
         | None => -1
         end).
Proof.
  revert l2. induction l1 as [|x l1 IH] using rev_ind; intros l2 HR; [done|].
  rewrite <- app_assoc in HR. simpl in HR.
  rewrite length_app, Nat.add_comm, reverse_app. simpl.
  rewrite land_pos by (by eapply repr_pow2_mid).
  replace (Z.of_nat (S (length l1)) - 1) with (len l1) by lia.
  rewrite (repr_cell q _ (len l1) x HR); [|lia|by rewrite Nat2Z.id, list_lookup_middle].
  run. destruct (f x); case_decide as D; try done.
  - f_equal. lia.
  - rewrite (IH (x :: l2)) by done. f_equal.
    destruct (list_find f (reverse l1)) as [[i z]|]; simpl; lia.
Qed.

Lemma RIndex_find q f l :
  repr q l →
  RIndex q f = Ret (match list_find f (reverse l) with
                    | Some (i, _) => len l - 1 - Z.of_nat i
                    | None => -1
                    end).
Proof.
  intros HR. pose proof HR as [_ Hl _]. unfold RIndex. cbn [Len].
  destruct (Z.gtb_spec (count q) 0) as [H|H].
  - rewrite <- Hl, Nat2Z.id. apply (RIndex_loop_spec q f l []). by rewrite app_nil_r.
  - destruct l; [done|simpl in Hl; lia].
Qed.

(** ** Iteration

    A callback that leaves the deque alone is a step on its own state. *)
Section iteration.
Context {S : Type} (step : T → S → bool * S).

Definition pure_yield (x : T) (s : S) q : bool * S * Deque T :=
  let '(go_on, s') := step x s in (go_on, s', q).

(** The state after visiting [l] until the callback declines, and what is left
    unvisited. *)
Fixpoint visit l (s : S) : S * list T :=
  match l with
  | [] => (s, [])
  | x :: l => let '(go_on, s') := step x s in if go_on then visit l s' else (s', l)
  end.

Lemma Iter_loop_spec fuel q l1 l2 s :
  repr q (l1 ++ l2) → (length l2 < fuel)%nat →
  Iter_loop pure_yield fuel (head q) (tail q) (pos q (len l1)) (len l1) q s =
    Ret ((visit l2 s).1, q).
Proof.
  revert fuel l1 s. induction l2 as [|x l2 IH]; intros fuel l1 s HR Hf;
    (destruct fuel as [|fuel]; [simpl in Hf; lia|]); pose proof (repr_len _ _ HR) as Hl;
    rewrite length_app in Hl; simpl in Hl; cbn [Iter_loop Len].
  - destruct (Z.ltb_spec (len l1) (count q)); [lia|done].
  - destruct (Z.ltb_spec (len l1) (count q)); [|lia].
    rewrite !Z.eqb_refl. cbn [negb orb].
    rewrite (repr_cell q _ (len l1) x HR);
      [|lia|by rewrite Nat2Z.id, list_lookup_middle].
    run. unfold pure_yield at 1. cbn [visit].
    destruct (step x s) as [[|] s']; [|done].
    rewrite next_pos by (by eapply repr_pow2_mid).
    replace (len l1 + 1) with (len (l1 ++ [x])) by (rewrite length_app; simpl; lia).
    apply IH; [by rewrite <- app_assoc|simpl in Hf; lia].
Qed.

Lemma Iter_spec fuel q l s :
  repr q l → (length l < fuel)%nat →
  Iter pure_yield fuel q s = Ret ((visit l s).1, q).
Proof.
  intros HR Hf. unfold Iter. destruct l as [|x l].
  - pose proof (repr_len _ _ HR) as Hl. simpl in Hl.
    destruct fuel; [simpl in Hf; lia|]. cbn [Iter_loop Len]. by rewrite <- Hl.
  - rewrite (head_pos q _ HR) at 2 by apply is_pow2_pos, (repr_pow2_mid q [] x l HR).
    by apply (Iter_loop_spec fuel q [] (x :: l)).
Qed.

Lemma IterPopFront_loop_spec fuel q l s :
  repr q l → (length l < fuel)%nat →
  ∃ q', IterPopFront_loop zero pure_yield fuel q s = Ret ((visit l s).1, q') ∧
        repr q' (visit l s).2 ∧ minCap q' = minCap q.
Proof.
  revert q l s. induction fuel as [|fuel IH]; intros q l s HR Hf; [lia|].
  pose proof HR as [Hwf Hl _]. cbn [IterPopFront_loop].
  destruct (Z.eqb_spec (count q) 0) as [E|E].
  { destruct l; [by exists q|simpl in Hl; lia]. }
  pose proof (wf_count q Hwf). pose proof (wf_head q Hwf).
  pose proof (cap_pow2 q Hwf ltac:(left; lia)) as Hp. pose proof (is_pow2_pos _ Hp).
  destruct (raw_pop_front q l HR) as (x & l' & -> & Hi & HR'); [lia|].
  rewrite Hi. run. rewrite upd_Ret by lia. run.
  unfold set_count, set_head, set_buf. cbn [buf head tail count minCap].
  rewrite next_mod by (simpl; by rewrite length_insert). cbn [buf].
  rewrite length_insert. unfold pure_yield at 1. cbn [visit].
  destruct (step x s) as [[|] s'].
  - destruct (IH _ l' s' HR') as (q' & -> & ? & ?); [simpl in Hf; lia|]. by exists q'.
  - by eexists.
Qed.

Lemma IterPopFront_spec fuel q l s :
  repr q l → (length l < fuel)%nat → is_pow2 (minCap q) → len l ≤ 2 ^ 62 →
  ∃ q', IterPopFront zero pure_yield fuel q s = Ret ((visit l s).1, q') ∧
        (repr q' (visit l s).2 ∨ packed q' (visit l s).2).
Proof.
  intros HR Hf Hm Hsz. unfold IterPopFront. cbn [Len].
  destruct (Z.eqb_spec (count q) 0) as [E|E].
  { destruct l; [exists q; auto|destruct HR as [_ Hl _]; simpl in Hl; lia]. }
  destruct (IterPopFront_loop_spec fuel q l s HR Hf) as (q1 & -> & HR1 & Hm1). run.
  destruct (shrinkToFit_spec q1 _ HR1) as (q' & -> & H).
  - by rewrite Hm1.
  - assert (length (visit l s).2 ≤ length l)%nat; [|lia].
    clear -step. revert s. induction l as [|x l IH]; intros s; simpl; [lia|].
    destruct (step x s) as [[|] s']; simpl; [specialize (IH s')|]; lia.
  - by exists q'.
Qed.

End iteration.

End repr.

(** ** Refinement of the abstract deque *)

Section refinement.
Context {T : Type} (zero : T).
Implicit Types (q : Deque T) (l : list T).

(** The calls of the interface, other than the iterators and the two that fill a deque
    from elsewhere. *)
Inductive op : Type :=
| OpPushBack (x : T)
| OpPushFront (x : T)
| OpPopFront
| OpPopBack
| OpFront
| OpBack
| OpAt (i : Z)
| OpSet (i : Z) (x : T)
| OpInsert (i : Z) (x : T)
| OpRemove (i : Z)
| OpSwap (i j : Z)
| OpRotate (n : Z)
| OpClear
| OpGrow (n : Z)
| OpSetBaseCap (baseCap : Z)
| OpLen
| OpAppendToSlice (out : list T)
| OpCopyOutSlice (out : list T)
| OpIndex (f : T → bool)
| OpRIndex (f : T → bool).

(** What a call returns. *)
Inductive returned : Type :=
| Nothing
| Element (x : T)
| Number (n : Z)
| Elements (l : list T) (n : Z).

(** A call on the ring buffer: the value it returns, if any, and the deque. *)
Definition exec1 (q : Deque T) (o : op) : outcome (returned * Deque T) :=
  match o with
  | OpPushBack x => q ← PushBack zero q x; Ret (Nothing, q)
  | OpPushFront x => q ← PushFront zero q x; Ret (Nothing, q)
  | OpPopFront => '(x, q) ← PopFront zero q; Ret (Element x, q)
  | OpPopBack => '(x, q) ← PopBack zero q; Ret (Element x, q)
  | OpFront => x ← Front q; Ret (Element x, q)
  | OpBack => x ← Back q; Ret (Element x, q)
  | OpAt i => x ← At q i; Ret (Element x, q)
  | OpSet i x => q ← Set_ q i x; Ret (Nothing, q)
  | OpInsert i x => q ← Insert zero q i x; Ret (Nothing, q)
  | OpRemove i => '(x, q) ← Remove zero q i; Ret (Element x, q)
  | OpSwap i j => q ← Swap q i j; Ret (Nothing, q)
  | OpRotate n => q ← Rotate zero q n; Ret (Nothing, q)
  | OpClear => q ← Clear zero q; Ret (Nothing, q)
  | OpGrow n => q ← Grow zero q n; Ret (Nothing, q)
  | OpSetBaseCap baseCap => q ← SetBaseCap q baseCap; Ret (Nothing, q)
  | OpLen => Ret (Number (Len (Some q)), q)
  | OpAppendToSlice out => out ← AppendToSlice q out; Ret (Elements out 0, q)
  | OpCopyOutSlice out => '(out, n) ← CopyOutSlice q out; Ret (Elements out n, q)
  | OpIndex f => i ← Index q f; Ret (Number i, q)
  | OpRIndex f => i ← RIndex q f; Ret (Number i, q)
  end.

Definition out_of_range : string := "deque: index out of range".

(** The same call on a plain list. *)
Definition spec1 (l : list T) (o : op) : outcome (returned * list T) :=
  match o with
  | OpPushBack x => Ret (Nothing, l ++ [x])
  | OpPushFront x => Ret (Nothing, x :: l)
  | OpPopFront =>
      match l with
      | [] => Panic "deque: PopFront() called on empty queue"
      | x :: l => Ret (Element x, l)
      end
  | OpPopBack =>
      match list.last l with
      | None => Panic "deque: PopBack() called on empty queue"
      | Some x => Ret (Element x, take (length l - 1) l)
      end
  | OpFront =>
      match l with
      | [] => Panic "deque: Front() called when empty"
      | x :: _ => Ret (Element x, l)
      end
  | OpBack =>
      match list.last l with
      | None => Panic "deque: Back() called when empty"
      | Some x => Ret (Element x, l)
      end
  | OpAt i =>
      if bool_decide (0 ≤ i) then
        match l !! Z.to_nat i with Some x => Ret (Element x, l) | None => Panic out_of_range end
      else Panic out_of_range
  | OpSet i x =>
      if bool_decide (0 ≤ i < len l) then Ret (Nothing, <[Z.to_nat i := x]> l)
      else Panic out_of_range
  | OpInsert i x =>
      let k := Nat.min (Z.to_nat i) (length l) in
      Ret (Nothing, take k l ++ x :: drop k l)
  | OpRemove i =>
      if bool_decide (0 ≤ i) then
        match l !! Z.to_nat i with
        | Some x => Ret (Element x, take (Z.to_nat i) l ++ drop (S (Z.to_nat i)) l)
        | None => Panic out_of_range
        end
      else Panic out_of_range
  | OpSwap i j =>
      if bool_decide (0 ≤ i < len l ∧ 0 ≤ j < len l) then
        match l !! Z.to_nat i, l !! Z.to_nat j with
        | Some x, Some y => Ret (Nothing, <[Z.to_nat j := x]> (<[Z.to_nat i := y]> l))
        | _, _ => Panic out_of_range
        end
      else Panic out_of_range
  | OpRotate n =>
      let k := Z.to_nat (n mod len l) in
      Ret (Nothing, match l with [] => [] | _ => drop k l ++ take k l end)
  | OpClear => Ret (Nothing, [])
  | OpGrow n => if n <? 0 then Panic "deque.Grow: negative count" else Ret (Nothing, l)
  | OpSetBaseCap _ => Ret (Nothing, l)
  | OpLen => Ret (Number (len l), l)
  | OpAppendToSlice out => Ret (Elements (out ++ l) 0, l)
  | OpCopyOutSlice out => Ret (Elements (take (length out) l ++ drop (length l) out) (Z.min (len l) (len out)), l)
  | OpIndex f => Ret (Number (match list_find f l with Some (i, _) => Z.of_nat i | None => -1 end), l)
  | OpRIndex f =>
      Ret (Number (match list_find f (reverse l) with Some (i, _) => len l - 1 - Z.of_nat i | None => -1 end), l)
  end.

(** Calls that do not ask for more room than a 64-bit length can count. *)
Definition small_op (o : op) : bool :=
  match o with
  | OpGrow n => n <=? 2 ^ 61
  | OpSetBaseCap baseCap => baseCap <=? 2 ^ 61
  | _ => true
  end.

(** A sequence of calls, stopping at the first panic, with the values returned. *)
Section sequence.
Context {St : Type} (f : St → op → outcome (returned * St)).
Fixpoint exec (ops : list op) (s : St) : outcome (list returned * St) :=
  match ops with
  | [] => Ret ([], s)
  | o :: ops =>
    '(r, s) ← f s o;
    '(rs, s) ← exec ops s;
    Ret (r :: rs, s)
  end.
End sequence.

(** Two runs agree: same returned values and related states, or same panic. *)
Definition agree {R} (a : outcome (R * Deque T)) (b : outcome (R * list T)) : Prop :=
  match a, b with
  | Ret (r, q), Ret (r', l) => r = r' ∧ repr q l
  | Panic m, Panic m' => m = m'
  | _, _ => False
  end.

Lemma Front_spec q x l : repr q (x :: l) → Front q = Ret x.
Proof.
  intros HR. pose proof (repr_len _ _ HR) as Hl. simpl in Hl. unfold Front.
  destruct (Z.leb_spec (count q) 0); [lia|].
  rewrite (head_pos q _ HR) by apply is_pow2_pos, (repr_pow2_mid q [] x l HR).
  by apply (repr_cell q (x :: l)).
Qed.

Lemma Back_spec q x l : repr q (l ++ [x]) → Back q = Ret x.
Proof.
  intros HR. pose proof (repr_len _ _ HR) as Hl. rewrite length_app in Hl.
  simpl in Hl. unfold Back. destruct (Z.leb_spec (count q) 0); [lia|].
  rewrite (prev_tail q _ HR) by (by eapply repr_pow2_mid).
  apply (repr_cell q (l ++ [x])); [done|lia|].
  replace (Z.to_nat (count q - 1)) with (length l) by lia. by apply list_lookup_middle.
Qed.

Lemma Insert_spec q l i x :
  repr q l →
  let k := Nat.min (Z.to_nat i) (length l) in
  ∃ q', Insert zero q i x = Ret q' ∧ repr q' (take k l ++ x :: drop k l).
Proof.
  intros HR k. destruct (decide (0 < i < len l)) as [Hi|Hi].
  - destruct (Insert_middle zero q (take (Z.to_nat i) l) (drop (Z.to_nat i) l) x)
      as (q' & E & HR'); [by rewrite take_drop|].
    rewrite length_take in E. replace k with (Z.to_nat i) by lia.
    exists q'. split; [|done]. rewrite <- E. f_equal. lia.
  - unfold Insert. cbn [Len]. rewrite <- (repr_len _ _ HR).
    destruct (Z.leb_spec i 0).
    + replace k with 0%nat by lia. rewrite drop_0. by apply PushFront_spec.
    + destruct (Z.geb_spec i (len l)); [|lia]. replace k with (length l) by lia.
      rewrite take_ge, drop_ge by lia. by apply PushBack_spec.
Qed.

Lemma Remove_spec q l i x :
  repr q l → 0 ≤ i → l !! Z.to_nat i = Some x →
  ∃ q', Remove zero q i = Ret (x, q') ∧
        repr q' (take (Z.to_nat i) l ++ drop (S (Z.to_nat i)) l).
Proof.
  intros HR Hi Hx. pose proof (lookup_lt_Some _ _ _ Hx).
  destruct (Remove_middle zero q (take (Z.to_nat i) l) x (drop (S (Z.to_nat i)) l))
    as (q' & E & HR'); [by rewrite take_drop_middle|].
  rewrite length_take in E. exists q'. split; [|done]. rewrite <- E. f_equal. lia.
Qed.

Lemma exec1_Swap q l i j : repr q l → agree (exec1 q (OpSwap i j)) (spec1 l (OpSwap i j)).
Proof.
  intros HR. cbn [exec1 spec1]. case_bool_decide as Hij.
  - destruct (lookup_lt_is_Some_2 l (Z.to_nat i)) as [x Hx]; [lia|].
    destruct (lookup_lt_is_Some_2 l (Z.to_nat j)) as [y Hy]; [lia|].
    rewrite Hx, Hy.
    by destruct (Swap_spec q l i j x y HR) as (q' & -> & ?); [lia|lia|..].
  - unfold Swap. destruct (decide (0 ≤ i < len l)).
    + rewrite (checkRange_ok q l i) by done. run.
      by rewrite (checkRange_panic q l j) by (done || lia).
    + by rewrite (checkRange_panic q l i).
Qed.

Lemma exec1_refines q l o : repr q l → small_op o → len l ≤ 2 ^ 61 → agree (exec1 q o) (spec1 l o).
Proof.
  intros HR Hs Hlen. pose proof (repr_len _ _ HR) as Hl. destruct o; cbn [exec1 spec1].
  - by destruct (PushBack_spec zero q l x HR) as (q' & -> & ?).
  - by destruct (PushFront_spec zero q l x HR) as (q' & -> & ?).
  - destruct l as [|x l]; [by rewrite (proj1 (Pop_empty zero q HR))|].
    by destruct (PopFront_spec zero q x l HR) as (q' & -> & ?).
  - destruct l as [|x l _] using rev_ind; [by rewrite (proj2 (Pop_empty zero q HR))|].
    destruct (PopBack_spec zero q x l HR) as (q' & -> & ?).
    rewrite last_snoc, length_app, take_app_length'; simpl; [done|lia].
  - destruct l as [|x l]; [|by rewrite (Front_spec q x l HR)].
    unfold Front. simpl in Hl. by rewrite <- Hl.
  - destruct l as [|x l _] using rev_ind.
    + unfold Back. simpl in Hl. by rewrite <- Hl.
    + by rewrite last_snoc, (Back_spec q x l HR).
  - case_bool_decide as Hi; [destruct (l !! Z.to_nat i) as [x|] eqn:Hx|].
    + pose proof (lookup_lt_Some _ _ _ Hx). by rewrite (At_lookup q l i x) by (done || lia).
    + apply lookup_ge_None in Hx. unfold At. by rewrite (checkRange_panic q l) by (done || lia).
    + unfold At. by rewrite (checkRange_panic q l) by (done || lia).
  - case_bool_decide as Hi.
    + by destruct (Set_spec q l i x HR Hi) as (q' & -> & ?).
    + unfold Set_. by rewrite (checkRange_panic q l).
  - by destruct (Insert_spec q l i x HR) as (q' & -> & ?).
  - case_bool_decide as Hi; [destruct (l !! Z.to_nat i) as [x|] eqn:Hx|].
    + by destruct (Remove_spec q l i x HR) as (q' & -> & ?); [lia|done|].
    + apply lookup_ge_None in Hx. unfold Remove. by rewrite (checkRange_panic q l) by (done || lia).
    + unfold Remove. by rewrite (checkRange_panic q l) by (done || lia).
  - by apply exec1_Swap.
  - destruct l as [|x l].
    + unfold Rotate. simpl in Hl. cbn [Len]. by rewrite <- Hl.
    + by destruct (Rotate_drop_take zero q (x :: l) n HR) as (q' & -> & ?).
  - by destruct (Clear_spec zero q l HR) as (q' & -> & ? & _).
  - destruct (Z.ltb_spec n 0) as [Hn|Hn].
    + unfold Grow. by rewrite (proj2 (Z.ltb_lt n 0)).
    + apply Is_true_true, Z.leb_le in Hs. by destruct (Grow_spec zero q l n HR) as (q' & -> & ? & _); [lia|lia|].
  - apply Is_true_true, Z.leb_le in Hs. by destruct (SetBaseCap_spec q l baseCap HR) as (q' & -> & ?); [lia|].
  - cbn [Len]. by rewrite Hl.
  - by rewrite (AppendToSlice_spec q l).
  - by rewrite (CopyOutSlice_spec q l).
  - by rewrite (Index_find q f l).
  - by rewrite (RIndex_find q f l).
Qed.

(** A call adds an element at most. *)
Lemma spec1_length l o r l' : spec1 l o = Ret (r, l') → (length l' ≤ S (length l))%nat.
Proof.
  destruct o; cbn [spec1]; intros H; repeat (case_match; simplify_eq); simplify_eq;
    rewrite ?length_app, ?length_cons, ?length_take, ?length_drop, ?length_insert; simpl; lia.
Qed.

Lemma exec_refines ops q l :
  repr q l → Forall small_op ops → len l + len ops ≤ 2 ^ 61 → agree (exec exec1 ops q) (exec spec1 ops l).
Proof.
  revert q l. induction ops as [|o ops IH]; intros q l HR Hs Hlen; [done|]. cbn [exec].
  apply Forall_cons in Hs as [Ho Hs]. simpl in Hlen. pose proof (exec1_refines q l o HR Ho ltac:(lia)) as H1. unfold agree in H1.
  destruct (exec1 q o) as [[r q1]| |], (spec1 l o) as [[r' l1]| |] eqn:E1; try done.
  apply spec1_length in E1. destruct H1 as [-> HR1]. run. specialize (IH q1 l1 HR1 Hs ltac:(lia)). unfold agree in IH.
  destruct (exec exec1 ops q1) as [[rs q2]| |], (exec spec1 ops l1) as [[rs' l2]| |];
    try done. by destruct IH as [-> ?].
Qed.

End refinement.

(** ** Properties *)

(** C1: refinement.  Every sequence of pushes, pops, reads, writes, insertions,
    removals, swaps, rotations, clears, bulk reads, searches and changes of the
    capacity on a fresh ring buffer returns exactly the values the same sequence
    returns on a plain list, panics at exactly the same call with the same message,
    and leaves a well-formed buffer holding the list's elements, as long as no more
    than 2^61 elements are asked for.  Not among the calls are the iterators, and
    [Copy] and [CopyInSlice], after which a push can panic. *)
Theorem deque_refines_list {T} (zero : T) (ops : list (@op T)) :
  Forall small_op ops → len ops ≤ 2 ^ 61 →
  agree (exec (exec1 zero) ops empty_deque) (exec spec1 ops []).
Proof. intros Hs Hl. apply exec_refines; [apply repr_empty|done|simpl; lia]. Qed.

(** A history that wraps around, grows and panics at the end. *)
Definition history : list (@op Z) :=
  [OpGrow 3; OpPushBack 1; OpPushFront 2; OpSetBaseCap 20; OpInsert 1 7; OpAppendToSlice [9]; OpRotate 1;
   OpIndex (λ x, x =? 2); OpPopBack; OpSwap 0 1; OpRemove 0; OpLen; OpAt 5].

Lemma deque_refines_list_witness :
  Forall small_op history ∧ agree (exec (exec1 0) history empty_deque) (exec spec1 history []) ∧
  exec spec1 history [] = Panic out_of_range.
Proof.
  assert (Forall small_op history) as Hs by (repeat constructor).
  split; [exact Hs|]. split; [|vm_compute; reflexivity].
  apply (deque_refines_list 0 history Hs). vm_compute. discriminate.
Defined.

(** A wrapped buffer used by the witnesses: capacity 8, head at cell 6. *)
Definition sample : Deque Z := mkDeque [3; 0; 0; 0; 0; 0; 1; 2] 6 1 3 8.

Lemma sample_repr : repr sample [1; 2; 3].
Proof.
  split; [|done|].
  - split; simpl; [right; by exists 3|right; by exists 3|lia|lia|done].
  - simpl. intros i Hi.
    assert (i = 0 ∨ i = 1 ∨ i = 2) as [->|[->| ->]] by lia; done.
Qed.

(** functional.  The bulk readers see the elements front to back whatever
    the position of the ring: [AppendToSlice] appends them, [CopyOutSlice]
    overwrites a prefix of the destination and reports how many were copied, and
    [Index] and [RIndex] return the first and the last position satisfying a
    predicate, or -1. *)
Theorem deque_bulk_reads {T} (q : Deque T) (l out : list T) (f : T → bool) :
  repr q l →
  AppendToSlice q out = Ret (out ++ l) ∧
  CopyOutSlice q out =
    Ret (take (length out) l ++ drop (length l) out, Z.min (len l) (len out)) ∧
  Index q f = Ret (match list_find f l with Some (i, _) => Z.of_nat i | None => -1 end) ∧
  RIndex q f = Ret (match list_find f (reverse l) with
                    | Some (i, _) => len l - 1 - Z.of_nat i
                    | None => -1
                    end).
Proof.
  intros HR. split_and!.
  - by apply AppendToSlice_spec.
  - by apply CopyOutSlice_spec.
  - by apply Index_find.
  - by apply RIndex_find.
Qed.

Lemma deque_bulk_reads_witness :
  repr sample [1; 2; 3] ∧
  AppendToSlice sample [9] = Ret [9; 1; 2; 3] ∧
  CopyOutSlice sample [7; 7] = Ret ([1; 2], 2) ∧
  Index sample (λ x, x =? 2) = Ret 1 ∧ RIndex sample (λ x, x =? 5) = Ret (-1).
Proof.
  split; [exact sample_repr|].
  pose proof (deque_bulk_reads sample [1; 2; 3] [9] (λ x, x =? 2) sample_repr)
    as (H1 & _ & H3 & _).
  pose proof (deque_bulk_reads sample [1; 2; 3] [7; 7] (λ x, x =? 5) sample_repr)
    as (_ & H2 & _ & H4).
  split; [exact H1|]. split; [exact H2|]. split; [exact H3|exact H4].
Defined.

(** bounds.  [Grow n] keeps the elements and leaves room for [n] more, so
    that the next [n] pushes do not reallocate, for every request up to [2^62]
    elements in total. *)
Theorem deque_grow_room {T} (zero : T) (q : Deque T) (l : list T) (n : Z) :
  repr q l → 0 ≤ n → len l + n ≤ 2 ^ 62 →
  ∃ q', Grow zero q n = Ret q' ∧ repr q' l ∧ n ≤ len (buf q') - len l.
Proof. apply Grow_spec. Qed.

Lemma deque_grow_room_witness :
  ∃ q', Grow 0 sample 9 = Ret q' ∧ repr q' [1; 2; 3] ∧ 9 ≤ len (buf q') - 3.
Proof.
  apply (deque_grow_room 0 sample [1; 2; 3] 9 sample_repr); simpl; lia.
Defined.

(** termination.  Draining a deque from the front with a callback visits
    the elements in order until the callback declines, removes exactly the
    visited ones, and returns, provided a base capacity was set (by a push or by
    [SetBaseCap]); the deque it leaves is well-formed unless the remaining
    elements exactly fill the shrunk buffer. *)
Theorem deque_iter_pop_front {T S} (zero : T) (step : T → S → bool * S) fuel
    (q : Deque T) (l : list T) (s : S) :
  repr q l → (length l < fuel)%nat → is_pow2 (minCap q) → len l ≤ 2 ^ 62 →
  ∃ q', IterPopFront zero (pure_yield step) fuel q s = Ret ((visit step l s).1, q') ∧
        (repr q' (visit step l s).2 ∨ packed q' (visit step l s).2).
Proof. apply IterPopFront_spec. Qed.

Lemma deque_iter_pop_front_witness :
  ∃ q', IterPopFront 0 (pure_yield (λ x s, (x <? 2, s + x))) 4 sample 0 = Ret (3, q') ∧
        (repr q' [3] ∨ packed q' [3]).
Proof.
  apply (deque_iter_pop_front 0 (λ x s, (x <? 2, s + x)) 4 sample [1; 2; 3] 0);
    [exact sample_repr|simpl; lia|by exists 3|simpl; lia].
Defined.

(** safety.  Without a base capacity the same draining never returns once
    at most a quarter of the buffer is still occupied: the loop that looks for
    the smallest sufficient capacity starts from zero and doubles it forever. *)
Theorem deque_shrink_without_base_diverges {T} (zero : T) (q : Deque T) :
  minCap q = 0 → 0 < count q → count q * 4 ≤ len (buf q) →
  shrinkToFit zero q = OutOfFuel ∧
  ∀ fuel, double_until fuel (minCap q) (count q) = OutOfFuel.
Proof.
  intros Hm Hc Hq. rewrite Hm. split.
  - unfold shrinkToFit. rewrite Hm, Z.shiftl_mul_pow2 by lia.
    destruct (Z.gtb_spec (len (buf q)) 0); [|lia].
    destruct (Z.leb_spec (count q * 2 ^ 2) (len (buf q))); [|lia]. cbn [andb].
    destruct (Z.eqb_spec (count q) 0); [lia|]. by rewrite double_until_zero.
  - intros fuel. by apply double_until_zero.
Qed.

(** The state is reached by [Grow(8)] on a new deque, eight pushes and a drain
    that stops after six elements. *)
Lemma deque_shrink_without_base_diverges_witness :
  let q := mkDeque [0; 0; 0; 0; 0; 0; 7; 8] 6 0 2 0 in
  (q0 ← Grow 0 empty_deque 8;
   '(_, q1) ← exec (exec1 0) (OpPushBack <$> [1; 2; 3; 4; 5; 6; 7; 8]) q0;
   IterPopFront_loop 0 (pure_yield (λ x s, (x <? 6, s))) 9 q1 ()) = Ret ((), q) ∧
  shrinkToFit 0 q = OutOfFuel.
Proof.
  split; [vm_compute; reflexivity|].
  apply (deque_shrink_without_base_diverges 0 (mkDeque [0; 0; 0; 0; 0; 0; 7; 8] 6 0 2 0));
    simpl; lia.
Defined.

(** functional.  [CopyInSlice] and [Copy] replace the contents by the given
    elements; the buffer they leave is well-formed, or [packed]: full, with the
    tail one past the last cell. *)
Theorem deque_bulk_fill {T} (zero : T) (q src : Deque T) (l lsrc inp : list T) :
  repr q l → repr src lsrc → len lsrc ≤ 2 ^ 62 → len inp ≤ 2 ^ 62 →
  (∃ q', CopyInSlice zero q inp = Ret q' ∧ (repr q' inp ∨ packed q' inp)) ∧
  (∃ q', Copy zero q src = Ret (q', len lsrc) ∧ (repr q' lsrc ∨ packed q' lsrc)).
Proof.
  intros HR HS H1 H2. split; [by apply (CopyInSlice_cases zero q l)|].
  by apply (Copy_cases zero q l).
Qed.

Lemma deque_bulk_fill_witness :
  (∃ q', CopyInSlice 0 sample [5] = Ret q' ∧ (repr q' [5] ∨ packed q' [5])) ∧
  (∃ q', Copy 0 empty_deque sample = Ret (q', 3) ∧
         (repr q' [1; 2; 3] ∨ packed q' [1; 2; 3])).
Proof.
  split.
  - apply (deque_bulk_fill 0 sample sample [1; 2; 3] [1; 2; 3] [5]);
      [exact sample_repr|exact sample_repr|simpl; lia|simpl; lia].
  - apply (deque_bulk_fill 0 empty_deque sample [] [1; 2; 3] [5]);
      [exact repr_empty|exact sample_repr|simpl; lia|simpl; lia].
Defined.

Lemma pow2_unique a b : is_pow2 a → is_pow2 b → a ≤ b < 2 * a → b = a.
Proof.
  intros (i & Hi & ->) (j & Hj & ->) [H1 H2]. f_equal.
  rewrite <- Z.pow_succ_r in H2 by done.
  apply Z.pow_lt_mono_r_iff in H2; [|lia..].
  destruct (decide (j < i)); [|lia].
  assert (2 ^ j < 2 ^ i) by (apply Z.pow_lt_mono_r; lia). lia.
Qed.

(** Safety.  Filling a new deque from a slice whose length is a power of
    two of at least eight leaves it packed, and then removing the front element
    and appending one panics with an index out of range: the tail was not
    wrapped. *)
Theorem deque_exact_fill_push_panics {T} (zero : T) (x y : T) (l : list T) :
  is_pow2 (len (x :: l)) → 8 ≤ len (x :: l) → len (x :: l) ≤ 2 ^ 62 →
  ∃ q q', CopyInSlice zero empty_deque (x :: l) = Ret q ∧
          PopFront zero q = Ret (x, q') ∧
          PushBack zero q' y = Panic "index out of range".
Proof.
  intros Hp H8 Hsz.
  assert (∃ q, CopyInSlice zero empty_deque (x :: l) = Ret q ∧ packed q (x :: l))
    as (q & E & Hpk).
  { unfold CopyInSlice. cbn [empty_deque buf].
    destruct (Z.ltb_spec (len (@nil T)) (len (x :: l))); [|simpl in *; lia].
    change (len (@nil T) =? 0) with true. cbv iota.
    destruct (double_until_ok minCapacity (len (x :: l)))
      as (c & -> & Hc & _ & Hle & Hlt); [by exists 3|done|]. run.
    assert (c = len (x :: l)) as ->.
    { unfold minCapacity in *. apply pow2_unique; [done|done|].
      destruct Hlt as [->|]; lia. }
    rewrite make_Ret by lia. run. rewrite Nat2Z.id. cbn [set_buf set_minCap buf].
    rewrite copy_fits by (by rewrite length_replicate).
    rewrite drop_ge, app_nil_r by (by rewrite length_replicate).
    eexists. split; [done|]. by split. }
  destruct (packed_pop_push zero q x l y Hpk) as (q' & ? & ?). by exists q, q'.
Qed.

Lemma deque_exact_fill_push_panics_witness :
  ∃ q q', CopyInSlice 0 empty_deque [1; 2; 3; 4; 5; 6; 7; 8] = Ret q ∧
          PopFront 0 q = Ret (1, q') ∧ PushBack 0 q' 9 = Panic "index out of range".
Proof.
  apply (deque_exact_fill_push_panics 0 1 9 [2; 3; 4; 5; 6; 7; 8]);
    [by exists 3|simpl; lia|simpl; lia].
Defined.
