(* ===== verification/Lru.v ===== *)
(** * The LRU cache ([common/lru/lrucache.go])

    The cache is a hash map from keys to elements of a doubly linked list whose
    payloads are pointers to entries; the list is ordered from the least to the
    most recently used.  The list is a package of its own
    ([github.com/bahlo/generic-list-go]), given by the operations and the laws of
    the class [DList]; [ListModel] is an instance.  Entries live on a heap, since
    [CloneTo] makes two caches share them.

    The refinement theorem relates a cache to one ordered list of entries
    ([Spec]).  Each call reads the clock at most once per purpose; the model
    gives one reading [now] (in seconds, as [time.Now().Unix()]) per call.  The
    mutex serialises the calls, so a history is a sequence of calls. *)

From S2P Require Import Prelude.

(** ** The linked list package *)

(** [view l] lists the elements from front to back. *)
Class DList (T L elem : Type) := {
  list_New : L;
  Front : L → option elem;
  PushBack : L → T → elem * L;
  MoveToBack : L → elem → L;
  list_Remove : L → elem → L;
  list_Len : L → Z;
  Value : elem → T;
  view : L → list elem;

  view_New : view list_New = [];
  view_Front l : Front l = head (view l);
  view_Len l : list_Len l = len (view l);
  view_PushBack l v :
    view (PushBack l v).2 = view l ++ [(PushBack l v).1];
  PushBack_fresh l v : (PushBack l v).1 ∉ view l;
  Value_PushBack l v : Value (PushBack l v).1 = v;
  view_MoveToBack l e l1 l2 :
    view l = l1 ++ e :: l2 → e ∉ l1 → view (MoveToBack l e) = l1 ++ l2 ++ [e];
  view_Remove l e l1 l2 :
    view l = l1 ++ e :: l2 → e ∉ l1 → view (list_Remove l e) = l1 ++ l2;
}.

(** The list package as a list of elements, each a handle with its value. *)
Module ListModel.
Section model.
Context `{EqDecision T}.
Implicit Types l : list (nat * T).

Definition next_handle l : nat := S (max_list l.*1).

Fixpoint drop_elem (e : nat * T) l : list (nat * T) :=
  match l with
  | [] => []
  | x :: l => if decide (x = e) then l else x :: drop_elem e l
  end.

Lemma next_handle_fresh l v : (next_handle l, v) ∉ l.
Proof.
  intros Hin%(list_elem_of_fmap_2 fst)%max_list_elem_of_le.
  unfold next_handle in Hin. simpl in Hin. lia.
Qed.

Lemma drop_elem_split l1 e l2 :
  e ∉ l1 → drop_elem e (l1 ++ e :: l2) = l1 ++ l2.
Proof.
  induction l1 as [|x l1 IH]; csimpl; intros Hn; [by rewrite decide_True|].
  apply not_elem_of_cons in Hn as [Hx Hn]. rewrite decide_False by done. by rewrite IH.
Qed.

#[export] Instance list_DList : DList T (list (nat * T)) (nat * T).
Proof.
  refine {|
    list_New := [];
    Front := head;
    PushBack l v := ((next_handle l, v), l ++ [(next_handle l, v)]);
    MoveToBack l e := drop_elem e l ++ [e];
    list_Remove l e := drop_elem e l;
    list_Len l := len l;
    Value := snd;
    view l := l;
  |}; try done.
  - intros l v. apply next_handle_fresh.
  - intros l e l1 l2 -> Hn. rewrite drop_elem_split by done. by rewrite app_assoc.
  - intros l e l1 l2 -> Hn. by apply drop_elem_split.
Defined.

End model.
End ListModel.

(** ** The heap of entries *)

Section heap.
Context {E : Type}.

Definition alloc (h : gmap positive E) : positive :=
  Pos.succ (map_fold (λ k _ m, Pos.max k m) 1%positive h).

Lemma alloc_bound (h : gmap positive E) k :
  is_Some (h !! k) → (k < alloc h)%positive.
Proof.
  unfold alloc. revert k. apply (map_fold_weak_ind
    (λ m h, ∀ k, is_Some (h !! k) → (k < Pos.succ m)%positive)).
  - intros k [? H]. by rewrite lookup_empty in H.
  - intros i x m r Hi IH k [y Hk]. destruct (decide (i = k)) as [->|Hne]; [lia|].
    rewrite lookup_insert_ne in Hk by done. specialize (IH k ltac:(by eexists)). lia.
Qed.

Lemma alloc_fresh (h : gmap positive E) : h !! alloc h = None.
Proof.
  destruct (h !! alloc h) eqn:Hk; [|done].
  pose proof (alloc_bound h (alloc h) ltac:(by eexists)). lia.
Qed.

End heap.

Section Lru.
Context `{Countable K} {V L elem : Type} `{!DList positive L elem}.
Context (zeroV : V).

(** ** Data *)

Record entry := mkEntry { key : K; value : V; expires : Z }.

Record LruCache := mkLruCache {
  maxAge : Z;
  maxSize : Z;
  cache : gmap K elem;
  lru : L;
  updateAgeOnGet : bool;
  staleReturn : bool;
  onEvict : bool;            (** is a callback set *)
  evicted : list (K * V);    (** the calls of the callback so far *)
}.

Abbreviation heap := (gmap positive entry).

Definition set_cache (c : LruCache) (m : gmap K elem) : LruCache :=
  mkLruCache (maxAge c) (maxSize c) m (lru c) (updateAgeOnGet c) (staleReturn c)
    (onEvict c) (evicted c).
Definition set_lru (c : LruCache) (l : L) : LruCache :=
  mkLruCache (maxAge c) (maxSize c) (cache c) l (updateAgeOnGet c) (staleReturn c)
    (onEvict c) (evicted c).
Definition set_maxSize (c : LruCache) (n : Z) : LruCache :=
  mkLruCache (maxAge c) n (cache c) (lru c) (updateAgeOnGet c) (staleReturn c)
    (onEvict c) (evicted c).
Definition call_onEvict (c : LruCache) (k : K) (v : V) : LruCache :=
  mkLruCache (maxAge c) (maxSize c) (cache c) (lru c) (updateAgeOnGet c)
    (staleReturn c) (onEvict c) (evicted c ++ [(k, v)]).

(** ** Construction *)

Definition Option_ : Type := LruCache → LruCache.

Definition WithEvict : Option_ := λ l,
  mkLruCache (maxAge l) (maxSize l) (cache l) (lru l) (updateAgeOnGet l)
    (staleReturn l) true (evicted l).
Definition WithUpdateAgeOnGet : Option_ := λ l,
  mkLruCache (maxAge l) (maxSize l) (cache l) (lru l) true (staleReturn l)
    (onEvict l) (evicted l).
Definition WithAge (age : Z) : Option_ := λ l,
  mkLruCache age (maxSize l) (cache l) (lru l) (updateAgeOnGet l) (staleReturn l)
    (onEvict l) (evicted l).
Definition WithSize (size : Z) : Option_ := λ l, set_maxSize l size.
Definition WithStale (stale : bool) : Option_ := λ l,
  mkLruCache (maxAge l) (maxSize l) (cache l) (lru l) (updateAgeOnGet l) stale
    (onEvict l) (evicted l).

Definition Clear (c : LruCache) : LruCache := set_cache (set_lru c list_New) ∅.

Definition New (options : list Option_) : LruCache :=
  foldl (λ lc option, option lc)
    (Clear (mkLruCache 0 0 ∅ list_New false false false [])) options.

(** ** Operations *)

(** [*p] for an entry pointer. *)
Definition deref (h : heap) (p : positive) : outcome entry :=
  match h !! p with
  | Some e => Ret e
  | None => Panic "nil pointer dereference"
  end.

Definition deleteElement (h : heap) (c : LruCache) (le : elem) : outcome LruCache :=
  let c := set_lru c (list_Remove (lru c) le) in
  e ← deref h (Value le);
  let c := set_cache c (delete (key e) (cache c)) in
  mret (if onEvict c then call_onEvict c (key e) (value e) else c).

Fixpoint maybeDeleteOldest_loop (fuel : nat) (h : heap) (c : LruCache) (now : Z) :
    outcome LruCache :=
  match fuel with
  | O => OutOfFuel
  | S fuel =>
    match Front (lru c) with
    | None => mret c
    | Some le =>
      e ← deref h (Value le);
      if expires e <=? now then
        c ← deleteElement h c le;
        maybeDeleteOldest_loop fuel h c now
      else mret c
    end
  end.

(** Every round removes an element, so the length of the list bounds the rounds. *)
Definition maybeDeleteOldest (h : heap) (c : LruCache) (now : Z) : outcome LruCache :=
  if negb (staleReturn c) && (0 <? maxAge c) then
    maybeDeleteOldest_loop (S (Z.to_nat (list_Len (lru c)))) h c now
  else mret c.

(** [get]: the pointer to the entry, or nil. *)
Definition get (h : heap) (c : LruCache) (now : Z) (k : K) :
    outcome (option positive * heap * LruCache) :=
  match cache c !! k with
  | None => mret (None, h, c)
  | Some le =>
    e ← deref h (Value le);
    if negb (staleReturn c) && (0 <? maxAge c) && (expires e <=? now) then
      c ← deleteElement h c le;
      c ← maybeDeleteOldest h c now;
      mret (None, h, c)
    else
      let c := set_lru c (MoveToBack (lru c) le) in
      let h :=
        if (0 <? maxAge c) && updateAgeOnGet c then
          <[Value le := mkEntry (key e) (value e) (i64 (now + maxAge c))]> h
        else h in
      mret (Some (Value le), h, c)
  end.

Definition setWithExpire (h : heap) (c : LruCache) (now : Z) (k : K) (v : V)
    (exp : Z) : outcome (heap * LruCache) :=
  '(h, c) ←
    (match cache c !! k with
     | Some le =>
       let c := set_lru c (MoveToBack (lru c) le) in
       e ← deref h (Value le);
       mret (<[Value le := mkEntry (key e) v exp]> h, c)
     | None =>
       let p := alloc h in
       let h := <[p := mkEntry k v exp]> h in
       let '(le, l) := PushBack (lru c) p in
       let c := set_cache (set_lru c l) (<[k := le]> (cache c)) in
       if (0 <? maxSize c) && (maxSize c <? list_Len (lru c)) then
         match Front (lru c) with
         | None => Panic "nil pointer dereference"
         | Some le => c ← deleteElement h c le; mret (h, c)
         end
       else mret (h, c)
     end);
  c ← maybeDeleteOldest h c now;
  mret (h, c).

Definition set (h : heap) (c : LruCache) (now : Z) (k : K) (v : V) :
    outcome (heap * LruCache) :=
  let exp := if 0 <? maxAge c then i64 (now + maxAge c) else 0 in
  setWithExpire h c now k v exp.

Definition Get (h : heap) (c : LruCache) (now : Z) (k : K) :
    outcome (V * bool * heap * LruCache) :=
  '(el, h, c) ← get h c now k;
  match el with
  | None => mret (zeroV, false, h, c)
  | Some p => e ← deref h p; mret (value e, true, h, c)
  end.

Definition GetOrStore (h : heap) (c : LruCache) (now : Z) (k : K)
    (constructor : unit → V) : outcome (V * bool * heap * LruCache) :=
  '(el, h, c) ← get h c now k;
  match el with
  | None =>
    let v := constructor () in
    '(h, c) ← set h c now k v;
    mret (v, false, h, c)
  | Some p => e ← deref h p; mret (value e, true, h, c)
  end.

(** The Unix time of [time.Time{}]. *)
Definition zero_time : Z := -62135596800.

Definition GetWithExpire (h : heap) (c : LruCache) (now : Z) (k : K) :
    outcome (V * Z * bool * heap * LruCache) :=
  '(el, h, c) ← get h c now k;
  match el with
  | None => mret (zeroV, zero_time, false, h, c)
  | Some p => e ← deref h p; mret (value e, expires e, true, h, c)
  end.

Definition Exist (c : LruCache) (k : K) : bool :=
  match cache c !! k with Some _ => true | None => false end.

Definition Set_ := set.
Definition SetWithExpire := setWithExpire.

Definition delete_ (h : heap) (c : LruCache) (k : K) : outcome LruCache :=
  match cache c !! k with
  | Some le => deleteElement h c le
  | None => mret c
  end.
Definition Delete_ := delete_.

Definition Compute_ (h : heap) (c : LruCache) (now : Z) (k : K)
    (valueFn : V → bool → V * bool) : outcome (V * bool * heap * LruCache) :=
  '(el, h, c) ← get h c now k;
  '(actual, ok) ←
    (match el with
     | Some p => e ← deref h p; mret (value e, true)
     | None => mret (zeroV, false)
     end);
  let '(newValue, del) := valueFn actual ok in
  if del : bool then
    c ← (if ok : bool then delete_ h c k else mret c);
    mret (zeroV, false, h, c)
  else
    '(h, c) ← set h c now k newValue;
    mret (newValue, true, h, c).

Fixpoint SetMaxSize_loop (fuel : nat) (h : heap) (c : LruCache) (n : Z) :
    outcome LruCache :=
  match fuel with
  | O => OutOfFuel
  | S fuel =>
    if n <? list_Len (lru c) then
      match Front (lru c) with
      | None => Panic "nil pointer dereference"
      | Some le => c ← deleteElement h c le; SetMaxSize_loop fuel h c n
      end
    else mret c
  end.

Definition SetMaxSize (h : heap) (c : LruCache) (n : Z) : outcome LruCache :=
  let c := set_maxSize c n in
  if n <=? 0 then mret c
  else SetMaxSize_loop (S (Z.to_nat (list_Len (lru c)))) h c n.

(** The two range loops: [order] is the order in which Go's [range] visits the
    keys of the map, and [keyString] the type assertion [any(k).(string)].  A key
    no longer in the map when its turn comes is not produced. *)
Fixpoint FilterByKeyPrefix_loop (keyString : K → option string) (prefix : string)
    (h : heap) (c : LruCache) (now : Z) (order : list K) (result : gmap string V) :
    outcome (gmap string V * LruCache) :=
  match order with
  | [] => mret (result, c)
  | k :: order =>
    match cache c !! k, keyString k with
    | Some le, Some keyStr =>
      if negb (String.prefix prefix keyStr) then
        FilterByKeyPrefix_loop keyString prefix h c now order result
      else
        e ← deref h (Value le);
        if negb (staleReturn c) && (0 <? maxAge c) && (expires e <=? now) then
          c ← deleteElement h c le;
          FilterByKeyPrefix_loop keyString prefix h c now order result
        else
          FilterByKeyPrefix_loop keyString prefix h c now order
            (<[keyStr := value e]> result)
    | _, _ => FilterByKeyPrefix_loop keyString prefix h c now order result
    end
  end.

Definition FilterByKeyPrefix (keyString : K → option string) (prefix : string)
    (h : heap) (c : LruCache) (now : Z) (order : list K) :
    outcome (gmap string V * LruCache) :=
  '(result, c) ← FilterByKeyPrefix_loop keyString prefix h c now order ∅;
  c ← maybeDeleteOldest h c now;
  mret (result, c).

Fixpoint RemoveByKeyPrefix (keyString : K → option string) (prefix : string)
    (h : heap) (c : LruCache) (order : list K) (removed : Z) :
    outcome (Z * LruCache) :=
  match order with
  | [] => mret (removed, c)
  | k :: order =>
    match cache c !! k, keyString k with
    | Some _, Some keyStr =>
      if negb (String.prefix prefix keyStr) then
        RemoveByKeyPrefix keyString prefix h c order removed
      else
        c ← delete_ h c k;
        RemoveByKeyPrefix keyString prefix h c order (removed + 1)
    | _, _ => RemoveByKeyPrefix keyString prefix h c order removed
    end
  end.

(** [CloneTo]: [n] gets elements of its own that hold the same pointers. *)
Fixpoint CloneTo_loop (h : heap) (es : list elem) (n : LruCache) : outcome LruCache :=
  match es with
  | [] => mret n
  | e :: es =>
    let elm := Value e in
    x ← deref h elm;
    let '(le, l) := PushBack (lru n) elm in
    CloneTo_loop h es (set_cache (set_lru n l) (<[key x := le]> (cache n)))
  end.

Definition CloneTo (h : heap) (c n : LruCache) : outcome LruCache :=
  CloneTo_loop h (view (lru c)) (Clear n).

(** ** Specification: one list of entries, least recently used first *)

Record Spec := mkSpec {
  sp_age : Z;
  sp_size : Z;
  sp_touch : bool;
  sp_stale : bool;
  sp_cb : bool;
  sp_log : list (K * V);
  sp_list : list entry;
}.

Definition sp_with (s : Spec) (log : list (K * V)) (l : list entry) : Spec :=
  mkSpec (sp_age s) (sp_size s) (sp_touch s) (sp_stale s) (sp_cb s) log l.

Fixpoint find_key (k : K) (l : list entry) : option entry :=
  match l with
  | [] => None
  | e :: l => if decide (key e = k) then Some e else find_key k l
  end.

Fixpoint remove_key (k : K) (l : list entry) : list entry :=
  match l with
  | [] => []
  | e :: l => if decide (key e = k) then l else e :: remove_key k l
  end.

(** Entries leave the cache through [sp_evict], which reports them. *)
Definition sp_evict (s : Spec) (e : entry) (l : list entry) : Spec :=
  sp_with s (if sp_cb s then sp_log s ++ [(key e, value e)] else sp_log s) l.

Fixpoint sp_trim (now : Z) (s : Spec) (l : list entry) : Spec :=
  match l with
  | [] => sp_with s (sp_log s) []
  | e :: l' => if expires e <=? now then sp_trim now (sp_evict s e l') l'
               else sp_with s (sp_log s) l
  end.

(** Expiry applies to this cache. *)
Definition sp_expires (s : Spec) : bool := negb (sp_stale s) && (0 <? sp_age s).

Definition sp_expire (now : Z) (s : Spec) : Spec :=
  if sp_expires s then sp_trim now s (sp_list s) else s.

Definition sp_delete (k : K) (s : Spec) : Spec :=
  match find_key k (sp_list s) with
  | Some e => sp_evict s e (remove_key k (sp_list s))
  | None => s
  end.

Definition sp_get (now : Z) (k : K) (s : Spec) : option entry * Spec :=
  match find_key k (sp_list s) with
  | None => (None, s)
  | Some e =>
    if sp_expires s && (expires e <=? now) then
      (None, sp_expire now (sp_delete k s))
    else
      let e := if (0 <? sp_age s) && sp_touch s
               then mkEntry (key e) (value e) (i64 (now + sp_age s)) else e in
      (Some e, sp_with s (sp_log s) (remove_key k (sp_list s) ++ [e]))
  end.

Definition sp_setExpire (now : Z) (k : K) (v : V) (exp : Z) (s : Spec) : Spec :=
  let l := remove_key k (sp_list s) ++ [mkEntry k v exp] in
  sp_expire now
    (match find_key k (sp_list s), l with
     | None, e :: l' =>
       if (0 <? sp_size s) && (sp_size s <? len l) then sp_evict s e l'
       else sp_with s (sp_log s) l
     | _, _ => sp_with s (sp_log s) l
     end).

Definition sp_set (now : Z) (k : K) (v : V) (s : Spec) : Spec :=
  sp_setExpire now k v (if 0 <? sp_age s then i64 (now + sp_age s) else 0) s.

Fixpoint sp_shrink (n : Z) (s : Spec) (l : list entry) : Spec :=
  match l with
  | [] => sp_with s (sp_log s) []
  | e :: l' => if n <? len l then sp_shrink n (sp_evict s e l') l'
               else sp_with s (sp_log s) l
  end.

Definition sp_setMaxSize (n : Z) (s : Spec) : Spec :=
  let s := mkSpec (sp_age s) n (sp_touch s) (sp_stale s) (sp_cb s) (sp_log s) (sp_list s) in
  if n <=? 0 then s else sp_shrink n s (sp_list s).

Definition sp_compute (now : Z) (k : K) (f : V → bool → V * bool) (s : Spec) :
    V * bool * Spec :=
  let '(e, s) := sp_get now k s in
  let '(actual, ok) :=
    match e with Some e => (value e, true) | None => (zeroV, false) end in
  let '(v, del) := f actual ok in
  if del : bool then (zeroV, false, if ok : bool then sp_delete k s else s)
  else (v, true, sp_set now k v s).

Fixpoint sp_removePrefix (keyString : K → option string) (prefix : string)
    (order : list K) (s : Spec) (n : Z) : Z * Spec :=
  match order with
  | [] => (n, s)
  | k :: order =>
    match find_key k (sp_list s), keyString k with
    | Some _, Some str =>
      if String.prefix prefix str
      then sp_removePrefix keyString prefix order (sp_delete k s) (n + 1)
      else sp_removePrefix keyString prefix order s n
    | _, _ => sp_removePrefix keyString prefix order s n
    end
  end.

Fixpoint sp_filterPrefix (keyString : K → option string) (prefix : string)
    (now : Z) (order : list K) (s : Spec) (m : gmap string V) : gmap string V * Spec :=
  match order with
  | [] => (m, s)
  | k :: order =>
    match find_key k (sp_list s), keyString k with
    | Some e, Some str =>
      if negb (String.prefix prefix str)
      then sp_filterPrefix keyString prefix now order s m
      else if sp_expires s && (expires e <=? now)
      then sp_filterPrefix keyString prefix now order (sp_delete k s) m
      else sp_filterPrefix keyString prefix now order s (<[str := value e]> m)
    | _, _ => sp_filterPrefix keyString prefix now order s m
    end
  end.

(** ** Histories *)

Inductive opt : Type :=
| oEvict | oUpdateAgeOnGet | oAge (age : Z) | oSize (size : Z) | oStale (stale : bool).

Definition option_of (o : opt) : Option_ :=
  match o with
  | oEvict => WithEvict
  | oUpdateAgeOnGet => WithUpdateAgeOnGet
  | oAge a => WithAge a
  | oSize n => WithSize n
  | oStale b => WithStale b
  end.

Definition sp_option (s : Spec) (o : opt) : Spec :=
  let '(mkSpec age size touch stale cb log l) := s in
  match o with
  | oEvict => mkSpec age size touch stale true log l
  | oUpdateAgeOnGet => mkSpec age size true stale cb log l
  | oAge a => mkSpec a size touch stale cb log l
  | oSize n => mkSpec age n touch stale cb log l
  | oStale b => mkSpec age size touch b cb log l
  end.

Definition sp_new (os : list opt) : Spec :=
  foldl sp_option (mkSpec 0 0 false false false [] []) os.

Inductive op : Type :=
| OGet (k : K)
| OGetOrStore (k : K) (v : V)
| OGetWithExpire (k : K)
| OExist (k : K)
| OSet (k : K) (v : V)
| OSetWithExpire (k : K) (v : V) (exp : Z)
| ODelete (k : K)
| OClear
| OCompute (k : K) (f : V → bool → V * bool)
| OSetMaxSize (n : Z)
| ORemovePrefix (keyString : K → option string) (prefix : string) (order : list K)
| OFilterPrefix (keyString : K → option string) (prefix : string) (order : list K).

Inductive out : Type :=
| RNone | RBool (b : bool) | RVal (v : V) (ok : bool) | RExp (v : V) (t : Z) (ok : bool)
| RCount (n : Z) | RMap (m : gmap string V).

Definition exec1 (h : heap) (c : LruCache) (now : Z) (o : op) :
    outcome (out * heap * LruCache) :=
  match o with
  | OGet k => '(v, ok, h, c) ← Get h c now k; mret (RVal v ok, h, c)
  | OGetOrStore k v =>
    '(v, ok, h, c) ← GetOrStore h c now k (λ _, v); mret (RVal v ok, h, c)
  | OGetWithExpire k => '(v, t, ok, h, c) ← GetWithExpire h c now k; mret (RExp v t ok, h, c)
  | OExist k => mret (RBool (Exist c k), h, c)
  | OSet k v => '(h, c) ← Set_ h c now k v; mret (RNone, h, c)
  | OSetWithExpire k v exp => '(h, c) ← SetWithExpire h c now k v exp; mret (RNone, h, c)
  | ODelete k => c ← Delete_ h c k; mret (RNone, h, c)
  | OClear => mret (RNone, h, Clear c)
  | OCompute k f => '(v, ok, h, c) ← Compute_ h c now k f; mret (RVal v ok, h, c)
  | OSetMaxSize n => c ← SetMaxSize h c n; mret (RNone, h, c)
  | ORemovePrefix ks p order =>
    '(n, c) ← RemoveByKeyPrefix ks p h c order 0; mret (RCount n, h, c)
  | OFilterPrefix ks p order =>
    '(m, c) ← FilterByKeyPrefix ks p h c now order; mret (RMap m, h, c)
  end.

Definition spec1 (s : Spec) (now : Z) (o : op) : out * Spec :=
  match o with
  | OGet k =>
    match sp_get now k s with
    | (Some e, s) => (RVal (value e) true, s)
    | (None, s) => (RVal zeroV false, s)
    end
  | OGetOrStore k v =>
    match sp_get now k s with
    | (Some e, s) => (RVal (value e) true, s)
    | (None, s) => (RVal v false, sp_set now k v s)
    end
  | OGetWithExpire k =>
    match sp_get now k s with
    | (Some e, s) => (RExp (value e) (expires e) true, s)
    | (None, s) => (RExp zeroV zero_time false, s)
    end
  | OExist k => (RBool (bool_decide (k ∈ key <$> sp_list s)), s)
  | OSet k v => (RNone, sp_set now k v s)
  | OSetWithExpire k v exp => (RNone, sp_setExpire now k v exp s)
  | ODelete k => (RNone, sp_delete k s)
  | OClear => (RNone, sp_with s (sp_log s) [])
  | OCompute k f => let '(v, ok, s) := sp_compute now k f s in (RVal v ok, s)
  | OSetMaxSize n => (RNone, sp_setMaxSize n s)
  | ORemovePrefix ks p order => let '(n, s) := sp_removePrefix ks p order s 0 in (RCount n, s)
  | OFilterPrefix ks p order =>
    let '(m, s) := sp_filterPrefix ks p now order s ∅ in (RMap m, sp_expire now s)
  end.

Fixpoint exec (h : heap) (c : LruCache) (ops : list (Z * op)) :
    outcome (list out * heap * LruCache) :=
  match ops with
  | [] => mret ([], h, c)
  | (now, o) :: ops =>
    '(r, h, c) ← exec1 h c now o;
    '(rs, h, c) ← exec h c ops;
    mret (r :: rs, h, c)
  end.

Fixpoint spec_exec (s : Spec) (ops : list (Z * op)) : list out * Spec :=
  match ops with
  | [] => ([], s)
  | (now, o) :: ops =>
    let '(r, s) := spec1 s now o in
    let '(rs, s) := spec_exec s ops in
    (r :: rs, s)
  end.

(** ** Representation *)

Record linked (h : heap) (c : LruCache) (ps : list (elem * entry)) : Prop := {
  ln_view : view (lru c) = ps.*1;
  ln_heap : Forall (λ p, h !! Value p.1 = Some p.2) ps;
  ln_ptrs : NoDup ((λ p, Value p.1) <$> ps);
  ln_keys : NoDup ((λ p, key p.2) <$> ps);
  ln_map : cache c = list_to_map ((λ p, (key p.2, p.1)) <$> ps);
}.

Definition config (c : LruCache) (s : Spec) : Prop :=
  maxAge c = sp_age s ∧ maxSize c = sp_size s ∧ updateAgeOnGet c = sp_touch s ∧
  staleReturn c = sp_stale s ∧ onEvict c = sp_cb s ∧ evicted c = sp_log s.

Definition repr (h : heap) (c : LruCache) (s : Spec) : Prop :=
  config c s ∧ ∃ ps, linked h c ps ∧ sp_list s = ps.*2.

Lemma linked_lookup h c ps k le :
  linked h c ps → cache c !! k = Some le →
  ∃ p1 e p2, ps = p1 ++ (le, e) :: p2 ∧ key e = k.
Proof.
  intros [_ _ _ Hk Hm] Hl. rewrite Hm in Hl.
  apply elem_of_list_to_map in Hl; [|by rewrite <- list_fmap_compose].
  apply list_elem_of_fmap in Hl as ([el e] & [= -> ->] & Hin).
  apply list_elem_of_split in Hin as (p1 & p2 & ->). eauto.
Qed.

Lemma linked_None h c ps k :
  linked h c ps → cache c !! k = None → k ∉ (λ p, key p.2) <$> ps.
Proof.
  intros [_ _ _ Hk Hm] Hl. rewrite Hm in Hl.
  apply not_elem_of_list_to_map in Hl. by rewrite <- list_fmap_compose in Hl.
Qed.

Lemma linked_deref h c p1 le e p2 :
  linked h c (p1 ++ (le, e) :: p2) → deref h (Value le) = Ret e.
Proof.
  intros [_ Hh _ _ _]. rewrite Forall_app, Forall_cons in Hh.
  destruct Hh as (_ & He & _). unfold deref. simpl in He. by rewrite He.
Qed.

Lemma linked_notin h c p1 le e p2 :
  linked h c (p1 ++ (le, e) :: p2) → le ∉ p1.*1.
Proof.
  intros [_ _ Hp _ _] (x & -> & Hx)%list_elem_of_fmap.
  rewrite fmap_app, fmap_cons in Hp. apply NoDup_app in Hp as (_ & Hd & _).
  apply (Hd (Value x.1)); [|left]. apply list_elem_of_fmap. by exists x.
Qed.

Lemma find_split l1 e l2 :
  NoDup (key <$> l1 ++ e :: l2) →
  find_key (key e) (l1 ++ e :: l2) = Some e ∧
  remove_key (key e) (l1 ++ e :: l2) = l1 ++ l2.
Proof.
  induction l1 as [|x l1 IH]; csimpl; intros Hk; [by rewrite !decide_True|].
  apply NoDup_cons in Hk as [Hx Hk]. destruct (IH Hk) as [-> ->].
  assert (key x ≠ key e) by (clear -Hx; set_solver). by rewrite !decide_False.
Qed.

Lemma find_key_None k l :
  k ∉ key <$> l → find_key k l = None ∧ remove_key k l = l.
Proof.
  induction l as [|x l IH]; csimpl; intros Hk; [done|].
  apply not_elem_of_cons in Hk as [Hx Hk]. destruct (IH Hk) as [-> ->].
  by rewrite !decide_False.
Qed.

Lemma keys_split h c p1 le e p2 :
  linked h c (p1 ++ (le, e) :: p2) →
  find_key (key e) (p1 ++ (le, e) :: p2).*2 = Some e ∧
  remove_key (key e) (p1 ++ (le, e) :: p2).*2 = (p1 ++ p2).*2.
Proof.
  intros [_ _ _ Hk _]. rewrite !fmap_app, fmap_cons. apply find_split.
  by rewrite <- (fmap_cons snd (le, e) p2), <- fmap_app, <- list_fmap_compose.
Qed.

Lemma keys_None k (ps : list (elem * entry)) :
  k ∉ (λ p, key p.2) <$> ps → find_key k ps.*2 = None ∧ remove_key k ps.*2 = ps.*2.
Proof. intros Hk. apply find_key_None. by rewrite <- list_fmap_compose. Qed.

(** The map and the side conditions depend on the order of the elements only up
    to permutation. *)
Lemma linked_perm h c c' ps ps' :
  linked h c ps → ps ≡ₚ ps' → view (lru c') = ps'.*1 → cache c' = cache c →
  linked h c' ps'.
Proof.
  intros [Hv Hh Hp Hk Hm] Hperm Hv' Hc.
  split; [done|by rewrite <- Hperm..|].
  rewrite Hc, Hm. apply list_to_map_proper; [|by rewrite Hperm].
  by rewrite <- list_fmap_compose.
Qed.

Lemma linked_update h c p1 le e p2 e' :
  linked h c (p1 ++ (le, e) :: p2) → key e' = key e →
  linked (<[Value le := e']> h) c (p1 ++ (le, e') :: p2).
Proof.
  intros [Hv Hh Hp Hk Hm] He. rewrite ?fmap_app, ?fmap_cons in *. simpl in *.
  split; rewrite ?fmap_app, ?fmap_cons; simpl; rewrite ?He; [done| |done..].
  apply NoDup_app in Hp as (_ & Hd & [Hn _]%NoDup_cons).
  rewrite Forall_app, Forall_cons in *. destruct Hh as (H1 & _ & H2).
  split_and!; [|by rewrite lookup_insert_eq|].
  - eapply Forall_impl; [apply Forall_and; split; [exact H1|]|].
    + apply Forall_forall. intros x Hx. apply (Hd (Value x.1)).
      apply list_elem_of_fmap. by exists x.
    + intros x [Hx Hnx]. rewrite lookup_insert_ne; [done|]. set_solver.
  - apply Forall_forall. intros x Hx. rewrite Forall_forall in H2.
    rewrite lookup_insert_ne; [by apply H2|]. intros Heq. apply Hn.
    apply list_elem_of_fmap. by exists x.
Qed.

Lemma linked_touch h c p1 le e p2 e' :
  linked h c (p1 ++ (le, e) :: p2) → key e' = key e →
  linked (<[Value le := e']> h) (set_lru c (MoveToBack (lru c) le))
    (p1 ++ p2 ++ [(le, e')]).
Proof.
  intros Hl He. pose proof (linked_notin _ _ _ _ _ _ Hl) as Hn.
  eapply linked_perm; [by apply (linked_update _ _ _ _ _ _ e' Hl)| | |done].
  - apply Permutation_app_head, Permutation_cons_append.
  - cbn [lru set_lru]. rewrite ?fmap_app. simpl. apply view_MoveToBack; [|done].
    rewrite (ln_view _ _ _ Hl), fmap_app. done.
Qed.

Lemma linked_remove h c p1 le e p2 s :
  linked h c (p1 ++ (le, e) :: p2) → config c s →
  ∃ c', deleteElement h c le = Ret c' ∧ linked h c' (p1 ++ p2) ∧
        config c' (sp_evict s e (p1 ++ p2).*2).
Proof.
  intros Hl Hc. unfold deleteElement. rewrite (linked_deref _ _ _ _ _ _ Hl). run.
  eexists. split; [done|]. pose proof (linked_notin _ _ _ _ _ _ Hl) as Hn.
  assert (linked h (set_cache (set_lru c (list_Remove (lru c) le))
                      (delete (key e) (cache c))) (p1 ++ p2)) as Hl'.
  { destruct Hl as [Hv Hh Hp Hk Hm]. rewrite <- Permutation_middle in Hh, Hp, Hk.
    split; simpl; [| |by apply NoDup_cons in Hp as [_ ?]|by apply NoDup_cons in Hk as [_ ?]|].
    - rewrite fmap_app. apply view_Remove; [|done]. by rewrite Hv, fmap_app.
    - by apply Forall_cons in Hh as [_ ?].
    - rewrite Hm. erewrite (list_to_map_proper _ ((key e, le) :: _)).
      + simpl. rewrite delete_insert_id; [done|]. apply not_elem_of_list_to_map.
        rewrite <- list_fmap_compose. by apply NoDup_cons in Hk as [? _].
      + rewrite <- list_fmap_compose. by rewrite <- Permutation_middle.
      + by rewrite <- Permutation_middle. }
  destruct Hc as (? & ? & ? & ? & Hcb & Hlog). simpl. rewrite Hcb.
  split.
  - destruct Hl' as []. by destruct (sp_cb s); split.
  - unfold config, sp_evict. destruct (sp_cb s) eqn:E; simpl;
    by rewrite Hcb, Hlog, E.
Qed.

Lemma repr_view h c s : repr h c s → list_Len (lru c) = len (sp_list s).
Proof.
  intros (_ & ps & Hl & ->). by rewrite view_Len, (ln_view _ _ _ Hl), !length_fmap.
Qed.

Lemma repr_front h c s :
  repr h c s →
  match sp_list s with
  | [] => Front (lru c) = None
  | e :: l => ∃ le, Front (lru c) = Some le ∧ deref h (Value le) = Ret e ∧
      ∃ c', deleteElement h c le = Ret c' ∧ repr h c' (sp_evict s e l)
  end.
Proof.
  intros (Hc & ps & Hl & Hs). rewrite view_Front, (ln_view _ _ _ Hl), Hs.
  destruct ps as [|[le e] ps]; [done|]. csimpl. exists le. split; [done|].
  split; [by apply (linked_deref h c [] le e ps)|].
  destruct (linked_remove h c [] le e ps s) as (c' & -> & Hl' & Hc'); [done..|].
  exists c'. split; [done|]. split; [done|]. by exists ps.
Qed.

Lemma repr_lookup h c s k :
  repr h c s →
  match cache c !! k with
  | None => k ∉ key <$> sp_list s
  | Some le => ∃ e, find_key k (sp_list s) = Some e ∧ key e = k ∧
      deref h (Value le) = Ret e ∧
      (∃ c', deleteElement h c le = Ret c' ∧ repr h c' (sp_delete k s)) ∧
      ∀ e', key e' = k →
        repr (<[Value le := e']> h) (set_lru c (MoveToBack (lru c) le))
          (sp_with s (sp_log s) (remove_key k (sp_list s) ++ [e']))
  end.
Proof.
  intros (Hc & ps & Hl & Hs). destruct (cache c !! k) as [le|] eqn:Hk.
  - destruct (linked_lookup _ _ _ _ _ Hl Hk) as (p1 & e & p2 & -> & <-).
    destruct (keys_split _ _ _ _ _ _ Hl) as [Hf Hr]. exists e.
    unfold sp_delete. rewrite Hs, Hf, Hr.
    split_and!; [done|done|by eapply linked_deref| |].
    + destruct (linked_remove h c p1 le e p2 s) as (c' & -> & Hl' & Hc'); [done..|].
      exists c'. split; [done|]. split; [done|]. by exists (p1 ++ p2).
    + intros e' He'. split; [done|]. exists (p1 ++ p2 ++ [(le, e')]).
      split; [by apply (linked_touch _ _ _ _ e)|]. cbn [sp_list sp_with].
      by rewrite app_assoc, (fmap_app snd (p1 ++ p2)).
  - rewrite Hs. pose proof (linked_None _ _ _ _ Hl Hk) as Hn.
    by rewrite <- list_fmap_compose.
Qed.

Lemma maybeDeleteOldest_loop_repr fuel h c s now :
  repr h c s → (length (sp_list s) < fuel)%nat →
  ∃ c', maybeDeleteOldest_loop fuel h c now = Ret c' ∧
        repr h c' (sp_trim now s (sp_list s)).
Proof.
  revert c s. induction fuel as [|fuel IH]; [lia|]. intros c s Hr Hf. simpl.
  pose proof (repr_front h c s Hr) as Hfr.
  destruct (sp_list s) as [|e l] eqn:Hs; simpl.
  - rewrite Hfr. exists c. split; [done|].
    destruct Hr as (Hc & ps & Hl & Hps). split; [done|]. exists ps.
    split; [done|]. by rewrite <- Hps.
  - destruct Hfr as (le & -> & -> & c' & Hd & Hr'). run.
    destruct (expires e <=? now).
    + rewrite Hd. run. apply (IH c' (sp_evict s e l)); [done|]. simpl in *. lia.
    + exists c. split; [done|]. destruct Hr as (Hc & ps & Hl & Hps). split; [done|].
      exists ps. split; [done|]. by rewrite <- Hps.
Qed.

Lemma maybeDeleteOldest_repr h c s now :
  repr h c s → ∃ c', maybeDeleteOldest h c now = Ret c' ∧ repr h c' (sp_expire now s).
Proof.
  intros Hr. unfold maybeDeleteOldest, sp_expire, sp_expires.
  pose proof Hr as ((-> & _ & _ & -> & _) & _).
  destruct (negb (sp_stale s) && (0 <? sp_age s)); [|by eexists].
  apply maybeDeleteOldest_loop_repr; [done|].
  rewrite (repr_view h c s) by done. lia.
Qed.

(** The entry a pointer of [get] designates. *)
Definition points (h : heap) (el : option positive) (r : option entry) : Prop :=
  match el, r with
  | None, None => True
  | Some p, Some e => deref h p = Ret e
  | _, _ => False
  end.

Lemma repr_id h c s :
  repr h c s → repr h c (sp_with s (sp_log s) (sp_list s)).
Proof. done. Qed.

Lemma get_repr h c s now k :
  repr h c s →
  ∃ el h' c', get h c now k = Ret (el, h', c') ∧
    points h' el (sp_get now k s).1 ∧ repr h' c' (sp_get now k s).2.
Proof.
  intros Hr. unfold get, sp_get. pose proof (repr_lookup h c s k Hr) as Hlk.
  pose proof Hr as ((Hage & _ & Htouch & Hstale & _) & _).
  destruct (cache c !! k) as [le|].
  - destruct Hlk as (e & -> & Hk & He & (c1 & Hd & Hr1) & Hmv). rewrite He. run.
    rewrite Hage, Hstale. unfold sp_expires. destruct (_ && (expires e <=? now)).
    + rewrite Hd. run. destruct (maybeDeleteOldest_repr h c1 _ now Hr1) as (c2 & -> & Hr2).
      run. by exists None, h, c2.
    + cbn [maxAge updateAgeOnGet set_lru]. rewrite Hage, Htouch.
      destruct (_ && sp_touch s); (do 3 eexists; split; [done|]; split).
      * simpl. unfold deref. by rewrite lookup_insert_eq.
      * by apply Hmv.
      * done.
      * replace h with (<[Value le := e]> h) at 1; [by apply Hmv|].
        apply insert_id. unfold deref in He. by destruct (h !! Value le); simplify_eq.
  - destruct (find_key_None k (sp_list s) Hlk) as [-> _]. by exists None, h, c.
Qed.

Lemma linked_push h c s ps k v exp :
  config c s → linked h c ps → k ∉ (λ p, key p.2) <$> ps →
  let p := alloc h in
  let e := mkEntry k v exp in
  let '(le, l) := PushBack (lru c) p in
  linked (<[p := e]> h) (set_cache (set_lru c l) (<[k := le]> (cache c)))
    (ps ++ [(le, e)]).
Proof.
  intros Hc [Hv Hh Hp Hk Hm] Hnk p e.
  pose proof (view_PushBack (lru c) p) as Hvp. pose proof (Value_PushBack (lru c) p) as Hval.
  destruct (PushBack (lru c) p) as [le l]. simpl in *. subst p.
  assert (Forall (λ q, Value q.1 ≠ alloc h) ps) as Hfr.
  { eapply Forall_impl; [exact Hh|]. intros q Hq Heq. simpl in Hq. rewrite Heq in Hq.
    by rewrite alloc_fresh in Hq. }
  split; simpl.
  - by rewrite Hvp, Hv, fmap_app.
  - apply Forall_app. split; [|apply Forall_singleton; simpl; by rewrite Hval, lookup_insert_eq].
    eapply Forall_impl; [by apply Forall_and; split; [exact Hh|exact Hfr]|].
    intros q [Hq Hne]. by rewrite lookup_insert_ne.
  - rewrite fmap_app. apply NoDup_app. split_and!; [done| |apply NoDup_singleton].
    intros x (q & -> & Hq)%list_elem_of_fmap Hx. rewrite Forall_forall in Hfr.
    simpl in Hx. apply list_elem_of_singleton in Hx. rewrite Hval in Hx. by apply (Hfr q).
  - rewrite fmap_app. apply NoDup_app. split_and!; [done| |apply NoDup_singleton].
    intros x Hx Hx'. simpl in Hx'. apply list_elem_of_singleton in Hx' as ->. done.
  - rewrite fmap_app, Hm. simpl. rewrite list_to_map_snoc; [done|].
    by rewrite <- list_fmap_compose.
Qed.

Lemma push_repr h c s k v exp :
  repr h c s → k ∉ key <$> sp_list s →
  let p := alloc h in
  let '(le, l) := PushBack (lru c) p in
  repr (<[p := mkEntry k v exp]> h) (set_cache (set_lru c l) (<[k := le]> (cache c)))
    (sp_with s (sp_log s) (sp_list s ++ [mkEntry k v exp])).
Proof.
  intros (Hc & ps & Hl & Hs) Hk p. rewrite Hs, <- list_fmap_compose in Hk.
  pose proof (linked_push h c s ps k v exp Hc Hl Hk) as Hl'. cbv zeta in Hl'. fold p in Hl'.
  destruct (PushBack (lru c) p) as [le l]. split; [done|].
  exists (ps ++ [(le, mkEntry k v exp)]). split; [done|]. simpl. by rewrite Hs, fmap_app.
Qed.

Lemma setWithExpire_repr h c s now k v exp :
  repr h c s →
  ∃ h' c', setWithExpire h c now k v exp = Ret (h', c') ∧
    repr h' c' (sp_setExpire now k v exp s).
Proof.
  intros Hr. unfold setWithExpire, sp_setExpire.
  pose proof (repr_lookup h c s k Hr) as Hlk.
  destruct (cache c !! k) as [le|].
  - destruct Hlk as (e & -> & Hk & -> & _ & Hmv). run. rewrite Hk.
    edestruct (maybeDeleteOldest_repr _ _ _ now (Hmv (mkEntry k v exp) eq_refl))
      as (c2 & -> & Hr2). run. by eauto.
  - destruct (find_key_None k (sp_list s) Hlk) as [-> ->].
    pose proof (push_repr h c s k v exp Hr Hlk) as Hp. cbv zeta in Hp.
    destruct (PushBack (lru c) (alloc h)) as [le l].
    rewrite (repr_view _ _ _ Hp). pose proof Hp as ((_ & -> & _) & _).
    cbn [sp_size sp_with sp_list].
    destruct (sp_list s ++ [mkEntry k v exp]) as [|e1 l1] eqn:El; [by destruct (sp_list s)|].
    destruct ((0 <? sp_size s) && (sp_size s <? len (e1 :: l1))).
    + destruct (repr_front _ _ _ Hp) as (fe & -> & _ & c' & -> & Hr'). run.
      destruct (maybeDeleteOldest_repr _ _ _ now Hr') as (c2 & -> & Hr2). run. by eauto.
    + run. destruct (maybeDeleteOldest_repr _ _ _ now Hp) as (c2 & -> & Hr2). run. by eauto.
Qed.

Lemma set_repr h c s now k v :
  repr h c s →
  ∃ h' c', set h c now k v = Ret (h', c') ∧ repr h' c' (sp_set now k v s).
Proof.
  intros Hr. unfold set, sp_set. pose proof Hr as ((-> & _) & _).
  by apply setWithExpire_repr.
Qed.

Lemma delete_repr h c s k :
  repr h c s → ∃ c', delete_ h c k = Ret c' ∧ repr h c' (sp_delete k s).
Proof.
  intros Hr. unfold delete_. pose proof (repr_lookup h c s k Hr) as Hlk.
  destruct (cache c !! k) as [le|].
  - destruct Hlk as (e & _ & _ & _ & (c' & -> & Hr') & _). eauto.
  - unfold sp_delete. destruct (find_key_None k (sp_list s) Hlk) as [-> _]. eauto.
Qed.

Lemma SetMaxSize_loop_repr fuel h c s n :
  repr h c s → 0 < n → (length (sp_list s) < fuel)%nat →
  ∃ c', SetMaxSize_loop fuel h c n = Ret c' ∧ repr h c' (sp_shrink n s (sp_list s)).
Proof.
  revert c s. induction fuel as [|fuel IH]; [lia|]. intros c s Hr Hn Hf. simpl.
  rewrite (repr_view _ _ _ Hr). pose proof (repr_front h c s Hr) as Hfr.
  destruct (sp_list s) as [|e l] eqn:Hs.
  - destruct (Z.ltb_spec n (len (@nil entry))); [simpl in *; lia|].
    exists c. split; [done|]. simpl. rewrite <- Hs. by apply repr_id.
  - cbn [sp_shrink]. destruct (n <? len (e :: l)).
    + destruct Hfr as (le & -> & _ & c' & -> & Hr'). run.
      apply (IH c' (sp_evict s e l)); [done..|]. simpl in *. lia.
    + exists c. split; [done|]. rewrite <- Hs. by apply repr_id.
Qed.

Lemma SetMaxSize_repr h c s n :
  repr h c s → ∃ c', SetMaxSize h c n = Ret c' ∧ repr h c' (sp_setMaxSize n s).
Proof.
  intros Hr. unfold SetMaxSize, sp_setMaxSize.
  set (s' := mkSpec _ n _ _ _ _ _).
  assert (repr h (set_maxSize c n) s') as Hr'.
  { destruct Hr as ((? & ? & ? & ? & ? & ?) & ps & [] & Hs). by split; [|exists ps]. }
  destruct (Z.leb_spec n 0); [by eexists|].
  apply (SetMaxSize_loop_repr _ h (set_maxSize c n) s'); [done|lia|].
  rewrite (repr_view _ _ _ Hr'). lia.
Qed.

Lemma Clear_repr h c s : repr h c s → repr h (Clear c) (sp_with s (sp_log s) []).
Proof.
  intros (Hc & _). split; [done|]. exists []. split; [|done].
  split; simpl; [apply view_New|constructor|constructor|constructor|done].
Qed.

Lemma Exist_repr h c s k :
  repr h c s → Exist c k = bool_decide (k ∈ key <$> sp_list s).
Proof.
  intros Hr. unfold Exist. pose proof (repr_lookup h c s k Hr) as Hlk.
  symmetry. destruct (cache c !! k) as [le|].
  - destruct Hlk as (e & Hf & Hk & _). apply bool_decide_eq_true. apply dec_stable.
    intros Hn. destruct (find_key_None _ _ Hn). congruence.
  - by apply bool_decide_eq_false.
Qed.

Lemma Compute_repr h c s now k f :
  repr h c s →
  ∃ h' c', Compute_ h c now k f =
    Ret ((sp_compute now k f s).1, h', c') ∧ repr h' c' (sp_compute now k f s).2.
Proof.
  intros Hr. unfold Compute_, sp_compute.
  destruct (get_repr h c s now k Hr) as (el & h1 & c1 & -> & Hp & Hr1). run.
  destruct (sp_get now k s) as [e s1]. simpl in Hp, Hr1.
  destruct el as [p|], e as [e|]; try done; simpl in Hp; rewrite ?Hp; run;
    destruct (f _ _) as [v del]; destruct del.
  - destruct (delete_repr h1 c1 s1 k Hr1) as (c2 & -> & Hr2). run. eauto.
  - destruct (set_repr h1 c1 s1 now k v Hr1) as (h2 & c2 & -> & Hr2). run. eauto.
  - run. eauto.
  - destruct (set_repr h1 c1 s1 now k v Hr1) as (h2 & c2 & -> & Hr2). run. eauto.
Qed.

Lemma RemoveByKeyPrefix_repr ks pre h c s order n :
  repr h c s →
  ∃ c', RemoveByKeyPrefix ks pre h c order n =
    Ret ((sp_removePrefix ks pre order s n).1, c') ∧
    repr h c' (sp_removePrefix ks pre order s n).2.
Proof.
  revert c s n. induction order as [|k order IH]; intros c s n Hr; simpl; [eauto|].
  pose proof (repr_lookup h c s k Hr) as Hlk.
  destruct (delete_repr h c s k Hr) as (c1 & Hd & Hr1).
  destruct (cache c !! k) as [le|].
  - destruct Hlk as (e & -> & _). destruct (ks k) as [str|]; [|by apply IH].
    destruct (String.prefix pre str); simpl; [|by apply IH].
    rewrite Hd. run. by apply IH.
  - destruct (find_key_None _ _ Hlk) as [-> _]. by apply IH.
Qed.

Lemma FilterByKeyPrefix_loop_repr ks pre h c s now order m :
  repr h c s →
  ∃ c', FilterByKeyPrefix_loop ks pre h c now order m =
    Ret ((sp_filterPrefix ks pre now order s m).1, c') ∧
    repr h c' (sp_filterPrefix ks pre now order s m).2.
Proof.
  revert c s m. induction order as [|k order IH]; intros c s m Hr; simpl; [eauto|].
  pose proof (repr_lookup h c s k Hr) as Hlk.
  pose proof Hr as ((-> & _ & _ & -> & _) & _).
  destruct (cache c !! k) as [le|].
  - destruct Hlk as (e & -> & _ & He & (c1 & Hd & Hr1) & _).
    destruct (ks k) as [str|]; [|by apply IH].
    destruct (String.prefix pre str); simpl; [|by apply IH].
    rewrite He. run. unfold sp_expires. destruct (_ && _ && _); [|by apply IH].
    rewrite Hd. run. by apply IH.
  - destruct (find_key_None _ _ Hlk) as [-> _]. by apply IH.
Qed.

Lemma exec1_repr h c s now o :
  repr h c s →
  ∃ h' c', exec1 h c now o = Ret ((spec1 s now o).1, h', c') ∧
    repr h' c' (spec1 s now o).2.
Proof.
  intros Hr. destruct o as [k|k v|k|k|k v|k v exp|k| |k f|n|ks p order|ks p order];
    unfold exec1, spec1.
  - unfold Get. destruct (get_repr h c s now k Hr) as (el & h1 & c1 & -> & Hp & Hr1).
    run. destruct (sp_get now k s) as [[e|] s1], el; try done; simpl in Hp;
      rewrite ?Hp; run; eauto.
  - unfold GetOrStore. destruct (get_repr h c s now k Hr) as (el & h1 & c1 & -> & Hp & Hr1).
    run. destruct (sp_get now k s) as [[e|] s1], el; try done; simpl in Hp, Hr1;
      rewrite ?Hp; run; [by eauto|].
    destruct (set_repr h1 c1 s1 now k v Hr1) as (h2 & c2 & -> & Hr2). run. eauto.
  - unfold GetWithExpire.
    destruct (get_repr h c s now k Hr) as (el & h1 & c1 & -> & Hp & Hr1).
    run. destruct (sp_get now k s) as [[e|] s1], el; try done; simpl in Hp;
      rewrite ?Hp; run; eauto.
  - rewrite (Exist_repr h c s k Hr). eauto.
  - unfold Set_. destruct (set_repr h c s now k v Hr) as (h2 & c2 & -> & Hr2). run. eauto.
  - unfold SetWithExpire.
    destruct (setWithExpire_repr h c s now k v exp Hr) as (h2 & c2 & -> & Hr2). run. eauto.
  - unfold Delete_. destruct (delete_repr h c s k Hr) as (c2 & -> & Hr2). run. eauto.
  - do 2 eexists. split; [done|]. by apply Clear_repr.
  - destruct (Compute_repr h c s now k f Hr) as (h2 & c2 & -> & Hr2).
    destruct (sp_compute now k f s) as [[v ok] s2]. run. eauto.
  - destruct (SetMaxSize_repr h c s n Hr) as (c2 & -> & Hr2). run. eauto.
  - destruct (RemoveByKeyPrefix_repr ks p h c s order 0 Hr) as (c2 & -> & Hr2). run.
    destruct (sp_removePrefix ks p order s 0) as [n s2]. eauto.
  - unfold FilterByKeyPrefix.
    destruct (FilterByKeyPrefix_loop_repr ks p h c s now order ∅ Hr) as (c2 & -> & Hr2). run.
    destruct (sp_filterPrefix ks p now order s ∅) as [m s2]. simpl in Hr2.
    destruct (maybeDeleteOldest_repr h c2 s2 now Hr2) as (c3 & -> & Hr3). run. eauto.
Qed.

Lemma exec_repr h c s ops :
  repr h c s →
  ∃ h' c', exec h c ops = Ret ((spec_exec s ops).1, h', c') ∧
    repr h' c' (spec_exec s ops).2.
Proof.
  revert h c s. induction ops as [|[now o] ops IH]; intros h c s Hr; simpl; [eauto|].
  destruct (exec1_repr h c s now o Hr) as (h1 & c1 & -> & Hr1). run.
  destruct (spec1 s now o) as [r s1]. simpl in Hr1.
  destruct (IH h1 c1 s1 Hr1) as (h2 & c2 & -> & Hr2). run.
  destruct (spec_exec s1 ops) as [rs s2]. eauto.
Qed.

Lemma New_repr os : repr ∅ (New (option_of <$> os)) (sp_new os).
Proof.
  unfold New, sp_new.
  assert (repr ∅ (Clear (mkLruCache 0 0 ∅ list_New false false false []))
            (mkSpec 0 0 false false false [] [])) as Hr.
  { split; [done|]. exists []. split; [|done].
    split; simpl; [apply view_New|constructor|constructor|constructor|done]. }
  revert Hr. generalize (Clear (mkLruCache 0 0 ∅ list_New false false false [])).
  generalize (mkSpec 0 0 false false false [] []).
  induction os as [|o os IH]; intros s c Hr; simpl; [done|].
  apply IH. destruct Hr as ((? & ? & ? & ? & ? & ?) & ps & [] & Hs), s.
  destruct o; (split; [done|exists ps; done]).
Qed.

(** C2: Whatever calls other than [CloneTo] a cache made by [New] receives, in any
    order and at any times, it answers as one list of entries kept in order of use
    would: same values, same hits and misses, same evictions reported in the same
    order; no call panics and every loop ends.  [GetWithExpire] is a read like [Get],
    which drops an expired entry and refreshes another one: this is what the code
    does, against its comment ([get_with_expire_checks_age]). *)
Theorem lru_refines_spec os ops :
  ∃ h c, exec ∅ (New (option_of <$> os)) ops = Ret ((spec_exec (sp_new os) ops).1, h, c) ∧
    repr h c (spec_exec (sp_new os) ops).2 ∧
    evicted c = sp_log (spec_exec (sp_new os) ops).2.
Proof.
  destruct (exec_repr ∅ _ _ ops (New_repr os)) as (h & c & He & Hr).
  exists h, c. split; [done|]. split; [done|]. apply Hr.
Qed.

(** ** The size limit *)

Definition bounded (s : Spec) : Prop := 0 < sp_size s → len (sp_list s) ≤ sp_size s.

Lemma sp_trim_bounded now s l :
  sp_size (sp_trim now s l) = sp_size s ∧ (length (sp_list (sp_trim now s l)) ≤ length l)%nat.
Proof.
  revert s. induction l as [|e l IH]; intros s; simpl; [lia|].
  destruct (expires e <=? now); simpl; [|lia].
  destruct (IH (sp_evict s e l)) as [-> ?]. simpl. lia.
Qed.

Lemma sp_expire_bounded now s : bounded s → bounded (sp_expire now s).
Proof.
  unfold bounded, sp_expire. destruct (sp_expires s); [|done]. intros Hb.
  destruct (sp_trim_bounded now s (sp_list s)) as [-> ?]. lia.
Qed.

Lemma length_remove_key k l :
  length (remove_key k l) =
    (length l - match find_key k l with Some _ => 1 | None => 0 end)%nat.
Proof.
  induction l as [|e l IH]; simpl; [done|]. destruct (decide (key e = k)); simpl; [lia|].
  rewrite IH. destruct (find_key k l) eqn:E; [|lia]. destruct l; [done|]. simpl. lia.
Qed.

Lemma find_key_length k l e : find_key k l = Some e → (0 < length l)%nat.
Proof. destruct l; simpl; [done|lia]. Qed.

Lemma sp_delete_bounded k s : bounded s → bounded (sp_delete k s).
Proof.
  unfold bounded, sp_delete. destruct (find_key k (sp_list s)) eqn:E; simpl; [|done].
  rewrite length_remove_key, E. lia.
Qed.

Lemma sp_get_bounded now k s : bounded s → bounded (sp_get now k s).2.
Proof.
  intros Hb. unfold sp_get. destruct (find_key k (sp_list s)) as [e|] eqn:E; [|done].
  destruct (_ && _); simpl; [by apply sp_expire_bounded, sp_delete_bounded|].
  unfold bounded in *. simpl. rewrite length_app, length_remove_key, E. simpl.
  apply find_key_length in E. lia.
Qed.

Lemma sp_setExpire_bounded now k v exp s : bounded s → bounded (sp_setExpire now k v exp s).
Proof.
  intros Hb. unfold sp_setExpire. apply sp_expire_bounded. unfold bounded in *.
  pose proof (length_remove_key k (sp_list s)) as Hlen.
  destruct (find_key k (sp_list s)) as [e|] eqn:E.
  - simpl. rewrite length_app. simpl. apply find_key_length in E. lia.
  - destruct (remove_key k (sp_list s) ++ [mkEntry k v exp]) as [|e l] eqn:El.
    { by destruct (remove_key k (sp_list s)). }
    apply (f_equal length) in El. rewrite length_app in El. simpl in El.
    destruct (Z.ltb_spec 0 (sp_size s)), (Z.ltb_spec (sp_size s) (len (e :: l)));
      simpl in *; lia.
Qed.

Lemma sp_set_bounded now k v s : bounded s → bounded (sp_set now k v s).
Proof. apply sp_setExpire_bounded. Qed.

Lemma sp_shrink_bounded n s l :
  0 < n → sp_size (sp_shrink n s l) = sp_size s ∧ len (sp_list (sp_shrink n s l)) ≤ n.
Proof.
  intros Hn. revert s. induction l as [|e l IH]; intros s; [simpl; lia|].
  cbn [sp_shrink]. destruct (Z.ltb_spec n (len (e :: l))); [|simpl in *; lia].
  by destruct (IH (sp_evict s e l)) as [-> ?].
Qed.

Lemma sp_removePrefix_bounded ks p order s n :
  bounded s → bounded (sp_removePrefix ks p order s n).2.
Proof.
  revert s n. induction order as [|k order IH]; intros s n Hb; simpl; [done|].
  destruct (find_key _ _), (ks k); try (by apply IH).
  destruct (String.prefix _ _); [|by apply IH]. by apply IH, sp_delete_bounded.
Qed.

Lemma sp_filterPrefix_bounded ks p now order s m :
  bounded s → bounded (sp_filterPrefix ks p now order s m).2.
Proof.
  revert s m. induction order as [|k order IH]; intros s m Hb; simpl; [done|].
  destruct (find_key _ _), (ks k); try (by apply IH).
  destruct (String.prefix _ _); simpl; [|by apply IH].
  destruct (_ && _); [|by apply IH]. by apply IH, sp_delete_bounded.
Qed.

Lemma spec1_bounded s now o : bounded s → bounded (spec1 s now o).2.
Proof.
  intros Hb. pose proof (λ k, sp_get_bounded now k s Hb) as Hg.
  destruct o as [k|k v|k|k|k v|k v exp|k| |k f|n|ks p order|ks p order]; unfold spec1.
  - specialize (Hg k). by destruct (sp_get now k s) as [[e|] s1].
  - specialize (Hg k). destruct (sp_get now k s) as [[e|] s1]; [done|].
    by apply sp_set_bounded.
  - specialize (Hg k). by destruct (sp_get now k s) as [[e|] s1].
  - done.
  - by apply sp_set_bounded.
  - by apply sp_setExpire_bounded.
  - by apply sp_delete_bounded.
  - unfold bounded. simpl. lia.
  - specialize (Hg k). unfold sp_compute. destruct (sp_get now k s) as [[e|] s1];
      destruct (f _ _) as [v []]; simpl;
      eauto using sp_delete_bounded, sp_set_bounded.
  - unfold sp_setMaxSize. destruct (Z.leb_spec n 0); unfold bounded; [simpl; lia|].
    intros _. set (s' := mkSpec _ _ _ _ _ _ _).
    destruct (sp_shrink_bounded n s' (sp_list s)) as [Hs Hl]; [done|].
    simpl in *. rewrite Hs. done.
  - pose proof (sp_removePrefix_bounded ks p order s 0 Hb).
    by destruct (sp_removePrefix ks p order s 0).
  - pose proof (sp_filterPrefix_bounded ks p now order s ∅ Hb).
    destruct (sp_filterPrefix ks p now order s ∅). by apply sp_expire_bounded.
Qed.

Lemma spec_exec_bounded s ops : bounded s → bounded (spec_exec s ops).2.
Proof.
  revert s. induction ops as [|[now o] ops IH]; intros s Hb; simpl; [done|].
  pose proof (spec1_bounded s now o Hb) as Hb1. destruct (spec1 s now o) as [r s1].
  specialize (IH s1 Hb1). by destruct (spec_exec s1 ops).
Qed.

Lemma sp_new_nil os : sp_list (sp_new os) = [].
Proof.
  unfold sp_new. set (s := mkSpec _ _ _ _ _ _ _).
  assert (sp_list s = []) as Hs by done. revert Hs. generalize s.
  induction os as [|o os IH]; intros s' Hs; simpl; [done|].
  apply IH. by destruct s', o.
Qed.

Lemma linked_size h c ps : linked h c ps → size (cache c) = length ps.
Proof.
  intros [_ _ _ Hk ->]. rewrite map_size_list_to_map, length_fmap; [done|].
  by rewrite <- list_fmap_compose.
Qed.

(** After any history the map and the list hold the same number of entries,
    and a cache with a positive [maxSize] never holds more than that. *)
Theorem lru_size_bound os ops :
  ∃ rs h c, exec ∅ (New (option_of <$> os)) ops = Ret (rs, h, c) ∧
    Z.of_nat (size (cache c)) = list_Len (lru c) ∧
    (0 < maxSize c → list_Len (lru c) ≤ maxSize c).
Proof.
  destruct (exec_repr ∅ _ _ ops (New_repr os)) as (h & c & He & Hr).
  exists (spec_exec (sp_new os) ops).1, h, c. split; [done|].
  rewrite (repr_view _ _ _ Hr). pose proof Hr as ((_ & -> & _) & ps & Hl & Hs).
  split; [by rewrite (linked_size _ _ _ Hl), Hs, length_fmap|].
  apply spec_exec_bounded. intros Hn. rewrite sp_new_nil. simpl. lia.
Qed.

(** ** What was stored is found *)

Lemma sp_trim_keeps now s l e l2 :
  now < expires e → ∃ l1, sp_list (sp_trim now s (l ++ e :: l2)) = l1 ++ e :: l2 ∧
    ∃ l0, l = l0 ++ l1.
Proof.
  intros He. revert s. induction l as [|x l IH]; intros s; simpl.
  - destruct (Z.leb_spec (expires e) now); [lia|]. exists []. split; [done|]. by exists [].
  - destruct (expires x <=? now).
    + destruct (IH (sp_evict s x (l ++ e :: l2))) as (l1 & -> & l0 & ->).
      exists l1. split; [done|]. by exists (x :: l0).
    + exists (x :: l). split; [done|]. by exists [].
Qed.

Lemma sp_trim_fields now s l :
  sp_age (sp_trim now s l) = sp_age s ∧ sp_stale (sp_trim now s l) = sp_stale s.
Proof.
  revert s. induction l as [|e l IH]; intros s; simpl; [done|].
  destruct (expires e <=? now); [|done]. by destruct (IH (sp_evict s e l)) as [-> ->].
Qed.

(** The states a history leads to. *)
Definition reachable (h : heap) (c : LruCache) : Prop :=
  ∃ os ops rs, exec ∅ (New (option_of <$> os)) ops = Ret (rs, h, c).

Lemma reachable_repr h c : reachable h c → ∃ s, repr h c s.
Proof.
  intros (os & ops & rs & He).
  destruct (exec_repr ∅ _ _ ops (New_repr os)) as (h' & c' & He' & Hr).
  rewrite He in He'. simplify_eq. eauto.
Qed.

Lemma sp_setExpire_last now k v exp s :
  (sp_expires s = true → now < exp) →
  ∃ l, sp_list (sp_setExpire now k v exp s) = l ++ [mkEntry k v exp].
Proof.
  intros He. unfold sp_setExpire. set (e := mkEntry k v exp).
  set (r := remove_key k (sp_list s)).
  assert (∃ s' l, (match find_key k (sp_list s), r ++ [e] with
     | None, x :: l' => if (0 <? sp_size s) && (sp_size s <? len (r ++ [e]))
                        then sp_evict s x l' else sp_with s (sp_log s) (r ++ [e])
     | _, _ => sp_with s (sp_log s) (r ++ [e]) end) = s' ∧ sp_expires s' = sp_expires s ∧
     sp_list s' = l ++ [e]) as (s' & l & -> & Hx & Hl).
  { destruct (find_key k (sp_list s)); [by do 2 eexists|].
    destruct r as [|x r'].
    - exists (sp_with s (sp_log s) [e]), []. split; [|done]. cbn [app].
      destruct (Z.ltb_spec 0 (sp_size s)), (Z.ltb_spec (sp_size s) (len [e]));
        simpl in *; first [lia|done].
    - destruct (_ && _); [by eexists _, r'|by eexists _, (x :: r')]. }
  unfold sp_expire. rewrite Hx. destruct (sp_expires s); [|by eexists].
  rewrite Hl. destruct (sp_trim_keeps now s' l e []) as (l1 & -> & _); [by apply He|].
  by exists l1.
Qed.

Lemma repr_keys h c s : repr h c s → NoDup (key <$> sp_list s).
Proof. intros (_ & ps & Hl & ->). rewrite <- list_fmap_compose. apply Hl. Qed.

Lemma sp_setExpire_fields now k v exp s :
  sp_expires (sp_setExpire now k v exp s) = sp_expires s.
Proof.
  unfold sp_setExpire, sp_expire. set (s' := match _ with Some _ => _ | None => _ end).
  assert (sp_age s' = sp_age s ∧ sp_stale s' = sp_stale s) as [Ha Hs].
  { unfold s'. destruct (find_key _ _), (_ ++ _); try done. by destruct (_ && _). }
  destruct (sp_expires s'); unfold sp_expires; [|by rewrite Ha, Hs].
  destruct (sp_trim_fields now s' (sp_list s')) as [-> ->]. by rewrite Ha, Hs.
Qed.

(** In every reachable state, a value that is stored is found under its key
    until its age is over, whatever the size limit evicts. *)
Theorem lru_set_get h c now now' k v :
  reachable h c →
  (staleReturn c = false → 0 < maxAge c →
     now < i64 (now + maxAge c) ∧ now' < i64 (now + maxAge c)) →
  ∃ h1 c1 h2 c2, Set_ h c now k v = Ret (h1, c1) ∧
    Get h1 c1 now' k = Ret (v, true, h2, c2).
Proof.
  intros [s Hr]%reachable_repr Ht. unfold Set_, set, Get.
  pose proof Hr as ((Hage & _ & _ & Hst & _) & _). rewrite Hage, Hst in Ht. rewrite Hage.
  set (exp := if 0 <? sp_age s then i64 (now + sp_age s) else 0).
  assert (sp_expires s = true → now < exp ∧ now' < exp) as He.
  { unfold sp_expires, exp. destruct (sp_stale s), (Z.ltb_spec 0 (sp_age s)); try done.
    intros _. by apply Ht. }
  destruct (setWithExpire_repr h c s now k v exp Hr) as (h1 & c1 & -> & Hr1).
  destruct (sp_setExpire_last now k v exp s) as [l Hl]; [by intros []%He|].
  exists h1, c1. set (s1 := sp_setExpire now k v exp s) in *.
  destruct (get_repr h1 c1 s1 now' k Hr1) as (el & h2 & c2 & -> & Hp & _). run.
  assert (sp_expires s1 = sp_expires s) as Hx by (by apply sp_setExpire_fields).
  pose proof (repr_keys _ _ _ Hr1) as Hnd. rewrite Hl in Hnd.
  destruct (find_split l (mkEntry k v exp) [] Hnd) as [Hf _].
  cbn [key] in Hf.
  unfold sp_get in Hp. rewrite Hl, Hx, Hf in Hp. cbn [expires value key] in Hp.
  destruct (sp_expires s && (exp <=? now')) eqn:E.
  { apply andb_true_iff in E as [E1 E2%Z.leb_le]. destruct (He E1). lia. }
  destruct el as [p|]; [|done]. exists h2, c2. split; [done|].
  simpl in Hp. rewrite Hp. run. by destruct (_ && sp_touch s1).
Qed.

(** ** Removal by prefix *)

(** The keys [RemoveByKeyPrefix] is meant to remove. *)
Definition matches (keyString : K → option string) (prefix : string) (k : K) : bool :=
  match keyString k with
  | Some str => String.prefix prefix str
  | None => false
  end.

Lemma remove_key_filter k l :
  NoDup (key <$> l) → remove_key k l = filter (λ e, key e ≠ k) l.
Proof.
  induction l as [|e l IH]; csimpl; [done|]. intros [Hn Hd]%NoDup_cons.
  rewrite filter_cons. destruct (decide (key e = k)) as [<-|].
  - rewrite decide_False by naive_solver. symmetry. apply filter_all.
    apply Forall_forall. intros x Hx Heq. apply Hn. rewrite <- Heq.
    by apply list_elem_of_fmap_2.
  - rewrite decide_True by done. by rewrite IH.
Qed.

Lemma sp_delete_list k s :
  NoDup (key <$> sp_list s) → sp_list (sp_delete k s) = filter (λ e, key e ≠ k) (sp_list s).
Proof.
  intros Hd. rewrite <- remove_key_filter by done. unfold sp_delete.
  destruct (find_key k (sp_list s)) eqn:E; [done|].
  destruct (decide (k ∈ key <$> sp_list s)) as [Hin|Hn].
  - apply list_elem_of_fmap in Hin as (e & -> & Hin).
    apply list_elem_of_split in Hin as (l1 & l2 & Hl). rewrite Hl in *.
    destruct (find_split l1 e l2 Hd). congruence.
  - by destruct (find_key_None _ _ Hn) as [_ ->].
Qed.

Lemma find_key_Some k l e : find_key k l = Some e → key e = k ∧ e ∈ l.
Proof.
  induction l as [|x l IH]; simpl; [done|]. destruct (decide (key x = k)).
  - intros. simplify_eq. split; [done|left].
  - intros []%IH. split; [done|by right].
Qed.

Lemma sp_delete_absent k s : find_key k (sp_list s) = None → sp_delete k s = s.
Proof. intros Hf. unfold sp_delete. by rewrite Hf. Qed.

Lemma sp_removePrefix_cons ks p k order s n :
  sp_removePrefix ks p (k :: order) s n =
    let s' := if matches ks p k then sp_delete k s else s in
    sp_removePrefix ks p order s' (n + (len (sp_list s) - len (sp_list s'))).
Proof.
  simpl. unfold matches. destruct (find_key k (sp_list s)) as [e|] eqn:Hf.
  - destruct (ks k) as [str|]; [|by rewrite Z.sub_diag, Z.add_0_r].
    destruct (String.prefix p str); [|by rewrite Z.sub_diag, Z.add_0_r].
    f_equal. unfold sp_delete. rewrite Hf. simpl. rewrite length_remove_key, Hf.
    apply find_key_length in Hf. lia.
  - rewrite (sp_delete_absent k s Hf). destruct (ks k) as [str|];
      [destruct (String.prefix p str)|]; by rewrite Z.sub_diag, Z.add_0_r.
Qed.

Lemma sp_removePrefix_list ks p order s n :
  NoDup (key <$> sp_list s) →
  let s' := (sp_removePrefix ks p order s n).2 in
  sp_list s' =
    filter (λ e, ¬ (key e ∈ order ∧ matches ks p (key e) = true)) (sp_list s) ∧
  (sp_removePrefix ks p order s n).1 = n + (len (sp_list s) - len (sp_list s')).
Proof.
  revert s n. induction order as [|k order IH]; intros s n Hd.
  - simpl. split; [|lia]. symmetry. apply filter_all, Forall_forall. set_solver.
  - rewrite sp_removePrefix_cons. cbv zeta. set (s1 := if matches ks p k then sp_delete k s else s).
    assert (sp_list s1 = filter (λ e, ¬ (key e = k ∧ matches ks p (key e) = true))
              (sp_list s)) as H1.
    { unfold s1. destruct (matches ks p k) eqn:Hm.
      - rewrite sp_delete_list by done. apply list_filter_iff. naive_solver congruence.
      - symmetry. apply filter_all, Forall_forall. naive_solver congruence. }
    assert (NoDup (key <$> sp_list s1)) as Hd1.
    { rewrite H1. by apply NoDup_fmap_filter. }
    destruct (IH s1 (n + (len (sp_list s) - len (sp_list s1))) Hd1) as [-> ->].
    rewrite H1, list_filter_filter. split; [|lia].
    apply list_filter_iff. intros e. rewrite elem_of_cons. naive_solver.
Qed.

(** The entries of a cache, from the least to the most recently used. *)
Definition contents (h : heap) (c : LruCache) : list entry :=
  omap (λ el, h !! Value el) (view (lru c)).

Lemma linked_contents h c ps : linked h c ps → contents h c = ps.*2.
Proof.
  intros [Hv Hh _ _ _]. unfold contents. rewrite Hv. clear Hv.
  induction Hh as [|p ps Hp _ IH]; [done|]. csimpl. by rewrite Hp, IH.
Qed.

Lemma repr_contents h c s : repr h c s → contents h c = sp_list s.
Proof. intros (_ & ps & Hl & ->). by eapply linked_contents. Qed.

Lemma linked_dom h c ps e :
  linked h c ps → e ∈ ps.*2 → is_Some (cache c !! key e).
Proof.
  intros [_ _ _ Hk ->] (p & -> & Hp)%list_elem_of_fmap. exists p.1.
  apply elem_of_list_to_map_1; [by rewrite <- list_fmap_compose|].
  apply list_elem_of_fmap. by exists p.
Qed.

(** In every reachable state, removing a prefix removes the entries whose key
    is a string with that prefix and no others, keeps the order of the rest, and
    returns how many went, in whatever order the map is traversed. *)
Theorem lru_remove_prefix h c ks p order :
  reachable h c → order ≡ₚ (map_to_list (cache c)).*1 →
  ∃ c', RemoveByKeyPrefix ks p h c order 0 =
          Ret (len (contents h c) - len (contents h c'), c') ∧
    contents h c' = filter (λ e, matches ks p (key e) = false) (contents h c).
Proof.
  intros [s Hr]%reachable_repr Ho.
  destruct (RemoveByKeyPrefix_repr ks p h c s order 0 Hr) as (c' & He & Hr').
  destruct (sp_removePrefix_list ks p order s 0 (repr_keys _ _ _ Hr)) as [Hl Hn].
  exists c'. rewrite He, Hn, (repr_contents _ _ _ Hr), (repr_contents _ _ _ Hr').
  split; [done|]. rewrite Hl. clear -Ho Hr.
  destruct Hr as (_ & ps & Hln & ->). apply filter_ext_elem. intros e Hin.
  assert (key e ∈ order) as Hk.
  { rewrite Ho. destruct (linked_dom _ _ _ _ Hln Hin) as [le Hle].
    apply list_elem_of_fmap. exists (key e, le). split; [done|]. by apply elem_of_map_to_list. }
  destruct (matches ks p (key e)); naive_solver.
Qed.

(** ** Clones *)

Lemma CloneTo_loop_linked h es n ps qs :
  Forall2 (λ el p, Value el = Value p.1) es ps →
  linked h n qs → NoDup ((λ p, Value p.1) <$> qs ++ ps) →
  NoDup ((λ p, key p.2) <$> qs ++ ps) → Forall (λ p, h !! Value p.1 = Some p.2) ps →
  ∃ n' qs', CloneTo_loop h es n = Ret n' ∧ linked h n' (qs ++ qs') ∧
    qs'.*2 = ps.*2 ∧ (λ p, Value p.1) <$> qs' = (λ p, Value p.1) <$> ps.
Proof.
  intros H2. revert n qs. induction H2 as [|el p es ps He H2 IH]; intros n qs Hl Hp Hk Hh.
  - exists n, []. by rewrite app_nil_r.
  - apply Forall_cons in Hh as [Hhp Hh]. simpl. unfold deref. rewrite He, Hhp. run.
    pose proof (view_PushBack (lru n) (Value p.1)) as Hvp.
    pose proof (Value_PushBack (lru n) (Value p.1)) as Hval.
    destruct (PushBack (lru n) (Value p.1)) as [le l]. cbn [fst snd] in *.
    rewrite fmap_app, fmap_cons in Hp. rewrite fmap_app, fmap_cons in Hk.
    destruct (IH (set_cache (set_lru n l) (<[key p.2 := le]> (cache n)))
                (qs ++ [(le, p.2)])) as (n' & qs' & Hc & Hl' & Hv & Hq); [|..|done|].
    + destruct Hl as [Lv Lh Lp Lk Lm]. split; simpl.
      * by rewrite Hvp, Lv, fmap_app.
      * apply Forall_app. split; [done|]. apply Forall_singleton. simpl. by rewrite Hval.
      * rewrite fmap_app. simpl. rewrite Hval. rewrite cons_middle, app_assoc in Hp.
        by apply NoDup_app in Hp as [? _].
      * rewrite fmap_app. rewrite cons_middle, app_assoc in Hk.
        by apply NoDup_app in Hk as [? _].
      * rewrite fmap_app, Lm. simpl. rewrite list_to_map_snoc; [done|].
        rewrite <- list_fmap_compose. apply NoDup_app in Hk as (_ & Hd & _).
        intros Hin. apply (Hd (key p.2) Hin). left.
    + rewrite <- app_assoc, fmap_app, fmap_app. simpl. rewrite Hval. done.
    + by rewrite <- app_assoc, fmap_app, fmap_app.
    + exists n', ((le, p.2) :: qs'). rewrite <- app_assoc in Hl'. split_and!; [done..| |].
      * csimpl. by rewrite Hv.
      * csimpl. by rewrite Hq, Hval.
Qed.

Lemma CloneTo_linked h c n ps :
  linked h c ps →
  ∃ n' qs, CloneTo h c n = Ret n' ∧ linked h n' qs ∧ qs.*2 = ps.*2 ∧
    (λ p, Value p.1) <$> qs = (λ p, Value p.1) <$> ps.
Proof.
  intros [Hv Hh Hp Hk Hm]. unfold CloneTo. rewrite Hv.
  apply (CloneTo_loop_linked h ps.*1 (Clear n) ps []); [|..|done|done|done].
  - apply Forall2_fmap_l. by apply Forall_Forall2_diag, Forall_true.
  - split; simpl; [apply view_New|constructor|constructor|constructor|done].
Qed.

Lemma linked_repr h c ps :
  linked h c ps →
  repr h c (mkSpec (maxAge c) (maxSize c) (updateAgeOnGet c) (staleReturn c)
              (onEvict c) (evicted c) ps.*2).
Proof. intros Hl. split; [done|]. by exists ps. Qed.

(** Writing through an element that shares its pointer with an element of [c]. *)
Lemma linked_shared h c ps q1 le e q2 e' :
  linked h c ps → key e' = key e →
  (q1 ++ (le, e) :: q2).*2 = ps.*2 →
  (λ p, Value p.1) <$> (q1 ++ (le, e) :: q2) = (λ p, Value p.1) <$> ps →
  find_key (key e) (contents (<[Value le := e']> h) c) = Some e'.
Proof.
  intros Hl Hk H2 Hv.
  assert (∃ p1 el p2, ps = p1 ++ (el, e) :: p2 ∧ Value el = Value le)
    as (p1 & el & p2 & -> & Hel).
  { clear -H2 Hv. revert ps H2 Hv. induction q1 as [|x q1 IH]; intros [|[el y] ps]; csimpl;
      try done; intros H2 Hv; simplify_eq.
    - by exists [], el, ps.
    - destruct (IH ps) as (p1 & el' & p2 & -> & ?); [done..|].
      by exists ((el, x.2) :: p1), el', p2. }
  pose proof (linked_update _ _ _ _ _ _ e' Hl Hk) as Hl'. rewrite Hel in Hl'.
  rewrite (linked_contents _ _ _ Hl'), <- Hk. eapply keys_split, Hl'.
Qed.

(** [CloneTo] gives the target exactly the entries of the source, in the same
    order; the entries are the same objects, so that a later [Set] of a key in the
    clone is also a change of the source. *)
Theorem lru_clone_shares h c n :
  reachable h c →
  ∃ n', CloneTo h c n = Ret n' ∧ contents h n' = contents h c ∧
    ∀ k now v, k ∈ key <$> contents h c →
      ∃ h2 n2 e, Set_ h n' now k v = Ret (h2, n2) ∧
        find_key k (contents h2 c) = Some e ∧ value e = v.
Proof.
  intros [s (_ & ps & Hl & Hs)]%reachable_repr.
  destruct (CloneTo_linked h c n ps Hl) as (n' & qs & -> & Hq & H2 & Hv).
  exists n'. split; [done|].
  rewrite (linked_contents _ _ _ Hl), (linked_contents _ _ _ Hq). split; [done|].
  intros k now v (e & -> & He)%list_elem_of_fmap. rewrite <- H2 in He.
  destruct (linked_dom _ _ _ _ Hq He) as [le Hle].
  destruct (linked_lookup _ _ _ _ _ Hq Hle) as (q1 & e1 & q2 & -> & Hk1).
  unfold Set_, set, setWithExpire. rewrite Hle, (linked_deref _ _ _ _ _ _ Hq). run.
  set (e' := mkEntry _ _ _).
  pose proof (linked_touch _ _ _ _ _ _ e' Hq eq_refl) as Hl2.
  destruct (maybeDeleteOldest_repr _ _ _ now (linked_repr _ _ _ Hl2)) as (c2 & -> & _).
  run. eexists _, c2, e'. split; [done|]. rewrite <- Hk1. split; [|done].
  by eapply linked_shared.
Qed.

(** ** What the calls on one key leave of the others *)

Abbreviation values s := (value <$> sp_list s).

Lemma sp_trim_suffix now s l :
  ∃ l1, l = l1 ++ sp_list (sp_trim now s l) ∧ Forall (λ e, expires e ≤ now) l1.
Proof.
  revert s. induction l as [|e l IH]; intros s; simpl; [by exists []|].
  destruct (Z.leb_spec (expires e) now).
  - destruct (IH (sp_evict s e l)) as (l1 & Hl & Hf). exists (e :: l1).
    split; [simpl; by rewrite <- Hl|by constructor].
  - by exists [].
Qed.

Lemma find_key_app k l1 l2 :
  find_key k (l1 ++ l2) =
    match find_key k l1 with Some e => Some e | None => find_key k l2 end.
Proof. induction l1 as [|e l1 IH]; simpl; [done|]. by destruct (decide _). Qed.

Lemma find_key_remove_ne k k' l : k ≠ k' → find_key k' (remove_key k l) = find_key k' l.
Proof.
  intros Hne. induction l as [|e l IH]; simpl; [done|]. destruct (decide (key e = k)).
  - rewrite decide_False by congruence. done.
  - simpl. by rewrite IH.
Qed.

Lemma remove_key_submseteq k l : remove_key k l ⊆+ l.
Proof.
  induction l as [|e l IH]; simpl; [done|].
  destruct (decide _); [by apply submseteq_cons|by apply submseteq_skip].
Qed.

Lemma remove_key_perm k l e : find_key k l = Some e → e :: remove_key k l ≡ₚ l.
Proof.
  induction l as [|x l IH]; simpl; [done|]. destruct (decide _); intros Hf.
  - by simplify_eq.
  - by rewrite <- (IH Hf) at 2; rewrite Permutation_swap.
Qed.

(** An entry that is not expired stays, and nothing appears. *)
Lemma sp_expire_find now s k :
  (∀ e, find_key k (sp_list s) = Some e → now < expires e →
     find_key k (sp_list (sp_expire now s)) = Some e) ∧
  (NoDup (key <$> sp_list s) → find_key k (sp_list s) = None →
     find_key k (sp_list (sp_expire now s)) = None).
Proof.
  unfold sp_expire. destruct (sp_expires s); [|by split; intros].
  destruct (sp_trim_suffix now s (sp_list s)) as (l1 & Hl & Hf).
  revert Hl. generalize (sp_list (sp_trim now s (sp_list s))) as l'. intros l' ->.
  rewrite find_key_app.
  destruct (find_key k l1) as [e1|] eqn:H1; [|by split; intros].
  split; [|by intros]. intros e [= ->] He. apply find_key_Some in H1 as [_ Hin].
  rewrite Forall_forall in Hf. specialize (Hf e Hin). lia.
Qed.

Lemma sp_expire_submseteq now s : sp_list (sp_expire now s) ⊆+ sp_list s.
Proof.
  unfold sp_expire. destruct (sp_expires s); [|done].
  destruct (sp_trim_suffix now s (sp_list s)) as (l1 & Hl & _).
  revert Hl. generalize (sp_list (sp_trim now s (sp_list s))) as l'. intros l' ->.
  by apply submseteq_inserts_l.
Qed.

(** The configuration, which only the options and [SetMaxSize] change. *)
Definition sp_cfg (s : Spec) : Z * Z * bool * bool * bool :=
  (sp_age s, sp_size s, sp_touch s, sp_stale s, sp_cb s).

Lemma sp_trim_cfg now s l : sp_cfg (sp_trim now s l) = sp_cfg s.
Proof.
  revert s. induction l as [|e l IH]; intros s; simpl; [done|].
  destruct (_ <=? _); [|done]. by rewrite IH.
Qed.

Lemma sp_expire_cfg now s : sp_cfg (sp_expire now s) = sp_cfg s.
Proof. unfold sp_expire. destruct (sp_expires s); [apply sp_trim_cfg|done]. Qed.

Lemma sp_delete_cfg k s : sp_cfg (sp_delete k s) = sp_cfg s.
Proof. unfold sp_delete. by destruct (find_key _ _). Qed.

Lemma sp_get_cfg now k s : sp_cfg (sp_get now k s).2 = sp_cfg s.
Proof.
  unfold sp_get. destruct (find_key _ _); [|done]. destruct (_ && _); [|done].
  simpl. by rewrite sp_expire_cfg, sp_delete_cfg.
Qed.

Lemma sp_setExpire_cfg now k v exp s : sp_cfg (sp_setExpire now k v exp s) = sp_cfg s.
Proof.
  unfold sp_setExpire. rewrite sp_expire_cfg.
  destruct (find_key _ _), (_ ++ _); try done. by destruct (_ && _).
Qed.

(** [GetOrStore] on the specification. *)
(** An entry of a cache without an age stays, with the expiry it was given. *)
Lemma SetWithExpire_get h c now now' k v exp :
  reachable h c → maxAge c = 0 →
  ∃ h1 c1 h2 c2, SetWithExpire h c now k v exp = Ret (h1, c1) ∧
    GetWithExpire h1 c1 now' k = Ret (v, exp, true, h2, c2).
Proof.
  intros [s Hr]%reachable_repr Hage0. pose proof Hr as ((Hage & _) & _). rewrite Hage0 in Hage.
  assert (sp_expires s = false) as He by (unfold sp_expires; by rewrite <- Hage, andb_false_r).
  unfold SetWithExpire, GetWithExpire.
  destruct (setWithExpire_repr h c s now k v exp Hr) as (h1 & c1 & -> & Hr1).
  destruct (sp_setExpire_last now k v exp s) as [l Hl]; [by rewrite He|].
  exists h1, c1. set (s1 := sp_setExpire now k v exp s) in *.
  assert (sp_cfg s1 = sp_cfg s) as Hcfg by apply sp_setExpire_cfg.
  assert (sp_age s1 = 0) as Hage1 by (unfold sp_cfg in Hcfg; congruence).
  destruct (get_repr h1 c1 s1 now' k Hr1) as (el & h2 & c2 & -> & Hp & _). run.
  pose proof (repr_keys _ _ _ Hr1) as Hnd. rewrite Hl in Hnd.
  destruct (find_split l (mkEntry k v exp) [] Hnd) as [Hf _]. cbn [key] in Hf.
  unfold sp_get in Hp. rewrite Hl, Hf in Hp. unfold sp_expires in Hp. rewrite Hage1 in Hp.
  rewrite andb_false_r in Hp. simpl in Hp.
  destruct el as [p|]; [|done]. exists h2, c2. split; [done|]. simpl in Hp. rewrite Hp. by run.
Qed.

Definition sp_getOrStore (now : Z) (k : K) (v : V) (s : Spec) : V * bool * Spec :=
  match sp_get now k s with
  | (Some e, s) => (value e, true, s)
  | (None, s) => (v, false, sp_set now k v s)
  end.

Lemma GetOrStore_repr h c s now k v :
  repr h c s →
  ∃ h' c', GetOrStore h c now k (λ _, v) = Ret ((sp_getOrStore now k v s).1, h', c') ∧
    repr h' c' (sp_getOrStore now k v s).2.
Proof.
  intros Hr. unfold GetOrStore, sp_getOrStore.
  destruct (get_repr h c s now k Hr) as (el & h1 & c1 & -> & Hp & Hr1). run.
  destruct (sp_get now k s) as [[e|] s1], el; try done; simpl in Hp, Hr1;
    rewrite ?Hp; run; [by eauto|].
  destruct (set_repr h1 c1 s1 now k v Hr1) as (h2 & c2 & -> & Hr2). run. eauto.
Qed.

Lemma sp_getOrStore_cfg now k v s : sp_cfg (sp_getOrStore now k v s).2 = sp_cfg s.
Proof.
  unfold sp_getOrStore. pose proof (sp_get_cfg now k s) as Hg.
  destruct (sp_get now k s) as [[e|] s1]; simpl in *; [done|].
  unfold sp_set. by rewrite sp_setExpire_cfg.
Qed.

Lemma find_key_nil_notin k l : find_key k l = None ↔ k ∉ key <$> l.
Proof.
  split; [|by intros []%find_key_None].
  induction l as [|e l IH]; csimpl; [set_solver|]. destruct (decide _); [done|].
  intros ?%IH. set_solver.
Qed.

(** Other keys: an entry that has not expired is untouched, an absent one stays
    absent. *)
Lemma sp_get_other now k k' s o :
  k ≠ k' → NoDup (key <$> sp_list s) → find_key k' (sp_list s) = o →
  (∀ e, o = Some e → now < expires e) → find_key k' (sp_list (sp_get now k s).2) = o.
Proof.
  intros Hne Hd Ho He. unfold sp_get. destruct (find_key k (sp_list s)) as [e|] eqn:Hf; [|done].
  destruct (_ && _); simpl.
  - destruct (sp_expire_find now (sp_delete k s) k') as [H1 H2].
    assert (find_key k' (sp_list (sp_delete k s)) = o) as Hk'.
    { unfold sp_delete. rewrite Hf. simpl. by rewrite find_key_remove_ne. }
    destruct o as [e'|]; [apply H1; [done|by apply He]|]. apply H2; [|done].
    rewrite sp_delete_list by done. by apply NoDup_fmap_filter.
  - rewrite find_key_app, find_key_remove_ne, Ho by done. destruct o; [done|].
    apply find_key_Some in Hf as [Hk _]. destruct (_ && _); simpl; by rewrite decide_False by congruence.
Qed.

Lemma sp_setExpire_unlimited now k v exp s :
  sp_size s ≤ 0 →
  sp_setExpire now k v exp s =
    sp_expire now (sp_with s (sp_log s) (remove_key k (sp_list s) ++ [mkEntry k v exp])).
Proof.
  intros Hs. unfold sp_setExpire. destruct (find_key _ _), (_ ++ _); try done.
  by destruct (Z.ltb_spec 0 (sp_size s)); [lia|].
Qed.

Lemma NoDup_keys_set k v exp l :
  NoDup (key <$> l) → NoDup (key <$> remove_key k l ++ [mkEntry k v exp]).
Proof.
  intros Hd. rewrite remove_key_filter by done. rewrite fmap_app. apply NoDup_app.
  split_and!; [by apply NoDup_fmap_filter| |apply NoDup_singleton].
  intros x (e & -> & [Hn _]%list_elem_of_filter)%list_elem_of_fmap Hx. simpl in Hx.
  by apply list_elem_of_singleton in Hx.
Qed.

Lemma sp_set_other now k k' v s o :
  k ≠ k' → sp_size s ≤ 0 → NoDup (key <$> sp_list s) → find_key k' (sp_list s) = o →
  (∀ e, o = Some e → now < expires e) → find_key k' (sp_list (sp_set now k v s)) = o.
Proof.
  intros Hne Hs Hd Ho He. unfold sp_set. rewrite sp_setExpire_unlimited by done.
  set (exp := if 0 <? sp_age s then _ else _). set (s1 := sp_with _ _ _).
  destruct (sp_expire_find now s1 k') as [H1 H2].
  assert (find_key k' (sp_list s1) = o) as Hk'.
  { simpl. rewrite find_key_app, find_key_remove_ne, Ho by done. destruct o; [done|].
    simpl. by rewrite decide_False. }
  destruct o as [e'|]; [apply H1; [done|by apply He]|]. apply H2; [|done].
  by apply NoDup_keys_set.
Qed.

(** The key itself: a hit touches the entry, a miss stores the new value. *)
Lemma sp_getOrStore_hit now k v s e :
  find_key k (sp_list s) = Some e → NoDup (key <$> sp_list s) →
  0 < sp_age s → sp_touch s = true → now < expires e →
  let '(r, ok, s') := sp_getOrStore now k v s in
  r = value e ∧ ok = true ∧
  find_key k (sp_list s') = Some (mkEntry k (value e) (i64 (now + sp_age s))) ∧
  values s' ≡ₚ values s.
Proof.
  intros Hf Hd Ha Ht He. unfold sp_getOrStore, sp_get. rewrite Hf, Ht.
  destruct (Z.leb_spec (expires e) now); [lia|].
  destruct (Z.ltb_spec 0 (sp_age s)); [|lia]. rewrite andb_false_r. simpl.
  pose proof (find_key_Some _ _ _ Hf) as [Hk _]. split_and!; [done..| |].
  - rewrite find_key_app. pose proof (NoDup_keys_set k (value e) (expires e) _ Hd) as Hd'.
    rewrite fmap_app in Hd'. apply NoDup_app in Hd' as (_ & Hn & _).
    destruct (find_key_nil_notin k (remove_key k (sp_list s))) as [_ ->].
    + simpl. rewrite decide_True, Hk by done. done.
    + intros Hin. apply (Hn k Hin). simpl. left.
  - rewrite fmap_app. simpl. rewrite <- Permutation_cons_append.
    rewrite <- (remove_key_perm _ _ _ Hf) at 2. done.
Qed.

Lemma sp_getOrStore_miss now k v s :
  find_key k (sp_list s) = None → NoDup (key <$> sp_list s) → sp_size s ≤ 0 →
  0 < sp_age s → now < i64 (now + sp_age s) →
  let '(r, ok, s') := sp_getOrStore now k v s in
  r = v ∧ ok = false ∧ find_key k (sp_list s') = Some (mkEntry k v (i64 (now + sp_age s))).
Proof.
  intros Hf Hd Hs Ha He. unfold sp_getOrStore, sp_get. rewrite Hf.
  split_and!; [done..|]. unfold sp_set. rewrite sp_setExpire_unlimited by done.
  destruct (Z.ltb_spec 0 (sp_age s)); [|lia].
  apply sp_expire_find; [|done]. simpl. rewrite find_key_app.
  destruct (find_key_None k (sp_list s)) as [_ ->]; [by apply find_key_nil_notin|].
  rewrite Hf. simpl. by rewrite decide_True.
Qed.

Lemma sp_get_values now k s : values (sp_get now k s).2 ⊆+ values s.
Proof.
  unfold sp_get. destruct (find_key k (sp_list s)) as [e|] eqn:Hf; [|done].
  destruct (_ && _); simpl.
  - apply fmap_submseteq. rewrite sp_expire_submseteq. unfold sp_delete. rewrite Hf.
    apply remove_key_submseteq.
  - rewrite <- (remove_key_perm _ _ _ Hf) at 2. rewrite fmap_app, Permutation_app_comm.
    by destruct (_ && _).
Qed.

Lemma sp_getOrStore_loaded now k v s r s' :
  sp_getOrStore now k v s = (r, true, s') →
  ∃ e, find_key k (sp_list s) = Some e ∧ r = value e.
Proof.
  unfold sp_getOrStore, sp_get. destruct (find_key k (sp_list s)) as [e|]; [|done].
  destruct (_ && _); [done|]. intros. exists e. by destruct (_ && _); simplify_eq/=.
Qed.

Lemma sp_getOrStore_stored now k v s r s' :
  sp_getOrStore now k v s = (r, false, s') → r = v.
Proof. unfold sp_getOrStore. by destruct (sp_get now k s) as [[e|] s1]; intros; simplify_eq. Qed.

Lemma sp_getOrStore_values now k v s :
  sp_size s ≤ 0 →
  let '(_, ok, s') := sp_getOrStore now k v s in
  if ok then values s' ⊆+ values s else values s' ⊆+ v :: values s.
Proof.
  intros Hs. unfold sp_getOrStore. pose proof (sp_get_values now k s) as Hg.
  pose proof (sp_get_cfg now k s) as Hc.
  destruct (sp_get now k s) as [[e|] s1]; simpl in *; [done|].
  unfold sp_set. rewrite sp_setExpire_unlimited by (unfold sp_cfg in Hc; simplify_eq; lia).
  etrans; [apply fmap_submseteq, sp_expire_submseteq|]. simpl.
  rewrite fmap_app, Permutation_app_comm. simpl. apply submseteq_skip.
  etrans; [apply fmap_submseteq, remove_key_submseteq|]. done.
Qed.

Lemma sp_getOrStore_other now k k' v s o :
  k ≠ k' → sp_size s ≤ 0 → NoDup (key <$> sp_list s) → find_key k' (sp_list s) = o →
  (∀ e, o = Some e → now < expires e) →
  NoDup (key <$> sp_list (sp_get now k s).2) →
  find_key k' (sp_list (sp_getOrStore now k v s).2) = o.
Proof.
  intros Hne Hs Hd Ho He Hd1. unfold sp_getOrStore.
  pose proof (sp_get_other now k k' s o Hne Hd Ho He) as Hg.
  pose proof (sp_get_cfg now k s) as Hc.
  destruct (sp_get now k s) as [[e|] s1]; simpl in *; [done|].
  apply sp_set_other; [done| |done..]. unfold sp_cfg in Hc. simplify_eq. lia.
Qed.

Lemma sp_delete_other k k' s :
  k ≠ k' → find_key k' (sp_list (sp_delete k s)) = find_key k' (sp_list s).
Proof.
  intros Hne. unfold sp_delete. destruct (find_key k (sp_list s)); [|done].
  by apply find_key_remove_ne.
Qed.

Lemma sp_delete_values k s : values (sp_delete k s) ⊆+ values s.
Proof.
  unfold sp_delete. destruct (find_key k (sp_list s)); [|done].
  apply fmap_submseteq, remove_key_submseteq.
Qed.

(** ** Caches without age *)

(** A cache with no age and no callback, of size limit [n], that holds [l]. *)
Definition plain (h : heap) (c : LruCache) (n : Z) (l : list entry) : Prop :=
  ∃ s, repr h c s ∧ sp_cfg s = (0, n, false, false, false) ∧ sp_list s = l.

Lemma plain_keys h c n l : plain h c n l → NoDup (key <$> l).
Proof. intros (s & Hr & _ & <-). by eapply repr_keys. Qed.

Lemma plain_expire now s n : sp_cfg s = (0, n, false, false, false) → sp_expire now s = s.
Proof. unfold sp_cfg, sp_expire, sp_expires. intros [= -> _ _ -> _]. done. Qed.

Lemma plain_Get_hit h c n l1 e l2 now :
  plain h c n (l1 ++ e :: l2) →
  ∃ h' c', Get h c now (key e) = Ret (value e, true, h', c') ∧ plain h' c' n (l1 ++ l2 ++ [e]).
Proof.
  intros Hp. pose proof (plain_keys _ _ _ _ Hp) as Hk. destruct Hp as (s & Hr & Hc & Hl).
  destruct (get_repr h c s now (key e) Hr) as (el & h' & c' & Hg & Hpt & Hr').
  unfold sp_get in Hpt, Hr'. rewrite Hl in Hpt, Hr'.
  destruct (find_split l1 e l2 Hk) as [Hf Hrm]. rewrite Hf in Hpt, Hr'.
  unfold sp_cfg in Hc. unfold sp_expires in *. injection Hc as Ha Hn Ht Hs Hcb.
  rewrite Ha, Hs in Hpt, Hr'. simpl in Hpt, Hr'. rewrite Hrm in Hr'.
  destruct el as [p|]; [|done]. exists h', c'. unfold Get. rewrite Hg. run. rewrite Hpt.
  split; [done|]. eexists. split; [exact Hr'|]. simpl. rewrite app_assoc. split; [|done].
  unfold sp_cfg. simpl. congruence.
Qed.

Lemma plain_Get_miss h c n l k now :
  plain h c n l → k ∉ key <$> l →
  ∃ h' c', Get h c now k = Ret (zeroV, false, h', c') ∧ plain h' c' n l.
Proof.
  intros (s & Hr & Hc & Hl) Hk.
  destruct (get_repr h c s now k Hr) as (el & h' & c' & Hg & Hpt & Hr').
  unfold sp_get in Hpt, Hr'. rewrite Hl in Hpt, Hr'.
  destruct (find_key_None k l Hk) as [Hf _]. rewrite Hf in Hpt, Hr'. simpl in *.
  destruct el; [done|]. exists h', c'. unfold Get. rewrite Hg. run. split; [done|]. by exists s.
Qed.

(** The entries that remain after a push, when the limit is [n]. *)
Definition evict_front (n : Z) (l : list entry) : list entry :=
  if (0 <? n) && (n <? len l) then tail l else l.

Lemma plain_Set_new h c n l k v now :
  plain h c n l → k ∉ key <$> l →
  ∃ h' c', Set_ h c now k v = Ret (h', c') ∧
    plain h' c' n (evict_front n (l ++ [mkEntry k v 0])).
Proof.
  intros (s & Hr & Hc & Hl) Hk. unfold Set_.
  destruct (set_repr h c s now k v Hr) as (h' & c' & He & Hr'). exists h', c'.
  split; [done|]. unfold sp_set in Hr'. pose proof (sp_setExpire_cfg now k v
    (if 0 <? sp_age s then i64 (now + sp_age s) else 0) s) as Hcfg.
  eexists. split; [exact Hr'|]. split; [congruence|].
  unfold sp_setExpire. destruct (find_key_None k l Hk) as [Hf Hrm]. rewrite Hl, Hf, Hrm.
  pose proof Hc as Hc'. unfold sp_cfg in Hc'. injection Hc' as Ha Hn Ht Hs Hcb.
  rewrite Ha. change (0 <? 0) with false. cbv iota. unfold evict_front.
  destruct (l ++ [mkEntry k v 0]) as [|e r] eqn:E; [by destruct l|]. rewrite Hn.
  destruct (_ && _); rewrite (plain_expire _ _ n) by (unfold sp_cfg in *; simpl; congruence); done.
Qed.

Lemma plain_Delete h c n l1 e l2 :
  plain h c n (l1 ++ e :: l2) →
  ∃ c', Delete_ h c (key e) = Ret c' ∧ plain h c' n (l1 ++ l2).
Proof.
  intros Hp. pose proof (plain_keys _ _ _ _ Hp) as Hk. destruct Hp as (s & Hr & Hc & Hl).
  destruct (delete_repr h c s (key e) Hr) as (c' & He & Hr'). exists c'. split; [done|].
  eexists. split; [exact Hr'|]. split; [by rewrite sp_delete_cfg|].
  unfold sp_delete. rewrite Hl. destruct (find_split l1 e l2 Hk) as [-> ->]. done.
Qed.

Lemma plain_Delete_absent h c n l k :
  plain h c n l → k ∉ key <$> l → ∃ c', Delete_ h c k = Ret c' ∧ plain h c' n l.
Proof.
  intros (s & Hr & Hc & Hl) Hk. destruct (delete_repr h c s k Hr) as (c' & He & Hr').
  exists c'. split; [done|]. exists s. split; [|done]. unfold sp_delete in Hr'.
  rewrite Hl in Hr'. by destruct (find_key_None k l Hk) as [Hf _]; rewrite Hf in Hr'.
Qed.

Lemma plain_Exist h c n l k : plain h c n l → Exist c k = bool_decide (k ∈ key <$> l).
Proof. intros (s & Hr & _ & <-). by eapply Exist_repr. Qed.

Lemma plain_New n : plain ∅ (New [WithSize n]) n [].
Proof. exists (sp_new [oSize n]). split; [apply (New_repr [oSize n])|done]. Qed.

Lemma plain_Clear h c n l : plain h c n l → plain h (Clear c) n [].
Proof.
  intros (s & Hr & Hc & Hl). eexists. split; [by apply Clear_repr|]. done.
Qed.

Lemma CloneTo_config h c n n' s : CloneTo h c n = Ret n' → config n s → config n' s.
Proof.
  unfold CloneTo. intros He Hc. assert (config (Clear n) s) as Hc0 by done.
  revert He Hc0. generalize (Clear n). generalize (view (lru c)) as es.
  induction es as [|el es IH]; intros m; simpl; [intros [= ->]; done|].
  destruct (deref h (Value el)); [|done..]. run.
  destruct (PushBack (lru m) (Value el)) as [le l]. intros He Hm. by eapply IH.
Qed.

Lemma plain_CloneTo h c n l h' c' n' l' :
  plain h c n l → plain h' c' n' l' → ∃ c2, CloneTo h c c' = Ret c2 ∧ plain h c2 n' l.
Proof.
  intros (s & (_ & ps & Hln & Hs) & Hc & Hl) (s' & (Hcfg & _) & Hc' & _).
  destruct (CloneTo_linked h c c' ps Hln) as (c2 & qs & He & Hq & H2 & _).
  exists c2. split; [done|]. exists (sp_with s' (sp_log s') l). split; [|done].
  split; [by apply (CloneTo_config _ _ _ _ _ He)|]. exists qs. split; [done|].
  by rewrite H2, <- Hs.
Qed.

End Lru.

(** ** Instances of the properties *)

Module Examples.
Import ListModel.

Abbreviation LC := (LruCache (K := string) (V := Z) (L := list (nat * positive))
                      (elem := nat * positive)).

(** Three keys in a cache of two: the least recently used one leaves. *)
Definition history : list (Z * op (K := string) (V := Z)) :=
  [(0, OSet "a" 1); (0, OSet "b" 2); (1, OGet "a"); (1, OSet "c" 3)].

Definition options : list opt := [oSize 2; oAge 10; oEvict].

Definition outcome_get {A} (d : A) (m : outcome A) : A :=
  match m with Ret a => a | _ => d end.

Definition reached : list (out (V := Z)) * gmap positive (entry (K := string) (V := Z)) * LC :=
  outcome_get ([], ∅, New []) (exec 0 ∅ (New (option_of <$> options)) history).

Lemma reached_reachable : reachable 0 reached.1.2 reached.2.
Proof. exists options, history, reached.1.1. vm_compute. reflexivity. Qed.

Lemma lru_refines_spec_witness :
  ∃ h (c : LC), exec 0 ∅ (New (option_of <$> options)) history =
      Ret ([RNone; RNone; RVal 1 true; RNone], h, c) ∧
    repr h c (spec_exec 0 (sp_new options) history).2 ∧ evicted c = [("b", 2)].
Proof. exact (lru_refines_spec 0 options history). Defined.

Lemma lru_set_get_witness :
  ∃ h1 c1 h2 c2, Set_ reached.1.2 reached.2 5 "z" 26 = Ret (h1, c1) ∧
    Get 0 h1 c1 9 "z" = Ret (26, true, h2, c2).
Proof.
  apply (lru_set_get 0 reached.1.2 reached.2 5 9 "z" 26); [apply reached_reachable|].
  intros _ _. vm_compute. split; reflexivity.
Defined.

Lemma lru_remove_prefix_witness :
  ∃ c', RemoveByKeyPrefix Some "a" reached.1.2 reached.2
          (map_to_list (cache reached.2)).*1 0 =
          Ret (len (contents reached.1.2 reached.2) - len (contents reached.1.2 c'), c') ∧
    contents reached.1.2 c' =
      filter (λ e, matches Some "a" (key e) = false) (contents reached.1.2 reached.2).
Proof.
  apply (lru_remove_prefix 0 reached.1.2 reached.2 Some "a"
           (map_to_list (cache reached.2)).*1); [apply reached_reachable|reflexivity].
Defined.

Lemma lru_clone_shares_witness :
  ∃ n', CloneTo reached.1.2 reached.2 (New []) = Ret n' ∧
    contents reached.1.2 n' = contents reached.1.2 reached.2 ∧
    ∀ k now v, k ∈ key <$> contents reached.1.2 reached.2 →
      ∃ h2 n2 e, Set_ reached.1.2 n' now k v = Ret (h2, n2) ∧
        find_key k (contents h2 reached.2) = Some e ∧ value e = v.
Proof. apply (lru_clone_shares 0), reached_reachable. Defined.

(** The comment on [GetWithExpire] says that it does not check the age of an entry and
    does not change its expiry; it does both. *)
Example get_with_expire_checks_age :
  ∃ h (c : LC), exec 0 ∅ (New (option_of <$> [oAge 10; oUpdateAgeOnGet]))
      [(0, OSet "a" 1); (5, OGetWithExpire "a"); (20, OGetWithExpire "a"); (20, OExist "a")] =
    Ret ([RNone; RExp 1 15 true; RExp 0 zero_time false; RBool false], h, c).
Proof. eexists _, _. vm_compute. reflexivity. Qed.

End Examples.
