(* ===== verification/Wire.v ===== *)
(** * Byte streams: Go's [io.Reader], [io.Writer] and [encoding/binary]

    A byte is a [Z] in [0, 256).  A reader is the list of bytes still to come;
    [rd A] is a Go function that consumes some of it and returns a value, an
    error, or panics.  A writer is any instance of [Writer]; [bytes.Buffer] is
    the list of bytes written so far.

    [Mono] says that a reader looks only at the bytes it consumes, which is what
    makes framing work; [Codec] is the contract between the writer and the reader
    of a message. *)

From S2P Require Import Prelude.

(** ** Errors *)

Inductive goerr : Type :=
| EOF
| ErrUnexpectedEOF
| ErrShortBuffer
| ErrMsg (msg : string).
Arguments ErrMsg msg%_string.

#[global] Instance goerr_eq_dec : EqDecision goerr.
Proof. solve_decision. Defined.

(** [err.Error()]. *)
Definition Error (e : goerr) : string :=
  match e with
  | EOF => "EOF"
  | ErrUnexpectedEOF => "unexpected EOF"
  | ErrShortBuffer => "short buffer"
  | ErrMsg msg => msg
  end.

(** ** Readers *)

Inductive rd_result (A : Type) : Type :=
| Got (a : A) (rest : list Z)
| Fail (e : goerr)
| Crash (msg : string).
Arguments Got {A} a rest.
Arguments Fail {A} e.
Arguments Crash {A} msg%_string.

Definition rd (A : Type) : Type := list Z → rd_result A.

#[global] Instance rd_ret : MRet rd := λ A a s, Got a s.
#[global] Instance rd_bind : MBind rd := λ A B f m s,
  match m s with
  | Got a rest => f a rest
  | Fail e => Fail e
  | Crash p => Crash p
  end.

(** [return err] and a run-time panic. *)
Definition rfail {A} (e : goerr) : rd A := λ _, Fail e.
Definition rcrash {A} (msg : string) : rd A := λ _, Crash msg.

(** [io.ByteReader.ReadByte]. *)
Definition ReadByte : rd Z := λ s,
  match s with
  | [] => Fail EOF
  | b :: s => Got b s
  end.

(** [io.ReadFull] into a buffer of [n] bytes. *)
Definition ReadFull (n : nat) : rd (list Z) := λ s,
  if decide (n ≤ length s)%nat then Got (take n s) (drop n s)
  else match s with
       | [] => Fail EOF
       | _ => Fail ErrUnexpectedEOF
       end.

(** The bytes of a Go string, and back. *)
Definition string_bytes (s : string) : list Z :=
  (λ a, Z.of_nat (Ascii.nat_of_ascii a)) <$> String.list_ascii_of_string s.
Definition bytes_string (bs : list Z) : string :=
  String.string_of_list_ascii ((λ b, Ascii.ascii_of_nat (Z.to_nat b)) <$> bs).

Lemma bytes_string_bytes s : bytes_string (string_bytes s) = s.
Proof.
  unfold bytes_string, string_bytes. induction s as [|a s IH]; simpl; [done|].
  f_equal; [by rewrite Nat2Z.id, Ascii.ascii_nat_embedding|exact IH].
Qed.

Definition is_byte (b : Z) : Prop := 0 ≤ b < 256.

Lemma string_bytes_ok s : Forall is_byte (string_bytes s).
Proof.
  unfold string_bytes. apply Forall_fmap. apply Forall_true. intros a. unfold is_byte.
  simpl. pose proof (Ascii.nat_ascii_bounded a). lia.
Qed.

(** ** Big-endian integers *)

Fixpoint unbe_acc (acc : Z) (bs : list Z) : Z :=
  match bs with
  | [] => acc
  | b :: bs => unbe_acc (acc * 256 + b) bs
  end.
Definition unbe (bs : list Z) : Z := unbe_acc 0 bs.

Fixpoint be (n : nat) (v : Z) : list Z :=
  match n with
  | O => []
  | S n => be n (v / 256) ++ [v mod 256]
  end.

(** [binary.Read(r, binary.BigEndian, &v)] for an unsigned [v] of [n] bytes. *)
Definition ReadBE (n : nat) : rd Z := bs ← ReadFull n; mret (unbe bs).

Lemma length_be n v : length (be n v) = n.
Proof.
  revert v. induction n as [|n IH]; intros v; [done|].
  simpl. rewrite length_app, IH. simpl. lia.
Qed.

Lemma unbe_acc_app acc a b : unbe_acc acc (a ++ b) = unbe_acc (unbe_acc acc a) b.
Proof. revert acc. induction a as [|x a IH]; intros acc; [done|]. apply IH. Qed.

Lemma unbe_be n v : 0 ≤ v < 256 ^ Z.of_nat n → unbe (be n v) = v.
Proof.
  unfold unbe. revert v. induction n as [|n IH]; intros v Hv; simpl.
  - simpl in Hv. lia.
  - rewrite unbe_acc_app, IH; simpl.
    + rewrite (Z.div_mod v 256) at 3 by lia. lia.
    + rewrite Nat2Z.inj_succ, Z.pow_succ_r in Hv by lia.
      split; [apply Z.div_pos; lia|apply Z.div_lt_upper_bound; lia].
Qed.

(** ** Readers that only look at what they consume *)

Class Mono {A} (m : rd A) : Prop :=
  mono s a rest more : m s = Got a rest → m (s ++ more) = Got a (rest ++ more).

#[global] Instance mono_ret {A} (a : A) : Mono (mret a).
Proof. intros s b rest more H. unfold mret, rd_ret in *. by simplify_eq. Qed.

#[global] Instance mono_bind {A B} (m : rd A) (f : A → rd B) :
  Mono m → (∀ a, Mono (f a)) → Mono (m ≫= f).
Proof.
  intros Hm Hf s b rest more H. unfold mbind, rd_bind in *.
  destruct (m s) as [a r| |] eqn:E; [|done..].
  rewrite (Hm _ _ _ more E). by apply Hf.
Qed.

#[global] Instance mono_fail {A} e : Mono (@rfail A e).
Proof. by intros s a rest more H. Qed.

#[global] Instance mono_crash {A} p : Mono (@rcrash A p).
Proof. by intros s a rest more H. Qed.

#[global] Instance mono_ReadByte : Mono ReadByte.
Proof. intros [|b s] a rest more H; simpl in *; by simplify_eq. Qed.

#[global] Instance mono_ReadFull n : Mono (ReadFull n).
Proof.
  intros s a rest more H. unfold ReadFull in *.
  destruct (decide (n ≤ length s)%nat) as [Hn|]; [|by destruct s]. simplify_eq.
  rewrite decide_True by (rewrite length_app; lia).
  by rewrite take_app_le, drop_app_le by done.
Qed.

#[global] Instance mono_if {A} (b : bool) (m1 m2 : rd A) :
  Mono m1 → Mono m2 → Mono (if b then m1 else m2).
Proof. by destruct b. Qed.

#[global] Instance mono_ReadBE n : Mono (ReadBE n).
Proof. unfold ReadBE. apply _. Qed.

(** ** Writers *)

Inductive result (A : Type) : Type :=
| Ok (a : A)
| Err (e : goerr).
Arguments Ok {A} a.
Arguments Err {A} e.

#[global] Instance result_ret : MRet result := @Ok.
#[global] Instance result_bind : MBind result := λ A B f m,
  match m with
  | Ok a => f a
  | Err e => Err e
  end.

Lemma result_bind_Ok {A B} (m : result A) (f : A → result B) b :
  (m ≫= f) = Ok b ↔ ∃ a, m = Ok a ∧ f a = Ok b.
Proof. destruct m; simpl; naive_solver. Qed.

(** [io.Writer]: the writer after the bytes were accepted, or an error. *)
Class Writer (W : Type) := Write : W → list Z → result W.

(** [io.ByteWriter]. *)
Definition WriteByte `{Writer W} (w : W) (b : Z) : result W := Write w [b].

(** [binary.Write(w, binary.BigEndian, v)] for an unsigned [v] of [n] bytes. *)
Definition WriteBE `{Writer W} (n : nat) (w : W) (v : Z) : result W := Write w (be n v).

(** [bytes.Buffer], whose writes do not fail. *)
#[global] Instance buffer_writer : Writer (list Z) := λ w bs, Ok (w ++ bs).

(** A connection that accepts [n] more bytes and then breaks. *)
Record broken_pipe := mkPipe { accepted : list Z; budget : nat }.
#[global] Instance pipe_writer : Writer broken_pipe := λ w bs,
  if decide (length bs ≤ budget w)%nat
  then Ok (mkPipe (accepted w ++ bs) (budget w - length bs))
  else Err (ErrMsg "broken pipe").

(** ** The contract of a message format *)

(** [Codec ok write read]: a message satisfying [ok], written to a buffer, is
    read back exactly, leaving the bytes that follow; and the reader never
    depends on those. *)
Class Codec {A} (ok : A → Prop) (write : list Z → A → result (list Z)) (read : rd A)
    : Prop := {
  codec_roundtrip a w : ok a →
    ∃ bs, write w a = Ok (w ++ bs) ∧ ∀ rest, read (bs ++ rest) = Got a rest;
  codec_mono :: Mono read;
}.

(** A message cut short is never taken for a complete one. *)
Lemma codec_truncated {A} (ok : A → Prop) write read a bs k :
  Codec ok write read → ok a → write [] a = Ok bs → (k < length bs)%nat →
  ∀ a' rest, read (take k bs) ≠ Got a' rest.
Proof.
  intros HC Ha Hw Hk a' rest H.
  destruct (codec_roundtrip a [] Ha) as (bs' & Hw' & Hr). rewrite Hw in Hw'.
  simpl in Hw'. simplify_eq.
  apply (mono _ _ _ (drop k bs')) in H. rewrite take_drop in H.
  specialize (Hr []). rewrite app_nil_r in Hr. rewrite H in Hr. simplify_eq.
  match goal with H : _ ++ drop _ _ = [] |- _ => apply app_eq_nil in H as [_ H] end.
  apply (f_equal length) in H0. rewrite length_drop in H0. simpl in H0. lia.
Qed.

(** ** Running readers on concatenations *)

Lemma rd_bind_Got {A B} (m : rd A) (f : A → rd B) s a rest :
  m s = Got a rest → (m ≫= f) s = f a rest.
Proof. intros H. unfold mbind, rd_bind. by rewrite H. Qed.

Lemma ReadByte_cons b s : ReadByte (b :: s) = Got b s.
Proof. done. Qed.

Lemma ReadFull_app n bs s : length bs = n → ReadFull n (bs ++ s) = Got bs s.
Proof.
  intros <-. unfold ReadFull. rewrite decide_True by (rewrite length_app; lia).
  by rewrite take_app_length, drop_app_length.
Qed.

Lemma ReadBE_app n v s :
  0 ≤ v < 256 ^ Z.of_nat n → ReadBE n (be n v ++ s) = Got v s.
Proof.
  intros Hv. unfold ReadBE. erewrite rd_bind_Got by (apply ReadFull_app, length_be).
  unfold mret, rd_ret. by rewrite unbe_be.
Qed.

(** Unsigned values of one, two, four and eight bytes. *)
Definition u8_ok (v : Z) : Prop := 0 ≤ v < 256.
Definition u16_ok (v : Z) : Prop := 0 ≤ v < 2 ^ 16.
Definition u32_ok (v : Z) : Prop := 0 ≤ v < 2 ^ 32.
Definition u64_ok (v : Z) : Prop := 0 ≤ v < 2 ^ 64.

Lemma u8_pow v : u8_ok v → 0 ≤ v < 256 ^ Z.of_nat 1.
Proof. done. Qed.
Lemma u16_pow v : u16_ok v → 0 ≤ v < 256 ^ Z.of_nat 2.
Proof. done. Qed.
Lemma u32_pow v : u32_ok v → 0 ≤ v < 256 ^ Z.of_nat 4.
Proof. done. Qed.
Lemma u64_pow v : u64_ok v → 0 ≤ v < 256 ^ Z.of_nat 8.
Proof. done. Qed.

Create HintDb wire.
#[export] Hint Resolve u8_pow u16_pow u32_pow u64_pow length_be : wire.

(** Step a reader over the next field of the input. *)
Ltac rd_step :=
  lazymatch goal with
  | |- (ReadByte ≫= _) _ = _ => erewrite rd_bind_Got by (apply ReadByte_cons)
  | |- (ReadFull _ ≫= _) _ = _ =>
      erewrite rd_bind_Got
        by (apply ReadFull_app; first [done|lia|solve [eauto with wire]])
  | |- (ReadBE _ ≫= _) _ = _ =>
      erewrite rd_bind_Got
        by (apply ReadBE_app; first [solve [eauto with wire]|done|lia])
  end.

(** Run a [Writer] on a buffer. *)
Ltac wr_run :=
  unfold WriteByte, WriteBE, Write, buffer_writer, mbind, result_bind;
  rewrite <- ?app_assoc.
