(* ===== verification/GoStrings.v ===== *)
(** * Go's [strings] package

    Strings are byte strings.  Case mapping is the one of ASCII letters, which is
    what [strings.ToLower] and [strings.ToUpper] do on domain names and keywords;
    bytes outside ASCII are left alone. *)

From Stdlib Require Import Ascii.
From stdpp Require Import pretty.
From S2P Require Import Prelude.

(** ** Case *)

Definition map_string (f : ascii → ascii) : string → string :=
  fix go s := match s with
              | EmptyString => EmptyString
              | String a s => String (f a) (go s)
              end.

Definition lower_byte (a : ascii) : ascii :=
  let n := nat_of_ascii a in
  if ((65 <=? n) && (n <=? 90))%nat then ascii_of_nat (n + 32) else a.

Definition upper_byte (a : ascii) : ascii :=
  let n := nat_of_ascii a in
  if ((97 <=? n) && (n <=? 122))%nat then ascii_of_nat (n - 32) else a.

Definition ToLower : string → string := map_string lower_byte.
Definition ToUpper : string → string := map_string upper_byte.

Lemma lower_byte_idem a : lower_byte (lower_byte a) = lower_byte a.
Proof. by destruct a as [[] [] [] [] [] [] [] []]. Qed.

Lemma ToLower_idem s : ToLower (ToLower s) = ToLower s.
Proof. induction s as [|a s IH]; simpl; [done|]. by rewrite lower_byte_idem, IH. Qed.

Lemma ToLower_app s t : ToLower (s +:+ t) = ToLower s +:+ ToLower t.
Proof. induction s as [|a s IH]; simpl; [done|]. by rewrite IH. Qed.

Lemma ToLower_ToUpper s : ToLower (ToUpper s) = ToLower s.
Proof.
  induction s as [|a s IH]; simpl; [done|]. rewrite IH. f_equal.
  by destruct a as [[] [] [] [] [] [] [] []].
Qed.

(** ** Affixes *)

Definition HasPrefix (s prefix : string) : bool := String.prefix prefix s.

Fixpoint has_suffix_at (n : nat) (s suffix : string) : bool :=
  match n, s with
  | O, _ => bool_decide (s = suffix)
  | S n, String _ s => has_suffix_at n s suffix
  | S _, EmptyString => false
  end.

Definition HasSuffix (s suffix : string) : bool :=
  (String.length suffix <=? String.length s)%nat &&
  has_suffix_at (String.length s - String.length suffix) s suffix.

(** [strings.Contains]. *)
Fixpoint Contains (s sub : string) : bool :=
  String.prefix sub s ||
  match s with
  | EmptyString => false
  | String _ s => Contains s sub
  end.

Lemma has_suffix_at_0 s x : has_suffix_at 0 s x = bool_decide (s = x).
Proof. by destruct s. Qed.

Lemma string_app_length s t :
  String.length (s +:+ t) = (String.length s + String.length t)%nat.
Proof. induction s as [|a s IH]; simpl; [done|]. by rewrite IH. Qed.

Lemma HasSuffix_app t s x : HasSuffix s x = true → HasSuffix (t +:+ s) x = true.
Proof.
  unfold HasSuffix. intros [Hl Hs]%andb_true_iff. apply Nat.leb_le in Hl.
  apply andb_true_iff. rewrite string_app_length. split; [apply Nat.leb_le; lia|].
  replace (String.length t + String.length s - String.length x)%nat with
    (String.length t + (String.length s - String.length x))%nat by lia.
  by induction t.
Qed.

(** Lower-casing leaves affixes without letters alone. *)
Definition no_letter (a : ascii) : bool :=
  let n := nat_of_ascii a in
  negb (((65 <=? n) && (n <=? 90)) || ((97 <=? n) && (n <=? 122)))%nat.

Fixpoint no_letters (s : string) : bool :=
  match s with
  | EmptyString => true
  | String a s => no_letter a && no_letters s
  end.

Lemma lower_byte_no_letter a b : no_letter b = true → lower_byte a = b ↔ a = b.
Proof.
  intros Hb. split.
  - intros <-. revert Hb. by destruct a as [[] [] [] [] [] [] [] []].
  - intros ->. revert Hb. by destruct b as [[] [] [] [] [] [] [] []].
Qed.

Lemma ToLower_length s : String.length (ToLower s) = String.length s.
Proof. induction s as [|a s IH]; simpl; [done|]. by rewrite IH. Qed.

Lemma ToLower_no_letters s x : no_letters x = true → ToLower s = x ↔ s = x.
Proof.
  revert x. induction s as [|a s IH]; intros [|b x] Hx; simpl in *; try done.
  apply andb_true_iff in Hx as [Hb Hx]. split.
  - intros [= Ha Hs]. apply (lower_byte_no_letter a b) in Ha; [|done]. apply IH in Hs; [|done].
    by subst.
  - intros [= -> ->]. f_equal; [by apply lower_byte_no_letter|by apply IH].
Qed.

Lemma HasPrefix_lower s x : no_letters x = true → HasPrefix (ToLower s) x = HasPrefix s x.
Proof.
  unfold HasPrefix. revert x. induction s as [|a s IH]; intros [|b x] Hx; try done.
  simpl in Hx. apply andb_true_iff in Hx as [Hb Hx]. simpl.
  destruct (Ascii.ascii_dec b (lower_byte a)) as [Heq|Hne], (Ascii.ascii_dec b a) as [Heq'|Hne'];
    [by apply IH| | |done].
  - exfalso. apply Hne'. symmetry. by apply (lower_byte_no_letter a b).
  - exfalso. apply Hne. symmetry. by apply lower_byte_no_letter.
Qed.

Lemma HasSuffix_lower s x : no_letters x = true → HasSuffix (ToLower s) x = HasSuffix s x.
Proof.
  intros Hx. unfold HasSuffix. rewrite ToLower_length. f_equal.
  generalize (String.length s - String.length x)%nat as n. intros n.
  revert s. induction n as [|n IH]; intros s; [|destruct s; [done|apply IH]].
  rewrite !has_suffix_at_0. apply bool_decide_ext. by apply ToLower_no_letters.
Qed.

(** ** Splitting and joining *)

(** [strings.Split(s, sep)] for a one-byte separator. *)
Fixpoint Split (sep : ascii) (s : string) : list string :=
  match s with
  | EmptyString => [EmptyString]
  | String a s =>
    if Ascii.eqb a sep then EmptyString :: Split sep s
    else match Split sep s with
         | [] => [String a EmptyString]
         | p :: ps => String a p :: ps
         end
  end.

(** [strings.Join(ps, sep)] for a one-byte separator. *)
Fixpoint Join (sep : ascii) (ps : list string) : string :=
  match ps with
  | [] => EmptyString
  | [p] => p
  | p :: ps => p +:+ String sep (Join sep ps)
  end.

Lemma Split_cons sep s : ∃ p ps, Split sep s = p :: ps.
Proof.
  induction s as [|a s (p & ps & IH)]; simpl; [eauto|].
  destruct (Ascii.eqb a sep); [eauto|]. rewrite IH. eauto.
Qed.

Lemma Join_Split sep s : Join sep (Split sep s) = s.
Proof.
  induction s as [|a s IH]; simpl; [done|]. destruct (Split_cons sep s) as (p & ps & Hs).
  rewrite Hs in *. destruct (Ascii.eqb_spec a sep) as [->|].
  - change (String sep (Join sep (p :: ps)) = String sep s). by rewrite IH.
  - destruct ps as [|q ps]; [by rewrite <- IH|].
    change (String a (Join sep (p :: q :: ps)) = String a s). by rewrite IH.
Qed.

(** No part of a split contains the separator. *)
Fixpoint has_byte (a : ascii) (s : string) : bool :=
  match s with
  | EmptyString => false
  | String b s => Ascii.eqb b a || has_byte a s
  end.

Lemma Split_parts sep s : Forall (λ p, has_byte sep p = false) (Split sep s).
Proof.
  induction s as [|a s IH]; simpl; [by repeat constructor|].
  destruct (Ascii.eqb a sep) eqn:E; [by constructor|].
  destruct (Split sep s) as [|p ps]; [constructor; [simpl; by rewrite E|constructor]|].
  apply Forall_cons in IH as [Hp IH]. constructor; [|done]. simpl. by rewrite E.
Qed.

Lemma Split_no_sep sep p : has_byte sep p = false → Split sep p = [p].
Proof.
  induction p as [|a p IH]; simpl; [done|]. intros [Ha Hp]%orb_false_iff.
  by rewrite Ha, IH.
Qed.

Lemma Split_app sep p t :
  has_byte sep p = false → Split sep (p +:+ String sep t) = p :: Split sep t.
Proof.
  induction p as [|a p IH]; intros Hp.
  - simpl. by rewrite Ascii.eqb_refl.
  - simpl in Hp. apply orb_false_iff in Hp as [Ha Hp].
    change (Split sep (String a p +:+ String sep t)) with
      (if Ascii.eqb a sep then "" :: Split sep (p +:+ String sep t)
       else match Split sep (p +:+ String sep t) with
            | [] => [String a ""] | q :: ps => String a q :: ps end).
    by rewrite Ha, IH.
Qed.

Lemma Split_Join sep ps :
  ps ≠ [] → Forall (λ p, has_byte sep p = false) ps → Split sep (Join sep ps) = ps.
Proof.
  intros Hne Hf. induction Hf as [|p ps Hp Hf IH]; [done|].
  destruct ps as [|q ps]; [by apply Split_no_sep|].
  change (Join sep (p :: q :: ps)) with (p +:+ String sep (Join sep (q :: ps))).
  by rewrite Split_app, IH.
Qed.

(** ** Bytes of a string *)

Fixpoint forall_bytes (f : ascii → bool) (s : string) : bool :=
  match s with
  | EmptyString => true
  | String a s => f a && forall_bytes f s
  end.

Lemma forall_bytes_app f s t : forall_bytes f (s +:+ t) = forall_bytes f s && forall_bytes f t.
Proof. induction s as [|a s IH]; simpl; [done|]. by rewrite IH, andb_assoc. Qed.

Lemma forall_bytes_impl (f g : ascii → bool) s :
  (∀ a, f a = true → g a = true) → forall_bytes f s = true → forall_bytes g s = true.
Proof.
  intros Hfg. induction s as [|a s IH]; simpl; [done|]. rewrite !andb_true_iff. naive_solver.
Qed.

Lemma forall_bytes_Join f sep ps :
  f sep = true → Forall (λ p, forall_bytes f p = true) ps → forall_bytes f (Join sep ps) = true.
Proof.
  intros Hsep. induction 1 as [|p ps Hp Hps IH]; [done|]. destruct ps as [|q ps]; [done|].
  change (Join sep (p :: q :: ps)) with (p +:+ String sep (Join sep (q :: ps))).
  rewrite forall_bytes_app, Hp. simpl. by rewrite Hsep.
Qed.

Lemma has_byte_forall a s : has_byte a s = negb (forall_bytes (λ b, negb (Ascii.eqb b a)) s).
Proof.
  induction s as [|b s IH]; simpl; [done|]. rewrite IH, negb_andb, negb_involutive. done.
Qed.

Lemma HasPrefix_forall f s x :
  HasPrefix s x = true → forall_bytes f s = true → forall_bytes f x = true.
Proof.
  unfold HasPrefix. revert x. induction s as [|a s IH]; intros [|b x]; simpl; try done.
  destruct (Ascii.ascii_dec b a) as [->|]; [|done]. rewrite !andb_true_iff. naive_solver.
Qed.

Lemma HasSuffix_forall f s x :
  HasSuffix s x = true → forall_bytes f s = true → forall_bytes f x = true.
Proof.
  unfold HasSuffix. rewrite andb_true_iff. intros [_ H].
  revert H. generalize (String.length s - String.length x)%nat. intros n.
  revert s. induction n as [|n IH]; intros s.
  - rewrite has_suffix_at_0, bool_decide_eq_true. by intros ->.
  - destruct s as [|a s]; simpl; [done|]. rewrite andb_true_iff. intros H [_ Hs]. by apply (IH s).
Qed.

(** ** Trimming *)

(** The UTF-8 encodings of the runes for which [unicode.IsSpace] holds. *)
Definition bytes (l : list nat) : string :=
  String.string_of_list_ascii (ascii_of_nat <$> l).
Definition spaces : list string :=
  bytes <$> ([[9]; [10]; [11]; [12]; [13]; [32]; [194; 133]; [194; 160]; [225; 154; 128];
    [226; 128; 128]; [226; 128; 129]; [226; 128; 130]; [226; 128; 131]; [226; 128; 132];
    [226; 128; 133]; [226; 128; 134]; [226; 128; 135]; [226; 128; 136]; [226; 128; 137];
    [226; 128; 138]; [226; 128; 168]; [226; 128; 169]; [226; 128; 175]; [226; 129; 159];
    [227; 128; 128]]%nat).

Definition starts_with_space (s : string) : bool := existsb (HasPrefix s) spaces.
Definition ends_with_space (s : string) : bool := existsb (HasSuffix s) spaces.

Fixpoint trim_left (fuel : nat) (s : string) : string :=
  match fuel with
  | O => s
  | S fuel =>
    match List.find (HasPrefix s) spaces with
    | Some x => trim_left fuel (String.substring (String.length x) (String.length s) s)
    | None => s
    end
  end.

Fixpoint trim_right (fuel : nat) (s : string) : string :=
  match fuel with
  | O => s
  | S fuel =>
    match List.find (HasSuffix s) spaces with
    | Some x => trim_right fuel (String.substring 0 (String.length s - String.length x) s)
    | None => s
    end
  end.

(** [strings.TrimSpace]; every step removes a byte, so the length is enough fuel. *)
Definition TrimSpace (s : string) : string :=
  trim_right (String.length s) (trim_left (String.length s) s).

Fixpoint string_rev_app (s t : string) : string :=
  match s with
  | EmptyString => t
  | String a s => string_rev_app s (String a t)
  end.

Fixpoint TrimLeft (s cutset : string) : string :=
  match s with
  | EmptyString => EmptyString
  | String a r => if has_byte a cutset then TrimLeft r cutset else s
  end.

(** [strings.TrimRight] for a cutset of ASCII bytes. *)
Definition TrimRight (s cutset : string) : string :=
  string_rev_app (TrimLeft (string_rev_app s "") cutset) "".

(** [strings.Trim] for a cutset of ASCII bytes. *)
Definition Trim (s cutset : string) : string :=
  let r := TrimLeft s cutset in
  string_rev_app (TrimLeft (string_rev_app r "") cutset) "".

(** [strings.ReplaceAll(s, old, new)] for one-byte strings. *)
Definition ReplaceByte (s : string) (old new : ascii) : string :=
  map_string (λ a, if Ascii.eqb a old then new else a) s.

(** Printable ASCII other than the space. *)
Definition visible (a : ascii) : bool := ((33 <=? nat_of_ascii a) && (nat_of_ascii a <=? 126))%nat.

Lemma spaces_not_visible : forallb (λ x, negb (forall_bytes visible x)) spaces = true.
Proof. reflexivity. Qed.

Lemma existsb_find_None {A} (f : A → bool) l : (∀ x, x ∈ l → f x = false) → List.find f l = None.
Proof.
  induction l as [|x l IH]; intros Hf; simpl; [done|].
  rewrite (Hf x) by set_solver. apply IH. set_solver.
Qed.

Lemma TrimSpace_visible s : forall_bytes visible s = true → TrimSpace s = s.
Proof.
  intros Hs. pose proof spaces_not_visible as Hsp. rewrite forallb_forall in Hsp.
  assert (List.find (HasPrefix s) spaces = None ∧ List.find (HasSuffix s) spaces = None) as [Hl Hr].
  { split; apply existsb_find_None; intros x Hx%list_elem_of_In%Hsp; apply not_true_iff_false; intros H.
    - by rewrite (HasPrefix_forall _ _ _ H Hs) in Hx.
    - by rewrite (HasSuffix_forall _ _ _ H Hs) in Hx. }
  assert (∀ n, trim_left n s = s ∧ trim_right n s = s) as Ht.
  { intros [|n]; cbn [trim_left trim_right]; [done|]. by rewrite Hl, Hr. }
  unfold TrimSpace. by rewrite (proj1 (Ht _)), (proj2 (Ht _)).
Qed.

Lemma string_rev_involutive s : string_rev_app (string_rev_app s "") "" = s.
Proof.
  assert (∀ s t, string_rev_app (string_rev_app s t) "" = string_rev_app t s) as H;
    [|by rewrite H].
  clear. induction s as [|a s IH]; intros t; simpl; [|by rewrite IH].
  done.
Qed.

Lemma forall_bytes_rev f s t :
  forall_bytes f (string_rev_app s t) = forall_bytes f s && forall_bytes f t.
Proof.
  revert t. induction s as [|a s IH]; intros t; simpl; [done|].
  rewrite IH. simpl. by destruct (f a), (forall_bytes f s), (forall_bytes f t).
Qed.

Lemma TrimLeft_id s cutset :
  forall_bytes (λ a, negb (has_byte a cutset)) s = true → TrimLeft s cutset = s.
Proof. destruct s as [|a s]; simpl; [done|]. by destruct (has_byte a cutset). Qed.

Lemma Trim_id s cutset :
  forall_bytes (λ a, negb (has_byte a cutset)) s = true → Trim s cutset = s.
Proof.
  intros Hs. unfold Trim. rewrite (TrimLeft_id s) by done. rewrite TrimLeft_id.
  - apply string_rev_involutive.
  - by rewrite forall_bytes_rev, Hs.
Qed.

Lemma TrimLeft_length s cutset : (String.length (TrimLeft s cutset) ≤ String.length s)%nat.
Proof. induction s as [|a s IH]; simpl; [done|]. destruct (has_byte a cutset); simpl; lia. Qed.

Lemma string_rev_length s t :
  String.length (string_rev_app s t) = (String.length s + String.length t)%nat.
Proof. revert t. induction s as [|a s IH]; intros t; simpl; [done|]. rewrite IH. simpl. lia. Qed.

Lemma Trim_length s cutset : (String.length (Trim s cutset) ≤ String.length s)%nat.
Proof.
  unfold Trim. rewrite string_rev_length. simpl. rewrite Nat.add_0_r.
  pose proof (TrimLeft_length s cutset).
  pose proof (TrimLeft_length (string_rev_app (TrimLeft s cutset) "") cutset) as Hr.
  rewrite string_rev_length in Hr. simpl in Hr. lia.
Qed.

Lemma substring_length n m s : (String.length (String.substring n m s) ≤ m)%nat.
Proof.
  revert n m. induction s as [|a s IH]; intros [|n] [|m]; simpl; try lia.
  - specialize (IH 0%nat m). lia.
  - apply IH.
  - apply IH.
Qed.

Lemma Join_length_le (f : string → string) sep ps :
  (∀ p, (String.length (f p) ≤ String.length p)%nat) →
  (String.length (Join sep (f <$> ps)) ≤ String.length (Join sep ps))%nat.
Proof.
  intros Hf. induction ps as [|p ps IH]; [done|]. destruct ps as [|q ps]; [apply Hf|].
  change (Join sep (f <$> p :: q :: ps)) with (f p +:+ String sep (Join sep (f <$> q :: ps))).
  change (Join sep (p :: q :: ps)) with (p +:+ String sep (Join sep (q :: ps))).
  rewrite !string_app_length. specialize (Hf p). cbn [String.length]. lia.
Qed.

Lemma Join_tail_length sep p ps :
  (String.length (Join sep ps) ≤ String.length (Join sep (p :: ps)))%nat.
Proof.
  destruct ps as [|q ps]; [simpl; lia|].
  change (Join sep (p :: q :: ps)) with (p +:+ String sep (Join sep (q :: ps))).
  rewrite string_app_length. cbn [String.length]. lia.
Qed.

Lemma Join_hd_length sep ps : (String.length (hd "" ps) ≤ String.length (Join sep ps))%nat.
Proof.
  destruct ps as [|p [|q ps]]; [done|done|].
  change (Join sep (p :: q :: ps)) with (p +:+ String sep (Join sep (q :: ps))).
  rewrite string_app_length. simpl. lia.
Qed.

Lemma ReplaceByte_id s old new : has_byte old s = false → ReplaceByte s old new = s.
Proof.
  unfold ReplaceByte. induction s as [|a s IH]; simpl; [done|].
  rewrite orb_false_iff. intros [-> Hs]. by rewrite IH.
Qed.

(** ** Decimal numbers *)

Definition digit (a : ascii) : option Z :=
  let n := Z.of_nat (nat_of_ascii a) in
  if (48 <=? n) && (n <=? 57) then Some (n - 48) else None.

Definition is_digit (a : ascii) : bool := match digit a with Some _ => true | None => false end.

Fixpoint parse_digits (s : string) (acc : Z) : option Z :=
  match s with
  | EmptyString => Some acc
  | String a s => match digit a with Some d => parse_digits s (acc * 10 + d) | None => None end
  end.

(** [strconv.ParseUint(s, 10, 64)] and [strconv.ParseInt(s, 10, 64)]. *)
Definition ParseUint (s : string) : option Z :=
  if bool_decide (s = "") then None
  else match parse_digits s 0 with
       | Some v => if v <? 2 ^ 64 then Some v else None
       | None => None
       end.

Definition ParseInt (s : string) : option Z :=
  let '(neg, s) := match s with
                   | String "-" s => (true, s)
                   | String "+" s => (false, s)
                   | _ => (false, s)
                   end in
  match ParseUint s with
  | Some v =>
    if negb neg && (2 ^ 63 <=? v) then None
    else if neg && (2 ^ 63 <? v) then None
    else Some (if neg then - v else v)
  | None => None
  end.

(** The decimal digits of a natural number, and an integer as [%v] prints it. *)
Definition FormatUint (n : Z) : string := pretty (Z.to_N n).
Definition FormatInt (n : Z) : string := if n <? 0 then "-" +:+ FormatUint (- n) else FormatUint n.

Lemma pretty_N_char_digit (x : N) : (x < 10)%N → digit (pretty_N_char x) = Some (Z.of_N x).
Proof.
  intros Hx. assert (x = 0 ∨ x = 1 ∨ x = 2 ∨ x = 3 ∨ x = 4 ∨ x = 5 ∨ x = 6 ∨ x = 7 ∨ x = 8 ∨ x = 9)%N
    as H by lia. by destruct_or! H; subst.
Qed.

Lemma parse_pretty_go x s :
  parse_digits (pretty_N_go x s) 0 = parse_digits s (Z.of_N x) ∧
  (forall_bytes is_digit s = true → forall_bytes is_digit (pretty_N_go x s) = true) ∧
  (x ≠ 0%N ∨ s ≠ "" → pretty_N_go x s ≠ "").
Proof.
  revert s. induction (N.lt_wf_0 x) as [x _ IH]; intros s.
  destruct (decide (x = 0%N)) as [->|Hx].
  { rewrite pretty_N_go_0. naive_solver. }
  rewrite pretty_N_go_step by lia.
  assert (x `div` 10 < x)%N as Hlt by (apply N.div_lt; lia).
  assert (x `mod` 10 < 10)%N as Hm by (apply N.mod_lt; lia).
  destruct (IH (x `div` 10)%N Hlt (String (pretty_N_char (x `mod` 10)) s)) as (H1 & H2 & H3).
  split_and!; [|intros Hs; apply H2; simpl; rewrite Hs; unfold is_digit; by rewrite pretty_N_char_digit|
    intros _; apply H3; by right].
  rewrite H1. simpl. rewrite pretty_N_char_digit by done. f_equal.
  pose proof (N.div_mod x 10). lia.
Qed.

Lemma parse_FormatUint n :
  0 ≤ n → parse_digits (FormatUint n) 0 = Some n ∧ forall_bytes is_digit (FormatUint n) = true ∧
    FormatUint n ≠ "".
Proof.
  intros Hn. unfold FormatUint, pretty, pretty_N. case_decide as H0.
  - assert (n = 0) as -> by lia. done.
  - destruct (parse_pretty_go (Z.to_N n) "") as (H1 & H2 & H3).
    rewrite H1. simpl. rewrite Z2N.id by lia. naive_solver.
Qed.

Lemma ParseUint_Format n : 0 ≤ n < 2 ^ 64 → ParseUint (FormatUint n) = Some n.
Proof.
  intros Hn. destruct (parse_FormatUint n) as (H1 & _ & H3); [lia|]. unfold ParseUint.
  rewrite bool_decide_false, H1 by done. destruct (Z.ltb_spec n (2 ^ 64)); [done|lia].
Qed.
