(* ===== verification/Runes.v ===== *)
(** * Bytes and runes ([common/utils/strings.go], [unicode/utf8])

    The bytes of a string, the conversions between strings and runes that the Go
    language has ([[]rune(s)] and [string(a)]), and [utils.Reverse], which
    reverses a string rune by rune.  On ASCII strings it reverses the bytes. *)

From Stdlib Require Import Ascii.
From S2P Require Import Prelude Wire GoStrings.

(** ** The bytes of a string *)

Definition byte_of (a : ascii) : Z := Z.of_nat (nat_of_ascii a).
Definition ascii_of (b : Z) : ascii := ascii_of_nat (Z.to_nat b).

Fixpoint sbytes (s : string) : list Z :=
  match s with
  | EmptyString => []
  | String a s => byte_of a :: sbytes s
  end.

Fixpoint of_bytes (l : list Z) : string :=
  match l with
  | [] => EmptyString
  | b :: l => String (ascii_of b) (of_bytes l)
  end.

(** ** UTF-8 *)

Definition RuneSelf : Z := 128.
Definition RuneError : Z := 65533.

(** A continuation byte, and the six low bits it carries. *)
Definition cont (b : Z) : bool := (128 <=? b) && (b <=? 191).
Definition low6 (b : Z) : Z := Z.land b 63.

(** The second byte that may follow [b0]: overlong forms, surrogates and runes above
    the largest one are excluded there. *)
Definition second (b0 b1 : Z) : bool :=
  if b0 =? 224 then (160 <=? b1) && (b1 <=? 191)
  else if b0 =? 237 then (128 <=? b1) && (b1 <=? 159)
  else if b0 =? 240 then (144 <=? b1) && (b1 <=? 191)
  else if b0 =? 244 then (128 <=? b1) && (b1 <=? 143)
  else cont b1.

Definition lead2 (b : Z) : bool := (194 <=? b) && (b <=? 223).
Definition lead3 (b : Z) : bool := (224 <=? b) && (b <=? 239).
Definition lead4 (b : Z) : bool := (240 <=? b) && (b <=? 244).

Definition rune2 (b0 b1 : Z) : Z := Z.lor (Z.shiftl (Z.land b0 31) 6) (low6 b1).
Definition rune3 (b0 b1 b2 : Z) : Z :=
  Z.lor (Z.shiftl (Z.land b0 15) 12) (Z.lor (Z.shiftl (low6 b1) 6) (low6 b2)).
Definition rune4 (b0 b1 b2 b3 : Z) : Z :=
  Z.lor (Z.shiftl (Z.land b0 7) 18)
    (Z.lor (Z.shiftl (low6 b1) 12) (Z.lor (Z.shiftl (low6 b2) 6) (low6 b3))).

(** [[]rune(s)]: a byte that starts no valid sequence is the rune U+FFFD. *)
Fixpoint runes (s : list Z) : list Z :=
  match s with
  | [] => []
  | b0 :: s1 =>
    if b0 <? RuneSelf then b0 :: runes s1
    else
      match s1 with
      | b1 :: s2 =>
        if lead2 b0 && second b0 b1 then rune2 b0 b1 :: runes s2
        else
          match s2 with
          | b2 :: s3 =>
            if lead3 b0 && second b0 b1 && cont b2 then rune3 b0 b1 b2 :: runes s3
            else
              match s3 with
              | b3 :: s4 =>
                if lead4 b0 && second b0 b1 && cont b2 && cont b3
                then rune4 b0 b1 b2 b3 :: runes s4
                else RuneError :: runes s1
              | [] => RuneError :: runes s1
              end
          | [] => RuneError :: runes s1
          end
      | [] => RuneError :: runes s1
      end
  end.

(** The bytes of [string(r)]. *)
Definition encodeRune (r : Z) : list Z :=
  let tail k := Z.lor 128 (Z.land (Z.shiftr r k) 63) in
  if (0 <=? r) && (r <? 128) then [r]
  else if (0 <=? r) && (r <? 2048) then [Z.lor 192 (Z.shiftr r 6); tail 0]
  else if (r <? 0) || (1114111 <? r) || ((55296 <=? r) && (r <=? 57343)) then [239; 191; 189]
  else if r <? 65536 then [Z.lor 224 (Z.shiftr r 12); tail 6; tail 0]
  else [Z.lor 240 (Z.shiftr r 18); tail 12; tail 6; tail 0].

(** [utils.Reverse] on the bytes of a string. *)
Definition reverse_runes (s : list Z) : list Z :=
  mjoin (encodeRune <$> reverse (runes s)).

Definition Reverse (s : string) : string := of_bytes (reverse_runes (sbytes s)).

(** ** Lemmas *)

Lemma byte_of_range a : 0 ≤ byte_of a < 256.
Proof. unfold byte_of. pose proof (nat_ascii_bounded a). lia. Qed.

Lemma ascii_of_byte_of a : ascii_of (byte_of a) = a.
Proof. unfold ascii_of, byte_of. rewrite Nat2Z.id. apply ascii_nat_embedding. Qed.

Lemma byte_of_ascii_of b : 0 ≤ b < 256 → byte_of (ascii_of b) = b.
Proof. intros. unfold ascii_of, byte_of. rewrite nat_ascii_embedding; lia. Qed.

#[global] Instance byte_of_inj : Inj (=) (=) byte_of.
Proof. intros a b H. by rewrite <- (ascii_of_byte_of a), H, ascii_of_byte_of. Qed.

Lemma of_bytes_sbytes s : of_bytes (sbytes s) = s.
Proof. induction s as [|a s IH]; simpl; [done|]. by rewrite ascii_of_byte_of, IH. Qed.

Lemma sbytes_of_bytes l : Forall is_byte l → sbytes (of_bytes l) = l.
Proof. induction 1 as [|b l Hb _ IH]; simpl; [done|]. by rewrite byte_of_ascii_of, IH. Qed.

#[global] Instance sbytes_inj : Inj (=) (=) sbytes.
Proof. intros s t H. by rewrite <- (of_bytes_sbytes s), H, of_bytes_sbytes. Qed.

Lemma sbytes_is_byte s : Forall is_byte (sbytes s).
Proof. induction s; constructor; [apply byte_of_range|done]. Qed.

Lemma sbytes_app s t : sbytes (s +:+ t) = sbytes s ++ sbytes t.
Proof. induction s as [|a s IH]; simpl; [done|]. by f_equal. Qed.

Lemma sbytes_length s : length (sbytes s) = String.length s.
Proof. induction s; simpl; auto. Qed.

(** ASCII byte strings are their own runes. *)
Definition ascii_only (l : list Z) : Prop := Forall (λ b, 0 ≤ b < RuneSelf) l.

Lemma runes_ascii l : ascii_only l → runes l = l.
Proof.
  induction 1 as [|b l Hb _ IH]; simpl; [done|].
  assert ((b <? RuneSelf) = true) as -> by lia. by rewrite IH.
Qed.

Lemma encode_ascii l : ascii_only l → mjoin (encodeRune <$> l) = l.
Proof.
  induction 1 as [|b l Hb _ IH]; [done|]. csimpl. rewrite IH. unfold encodeRune, RuneSelf in *.
  by assert (((0 <=? b) && (b <? 128)) = true) as -> by lia.
Qed.

Lemma reverse_runes_ascii l : ascii_only l → reverse_runes l = reverse l.
Proof.
  intros Ha. unfold reverse_runes. rewrite runes_ascii by done.
  apply encode_ascii. by apply Forall_reverse.
Qed.

Lemma ascii_is_byte l : ascii_only l → Forall is_byte l.
Proof. intros Ha. eapply Forall_impl; [exact Ha|]. unfold is_byte, RuneSelf. lia. Qed.

Lemma sbytes_Reverse s : ascii_only (sbytes s) → sbytes (Reverse s) = reverse (sbytes s).
Proof.
  intros Ha. unfold Reverse. rewrite reverse_runes_ascii by done.
  apply sbytes_of_bytes, Forall_reverse, ascii_is_byte, Ha.
Qed.
