(* ===== verification/NetIP.v ===== *)
(** * IP addresses and prefixes: Go's [net/netip]

    The operations of the standard library that the core uses on addresses,
    written on their numeric value: the zero [Addr], a 32-bit IPv4 address or a
    128-bit IPv6 address with its zone. *)

From S2P Require Import Prelude Wire.

Inductive Addr : Type :=
| AddrZero
| Addr4 (v : Z)
| Addr6 (v : Z) (zone : string).

#[global] Instance Addr_eq_dec : EqDecision Addr.
Proof. solve_decision. Defined.

#[global] Instance Addr_countable : Countable Addr.
Proof.
  refine (inj_countable'
    (λ a, match a with
          | AddrZero => inl ()
          | Addr4 v => inr (inl v)
          | Addr6 v z => inr (inr (v, z))
          end)
    (λ s, match s with
          | inl _ => AddrZero
          | inr (inl v) => Addr4 v
          | inr (inr (v, z)) => Addr6 v z
          end) _).
  by intros [].
Defined.

(** Values in range for their family. *)
Definition addr_ok (a : Addr) : Prop :=
  match a with
  | AddrZero => True
  | Addr4 v => 0 ≤ v < 2 ^ 32
  | Addr6 v _ => 0 ≤ v < 2 ^ 128
  end.

Definition IsValid (a : Addr) : bool :=
  match a with AddrZero => false | _ => true end.

Definition BitLen (a : Addr) : Z :=
  match a with AddrZero => 0 | Addr4 _ => 32 | Addr6 _ _ => 128 end.

Definition Is4 (a : Addr) : bool :=
  match a with Addr4 _ => true | _ => false end.

Definition Is6 (a : Addr) : bool :=
  match a with Addr6 _ _ => true | _ => false end.

Definition Is4In6 (a : Addr) : bool :=
  match a with Addr6 v _ => Z.shiftr v 32 =? 65535 | _ => false end.

Definition Unmap (a : Addr) : Addr :=
  match a with
  | Addr6 v _ => if Is4In6 a then Addr4 (v mod 2 ^ 32) else a
  | _ => a
  end.

Definition WithZone (a : Addr) (z : string) : Addr :=
  match a with Addr6 v _ => Addr6 v z | _ => a end.

Definition hasZone (a : Addr) : bool :=
  match a with Addr6 _ z => negb (bool_decide (z = "")) | _ => false end.

Definition AsSlice (a : Addr) : list Z :=
  match a with
  | AddrZero => []
  | Addr4 v => be 4 v
  | Addr6 v _ => be 16 v
  end.

(** [Addr.Less] for addresses of the same zone. *)
Definition Less (a b : Addr) : bool :=
  if BitLen a =? BitLen b then
    match a, b with
    | Addr4 x, Addr4 y => x <? y
    | Addr6 x _, Addr6 y _ => x <? y
    | _, _ => false
    end
  else BitLen a <? BitLen b.

Definition Next (a : Addr) : Addr :=
  match a with
  | AddrZero => AddrZero
  | Addr4 v => if v + 1 =? 2 ^ 32 then AddrZero else Addr4 (v + 1)
  | Addr6 v z => if v + 1 =? 2 ^ 128 then AddrZero else Addr6 (v + 1) z
  end.

Definition Prev (a : Addr) : Addr :=
  match a with
  | AddrZero => AddrZero
  | Addr4 v => if v =? 0 then AddrZero else Addr4 (v - 1)
  | Addr6 v z => if v =? 0 then AddrZero else Addr6 (v - 1) z
  end.

(** [netip.Prefix]; [bits = -1] is the invalid prefix. *)
Record Prefix := mkPrefix { pip : Addr; pbits : Z }.

Definition PrefixIsValid (p : Prefix) : bool :=
  (0 <=? pbits p) && (pbits p <=? BitLen (pip p)) && IsValid (pip p).

(** The value of an address. *)
Definition aval (a : Addr) : Z :=
  match a with AddrZero => 0 | Addr4 v => v | Addr6 v _ => v end.

Definition PrefixContains (p : Prefix) (a : Addr) : bool :=
  PrefixIsValid p && negb (hasZone a) && (BitLen (pip p) =? BitLen a) &&
  negb (BitLen a =? 0) &&
  (Z.shiftr (aval (pip p)) (BitLen a - pbits p) =?
   Z.shiftr (aval a) (BitLen a - pbits p)).

(** [Prefix.Masked().Addr()]: the address with the host bits cleared. *)
Definition MaskedAddr (p : Prefix) : Addr :=
  let clear v n := Z.shiftl (Z.shiftr v n) n in
  if PrefixIsValid p then
    match pip p with
    | AddrZero => AddrZero
    | Addr4 v => Addr4 (clear v (32 - pbits p))
    | Addr6 v _ => Addr6 (clear v (128 - pbits p)) ""
    end
  else AddrZero.

(** [netip.AddrPort]. *)
Record AddrPort := mkAddrPort { apAddr : Addr; apPort : Z }.
#[global] Instance AddrPort_eq_dec : EqDecision AddrPort.
Proof. solve_decision. Defined.
#[global] Instance AddrPort_countable : Countable AddrPort.
Proof.
  refine (inj_countable' (λ p, (apAddr p, apPort p)) (λ p, mkAddrPort p.1 p.2) _). by intros [].
Defined.

Definition AddrPortIsValid (p : AddrPort) : bool := IsValid (apAddr p).

Lemma length_AsSlice4 v : length (AsSlice (Addr4 v)) = 4%nat.
Proof. apply length_be. Qed.

Lemma length_AsSlice6 v z : length (AsSlice (Addr6 v z)) = 16%nat.
Proof. apply length_be. Qed.
