(* ===== verification/TuicV5.v ===== *)
(** * The TUIC v5 command format and UDP reassembly
      ([transport/tuic/v5/protocol.go], [transport/tuic/v5/frag.go])

    Each command is a record with its writer and its reader; [Codec] instances
    state that they agree.  The fragmenter and the reassembler of [frag.go] follow
    in [Module Frag]. *)

From S2P Require Import Prelude Wire NetIP Metadata.

Definition CommandType := Z.
Definition AuthenticateType : CommandType := 0.
Definition ConnectType : CommandType := 1.
Definition PacketType : CommandType := 2.
Definition DissociateType : CommandType := 3.
Definition HeartbeatType : CommandType := 4.

Definition VER : Z := 5.

(** [%#x] of a byte. *)
Definition hex_digit (d : Z) : string :=
  match Z.to_nat d with
  | 0 => "0" | 1 => "1" | 2 => "2" | 3 => "3" | 4 => "4" | 5 => "5" | 6 => "6"
  | 7 => "7" | 8 => "8" | 9 => "9" | 10 => "a" | 11 => "b" | 12 => "c" | 13 => "d"
  | 14 => "e" | _ => "f"
  end%nat.
Definition hex_byte (b : Z) : string :=
  "0x" +:+ (if b <? 16 then "" else hex_digit (b / 16)) +:+ hex_digit (b mod 16).

Definition CommandType_String (c : CommandType) : string :=
  if c =? AuthenticateType then "Authenticate"
  else if c =? ConnectType then "Connect"
  else if c =? PacketType then "Packet"
  else if c =? DissociateType then "Dissociate"
  else if c =? HeartbeatType then "Heartbeat"
  else "UnknowCommand: " +:+ hex_byte c.

Definition CommandType_BytesLen (c : CommandType) : Z := 1.

Definition wrong_type (c : CommandType) : goerr :=
  ErrMsg ("error command type: " +:+ CommandType_String c).

(** ** Command heads *)

Record CommandHead := mkCommandHead { head_VER : Z; head_TYPE : CommandType }.

Definition NewCommandHead (TYPE : CommandType) : CommandHead := mkCommandHead VER TYPE.

Definition ReadCommandHead : rd CommandHead :=
  v ← ReadByte;
  t ← ReadByte;
  mret (mkCommandHead v t).

Definition CommandHead_WriteTo `{Writer W} (w : W) (c : CommandHead) : result W :=
  w ← WriteByte w (head_VER c);
  WriteByte w (head_TYPE c).

Definition CommandHead_BytesLen (c : CommandHead) : Z :=
  1 + CommandType_BytesLen (head_TYPE c).

(** ** Addresses *)

Definition AtypDomainName : Z := 0.
Definition AtypIPv4 : Z := 1.
Definition AtypIPv6 : Z := 2.
Definition AtypNone : Z := 255.

Record Address := mkAddress { addr_TYPE : Z; addr_ADDR : list Z; addr_PORT : Z }.

Definition NewAddress (metadata : Metadata) : Address :=
  let t := Metadata_AddrType metadata in
  let '(addrType, addr) :=
    if t =? C_AtypIPv4 then (AtypIPv4, AsSlice (DstIP metadata))
    else if t =? C_AtypIPv6 then (AtypIPv6, AsSlice (DstIP metadata))
    else if t =? C_AtypDomainName then
      let host := string_bytes (Host metadata) in
      (AtypDomainName, u8 (len host) :: host)
    else (0, []) in
  mkAddress addrType addr (DstPort metadata).

Definition NewAddressAddrPort (addrPort : AddrPort) : Address :=
  let port := apPort addrPort in
  let addr := Unmap (apAddr addrPort) in
  let addrType := if Is4 addr then AtypIPv4 else AtypIPv6 in
  mkAddress addrType (AsSlice addr) port.

Definition ReadAddress : rd Address :=
  t ← ReadByte;
  addr ←
    (if t =? AtypIPv4 then ReadFull 4
     else if t =? AtypIPv6 then ReadFull 16
     else if t =? AtypDomainName then
       addrLen ← ReadByte;
       let n := u8 (addrLen + 1) in
       if n =? 0 then rcrash "index out of range"
       else
         rest ← ReadFull (Z.to_nat (n - 1));
         mret (addrLen :: rest)
     else mret []);
  if t =? AtypNone then mret (mkAddress t addr 0)
  else
    port ← ReadBE 2;
    mret (mkAddress t addr port).

Definition Address_WriteTo `{Writer W} (w : W) (c : Address) : result W :=
  w ← WriteByte w (addr_TYPE c);
  if addr_TYPE c =? AtypNone then Ok w
  else
    w ← Write w (addr_ADDR c);
    WriteBE 2 w (addr_PORT c).

Definition Address_SocksAddr (c : Address) : list Z :=
  let atyp :=
    if addr_TYPE c =? AtypIPv4 then 1
    else if addr_TYPE c =? AtypIPv6 then 4
    else if addr_TYPE c =? AtypDomainName then 3
    else 0 in
  atyp :: addr_ADDR c ++ be 2 (addr_PORT c).

(** The IP bytes and the port of the [net.UDPAddr]. *)
Definition Address_UDPAddr (c : Address) : list Z * Z := (addr_ADDR c, addr_PORT c).

Definition Address_BytesLen (c : Address) : Z := 1 + len (addr_ADDR c) + 2.

(** ** Commands *)

Record Authenticate := mkAuthenticate {
  auth_head : CommandHead; auth_UUID : list Z; auth_TOKEN : list Z }.

Definition NewAuthenticate (UUID TOKEN : list Z) : Authenticate :=
  mkAuthenticate (NewCommandHead AuthenticateType) UUID TOKEN.

Definition ReadAuthenticateWithHead (head : CommandHead) : rd Authenticate :=
  if negb (head_TYPE head =? AuthenticateType) then rfail (wrong_type (head_TYPE head))
  else
    uuid ← ReadFull 16;
    token ← ReadFull 32;
    mret (mkAuthenticate head uuid token).

Definition ReadAuthenticate : rd Authenticate :=
  head ← ReadCommandHead;
  ReadAuthenticateWithHead head.

Definition Authenticate_WriteTo `{Writer W} (w : W) (c : Authenticate) : result W :=
  w ← CommandHead_WriteTo w (auth_head c);
  w ← Write w (auth_UUID c);
  Write w (auth_TOKEN c).

Definition Authenticate_BytesLen (c : Authenticate) : Z :=
  CommandHead_BytesLen (auth_head c) + 16 + 32.

Record Connect := mkConnect { conn_head : CommandHead; conn_ADDR : Address }.

Definition NewConnect (ADDR : Address) : Connect :=
  mkConnect (NewCommandHead ConnectType) ADDR.

Definition ReadConnectWithHead (head : CommandHead) : rd Connect :=
  if negb (head_TYPE head =? ConnectType) then rfail (wrong_type (head_TYPE head))
  else
    addr ← ReadAddress;
    mret (mkConnect head addr).

Definition ReadConnect : rd Connect :=
  head ← ReadCommandHead;
  ReadConnectWithHead head.

Definition Connect_WriteTo `{Writer W} (w : W) (c : Connect) : result W :=
  w ← CommandHead_WriteTo w (conn_head c);
  Address_WriteTo w (conn_ADDR c).

Definition Connect_BytesLen (c : Connect) : Z :=
  CommandHead_BytesLen (conn_head c) + Address_BytesLen (conn_ADDR c).

Record Packet := mkPacket {
  pkt_head : CommandHead;
  ASSOC_ID : Z;
  PKT_ID : Z;
  FRAG_TOTAL : Z;
  FRAG_ID : Z;
  SIZE : Z;
  ADDR : Address;
  DATA : list Z;
}.

Definition NewPacket (assoc pkt fragTotal fragId size : Z) (addr : Address)
    (data : list Z) : Packet :=
  mkPacket (NewCommandHead PacketType) assoc pkt fragTotal fragId size addr data.

Definition ReadPacketWithHead (head : CommandHead) : rd Packet :=
  if negb (head_TYPE head =? PacketType) then rfail (wrong_type (head_TYPE head))
  else
    assoc ← ReadBE 2;
    pkt ← ReadBE 2;
    fragTotal ← ReadBE 1;
    fragId ← ReadBE 1;
    size ← ReadBE 2;
    addr ← ReadAddress;
    data ← ReadFull (Z.to_nat size);
    mret (mkPacket head assoc pkt fragTotal fragId size addr data).

Definition ReadPacket : rd Packet :=
  head ← ReadCommandHead;
  ReadPacketWithHead head.

Definition Packet_WriteTo `{Writer W} (w : W) (c : Packet) : result W :=
  w ← CommandHead_WriteTo w (pkt_head c);
  w ← WriteBE 2 w (ASSOC_ID c);
  w ← WriteBE 2 w (PKT_ID c);
  w ← WriteBE 1 w (FRAG_TOTAL c);
  w ← WriteBE 1 w (FRAG_ID c);
  w ← WriteBE 2 w (SIZE c);
  w ← Address_WriteTo w (ADDR c);
  Write w (DATA c).

Definition Packet_BytesLen (c : Packet) : Z :=
  CommandHead_BytesLen (pkt_head c) + 4 + 2 + Address_BytesLen (ADDR c) + len (DATA c).

Definition PacketOverHead : Z :=
  Packet_BytesLen
    (NewPacket 0 0 0 0 0 (NewAddressAddrPort (mkAddrPort (Addr6 0 "") 0)) []).

Record Dissociate := mkDissociate { diss_head : CommandHead; diss_ASSOC_ID : Z }.

Definition NewDissociate (assoc : Z) : Dissociate :=
  mkDissociate (NewCommandHead DissociateType) assoc.

Definition ReadDissociateWithHead (head : CommandHead) : rd Dissociate :=
  if negb (head_TYPE head =? DissociateType) then rfail (wrong_type (head_TYPE head))
  else
    assoc ← ReadBE 2;
    mret (mkDissociate head assoc).

Definition ReadDissociate : rd Dissociate :=
  head ← ReadCommandHead;
  ReadDissociateWithHead head.

Definition Dissociate_WriteTo `{Writer W} (w : W) (c : Dissociate) : result W :=
  w ← CommandHead_WriteTo w (diss_head c);
  WriteBE 2 w (diss_ASSOC_ID c).

Definition Dissociate_BytesLen (c : Dissociate) : Z :=
  CommandHead_BytesLen (diss_head c) + 4.

Record Heartbeat := mkHeartbeat { hb_head : CommandHead }.

Definition NewHeartbeat : Heartbeat := mkHeartbeat (NewCommandHead HeartbeatType).

Definition ReadHeartbeatWithHead (head : CommandHead) : rd Heartbeat :=
  if negb (head_TYPE head =? HeartbeatType) then rfail (wrong_type (head_TYPE head))
  else mret (mkHeartbeat head).

Definition ReadHeartbeat : rd Heartbeat :=
  head ← ReadCommandHead;
  ReadHeartbeatWithHead head.

(** ** The bytes on the wire *)

Definition CommandHead_bytes (c : CommandHead) : list Z := [head_VER c; head_TYPE c].

Definition Address_bytes (c : Address) : list Z :=
  addr_TYPE c ::
  (if addr_TYPE c =? AtypNone then [] else addr_ADDR c ++ be 2 (addr_PORT c)).

Definition Authenticate_bytes (c : Authenticate) : list Z :=
  CommandHead_bytes (auth_head c) ++ auth_UUID c ++ auth_TOKEN c.

Definition Connect_bytes (c : Connect) : list Z :=
  CommandHead_bytes (conn_head c) ++ Address_bytes (conn_ADDR c).

Definition Packet_bytes (c : Packet) : list Z :=
  CommandHead_bytes (pkt_head c) ++ be 2 (ASSOC_ID c) ++ be 2 (PKT_ID c) ++
  be 1 (FRAG_TOTAL c) ++ be 1 (FRAG_ID c) ++ be 2 (SIZE c) ++
  Address_bytes (ADDR c) ++ DATA c.

Definition Dissociate_bytes (c : Dissociate) : list Z :=
  CommandHead_bytes (diss_head c) ++ be 2 (diss_ASSOC_ID c).

Lemma CommandHead_WriteTo_buffer (w : list Z) c :
  CommandHead_WriteTo w c = Ok (w ++ CommandHead_bytes c).
Proof. unfold CommandHead_WriteTo. by wr_run. Qed.

Lemma Address_WriteTo_buffer (w : list Z) c :
  Address_WriteTo w c = Ok (w ++ Address_bytes c).
Proof.
  unfold Address_WriteTo, Address_bytes. wr_run. simpl.
  destruct (addr_TYPE c =? AtypNone); [done|]. by rewrite <- ?app_assoc.
Qed.

Lemma Authenticate_WriteTo_buffer (w : list Z) c :
  Authenticate_WriteTo w c = Ok (w ++ Authenticate_bytes c).
Proof.
  unfold Authenticate_WriteTo. rewrite CommandHead_WriteTo_buffer. by wr_run.
Qed.

Lemma Connect_WriteTo_buffer (w : list Z) c :
  Connect_WriteTo w c = Ok (w ++ Connect_bytes c).
Proof.
  unfold Connect_WriteTo. rewrite CommandHead_WriteTo_buffer. wr_run.
  rewrite Address_WriteTo_buffer. by wr_run.
Qed.

Lemma Packet_WriteTo_buffer (w : list Z) c :
  Packet_WriteTo w c = Ok (w ++ Packet_bytes c).
Proof.
  unfold Packet_WriteTo. rewrite CommandHead_WriteTo_buffer. wr_run.
  rewrite Address_WriteTo_buffer. unfold Packet_bytes. by rewrite <- ?app_assoc.
Qed.

Lemma Dissociate_WriteTo_buffer (w : list Z) c :
  Dissociate_WriteTo w c = Ok (w ++ Dissociate_bytes c).
Proof.
  unfold Dissociate_WriteTo. rewrite CommandHead_WriteTo_buffer. by wr_run.
Qed.

(** ** Well-formed commands *)

(** An address as its constructors build it; a domain name has at most 254
    bytes (see [tuic_domain_255_crashes]). *)
Inductive Address_ok : Address → Prop :=
| ok_ipv4 a p : length a = 4%nat → u16_ok p → Address_ok (mkAddress AtypIPv4 a p)
| ok_ipv6 a p : length a = 16%nat → u16_ok p → Address_ok (mkAddress AtypIPv6 a p)
| ok_domain d p : len d < 255 → u16_ok p →
    Address_ok (mkAddress AtypDomainName (len d :: d) p)
| ok_none : Address_ok (mkAddress AtypNone [] 0).

Definition Authenticate_ok (c : Authenticate) : Prop :=
  head_TYPE (auth_head c) = AuthenticateType ∧
  length (auth_UUID c) = 16%nat ∧ length (auth_TOKEN c) = 32%nat.

Definition Connect_ok (c : Connect) : Prop :=
  head_TYPE (conn_head c) = ConnectType ∧ Address_ok (conn_ADDR c).

Record Packet_ok (c : Packet) : Prop := {
  ok_type : head_TYPE (pkt_head c) = PacketType;
  ok_assoc : u16_ok (ASSOC_ID c);
  ok_pkt : u16_ok (PKT_ID c);
  ok_total : u8_ok (FRAG_TOTAL c);
  ok_id : u8_ok (FRAG_ID c);
  ok_size : u16_ok (SIZE c);
  ok_addr : Address_ok (ADDR c);
  ok_data : len (DATA c) = SIZE c;
}.

Definition Dissociate_ok (c : Dissociate) : Prop :=
  head_TYPE (diss_head c) = DissociateType ∧ u16_ok (diss_ASSOC_ID c).

Lemma ReadCommandHead_bytes c rest :
  ReadCommandHead (CommandHead_bytes c ++ rest) = Got c rest.
Proof. by destruct c. Qed.

(** Evaluate the tests on constant type bytes. *)
Ltac eval_types :=
  cbn [AtypIPv4 AtypIPv6 AtypDomainName AtypNone AuthenticateType ConnectType
       PacketType DissociateType HeartbeatType Z.eqb Pos.eqb negb].

Lemma ReadAddress_bytes c rest :
  Address_ok c → ReadAddress (Address_bytes c ++ rest) = Got c rest.
Proof.
  intros [a p Ha Hp|a p Ha Hp|d p Hd Hp|]; unfold ReadAddress, Address_bytes;
    cbn [addr_TYPE addr_ADDR addr_PORT]; [| | |done]; eval_types;
    rewrite <- app_comm_cons, <- app_assoc; rd_step; eval_types.
  - do 2 rd_step.
 done.
  - do 2 rd_step. done.
  - erewrite rd_bind_Got.
    2: { cbn [app]. rd_step. rewrite (wrapu_small 8) by lia.
         destruct (Z.eqb_spec (len d + 1) 0); [lia|].
         replace (Z.to_nat (len d + 1 - 1)) with (length d) by lia.
         rd_step. done. }
    rd_step. done.
Qed.

#[export] Instance mono_ReadAddress : Mono ReadAddress.
Proof. unfold ReadAddress. apply _. Qed.

#[export] Instance mono_ReadCommandHead : Mono ReadCommandHead.
Proof. unfold ReadCommandHead. apply _. Qed.

#[export] Instance Address_codec : Codec Address_ok Address_WriteTo ReadAddress.
Proof.
  split; [|apply _]. intros a w Ha. exists (Address_bytes a).
  split; [apply Address_WriteTo_buffer|]. intros rest. by apply ReadAddress_bytes.
Qed.

(** What follows the head of a command is read back with that head. *)
Lemma ReadAuthenticateWithHead_bytes c rest :
  Authenticate_ok c →
  ReadAuthenticateWithHead (auth_head c) (auth_UUID c ++ auth_TOKEN c ++ rest) = Got c rest.
Proof.
  destruct c as [h u t]. intros (Ht & Hu & Hk). unfold ReadAuthenticateWithHead. simpl in *.
  rewrite Ht. eval_types. by do 2 rd_step.
Qed.

Lemma ReadConnectWithHead_bytes c rest :
  Connect_ok c → ReadConnectWithHead (conn_head c) (Address_bytes (conn_ADDR c) ++ rest) = Got c rest.
Proof.
  destruct c as [h a]. intros (Ht & Ha). unfold ReadConnectWithHead. cbn [conn_head conn_ADDR] in *.
  rewrite Ht. eval_types. by erewrite rd_bind_Got by (by apply ReadAddress_bytes).
Qed.

Lemma ReadPacketWithHead_bytes c rest :
  Packet_ok c →
  ReadPacketWithHead (pkt_head c)
    (be 2 (ASSOC_ID c) ++ be 2 (PKT_ID c) ++ be 1 (FRAG_TOTAL c) ++ be 1 (FRAG_ID c) ++
     be 2 (SIZE c) ++ Address_bytes (ADDR c) ++ DATA c ++ rest) = Got c rest.
Proof.
  destruct c as [h as_ pk ft fi sz a d]. intros [Ht Has Hpk Hft Hfi Hsz Ha Hd].
  unfold ReadPacketWithHead.
  cbn [pkt_head ASSOC_ID PKT_ID FRAG_TOTAL FRAG_ID SIZE ADDR DATA] in *.
  rewrite Ht. eval_types. do 5 rd_step.
  erewrite rd_bind_Got by (by apply ReadAddress_bytes). by rd_step.
Qed.

Lemma ReadDissociateWithHead_bytes c rest :
  Dissociate_ok c →
  ReadDissociateWithHead (diss_head c) (be 2 (diss_ASSOC_ID c) ++ rest) = Got c rest.
Proof.
  destruct c as [h a]. intros (Ht & Ha). unfold ReadDissociateWithHead.
  cbn [diss_head diss_ASSOC_ID] in *. rewrite Ht. eval_types. by rd_step.
Qed.

Lemma ReadAuthenticate_bytes c rest :
  Authenticate_ok c → ReadAuthenticate (Authenticate_bytes c ++ rest) = Got c rest.
Proof.
  intros Hc. unfold ReadAuthenticate, Authenticate_bytes. rewrite <- !app_assoc.
  erewrite rd_bind_Got by apply ReadCommandHead_bytes. by apply ReadAuthenticateWithHead_bytes.
Qed.

Lemma ReadConnect_bytes c rest :
  Connect_ok c → ReadConnect (Connect_bytes c ++ rest) = Got c rest.
Proof.
  intros Hc. unfold ReadConnect, Connect_bytes. rewrite <- !app_assoc.
  erewrite rd_bind_Got by apply ReadCommandHead_bytes. by apply ReadConnectWithHead_bytes.
Qed.

Lemma ReadPacket_bytes c rest :
  Packet_ok c → ReadPacket (Packet_bytes c ++ rest) = Got c rest.
Proof.
  intros Hc. unfold ReadPacket, Packet_bytes. rewrite <- !app_assoc.
  erewrite rd_bind_Got by apply ReadCommandHead_bytes. by apply ReadPacketWithHead_bytes.
Qed.

(** ** A command stream *)

Inductive Command : Type :=
| CmdAuthenticate (c : Authenticate)
| CmdConnect (c : Connect)
| CmdPacket (c : Packet)
| CmdDissociate (c : Dissociate)
| CmdHeartbeat (c : Heartbeat).

Definition Command_ok (c : Command) : Prop :=
  match c with
  | CmdAuthenticate c => Authenticate_ok c
  | CmdConnect c => Connect_ok c
  | CmdPacket c => Packet_ok c
  | CmdDissociate c => Dissociate_ok c
  | CmdHeartbeat c => head_TYPE (hb_head c) = HeartbeatType
  end.

Definition Command_WriteTo `{Writer W} (w : W) (c : Command) : result W :=
  match c with
  | CmdAuthenticate c => Authenticate_WriteTo w c
  | CmdConnect c => Connect_WriteTo w c
  | CmdPacket c => Packet_WriteTo w c
  | CmdDissociate c => Dissociate_WriteTo w c
  | CmdHeartbeat c => CommandHead_WriteTo w (hb_head c)
  end.

(** The peers read the head and dispatch on its type. *)
Definition ReadCommand : rd Command :=
  head ← ReadCommandHead;
  let t := head_TYPE head in
  if t =? AuthenticateType then c ← ReadAuthenticateWithHead head; mret (CmdAuthenticate c)
  else if t =? ConnectType then c ← ReadConnectWithHead head; mret (CmdConnect c)
  else if t =? PacketType then c ← ReadPacketWithHead head; mret (CmdPacket c)
  else if t =? DissociateType then c ← ReadDissociateWithHead head; mret (CmdDissociate c)
  else if t =? HeartbeatType then c ← ReadHeartbeatWithHead head; mret (CmdHeartbeat c)
  else rfail (wrong_type t).

Definition Command_bytes (c : Command) : list Z :=
  match c with
  | CmdAuthenticate c => Authenticate_bytes c
  | CmdConnect c => Connect_bytes c
  | CmdPacket c => Packet_bytes c
  | CmdDissociate c => Dissociate_bytes c
  | CmdHeartbeat c => CommandHead_bytes (hb_head c)
  end.

Lemma Command_WriteTo_buffer (w : list Z) c :
  Command_WriteTo w c = Ok (w ++ Command_bytes c).
Proof.
  destruct c; [apply Authenticate_WriteTo_buffer|apply Connect_WriteTo_buffer
    |apply Packet_WriteTo_buffer|apply Dissociate_WriteTo_buffer
    |apply CommandHead_WriteTo_buffer].
Qed.

Lemma ReadCommand_bytes c rest :
  Command_ok c → ReadCommand (Command_bytes c ++ rest) = Got c rest.
Proof.
  destruct c as [c|c|c|c|c]; simpl; intros Hc;
    unfold Authenticate_bytes, Connect_bytes, Packet_bytes, Dissociate_bytes, ReadCommand;
    rewrite <- ?app_assoc; erewrite rd_bind_Got by apply ReadCommandHead_bytes.
  - rewrite (proj1 Hc). eval_types.
    by erewrite rd_bind_Got by (by apply ReadAuthenticateWithHead_bytes).
  - rewrite (proj1 Hc). eval_types.
    by erewrite rd_bind_Got by (by apply ReadConnectWithHead_bytes).
  - rewrite (ok_type _ Hc). eval_types.
    by erewrite rd_bind_Got by (by apply ReadPacketWithHead_bytes).
  - rewrite (proj1 Hc). eval_types.
    by erewrite rd_bind_Got by (by apply ReadDissociateWithHead_bytes).
  - unfold ReadHeartbeatWithHead. rewrite Hc. eval_types. by destruct c.
Qed.

#[export] Instance Command_codec : Codec Command_ok Command_WriteTo ReadCommand.
Proof.
  split; [|unfold ReadCommand, ReadAuthenticateWithHead, ReadConnectWithHead,
             ReadPacketWithHead, ReadDissociateWithHead, ReadHeartbeatWithHead; apply _].
  intros c w Hc. exists (Command_bytes c).
  split; [apply Command_WriteTo_buffer|]. intros rest. by apply ReadCommand_bytes.
Qed.

(** C17: Any well-formed command, written to a stream that already holds [w], is
    read back exactly and leaves what follows it; a prefix of it that was cut
    short is never taken for a command. *)
Theorem tuic_command_roundtrip c w :
  Command_ok c →
  ∃ bs, Command_WriteTo w c = Ok (w ++ bs) ∧
    (∀ rest, ReadCommand (bs ++ rest) = Got c rest) ∧
    ∀ k c' rest, (k < length bs)%nat → ReadCommand (take k bs) ≠ Got c' rest.
Proof.
  intros Hc. exists (Command_bytes c). split; [apply Command_WriteTo_buffer|].
  split; [intros rest; by apply ReadCommand_bytes|]. intros k c' rest Hk.
  by eapply (codec_truncated Command_ok Command_WriteTo ReadCommand c);
    [apply _| |apply (Command_WriteTo_buffer [])|].
Qed.

Definition sample_packet : Packet :=
  NewPacket 7 9 1 0 3 (NewAddressAddrPort (mkAddrPort (Addr4 16909060) 443)) [10; 11; 12].

Lemma tuic_command_roundtrip_witness :
  ∃ bs, Command_WriteTo [99] (CmdPacket sample_packet) = Ok ([99] ++ bs) ∧
    (∀ rest, ReadCommand (bs ++ rest) = Got (CmdPacket sample_packet) rest) ∧
    ∀ k c' rest, (k < length bs)%nat → ReadCommand (take k bs) ≠ Got c' rest.
Proof.
  apply (tuic_command_roundtrip (CmdPacket sample_packet) [99]).
  split; try done. apply ok_ipv4; done.
Defined.

(** ** Addresses of connections *)

Lemma Valid_cases m : Valid m = true → Host m ≠ "" ∨ IsValid (DstIP m) = true.
Proof.
  unfold Valid. intros [Hn%negb_true_iff|]%orb_true_iff; [|by right].
  left. by apply bool_decide_eq_false in Hn.
Qed.

Lemma NewAddress_ok m :
  u16_ok (DstPort m) → len (string_bytes (Host m)) < 255 → Valid m = true →
  Address_ok (NewAddress m).
Proof.
  intros Hp Hh Hv%Valid_cases. unfold NewAddress, Metadata_AddrType.
  destruct (negb _ || negb _) eqn:E; simpl.
  - rewrite (wrapu_small 8) by lia. by apply ok_domain.
  - apply orb_false_iff in E as [_ E%negb_false_iff].
    destruct (DstIP m) as [|v|v z]; [done| |]; simpl.
    + by apply ok_ipv4.
    + by apply ok_ipv6.
Qed.

(** The CONNECT the client builds for a connection's metadata arrives at the
    server as the same destination, for host names of up to 254 bytes and for IPv4
    and IPv6 destinations. *)
Theorem tuic_connect_metadata m rest :
  u16_ok (DstPort m) → len (string_bytes (Host m)) < 255 → Valid m = true →
  ∃ bs, Connect_WriteTo [] (NewConnect (NewAddress m)) = Ok bs ∧
    ReadConnect (bs ++ rest) = Got (NewConnect (NewAddress m)) rest ∧
    (Host m ≠ "" → addr_ADDR (NewAddress m) =
       len (string_bytes (Host m)) :: string_bytes (Host m)) ∧
    (Host m = "" → addr_ADDR (NewAddress m) = AsSlice (DstIP m)) ∧
    addr_PORT (NewAddress m) = DstPort m.
Proof.
  intros Hp Hh Hv.
  pose proof (Valid_cases m Hv) as Hd.
  exists (Connect_bytes (NewConnect (NewAddress m))). split; [apply (Connect_WriteTo_buffer [])|].
  split_and!.
  - apply ReadConnect_bytes. split; [done|]. by apply NewAddress_ok.
  - intros Hn. unfold NewAddress, Metadata_AddrType. rewrite bool_decide_false by done.
    simpl. by rewrite (wrapu_small 8) by lia.
  - intros He. unfold NewAddress, Metadata_AddrType. rewrite bool_decide_true by done.
    destruct Hd as [?| ->]; [done|]. simpl. by destruct (Is4 (DstIP m)).
  - unfold NewAddress. by repeat case_match.
Qed.

Lemma tuic_connect_metadata_witness :
  ∃ bs, Connect_WriteTo [] (NewConnect (NewAddress (set_Host "example.com" zeroMetadata))) = Ok bs ∧
    ReadConnect (bs ++ [1]) =
      Got (NewConnect (NewAddress (set_Host "example.com" zeroMetadata))) [1].
Proof.
  destruct (tuic_connect_metadata (set_Host "example.com" zeroMetadata) [1])
    as (bs & H1 & H2 & _); [done|vm_compute; done|done|]. by exists bs.
Defined.

(** A domain of 255 bytes, which a peer may send and which [NewAddress] itself
    writes, makes the reader panic: the length byte plus one wraps to zero and the
    buffer of size zero is indexed. *)
Theorem tuic_domain_255_crashes m rest :
  len (string_bytes (Host m)) = 255 →
  Address_WriteTo [] (NewAddress m) = Ok (Address_bytes (NewAddress m)) ∧
  ReadAddress (Address_bytes (NewAddress m) ++ rest) = Crash "index out of range".
Proof.
  intros Hh. split; [apply (Address_WriteTo_buffer [])|].
  assert (Host m ≠ "") as Hn by (intros Heq; by rewrite Heq in Hh).
  unfold NewAddress, Metadata_AddrType. rewrite bool_decide_false by done. simpl.
  by rewrite Hh.
Qed.

Lemma tuic_domain_255_crashes_witness :
  ReadAddress (Address_bytes (NewAddress
     (set_Host (bytes_string (replicate 255 97)) zeroMetadata)) ++ []) = Crash "index out of range".
Proof.
  apply (tuic_domain_255_crashes
    (set_Host (bytes_string (replicate 255 97)) zeroMetadata)). vm_compute. reflexivity.
Defined.

(** ** Announced lengths *)

Lemma length_Address_bytes a :
  addr_TYPE a ≠ AtypNone → len (Address_bytes a) = Address_BytesLen a.
Proof.
  intros Ht. unfold Address_bytes, Address_BytesLen. rewrite (proj2 (Z.eqb_neq _ _)) by done.
  cbn [length]. rewrite length_app, length_be. lia.
Qed.

(** [BytesLen] is the number of bytes written for AUTHENTICATE and CONNECT;
    for PACKET it is two too small (the SIZE field is not counted) and for
    DISSOCIATE two too large. *)
Theorem tuic_bytes_len :
  (∀ c, Authenticate_ok c → len (Authenticate_bytes c) = Authenticate_BytesLen c) ∧
  (∀ c, addr_TYPE (conn_ADDR c) ≠ AtypNone → len (Connect_bytes c) = Connect_BytesLen c) ∧
  (∀ c, addr_TYPE (ADDR c) ≠ AtypNone → len (Packet_bytes c) = Packet_BytesLen c + 2) ∧
  (∀ c, len (Dissociate_bytes c) = Dissociate_BytesLen c - 2).
Proof.
  split_and!.
  - intros c (_ & Hu & Ht). unfold Authenticate_bytes, Authenticate_BytesLen.
    rewrite !length_app, Hu, Ht. done.
  - intros c Ha. unfold Connect_bytes, Connect_BytesLen.
    rewrite length_app, Nat2Z.inj_add, length_Address_bytes by done. done.
  - intros c Ha. unfold Packet_bytes, Packet_BytesLen.
    rewrite !length_app, !length_be, !Nat2Z.inj_add, length_Address_bytes by done.
    unfold CommandHead_BytesLen, CommandType_BytesLen. simpl length. lia.
  - intros c. unfold Dissociate_bytes. by rewrite length_app, length_be.
Qed.
