(* ===== verification/TuicFrag.v ===== *)
(** * TUIC v5 fragmentation ([transport/tuic/v5/frag.go])

    The sender cuts a packet into fragments and sends each as a datagram; the
    receiver collects fragments per packet id in an LRU cache whose entries live
    ten seconds.  Fragments of many packets arrive interleaved and in any order.
    [tuic_fragments_sent] describes what is sent, and [tuic_reassembly] what the
    receiver makes of it; [tuic_udp_end_to_end] is both.  More than 255 fragments are not
    restored ([fragment_count_wraps]). *)

From S2P Require Import Prelude Lru Wire NetIP Metadata TuicV5.

(** ** Sending *)

(** [MaxFragSize]. *)
Definition MaxFragSize : Z := 1200 - PacketOverHead - 3.

Definition set_frag (p : Packet) (id size : Z) (data : list Z) : Packet :=
  mkPacket (pkt_head p) (ASSOC_ID p) (PKT_ID p) (FRAG_TOTAL p) id size (ADDR p) data.

Definition set_FRAG_TOTAL (p : Packet) (n : Z) : Packet :=
  mkPacket (pkt_head p) (ASSOC_ID p) (PKT_ID p) n (FRAG_ID p) (SIZE p) (ADDR p) (DATA p).

(** [packet.ADDR.TYPE = t]. *)
Definition set_ADDR_TYPE (p : Packet) (t : Z) : Packet :=
  mkPacket (pkt_head p) (ASSOC_ID p) (PKT_ID p) (FRAG_TOTAL p) (FRAG_ID p) (SIZE p)
    (mkAddress t (addr_ADDR (ADDR p)) (addr_PORT (ADDR p))) (DATA p).

Section send.
(** The QUIC connection: a state and its [SendDatagram]. *)
Context {Q : Type} (SendDatagram : Q → list Z → result Q).

Fixpoint fragWriteNative_loop (fuel : nat) (q : Q) (packet : Packet) (fullPayload : list Z)
    (fragSize off fragID : Z) : outcome (result Q) :=
  match fuel with
  | O => OutOfFuel
  | S fuel =>
    if off <? len fullPayload then
      let payloadSize := len fullPayload - off in
      let payloadSize := if fragSize <? payloadSize then fragSize else payloadSize in
      data ← slice fullPayload off (off + payloadSize);
      let frag := set_frag packet fragID (u16 payloadSize) data in
      match Packet_WriteTo [] frag with
      | Err e => mret (Err e)
      | Ok buf =>
        match SendDatagram q buf with
        | Err e => mret (Err e)
        | Ok q =>
          fragWriteNative_loop fuel q (set_ADDR_TYPE packet AtypNone) fullPayload fragSize
            (off + payloadSize) (u8 (fragID + 1))
        end
      end
    else mret (Ok q)
  end.

(** A fragment carries at least one byte, so the payload bounds the rounds. *)
Definition fragWriteNative (q : Q) (packet : Packet) (fragSize : Z) : outcome (result Q) :=
  let fullPayload := DATA packet in
  if fragSize =? 0 then Panic "integer divide by zero"
  else
    let fragCount := u8 (Z.quot (len fullPayload + fragSize - 1) fragSize) in
    fragWriteNative_loop (S (length fullPayload)) q (set_FRAG_TOTAL packet fragCount)
      fullPayload fragSize 0 0.

End send.

(** ** Receiving *)

Record packetBag := mkBag { frags : list (option Packet); count : Z }.

Definition newPacketBag : packetBag := mkBag [] 0.

Section receive.
Context {L elem : Type} `{!DList positive L elem}.

Abbreviation Cache := (LruCache (K := Z) (V := positive) (L := L) (elem := elem)).

(** The cache with the heaps of its entries and of the bags. *)
Record deFragger := mkDeFragger {
  df_lru : option Cache;
  df_entries : gmap positive (entry (K := Z) (V := positive));
  df_bags : gmap positive packetBag;
}.

Definition empty_deFragger : deFragger := mkDeFragger None ∅ ∅.

Definition init (d : deFragger) : deFragger :=
  match df_lru d with
  | Some _ => d
  | None => mkDeFragger (Some (New [WithAge 10; WithUpdateAgeOnGet])) (df_entries d) (df_bags d)
  end.

Definition the_bag (bags : gmap positive packetBag) (p : positive) : outcome packetBag :=
  match bags !! p with
  | Some b => Ret b
  | None => Panic "nil pointer dereference"
  end.

(** [append] the data of every fragment. *)
Fixpoint join_frags (fs : list (option Packet)) (data : list Z) : outcome (list Z) :=
  match fs with
  | [] => mret data
  | Some f :: fs => join_frags fs (data ++ DATA f)
  | None :: _ => Panic "nil pointer dereference"
  end.

Definition Feed (d : deFragger) (now : Z) (m : Packet) : outcome (option Packet * deFragger) :=
  if FRAG_TOTAL m <=? 1 then mret (Some m, d)
  else if FRAG_TOTAL m <=? FRAG_ID m then mret (None, d)
  else
    let d := init d in
    match df_lru d with
    | None => Panic "nil pointer dereference"
    | Some c =>
      let fresh := alloc (df_bags d) in
      '(bag, loaded, h, c) ← GetOrStore (df_entries d) c now (PKT_ID m) (λ _, fresh);
      let bags := if loaded : bool then df_bags d else <[fresh := newPacketBag]> (df_bags d) in
      b ← the_bag bags bag;
      if negb (FRAG_TOTAL m =? len (frags b)) then
        fs ← upd (replicate (Z.to_nat (FRAG_TOTAL m)) None) (FRAG_ID m) (Some m);
        mret (None, mkDeFragger (Some c) h (<[bag := mkBag fs 1]> bags))
      else
        f ← idx (frags b) (FRAG_ID m);
        match f with
        | Some _ => mret (None, mkDeFragger (Some c) h bags)
        | None =>
          fs ← upd (frags b) (FRAG_ID m) (Some m);
          let cnt := u8 (count b + 1) in
          let bags := <[bag := mkBag fs cnt]> bags in
          if negb (cnt =? len fs) then mret (None, mkDeFragger (Some c) h bags)
          else
            data ← join_frags fs [];
            f0 ← idx fs 0;
            match f0 with
            | None => Panic "nil pointer dereference"
            | Some p =>
              let p := mkPacket (pkt_head p) (ASSOC_ID p) (PKT_ID p) 1 0 (u16 (len data))
                         (ADDR p) data in
              let bags := <[bag := mkBag [] cnt]> bags in
              c ← Delete_ h c (PKT_ID m);
              mret (Some p, mkDeFragger (Some c) h bags)
            end
        end
    end.

Fixpoint FeedAll (d : deFragger) (ms : list (Z * Packet)) :
    outcome (list (option Packet) * deFragger) :=
  match ms with
  | [] => mret ([], d)
  | (now, m) :: ms =>
    '(r, d) ← Feed d now m;
    '(rs, d) ← FeedAll d ms;
    mret (r :: rs, d)
  end.

(** ** Bags *)

Definition nsome (fs : list (option Packet)) : nat := length (omap id fs).

Lemma nsome_le fs : (nsome fs ≤ length fs)%nat.
Proof. unfold nsome. induction fs as [|[f|] fs IH]; csimpl; lia. Qed.

Lemma nsome_insert fs i m :
  fs !! i = Some None → nsome (<[i := Some m]> fs) = S (nsome fs).
Proof.
  unfold nsome. revert i. induction fs as [|[f|] fs IH]; intros [|i] Hi; simplify_eq/=;
    rewrite ?IH by done; done.
Qed.

Lemma nsome_full fs : nsome fs = length fs → Forall is_Some fs.
Proof.
  unfold nsome. induction fs as [|[f|] fs IH]; csimpl; intros Hn; [constructor|..].
  - constructor; [by eexists|]. apply IH. lia.
  - pose proof (nsome_le fs) as Hle. unfold nsome in Hle. lia.
Qed.

Lemma feed_last fs :
  (0 < nsome fs)%nat →
  ∃ f0 rest, omap id fs = f0 :: rest ∧
    (nsome fs = length fs → fs !! 0%nat = Some (Some f0) ∧ Forall is_Some fs).
Proof.
  intros Hn. unfold nsome in Hn. destruct (omap id fs) as [|f0 rest] eqn:Ho; [simpl in Hn; lia|].
  exists f0, rest. split; [done|]. intros Hall%nsome_full. split; [|done].
  destruct Hall as [|? fs' [f ->] _]; simplify_eq/=. done.
Qed.

(** The count of a bag that is in use is the number of its fragments. *)
Definition bag_ok (b : packetBag) : Prop :=
  frags b ≠ [] → count b = Z.of_nat (nsome (frags b)) ∧ len (frags b) ≤ 255.

Definition join_data (fs : list (option Packet)) : list Z :=
  concat (DATA <$> omap id fs).

Lemma join_frags_full fs data :
  Forall is_Some fs → join_frags fs data = Ret (data ++ join_data fs).
Proof.
  intros Hf. revert data. induction Hf as [|f fs [m ->] _ IH]; intros data.
  - by rewrite app_nil_r.
  - simpl. rewrite IH. unfold join_data. csimpl. by rewrite app_assoc.
Qed.

(** [Feed] on the bag of the packet. *)
Definition whole (m : Packet) (data : list Z) : Packet :=
  mkPacket (pkt_head m) (ASSOC_ID m) (PKT_ID m) 1 0 (u16 (len data)) (ADDR m) data.

Definition feed_bag (b : packetBag) (m : Packet) : option Packet * packetBag :=
  let i := Z.to_nat (FRAG_ID m) in
  if negb (FRAG_TOTAL m =? len (frags b)) then
    (None, mkBag (<[i := Some m]> (replicate (Z.to_nat (FRAG_TOTAL m)) None)) 1)
  else
    match frags b !! i with
    | Some (Some _) => (None, b)
    | _ =>
      let fs := <[i := Some m]> (frags b) in
      let cnt := count b + 1 in
      match omap id fs with
      | f0 :: _ =>
        if cnt =? len fs then (Some (whole f0 (join_data fs)), mkBag [] cnt)
        else (None, mkBag fs cnt)
      | [] => (None, mkBag fs cnt)
      end
    end.

Definition frag_ok (m : Packet) : Prop :=
  1 < FRAG_TOTAL m ≤ 255 ∧ 0 ≤ FRAG_ID m < FRAG_TOTAL m.

#[local] Instance frag_ok_dec m : Decision (frag_ok m).
Proof. unfold frag_ok. apply _. Defined.

Lemma feed_bag_ok b m : bag_ok b → frag_ok m → bag_ok (feed_bag b m).2.
Proof.
  intros Hb ((Ht1 & Ht2) & Hi). unfold feed_bag.
  destruct (Z.eqb_spec (FRAG_TOTAL m) (len (frags b))) as [He|He]; simpl.
  2: { intros _. simpl. rewrite length_insert, length_replicate.
       rewrite nsome_insert; [|apply lookup_replicate; split; [done|lia]]. split; [|lia].
       assert (nsome (replicate (Z.to_nat (FRAG_TOTAL m)) None) = 0%nat) as ->; [|done].
       by induction (Z.to_nat (FRAG_TOTAL m)). }
  destruct (frags b !! Z.to_nat (FRAG_ID m)) as [[f|]|] eqn:Hf; [done| |].
  2: { apply lookup_ge_None in Hf. lia. }
  assert (frags b ≠ []) as Hne by (intros Hn; rewrite Hn in He; simpl in He; lia).
  destruct (Hb Hne) as [Hcount Hlen].
  assert (bag_ok (mkBag (<[Z.to_nat (FRAG_ID m):=Some m]> (frags b)) (count b + 1))) as Hok.
  { intros _. simpl. rewrite length_insert, nsome_insert by done. lia. }
  destruct (omap id _); [done|]. destruct (_ =? _); [by intros|done].
Qed.

(** ** The invariant of the reassembler *)

Abbreviation values s := (value <$> sp_list s).

Record dinv (h : gmap positive entry) (c : Cache) (s : Spec)
    (bags : gmap positive packetBag) : Prop := {
  di_repr : repr h c s;
  di_cfg : sp_cfg s = (10, 0, true, false, false);
  di_nodup : NoDup (values s);
  di_bags : Forall (λ v, is_Some (bags !! v)) (values s);
  di_ok : map_Forall (λ _, bag_ok) bags;
}.

Lemma dinv_shrink h c s h' c' s' bags :
  dinv h c s bags → repr h' c' s' → sp_cfg s' = sp_cfg s → values s' ⊆+ values s →
  dinv h' c' s' bags.
Proof.
  intros [_ Hc Hn Hb Hok] Hr Hcfg Hv. split; [done|congruence| | |done].
  - by eapply submseteq_NoDup.
  - apply Forall_forall. intros v Hin. rewrite Forall_forall in Hb. apply Hb.
    by eapply elem_of_submseteq.
Qed.

Lemma dinv_bags h c s bags p b :
  dinv h c s bags → bag_ok b → dinv h c s (<[p := b]> bags).
Proof.
  intros [Hr Hc Hn Hb Hok] Hbok. split; [done..| |by apply map_Forall_insert_2]. eapply Forall_impl; [exact Hb|]. intros v Hv.
  destruct (decide (p = v)) as [->|]; [by rewrite lookup_insert_eq|by rewrite lookup_insert_ne].
Qed.

(** What [GetOrStore] does to the reassembler. *)
Definition bags_after (loaded : bool) (bags : gmap positive packetBag) :=
  if loaded then bags else <[alloc bags := newPacketBag]> bags.

Lemma dinv_getOrStore h c s bags now k :
  dinv h c s bags →
  let '(p, loaded, s') := sp_getOrStore now k (alloc bags) s in
  ∃ h' c', GetOrStore h c now k (λ _, alloc bags) = Ret (p, loaded, h', c') ∧
    dinv h' c' s' (bags_after loaded bags).
Proof.
  intros Hd. pose proof Hd as [Hr Hc Hn Hb Hok].
  assert (sp_size s ≤ 0) as Hs by (unfold sp_cfg in Hc; simplify_eq; lia).
  destruct (GetOrStore_repr h c s now k (alloc bags) Hr) as (h' & c' & Hg & Hr').
  pose proof (sp_getOrStore_values now k (alloc bags) s Hs) as Hv.
  pose proof (sp_getOrStore_cfg now k (alloc bags) s) as Hcfg.
  destruct (sp_getOrStore now k (alloc bags) s) as [[p loaded] s']. simpl in *.
  exists h', c'. split; [done|]. destruct loaded; [by eapply dinv_shrink|].
  assert (alloc bags ∉ values s) as Hfresh.
  { rewrite Forall_forall in Hb. intros [? Hx]%Hb. by rewrite alloc_fresh in Hx. }
  split; [done|congruence| | |by apply map_Forall_insert_2].
  - eapply submseteq_NoDup; [exact Hv|]. by apply NoDup_cons.
  - apply Forall_forall. intros v Hin.
    apply (elem_of_submseteq _ _ _ Hin), elem_of_cons in Hv. unfold bags_after.
    destruct (decide (alloc bags = v)) as [<-|]; [by rewrite lookup_insert_eq|].
    rewrite lookup_insert_ne by done. rewrite Forall_forall in Hb.
    destruct Hv as [->|Hv]; [done|by apply Hb].
Qed.

(** What is stored for a packet id: a bag whose entry lives until [t0 + 10]. *)
Definition slot (s : Spec) (bags : gmap positive packetBag) (id t0 : Z)
    (o : option packetBag) : Prop :=
  match o with
  | None => find_key id (sp_list s) = None
  | Some b => ∃ e, find_key id (sp_list s) = Some e ∧ t0 + 10 ≤ expires e ∧
                   bags !! value e = Some b
  end.

Definition window (t0 now : Z) : Prop := 0 ≤ t0 ∧ t0 ≤ now < t0 + 10 ∧ now + 10 < 2 ^ 63.

Lemma window_expire t0 now : window t0 now → i64 (now + 10) = now + 10.
Proof. intros (? & ? & ?). apply i64_small. lia. Qed.

Lemma NoDup_values_key (s : Spec (K := Z) (V := positive)) k k' e e' :
  NoDup (values s) → find_key k (sp_list s) = Some e → find_key k' (sp_list s) = Some e' →
  k ≠ k' → value e ≠ value e'.
Proof.
  intros Hn [Hk Hin]%find_key_Some [Hk' Hin']%find_key_Some Hne Heq.
  apply list_elem_of_lookup in Hin as [i Hi], Hin' as [j Hj].
  assert (i = j) as ->.
  { eapply NoDup_lookup; [exact Hn|..]; rewrite list_lookup_fmap.
    - by rewrite Hi.
    - rewrite Hj. simpl. by rewrite Heq. }
  congruence.
Qed.

(** Fragments of other packets do not touch the slot. *)
Lemma slot_other h c s bags now k id t0 o :
  dinv h c s bags → window t0 now → k ≠ id → slot s bags id t0 o →
  let '(p, loaded, s') := sp_getOrStore now k (alloc bags) s in
  slot s' (bags_after loaded bags) id t0 o ∧
  ∀ b, slot s' (<[p := b]> (bags_after loaded bags)) id t0 o.
Proof.
  intros Hd Hw Hne Hsl. pose proof Hd as [Hr Hc Hn Hb Hok].
  assert (sp_size s ≤ 0) as Hs by (unfold sp_cfg in Hc; simplify_eq; lia).
  destruct (get_repr h c s now k Hr) as (_ & h1 & c1 & _ & _ & Hr1).
  pose proof (sp_getOrStore_other now k id (alloc bags) s
                (find_key id (sp_list s)) Hne Hs (repr_keys _ _ _ Hr) eq_refl) as Ho.
  pose proof (sp_getOrStore_loaded now k (alloc bags) s) as Hload.
  pose proof (sp_getOrStore_stored now k (alloc bags) s) as Hstore.
  destruct (sp_getOrStore now k (alloc bags) s) as [[p loaded] s'] eqn:Hg. simpl in Ho.
  destruct o as [b0|]; simpl in *.
  - destruct Hsl as (e & He & Hexp & Hbag). rewrite He in Ho.
    assert (find_key id (sp_list s') = Some e) as Hf.
    { apply Ho; [|exact (repr_keys _ _ _ Hr1)]. intros e' [= <-].
      destruct Hw as (? & ? & ?). lia. }
    assert (p ≠ value e ∧ bags_after loaded bags !! value e = Some b0) as [Hp Hb0].
    { destruct loaded.
      - destruct (Hload p s' eq_refl) as (ek & Hek & ->). split; [|done].
        by eapply NoDup_values_key.
      - rewrite (Hstore p s' eq_refl). assert (alloc bags ≠ value e).
        { intros Heq. rewrite <- Heq, alloc_fresh in Hbag. done. }
        split; [done|]. unfold bags_after. by rewrite lookup_insert_ne. }
    split; [by exists e|]. intros b. exists e. by rewrite lookup_insert_ne.
  - rewrite Hsl in Ho. split; [|intros b]; (apply Ho; [done|exact (repr_keys _ _ _ Hr1)]).
Qed.

(** A fragment of the packet finds its bag, or an empty one. *)
Lemma slot_own h c s bags now id t0 o :
  dinv h c s bags → window t0 now → slot s bags id t0 o →
  let '(p, loaded, s') := sp_getOrStore now id (alloc bags) s in
  bags_after loaded bags !! p = Some (default newPacketBag o) ∧
  ∃ e, find_key id (sp_list s') = Some e ∧ t0 + 10 ≤ expires e ∧ value e = p.
Proof.
  intros Hd Hw Hsl. pose proof Hd as [Hr Hc Hn Hb Hok]. pose proof (window_expire _ _ Hw) as Hi.
  destruct Hw as (Hw1 & Hw2 & Hw3). unfold sp_cfg in Hc. simplify_eq.
  pose proof (repr_keys _ _ _ Hr) as Hk. destruct o as [b|]; simpl in Hsl.
  - destruct Hsl as (e & He & Hexp & Hbag).
    pose proof (sp_getOrStore_hit now id (alloc bags) s e He Hk) as Hh.
    destruct (sp_getOrStore now id (alloc bags) s) as [[p loaded] s'].
    destruct Hh as (-> & -> & Hf & _); [lia|done|lia|]. split; [done|].
    eexists. split; [exact Hf|]. simpl. replace (sp_age s) with 10 by congruence.
    rewrite Hi. split; [lia|done].
  - pose proof (sp_getOrStore_miss now id (alloc bags) s Hsl Hk) as Hm.
    replace (sp_age s) with 10 in Hm by congruence. rewrite Hi in Hm.
    destruct (sp_getOrStore now id (alloc bags) s) as [[p loaded] s'].
    destruct Hm as (-> & -> & Hf); [lia..|]. simpl. rewrite lookup_insert_eq.
    split; [done|]. eexists. split; [exact Hf|]. simpl. split; [lia|done].
Qed.

Lemma slot_bag now (k : Z) s bags p loaded s' :
  sp_getOrStore now k (alloc bags) s = (p, loaded, s') →
  Forall (λ v, is_Some (bags !! v)) (values s) → is_Some (bags_after loaded bags !! p).
Proof.
  intros Hg Hb. destruct loaded.
  - apply sp_getOrStore_loaded in Hg as (e & [_ Hin]%find_key_Some & ->).
    rewrite Forall_forall in Hb. by apply Hb, list_elem_of_fmap_2.
  - apply sp_getOrStore_stored in Hg as ->. unfold bags_after. by rewrite lookup_insert_eq.
Qed.

Lemma dinv_delete h c s bags k :
  dinv h c s bags →
  ∃ c', Delete_ h c k = Ret c' ∧ dinv h c' (sp_delete k s) bags.
Proof.
  intros Hd. destruct (delete_repr h c s k (di_repr _ _ _ _ Hd)) as (c' & He & Hr).
  exists c'. split; [done|]. eapply dinv_shrink; [done..|apply sp_delete_cfg|].
  apply sp_delete_values.
Qed.

Lemma Feed_step d c s now m :
  df_lru (init d) = Some c → dinv (df_entries d) c s (df_bags d) → frag_ok m →
  let '(p, loaded, s') := sp_getOrStore now (PKT_ID m) (alloc (df_bags d)) s in
  ∀ b, bags_after loaded (df_bags d) !! p = Some b →
  ∃ d' c', Feed d now m = Ret ((feed_bag b m).1, d') ∧ df_lru d' = Some c' ∧
    df_bags d' = <[p := (feed_bag b m).2]> (bags_after loaded (df_bags d)) ∧
    dinv (df_entries d') c'
      (match (feed_bag b m).1 with Some _ => sp_delete (PKT_ID m) s' | None => s' end)
      (df_bags d').
Proof.
  intros Hc Hd Hm. pose proof (dinv_getOrStore _ _ _ _ now (PKT_ID m) Hd) as Hg.
  destruct (sp_getOrStore now (PKT_ID m) (alloc (df_bags d)) s) as [[p loaded] s'].
  destruct Hg as (h' & c' & Hg & Hd'). intros b Hb.
  pose proof (di_ok _ _ _ _ Hd' p b Hb) as Hbok.
  pose proof (dinv_bags _ _ _ _ p _ Hd' (feed_bag_ok b m Hbok Hm)) as Hd2.
  destruct Hm as ((Ht1 & Ht2) & Hi). unfold Feed, feed_bag in *.
  destruct (Z.leb_spec (FRAG_TOTAL m) 1); [lia|].
  destruct (Z.leb_spec (FRAG_TOTAL m) (FRAG_ID m)); [lia|].
  rewrite Hc. replace (df_entries (init d)) with (df_entries d) by (by destruct d as [[] ? ?]).
  replace (df_bags (init d)) with (df_bags d) by (by destruct d as [[] ? ?]).
  rewrite Hg. run. fold (bags_after loaded (df_bags d)). unfold the_bag. rewrite Hb. run.
  destruct (Z.eqb_spec (FRAG_TOTAL m) (len (frags b))) as [He|He]; simpl negb; cbv iota.
  2: { rewrite upd_Ret by (rewrite length_replicate; lia). run. by eexists _, c'. }
  destruct (lookup_lt_is_Some_2 (frags b) (Z.to_nat (FRAG_ID m))) as [f Hf]; [lia|].
  rewrite (idx_lookup _ _ f) by first [lia|done]. rewrite Hf in Hd2 |- *. run.
  destruct f as [f|].
  { exists (mkDeFragger (Some c') h' (bags_after loaded (df_bags d))), c'.
    simpl in *. by rewrite insert_id in Hd2 |- * by done. }
  rewrite upd_Ret by lia. run. set (fs := <[_ := Some m]> (frags b)) in *.
  assert (frags b ≠ []) as Hne by (intros Hn; rewrite Hn in He; simpl in He; lia).
  destruct (Hbok Hne) as [Hcount Hlen].
  assert (nsome fs = S (nsome (frags b)) ∧ length fs = length (frags b)) as [Hns Hlfs].
  { split; [by apply nsome_insert|apply length_insert]. }
  pose proof (nsome_le fs) as Hle. rewrite (wrapu_small 8) by lia.
  destruct (feed_last fs) as (f0 & rest & Hom & Hfull); [lia|]. rewrite Hom in Hd2 |- *.
  destruct (Z.eqb_spec (count b + 1) (len fs)) as [Hall|Hpart]; simpl negb; cbv iota in Hd2 |- *.
  - destruct Hfull as [Hf0 Hfs]; [lia|]. rewrite join_frags_full by done. run.
    rewrite (idx_lookup _ _ (Some f0)) by done. run.
    destruct (dinv_delete _ _ _ _ (PKT_ID m) Hd2) as (c2 & -> & Hd3). run.
    eexists _, c2. simpl. rewrite insert_insert_eq in *. done.
  - by eexists _, c'.
Qed.

Definition holds (d : deFragger) (id t0 : Z) (o : option packetBag) : Prop :=
  ∃ c s, df_lru (init d) = Some c ∧ dinv (df_entries d) c s (df_bags d) ∧
    slot s (df_bags d) id t0 o.

(** Fields of a packet that was read from the wire. *)
Definition wire_ok (m : Packet) : Prop := u8_ok (FRAG_TOTAL m) ∧ u8_ok (FRAG_ID m).

Lemma holds_of d c s id t0 o :
  df_lru d = Some c → dinv (df_entries d) c s (df_bags d) → slot s (df_bags d) id t0 o →
  holds d id t0 o.
Proof. intros Hc Hd Hs. exists c, s. unfold init. by rewrite Hc. Qed.

Lemma Feed_other d now m id t0 o :
  holds d id t0 o → window t0 now → wire_ok m → PKT_ID m ≠ id →
  ∃ r d', Feed d now m = Ret (r, d') ∧ holds d' id t0 o.
Proof.
  intros (c & s & Hc & Hd & Hs) Hw (Ht & Hi) Hne. unfold u8_ok in Ht, Hi.
  destruct (decide (frag_ok m)) as [Hm|Hm].
  - pose proof (Feed_step d c s now m Hc Hd Hm) as Hf.
    pose proof (slot_other _ _ _ _ now (PKT_ID m) id t0 o Hd Hw Hne Hs) as Hso.
    pose proof (dinv_getOrStore _ _ _ _ now (PKT_ID m) Hd) as Hg.
    pose proof (slot_bag now (PKT_ID m) s (df_bags d)) as Hp.
    destruct (sp_getOrStore now (PKT_ID m) (alloc (df_bags d)) s) as [[p loaded] s'].
    destruct (Hp p loaded s' eq_refl (di_bags _ _ _ _ Hd)) as [b Hb].
    destruct (Hf b Hb) as (d' & c' & -> & Hc' & Hbags & Hd'). do 2 eexists.
    split; [done|]. eapply holds_of; [done..|]. rewrite Hbags.
    destruct Hso as [_ Hso]. specialize (Hso (feed_bag b m).2).
    destruct (feed_bag b m).1; [|done]. destruct o as [b0|]; simpl in *.
    + by rewrite sp_delete_other.
    + by rewrite sp_delete_other.
  - unfold Feed. destruct (Z.leb_spec (FRAG_TOTAL m) 1);
      [do 2 eexists; split; [done|]; by exists c, s|].
    destruct (Z.leb_spec (FRAG_TOTAL m) (FRAG_ID m));
      [do 2 eexists; split; [done|]; by exists c, s|].
    destruct Hm. split; lia.
Qed.

Lemma Feed_own d now m t0 o :
  holds d (PKT_ID m) t0 o → window t0 now → frag_ok m →
  let '(r, b) := feed_bag (default newPacketBag o) m in
  ∃ d', Feed d now m = Ret (r, d') ∧
    holds d' (PKT_ID m) t0 (match r with Some _ => None | None => Some b end).
Proof.
  intros (c & s & Hc & Hd & Hs) Hw Hm.
  pose proof (Feed_step d c s now m Hc Hd Hm) as Hf.
  pose proof (slot_own _ _ _ _ now _ t0 o Hd Hw Hs) as Hso.
  pose proof (dinv_getOrStore _ _ _ _ now (PKT_ID m) Hd) as Hg.
  destruct (sp_getOrStore now (PKT_ID m) (alloc (df_bags d)) s) as [[p loaded] s'].
  destruct Hso as (Hb & e & He & Hexp & Hv), Hg as (h1 & c1 & _ & Hd1).
  destruct (Hf _ Hb) as (d' & c' & HF & Hc' & Hbags & Hd').
  destruct (feed_bag (default newPacketBag o) m) as [r b]. simpl in *. exists d'.
  split; [done|]. eapply holds_of; [done..|]. destruct r; simpl.
  - unfold sp_delete. rewrite He. simpl. apply find_key_nil_notin.
    rewrite remove_key_filter by exact (repr_keys _ _ _ (di_repr _ _ _ _ Hd1)).
    by intros (x & Hx & [? _]%list_elem_of_filter)%list_elem_of_fmap.
  - exists e. rewrite Hbags, Hv. by rewrite lookup_insert_eq.
Qed.

Lemma empty_holds id t0 : holds empty_deFragger id t0 None.
Proof.
  exists (New [WithAge 10; WithUpdateAgeOnGet]), (sp_new [oAge 10; oUpdateAgeOnGet]).
  split; [done|]. split; [|done].
  split; [apply (New_repr [oAge 10; oUpdateAgeOnGet])|done|constructor|constructor|done].
Qed.

(** ** Reassembly *)

(** The fragments of one packet: [fr !! i] is fragment number [i] of [n]. *)
Record fragments_of (id : Z) (fr : list Packet) : Prop := {
  fr_pkt : Forall (λ f, PKT_ID f = id ∧ FRAG_TOTAL f = len fr) fr;
  fr_ids : FRAG_ID <$> fr = Z.of_nat <$> seq 0 (length fr);
  fr_many : (1 < length fr ≤ 255)%nat;
}.

Lemma fr_lookup id fr i f : fragments_of id fr → fr !! i = Some f → FRAG_ID f = Z.of_nat i.
Proof.
  intros [_ Hids _] Hi. apply (f_equal (lookup i)) in Hids.
  rewrite !list_lookup_fmap, Hi, lookup_seq_lt in Hids by (by eapply lookup_lt_Some).
  by simplify_eq/=.
Qed.

Lemma fr_at id fr f : fragments_of id fr → f ∈ fr → fr !! Z.to_nat (FRAG_ID f) = Some f.
Proof.
  intros Hfr [i Hi]%list_elem_of_lookup. rewrite (fr_lookup id fr i f) by done.
  by rewrite Nat2Z.id.
Qed.

Lemma fr_frag_ok id fr f : fragments_of id fr → f ∈ fr → frag_ok f.
Proof.
  intros Hfr Hin. pose proof (fr_at _ _ _ Hfr Hin) as Hat. pose proof Hfr as [Hp _ Hn].
  rewrite Forall_forall in Hp. destruct (Hp f Hin) as [_ Ht].
  apply list_elem_of_lookup in Hin as [i Hi]. rewrite (fr_lookup _ _ _ _ Hfr Hi) in Hat.
  apply lookup_lt_Some in Hi as Hlt. unfold frag_ok.
  rewrite Ht, (fr_lookup _ _ _ _ Hfr Hi). lia.
Qed.

(** The slots of the bag once the fragments [seen] arrived. *)
Definition bagfs (fr seen : list Packet) : list (option Packet) :=
  (λ f, if decide (FRAG_ID f ∈ FRAG_ID <$> seen) then Some f else None) <$> fr.

Lemma bagfs_insert id fr seen m :
  fragments_of id fr → m ∈ fr →
  <[Z.to_nat (FRAG_ID m) := Some m]> (bagfs fr seen) = bagfs fr (seen ++ [m]).
Proof.
  intros Hfr Hin. pose proof (fr_at _ _ _ Hfr Hin) as Hat.
  apply list_eq. intros i. unfold bagfs. rewrite list_lookup_fmap.
  destruct (decide (i = Z.to_nat (FRAG_ID m))) as [->|Hne].
  - rewrite list_lookup_insert_eq by (rewrite length_fmap; by eapply lookup_lt_Some).
    rewrite Hat. simpl. rewrite decide_True; [done|]. rewrite fmap_app. set_solver.
  - rewrite list_lookup_insert_ne, list_lookup_fmap by done.
    destruct (fr !! i) as [f|] eqn:Hi; [|done]. simpl. f_equal.
    rewrite fmap_app. simpl.
    assert (FRAG_ID f ≠ FRAG_ID m) by (rewrite (fr_lookup _ _ _ _ Hfr Hi); lia).
    by apply decide_ext; set_solver.
Qed.

Lemma bagfs_nil fr : bagfs fr [] = replicate (length fr) None.
Proof.
  unfold bagfs. induction fr as [|f fr IH]; [done|]. rewrite fmap_cons, IH.
  rewrite decide_False; [done|apply not_elem_of_nil].
Qed.

Lemma bagfs_all fr : bagfs fr fr = Some <$> fr.
Proof.
  unfold bagfs. apply list_fmap_ext. intros i f Hi. rewrite decide_True; [done|].
  by apply list_elem_of_fmap_2, (list_elem_of_lookup_2 _ i).
Qed.

Lemma bagfs_perm fr seen seen' : seen ≡ₚ seen' → bagfs fr seen = bagfs fr seen'.
Proof.
  intros Hp. unfold bagfs. apply list_fmap_ext. intros i f _.
  apply decide_ext. by rewrite Hp.
Qed.

Lemma fr_fresh id fr seen m todo :
  fragments_of id fr → seen ++ m :: todo ≡ₚ fr → FRAG_ID m ∉ FRAG_ID <$> seen.
Proof.
  intros [_ Hids _] Hp Hin.
  assert (NoDup (FRAG_ID <$> fr)) as Hd.
  { rewrite Hids. apply NoDup_fmap_2; [|apply NoDup_seq]. intros ??. lia. }
  rewrite <- Hp, fmap_app in Hd. apply NoDup_app in Hd as (_ & Hd & _).
  apply (Hd _ Hin). left.
Qed.

Lemma omap_Some (fr : list Packet) : omap id (Some <$> fr) = fr.
Proof. induction fr as [|f fr IH]; [done|]. csimpl. by rewrite IH. Qed.

(** The bag after the fragments [seen]. *)
Definition progress (fr seen : list Packet) : option packetBag :=
  match seen with
  | [] => None
  | _ => Some (mkBag (bagfs fr seen) (len seen))
  end.

Lemma feed_bag_progress id fr seen m todo :
  fragments_of id fr → seen ++ m :: todo ≡ₚ fr →
  feed_bag (default newPacketBag (progress fr seen)) m =
    match todo, fr with
    | [], f0 :: _ => (Some (whole f0 (concat (DATA <$> fr))), mkBag [] (len fr))
    | _, _ => (None, mkBag (bagfs fr (seen ++ [m])) (len (seen ++ [m])))
    end.
Proof.
  intros Hfr Hp. assert (m ∈ fr) as Hin by (rewrite <- Hp; set_solver).
  pose proof Hfr as [Hpk Hids Hn]. rewrite Forall_forall in Hpk.
  destruct (Hpk m Hin) as [_ Ht]. pose proof (Permutation_length Hp) as Hlen.
  rewrite length_app in Hlen. simpl in Hlen. unfold feed_bag. rewrite Ht.
  destruct seen as [|s0 seen]; simpl default.
  - destruct (Z.eqb_spec (len fr) (len (frags newPacketBag))) as [He|_]; simpl in *; [lia|].
    destruct todo as [|t todo]; [simpl in *; lia|]. rewrite Nat2Z.id, <- bagfs_nil.
    by rewrite (bagfs_insert id fr [] m).
  - cbn [frags count progress].
    destruct (Z.eqb_spec (len fr) (len (bagfs fr (s0 :: seen)))) as [_|He];
      [|unfold bagfs in He; rewrite length_fmap in He; lia]. simpl negb. cbv iota.
    assert (bagfs fr (s0 :: seen) !! Z.to_nat (FRAG_ID m) = Some None) as ->.
    { unfold bagfs. rewrite list_lookup_fmap, (fr_at _ _ _ Hfr Hin).
      cbv beta iota delta [fmap option_fmap option_map].
      rewrite decide_False; [done|]. by apply (fr_fresh id fr _ m todo). }
    rewrite (bagfs_insert id fr (s0 :: seen) m) by done.
    assert (Z.of_nat (S (length seen)) + 1 = len ((s0 :: seen) ++ [m])) as ->
      by (rewrite length_app; simpl; lia).
    assert (length (bagfs fr ((s0 :: seen) ++ [m])) = length fr) as -> by apply length_fmap.
    destruct todo as [|t todo].
    + rewrite (bagfs_perm _ _ _ Hp), (Permutation_length Hp), bagfs_all, omap_Some.
      destruct fr as [|f0 fr]; [simpl in *; lia|]. rewrite Z.eqb_refl.
      unfold join_data. by rewrite omap_Some.
    + case_match; [done|].
      destruct (Z.eqb_spec (len ((s0 :: seen) ++ [m])) (len fr)) as [He|]; [|done].
      rewrite length_app in He. simpl in *. lia.
Qed.

Definition mine (id : Z) (ms : list (Z * Packet)) : list Packet :=
  filter (λ m, PKT_ID m = id) ms.*2.

(** The answers to the fragments of packet [id]. *)
Fixpoint mine_out (id : Z) (ms : list (Z * Packet)) (rs : list (option Packet)) :
    list (option Packet) :=
  match ms, rs with
  | (_, m) :: ms, r :: rs =>
    if decide (PKT_ID m = id) then r :: mine_out id ms rs else mine_out id ms rs
  | _, _ => []
  end.

(** What the fragments still to come are answered, in order. *)
Definition answers (fr todo : list Packet) : list (option Packet) :=
  match todo, fr with
  | _ :: todo, f0 :: _ =>
    replicate (length todo) None ++ [Some (whole f0 (concat (DATA <$> fr)))]
  | _, _ => []
  end.

Lemma answers_all fr f0 frs todo :
  fr = f0 :: frs → length todo = length fr →
  answers fr todo = replicate (length frs) None ++ [Some (whole f0 (concat (DATA <$> fr)))].
Proof.
  intros -> Hl. destruct todo as [|x todo]; simpl in Hl; [lia|]. simpl.
  by replace (length todo) with (length frs) by lia.
Qed.

Lemma FeedAll_progress id fr t0 ms seen todo d :
  fragments_of id fr → seen ++ todo ≡ₚ fr → mine id ms = todo →
  Forall (λ x, window t0 x.1 ∧ wire_ok x.2) ms →
  holds d id t0 (if decide (todo = []) then None else progress fr seen) →
  ∃ rs d', FeedAll d ms = Ret (rs, d') ∧ mine_out id ms rs = answers fr todo ∧
    holds d' id t0 None.
Proof.
  intros Hfr. revert seen todo d. induction ms as [|[now m] ms IH];
    intros seen todo d Hp Hm Hw Hd.
  { simpl in Hm. subst todo. rewrite decide_True in Hd by done. by exists [], d. }
  apply Forall_cons in Hw as [[Hwin Hok] Hw]. simpl in Hwin, Hok.
  unfold mine in Hm. csimpl in Hm. rewrite filter_cons in Hm.
  simpl. destruct (decide (PKT_ID m = id)) as [Hid|Hid].
  - subst todo. rewrite decide_False in Hd by done. set (todo := filter _ _) in *.
    assert (m ∈ fr) as Hin by (rewrite <- Hp; set_solver).
    rewrite <- Hid in Hd.
    pose proof (Feed_own d now m t0 _ Hd Hwin (fr_frag_ok _ _ _ Hfr Hin)) as Hf.
    rewrite (feed_bag_progress id fr seen m todo Hfr Hp) in Hf.
    assert (fr ≠ []) as Hne by (intros ->; set_solver).
    destruct fr as [|f0 fr0] eqn:Efr; [done|]. rewrite <- Efr in *.
    destruct todo as [|t todo'] eqn:Et; destruct Hf as (d1 & -> & Hh1); run;
      rewrite Hid in Hh1.
    + destruct (IH fr [] d1) as (rs & d2 & -> & Ho & Hh2); [by rewrite app_nil_r|done..|].
      run. eexists _, d2. split; [done|]. simpl. rewrite Ho. by rewrite Efr.
    + destruct (IH (seen ++ [m]) (t :: todo') d1) as (rs & d2 & -> & Ho & Hh2);
        [by rewrite <- app_assoc|done|done| |].
      { rewrite decide_False by done. by destruct seen. }
      run. eexists _, d2. split; [done|]. simpl. rewrite Ho. by rewrite Efr.
  - destruct (Feed_other d now m id t0 _ Hd Hwin Hok Hid) as (r & d1 & -> & Hh1). run.
    destruct (IH seen todo d1) as (rs & d2 & -> & Ho & Hh2); [done..|].
    run. by eexists _, d2.
Qed.

(** C32: The fragments of a packet, arriving in any order within ten seconds and
    interleaved with any other packets, are held back except for the last one to
    arrive, which is answered with the whole packet: the first fragment's header
    and address with the data of all fragments in order.  Nothing else comes out
    for that packet id, no packet of the wire makes the reassembler panic, and the
    slot is free again afterwards. *)
Theorem tuic_reassembly d id t0 ms fr f0 frs :
  fr = f0 :: frs → fragments_of id fr → mine id ms ≡ₚ fr →
  Forall (λ x, window t0 x.1 ∧ wire_ok x.2) ms → holds d id t0 None →
  ∃ rs d', FeedAll d ms = Ret (rs, d') ∧
    mine_out id ms rs =
      replicate (length frs) None ++ [Some (whole f0 (concat (DATA <$> fr)))] ∧
    holds d' id t0 None.
Proof.
  intros Efr Hfr Hp Hw Hh.
  destruct (FeedAll_progress id fr t0 ms [] (mine id ms) d) as (rs & d' & He & Ho & Hh');
    [done|done|done|done|case_decide; exact Hh|].
  exists rs, d'. split; [done|]. split; [|done]. rewrite Ho.
  by apply answers_all, Permutation_length.
Qed.

End receive.

(** ** What is sent *)

(** A connection that records the datagrams. *)
Definition record_send (q : list (list Z)) (b : list Z) : result (list (list Z)) :=
  Ok (q ++ [b]).

(** The fragments of [data] in pieces of [k] bytes, from fragment number [i] on. *)
Fixpoint cut (fuel : nat) (k : nat) (p : Packet) (i : Z) (data : list Z) : list Packet :=
  match fuel, data with
  | S fuel, _ :: _ =>
    set_frag p i (len (take k data)) (take k data) ::
    cut fuel k (set_ADDR_TYPE p AtypNone) (i + 1) (drop k data)
  | _, _ => []
  end.

Lemma cut_length fuel k p i data :
  (0 < k)%nat → (length data ≤ fuel)%nat →
  len (cut fuel k p i data) = (len data + Z.of_nat k - 1) / Z.of_nat k.
Proof.
  intros Hk. revert p i data. induction fuel as [|fuel IH]; intros p i [|x data] Hf; simpl in Hf;
    try lia; try (cbn [cut length]; symmetry; apply Z.div_small; simpl; lia).
  cbn [cut length]. rewrite Nat2Z.inj_succ, IH by (rewrite length_drop; simpl; lia).
  rewrite length_drop. cbn [length].
  destruct (decide (S (length data) ≤ k)%nat).
  - replace (S (length data) - k)%nat with 0%nat by lia.
    rewrite (Z.div_small (_ + _ - 1)) by lia. apply Z.div_unique with (len data); lia.
  - replace (Z.of_nat (S (length data) - k)) with (Z.of_nat (S (length data)) - Z.of_nat k) by lia.
    replace (Z.of_nat (S (length data)) + Z.of_nat k - 1)
      with ((Z.of_nat (S (length data)) - Z.of_nat k + Z.of_nat k - 1) + 1 * Z.of_nat k) by lia.
    rewrite Z.div_add by lia. lia.
Qed.

Lemma cut_data fuel k p i data :
  (0 < k)%nat → (length data ≤ fuel)%nat → concat (DATA <$> cut fuel k p i data) = data.
Proof.
  intros Hk. revert p i data. induction fuel as [|fuel IH]; intros p i [|x data] Hf; simpl in Hf;
    try done; [lia|]. cbn [cut]. csimpl. rewrite IH by (rewrite length_drop; simpl; lia).
  apply (take_drop k (x :: data)).
Qed.

Lemma cut_fuel fuel fuel' k p i data :
  (0 < k)%nat → (length data ≤ fuel)%nat → (length data ≤ fuel')%nat →
  cut fuel k p i data = cut fuel' k p i data.
Proof.
  intros Hk. revert fuel' p i data.
  induction fuel as [|fuel IH]; intros [|fuel'] p i [|x data] Hf Hf'; simpl in *;
    try done; try lia.
  f_equal. apply IH; rewrite length_drop; simpl; lia.
Qed.

Lemma cut_ids fuel k p i data :
  FRAG_ID <$> cut fuel k p i data = (λ j, i + Z.of_nat j) <$> seq 0 (length (cut fuel k p i data)).
Proof.
  revert p i data. induction fuel as [|fuel IH]; intros p i [|x data]; try done.
  cbn [cut]. csimpl. f_equal; [lia|]. rewrite IH, <- fmap_S_seq, <- list_fmap_compose.
  apply list_fmap_ext. intros. simpl. lia.
Qed.

Lemma loop_cut k fuel q p payload off i :
  (0 < k)%nat → (off ≤ length payload)%nat → (length payload - off < fuel)%nat →
  Z.of_nat k < 65536 → 0 ≤ i →
  i + len (cut (length payload - off) k p i (drop off payload)) < 256 →
  fragWriteNative_loop record_send fuel q p payload (Z.of_nat k) (Z.of_nat off) i =
    Ret (Ok (q ++ (Packet_bytes <$> cut (length payload - off) k p i (drop off payload)))).
Proof.
  intros Hk. revert q p off i. induction fuel as [|fuel IH]; intros q p off i Ho Hf Hk2 Hi Hn; [lia|].
  simpl. destruct (Z.ltb_spec (Z.of_nat off) (len payload)) as [Hlt|Hge].
  2: { replace (length payload - off)%nat with 0%nat by lia. simpl. by rewrite app_nil_r. }
  set (sz := if _ <? _ then _ else _). set (n := Nat.min k (length payload - off)).
  assert (sz = Z.of_nat n) as Hsz.
  { unfold sz, n. destruct (Z.ltb_spec (Z.of_nat k) (len payload - Z.of_nat off)); lia. }
  rewrite slice_Ret by lia. run. rewrite (Packet_WriteTo_buffer []), Hsz. simpl.
  replace (Z.of_nat off + Z.of_nat n - Z.of_nat off) with (Z.of_nat n) by lia. rewrite !Nat2Z.id.
  assert (take n (drop off payload) = take k (drop off payload)) as Htk.
  { unfold n. rewrite <- (length_drop payload off) . apply take_min_length. }
  assert (drop k (drop off payload) = drop (off + n) payload) as Hdr.
  { rewrite drop_drop. unfold n. destruct (decide (k ≤ length payload - off)%nat);
      [f_equal; lia|]. rewrite !drop_ge by lia. done. }
  destruct (drop off payload) as [|x data] eqn:Hd.
  { apply (f_equal length) in Hd. rewrite length_drop in Hd. simpl in Hd. lia. }
  replace (length payload - off)%nat with (S (length payload - off - 1)) in Hn |- * by lia.
  cbn [cut] in Hn |- *. rewrite Hdr in Hn |- *.
  rewrite (cut_fuel _ (length payload - (off + n))) in Hn |- * by
    (rewrite ?length_drop; lia).
  cbn [length] in Hn. rewrite (wrapu_small 8), (wrapu_small 16) by lia.
  replace (Z.of_nat off + Z.of_nat n) with (Z.of_nat (off + n)) by lia.
  rewrite IH by lia. rewrite <- app_assoc. do 3 f_equal.
  rewrite fmap_cons, <- Htk. simpl app. do 3 f_equal. rewrite length_take, <- Hd, length_drop. lia.
Qed.

(** A fragment as the receiver sees it: without address unless it is the first. *)
Definition received (f : Packet) : Packet :=
  if addr_TYPE (ADDR f) =? AtypNone then
    mkPacket (pkt_head f) (ASSOC_ID f) (PKT_ID f) (FRAG_TOTAL f) (FRAG_ID f) (SIZE f)
      (mkAddress AtypNone [] 0) (DATA f)
  else f.

Lemma received_bytes f : Packet_bytes (received f) = Packet_bytes f.
Proof.
  unfold received. destruct (Z.eqb_spec (addr_TYPE (ADDR f)) AtypNone) as [He|]; [|done].
  unfold Packet_bytes, Address_bytes. simpl. by rewrite He.
Qed.

(** The packet the sender cuts: well formed apart from size and data. *)
Record sendable (p : Packet) : Prop := {
  sd_type : head_TYPE (pkt_head p) = PacketType;
  sd_assoc : u16_ok (ASSOC_ID p);
  sd_pkt : u16_ok (PKT_ID p);
  sd_total : u8_ok (FRAG_TOTAL p);
  sd_addr : addr_TYPE (ADDR p) = AtypNone ∨ Address_ok (ADDR p);
}.

Lemma cut_fields fuel k p i data :
  Forall (λ f, pkt_head f = pkt_head p ∧ ASSOC_ID f = ASSOC_ID p ∧ PKT_ID f = PKT_ID p ∧
    FRAG_TOTAL f = FRAG_TOTAL p ∧ len (DATA f) ≤ Z.of_nat k) (cut fuel k p i data).
Proof.
  revert p i data. induction fuel as [|fuel IH]; intros p i [|x data]; try constructor.
  - simpl. split_and!; [done..|]. rewrite length_take. lia.
  - apply (IH (set_ADDR_TYPE p AtypNone)).
Qed.

Lemma cut_received fuel k p i data :
  sendable p → (0 < k)%nat → Z.of_nat k < 65536 → 0 ≤ i →
  i + len (cut fuel k p i data) < 256 →
  Forall (λ f, Packet_ok (received f)) (cut fuel k p i data).
Proof.
  intros Hp Hk Hk2. revert p i data Hp.
  induction fuel as [|fuel IH]; intros p i [|x data] Hp Hi Hn; try constructor.
  - destruct Hp as [Ht Ha Hpk Hto Had]. cbn [cut length] in Hn.
    assert (0 ≤ len (take k (x :: data)) < 2 ^ 16) as Hsz by (rewrite length_take; lia).
    unfold received. cbn [ADDR set_frag addr_TYPE].
    destruct (Z.eqb_spec (addr_TYPE (ADDR p)) AtypNone) as [He|He];
      split; cbn [set_frag pkt_head ASSOC_ID PKT_ID FRAG_TOTAL FRAG_ID SIZE ADDR DATA]; try done;
      try (unfold u8_ok; lia); [constructor|naive_solver].
  - cbn [cut length] in Hn. apply IH; [|lia|lia].
    destruct Hp as [Ht Ha Hpk Hto Had]. split; try done. by left.
Qed.

Definition restored (p : Packet) : Packet :=
  mkPacket (pkt_head p) (ASSOC_ID p) (PKT_ID p) 1 0 (len (DATA p)) (ADDR p) (DATA p).

Lemma received_fields f :
  PKT_ID (received f) = PKT_ID f ∧ FRAG_TOTAL (received f) = FRAG_TOTAL f ∧
  FRAG_ID (received f) = FRAG_ID f ∧ DATA (received f) = DATA f.
Proof. unfold received. by destruct (_ =? _). Qed.

Lemma received_data fr : concat (DATA <$> (received <$> fr)) = concat (DATA <$> fr).
Proof.
  rewrite <- list_fmap_compose. f_equal. apply list_fmap_ext. intros ? f _. apply received_fields.
Qed.

Lemma fragWriteNative_cut p k :
  (0 < k)%nat → Z.of_nat k < 65536 →
  (len (DATA p) + Z.of_nat k - 1) / Z.of_nat k ≤ 255 →
  let n := (len (DATA p) + Z.of_nat k - 1) / Z.of_nat k in
  fragWriteNative record_send [] p (Z.of_nat k) =
    Ret (Ok (Packet_bytes <$> cut (length (DATA p)) k (set_FRAG_TOTAL p n) 0 (DATA p))).
Proof.
  intros Hk Hk2 Hn n. unfold fragWriteNative.
  destruct (Z.eqb_spec (Z.of_nat k) 0); [lia|].
  rewrite Z.quot_div_nonneg by lia. fold n.
  assert (0 ≤ n) by (apply Z.div_pos; lia).
  rewrite (wrapu_small 8) by lia.
  pose proof (loop_cut k (S (length (DATA p))) [] (set_FRAG_TOTAL p n) (DATA p) 0 0) as Hl.
  rewrite Nat.sub_0_r, drop_0 in Hl. apply Hl; try lia. rewrite cut_length by lia. lia.
Qed.

Lemma cut_fragments p k n :
  (0 < k)%nat → n = (len (DATA p) + Z.of_nat k - 1) / Z.of_nat k → 1 < n ≤ 255 →
  fragments_of (PKT_ID p) (received <$> cut (length (DATA p)) k (set_FRAG_TOTAL p n) 0 (DATA p)).
Proof.
  intros Hk Hn Hn2. set (fr := cut _ _ _ _ _).
  assert (len fr = n) as Hlen by (unfold fr; rewrite cut_length by lia; done).
  split.
  - rewrite length_fmap, Hlen. apply Forall_fmap.
    eapply Forall_impl; [apply cut_fields|]. intros f (_ & _ & Hp & Ht & _). simpl.
    destruct (received_fields f) as (-> & -> & _). by rewrite Hp, Ht.
  - rewrite length_fmap, <- list_fmap_compose. unfold fr at 2. rewrite <- (list_fmap_id (seq _ _)).
    transitivity (FRAG_ID <$> fr); [apply list_fmap_ext; intros ? f _; apply received_fields|].
    unfold fr. rewrite cut_ids, <- list_fmap_compose. apply list_fmap_ext. simpl. lia.
  - rewrite length_fmap. lia.
Qed.

Lemma cut_head p k n fuel :
  DATA p ≠ [] → (0 < fuel)%nat → addr_TYPE (ADDR p) ≠ AtypNone →
  ∃ f0 frs, received <$> cut fuel k (set_FRAG_TOTAL p n) 0 (DATA p) = f0 :: frs ∧
    pkt_head f0 = pkt_head p ∧ ASSOC_ID f0 = ASSOC_ID p ∧ PKT_ID f0 = PKT_ID p ∧ ADDR f0 = ADDR p.
Proof.
  intros Hd Hf Ha. destruct fuel as [|fuel]; [lia|]. destruct (DATA p) as [|x data]; [done|].
  cbn [cut]. csimpl. do 2 eexists. split; [done|]. unfold received. simpl.
  by rewrite (proj2 (Z.eqb_neq _ _)) by done.
Qed.

(** C33: A packet with an address that is cut into 2 to 255 fragments is restored by the
    peer: each datagram carries at most [fragSize] bytes of payload and reads back as its
    fragment.  When the peer has no bag for the number of the packet, and all fragments
    arrive once, in any order and within ten seconds, among packets with other numbers,
    it has the original packet at the last of them and nothing before that. *)
Theorem tuic_udp_end_to_end `{!DList positive L elem} p k n :
  head_TYPE (pkt_head p) = PacketType → u16_ok (ASSOC_ID p) → u16_ok (PKT_ID p) →
  Address_ok (ADDR p) → addr_TYPE (ADDR p) ≠ AtypNone → len (DATA p) < 65536 →
  (0 < k)%nat → Z.of_nat k < 65536 →
  n = (len (DATA p) + Z.of_nat k - 1) / Z.of_nat k → 1 < n ≤ 255 →
  ∃ ds fr, fragWriteNative record_send [] p (Z.of_nat k) = Ret (Ok ds) ∧
    Forall2 (λ b f, ReadPacket b = Got f [] ∧ len (DATA f) ≤ Z.of_nat k) ds fr ∧
    ∀ (d : deFragger (L := L)) t0 ms,
      mine (PKT_ID p) ms ≡ₚ fr → Forall (λ x, window t0 x.1 ∧ wire_ok x.2) ms →
      holds d (PKT_ID p) t0 None →
      ∃ rs d', FeedAll d ms = Ret (rs, d') ∧ holds d' (PKT_ID p) t0 None ∧
        mine_out (PKT_ID p) ms rs = replicate (Z.to_nat (n - 1)) None ++ [Some (restored p)].
Proof.
  intros Ht Has Hpk Ha Hty Hlen Hk Hk2 Hn Hn2.
  set (p' := set_FRAG_TOTAL p n). set (c := cut (length (DATA p)) k p' 0 (DATA p)).
  exists (Packet_bytes <$> c), (received <$> c). split.
  { rewrite fragWriteNative_cut by lia. by rewrite <- Hn. }
  assert (len c = n) as Hc by (unfold c; rewrite cut_length by lia; done).
  assert (DATA p ≠ []) as Hne.
  { intros He. rewrite He in Hn. simpl in Hn. rewrite Z.div_small in Hn by lia. lia. }
  split.
  { apply Forall2_fmap, Forall_Forall2_diag. apply Forall_and. split.
    - eapply Forall_impl; [apply cut_received with (k := k)|]; try lia.
      + split; try done; [unfold u8_ok; simpl; lia|by right].
      + fold c. lia.
      + intros f Hf. rewrite <- received_bytes. rewrite <- (app_nil_r (Packet_bytes _)).
        by apply ReadPacket_bytes.
    - eapply Forall_impl; [apply cut_fields|]. intros f (_ & _ & _ & _ & Hl).
      by destruct (received_fields f) as (_ & _ & _ & ->). }
  intros d t0 ms Hm Hw Hh.
  assert (0 < length (DATA p))%nat as Hpos by (destruct (DATA p); simpl; [done|lia]).
  destruct (cut_head p k n (length (DATA p)) Hne Hpos Hty) as (f0 & frs & Efr & Hf0).
  pose proof (cut_fragments p k n Hk Hn Hn2) as Hfr. fold p' c in Efr, Hfr.
  destruct (FeedAll_progress (PKT_ID p) (received <$> c) t0 ms [] (mine (PKT_ID p) ms) d)
    as (rs & d' & He & Ho & Hh'); [done|done|done|done|case_decide; exact Hh|].
  exists rs, d'. split; [done|]. split; [done|]. rewrite Ho.
  rewrite (answers_all _ f0 frs) by (done || by apply Permutation_length).
  apply (f_equal length) in Efr as Hl. rewrite length_fmap in Hl. simpl in Hl.
  replace (length frs) with (Z.to_nat (n - 1)) by lia. do 3 f_equal.
  unfold whole, restored. destruct Hf0 as (-> & -> & -> & ->).
  rewrite received_data. unfold c. rewrite cut_data by lia. by rewrite (wrapu_small 16) by lia.
Qed.

Module Examples.
Import ListModel.

Definition big : Packet :=
  NewPacket 1 5 1 0 6 (NewAddressAddrPort (mkAddrPort (Addr4 16909060) 53)) [1; 2; 3; 4; 5; 6].

Definition noise : Packet :=
  NewPacket 2 6 3 1 1 (mkAddress AtypNone [] 0) [9].

(** The two fragments of [big] that the peer reads, in pieces of four bytes. *)
Definition pieces : list Packet :=
  received <$> cut 6 4 (set_FRAG_TOTAL big 2) 0 (DATA big).

Definition piece (i : nat) : Packet := default noise (pieces !! i).

(** The second fragment first, with a fragment of another packet in between. *)
Definition arrivals : list (Z * Packet) :=
  [(100, piece 1); (101, noise); (103, piece 0)].

Lemma tuic_reassembly_witness :
  ∃ rs (d' : deFragger (L := list (nat * positive))),
    FeedAll empty_deFragger arrivals = Ret (rs, d') ∧
    mine_out 5 arrivals rs = [None; Some (restored big)] ∧ holds d' 5 100 None.
Proof.
  apply (tuic_reassembly empty_deFragger 5 100 arrivals pieces (piece 0) [piece 1]).
  - done.
  - split; [repeat constructor|done|vm_compute; lia].
  - apply (Permutation_swap (piece 0) (piece 1) []).
  - repeat (constructor; [repeat split; vm_compute; congruence|]). constructor.
  - apply empty_holds.
Defined.

Lemma tuic_udp_end_to_end_witness :
  ∃ ds, fragWriteNative record_send [] big 4 = Ret (Ok ds) ∧
    Forall2 (λ b f, ReadPacket b = Got f [] ∧ len (DATA f) ≤ 4) ds pieces ∧
    ∃ rs (d' : deFragger (L := list (nat * positive))),
      FeedAll empty_deFragger arrivals = Ret (rs, d') ∧ holds d' 5 100 None ∧
      mine_out 5 arrivals rs = [None; Some (restored big)].
Proof.
  destruct (tuic_udp_end_to_end (L := list (nat * positive)) big 4 2)
    as (ds & fr & H1 & H2 & H3); try done; [by apply ok_ipv4|lia|].
  change (Z.of_nat 4) with 4 in H1, H2. assert (fr = pieces) as ->.
  { assert (fragWriteNative record_send [] big 4 = Ret (Ok (Packet_bytes <$> pieces))) as E by (vm_compute; reflexivity).
    rewrite E in H1. injection H1 as <-. clear -H2.
    apply Forall2_cons_inv_l in H2 as (f0 & fr1 & [Hf0 _] & H2 & ->).
    apply Forall2_cons_inv_l in H2 as (f1 & fr2 & [Hf1 _] & H2 & ->). apply Forall2_nil_inv_l in H2 as ->.
    vm_compute in Hf0, Hf1. injection Hf0 as <-. injection Hf1 as <-. reflexivity. }
  exists ds. split; [exact H1|]. split; [exact H2|]. apply (H3 empty_deFragger 100 arrivals).
  - apply (Permutation_swap (piece 0) (piece 1) []).
  - repeat (constructor; [repeat split; vm_compute; congruence|]). constructor.
  - apply empty_holds.
Defined.

(** The number of fragments is kept in eight bits: of 258 fragments, the first two pass
    for a whole packet of two. *)
Definition long : Packet :=
  NewPacket 1 5 1 0 258 (NewAddressAddrPort (mkAddrPort (Addr4 16909060) 53)) (replicate 258 7).

Example fragment_count_wraps :
  match fragWriteNative record_send [] long 1 with
  | Ret (Ok (b0 :: b1 :: ds)) =>
    length ds = 256%nat ∧
    match ReadPacket b0, ReadPacket b1 with
    | Got f0 _, Got f1 _ =>
      match FeedAll (empty_deFragger (L := list (nat * positive))) [(100, f0); (100, f1)] with
      | Ret ([None; Some p], _) => ADDR p = ADDR long ∧ DATA p = [7; 7]
      | _ => False
      end
    | _, _ => False
    end
  | _ => False
  end.
Proof. vm_compute. done. Qed.

End Examples.
