(* ===== verification/TuicServer.v ===== *)
(** * The TUIC v5 server handler ([transport/tuic/v5/server.go])

    One handler serves one QUIC connection.  Streams and datagrams are handled by
    goroutines that parse their command and then wait for the authentication
    channel to be closed; [waiting] holds the goroutines that reached that point,
    and a [Resume] event lets one of them go on, in any order.  [authOnce] makes
    the first decision final. *)

From S2P Require Import Prelude Lru Wire NetIP Metadata TuicV5 TuicFrag.

(** QUIC error codes. *)
Definition AuthenticationFailed : Z := 4294967281.
Definition AuthenticationTimeout : Z := 4294967282.

Section server.
Context {L elem : Type} `{!DList positive L elem}.

(** The users of the configuration, and the keying material of the TLS session. *)
Context (Users : gmap (list Z) string) (GenToken : list Z → string → result (list Z)).

Record serverUDPInput := mkInput { writeClosed : bool; input_frag : deFragger (L := L) (elem := elem) }.

(** A goroutine at [<-s.authCh]. *)
Inductive blocked : Type :=
| InPacket (packet : Packet)
| InStream (connect : Connect) (rest : list Z).

(** Calls of [HandleTcpFn] and [HandleUdpFn], with the user they are charged to. *)
Inductive delivery : Type :=
| ToTcp (addr : list Z) (rest : list Z) (user : list Z)
| ToUdp (addr : list Z) (data : list Z) (user : list Z).

Definition delivery_user (x : delivery) : list Z :=
  match x with ToTcp _ _ u => u | ToUdp _ _ u => u end.

Record serverHandler := mkHandler {
  authClosed : bool;
  authOk : bool;
  authUUID : list Z;
  closedWith : option Z;
  udpInputMap : gmap Z positive;
  inputs : gmap positive serverUDPInput;
  waiting : list blocked;
  delivered : list delivery;
  crashed : bool;
}.

Definition NewServerHandler : serverHandler :=
  mkHandler false false [] None ∅ ∅ [] [] false.

Definition set_auth (s : serverHandler) (ok : bool) (uuid : list Z) (err : option Z) :=
  mkHandler true ok uuid (match err with Some _ => err | None => closedWith s end)
    (udpInputMap s) (inputs s) (waiting s) (delivered s) (crashed s).
Definition set_udp (s : serverHandler) m i :=
  mkHandler (authClosed s) (authOk s) (authUUID s) (closedWith s) m i (waiting s)
    (delivered s) (crashed s).
Definition set_waiting (s : serverHandler) w :=
  mkHandler (authClosed s) (authOk s) (authUUID s) (closedWith s) (udpInputMap s) (inputs s)
    w (delivered s) (crashed s).
Definition deliver (s : serverHandler) x :=
  mkHandler (authClosed s) (authOk s) (authUUID s) (closedWith s) (udpInputMap s) (inputs s)
    (waiting s) (delivered s ++ [x]) (crashed s).
Definition crash (s : serverHandler) :=
  mkHandler (authClosed s) (authOk s) (authUUID s) (closedWith s) (udpInputMap s) (inputs s)
    (waiting s) (delivered s) true.

(** [AuthOk]. *)
Definition AuthOk (s : serverHandler) : bool := authOk s.

(** [s.authOnce.Do(...)]. *)
Definition authOnce (s : serverHandler) (f : serverHandler → serverHandler) : serverHandler :=
  if authClosed s then s else f s.

Definition HandleTimeout (s : serverHandler) : serverHandler :=
  authOnce s (λ s, set_auth s false (authUUID s) (Some AuthenticationTimeout)).

(** Continue with the result of a reader; an error ends the goroutine and a panic
    the process. *)
Definition on_read {A} (s : serverHandler) (r : rd_result A)
    (k : A → list Z → serverHandler) : serverHandler :=
  match r with
  | Got a rest => k a rest
  | Fail _ => s
  | Crash _ => crash s
  end.

Definition block (s : serverHandler) (b : blocked) : serverHandler :=
  set_waiting s (waiting s ++ [b]).

Definition HandleMessage (s : serverHandler) (message : list Z) : serverHandler :=
  on_read s (ReadCommandHead message) (λ commandHead reader,
    if head_TYPE commandHead =? PacketType then
      on_read s (ReadPacketWithHead commandHead reader) (λ packet _, block s (InPacket packet))
    else if head_TYPE commandHead =? HeartbeatType then
      on_read s (ReadHeartbeatWithHead commandHead reader) (λ _ _, s)
    else s).

(** [parsePacket] after [<-s.authCh]. *)
Definition parsePacket (s : serverHandler) (now : Z) (packet : Packet) : serverHandler :=
  if negb (authOk s) then s
  else
    let assocId := ASSOC_ID packet in
    let '(p, m, ins) :=
      match udpInputMap s !! assocId with
      | Some p => (p, udpInputMap s, inputs s)
      | None =>
        let p := alloc (inputs s) in
        (p, <[assocId := p]> (udpInputMap s), <[p := mkInput false empty_deFragger]> (inputs s))
      end in
    let s := set_udp s m ins in
    match ins !! p with
    | None => crash s
    | Some input =>
      if writeClosed input then s
      else
        match Feed (input_frag input) now packet with
        | Ret (r, d) =>
          let s := set_udp s m (<[p := mkInput (writeClosed input) d]> ins) in
          match r with
          | None => s
          | Some packetPtr =>
            deliver s (ToUdp (Address_SocksAddr (ADDR packetPtr)) (DATA packetPtr) (authUUID s))
          end
        | _ => crash s
        end
    end.

(** [HandleStream] up to and after [<-s.authCh]. *)
Definition HandleStream (s : serverHandler) (conn : list Z) : serverHandler :=
  on_read s (ReadConnect conn) (λ connect rest, block s (InStream connect rest)).

Definition HandleStream_authed (s : serverHandler) (connect : Connect) (rest : list Z) :
    serverHandler :=
  if negb (authOk s) then s
  else deliver s (ToTcp (Address_SocksAddr (conn_ADDR connect)) rest (authUUID s)).

(** The verdict on an AUTHENTICATE, with the user it names. *)
Definition checkAuth (authenticate : Authenticate) : result (bool * list Z) :=
  match Users !! auth_UUID authenticate with
  | Some password =>
    match GenToken (auth_UUID authenticate) password with
    | Err e => Err e
    | Ok token =>
      if bool_decide (token = auth_TOKEN authenticate)
      then Ok (true, auth_UUID authenticate)
      else Ok (false, replicate 16 0)
    end
  | None => Ok (false, replicate 16 0)
  end.

Definition HandleUniStream (s : serverHandler) (reader : list Z) : serverHandler :=
  on_read s (ReadCommandHead reader) (λ commandHead reader,
    if head_TYPE commandHead =? AuthenticateType then
      on_read s (ReadAuthenticateWithHead commandHead reader) (λ authenticate _,
        match checkAuth authenticate with
        | Err _ => s
        | Ok (ok, uuid) =>
          authOnce s (λ s,
            set_auth s ok uuid (if negb ok then Some AuthenticationFailed else None))
        end)
    else if head_TYPE commandHead =? PacketType then
      on_read s (ReadPacketWithHead commandHead reader) (λ packet _, block s (InPacket packet))
    else if head_TYPE commandHead =? DissociateType then
      on_read s (ReadDissociateWithHead commandHead reader) (λ dissociate _,
        match udpInputMap s !! diss_ASSOC_ID dissociate with
        | None => s
        | Some p =>
          set_udp s (delete (diss_ASSOC_ID dissociate) (udpInputMap s))
            (alter (λ i, mkInput true (input_frag i)) p (inputs s))
        end)
    else s).

(** ** Histories of a connection *)

Inductive event : Type :=
| Message (message : list Z)
| UniStream (stream : list Z)
| Stream (stream : list Z)
| Timeout_
| Resume (i : nat) (now : Z).

Definition step (s : serverHandler) (e : event) : serverHandler :=
  if crashed s then s
  else
    match e with
    | Message m => HandleMessage s m
    | UniStream r => HandleUniStream s r
    | Stream r => HandleStream s r
    | Timeout_ => HandleTimeout s
    | Resume i now =>
      if negb (authClosed s) then s
      else
        match waiting s !! i with
        | None => s
        | Some b =>
          let s := set_waiting s (delete i (waiting s)) in
          match b with
          | InPacket packet => parsePacket s now packet
          | InStream connect rest => HandleStream_authed s connect rest
          end
        end
    end.

Definition run (s : serverHandler) (es : list event) : serverHandler := foldl step s es.

(** ** Lemmas *)

Lemma run_app s es1 es2 : run s (es1 ++ es2) = run (run s es1) es2.
Proof. apply foldl_app. Qed.

(** A reader that fails changes nothing but possibly [crashed]. *)
Lemma on_read_inv {A} (P : serverHandler → Prop) s (r : rd_result A) k :
  P s → P (crash s) → (∀ a rest, r = Got a rest → P (k a rest)) → P (on_read s r k).
Proof. intros. destruct r; simpl; auto. Qed.

(** [e] is an AUTHENTICATE that proves knowledge of the password of [u]. *)
Definition grants (e : event) (u : list Z) : Prop :=
  ∃ bs a rest pw, e = UniStream bs ∧ ReadAuthenticate bs = Got a rest ∧ auth_UUID a = u ∧
    Users !! u = Some pw ∧ GenToken u pw = Ok (auth_TOKEN a).

Record auth_inv (es : list event) (s : serverHandler) : Prop := {
  ai_closed : authOk s = true → authClosed s = true;
  ai_granted : authOk s = true → ∃ e, e ∈ es ∧ grants e (authUUID s);
  ai_user : Forall (λ x, delivery_user x = authUUID s) (delivered s);
  ai_deliver : authOk s = false → delivered s = [];
}.

(** Changes that leave the authentication and the deliveries alone. *)
Definition same_auth (s s' : serverHandler) : Prop :=
  authOk s' = authOk s ∧ authClosed s' = authClosed s ∧ authUUID s' = authUUID s ∧
  delivered s' = delivered s.

Lemma auth_inv_same es es' s s' :
  auth_inv es s → same_auth s s' → (∀ e, e ∈ es → e ∈ es') → auth_inv es' s'.
Proof.
  intros [Hc Hg Hu Hd] (H1 & H2 & H3 & H4) Hes.
  split; rewrite ?H1, ?H2, ?H3, ?H4; auto.
  intros Hok. destruct (Hg Hok) as (e & He & Hgr). eauto.
Qed.

Lemma auth_inv_deliver es es' s x :
  auth_inv es s → authOk s = true → delivery_user x = authUUID s →
  (∀ e, e ∈ es → e ∈ es') → auth_inv es' (deliver s x).
Proof.
  intros [Hc Hg Hu Hd] Hok Hx Hes. split; simpl; [done| | |congruence].
  - intros _. destruct (Hg Hok) as (e & He & Hgr). eauto.
  - apply Forall_app. by split; [|constructor].
Qed.

Lemma parsePacket_inv es es' s now packet :
  auth_inv es s → (∀ e, e ∈ es → e ∈ es') → auth_inv es' (parsePacket s now packet).
Proof.
  intros Hi Hes. unfold parsePacket. destruct (authOk s) eqn:Hok; simpl.
  2: { by eapply auth_inv_same. }
  destruct (match udpInputMap s !! ASSOC_ID packet with Some _ => _ | None => _ end) as [[p m] ins].
  destruct (ins !! p) as [input|]; [|by eapply auth_inv_same].
  destruct (writeClosed input); [by eapply auth_inv_same|].
  destruct (Feed _ _ _) as [[[q|] d]| |]; try (by eapply auth_inv_same).
  eapply auth_inv_deliver; [|done|done|done]. by eapply auth_inv_same.
Qed.

Lemma checkAuth_true a u :
  checkAuth a = Ok (true, u) →
  auth_UUID a = u ∧ ∃ pw, Users !! u = Some pw ∧ GenToken u pw = Ok (auth_TOKEN a).
Proof.
  unfold checkAuth. destruct (Users !! auth_UUID a) as [pw|] eqn:Hu; [|done].
  destruct (GenToken (auth_UUID a) pw) as [t|] eqn:Hg; [|done].
  case_bool_decide; [|done]. intros [= <-]. subst. eauto.
Qed.

Lemma auth_inv_check es s r a rest :
  auth_inv es s → ReadAuthenticate r = Got a rest →
  auth_inv (es ++ [UniStream r])
    (match checkAuth a with
     | Err _ => s
     | Ok (ok, uuid) =>
       authOnce s (λ s, set_auth s ok uuid (if negb ok then Some AuthenticationFailed else None))
     end).
Proof.
  intros Hi Hr. assert (auth_inv (es ++ [UniStream r]) s) as Hkeep
    by (eapply auth_inv_same; [done|done|set_solver]).
  destruct (checkAuth a) as [[ok u]|] eqn:Hck; [|done]. unfold authOnce.
  destruct (authClosed s) eqn:Hc; [done|]. destruct Hi as [Hcl _ _ Hd].
  destruct (authOk s) eqn:Hok; [by rewrite Hcl in Hc|].
  split; simpl; [done| |by rewrite Hd|by intros; apply Hd].
  intros ->. apply checkAuth_true in Hck as (Hu & pw & Hpw & Hg).
  exists (UniStream r). split; [set_solver|]. by exists r, a, rest, pw.
Qed.

Lemma step_auth_inv es s e : auth_inv es s → auth_inv (es ++ [e]) (step s e).
Proof.
  intros Hi. assert (∀ x, x ∈ es → x ∈ es ++ [e]) as Hes by set_solver.
  assert (∀ s', same_auth s s' → auth_inv (es ++ [e]) s') as Hsame
    by (intros; by eapply auth_inv_same).
  unfold step. destruct (crashed s); [by apply Hsame|]. destruct e as [m|r|r| |i now].
  - unfold HandleMessage. apply on_read_inv; [by apply Hsame..|]. intros h rest _.
    destruct (_ =? _); [apply on_read_inv; intros; by apply Hsame|].
    destruct (_ =? _); [apply on_read_inv; intros; by apply Hsame|by apply Hsame].
  - unfold HandleUniStream. apply on_read_inv; [by apply Hsame..|]. intros h rest Hh.
    destruct (_ =? _).
    { apply on_read_inv; [by apply Hsame..|]. intros a rest2 Ha.
      assert (ReadAuthenticate r = Got a rest2) as Hr.
      { unfold ReadAuthenticate. by erewrite rd_bind_Got by exact Hh. }
      by eapply auth_inv_check. }
    destruct (_ =? _); [apply on_read_inv; intros; by apply Hsame|].
    destruct (_ =? _); [|by apply Hsame]. apply on_read_inv; [by apply Hsame..|].
    intros. destruct (_ !! _); by apply Hsame.
  - unfold HandleStream. apply on_read_inv; intros; by apply Hsame.
  - unfold HandleTimeout, authOnce. destruct (authClosed s) eqn:Hc; [by apply Hsame|].
    destruct Hi as [Hcl Hg Hu Hd]. destruct (authOk s) eqn:Hok; [by rewrite Hcl in Hc|].
    split; simpl; [done..|by rewrite Hd|by intros; apply Hd].
  - destruct (authClosed s); simpl; [|by apply Hsame].
    destruct (waiting s !! i) as [[p|c rest]|]; [| |by apply Hsame].
    + eapply parsePacket_inv; [|exact Hes]. by eapply auth_inv_same.
    + unfold HandleStream_authed. simpl. destruct (authOk s) eqn:Hok; simpl; [|by apply Hsame].
      eapply auth_inv_deliver; [|done|done|exact Hes]. by eapply auth_inv_same.
Qed.

Lemma run_auth_inv es : auth_inv es (run NewServerHandler es).
Proof.
  induction es as [|e es IH] using rev_ind; [by split|].
  rewrite run_app. by apply step_auth_inv.
Qed.

(** C18: Whatever a peer sends, in whatever order the goroutines run, a connection
    or a datagram is handed on only after an AUTHENTICATE with the token of a
    configured user, and it is charged to that user. *)
Theorem tuic_auth_required es x :
  x ∈ delivered (run NewServerHandler es) → ∃ e, e ∈ es ∧ grants e (delivery_user x).
Proof.
  intros Hx. destruct (run_auth_inv es) as [_ Hg Hu Hd].
  destruct (authOk (run NewServerHandler es)); [|rewrite Hd in Hx by done; set_solver].
  rewrite Forall_forall in Hu. rewrite (Hu x Hx). by apply Hg.
Qed.

(** ** The first decision is final *)

Definition decided (s s' : serverHandler) : Prop :=
  authClosed s' = true ∧ authOk s' = authOk s ∧ authUUID s' = authUUID s ∧
  (authOk s = false → delivered s' = delivered s).

Lemma step_decided s e : authClosed s = true → decided s (step s e).
Proof.
  intros Hc. unfold step. assert (decided s s) as Hs by done.
  assert (∀ s', same_auth s s' → decided s s') as Hsame.
  { intros s' (H1 & H2 & H3 & H4). unfold decided. by rewrite H1, H2, H3, H4. }
  destruct (crashed s); [done|]. destruct e as [m|r|r| |i now].
  - unfold HandleMessage. apply on_read_inv; [by apply Hsame..|]. intros h rest _.
    destruct (_ =? _); [apply on_read_inv; intros; by apply Hsame|].
    destruct (_ =? _); [apply on_read_inv; intros; by apply Hsame|done].
  - unfold HandleUniStream. apply on_read_inv; [by apply Hsame..|]. intros h rest _.
    destruct (_ =? _).
    { apply on_read_inv; [by apply Hsame..|]. intros a rest2 _.
      destruct (checkAuth a) as [[ok u]|]; [|done]. unfold authOnce. by rewrite Hc. }
    destruct (_ =? _); [apply on_read_inv; intros; by apply Hsame|].
    destruct (_ =? _); [|done]. apply on_read_inv; [by apply Hsame..|].
    intros. destruct (_ !! _); by apply Hsame.
  - unfold HandleStream. apply on_read_inv; intros; by apply Hsame.
  - unfold HandleTimeout, authOnce. by rewrite Hc.
  - rewrite Hc. simpl. destruct (waiting s !! i) as [[p|c rest]|]; [| |done].
    + unfold parsePacket. simpl. destruct (authOk s) eqn:Hok; simpl; [|by apply Hsame].
      destruct (match udpInputMap s !! ASSOC_ID p with Some _ => _ | None => _ end)
        as [[q m] ins].
      destruct (ins !! q) as [input|]; [|by apply Hsame].
      destruct (writeClosed input); [by apply Hsame|].
      destruct (Feed _ _ _) as [[[r|] d]| |]; try (by apply Hsame).
      split_and!; simpl; congruence.
    + unfold HandleStream_authed. simpl. destruct (authOk s) eqn:Hok;
        simpl; split_and!; simpl; congruence.
Qed.

Lemma run_decided s es : authClosed s = true → decided s (run s es).
Proof.
  revert s. induction es as [|e es IH]; intros s Hc; [done|]. simpl.
  destruct (step_decided s e Hc) as (H1 & H2 & H3 & H4).
  destruct (IH (step s e) H1) as (E1 & E2 & E3 & E4).
  split_and!; [done|congruence|congruence|]. intros Hok. rewrite E4, H4 by congruence. done.
Qed.

(** The first decision, success, failure or timeout, is final: later
    AUTHENTICATEs and the timer change neither the verdict nor the user, and after
    a failure nothing is ever handed on. *)
Theorem tuic_auth_final s es :
  authClosed s = true →
  authClosed (run s es) = true ∧ authOk (run s es) = authOk s ∧
  authUUID (run s es) = authUUID s ∧
  (authOk s = false → delivered (run s es) = delivered s).
Proof. apply run_decided. Qed.

Lemma step_Stream s bs c rest :
  crashed s = false → ReadConnect bs = Got c rest →
  step s (Stream bs) = block s (InStream c rest).
Proof. intros Hc Hr. unfold step, HandleStream. by rewrite Hc, Hr. Qed.

Lemma step_Authenticate s bs a rest :
  crashed s = false → ReadAuthenticate bs = Got a rest →
  step s (UniStream bs) =
    match checkAuth a with
    | Err _ => s
    | Ok (ok, uuid) =>
      authOnce s (λ s, set_auth s ok uuid (if negb ok then Some AuthenticationFailed else None))
    end.
Proof.
  intros Hc Hr. unfold step, HandleUniStream. rewrite Hc.
  unfold ReadAuthenticate, mbind, rd_bind in Hr.
  destruct (ReadCommandHead bs) as [h r| |]; [|done..]. simpl. unfold ReadAuthenticateWithHead in *.
  destruct (head_TYPE h =? AuthenticateType); [|done]. simpl in *. by rewrite Hr.
Qed.

(** ** An authenticated stream is served *)

(** What one event does to the goroutines that wait and to what is handed on. *)
Definition progress (e : event) (s s' : serverHandler) : Prop :=
  delivered s `prefix_of` delivered s' ∧
  ∀ b, b ∈ waiting s → b ∈ waiting s' ∨
    ∃ i now, e = Resume i now ∧ authClosed s = true ∧ waiting s !! i = Some b.

Lemma progress_same e s s' :
  delivered s' = delivered s → waiting s `prefix_of` waiting s' → progress e s s'.
Proof. intros Hd [w Hw]. split; [by rewrite Hd|]. intros b Hb. left. rewrite Hw. set_solver. Qed.

Lemma parsePacket_progress s now packet :
  delivered s `prefix_of` delivered (parsePacket s now packet) ∧ waiting (parsePacket s now packet) = waiting s.
Proof.
  unfold parsePacket. destruct (authOk s); simpl; [|done].
  destruct (match udpInputMap s !! ASSOC_ID packet with Some _ => _ | None => _ end) as [[q m] ins].
  destruct (ins !! q) as [input|]; [|done]. destruct (writeClosed input); [done|].
  destruct (Feed _ _ _) as [[[r|] d]| |]; simpl; try done. split; [by apply prefix_app_r|done].
Qed.

Lemma delete_elem_of {A} (l : list A) i x : x ∈ l → x ∈ delete i l ∨ l !! i = Some x.
Proof.
  revert i. induction l as [|y l IH]; intros i Hx; [set_solver|].
  destruct i as [|i]; simpl; apply elem_of_cons in Hx as [->|Hx]; [by right|by left|left; left|].
  destruct (IH i Hx); [left; by right|by right].
Qed.

Lemma step_progress s e : progress e s (step s e).
Proof.
  assert (∀ s', delivered s' = delivered s → waiting s' = waiting s → progress e s s') as Hsame.
  { intros s' Hd Hw. apply progress_same; [done|by rewrite Hw]. }
  assert (∀ b, progress e s (block s b)) as Hblock.
  { intros b. apply progress_same; [done|]. by apply prefix_app_r. }
  unfold step. destruct (crashed s); [by apply Hsame|]. destruct e as [m|r|r| |i now].
  - unfold HandleMessage. apply on_read_inv; [by apply Hsame..|]. intros h rest _.
    destruct (_ =? _); [apply on_read_inv; intros; [by apply Hsame..|apply Hblock]|].
    destruct (_ =? _); [apply on_read_inv; intros; by apply Hsame|by apply Hsame].
  - unfold HandleUniStream. apply on_read_inv; [by apply Hsame..|]. intros h rest _.
    destruct (_ =? _).
    { apply on_read_inv; [by apply Hsame..|]. intros a rest2 _.
      destruct (checkAuth a) as [[ok u]|]; [|by apply Hsame]. unfold authOnce.
      destruct (authClosed s); by apply Hsame. }
    destruct (_ =? _); [apply on_read_inv; intros; [by apply Hsame..|apply Hblock]|].
    destruct (_ =? _); [|by apply Hsame]. apply on_read_inv; [by apply Hsame..|].
    intros. destruct (_ !! _); by apply Hsame.
  - unfold HandleStream. apply on_read_inv; intros; [by apply Hsame..|apply Hblock].
  - unfold HandleTimeout, authOnce. destruct (authClosed s); by apply Hsame.
  - destruct (authClosed s) eqn:Hc; simpl; [|by apply Hsame].
    destruct (waiting s !! i) as [w|] eqn:Hw; [|by apply Hsame]. split.
    { destruct w as [p|c rest]; [apply (parsePacket_progress (set_waiting s (delete i (waiting s))))|].
      unfold HandleStream_authed. destruct (negb _); [done|by apply prefix_app_r]. }
    intros b Hb. destruct (delete_elem_of _ i _ Hb) as [Hd|Hd]; [left|right; eauto].
    destruct w as [p|c rest]; [by rewrite (proj2 (parsePacket_progress (set_waiting s _) now p))|].
    unfold HandleStream_authed. by destruct (negb _).
Qed.

(** A stream that was read is waiting, or a decision was made and, if it let the user in,
    the stream was handed on. *)
Definition served (c : Connect) (rest : list Z) (s : serverHandler) : Prop :=
  InStream c rest ∈ waiting s ∨
  authClosed s = true ∧ (authOk s = true → ToTcp (Address_SocksAddr (conn_ADDR c)) rest (authUUID s) ∈ delivered s).

Lemma step_served c rest s e : served c rest s → served c rest (step s e).
Proof.
  intros Hs. destruct (step_progress s e) as [[more Hd] Hw]. destruct Hs as [Hs|[Hc Hs]].
  - destruct (Hw _ Hs) as [?|(i & now & -> & Hc & Hi)]; [by left|].
    unfold step in *. rewrite Hc, Hi in *. cbn [negb] in *. destruct (crashed s); [by left|]. right.
    unfold HandleStream_authed. cbn [set_waiting authOk]. destruct (authOk s) eqn:Hok; cbn [negb].
    + split; [done|]. intros _. apply elem_of_app. right. by left.
    + split; [done|]. cbn [set_waiting authOk]. congruence.
  - destruct (step_decided s e Hc) as (H1 & H2 & H3 & _). right. split; [done|]. rewrite H2, H3, Hd. set_solver.
Qed.

Lemma run_served c rest s es : served c rest s → served c rest (run s es).
Proof. revert s. induction es as [|e es IH]; intros s Hs; [done|]. apply IH. by apply step_served. Qed.

Lemma run_crashed s es : crashed s = true → run s es = s.
Proof. intros Hc. induction es as [|e es IH]; [done|]. simpl. unfold step at 1. by rewrite Hc. Qed.

Lemma run_uncrashed s es1 es2 : crashed (run s (es1 ++ es2)) = false → crashed (run s es1) = false.
Proof.
  rewrite run_app. destruct (crashed (run s es1)) eqn:Hc; [|done]. by rewrite run_crashed, Hc.
Qed.

(** The authentication of a configured user, in a state without a decision. *)
Lemma run_authenticated u pw token s es :
  Users !! u = Some pw → GenToken u pw = Ok token → length u = 16%nat → length token = 32%nat →
  crashed s = false → authClosed s = false →
  let s' := run s (UniStream (Authenticate_bytes (NewAuthenticate u token)) :: es) in
  authClosed s' = true ∧ authOk s' = true ∧ authUUID s' = u.
Proof.
  intros Hu Hg Hlu Hlt Hcr Hc. assert (Authenticate_ok (NewAuthenticate u token)) as Ha by done.
  cbn [run foldl]. rewrite <- (app_nil_r (Authenticate_bytes _)).
  erewrite step_Authenticate by (done || by apply ReadAuthenticate_bytes).
  unfold checkAuth. simpl auth_UUID. simpl auth_TOKEN. rewrite Hu, Hg, bool_decide_true by done.
  unfold authOnce. rewrite Hc. match goal with |- context [foldl step ?x es] => set (s1 := x) end.
  enough (authClosed (run s1 es) = true ∧ authOk (run s1 es) = true ∧ authUUID (run s1 es) = u) by done.
  by destruct (run_decided s1 es eq_refl) as (-> & -> & -> & _).
Qed.

(** C34: When a client authenticates with the token of a configured user before any other
    decision, and opens a stream to a destination (with a host name of less than 255
    bytes), before or after that and among any other traffic, then, unless other traffic
    crashes the server, its destination is dialled, charged to that user, or there is a
    waiting goroutine that does this, and nothing else, as soon as it runs. *)
Theorem tuic_authenticated_connect u pw token m rest es1 es2 :
  Users !! u = Some pw → GenToken u pw = Ok token →
  length u = 16%nat → length token = 32%nat →
  u16_ok (DstPort m) → len (string_bytes (Host m)) < 255 → Valid m = true →
  let authenticate := UniStream (Authenticate_bytes (NewAuthenticate u token)) in
  let s := run NewServerHandler (es1 ++ authenticate :: es2) in
  let dial := ToTcp (Address_SocksAddr (NewAddress m)) rest u in
  Stream (Connect_bytes (NewConnect (NewAddress m)) ++ rest) ∈ es1 ++ authenticate :: es2 →
  authClosed (run NewServerHandler es1) = false → crashed s = false →
  dial ∈ delivered s ∨ ∃ i, ∀ now, delivered (step s (Resume i now)) = delivered s ++ [dial].
Proof.
  intros Hu Hg Hlu Hlt Hp Hh Hv authenticate s dial Hin Hclosed Hcr.
  assert (Connect_ok (NewConnect (NewAddress m))) as Hc by (split; [done|by apply NewAddress_ok]).
  assert (authClosed s = true ∧ authOk s = true ∧ authUUID s = u) as (Hsc & Hok & Huu).
  { unfold s. rewrite run_app. eapply run_authenticated; try done. by eapply run_uncrashed. }
  assert (served (NewConnect (NewAddress m)) rest s) as [Hw|[_ Hd]].
  { apply list_elem_of_split in Hin as (l1 & l2 & Hl). unfold s in *. rewrite Hl in *.
    rewrite run_app. cbn [run foldl]. apply run_served. left.
    erewrite step_Stream by ((by eapply run_uncrashed) || by apply ReadConnect_bytes).
    apply elem_of_app. right. by left. }
  - right. apply list_elem_of_lookup in Hw as [i Hi]. exists i. intros now. unfold step. rewrite Hcr, Hsc, Hi. cbn [negb].
    unfold HandleStream_authed. cbn [set_waiting authOk]. rewrite Hok. simpl. by rewrite Huu.
  - left. specialize (Hd Hok). by rewrite Huu in Hd.
Qed.

(** C37: Four bytes on a fresh stream, before any authentication, panic the server:
    the length byte 255 of a domain wraps when one is added. *)
Theorem tuic_server_crash_unauthenticated s rest :
  crashed s = false →
  crashed (step s (Stream ([VER; ConnectType; AtypDomainName; 255] ++ rest))) = true.
Proof. intros Hc. unfold step. by rewrite Hc. Qed.

End server.

Module Examples.
Import ListModel.

Definition uuid : list Z := replicate 16 7.
Definition users : gmap (list Z) string := {[ uuid := "secret" ]}.
Definition token (u : list Z) (pw : string) : result (list Z) :=
  Ok (take 32 (string_bytes pw ++ u ++ replicate 32 0)).
Definition dest : Metadata := set_Host "example.com" zeroMetadata.

Abbreviation start := (NewServerHandler (L := list (nat * positive)) (elem := nat * positive)).

Definition client : list event :=
  [Stream (Connect_bytes (NewConnect (NewAddress dest)) ++ [1; 2]);
   UniStream (Authenticate_bytes (NewAuthenticate uuid
     (take 32 (string_bytes "secret" ++ uuid ++ replicate 32 0)))); Resume 0 0].

(** The usual order: the authentication first, a stream of another goroutine in between. *)
Definition usual : list event :=
  [Stream (Connect_bytes (NewConnect (NewAddress (set_Host "other.org" zeroMetadata)))); Resume 0 1;
   Stream (Connect_bytes (NewConnect (NewAddress dest)) ++ [1; 2])].

Lemma tuic_authenticated_connect_witness :
  let auth := UniStream (Authenticate_bytes (NewAuthenticate uuid
    (take 32 (string_bytes "secret" ++ uuid ++ replicate 32 0)))) in
  let dial := ToTcp (Address_SocksAddr (NewAddress dest)) [1; 2] uuid in
  let s := run users token start (auth :: usual) in
  (dial ∈ delivered s ∨ ∃ i, ∀ now, delivered (step users token s (Resume i now)) = delivered s ++ [dial]) ∧
  let s := run users token start client in
  (dial ∈ delivered s ∨ ∃ i, ∀ now, delivered (step users token s (Resume i now)) = delivered s ++ [dial]).
Proof.
  intros auth dial. split.
  - apply (tuic_authenticated_connect users token uuid "secret" _ dest [1; 2] [] usual); try (by vm_compute).
    right. right. right. left.
  - apply (tuic_authenticated_connect users token uuid "secret" _ dest [1; 2] (take 1 client) [Resume 0 0]); try (by vm_compute).
    left.
Defined.

(** Nothing else is dialled: the stream arrives before the authentication and after it. *)
Example client_dials :
  delivered (run users token start client) = [ToTcp (Address_SocksAddr (NewAddress dest)) [1; 2] uuid] ∧
  delivered (run users token start (List.nth 1 client Timeout_ :: usual ++ [Resume 0 2])) =
    [ToTcp (Address_SocksAddr (NewAddress (set_Host "other.org" zeroMetadata))) [] uuid;
     ToTcp (Address_SocksAddr (NewAddress dest)) [1; 2] uuid].
Proof. by vm_compute. Qed.

Lemma tuic_auth_required_witness :
  ∃ e, e ∈ client ∧ grants users token e uuid.
Proof.
  apply (tuic_auth_required (L := list (nat * positive)) users token client
           (ToTcp (Address_SocksAddr (NewAddress dest)) [1; 2] uuid)).
  vm_compute. left.
Defined.

Lemma tuic_auth_final_witness :
  delivered (run users token (HandleTimeout start)
    [UniStream (Authenticate_bytes (NewAuthenticate uuid (replicate 32 0))); Timeout_]) = [].
Proof. by apply (tuic_auth_final users token (HandleTimeout start)). Defined.

Lemma tuic_server_crash_unauthenticated_witness :
  crashed (step users token start (Stream ([VER; ConnectType; AtypDomainName; 255] ++ []))) = true.
Proof. by apply (tuic_server_crash_unauthenticated users token start). Defined.

End Examples.
