(* ===== verification/FakeIP.v ===== *)
(** * The fake-IP pool ([component/fakeip])

    The pool hands out addresses of a prefix to host names and finds the name of
    an address again.  The pool only knows the [store] interface; [StoreSpec] is
    what it relies on, and the theorems about the pool are proved against it.
    [MemoryStore] is the in-memory implementation: two LRU caches, from names to
    addresses and back, whose entries stay mirror images of each other although
    each evicts on its own. *)

From S2P Require Import Prelude Lru Wire NetIP GoStrings.

(** ** The store interface *)

Class Store (S : Type) := {
  GetByHost : S → string → outcome (Addr * bool * S);
  PutByHost : S → string → Addr → outcome S;
  GetByIP : S → Addr → outcome (string * bool * S);
  PutByIP : S → Addr → string → outcome S;
  DelByIP : S → Addr → outcome S;
  store_Exist : S → Addr → outcome bool;
  store_CloneTo : S → S → outcome S;      (** the target afterwards *)
  store_FlushFakeIP : S → outcome (result S);
  is_cachefile : bool;                    (** does the assertion to [cachefileStore] succeed *)
}.

(** A map in which no two names share an address. *)
Definition one_to_one (m : gmap string Addr) : Prop :=
  ∀ h h' ip, m !! h = Some ip → m !! h' = Some ip → h = h'.

(** What a store promises: [synced s m] says that [s] holds the pairs of [m], in
    both directions.  Adding a pair may evict others. *)
Class StoreSpec (S : Type) `{Store S} := {
  synced : S → gmap string Addr → Prop;
  synced_one s m : synced s m → one_to_one m;
  spec_GetByHost s m h : synced s m →
    ∃ s', synced s' m ∧ GetByHost s h =
      Ret (match m !! h with Some ip => (ip, true) | None => (AddrZero, false) end, s');
  spec_GetByIP s m ip : synced s m →
    ∃ s' h ok, synced s' m ∧ GetByIP s ip = Ret (h, ok, s') ∧
      if ok : bool then m !! h = Some ip else h = "" ∧ ∀ h', m !! h' ≠ Some ip;
  spec_Exist s m ip : synced s m →
    ∃ b, store_Exist s ip = Ret b ∧
      if b : bool then ∃ h, m !! h = Some ip else ∀ h, m !! h ≠ Some ip;
  spec_DelByIP s m ip : synced s m →
    ∃ s', DelByIP s ip = Ret s' ∧ synced s' (filter (λ p, p.2 ≠ ip) m);
  spec_Put s m h ip : synced s m → m !! h = None → (∀ h', m !! h' ≠ Some ip) →
    ∃ s1 s2 m', PutByIP s ip h = Ret s1 ∧ PutByHost s1 h ip = Ret s2 ∧ synced s2 m' ∧
      m' !! h = Some ip ∧ delete h m' ⊆ m;
  spec_Flush s m s' : synced s m → store_FlushFakeIP s = Ret (Ok s') → synced s' ∅;
  spec_Flush_total s m : synced s m → ∃ r, store_FlushFakeIP s = Ret r;
  spec_CloneTo s m t mt : synced s m → synced t mt →
    ∃ t' m', store_CloneTo s t = Ret t' ∧ synced t' m' ∧ (m' = m ∨ m' = mt);
}.

(** ** The pool *)

Definition offsetKey : string := "key-offset-fake-ip".
Definition cycleKey : string := "key-cycle-fake-ip".

Record Pool (S : Type) := mkPool {
  gateway : Addr;
  first : Addr;
  last : Addr;
  offset : Addr;
  cycle : bool;
  ipnet : Prefix;
  store : S;
}.
Arguments mkPool {S}.
Arguments gateway {S}.
Arguments first {S}.
Arguments last {S}.
Arguments offset {S}.
Arguments cycle {S}.
Arguments ipnet {S}.
Arguments store {S}.

Section pool.
Context {S : Type} `{Store S}.
Implicit Types p : Pool S.

Definition set_store p (s : S) : Pool S :=
  mkPool (gateway p) (first p) (last p) (offset p) (cycle p) (ipnet p) s.
Definition set_offset p (o : Addr) (cyc : bool) : Pool S :=
  mkPool (gateway p) (first p) (last p) o cyc (ipnet p) (store p).

Definition get p (host : string) : outcome (Addr * Pool S) :=
  let p := set_offset p (Next (offset p)) (cycle p) in
  let p := if negb (Less (offset p) (last p)) then set_offset p (first p) true else p in
  found ← (if cycle p then mret true else store_Exist (store p) (offset p));
  s ← (if found : bool then DelByIP (store p) (offset p) else mret (store p));
  s ← PutByIP s (offset p) host;
  mret (offset p, set_store p s).

Definition Lookup p (host : string) : outcome (Addr * Pool S) :=
  let host := ToLower host in
  '(ip, found, s) ← GetByHost (store p) host;
  let p := set_store p s in
  if found : bool then mret (ip, p)
  else
    '(ip, p) ← get p host;
    s ← PutByHost (store p) host ip;
    mret (ip, set_store p s).

Definition LookBack p (ip : Addr) : outcome (string * bool * Pool S) :=
  '(h, ok, s) ← GetByIP (store p) ip;
  mret (h, ok, set_store p s).

Definition Exist p (ip : Addr) : outcome bool := store_Exist (store p) ip.

Definition Gateway p : Addr := gateway p.
Definition Broadcast p : Addr := last p.
Definition IPNet p : Prefix := ipnet p.

Definition CloneFrom p (o : Pool S) : outcome (Pool S) :=
  s ← store_CloneTo (store o) (store p);
  let p := set_store p s in
  mret (if bool_decide (first o = first p) && bool_decide (last o = last p)
        then set_offset p (offset o) (cycle o) else p).

Definition FlushFakeIP p : outcome (result (Pool S)) :=
  r ← store_FlushFakeIP (store p);
  mret (match r with
        | Ok s => Ok (set_offset (set_store p s) (Prev (first p)) false)
        | Err e => Err e
        end).

Definition StoreState p : outcome (Pool S) :=
  if is_cachefile then
    s ← PutByHost (store p) offsetKey (offset p);
    s ← (if cycle p then PutByHost s cycleKey (offset p) else mret s);
    mret (set_store p s)
  else mret p.

(** [_ = p.FlushFakeIP()]: an error leaves the pool as it is. *)
Definition try_flush p : outcome (Pool S) :=
  r ← FlushFakeIP p;
  mret (match r with Ok p => p | Err _ => p end).

Definition restoreState p : outcome (Pool S) :=
  if is_cachefile then
    '(_, found, s) ← GetByHost (store p) cycleKey;
    let p := set_store p s in
    let p := if found : bool then set_offset p (offset p) true else p in
    '(off, found, s) ← GetByHost (store p) offsetKey;
    let p := set_store p s in
    if found : bool then
      if PrefixContains (ipnet p) off then mret (set_offset p off (cycle p))
      else try_flush p
    else
      b ← store_Exist (store p) (first p);
      if b : bool then try_flush p else mret p
  else mret p.

(** [New], given the store the options select; [PrefixLastIP] is [netipx]'s. *)
Definition New (PrefixLastIP : Prefix → Addr) (net : Prefix) (s : S) :
    outcome (result (Pool S)) :=
  let hostAddr := MaskedAddr net in
  let gateway := Next hostAddr in
  let first := Next (Next (Next gateway)) in
  let last := PrefixLastIP net in
  if negb (PrefixIsValid net) || negb (IsValid first) || negb (Less first last) then
    mret (Err (ErrMsg "ipnet don't have valid ip"))
  else
    p ← restoreState (mkPool gateway first last (Prev first) false net s);
    mret (Ok p).

End pool.

(** ** The range of a pool *)

(** The address of value [v] of the pool's family. *)
Definition at_ (is4 : bool) (v : Z) : Addr := if is4 then Addr4 v else Addr6 v "".
Definition width (is4 : bool) : Z := if is4 then 32 else 128.

Lemma at_inj is4 v w : at_ is4 v = at_ is4 w → v = w.
Proof. destruct is4; by intros [= ->]. Qed.

Lemma Next_at is4 v : v + 1 < 2 ^ width is4 → Next (at_ is4 v) = at_ is4 (v + 1).
Proof.
  intros Hv. destruct is4; unfold at_, Next, width in *;
    by rewrite (proj2 (Z.eqb_neq _ _)) by lia.
Qed.

Lemma Less_at is4 v w : Less (at_ is4 v) (at_ is4 w) = (v <? w).
Proof. by destruct is4. Qed.

Lemma Prev_at is4 v : 0 < v → Prev (at_ is4 v) = at_ is4 (v - 1).
Proof.
  intros Hv. destruct is4; unfold at_, Prev; by rewrite (proj2 (Z.eqb_neq _ _)) by lia.
Qed.

Section pool_spec.
Context {S : Type} `{StoreSpec S}.
Implicit Types p : Pool S.

(** The pool [p] serves the values [f <= v < l], was last at [o], and its store
    holds [m]. *)
Record pool_at p (is4 : bool) (f l o : Z) (m : gmap string Addr) : Prop := {
  pa_first : first p = at_ is4 f;
  pa_last : last p = at_ is4 l;
  pa_offset : offset p = at_ is4 o;
  pa_range : 1 ≤ f < l ∧ l < 2 ^ width is4;
  pa_cursor : f - 1 ≤ o < l;
  pa_store : synced (store p) m;
  pa_ips : ∀ h ip, m !! h = Some ip → ∃ v, ip = at_ is4 v ∧ f ≤ v < l;
}.

(** The next value of the cursor. *)
Definition advance (f l o : Z) : Z := if o + 1 <? l then o + 1 else f.

Lemma advance_range f l o : f < l → f - 1 ≤ o < l → f ≤ advance f l o < l.
Proof. unfold advance. destruct (Z.ltb_spec (o + 1) l); lia. Qed.

Lemma pool_at_store p is4 f l o m s m' :
  pool_at p is4 f l o m → synced s m' →
  (∀ h ip, m' !! h = Some ip → ∃ v, ip = at_ is4 v ∧ f ≤ v < l) →
  pool_at (set_store p s) is4 f l o m'.
Proof. intros [] ??. by split. Qed.

Lemma pool_at_advance p is4 f l o m :
  pool_at p is4 f l o m →
  ∃ c, let p1 := set_offset p (Next (offset p)) (cycle p) in
    (if negb (Less (offset p1) (last p1)) then set_offset p1 (first p1) true else p1)
      = set_offset p (at_ is4 (advance f l o)) c ∧
    pool_at (set_offset p (at_ is4 (advance f l o)) c) is4 f l (advance f l o) m.
Proof.
  intros [Hf Hl Ho Hr Hc Hs Hi]. cbn [offset last first set_offset].
  rewrite Ho, Hl, Hf, Next_at, Less_at by lia.
  pose proof (advance_range f l o ltac:(lia) Hc) as Ha. unfold advance in *.
  destruct (Z.ltb_spec (o + 1) l); eexists; (split; [reflexivity|]);
    split; simpl; first [done|lia].
Qed.

(** The address is free after the deletion that precedes every allocation. *)
Lemma get_free p is4 f l o m ip (found : bool) :
  pool_at p is4 f l o m → (∀ h, found = false → m !! h ≠ Some ip) →
  ∃ s m1, (if found then DelByIP (store p) ip else mret (store p)) = Ret s ∧
    synced s m1 ∧ m1 ⊆ m ∧ ∀ h, m1 !! h ≠ Some ip.
Proof.
  intros [_ _ _ _ _ Hs _] Hfree. destruct found.
  - destruct (spec_DelByIP (store p) m ip Hs) as (s & He & Hs').
    exists s, (filter (λ q, q.2 ≠ ip) m). split_and!; [done..|apply map_filter_subseteq|].
    intros h. by intros [_ ?]%map_lookup_filter_Some.
  - exists (store p), m. split_and!; try done. intros h. by apply Hfree.
Qed.

Lemma Lookup_spec p is4 f l o m host :
  pool_at p is4 f l o m →
  ∃ ip p' o' m', Lookup p host = Ret (ip, p') ∧ pool_at p' is4 f l o' m' ∧
    m' !! ToLower host = Some ip ∧
    match m !! ToLower host with
    | Some ip0 => ip = ip0 ∧ m' = m ∧ o' = o
    | None => o' = advance f l o ∧ ip = at_ is4 o' ∧ delete (ToLower host) m' ⊆ m
    end.
Proof.
  intros Hp. unfold Lookup. set (h := ToLower host).
  destruct (spec_GetByHost (store p) m h (pa_store _ _ _ _ _ _ Hp)) as (s0 & Hs0 & Hg).
  rewrite Hg. pose proof (pool_at_store _ _ _ _ _ _ s0 m Hp Hs0 (pa_ips _ _ _ _ _ _ Hp)) as Hp0.
  destruct (m !! h) as [ip0|] eqn:Hm; run.
  { exists ip0, (set_store p s0), o, m. done. }
  unfold get. destruct (pool_at_advance _ _ _ _ _ _ Hp0) as (c & Hadv & Hp1). cbv zeta in Hadv.
  cbv zeta. rewrite Hadv. set (o' := advance f l o) in *.
  set (p1 := set_offset (set_store p s0) (at_ is4 o') c) in *. cbn [offset cycle p1 set_offset].
  assert (∃ found : bool, (if c then mret true else store_Exist (store p1) (at_ is4 o')) = Ret found ∧
            ∀ h', found = false → m !! h' ≠ Some (at_ is4 o')) as (found & -> & Hfree).
  { destruct c; [by exists true|].
    destruct (spec_Exist (store p1) m (at_ is4 o') (pa_store _ _ _ _ _ _ Hp1)) as (b & Hb & Hbf).
    exists b. split; [done|]. by intros h' ->. }
  run. destruct (get_free p1 _ _ _ _ _ _ found Hp1 Hfree) as (s1 & m1 & -> & Hs1 & Hsub & Hno). run.
  assert (m1 !! h = None) as Hm1 by (eapply lookup_weaken_None; done).
  destruct (spec_Put s1 m1 h (at_ is4 o') Hs1 Hm1 Hno)
    as (s2 & s3 & m' & -> & Hput & Hs3 & Hh & Hdel). run. cbn [store set_store]. rewrite Hput. run.
  exists (at_ is4 o'), (set_store (set_store p1 s2) s3), o', m'. split; [done|]. split.
  - apply (pool_at_store p1 _ _ _ _ m); [done|done|]. intros h' ip' Hh'.
    destruct (decide (h' = h)) as [->|Hne].
    + exists o'. split; [congruence|]. apply advance_range; [|apply Hp]. destruct Hp. lia.
    + apply (pa_ips _ _ _ _ _ _ Hp h'). eapply lookup_weaken; [|exact Hsub].
      eapply lookup_weaken; [|exact Hdel]. by rewrite lookup_delete_ne.
  - split_and!; [done..|]. by etrans.
Qed.

Lemma LookBack_spec p is4 f l o m ip :
  pool_at p is4 f l o m →
  ∃ h (ok : bool) p', LookBack p ip = Ret (h, ok, p') ∧ pool_at p' is4 f l o m ∧
    if ok then m !! h = Some ip else h = "" ∧ ∀ h', m !! h' ≠ Some ip.
Proof.
  intros Hp. unfold LookBack.
  destruct (spec_GetByIP (store p) m ip (pa_store _ _ _ _ _ _ Hp)) as (s' & h & ok & Hs & -> & Hok).
  run. exists h, ok, (set_store p s'). split; [done|]. split; [|done].
  eapply pool_at_store; [done..|]. exact (pa_ips _ _ _ _ _ _ Hp).
Qed.

Lemma Flush_spec p is4 f l o m :
  pool_at p is4 f l o m →
  ∃ r, FlushFakeIP p = Ret r ∧ ∀ p', r = Ok p' → pool_at p' is4 f l (f - 1) ∅.
Proof.
  intros Hp. unfold FlushFakeIP.
  destruct (spec_Flush_total (store p) m (pa_store _ _ _ _ _ _ Hp)) as [r Hr]. rewrite Hr. run.
  eexists. split; [done|]. intros p' Hp'. destruct r as [s|]; [|done]. simplify_eq.
  pose proof (spec_Flush _ _ _ (pa_store _ _ _ _ _ _ Hp) Hr) as Hs.
  destruct Hp as [Hf Hl Ho Hra Hc _ _]. split; simpl; try done; [|lia].
  rewrite Hf. apply Prev_at. lia.
Qed.

(** ** Histories of a pool *)

Inductive pool_op : Type :=
| PLookup (host : string)
| PLookBack (ip : Addr)
| PFlush.

Definition pool_step p (op : pool_op) : outcome (Pool S) :=
  match op with
  | PLookup host => '(_, p) ← Lookup p host; mret p
  | PLookBack ip => '(_, _, p) ← LookBack p ip; mret p
  | PFlush => try_flush p
  end.

Fixpoint pool_run p (ops : list pool_op) : outcome (Pool S) :=
  match ops with
  | [] => mret p
  | op :: ops => p ← pool_step p op; pool_run p ops
  end.

Lemma pool_step_at p is4 f l o m op :
  pool_at p is4 f l o m →
  ∃ p' o' m', pool_step p op = Ret p' ∧ pool_at p' is4 f l o' m'.
Proof.
  intros Hp. destruct op as [host|ip|]; simpl.
  - destruct (Lookup_spec p _ _ _ _ _ host Hp) as (ip & p' & o' & m' & -> & Hp' & _). run. eauto.
  - destruct (LookBack_spec p _ _ _ _ _ ip Hp) as (h & ok & p' & -> & Hp' & _). run. eauto.
  - unfold try_flush. destruct (Flush_spec p _ _ _ _ _ Hp) as (r & -> & Hr). run.
    destruct r as [p'|]; [|by eauto]. specialize (Hr p' eq_refl). eauto.
Qed.

Lemma pool_run_at p is4 f l o m ops :
  pool_at p is4 f l o m →
  ∃ p' o' m', pool_run p ops = Ret p' ∧ pool_at p' is4 f l o' m'.
Proof.
  revert p o m. induction ops as [|op ops IH]; intros p o m Hp; simpl; [eauto|].
  destruct (pool_step_at p _ _ _ _ _ op Hp) as (p1 & o1 & m1 & -> & Hp1). run. by eapply IH.
Qed.

(** The operations that leave the records of a pool as they are when the host [h] has one:
    looking addresses back, and looking up that host in any capitalisation. *)
Definition quiet (h : string) (op : pool_op) : Prop :=
  match op with
  | PLookup host => ToLower host = h
  | PLookBack _ => True
  | PFlush => False
  end.

Lemma pool_run_quiet p is4 f l o m h ops :
  pool_at p is4 f l o m → is_Some (m !! h) → Forall (quiet h) ops →
  ∃ p', pool_run p ops = Ret p' ∧ pool_at p' is4 f l o m.
Proof.
  intros Hp [ip Hm] Hq. revert p Hp. induction Hq as [|op ops Hop _ IH]; intros p Hp; simpl; [eauto|].
  destruct op as [host|ip'|]; simpl in *; [| |done].
  - destruct (Lookup_spec p _ _ _ _ _ host Hp) as (ip1 & p1 & o1 & m1 & -> & Hp1 & _ & Hx).
    rewrite Hop, Hm in Hx. destruct Hx as (_ & -> & ->). run. by apply IH.
  - destruct (LookBack_spec p _ _ _ _ _ ip' Hp) as (h' & ok & p1 & -> & Hp1 & _). run. by apply IH.
Qed.

(** C19: After any history of a pool that was empty at first, the address handed out for a
    host lies in the pool's range.  As long as no other host is looked up and the pool is
    not flushed, looking that address up gives the host back in lower case, and asking
    again, in any capitalisation, gives the same address.  (Another host may be given the
    address later, when the cursor comes round to it or the store evicts the record.) *)
Theorem fakeip_lookup_lookback p is4 f l o ops host host' later :
  pool_at p is4 f l o ∅ → ToLower host' = ToLower host → Forall (quiet (ToLower host)) later →
  ∃ p1 v p2 p3 p4 p5, pool_run p ops = Ret p1 ∧
    Lookup p1 host = Ret (at_ is4 v, p2) ∧ f ≤ v < l ∧
    pool_run p2 later = Ret p3 ∧
    LookBack p3 (at_ is4 v) = Ret (ToLower host, true, p4) ∧
    Lookup p3 host' = Ret (at_ is4 v, p5).
Proof.
  intros Hp Hh Hq. destruct (pool_run_at p _ _ _ _ _ ops Hp) as (p1 & o1 & m1 & -> & Hp1).
  destruct (Lookup_spec p1 _ _ _ _ _ host Hp1) as (ip & p2 & o2 & m2 & Hl & Hp2 & Hm2 & _).
  destruct (pa_ips _ _ _ _ _ _ Hp2 _ _ Hm2) as (v & -> & Hv).
  destruct (pool_run_quiet p2 _ _ _ _ _ (ToLower host) later Hp2 (mk_is_Some _ _ Hm2) Hq) as (p3 & Hr & Hp3).
  destruct (LookBack_spec p3 _ _ _ _ _ (at_ is4 v) Hp3) as (h & ok & p4 & Hb & _ & Hok).
  destruct (Lookup_spec p3 _ _ _ _ _ host' Hp3) as (ip & p5 & o5 & m5 & Hl5 & _ & _ & Hx).
  rewrite Hh, Hm2 in Hx. destruct Hx as (-> & _).
  exists p1, v, p2, p3, p4, p5. do 4 (split; [done|]). split; [|done].
  destruct ok; [|destruct Hok as [_ Hn]; by destruct (Hn (ToLower host))].
  by rewrite Hb, (synced_one _ _ (pa_store _ _ _ _ _ _ Hp3) h (ToLower host) (at_ is4 v)).
Qed.

(** ** Allocation order *)

Fixpoint LookupAll p (hosts : list string) : outcome (list Addr * Pool S) :=
  match hosts with
  | [] => mret ([], p)
  | h :: hosts =>
    '(ip, p) ← Lookup p h;
    '(ips, p) ← LookupAll p hosts;
    mret (ip :: ips, p)
  end.

Lemma LookupAll_fresh p is4 f l o m hosts :
  pool_at p is4 f l o m → NoDup (ToLower <$> hosts) →
  (∀ h, h ∈ ToLower <$> hosts → m !! h = None) → o + len hosts < l →
  ∃ p', LookupAll p hosts =
    Ret ((λ i, at_ is4 (o + 1 + Z.of_nat i)) <$> seq 0 (length hosts), p').
Proof.
  revert p o m. induction hosts as [|h hosts IH]; intros p o m Hp Hnd Hno Hroom; [by eexists|].
  csimpl in Hnd. apply NoDup_cons in Hnd as [Hh Hnd]. cbn [length] in Hroom.
  destruct (Lookup_spec p _ _ _ _ _ h Hp) as (ip & p1 & o1 & m1 & Hl & Hp1 & Hm1 & Hx).
  rewrite (Hno (ToLower h)) in Hx by (csimpl; left). destruct Hx as (Ho & -> & Hdel).
  assert (o1 = o + 1) as -> by (rewrite Ho; unfold advance; destruct (Z.ltb_spec (o + 1) l); lia).
  destruct (IH p1 (o + 1) m1 Hp1 Hnd) as (p2 & HA); [|lia|].
  { intros h' Hh'. destruct (decide (h' = ToLower h)) as [->|Hne]; [done|].
    specialize (Hno h' ltac:(csimpl; by right)). eapply lookup_weaken_None in Hno; [|exact Hdel].
    by rewrite lookup_delete_ne in Hno. }
  exists p2. simpl. rewrite Hl. run. rewrite HA. run. f_equal. f_equal.
  rewrite Z.add_0_r. f_equal. rewrite <- fmap_S_seq, <- list_fmap_compose.
  apply list_fmap_ext. intros. simpl. f_equal. lia.
Qed.

(** A fresh pool hands its addresses out in order, each one once, until the
    range is used up: [n] different hosts get the first [n] addresses, also when
    the store has to evict. *)
Theorem fakeip_sequential p is4 f l hosts :
  pool_at p is4 f l (f - 1) ∅ → NoDup (ToLower <$> hosts) → len hosts ≤ l - f →
  ∃ ips p', LookupAll p hosts = Ret (ips, p') ∧ NoDup ips ∧
    ips = (λ i, at_ is4 (f + Z.of_nat i)) <$> seq 0 (length hosts).
Proof.
  intros Hp Hnd Hlen.
  destruct (LookupAll_fresh p is4 f l (f - 1) ∅ hosts Hp Hnd) as (p' & HA); [done|lia|].
  assert (∀ i, at_ is4 (f - 1 + 1 + Z.of_nat i) = at_ is4 (f + Z.of_nat i)) as Heq
    by (intros; f_equal; lia).
  do 2 eexists. split; [exact HA|]. split; [|by apply list_fmap_ext].
  apply NoDup_fmap_2; [|apply NoDup_seq]. intros i j ?%at_inj. lia.
Qed.

(** When the cursor comes round to the address of a host, that address is
    given to the next new host even if the first host was looked up immediately
    before: two different hosts are answered with the same address in a row. *)
Theorem fakeip_recycles_recent p is4 f l o m host host' :
  pool_at p is4 f l o m → m !! ToLower host = Some (at_ is4 (advance f l o)) →
  m !! ToLower host' = None →
  ∃ p1 p2, Lookup p host = Ret (at_ is4 (advance f l o), p1) ∧
    Lookup p1 host' = Ret (at_ is4 (advance f l o), p2).
Proof.
  intros Hp Hm Hm'.
  destruct (Lookup_spec p _ _ _ _ _ host Hp) as (ip & p1 & o1 & m1 & -> & Hp1 & _ & Hx).
  rewrite Hm in Hx. destruct Hx as (-> & -> & ->).
  destruct (Lookup_spec p1 _ _ _ _ _ host' Hp1) as (ip & p2 & o2 & m2 & Hl2 & _ & _ & Hx).
  rewrite Hm' in Hx. destruct Hx as (-> & -> & _). eauto.
Qed.

End pool_spec.

(** ** The in-memory store ([memory.go]) *)

Module MemoryStore.
Section memory.
Context {L elem : Type} `{!DList positive L elem}.

Abbreviation IPCache := (LruCache (K := string) (V := Addr) (L := L) (elem := elem)).
Abbreviation HostCache := (LruCache (K := Addr) (V := string) (L := L) (elem := elem)).

(** The two caches, each with the heap of its entries. *)
Record memoryStore := mkMemoryStore {
  cacheIP : IPCache;
  heapIP : gmap positive (entry (K := string) (V := Addr));
  cacheHost : HostCache;
  heapHost : gmap positive (entry (K := Addr) (V := string));
}.

(** The caches have no age and never read the clock. *)
Definition now : Z := 0.

Definition mGetByHost (m : memoryStore) (host : string) : outcome (Addr * bool * memoryStore) :=
  '(ip, found, h, c) ← Lru.Get AddrZero (heapIP m) (cacheIP m) now host;
  let m := mkMemoryStore c h (cacheHost m) (heapHost m) in
  if found : bool then
    '(_, _, h, c) ← Lru.Get "" (heapHost m) (cacheHost m) now ip;
    mret (ip, true, mkMemoryStore (cacheIP m) (heapIP m) c h)
  else mret (AddrZero, false, m).

Definition mPutByHost (m : memoryStore) (host : string) (ip : Addr) : outcome memoryStore :=
  '(h, c) ← Lru.Set_ (heapIP m) (cacheIP m) now host ip;
  mret (mkMemoryStore c h (cacheHost m) (heapHost m)).

Definition mGetByIP (m : memoryStore) (ip : Addr) : outcome (string * bool * memoryStore) :=
  '(host, found, h, c) ← Lru.Get "" (heapHost m) (cacheHost m) now ip;
  let m := mkMemoryStore (cacheIP m) (heapIP m) c h in
  if found : bool then
    '(_, _, h, c) ← Lru.Get AddrZero (heapIP m) (cacheIP m) now host;
    mret (host, true, mkMemoryStore c h (cacheHost m) (heapHost m))
  else mret ("", false, m).

Definition mPutByIP (m : memoryStore) (ip : Addr) (host : string) : outcome memoryStore :=
  '(h, c) ← Lru.Set_ (heapHost m) (cacheHost m) now ip host;
  mret (mkMemoryStore (cacheIP m) (heapIP m) c h).

Definition mDelByIP (m : memoryStore) (ip : Addr) : outcome memoryStore :=
  '(host, found, h, c) ← Lru.Get "" (heapHost m) (cacheHost m) now ip;
  let m := mkMemoryStore (cacheIP m) (heapIP m) c h in
  m ← (if found : bool then
         c ← Lru.Delete_ (heapIP m) (cacheIP m) host;
         mret (mkMemoryStore c (heapIP m) (cacheHost m) (heapHost m))
       else mret m);
  c ← Lru.Delete_ (heapHost m) (cacheHost m) ip;
  mret (mkMemoryStore (cacheIP m) (heapIP m) c (heapHost m)).

Definition mExist (m : memoryStore) (ip : Addr) : outcome bool :=
  mret (Lru.Exist (cacheHost m) ip).

(** The target shares the entries; the source is dropped after a clone, so the
    target takes its heap over. *)
Definition mCloneTo (m t : memoryStore) : outcome memoryStore :=
  c1 ← Lru.CloneTo (heapIP m) (cacheIP m) (cacheIP t);
  c2 ← Lru.CloneTo (heapHost m) (cacheHost m) (cacheHost t);
  mret (mkMemoryStore c1 (heapIP m) c2 (heapHost m)).

Definition mFlushFakeIP (m : memoryStore) : outcome (result memoryStore) :=
  mret (Ok (mkMemoryStore (Lru.Clear (cacheIP m)) (heapIP m)
              (Lru.Clear (cacheHost m)) (heapHost m))).

Definition newMemoryStore (size : Z) : memoryStore :=
  mkMemoryStore (Lru.New [WithSize size]) ∅ (Lru.New [WithSize size]) ∅.

#[export] Instance memory_store : Store memoryStore := {
  GetByHost := mGetByHost;
  PutByHost := mPutByHost;
  GetByIP := mGetByIP;
  PutByIP := mPutByIP;
  DelByIP := mDelByIP;
  store_Exist := mExist;
  store_CloneTo := mCloneTo;
  store_FlushFakeIP := mFlushFakeIP;
  is_cachefile := false;
}.

(** *** The caches mirror each other *)

Definition eip (p : string * Addr) : entry := mkEntry p.1 p.2 0.
Definition ehost (p : string * Addr) : entry := mkEntry p.2 p.1 0.

Definition mirror (m : memoryStore) (n : Z) (ps : list (string * Addr)) : Prop :=
  plain (heapIP m) (cacheIP m) n (eip <$> ps) ∧
  plain (heapHost m) (cacheHost m) n (ehost <$> ps).

Lemma mirror_nodup m n ps : mirror m n ps → NoDup ps.*1 ∧ NoDup ps.*2.
Proof.
  intros [H1%plain_keys H2%plain_keys].
  split; [by rewrite <- list_fmap_compose in H1|by rewrite <- list_fmap_compose in H2].
Qed.

Lemma keys_eip ps : key <$> (eip <$> ps) = ps.*1.
Proof. by rewrite <- list_fmap_compose. Qed.
Lemma keys_ehost ps : key <$> (ehost <$> ps) = ps.*2.
Proof. by rewrite <- list_fmap_compose. Qed.

(** What is found: the pairs seen as a map. *)
Definition pairs_map (ps : list (string * Addr)) : gmap string Addr := list_to_map ps.

Lemma pairs_lookup ps h ip :
  NoDup ps.*1 → pairs_map ps !! h = Some ip ↔ (h, ip) ∈ ps.
Proof. intros Hd. symmetry. by apply elem_of_list_to_map. Qed.

Lemma touch_host m n p1 h ip p2 :
  mirror m n (p1 ++ (h, ip) :: p2) →
  ∃ m', mGetByHost m h = Ret (ip, true, m') ∧ mirror m' n (p1 ++ p2 ++ [(h, ip)]).
Proof.
  intros [H1 H2]. rewrite fmap_app in H1. rewrite fmap_app in H2.
  destruct (plain_Get_hit AddrZero _ _ _ _ (eip (h, ip)) _ now H1) as (h1 & c1 & E1 & P1).
  destruct (plain_Get_hit "" _ _ _ _ (ehost (h, ip)) _ now H2) as (h2 & c2 & E2 & P2).
  unfold mGetByHost. simpl in E1, E2. rewrite E1. run. cbn [heapHost cacheHost]. rewrite E2. run.
  eexists. split; [done|]. split; cbn [heapIP cacheIP heapHost cacheHost];
    by rewrite !fmap_app.
Qed.

Lemma touch_ip m n p1 h ip p2 :
  mirror m n (p1 ++ (h, ip) :: p2) →
  ∃ m', mGetByIP m ip = Ret (h, true, m') ∧ mirror m' n (p1 ++ p2 ++ [(h, ip)]).
Proof.
  intros [H1 H2]. rewrite fmap_app in H1. rewrite fmap_app in H2.
  destruct (plain_Get_hit AddrZero _ _ _ _ (eip (h, ip)) _ now H1) as (h1 & c1 & E1 & P1).
  destruct (plain_Get_hit "" _ _ _ _ (ehost (h, ip)) _ now H2) as (h2 & c2 & E2 & P2).
  unfold mGetByIP. simpl in E1, E2. rewrite E2. run. cbn [heapIP cacheIP]. rewrite E1. run.
  eexists. split; [done|]. split; cbn [heapIP cacheIP heapHost cacheHost];
    by rewrite !fmap_app.
Qed.

Lemma del_ip m n p1 h ip p2 :
  mirror m n (p1 ++ (h, ip) :: p2) →
  ∃ m', mDelByIP m ip = Ret m' ∧ mirror m' n (p1 ++ p2).
Proof.
  intros [H1 H2]. rewrite fmap_app in H1. rewrite fmap_app in H2.
  destruct (plain_Get_hit "" _ _ _ _ (ehost (h, ip)) _ now H2) as (h2 & c2 & E2 & P2).
  destruct (plain_Delete _ _ _ _ (eip (h, ip)) _ H1) as (c1 & E1 & P1).
  rewrite app_assoc in P2.
  destruct (plain_Delete _ _ _ _ (ehost (h, ip)) [] P2) as (c3 & E3 & P3).
  unfold mDelByIP. simpl in E1, E2, E3. rewrite E2. run. cbn [heapIP cacheIP]. rewrite E1. run.
  cbn [heapHost cacheHost]. rewrite E3. run. eexists. split; [done|].
  split; cbn [heapIP cacheIP heapHost cacheHost]; rewrite fmap_app; [done|].
  by rewrite app_nil_r in P3.
Qed.

Definition evict_pairs (n : Z) (ps : list (string * Addr)) : list (string * Addr) :=
  if (0 <? n) && (n <? len ps) then tail ps else ps.

Lemma evict_fmap {K V} (f : string * Addr → entry (K := K) (V := V)) n ps :
  evict_front n (f <$> ps) = f <$> evict_pairs n ps.
Proof.
  unfold evict_front, evict_pairs. rewrite length_fmap.
  destruct (_ && _); [|done]. by destruct ps.
Qed.

Lemma put_pair m n ps h ip :
  mirror m n ps → h ∉ ps.*1 → ip ∉ ps.*2 →
  ∃ m1 m2, mPutByIP m ip h = Ret m1 ∧ mPutByHost m1 h ip = Ret m2 ∧
    mirror m2 n (evict_pairs n (ps ++ [(h, ip)])).
Proof.
  intros [H1 H2] Hh Hip.
  destruct (plain_Set_new _ _ _ _ ip h now H2) as (h2 & c2 & E2 & P2); [by rewrite keys_ehost|].
  destruct (plain_Set_new _ _ _ _ h ip now H1) as (h1 & c1 & E1 & P1); [by rewrite keys_eip|].
  unfold mPutByIP, mPutByHost. rewrite E2. run. eexists. eexists. split; [done|].
  cbn [heapIP cacheIP]. rewrite E1. run. split; [done|].
  split; cbn [heapIP cacheIP heapHost cacheHost]; rewrite <- evict_fmap, fmap_app; done.
Qed.

Lemma evict_last n ps p : 0 < n ∨ n ≤ 0 → p ∈ evict_pairs n (ps ++ [p]).
Proof.
  intros Hn. unfold evict_pairs. rewrite length_app. simpl.
  destruct (Z.ltb_spec 0 n); simpl; [|set_solver].
  destruct (Z.ltb_spec n (Z.of_nat (length ps + 1))); [|set_solver].
  destruct ps as [|q ps]; simpl in *; [lia|]. set_solver.
Qed.

Lemma evict_sub n ps p : p ∈ evict_pairs n ps → p ∈ ps.
Proof. unfold evict_pairs. destruct (_ && _); [|done]. destruct ps; simpl; set_solver. Qed.

Lemma NoDup_evict {A} (f : string * Addr → A) n ps :
  NoDup (f <$> ps) → NoDup (f <$> evict_pairs n ps).
Proof.
  unfold evict_pairs. destruct (_ && _); [|done]. destruct ps; [done|]. csimpl.
  by intros [_ ?]%NoDup_cons.
Qed.

Definition synced_mem (m : memoryStore) (mp : gmap string Addr) : Prop :=
  ∃ n ps, mirror m n ps ∧ mp = pairs_map ps.

Lemma pairs_one ps : NoDup ps.*1 → NoDup ps.*2 → one_to_one (pairs_map ps).
Proof.
  intros H1 H2 h h' ip Hh Hh'. rewrite !pairs_lookup in * by done.
  apply list_elem_of_lookup in Hh as [i Hi], Hh' as [j Hj].
  assert (i = j) as -> by (eapply (NoDup_lookup _ _ _ ip H2); rewrite list_lookup_fmap; [by rewrite Hi|by rewrite Hj]).
  congruence.
Qed.

Lemma pairs_perm ps ps' : NoDup ps.*1 → ps ≡ₚ ps' → pairs_map ps = pairs_map ps'.
Proof. intros. by apply list_to_map_proper. Qed.

Lemma pairs_absent ps ip : NoDup ps.*1 → ip ∉ ps.*2 → ∀ h, pairs_map ps !! h ≠ Some ip.
Proof.
  intros Hd Hn h Hh. apply Hn. rewrite pairs_lookup in Hh by done.
  by apply (list_elem_of_fmap_2 snd) in Hh.
Qed.

Lemma mem_GetByHost m mp h : synced_mem m mp →
  ∃ m', synced_mem m' mp ∧ mGetByHost m h =
    Ret (match mp !! h with Some ip => (ip, true) | None => (AddrZero, false) end, m').
Proof.
  intros (n & ps & Hm & ->). destruct (mirror_nodup _ _ _ Hm) as [Hd1 Hd2].
  destruct (pairs_map ps !! h) as [ip|] eqn:Hl.
  - apply pairs_lookup, list_elem_of_split in Hl as (p1 & p2 & ->); [|done].
    destruct (touch_host m n p1 h ip p2 Hm) as (m' & He & Hm'). exists m'.
    split; [|done]. eexists n, _. split; [exact Hm'|]. apply pairs_perm; [done|].
    apply Permutation_app_head, Permutation_cons_append.
  - apply not_elem_of_list_to_map in Hl. destruct Hm as [H1 H2].
    destruct (plain_Get_miss AddrZero _ _ _ _ h now H1) as (h1 & c1 & E1 & P1);
      [by rewrite keys_eip|].
    unfold mGetByHost. rewrite E1. run. eexists. split; [|done]. by exists n, ps.
Qed.

Lemma mem_GetByIP m mp ip : synced_mem m mp →
  ∃ m' h ok, synced_mem m' mp ∧ mGetByIP m ip = Ret (h, ok, m') ∧
    if ok : bool then mp !! h = Some ip else h = "" ∧ ∀ h', mp !! h' ≠ Some ip.
Proof.
  intros (n & ps & Hm & ->). destruct (mirror_nodup _ _ _ Hm) as [Hd1 Hd2].
  destruct (decide (ip ∈ ps.*2)) as [Hin|Hn].
  - apply list_elem_of_fmap in Hin as ([h i] & -> & Hin). simpl in *.
    apply list_elem_of_split in Hin as (p1 & p2 & ->).
    destruct (touch_ip m n p1 h i p2 Hm) as (m' & He & Hm'). exists m', h, true.
    split; [|split; [done|]]; [|by rewrite pairs_lookup by done; set_solver].
    eexists n, _. split; [exact Hm'|]. apply pairs_perm; [done|].
    apply Permutation_app_head, Permutation_cons_append.
  - destruct Hm as [H1 H2].
    destruct (plain_Get_miss "" _ _ _ _ ip now H2) as (h1 & c1 & E1 & P1);
      [by rewrite keys_ehost|].
    unfold mGetByIP. rewrite E1. run. exists (mkMemoryStore (cacheIP m) (heapIP m) c1 h1), "", false.
    split; [by exists n, ps|].
    split; [done|]. split; [done|]. by apply pairs_absent.
Qed.

Lemma mem_DelByIP m mp ip : synced_mem m mp →
  ∃ m', mDelByIP m ip = Ret m' ∧ synced_mem m' (filter (λ p, p.2 ≠ ip) mp).
Proof.
  intros (n & ps & Hm & ->). destruct (mirror_nodup _ _ _ Hm) as [Hd1 Hd2].
  destruct (decide (ip ∈ ps.*2)) as [Hin|Hn].
  - apply list_elem_of_fmap in Hin as ([h i] & -> & Hin). simpl in *.
    apply list_elem_of_split in Hin as (p1 & p2 & ->).
    destruct (del_ip m n p1 h i p2 Hm) as (m' & He & Hm'). exists m'. split; [done|].
    eexists n, _. split; [exact Hm'|]. destruct (mirror_nodup _ _ _ Hm') as [Hd1' Hd2'].
    apply map_eq. intros h'. apply option_eq. intros i'.
    rewrite map_lookup_filter_Some, !pairs_lookup by done. simpl.
    rewrite fmap_app, fmap_cons in Hd2. apply NoDup_app in Hd2 as (_ & Hn1 & [Hn2 _]%NoDup_cons).
    simpl in Hn2. split.
    + intros [Hin Hne]. set_solver.
    + intros Hin. split; [set_solver|]. intros ->.
      apply elem_of_app in Hin as [Hin|Hin]; apply (list_elem_of_fmap_2 snd) in Hin; simpl in Hin.
      * apply (Hn1 i Hin). left.
      * by apply Hn2.
  - destruct Hm as [H1 H2].
    destruct (plain_Get_miss "" _ _ _ _ ip now H2) as (h1 & c1 & E1 & P1);
      [by rewrite keys_ehost|].
    destruct (plain_Delete_absent _ _ _ _ ip P1) as (c2 & E2 & P2); [by rewrite keys_ehost|].
    unfold mDelByIP. rewrite E1. run. cbn [heapHost cacheHost]. rewrite E2. run.
    eexists. split; [done|]. exists n, ps. split; [done|].
    apply map_filter_id. intros h i Hh Hi. simpl in Hi. subst. by eapply pairs_absent.
Qed.

Lemma mem_Put m mp h ip :
  synced_mem m mp → mp !! h = None → (∀ h', mp !! h' ≠ Some ip) →
  ∃ m1 m2 mp', mPutByIP m ip h = Ret m1 ∧ mPutByHost m1 h ip = Ret m2 ∧ synced_mem m2 mp' ∧
    mp' !! h = Some ip ∧ delete h mp' ⊆ mp.
Proof.
  intros (n & ps & Hm & ->) Hh Hip. destruct (mirror_nodup _ _ _ Hm) as [Hd1 Hd2].
  apply not_elem_of_list_to_map in Hh.
  assert (ip ∉ ps.*2) as Hip2.
  { intros ([h' i] & -> & Hin)%list_elem_of_fmap. apply (Hip h'). by apply pairs_lookup. }
  destruct (put_pair m n ps h ip Hm Hh Hip2) as (m1 & m2 & E1 & E2 & Hm2).
  exists m1, m2, (pairs_map (evict_pairs n (ps ++ [(h, ip)]))).
  destruct (mirror_nodup _ _ _ Hm2) as [Hd1' _]. split_and!; [done..| | |].
  - by exists n, (evict_pairs n (ps ++ [(h, ip)])).
  - apply pairs_lookup; [done|]. apply evict_last. lia.
  - apply map_subseteq_spec. intros h' i. rewrite lookup_delete_Some, !pairs_lookup by done.
    intros [Hne Hin%evict_sub]. set_solver.
Qed.

#[export] Instance memory_store_spec : StoreSpec memoryStore.
Proof.
  refine {| synced := synced_mem |}.
  - intros m mp (n & ps & [Hd1 Hd2]%mirror_nodup & ->). by apply pairs_one.
  - apply mem_GetByHost.
  - apply mem_GetByIP.
  - intros m mp ip (n & ps & Hm & ->). destruct (mirror_nodup _ _ _ Hm) as [Hd1 Hd2].
    eexists. split; [done|]. simpl. destruct Hm as [_ H2]. rewrite (plain_Exist _ _ _ _ ip H2).
    rewrite keys_ehost. case_bool_decide as Hin; [|by apply pairs_absent].
    apply list_elem_of_fmap in Hin as ([h i] & -> & Hin). exists h. by apply pairs_lookup.
  - apply mem_DelByIP.
  - apply mem_Put.
  - intros m mp m' (n & ps & [H1 H2] & ->) [= <-]. exists n, [].
    split; [|done]. split; simpl; by eapply plain_Clear.
  - intros m mp _. by eexists.
  - intros m mp t mt (n & ps & [H1 H2] & ->) (n' & ps' & [H1' H2'] & ->).
    destruct (plain_CloneTo _ _ _ _ _ _ _ _ H1 H1') as (c1 & E1 & P1).
    destruct (plain_CloneTo _ _ _ _ _ _ _ _ H2 H2') as (c2 & E2 & P2).
    simpl. unfold mCloneTo. rewrite E1. run. rewrite E2. run.
    eexists _, (pairs_map ps). split; [done|]. split; [|by left]. by exists n', ps.
Defined.

Lemma newMemoryStore_synced size : synced (newMemoryStore size) ∅.
Proof. exists size, []. split; [|done]. split; apply plain_New. Qed.

End memory.
End MemoryStore.

(** ** Construction *)

Section construction.
Context {S : Type} `{StoreSpec S} (PrefixLastIP : Prefix → Addr).

Definition base (net : Prefix) : Z := aval (MaskedAddr net).
Definition host_bits (net : Prefix) : Z := BitLen (pip net) - pbits net.

(** [netipx.PrefixLastIP] returns the last address of a valid prefix. *)
Definition is_last_ip : Prop := ∀ net, PrefixIsValid net = true →
  PrefixLastIP net = at_ (Is4 (pip net)) (base net + 2 ^ host_bits net - 1).

(** A valid prefix without zone. *)
Definition prefix_ok (net : Prefix) : Prop :=
  PrefixIsValid net = true ∧ addr_ok (pip net) ∧ hasZone (pip net) = false.

Lemma prefix_cases net :
  prefix_ok net →
  let w := width (Is4 (pip net)) in
  let v := aval (pip net) in
  pip net = at_ (Is4 (pip net)) v ∧ 0 ≤ v < 2 ^ w ∧ 0 ≤ pbits net ≤ w ∧
  host_bits net = w - pbits net ∧
  MaskedAddr net = at_ (Is4 (pip net)) (base net) ∧
  base net = 2 ^ host_bits net * (v / 2 ^ host_bits net).
Proof.
  intros (Hv & Ha & Hz). unfold base, MaskedAddr, host_bits. rewrite Hv.
  unfold PrefixIsValid in Hv. apply andb_true_iff in Hv as [Hv Hval].
  apply andb_true_iff in Hv as [Hlo%Z.leb_le Hhi%Z.leb_le].
  assert (∀ v n, 0 ≤ n → Z.shiftl (Z.shiftr v n) n = 2 ^ n * (v / 2 ^ n)) as Hsh.
  { intros v n Hn. rewrite Z.shiftl_mul_pow2, Z.shiftr_div_pow2 by done. lia. }
  destruct (pip net) as [|v|v z]; [done|..]; simpl in *.
  - rewrite Hsh by lia. split_and!; done || lia.
  - apply negb_false_iff, bool_decide_eq_true in Hz as ->. rewrite Hsh by lia.
    split_and!; done || lia.
Qed.

Lemma prefix_size net :
  prefix_ok net →
  0 ≤ base net ∧ 0 ≤ host_bits net ∧ base net + 2 ^ host_bits net ≤ 2 ^ width (Is4 (pip net)).
Proof.
  intros Hn. destruct (prefix_cases net Hn) as (_ & Hv & Hb & Hh & _ & ->). rewrite Hh.
  set (w := width _) in *. set (v := aval _) in *.
  assert (2 ^ w = 2 ^ (w - pbits net) * 2 ^ pbits net) as Hw.
  { rewrite <- Z.pow_add_r by lia. f_equal. lia. }
  assert (0 < 2 ^ (w - pbits net)) by (apply Z.pow_pos_nonneg; lia).
  assert (0 ≤ v / 2 ^ (w - pbits net) < 2 ^ pbits net).
  { split; [apply Z.div_pos; lia|]. apply Z.div_lt_upper_bound; lia. }
  split; [nia|]. split; [lia|]. rewrite Hw. nia.
Qed.

Lemma prefix_contains net v :
  prefix_ok net → base net ≤ v < base net + 2 ^ host_bits net →
  PrefixContains net (at_ (Is4 (pip net)) v) = true.
Proof.
  intros Hn Hv. destruct (prefix_cases net Hn) as (Hp & _ & Hb & Hh & _ & Hbase).
  destruct (prefix_size net Hn) as (_ & Hk & _). destruct Hn as (Hval & _ & _).
  unfold PrefixContains. rewrite Hval.
  assert (BitLen (at_ (Is4 (pip net)) v) = BitLen (pip net)) as HBL
    by (rewrite Hp at 2; by destruct (Is4 (pip net))).
  rewrite HBL, Z.eqb_refl. fold (host_bits net).
  assert (BitLen (pip net) ≠ 0) by (rewrite Hp; by destruct (Is4 (pip net))).
  rewrite (proj2 (Z.eqb_neq _ 0)) by done.
  assert (hasZone (at_ (Is4 (pip net)) v) = false) as -> by (by destruct (Is4 (pip net))).
  simpl. apply Z.eqb_eq. rewrite !Z.shiftr_div_pow2 by done.
  assert (aval (at_ (Is4 (pip net)) v) = v) as -> by (by destruct (Is4 (pip net))).
  apply Z.div_unique with (v - base net); lia.
Qed.

Lemma Next_at_cases is4 v :
  Next (at_ is4 v) = if v + 1 =? 2 ^ width is4 then AddrZero else at_ is4 (v + 1).
Proof. by destruct is4. Qed.

Lemma IsValid_at is4 v : IsValid (at_ is4 v) = true.
Proof. by destruct is4. Qed.

(** [New] accepts exactly the prefixes with at least six addresses.  The pool
    it makes serves the addresses from the fifth to the last but one, all of them
    in the prefix, starts at the first of these, and keeps the first usable address
    as the gateway. *)
Theorem fakeip_new net s :
  is_last_ip → prefix_ok net → is_cachefile = false → synced s ∅ →
  if 6 <=? 2 ^ host_bits net then
    ∃ p, New PrefixLastIP net s = Ret (Ok p) ∧
      let is4 := Is4 (pip net) in
      let f := base net + 4 in
      let l := base net + 2 ^ host_bits net - 1 in
      pool_at p is4 f l (f - 1) ∅ ∧ Gateway p = at_ is4 (base net + 1) ∧
      ∀ v, f ≤ v < l → PrefixContains net (at_ is4 v) = true
  else New PrefixLastIP net s = Ret (Err (ErrMsg "ipnet don't have valid ip")).
Proof.
  intros Hlast Hn Hcf Hs. destruct (prefix_size net Hn) as (Hb0 & Hk & Hsz).
  destruct (prefix_cases net Hn) as (_ & _ & _ & _ & Hm & _).
  unfold New. rewrite Hm, Hlast by apply Hn. pose proof (proj1 Hn) as ->.
  set (is4 := Is4 (pip net)) in *. set (k := 2 ^ host_bits net) in *.
  destruct (Z.leb_spec 6 k).
  - rewrite !Next_at by lia. rewrite IsValid_at, Less_at, (proj2 (Z.ltb_lt _ _)) by lia.
    simpl orb. cbv iota. unfold restoreState. rewrite Hcf. run.
    eexists. split; [done|]. split; [|split; [done|]].
    + split; simpl; try done; try lia; try (f_equal; lia).
      rewrite Prev_at by lia. f_equal. lia.
    + intros v Hv. apply prefix_contains; [done|]. fold k. lia.
  - assert (IsValid (Next (Next (Next (Next (at_ is4 (base net)))))) = false ∨
            Less (Next (Next (Next (Next (at_ is4 (base net)))))) (at_ is4 (base net + k - 1)) = false)
      as Hbad.
    { rewrite Next_at_cases. destruct (_ =? _); [by left|].
      rewrite Next_at_cases. destruct (_ =? _); [by left|].
      rewrite Next_at_cases. destruct (_ =? _); [by left|].
      rewrite Next_at_cases. destruct (_ =? _); [by left|].
      right. rewrite Less_at. apply Z.ltb_ge. lia. }
    destruct Hbad as [-> | ->]; simpl; [done|]. by rewrite orb_true_r.
Qed.

(** Cloning from a pool over the same range keeps the pool consistent: it
    holds the names of the old pool (or, if the stores cannot be cloned, its own)
    and continues at the position of the old pool, so that no retained address is
    handed out again before its turn. *)
Theorem fakeip_clone p o is4 f l c m co mo :
  pool_at p is4 f l c m → pool_at o is4 f l co mo →
  ∃ p' m', CloneFrom p o = Ret p' ∧ pool_at p' is4 f l co m' ∧ (m' = mo ∨ m' = m).
Proof.
  intros Hp Ho. unfold CloneFrom.
  destruct (spec_CloneTo (store o) mo (store p) m (pa_store _ _ _ _ _ _ Ho) (pa_store _ _ _ _ _ _ Hp))
    as (s & m' & -> & Hs & Hm'). run. cbn [first last set_store].
  rewrite (pa_first _ _ _ _ _ _ Hp), (pa_first _ _ _ _ _ _ Ho), (pa_last _ _ _ _ _ _ Hp),
    (pa_last _ _ _ _ _ _ Ho), !bool_decide_true by done. simpl.
  eexists _, m'. split; [done|]. split; [|done].
  destruct Hp as [Hf Hl _ Hr _ _ Hi], Ho as [_ _ Hoff _ Hcur _ Hio].
  split; simpl; try done. intros h ip Hh. destruct Hm' as [-> | ->]; eauto.
Qed.

End construction.

(** ** Cloning between ranges *)

Section clone_ranges.
Context {L elem : Type} `{!DList positive L elem}.
Import MemoryStore.

Lemma mem_CloneTo (s t : memoryStore) m mt :
  synced s m → synced t mt → ∃ t', store_CloneTo s t = Ret t' ∧ synced t' m.
Proof.
  intros (n & ps & [H1 H2] & ->) (n' & ps' & [H1' H2'] & _).
  destruct (plain_CloneTo _ _ _ _ _ _ _ _ H1 H1') as (c1 & E1 & P1).
  destruct (plain_CloneTo _ _ _ _ _ _ _ _ H2 H2') as (c2 & E2 & P2).
  simpl. unfold mCloneTo. rewrite E1. run. rewrite E2. run.
  eexists. split; [done|]. by exists n', ps.
Qed.

(** With in-memory stores, a pool cloned from one over another range answers a
    retained host with its old address, outside the range of the pool. *)
Theorem fakeip_clone_keeps_old_range p o is4 f l c m fo lo co mo host v :
  pool_at (S := memoryStore) p is4 f l c m → pool_at (S := memoryStore) o is4 fo lo co mo →
  mo !! ToLower host = Some (at_ is4 v) → ¬ (f ≤ v < l) →
  ∃ p1 p2, CloneFrom p o = Ret p1 ∧ first p1 = at_ is4 f ∧ last p1 = at_ is4 l ∧
    Lookup p1 host = Ret (at_ is4 v, p2).
Proof.
  intros Hp Ho Hm Hv. unfold CloneFrom.
  destruct (mem_CloneTo (store o) (store p) mo m (pa_store _ _ _ _ _ _ Ho) (pa_store _ _ _ _ _ _ Hp))
    as (s & -> & Hs). run.
  destruct (spec_GetByHost s mo (ToLower host) Hs) as (s' & _ & Hg). rewrite Hm in Hg.
  destruct (bool_decide _ && bool_decide _); eexists _, _; (split; [done|]);
    (split; [apply Hp|]); (split; [apply Hp|]);
    unfold Lookup; cbn [store set_store set_offset]; rewrite Hg; done.
Qed.

End clone_ranges.

(** ** Instances of the properties *)

Module Examples.
Import ListModel MemoryStore.

Abbreviation MS := (memoryStore (L := list (nat * positive)) (elem := nat * positive)).

Definition last_ip (net : Prefix) : Addr :=
  at_ (Is4 (pip net)) (base net + 2 ^ host_bits net - 1).

(** 198.18.0.0/29 and 10.0.0.0/29: three usable addresses each. *)
Definition net_a : Prefix := mkPrefix (Addr4 3323068416) 29.
Definition net_b : Prefix := mkPrefix (Addr4 167772160) 29.

Lemma last_ip_ok : is_last_ip last_ip.
Proof. by intros net _. Qed.

Lemma net_a_ok : prefix_ok net_a.
Proof. split; [reflexivity|]. split; [|reflexivity]. vm_compute. split; congruence. Qed.

Lemma fakeip_new_witness :
  if 6 <=? 2 ^ host_bits net_a then
    ∃ p : Pool MS, New last_ip net_a (newMemoryStore 2) = Ret (Ok p) ∧
      pool_at p true (base net_a + 4) (base net_a + 2 ^ host_bits net_a - 1)
        (base net_a + 4 - 1) ∅ ∧
      Gateway p = at_ true (base net_a + 1) ∧
      ∀ v, base net_a + 4 ≤ v < base net_a + 2 ^ host_bits net_a - 1 →
        PrefixContains net_a (at_ true v) = true
  else False.
Proof.
  exact (fakeip_new last_ip net_a (newMemoryStore 2 : MS) last_ip_ok net_a_ok eq_refl
           (newMemoryStore_synced 2)).
Defined.

(** A pool as [New] makes it. *)
Definition pool_of (net : Prefix) (size : Z) : Pool MS :=
  let f := base net + 4 in
  mkPool (at_ true (base net + 1)) (at_ true f) (at_ true (base net + 2 ^ host_bits net - 1))
    (at_ true (f - 1)) false net (newMemoryStore size).

Lemma pool_of_at net size :
  1 ≤ base net + 4 < base net + 2 ^ host_bits net - 1 →
  base net + 2 ^ host_bits net - 1 < 2 ^ 32 →
  pool_at (pool_of net size) true (base net + 4) (base net + 2 ^ host_bits net - 1)
    (base net + 4 - 1) ∅.
Proof.
  intros Hf Hl. split; try done; [lia|apply newMemoryStore_synced].
Qed.

Lemma pool_a_at size :
  pool_at (pool_of net_a size) true 3323068420 3323068423 3323068419 ∅.
Proof. apply (pool_of_at net_a size); vm_compute; repeat split; congruence. Qed.

Lemma pool_b_at size :
  pool_at (pool_of net_b size) true 167772164 167772167 167772163 ∅.
Proof. apply (pool_of_at net_b size); vm_compute; repeat split; congruence. Qed.

Lemma fakeip_lookup_lookback_witness :
  ∃ p1 v p2 p3 p4 p5, pool_run (pool_of net_a 2) [PLookup "a"; PLookup "b"; PLookup "c"] = Ret p1 ∧
    Lookup p1 "Example.COM" = Ret (at_ true v, p2) ∧ 3323068420 ≤ v < 3323068423 ∧
    pool_run p2 [PLookBack (Addr4 3323068421); PLookup "EXAMPLE.com"] = Ret p3 ∧
    LookBack p3 (at_ true v) = Ret (ToLower "Example.COM", true, p4) ∧
    Lookup p3 "example.com" = Ret (at_ true v, p5).
Proof.
  apply (fakeip_lookup_lookback (pool_of net_a 2) true 3323068420 3323068423 3323068419
           [PLookup "a"; PLookup "b"; PLookup "c"] "Example.COM" "example.com" _ (pool_a_at 2)).
  - reflexivity.
  - repeat constructor.
Defined.

Lemma fakeip_sequential_witness :
  ∃ ips p', LookupAll (pool_of net_a 2) ["a"; "b"; "c"] = Ret (ips, p') ∧ NoDup ips ∧
    ips = [Addr4 3323068420; Addr4 3323068421; Addr4 3323068422].
Proof.
  apply (fakeip_sequential (pool_of net_a 2) true 3323068420 3323068423 ["a"; "b"; "c"]
           (pool_a_at 2)); [|vm_compute; congruence].
  by apply (bool_decide_eq_true_1 (NoDup _)).
Defined.

(** The pool over [net_a] once all three addresses are in use. *)
Definition abc : Pool MS :=
  match LookupAll (pool_of net_a 5) ["a"; "b"; "c"] with
  | Ret (_, p) => p
  | _ => pool_of net_a 5
  end.

Definition abc_pairs : list (string * Addr) :=
  [("a", Addr4 3323068420); ("b", Addr4 3323068421); ("c", Addr4 3323068422)].

Lemma plain_exec {K V} `{Countable K} (z : V) n rs h (c : LruCache (elem := nat * positive)) ops :
  exec (K := K) z ∅ (Lru.New [WithSize n]) ops = Ret (rs, h, c) →
  sp_cfg (spec_exec z (sp_new [oSize n]) ops).2 = (0, n, false, false, false) →
  plain h c n (sp_list (spec_exec z (sp_new [oSize n]) ops).2).
Proof.
  intros He Hc. destruct (exec_repr z ∅ _ _ ops (New_repr [oSize n])) as (h' & c' & He' & Hr).
  change (option_of <$> [oSize n]) with [WithSize (K := K) (V := V) (L := list (nat * positive)) (elem := nat * positive) n] in He'.
  rewrite He in He'. simplify_eq. by eexists.
Qed.

Definition ops_ip : list (Z * op (K := string) (V := Addr)) :=
  concat ((λ p, [(0, OGet p.1); (0, OSet p.1 p.2)]) <$> abc_pairs).
Definition ops_host : list (Z * op (K := Addr) (V := string)) :=
  (λ p, (0, OSet p.2 p.1)) <$> abc_pairs.

Lemma abc_ip : plain (heapIP (store abc)) (cacheIP (store abc)) 5 (eip <$> abc_pairs).
Proof.
  assert (eip <$> abc_pairs = sp_list (spec_exec AddrZero (sp_new [oSize 5]) ops_ip).2) as ->
    by (vm_compute; reflexivity).
  refine (plain_exec AddrZero 5 (spec_exec AddrZero (sp_new [oSize 5]) ops_ip).1
            (heapIP (store abc)) (cacheIP (store abc)) ops_ip _ _); vm_compute; reflexivity.
Qed.

Lemma abc_host : plain (heapHost (store abc)) (cacheHost (store abc)) 5 (ehost <$> abc_pairs).
Proof.
  assert (ehost <$> abc_pairs = sp_list (spec_exec "" (sp_new [oSize 5]) ops_host).2) as ->
    by (vm_compute; reflexivity).
  refine (plain_exec "" 5 (spec_exec "" (sp_new [oSize 5]) ops_host).1
            (heapHost (store abc)) (cacheHost (store abc)) ops_host _ _); vm_compute; reflexivity.
Qed.

Lemma abc_at : pool_at abc true 3323068420 3323068423 3323068422 (pairs_map abc_pairs).
Proof.
  split; [vm_compute; reflexivity..|change (width true) with 32; lia|lia| |].
  - exists 5, abc_pairs. split; [|done]. split; [apply abc_ip|apply abc_host].
  - intros h ip Hh. apply elem_of_list_to_map_2 in Hh.
    repeat (apply elem_of_cons in Hh as [[= -> ->]|Hh]; [eexists; split; [reflexivity|lia]|]).
    by apply elem_of_nil in Hh.
Qed.

#[local] Opaque abc.

Lemma fakeip_recycles_recent_witness :
  ∃ p1 p2, Lookup abc "a" = Ret (Addr4 3323068420, p1) ∧
    Lookup p1 "d" = Ret (Addr4 3323068420, p2).
Proof.
  apply (fakeip_recycles_recent abc true 3323068420 3323068423 3323068422 _ "a" "d" abc_at);
    reflexivity.
Defined.

Lemma fakeip_clone_witness :
  ∃ p' m', CloneFrom (pool_of net_a 5) abc = Ret p' ∧
    pool_at p' true 3323068420 3323068423 3323068422 m' ∧ (m' = pairs_map abc_pairs ∨ m' = ∅).
Proof.
  apply (fakeip_clone (pool_of net_a 5) abc true 3323068420 3323068423 3323068419 ∅ 3323068422
           (pairs_map abc_pairs) (pool_a_at 5) abc_at).
Defined.

Lemma fakeip_clone_keeps_old_range_witness :
  ∃ p1 p2, CloneFrom (pool_of net_b 5) abc = Ret p1 ∧ first p1 = at_ true 167772164 ∧
    last p1 = at_ true 167772167 ∧ Lookup p1 "a" = Ret (Addr4 3323068420, p2).
Proof.
  apply (fakeip_clone_keeps_old_range (pool_of net_b 5) abc true 167772164 167772167 167772163 ∅
           3323068420 3323068423 3323068422 (pairs_map abc_pairs) "a" 3323068420 (pool_b_at 5) abc_at);
    [reflexivity|lia].
Defined.

End Examples.
