(* ===== verification/DomainTrie.v ===== *)
(** * The domain trie ([component/trie/domain.go], [component/trie/node.go])

    Domain patterns are stored by their labels from the last to the first.  A node
    keeps a single child inline and switches to a map for the second one.  The
    semantics of a trie is the partial function [getPath] from label paths to
    data; insertion is an update of it and searching is [best] on it.

    A node's [inited] and [data] fields are one optional value. *)

From Stdlib Require Import Ascii.
From S2P Require Import Prelude Wire GoStrings.

Definition wildcard : string := "*".
Definition dotWildcard : string := "".
Definition complexWildcard : string := "+".
Definition domainStep : ascii := ".".

(** ** Validation *)

(** Why a pattern is rejected ([invalidDomainError] prints it). *)
Inductive domainError : Type :=
| DomainIsEmpty
| TrailingDot
| LeadingSpace
| TrailingSpace
| LabelEmpty (label : nat)
| PlusNotWhole (label : nat)
| PlusNotFirst
| PlusAlone
| StarNotWhole (label : nat).

(** [domain[len(domain)-1]]. *)
Fixpoint last_byte (s : string) : option ascii :=
  match s with
  | EmptyString => None
  | String a EmptyString => Some a
  | String _ s => last_byte s
  end.

(** The first empty part, counted from [i]. *)
Fixpoint empty_label (i : nat) (parts : list string) : option nat :=
  match parts with
  | [] => None
  | p :: parts => if bool_decide (p = "") then Some i else empty_label (S i) parts
  end.

(** The wildcard checks of the parts from number [i] on, out of [n]. *)
Fixpoint check_wildcards (n i : nat) (parts : list string) : option domainError :=
  match parts with
  | [] => None
  | part :: parts =>
    let plus :=
      if Contains part complexWildcard then
        if negb (bool_decide (part = complexWildcard)) then Some (PlusNotWhole (S i))
        else if negb (i =? 0)%nat then Some PlusNotFirst
        else if (n =? 1)%nat then Some PlusAlone
        else None
      else None in
    match plus with
    | Some e => Some e
    | None =>
      if Contains part wildcard && negb (bool_decide (part = wildcard))
      then Some (StarNotWhole (S i))
      else check_wildcards n (S i) parts
    end
  end.

Definition ValidAndSplitDomain (domain : string) : domainError + list string :=
  if bool_decide (domain = "") then inl DomainIsEmpty
  else if bool_decide (last_byte domain = Some domainStep) then inl TrailingDot
  else if starts_with_space domain then inl LeadingSpace
  else if ends_with_space domain then inl TrailingSpace
  else
    let parts := Split domainStep (ToLower domain) in
    let empty :=
      match parts with
      | [p] => if bool_decide (p = "") then Some DomainIsEmpty else None
      | _ => LabelEmpty <$> empty_label 2 (tail parts)
      end in
    match empty with
    | Some e => inl e
    | None =>
      match check_wildcards (length parts) 0 parts with
      | Some e => inl e
      | None => inr parts
      end
    end.

(** ** Nodes *)

Unset Elimination Schemes.
Inductive Node (T : Type) : Type :=
| mkNode (childMap : option (list (string * Node T))) (childNode : option (Node T))
    (childStr : string) (data : option T).
Arguments mkNode {T}.
Set Elimination Schemes.

Section trie.
Context {T : Type}.
Implicit Types n c : Node T.

Definition childMap n := let '(mkNode m _ _ _) := n in m.
Definition childNode n := let '(mkNode _ c _ _) := n in c.
Definition childStr n := let '(mkNode _ _ s _) := n in s.
Definition data n := let '(mkNode _ _ _ d) := n in d.

Definition newNode : Node T := mkNode None None "" None.

(** A Go map as an association list: [m[s]], and [m[s] = c]. *)
Fixpoint assoc (s : string) (m : list (string * Node T)) : option (Node T) :=
  match m with
  | [] => None
  | (k, c) :: m => if bool_decide (k = s) then Some c else assoc s m
  end.

Fixpoint assoc_set (s : string) (c : Node T) (m : list (string * Node T)) :
    list (string * Node T) :=
  match m with
  | [] => [(s, c)]
  | (k, c') :: m => if bool_decide (k = s) then (s, c) :: m else (k, c') :: assoc_set s c m
  end.

Definition getChild n (s : string) : option (Node T) :=
  match childMap n with
  | None =>
    match childNode n with
    | Some c => if bool_decide (childStr n = s) then Some c else None
    | None => None
    end
  | Some m => assoc s m
  end.

Definition hasChild n (s : string) : bool :=
  match getChild n s with Some _ => true | None => false end.

Definition addChild n (s : string) (child : Node T) : Node T :=
  match childMap n with
  | None =>
    match childNode n with
    | None => mkNode None (Some child) s (data n)
    | Some c => mkNode (Some (assoc_set s child [(childStr n, c)])) None "" (data n)
    end
  | Some m => mkNode (Some (assoc_set s child m)) (childNode n) (childStr n) (data n)
  end.

(** The effect on [n] of a change of its child [s] through the child's pointer. *)
Definition storeChild n (s : string) (child : Node T) : Node T :=
  match childMap n with
  | None => mkNode None (Some child) s (data n)
  | Some m => mkNode (Some (assoc_set s child m)) (childNode n) (childStr n) (data n)
  end.

(** [getOrNewChild]: the child, and the node that has it. *)
Definition getOrNewChild n (s : string) : Node T * Node T :=
  match getChild n s with
  | Some c => (c, n)
  | None => (newNode, addChild n s newNode)
  end.

Definition isEmpty (n : option (Node T)) : bool :=
  match n with
  | None => true
  | Some n => match data n with None => true | Some _ => false end
  end.

Definition setData n (v : T) : Node T := mkNode (childMap n) (childNode n) (childStr n) (Some v).

(** [Data] of a node that is not empty. *)
Definition Data (n : option (Node T)) : option T := n ≫= data.

Definition getChildren n : list (string * Node T) :=
  match childMap n with
  | None => match childNode n with Some c => [(childStr n, c)] | None => [] end
  | Some m => m
  end.

(** [optimize]; a copy of a string is the string. *)
Fixpoint optimize (n : Node T) : Node T :=
  match n with
  | mkNode m c s d =>
    match m with
    | None => mkNode None (match c with Some c => Some (optimize c) | None => None end) s d
    | Some [] => mkNode None (match c with Some c => Some (optimize c) | None => None end) s d
    | Some [(k, c)] => mkNode None (Some (optimize c)) k d
    | Some m =>
      mkNode (Some (List.map (λ '(k, c), (k, optimize c)) m))
        (match c with Some c => Some (optimize c) | None => None end) s d
    end
  end.

(** ** The trie *)

(** [insert], on the labels from the last to the first. *)
Fixpoint insert_rev n (labels : list string) (v : T) : Node T :=
  match labels with
  | [] => setData n v
  | part :: labels =>
    let '(c, n) := getOrNewChild n part in
    storeChild n part (insert_rev c labels v)
  end.

Definition insert (root : Node T) (parts : list string) (v : T) : Node T :=
  insert_rev root (reverse parts) v.

Definition DomainTrie := Node T.
Definition New : DomainTrie := newNode.

Definition Insert (t : DomainTrie) (domain : string) (v : T) : domainError + DomainTrie :=
  match ValidAndSplitDomain domain with
  | inl e => inl e
  | inr (p :: ps) =>
    if bool_decide (p = complexWildcard) then
      inr (insert (insert t ps v) (dotWildcard :: ps) v)
    else inr (insert t (p :: ps) v)
  | inr [] => inl DomainIsEmpty
  end.

(** [search], on the labels from the last to the first. *)
Fixpoint search_rev n (labels : list string) : option (Node T) :=
  match labels with
  | [] => Some n
  | l :: labels =>
    let found (c : option (Node T)) :=
      match c with
      | Some c => let r := search_rev c labels in if negb (isEmpty r) then r else None
      | None => None
      end in
    match found (getChild n l) with
    | Some r => Some r
    | None =>
      match found (getChild n wildcard) with
      | Some r => Some r
      | None => getChild n dotWildcard
      end
    end
  end.

Definition Search (t : DomainTrie) (domain : string) : option (Node T) :=
  match ValidAndSplitDomain domain with
  | inl _ => None
  | inr parts =>
    match parts with
    | [] => None
    | p :: _ =>
      if bool_decide (p = "") then None
      else
        let n := search_rev t (reverse parts) in
        if isEmpty n then None else n
    end
  end.

Definition Optimize (t : DomainTrie) : DomainTrie := optimize t.

Definition IsEmpty (t : option DomainTrie) : bool :=
  match t with
  | None => true
  | Some root => match getChildren root with [] => true | _ => false end
  end.

Definition joinDomain (items : list string) : string := Join domainStep items.

(** [recursion] and [Foreach] with a callback that has a state [S]; the children
    are visited in the order of [getChildren]. *)
Section foreach.
Context {S : Type} (fn : string → T → S → bool * S).

Definition call (items : list string) (d : option T) (s : S) : bool * S :=
  match d with
  | Some d => fn (joinDomain items) d s
  | None => (true, s)
  end.

Fixpoint recursion (items : list string) (n : Node T) (s : S) : bool * S :=
  let walk :=
    fix walk (m : list (string * Node T)) (s : S) : bool * S :=
      match m with
      | [] => (true, s)
      | (k, c) :: m =>
        let '(go, s) := call (k :: items) (data c) s in
        if negb go then (false, s)
        else
          let '(go, s) := recursion (k :: items) c s in
          if negb go then (false, s) else walk m s
      end in
  match n with
  | mkNode None None _ _ => (true, s)
  | mkNode None (Some c) k _ =>
    let '(go, s) := call (k :: items) (data c) s in
    if negb go then (false, s)
    else recursion (k :: items) c s
  | mkNode (Some m) _ _ _ => walk m s
  end.

Fixpoint Foreach_loop (m : list (string * Node T)) (s : S) : S :=
  match m with
  | [] => s
  | (k, c) :: m =>
    let '(_, s) := recursion [k] c s in
    let '(go, s) := call [k] (data c) s in
    if negb go then s else Foreach_loop m s
  end.

Definition Foreach (t : DomainTrie) (s : S) : S := Foreach_loop (getChildren t) s.

End foreach.

(** ** The semantics of a node *)

Fixpoint getPath n (path : list string) : option T :=
  match path with
  | [] => data n
  | p :: path => match getChild n p with Some c => getPath c path | None => None end
  end.

#[local] Ltac tests := repeat (case_bool_decide; simplify_eq/=; try done).

Lemma assoc_set_eq s c m s' :
  assoc s' (assoc_set s c m) = if bool_decide (s = s') then Some c else assoc s' m.
Proof.
  induction m as [|[k c'] m IH]; simpl; [done|].
  destruct (decide (k = s)) as [->|Hne]; [rewrite bool_decide_true by done; simpl; by tests|].
  rewrite bool_decide_false by done. simpl. rewrite IH. by tests.
Qed.

Lemma getChild_addChild n s c s' :
  getChild n s = None →
  getChild (addChild n s c) s' = if bool_decide (s = s') then Some c else getChild n s'.
Proof.
  unfold getChild, addChild. intros Hn. destruct (childMap n) as [m|]; simpl.
  - apply assoc_set_eq.
  - destruct (childNode n) as [c0|]; simpl; [|done].
    by tests.
Qed.

Lemma getChild_storeChild n s c c0 s' :
  getChild n s = Some c0 →
  getChild (storeChild n s c) s' = if bool_decide (s = s') then Some c else getChild n s'.
Proof.
  unfold getChild, storeChild. intros Hn. destruct (childMap n) as [m|]; simpl.
  - apply assoc_set_eq.
  - destruct (childNode n) as [c1|]; [|done]. by tests.
Qed.

(** Storing the child that [getOrNewChild] gave. *)
Lemma getChild_store n s c s' :
  let '(_, n') := getOrNewChild n s in
  getChild (storeChild n' s c) s' = (if bool_decide (s = s') then Some c else getChild n s') ∧
  data (storeChild n' s c) = data n.
Proof.
  unfold getOrNewChild. destruct (getChild n s) as [c0|] eqn:Hs.
  - split; [by eapply getChild_storeChild|]. unfold storeChild. by destruct (childMap n).
  - assert (getChild (addChild n s newNode) s = Some newNode) as Ha
      by (rewrite getChild_addChild by done; by rewrite bool_decide_true).
    split.
    + rewrite (getChild_storeChild _ _ _ _ _ Ha), getChild_addChild by done.
      by case_bool_decide.
    + unfold storeChild, addChild. by destruct (childMap n), (childNode n).
Qed.

Lemma getPath_insert n path v path' :
  getPath (insert_rev n path v) path' =
    if bool_decide (path = path') then Some v else getPath n path'.
Proof.
  revert n path'. induction path as [|p path IH]; intros n path'; cbn [insert_rev].
  - destruct path'; [done|]. rewrite bool_decide_false by done.
    by destruct n as [[] ? ? ?].
  - pose proof (λ c s', getChild_store n p c s') as Hst.
    assert (∀ q, getPath (getOrNewChild n p).1 q = getPath n (p :: q)) as Hch.
    { intros q. unfold getOrNewChild. simpl. destruct (getChild n p); [done|]. by destruct q. }
    destruct (getOrNewChild n p) as [c n']. simpl in Hch.
    destruct path' as [|q path']; cbn [getPath].
    + destruct (Hst (insert_rev c path v) "") as [_ ->]. by rewrite bool_decide_false.
    + destruct (Hst (insert_rev c path v) q) as [-> _].
      destruct (decide (p = q)) as [->|Hne].
      * rewrite bool_decide_true by done. rewrite IH, Hch.
        destruct (decide (path = path')) as [->|]; [by rewrite !bool_decide_true by done|].
        by rewrite !bool_decide_false by congruence.
      * by rewrite !bool_decide_false by congruence.
Qed.

(** ** Searching *)

(** The best match among the stored paths [f]: label, then "*", then a suffix. *)
Fixpoint best (f : list string → option T) (labels : list string) : option T :=
  match labels with
  | [] => f []
  | l :: labels =>
    match best (λ p, f (l :: p)) labels with
    | Some v => Some v
    | None =>
      match best (λ p, f (wildcard :: p)) labels with
      | Some v => Some v
      | None => f [dotWildcard]
      end
    end
  end.

Lemma best_ext f g labels : (∀ p, f p = g p) → best f labels = best g labels.
Proof.
  revert f g. induction labels as [|l labels IH]; intros f g Hfg; simpl; [done|].
  rewrite (IH _ (λ p, g (l :: p))) by done.
  rewrite (IH (λ p, f (wildcard :: p)) (λ p, g (wildcard :: p))) by done. by rewrite Hfg.
Qed.

Lemma best_None labels : best (λ _, None) labels = None.
Proof. induction labels as [|l labels IH]; simpl; [done|]. by rewrite IH. Qed.

Lemma best_exact f labels v : f labels = Some v → best f labels = Some v.
Proof.
  revert f. induction labels as [|l labels IH]; intros f Hf; simpl; [done|]. by rewrite IH.
Qed.

Lemma Data_isEmpty (r : option (Node T)) : isEmpty r = match Data r with None => true | _ => false end.
Proof. by destruct r as [[? ? ? []]|]. Qed.

Lemma search_best n labels : Data (search_rev n labels) = best (getPath n) labels.
Proof.
  revert n. induction labels as [|l labels IH]; intros n; simpl; [done|].
  assert (∀ s, best (λ p, getPath n (s :: p)) labels =
            match getChild n s with Some c => Data (search_rev c labels) | None => None end) as Hs.
  { intros s. simpl. destruct (getChild n s) as [c|]; [by rewrite IH|apply best_None]. }
  simpl in Hs. rewrite !Hs. clear Hs IH.
  assert (∀ c : option (Node T), match c with
      | Some c => if negb (isEmpty (search_rev c labels)) then search_rev c labels else None
      | None => None end = None ∧
      match c with Some c => Data (search_rev c labels) | None => None end = None ∨
    ∃ r v, match c with
      | Some c => if negb (isEmpty (search_rev c labels)) then search_rev c labels else None
      | None => None end = Some r ∧ Data (Some r) = Some v ∧
      match c with Some c => Data (search_rev c labels) | None => None end = Some v) as Hc.
  { intros [c|]; [|by left]. rewrite Data_isEmpty. destruct (search_rev c labels) as [r|]; [|by left].
    destruct (Data (Some r)) as [v|] eqn:Hd; [right; by exists r, v|by left]. }
  destruct (Hc (getChild n l)) as [[-> ->]|(r & v & -> & Hv & ->)]; [|done].
  destruct (Hc (getChild n wildcard)) as [[-> ->]|(r & v & -> & Hv & ->)]; [|done].
  unfold Data. by destruct (getChild n dotWildcard).
Qed.

(** ** Stored patterns *)

(** The paths under which a pattern is stored. *)
Definition paths (parts : list string) : list (list string) :=
  match parts with
  | [] => []
  | p :: ps =>
    if bool_decide (p = complexWildcard) then [reverse ps; reverse (dotWildcard :: ps)]
    else [reverse (p :: ps)]
  end.

Lemma getPath_Insert t domain v :
  match ValidAndSplitDomain domain, Insert t domain v with
  | inl e, inl e' => e = e'
  | inr parts, inr t' =>
    ∀ q, getPath t' q = if bool_decide (q ∈ paths parts) then Some v else getPath t q
  | inr parts, inl _ => parts = []
  | _, _ => False
  end.
Proof.
  unfold Insert. destruct (ValidAndSplitDomain domain) as [e|[|p ps]]; [done..|].
  unfold paths. case_bool_decide; intros q; unfold insert; rewrite !getPath_insert;
    repeat case_bool_decide; try done; set_solver.
Qed.

Lemma ValidAndSplit_cons domain parts :
  ValidAndSplitDomain domain = inr parts →
  ∃ p ps, parts = p :: ps ∧ Forall (λ q, q ≠ "") ps.
Proof.
  unfold ValidAndSplitDomain. repeat (case_bool_decide; [done|]).
  destruct (starts_with_space domain); [done|]. destruct (ends_with_space domain); [done|].
  destruct (Split_cons domainStep (ToLower domain)) as (p & ps & Hs). rewrite Hs. cbv zeta.
  assert (∀ i, empty_label i ps = None → Forall (λ q, q ≠ "") ps) as Hne.
  { clear. induction ps as [|q ps IH]; intros i; simpl; [constructor|].
    case_bool_decide; [done|]. intros ?%IH. by constructor. }
  destruct ps as [|q ps].
  - case_bool_decide; [done|]. destruct (check_wildcards _ _ _); [done|].
    intros [= <-]. eexists _, _. split; [done|constructor].
  - cbn [tail]. destruct (empty_label 2 (q :: ps)) as [k|] eqn:He; [done|]. simpl fmap. cbv iota.
    destruct (check_wildcards _ _ _); [done|]. intros [= <-].
    eexists _, _. split; [done|]. by eapply Hne.
Qed.

(** Insert a list of patterns; the ones that are rejected change nothing. *)
Fixpoint build (t : DomainTrie) (ins : list (string * T)) : DomainTrie :=
  match ins with
  | [] => t
  | (d, v) :: ins => match Insert t d v with inr t => build t ins | inl _ => build t ins end
  end.

(** The semantics of a list of insertions: the last one for a path wins. *)
Fixpoint sem (f : list string → option T) (ins : list (string * T)) : list string → option T :=
  match ins with
  | [] => f
  | (d, v) :: ins =>
    match ValidAndSplitDomain d with
    | inl _ => sem f ins
    | inr parts => sem (λ q, if bool_decide (q ∈ paths parts) then Some v else f q) ins
    end
  end.

Lemma sem_ext f g ins q : (∀ q, f q = g q) → sem f ins q = sem g ins q.
Proof.
  revert f g. induction ins as [|[d v] ins IH]; intros f g Hfg; simpl; [done|].
  destruct (ValidAndSplitDomain d); [by apply IH|]. apply IH. intros q'. by rewrite Hfg.
Qed.

Lemma getPath_build t ins q : getPath (build t ins) q = sem (getPath t) ins q.
Proof.
  revert t. induction ins as [|[d v] ins IH]; intros t; simpl; [done|].
  pose proof (getPath_Insert t d v) as Hi. pose proof (ValidAndSplit_cons d) as Hc.
  destruct (ValidAndSplitDomain d) as [e|parts], (Insert t d v) as [e'|t']; try done.
  - destruct (Hc parts eq_refl) as (p & ps & -> & _). done.
  - rewrite IH. by apply sem_ext.
Qed.

Lemma getPath_New q : getPath New q = None.
Proof. by destruct q. Qed.

(** [f] answers [q] with [v] because of an insertion. *)
Lemma sem_Some f ins q v :
  sem f ins q = Some v →
  f q = Some v ∨ ∃ d parts, (d, v) ∈ ins ∧ ValidAndSplitDomain d = inr parts ∧ q ∈ paths parts.
Proof.
  revert f. induction ins as [|[d w] ins IH]; intros f; simpl; [by left|].
  destruct (ValidAndSplitDomain d) as [|parts] eqn:Hd.
  - intros [?|(d' & parts' & ? & ? & ?)]%IH; [by left|]. right. exists d', parts'. set_solver.
  - intros [Hq|(d' & parts' & ? & ? & ?)]%IH.
    + case_bool_decide; [|by left]. simplify_eq. right. exists d, parts. set_solver.
    + right. exists d', parts'. set_solver.
Qed.

Lemma sem_mono f ins q : is_Some (f q) → is_Some (sem f ins q).
Proof.
  revert f. induction ins as [|[d w] ins IH]; intros f Hq; simpl; [done|].
  destruct (ValidAndSplitDomain d); apply IH; [done|]. by case_bool_decide.
Qed.

Lemma sem_elem f ins d v parts q :
  (d, v) ∈ ins → ValidAndSplitDomain d = inr parts → q ∈ paths parts → is_Some (sem f ins q).
Proof.
  intros Hin Hd Hq. revert f. induction ins as [|[d' w] ins IH]; intros f; [set_solver|].
  apply elem_of_cons in Hin as [[= <- <-]|Hin]; simpl.
  - rewrite Hd. apply sem_mono. by rewrite bool_decide_true.
  - destruct (ValidAndSplitDomain d'); by apply IH.
Qed.

(** ** What a pattern matches *)

Definition label_match (p l : string) : Prop := p = wildcard ∨ p = l.

(** The documented meaning: labels match label by label, "*" any one label;
    a leading "." any one or more labels, a leading "+" any number of them. *)
Definition covers (parts labels : list string) : Prop :=
  match parts with
  | [] => False
  | p :: ps =>
    if bool_decide (p = complexWildcard) then
      ∃ pre suf, labels = pre ++ suf ∧ Forall2 label_match ps suf
    else if bool_decide (p = dotWildcard) then
      ∃ pre suf, pre ≠ [] ∧ labels = pre ++ suf ∧ Forall2 label_match ps suf
    else Forall2 label_match (p :: ps) labels
  end.

Inductive pmatch : list string → list string → Prop :=
| pm_nil : pmatch [] []
| pm_label l p ls : pmatch p ls → pmatch (l :: p) (l :: ls)
| pm_star l p ls : pmatch p ls → pmatch (wildcard :: p) (l :: ls)
| pm_dot l ls : pmatch [dotWildcard] (l :: ls).

Lemma best_sound f labels v :
  best f labels = Some v → ∃ p, pmatch p labels ∧ f p = Some v.
Proof.
  revert f. induction labels as [|l labels IH]; intros f; simpl.
  - intros Hf. exists []. split; [constructor|done].
  - destruct (best (λ p, f (l :: p)) labels) as [w|] eqn:H1.
    { intros [= <-]. apply IH in H1 as (p & Hp & Hf). exists (l :: p). by split; [constructor|]. }
    destruct (best (λ p, f (wildcard :: p)) labels) as [w|] eqn:H2.
    { intros [= <-]. apply IH in H2 as (p & Hp & Hf). exists (wildcard :: p).
      by split; [constructor|]. }
    intros Hf. exists [dotWildcard]. by split; [constructor|].
Qed.

Lemma best_complete f p labels : pmatch p labels → is_Some (f p) → is_Some (best f labels).
Proof.
  intros Hp. revert f. induction Hp as [|l p ls Hp IH|l p ls Hp IH|l ls]; intros f Hf; simpl.
  - done.
  - destruct (IH (λ p, f (l :: p)) Hf) as [w ->]. by eexists.
  - destruct (best (λ p, f (l :: p)) ls); [by eexists|].
    destruct (IH (λ p, f (wildcard :: p)) Hf) as [w ->]. by eexists.
  - destruct (best (λ p, f (l :: p)) ls); [by eexists|].
    destruct (best (λ p, f (wildcard :: p)) ls); [by eexists|done].
Qed.

Lemma pmatch_all p ls : Forall2 label_match p ls → pmatch p ls.
Proof. induction 1 as [|x l p ls [->| ->] H IH]; by constructor. Qed.

Lemma pmatch_suffix p ls l rest :
  Forall2 label_match p ls → pmatch (p ++ [dotWildcard]) (ls ++ l :: rest).
Proof. induction 1 as [|x l' p ls [->| ->] H IH]; simpl; by constructor. Qed.

Lemma pmatch_inv p ls :
  pmatch p ls →
  Forall2 label_match p ls ∨
  ∃ p0 ls0 l rest, p = p0 ++ [dotWildcard] ∧ ls = ls0 ++ l :: rest ∧ Forall2 label_match p0 ls0.
Proof.
  induction 1 as [|l p ls H IH|l p ls H IH|l ls].
  - left. constructor.
  - destruct IH as [IH|(p0 & ls0 & l' & rest & -> & -> & IH)].
    + left. constructor; [by right|done].
    + right. exists (l :: p0), (l :: ls0), l', rest. split_and!; [done..|].
      constructor; [by right|done].
  - destruct IH as [IH|(p0 & ls0 & l' & rest & -> & -> & IH)].
    + left. constructor; [by left|done].
    + right. exists (wildcard :: p0), (l :: ls0), l', rest. split_and!; [done..|].
      constructor; [by left|done].
  - right. exists [], [], l, ls. done.
Qed.

Lemma Forall2_rev_iff (p l : list string) :
  Forall2 label_match (reverse p) (reverse l) ↔ Forall2 label_match p l.
Proof.
  split; intros Hf; [|by apply Forall2_reverse].
  rewrite <- (reverse_involutive p), <- (reverse_involutive l). by apply Forall2_reverse.
Qed.

Lemma label_match_nonempty p l : label_match p l → l ≠ "" → p ≠ "".
Proof. by intros [->| ->]. Qed.

(** A path without an inner dot wildcard matches label by label, ... *)
Lemma pmatch_plain ps labels :
  Forall (λ q, q ≠ "") ps → pmatch (reverse ps) (reverse labels) ↔ Forall2 label_match ps labels.
Proof.
  intros Hne. rewrite <- Forall2_rev_iff. split; [|apply pmatch_all].
  intros [?|(p0 & ls0 & l & rest & Hp & _)]%pmatch_inv; [done|]. exfalso.
  rewrite Forall_forall in Hne. apply (Hne ""); [|done].
  apply elem_of_reverse. rewrite Hp. set_solver.
Qed.

(** ... and one that ends in a dot wildcard matches a suffix. *)
Lemma pmatch_dotted ps labels :
  Forall (λ q, q ≠ "") labels →
  pmatch (reverse (dotWildcard :: ps)) (reverse labels) ↔
  ∃ pre suf, pre ≠ [] ∧ labels = pre ++ suf ∧ Forall2 label_match ps suf.
Proof.
  intros Hne. rewrite reverse_cons. split.
  - intros [Hf|(p0 & ls0 & l & rest & Hp & Hl & Hf)]%pmatch_inv.
    + exfalso. rewrite <- reverse_cons, Forall2_rev_iff in Hf.
      apply Forall2_cons_inv_l in Hf as (l & ls & Hm & _ & ->).
      apply Forall_cons in Hne as [Hne _]. by apply (label_match_nonempty _ _ Hm).
    + apply app_inj_2 in Hp as [<- _]; [|done].
      exists (reverse (l :: rest)), (reverse ls0). split_and!.
      * rewrite reverse_cons. by destruct (reverse rest).
      * rewrite <- reverse_app, <- Hl. by rewrite reverse_involutive.
      * by rewrite <- Forall2_rev_iff, reverse_involutive.
  - intros (pre & suf & Hpre & -> & Hf). rewrite reverse_app.
    destruct (reverse pre) as [|l rest] eqn:Hr.
    { apply (f_equal reverse) in Hr. by rewrite reverse_involutive in Hr. }
    apply pmatch_suffix. by apply Forall2_rev_iff.
Qed.

Lemma paths_covers p ps labels :
  Forall (λ q, q ≠ "") ps → Forall (λ q, q ≠ "") labels →
  (∃ q, q ∈ paths (p :: ps) ∧ pmatch q (reverse labels)) ↔ covers (p :: ps) labels.
Proof.
  intros Hps Hl. unfold paths, covers. case_bool_decide.
  - transitivity (Forall2 label_match ps labels ∨
      ∃ pre suf, pre ≠ [] ∧ labels = pre ++ suf ∧ Forall2 label_match ps suf).
    { rewrite <- (pmatch_plain ps) by done. rewrite <- (pmatch_dotted ps) by done. set_solver. }
    split.
    + intros [?|(pre & suf & ? & ? & ?)]; [by exists [], labels|by exists pre, suf].
    + intros ([|l pre] & suf & -> & ?); [by left|right]. by exists (l :: pre), suf.
  - transitivity (pmatch (reverse (p :: ps)) (reverse labels)); [set_solver|].
    case_bool_decide; subst; [by apply pmatch_dotted|].
    apply pmatch_plain. by constructor.
Qed.

(** ** Search and the inserted patterns *)

Lemma Search_best t d :
  Data (Search t d) =
    match ValidAndSplitDomain d with
    | inl _ => None
    | inr labels => if bool_decide (hd "" labels = "") then None else best (getPath t) (reverse labels)
    end ∧ (Search t d = None ↔ Data (Search t d) = None).
Proof.
  unfold Search. destruct (ValidAndSplitDomain d) as [|labels]; [done|].
  destruct labels as [|p ps]; [done|]. simpl. case_bool_decide; [done|].
  rewrite <- search_best, Data_isEmpty. destruct (search_rev t _) as [n|]; [|done].
  destruct (Data (Some n)) eqn:Hd; [|done]. by rewrite Hd.
Qed.

Lemma best_covers ins labels :
  Forall (λ q, q ≠ "") labels →
  (∀ v, best (getPath (build New ins)) (reverse labels) = Some v →
     ∃ d parts, (d, v) ∈ ins ∧ ValidAndSplitDomain d = inr parts ∧ covers parts labels) ∧
  (∀ d v parts, (d, v) ∈ ins → ValidAndSplitDomain d = inr parts → covers parts labels →
     is_Some (best (getPath (build New ins)) (reverse labels))).
Proof.
  intros Hl. split.
  - intros v (q & Hq & Hv)%best_sound. rewrite getPath_build in Hv.
    apply sem_Some in Hv as [Hv|(d & parts & Hin & Hd & Hp)]; [by rewrite getPath_New in Hv|].
    exists d, parts. split_and!; [done..|].
    destruct (ValidAndSplit_cons _ _ Hd) as (p & ps & -> & Hps).
    apply paths_covers; [done..|]. by exists q.
  - intros d v parts Hin Hd Hc.
    destruct (ValidAndSplit_cons _ _ Hd) as (p & ps & -> & Hps).
    apply paths_covers in Hc as (q & Hq & Hm); [|done..].
    eapply best_complete; [done|]. rewrite getPath_build. by eapply sem_elem.
Qed.

(** C3: a domain is found in a trie built by insertions exactly when one of the
    accepted patterns covers it, and the data found is that of a covering pattern. *)
Theorem domain_trie_search ins d labels :
  ValidAndSplitDomain d = inr labels → hd "" labels ≠ "" →
  (∀ n, Search (build New ins) d = Some n →
     ∃ p v parts, Data (Some n) = Some v ∧ (p, v) ∈ ins ∧
       ValidAndSplitDomain p = inr parts ∧ covers parts labels) ∧
  (Search (build New ins) d = None →
     ∀ p v parts, (p, v) ∈ ins → ValidAndSplitDomain p = inr parts → ¬ covers parts labels).
Proof.
  intros Hd Hh. destruct (Search_best (build New ins) d) as [Hs Hn]. rewrite Hd in Hs.
  rewrite bool_decide_false in Hs by done.
  destruct (ValidAndSplit_cons _ _ Hd) as (p0 & ps0 & -> & Hps).
  destruct (best_covers ins (p0 :: ps0)) as [Hsound Hcomp]; [by constructor|]. split.
  - intros n Hn'. rewrite Hn' in *. destruct (Data (Some n)) as [v|] eqn:Hv; [|naive_solver].
    destruct (Hsound v) as (p & parts & ? & ? & ?); [done|]. by exists p, v, parts.
  - intros HN p v parts Hin Hp Hc. destruct (Hcomp p v parts Hin Hp Hc) as [w Hw].
    rewrite Hw in Hs. naive_solver.
Qed.

(** The value found is the best one for the documented priority (at each label
    the label itself, then "*", then a dot wildcard) among the paths the patterns
    stand for, a later insertion of a path replacing an earlier one. *)
Theorem domain_trie_priority ins d labels :
  ValidAndSplitDomain d = inr labels → hd "" labels ≠ "" →
  Data (Search (build New ins) d) = best (sem (λ _, None) ins) (reverse labels).
Proof.
  intros Hd Hh. destruct (Search_best (build New ins) d) as [-> _].
  rewrite Hd, bool_decide_false by done. apply best_ext. intros q.
  rewrite getPath_build. apply sem_ext. apply getPath_New.
Qed.

(** ** Well-formed nodes *)

Inductive wf : Node T → Prop :=
| wf_inline (c : option (Node T)) s d : (∀ x, c = Some x → wf x) → wf (mkNode None c s d)
| wf_map m s d :
  NoDup m.*1 → (∀ k x, (k, x) ∈ m → wf x) → wf (mkNode (Some m) None s d).

Lemma assoc_elem s m c : assoc s m = Some c → (s, c) ∈ m.
Proof. induction m as [|[k c'] m IH]; simpl; [done|]. tests; set_solver. Qed.

Lemma assoc_elem_iff s m c : NoDup m.*1 → assoc s m = Some c ↔ (s, c) ∈ m.
Proof.
  intros Hnd. split; [apply assoc_elem|]. induction m as [|[k c'] m IH]; [set_solver|].
  csimpl in Hnd. apply NoDup_cons in Hnd as [Hk Hnd]. intros [[= -> ->]|Hin]%elem_of_cons; simpl.
  - by rewrite bool_decide_true.
  - rewrite bool_decide_false; [by apply IH|]. intros ->. apply Hk.
    apply list_elem_of_fmap. by exists (s, c).
Qed.

Lemma assoc_set_elem s c m k x : (k, x) ∈ assoc_set s c m → (k, x) = (s, c) ∨ (k, x) ∈ m.
Proof. induction m as [|[k' c'] m IH]; simpl; [set_solver|]. tests; set_solver. Qed.

Lemma assoc_set_NoDup s c m : NoDup m.*1 → NoDup (assoc_set s c m).*1.
Proof.
  induction m as [|[k' c'] m IH]; csimpl; [intros _; apply NoDup_singleton|].
  intros [Hk Hnd]%NoDup_cons. tests; [by apply NoDup_cons|]. csimpl.
  apply NoDup_cons. split; [|by apply IH].
  intros ([k x] & -> & Hin)%list_elem_of_fmap. apply assoc_set_elem in Hin as [[= -> ->]|Hin]; [done|].
  apply Hk. apply list_elem_of_fmap. by exists (k, x).
Qed.

Lemma wf_getChild n s c : wf n → getChild n s = Some c → wf c.
Proof.
  intros [c' s' d Hc|m s' d Hnd Hm]; unfold getChild; simpl.
  - destruct c' as [c'|]; [|done]. tests. by apply Hc.
  - intros ?%assoc_elem. by eapply Hm.
Qed.

Lemma wf_newNode : wf newNode.
Proof. by constructor. Qed.

Lemma wf_setData n v : wf n → wf (setData n v).
Proof. intros []; by constructor. Qed.

Lemma wf_assoc_set s c m k x :
  wf c → (∀ k x, (k, x) ∈ m → wf x) → (k, x) ∈ assoc_set s c m → wf x.
Proof. intros Hc Hm [[= -> ->]|?]%assoc_set_elem; [done|by eapply Hm]. Qed.

Lemma wf_addChild n s c : wf n → wf c → wf (addChild n s c).
Proof.
  intros [[c'|] s' d Hc|m s' d Hnd Hm] Hwc; unfold addChild; cbn [childMap childNode data childStr].
  - apply wf_map; [apply assoc_set_NoDup, NoDup_singleton|]. intros k x. apply wf_assoc_set; [done|].
    intros ? ? ?%list_elem_of_singleton. simplify_eq. by apply Hc.
  - constructor. by intros ? [= <-].
  - apply wf_map; [by apply assoc_set_NoDup|]. intros k x. by apply wf_assoc_set.
Qed.

Lemma wf_storeChild n s c : wf n → wf c → wf (storeChild n s c).
Proof.
  intros [c' s' d Hc|m s' d Hnd Hm] Hwc; unfold storeChild; simpl.
  - constructor. by intros ? [= <-].
  - apply wf_map; [by apply assoc_set_NoDup|]. intros k x. by apply wf_assoc_set.
Qed.

Lemma wf_insert n path v : wf n → wf (insert_rev n path v).
Proof.
  revert n. induction path as [|p path IH]; intros n Hn; simpl; [by apply wf_setData|].
  unfold getOrNewChild. destruct (getChild n p) as [c|] eqn:Hc.
  - apply wf_storeChild; [done|]. apply IH. by eapply wf_getChild.
  - apply wf_storeChild; [apply wf_addChild; [done|]|apply IH]; apply wf_newNode.
Qed.

Lemma wf_build t ins : wf t → wf (build t ins).
Proof.
  revert t. induction ins as [|[d v] ins IH]; intros t Ht; simpl; [done|].
  unfold Insert, insert. destruct (ValidAndSplitDomain d) as [|[|p ps]]; [by apply IH..|].
  case_bool_decide; apply IH; repeat apply wf_insert; done.
Qed.

(** ** Optimize *)

Lemma optimize_map m s : assoc s (List.map (λ '(k, c), (k, optimize c)) m) = optimize <$> assoc s m.
Proof. induction m as [|[k c] m IH]; simpl; [done|]. rewrite IH. by case_bool_decide. Qed.

Lemma optimize_getChild n s : wf n → getChild (optimize n) s = optimize <$> getChild n s.
Proof.
  intros [[c|] s' d Hc|[|[k c] [|kc m]] s' d Hnd Hm]; unfold getChild.
  - simpl. by case_bool_decide.
  - done.
  - done.
  - simpl. by case_bool_decide.
  - cbn -[List.map assoc]. apply optimize_map.
Qed.

Lemma optimize_data n : data (optimize n) = data n.
Proof. destruct n as [[[|[? ?] [|? ?]]|] ? ? ?]; reflexivity. Qed.

Lemma optimize_getPath n q : wf n → getPath (optimize n) q = getPath n q.
Proof.
  revert n. induction q as [|p q IH]; intros n Hn; [apply optimize_data|]. cbn [getPath].
  rewrite optimize_getChild by done. destruct (getChild n p) as [c|] eqn:Hc; [|done]. simpl.
  apply IH. by eapply wf_getChild.
Qed.

(** [Optimize] changes no search result. *)
Theorem domain_trie_optimize ins d :
  let t := build New ins in
  Data (Search (Optimize t) d) = Data (Search t d) ∧
  (Search (Optimize t) d = None ↔ Search t d = None).
Proof.
  intros t. unfold Optimize. destruct (Search_best (optimize t) d) as [H1 H2], (Search_best t d) as [H3 H4].
  assert (Data (Search (optimize t) d) = Data (Search t d)) as Heq; [|by rewrite H2, H4, Heq].
  rewrite H1, H3. destruct (ValidAndSplitDomain d); [done|]. case_bool_decide; [done|].
  apply best_ext. intros q. apply optimize_getPath, wf_build, wf_newNode.
Qed.

(** ** Foreach *)

Definition own (items : list string) (c : Node T) : list (list string * T) :=
  match data c with Some d => [(items, d)] | None => [] end.

(** The entries below [n], in the order of the visit. *)
Fixpoint listing (items : list string) (n : Node T) : list (list string * T) :=
  match n with
  | mkNode None None _ _ => []
  | mkNode None (Some c) k _ => own (k :: items) c ++ listing (k :: items) c
  | mkNode (Some m) _ _ _ =>
    flat_map (λ '(k, c), own (k :: items) c ++ listing (k :: items) c) m
  end.

(** The entries of a trie, in the order of [Foreach]. *)
Definition entries (t : DomainTrie) : list (list string * T) :=
  flat_map (λ '(k, c), listing [k] c ++ own [k] c) (getChildren t).

Section visit.
Context {S : Type} (fn : string → T → S → bool * S).

(** Calling [fn] on entries until it returns false. *)
Fixpoint visit (l : list (list string * T)) (s : S) : bool * S :=
  match l with
  | [] => (true, s)
  | (items, d) :: l =>
    let '(go, s) := fn (joinDomain items) d s in
    if go then visit l s else (false, s)
  end.

Lemma visit_app l1 l2 s :
  visit (l1 ++ l2) s = let '(go, s) := visit l1 s in if go then visit l2 s else (false, s).
Proof.
  revert s. induction l1 as [|[items d] l1 IH]; intros s; simpl; [done|].
  destruct (fn _ d s) as [[] s']; [apply IH|done].
Qed.

Lemma call_visit items c s : call fn items (data c) s = visit (own items c) s.
Proof.
  unfold call, own. destruct (data c) as [d|]; [|done]. simpl. by destruct (fn _ d s) as [[] s'].
Qed.

Lemma recursion_visit items n s : wf n → recursion fn items n s = visit (listing items n) s.
Proof.
  intros Hn. revert items s. induction Hn as [c k d Hc IH|m k d Hnd Hm IH]; intros items s.
  - destruct c as [c|]; [|done]. cbn [recursion listing]. rewrite call_visit, visit_app.
    destruct (visit (own _ c) s) as [[] s']; [|done]. simpl. by apply IH.
  - cbn [recursion listing]. clear Hnd Hm. revert s.
    induction m as [|[k' c] m IHm]; intros s; [done|]. cbn [flat_map].
    rewrite call_visit, <- (app_assoc (own _ c)), !visit_app.
    destruct (visit (own _ c) s) as [[] s']; [|done]. cbn [negb].
    rewrite (IH k' c) by set_solver. rewrite visit_app.
    destruct (visit (listing _ c) s') as [[] s'']; [|done]. cbn [negb].
    apply IHm. intros k0 x Hin. apply (IH k0). set_solver.
Qed.
End visit.

Lemma wf_getChildren n k c : wf n → (k, c) ∈ getChildren n → wf c ∧ getChild n k = Some c.
Proof.
  intros [[c'|] s d Hc|m s d Hnd Hm]; unfold getChildren, getChild; simpl.
  - rewrite list_elem_of_singleton. intros [= -> ->].
    split; [by apply Hc|by rewrite bool_decide_true].
  - set_solver.
  - intros Hin. split; [by eapply Hm|]. by apply assoc_elem_iff.
Qed.

Lemma getChild_getChildren n k c : getChild n k = Some c → (k, c) ∈ getChildren n.
Proof.
  destruct n as [[m|] [c'|] s d]; unfold getChildren, getChild; simpl; try apply assoc_elem; [|done].
  case_bool_decide; [|done]. intros [= ->]. subst. by apply list_elem_of_singleton.
Qed.

Lemma listing_children items n :
  listing items n = flat_map (λ '(k, c), own (k :: items) c ++ listing (k :: items) c) (getChildren n).
Proof. destruct n as [[m|] [c|] s d]; simpl; [done..|by rewrite app_nil_r|done]. Qed.

Lemma elem_own items c it d : (it, d) ∈ own items c ↔ it = items ∧ data c = Some d.
Proof. unfold own. destruct (data c); set_solver. Qed.

Lemma elem_listing items n it d :
  wf n →
  (it, d) ∈ listing items n ↔ ∃ q, q ≠ [] ∧ it = reverse q ++ items ∧ getPath n q = Some d.
Proof.
  intros Hn. split.
  - revert items. induction Hn as [c k d' Hc IH|m k d' Hnd Hm IH]; intros items.
    + destruct c as [c|]; [|set_solver]. cbn [listing].
      intros [[-> Hd]%elem_own|Hin]%elem_of_app.
      * exists [k]. simpl. unfold getChild. simpl. by rewrite bool_decide_true.
      * apply IH in Hin as (q & Hq & -> & Hp); [|done]. exists (k :: q).
        simpl. unfold getChild. simpl. rewrite bool_decide_true by done.
        by rewrite reverse_cons, <- app_assoc.
    + cbn [listing]. intros ([k' c] & Hk & Hin)%elem_flat_map.
      assert (getChild (mkNode (Some m) None k d') k' = Some c) as Hg by by apply assoc_elem_iff.
      apply elem_of_app in Hin as [[-> Hd]%elem_own|Hin].
      * exists [k']. cbn [getPath]. by rewrite Hg.
      * eapply IH in Hin as (q & Hq & -> & Hp); [|done]. exists (k' :: q).
        cbn [getPath]. by rewrite Hg, reverse_cons, <- app_assoc.
  - intros (q & Hq & -> & Hp). revert n items Hn Hq Hp.
    induction q as [|p q IH]; intros n items Hn Hq Hp; [done|].
    cbn [getPath] in Hp. destruct (getChild n p) as [c|] eqn:Hc; [|done].
    rewrite listing_children. apply elem_flat_map. exists (p, c).
    split; [by apply getChild_getChildren|]. rewrite reverse_cons, <- app_assoc.
    apply elem_of_app. destruct q as [|p' q].
    + left. by apply elem_own.
    + right. apply IH; [by eapply wf_getChild|done|done].
Qed.

Lemma elem_entries t it d :
  wf t → (it, d) ∈ entries t ↔ ∃ q, q ≠ [] ∧ it = reverse q ∧ getPath t q = Some d.
Proof.
  intros Hw. transitivity ((it, d) ∈ listing [] t).
  - rewrite listing_children. unfold entries. rewrite !elem_flat_map.
    split; intros ([k c] & Hin & Hel); exists (k, c); split; try done; set_solver.
  - rewrite elem_listing by done. by setoid_rewrite app_nil_r.
Qed.

(** A callback that keeps every entry and never stops. *)
Definition collect (domain : string) (d : T) (s : list (string * T)) : bool * list (string * T) :=
  (true, s ++ [(domain, d)]).

Lemma visit_collect l s : visit collect l s = (true, s ++ (prod_map joinDomain id <$> l)).
Proof.
  revert s. induction l as [|[items d] l IH]; intros s; csimpl; [by rewrite app_nil_r|].
  by rewrite IH, <- app_assoc.
Qed.

Lemma Foreach_collect t s :
  wf t → Foreach collect t s = s ++ (prod_map joinDomain id <$> entries t).
Proof.
  intros Hw. unfold Foreach, entries.
  assert (∀ k c, (k, c) ∈ getChildren t → wf c) as Hc by (intros k c Hin; by eapply wf_getChildren).
  revert s. induction (getChildren t) as [|[k c] m IH]; intros s; csimpl; [by rewrite app_nil_r|].
  rewrite recursion_visit by (apply (Hc k); set_solver). rewrite visit_collect. cbv iota beta.
  rewrite call_visit, visit_collect. cbn [negb]. rewrite IH by set_solver.
  by rewrite !fmap_app, !app_assoc.
Qed.

End trie.

(** ** Patterns that [Foreach] gives are accepted again *)

Lemma existsb_ext {A} (f g : A → bool) l : Forall (λ x, f x = g x) l → existsb f l = existsb g l.
Proof. induction 1 as [|x l Hx Hl IH]; simpl; [done|]. by rewrite Hx, IH. Qed.

Lemma spaces_no_letters : Forall (λ x, no_letters x = true) spaces.
Proof. repeat constructor. Qed.

Lemma spaces_lower d :
  starts_with_space (ToLower d) = starts_with_space d ∧ ends_with_space (ToLower d) = ends_with_space d.
Proof.
  split; apply existsb_ext; eapply Forall_impl; try apply spaces_no_letters; intros x Hx.
  - by apply HasPrefix_lower.
  - by apply HasSuffix_lower.
Qed.

Lemma last_byte_lower d : last_byte (ToLower d) = lower_byte <$> last_byte d.
Proof.
  induction d as [|a d IH]; [done|]. destruct d as [|b d]; [done|]. exact IH.
Qed.

Lemma last_byte_app s t : t ≠ "" → last_byte (s +:+ t) = last_byte t.
Proof.
  intros Ht. induction s as [|a s IH]; [done|]. rewrite <- IH. simpl.
  destruct s; [by destruct t|done].
Qed.

Lemma ends_with_space_app s t : ends_with_space t = true → ends_with_space (s +:+ t) = true.
Proof.
  unfold ends_with_space. rewrite !existsb_exists. intros (x & Hx & Ht).
  exists x. split; [done|]. by apply HasSuffix_app.
Qed.

(** Validation does not see the case of letters. *)
Lemma Valid_lower d : ValidAndSplitDomain (ToLower d) = ValidAndSplitDomain d.
Proof.
  unfold ValidAndSplitDomain. destruct (spaces_lower d) as [-> ->].
  rewrite ToLower_idem, last_byte_lower.
  assert (bool_decide (ToLower d = "") = bool_decide (d = "")) as ->.
  { apply bool_decide_ext. by destruct d. }
  assert (bool_decide (lower_byte <$> last_byte d = Some domainStep) =
    bool_decide (last_byte d = Some domainStep)) as ->; [|done].
  apply bool_decide_ext. destruct (last_byte d) as [a|]; [|done]. simpl.
  pose proof (lower_byte_no_letter a domainStep eq_refl). naive_solver.
Qed.

(** The label checks of [ValidAndSplitDomain]. *)
Definition parts_ok (parts : list string) : Prop :=
  (match parts with [p] => p ≠ "" | _ => empty_label 2 (tail parts) = None end) ∧
  check_wildcards (length parts) 0 parts = None.

Lemma Valid_iff d parts :
  ValidAndSplitDomain d = inr parts ↔
  d ≠ "" ∧ last_byte d ≠ Some domainStep ∧ starts_with_space d = false ∧
  ends_with_space d = false ∧ parts = Split domainStep (ToLower d) ∧ parts_ok parts.
Proof.
  unfold ValidAndSplitDomain, parts_ok. do 2 (case_bool_decide; [naive_solver|]).
  destruct (starts_with_space d); [naive_solver|]. destruct (ends_with_space d); [naive_solver|].
  cbv zeta. destruct (Split_cons domainStep (ToLower d)) as (p & ps & ->).
  destruct ps as [|q ps].
  - case_bool_decide; [naive_solver|]. destruct (check_wildcards _ _ [p]) eqn:?; naive_solver.
  - destruct (empty_label 2 (tail (p :: q :: ps))) eqn:?; [naive_solver|]. simpl fmap. cbv iota.
    destruct (check_wildcards _ _ (p :: q :: ps)) eqn:?; naive_solver.
Qed.

Lemma Valid_join d parts : ValidAndSplitDomain d = inr parts → joinDomain parts = ToLower d.
Proof. intros (_ & _ & _ & _ & -> & _)%Valid_iff. apply Join_Split. Qed.

(** After the first label "+" is not accepted, and the position does not matter. *)
Lemma check_wildcards_tail n i n' i' parts :
  i ≠ 0%nat → check_wildcards n i parts = None →
  check_wildcards n' i' parts = None ∧ Forall (λ p, p ≠ complexWildcard) parts.
Proof.
  revert i i'. induction parts as [|p parts IH]; intros i i' Hi; simpl; [done|].
  destruct (Contains p complexWildcard) eqn:Hc.
  - case_bool_decide; simpl; [|done]. apply Nat.eqb_neq in Hi. by rewrite Hi.
  - destruct (Contains p wildcard && _); [done|]. intros Hr.
    destruct (IH (S i) (S i')) as [H1 H2]; [lia|done|]. split; [done|].
    constructor; [|done]. intros ->. by vm_compute in Hc.
Qed.

Lemma empty_label_None i parts : Forall (λ q, q ≠ "") parts → empty_label i parts = None.
Proof.
  intros Hf. revert i. induction Hf as [|x l Hx Hl IH]; intros i; simpl; [done|].
  by rewrite bool_decide_false.
Qed.

(** What follows the "+" of an accepted pattern, and that with a dot wildcard, are
    accepted patterns unless a space follows "+.". *)
Lemma Valid_plus d ps :
  ValidAndSplitDomain d = inr (complexWildcard :: ps) →
  starts_with_space (joinDomain ps) = false →
  ps ≠ [] ∧ Forall (λ p, p ≠ complexWildcard) ps ∧
  ValidAndSplitDomain (joinDomain ps) = inr ps ∧
  ValidAndSplitDomain (joinDomain (dotWildcard :: ps)) = inr (dotWildcard :: ps).
Proof.
  intros Hd Hsp. pose proof (Valid_join _ _ Hd) as Hj. rewrite <- Valid_lower, <- Hj in Hd.
  destruct (ValidAndSplit_cons _ _ Hd) as (p0 & ps0 & [= <- <-] & Hne).
  apply Valid_iff in Hd as (_ & Hlast & _ & Hend & Hsplit & Hel & Hwild).
  assert (Forall (λ p, has_byte domainStep p = false) ps) as Hdots.
  { pose proof (Split_parts domainStep (ToLower (joinDomain (complexWildcard :: ps)))) as Hp.
    rewrite <- Hsplit in Hp. by apply Forall_cons in Hp as [_ Hp]. }
  destruct ps as [|p ps]; [done|]. set (s := joinDomain (p :: ps)) in *.
  change (joinDomain (complexWildcard :: p :: ps)) with ("+." +:+ s) in *.
  change (joinDomain (dotWildcard :: p :: ps)) with ("." +:+ s).
  assert (s ≠ "") as Hs.
  { apply Forall_cons in Hne as [Hp _]. unfold s, joinDomain. by destruct ps, p. }
  assert (ToLower s = s) as Hlow.
  { pose proof (ToLower_idem d) as Hi. rewrite <- Hj, ToLower_app in Hi. by simplify_eq/=. }
  rewrite last_byte_app in Hlast by done.
  destruct (check_wildcards_tail (S (length (p :: ps))) 1 (length (p :: ps)) 0 (p :: ps))
    as [Hw0 Hplus]; [done|exact Hwild|].
  assert (∀ i, check_wildcards (S (length (p :: ps))) i (p :: ps) = None) as Hw1.
  { intros i. by eapply (check_wildcards_tail (S (length (p :: ps))) 1). }
  assert (ends_with_space s = false) as Hend'.
  { apply not_true_iff_false. intros Hx%(ends_with_space_app "+."). by rewrite Hx in Hend. }
  split_and!; [done|done|apply Valid_iff|apply Valid_iff].
  - split_and!; [done..| |split; [|done]].
    + rewrite Hlow. symmetry. by apply Split_Join.
    + apply Forall_cons in Hne as [Hp Hne]. destruct ps as [|p' ps]; [done|].
      by apply empty_label_None.
  - split_and!; [done| | | | |split; [done|]].
    + by rewrite last_byte_app.
    + done.
    + apply not_true_iff_false. intros Hx%(ends_with_space_app "+"). 
      change ("+" +:+ "." +:+ s) with ("+." +:+ s) in Hx. by rewrite Hx in Hend.
    + rewrite ToLower_app, Hlow. change (ToLower ".") with ".".
      change ("." +:+ s) with ("" +:+ String domainStep s). rewrite Split_app by done. f_equal.
      symmetry. by apply Split_Join.
    + simpl. apply Hw1.
Qed.

Section foreach_roundtrip.
Context {T : Type}.
Implicit Types ins : list (string * T).

(** No pattern has a space after "+.". *)
Definition no_space_after_plus ins : Prop :=
  ∀ d v ps, (d, v) ∈ ins → ValidAndSplitDomain d = inr (complexWildcard :: ps) →
    starts_with_space (joinDomain ps) = false.

Lemma stored_valid ins q v :
  no_space_after_plus ins → getPath (build New ins) q = Some v →
  q ≠ [] ∧ ValidAndSplitDomain (joinDomain (reverse q)) = inr (reverse q) ∧ paths (reverse q) = [q].
Proof.
  intros Hsp Hq. rewrite getPath_build in Hq.
  apply sem_Some in Hq as [Hq|(d & parts & Hin & Hd & Hp)]; [by rewrite getPath_New in Hq|].
  destruct (ValidAndSplit_cons _ _ Hd) as (p & ps & -> & _). unfold paths in Hp.
  case_bool_decide as Hplus; subst.
  - destruct (Valid_plus d ps) as (Hps & Hnp & H1 & H2); [done|by eapply Hsp|].
    assert (q = reverse ps ∨ q = reverse (dotWildcard :: ps)) as [->| ->] by set_solver;
      rewrite reverse_involutive; (split; [|split; [done|]]).
    + intros Hr. apply Hps. by rewrite <- (reverse_involutive ps), Hr.
    + destruct ps as [|p ps]; [done|]. apply Forall_cons in Hnp as [Hp' _].
      unfold paths. by rewrite bool_decide_false.
    + rewrite reverse_cons. by destruct (reverse ps).
    + done.
  - apply list_elem_of_singleton in Hp as ->. rewrite reverse_involutive. split_and!.
    + rewrite reverse_cons. by destruct (reverse ps).
    + by rewrite (Valid_join _ _ Hd), Valid_lower.
    + unfold paths. by rewrite bool_decide_false.
Qed.

Lemma foreach_getPath ins q :
  no_space_after_plus ins →
  getPath (build New (Foreach collect (build New ins) [])) q = getPath (build New ins) q.
Proof.
  intros Hsp. set (t := build New ins). assert (wf t) as Hw by apply wf_build, wf_newNode.
  rewrite Foreach_collect by done. cbn [app]. rewrite getPath_build.
  set (l := prod_map joinDomain id <$> entries t).
  assert (∀ d v parts q, (d, v) ∈ l → ValidAndSplitDomain d = inr parts → q ∈ paths parts →
    getPath t q = Some v) as Hl.
  { intros d v parts q0 ([it v'] & [= -> ->] & Hin)%list_elem_of_fmap Hd Hq0.
    apply elem_entries in Hin as (q' & _ & -> & Hq'); [|done].
    destruct (stored_valid ins q' v') as (_ & Hd' & Hp); [done..|]. simpl in Hd.
    assert (parts = reverse q') as -> by congruence.
    rewrite Hp in Hq0. by apply list_elem_of_singleton in Hq0 as ->. }
  destruct (getPath t q) as [v|] eqn:Hq.
  - destruct (stored_valid ins q v) as (Hne & Hv & Hp); [done..|].
    assert ((joinDomain (reverse q), v) ∈ l) as Hin.
    { apply list_elem_of_fmap. exists (reverse q, v). split; [done|].
      apply elem_entries; [done|]. by exists q. }
    destruct (sem_elem (getPath New) l _ v _ q Hin Hv) as [w Hs]; [rewrite Hp; set_solver|].
    rewrite Hs. apply sem_Some in Hs as [Hs|(d & parts & Hin' & Hd & Hqp)];
      [by rewrite getPath_New in Hs|].
    specialize (Hl d w parts q). naive_solver.
  - destruct (sem (getPath New) l q) as [w|] eqn:Hs; [|done].
    apply sem_Some in Hs as [Hs|(d & parts & Hin' & Hd & Hqp)]; [by rewrite getPath_New in Hs|].
    specialize (Hl d w parts q). naive_solver.
Qed.

(** Inserting every pattern that [Foreach] gives into a new trie reproduces the
    mappings, for patterns without a space after "+.". *)
Theorem domain_trie_foreach ins d :
  no_space_after_plus ins →
  Data (Search (build New (Foreach collect (build New ins) [])) d) = Data (Search (build New ins) d).
Proof.
  intros Hsp. destruct (Search_best (build New (Foreach collect (build New ins) [])) d) as [-> _].
  destruct (Search_best (build New ins) d) as [-> _].
  destruct (ValidAndSplitDomain d); [done|]. case_bool_decide; [done|].
  apply best_ext. intros q. by apply foreach_getPath.
Qed.
End foreach_roundtrip.

(** a callback that returns false does not stop [Foreach]: the result of
    [recursion] is ignored, so the callback is called again for the pattern of the
    top label (here it is to stop at once, and is called for both patterns). *)
Theorem domain_trie_foreach_goes_on :
  let stop (d : string) (v : nat) (calls : list string) := (false, calls ++ [d]) in
  Foreach stop (build New [("a.com", 1%nat); ("com", 2%nat)]) [] = ["a.com"; "com"].
Proof. vm_compute. reflexivity. Qed.

Module Examples.

Definition patterns : list (string * nat) :=
  [("+.Example.com", 1); ("*.example.com", 2); ("a..b", 9); (".org", 3); ("www.example.com", 4);
   ("+.example.com", 5)]%nat.

(** A space after "+." is stored, and the pattern that [Foreach] gives is rejected. *)
Example space_after_plus :
  Foreach collect (build New [("+. a", 1%nat)]) [] = [(". a", 1%nat); (" a", 1%nat)] ∧
  Insert New " a" 1%nat = inl LeadingSpace.
Proof. split; vm_compute; reflexivity. Qed.

Lemma patterns_spaces : no_space_after_plus patterns.
Proof.
  intros d v ps Hin. unfold patterns in Hin. rewrite !elem_of_cons, elem_of_nil in Hin.
  destruct_or? Hin; simplify_eq; try done; vm_compute; intros [= <-]; reflexivity.
Qed.

Lemma domain_trie_search_witness :
  (∃ p v parts, Data (Search (build New patterns) "x.y.ORG") = Some v ∧ (p, v) ∈ patterns ∧
     ValidAndSplitDomain p = inr parts ∧ covers parts ["x"; "y"; "org"]) ∧
  ¬ covers [""; "org"] ["org"].
Proof.
  assert (∃ n, Search (build New patterns) "x.y.ORG" = Some n) as [n Hn]
    by (vm_compute; by eexists).
  split.
  - destruct (domain_trie_search patterns "x.y.ORG" ["x"; "y"; "org"] eq_refl
      ltac:(discriminate)) as [Hs _].
    rewrite Hn. exact (Hs n Hn).
  - destruct (domain_trie_search patterns "org" ["org"] eq_refl ltac:(discriminate)) as [_ Hs].
    apply (Hs ltac:(vm_compute; reflexivity) ".org" 3%nat); [|reflexivity].
    unfold patterns. repeat constructor.
Defined.

Lemma domain_trie_priority_witness :
  Data (Search (build New patterns) "www.example.com") = Some 4%nat ∧
  Data (Search (build New patterns) "w.example.com") = Some 2%nat ∧
  Data (Search (build New patterns) "x.w.example.com") = Some 5%nat.
Proof.
  split_and!.
  - by rewrite (domain_trie_priority patterns "www.example.com" ["www"; "example"; "com"]).
  - by rewrite (domain_trie_priority patterns "w.example.com" ["w"; "example"; "com"]).
  - by rewrite (domain_trie_priority patterns "x.w.example.com" ["x"; "w"; "example"; "com"]).
Defined.

Lemma domain_trie_foreach_witness :
  Data (Search (build New (Foreach collect (build New patterns) [])) "w.example.com") = Some 2%nat.
Proof. rewrite (domain_trie_foreach patterns _ patterns_spaces). vm_compute. reflexivity. Defined.

End Examples.
