(* ===== verification/Louds.v ===== *)
(** * The succinct trie ([component/trie/domain_set.go])

    A sorted list of byte strings is stored as a trie in level order: a bit per node
    that tells whether a key ends there ([leaves]), the bytes on the edges
    ([labels]), and for each node a zero per edge and a one ([labelBitmap]).  This
    file has the bit operations, the index over them, and the construction
    [buildDomainSet].  It shows that the three arrays are the encoding of a list of
    nodes, and gives what an index into them means ([louds]), which is what the
    clients in DomainSet.v and DomainMap.v are proved against.

    The index of ranks and selects is the third party package openacid/low/bitmap:
    its operations are the class [BitmapLib] and what it documents is the class
    [BitmapSpec], with [Compact] of golang.org/x/exp/slices. *)

From stdpp Require Import sorting.
From S2P Require Import Prelude.

(** ** Bits *)

(** Bit [i] of a bitmap of 64-bit words, and the number of ones before [i]. *)
Definition bitAt (bm : list Z) (i : Z) : bool :=
  Z.testbit (default 0 (bm !! Z.to_nat (i / 64))) (i mod 64).
Definition ones (bm : list Z) (i : Z) : Z :=
  len (filter (λ j, bitAt bm (Z.of_nat j) = true) (seq 0 (Z.to_nat i))).

Fixpoint compact {A} `{EqDecision A} (l : list A) : list A :=
  match l with
  | [] => []
  | x :: l' =>
    match compact l' with
    | y :: r => if bool_decide (x = y) then y :: r else x :: y :: r
    | [] => [x]
    end
  end.

Class BitmapLib := {
  IndexSelect32R64 : list Z → list Z * list Z;
  IndexRank64 : list Z → list Z;
  Rank64 : list Z → list Z → Z → Z * Z;
  Select32R64 : list Z → list Z → list Z → Z → Z * Z;
  Compact : list (list Z) → list (list Z);
}.

(** The documentation of the packages, for bitmaps whose bits an [int32] can count:
    [Rank64] counts the ones before a bit, with either index; [Select32R64] finds the
    i-th one; the select index has an entry for every 32 ones; [Compact] replaces
    runs of equal elements by one. *)
Class BitmapSpec (lib : BitmapLib) : Prop := {
  Rank64_selects bm i :
    64 * len bm < 2 ^ 31 → 0 ≤ i < 64 * len bm →
    (Rank64 bm (IndexSelect32R64 bm).2 i).1 = ones bm i;
  Rank64_ranks bm i :
    64 * len bm < 2 ^ 31 → 0 ≤ i < 64 * len bm →
    (Rank64 bm (IndexRank64 bm) i).1 = ones bm i;
  Select32R64_one bm p :
    64 * len bm < 2 ^ 31 → 0 ≤ p < 64 * len bm → bitAt bm p = true →
    (Select32R64 bm (IndexSelect32R64 bm).1 (IndexSelect32R64 bm).2 (ones bm p)).1 = p;
  IndexSelect32R64_len bm p :
    64 * len bm < 2 ^ 31 → 0 ≤ p < 64 * len bm → bitAt bm p = true →
    ones bm p / 32 < len (IndexSelect32R64 bm).1;
  Compact_runs l : Compact l = compact l;
}.

(** ** The structure *)

Record DomainSet := mkSet {
  leaves : list Z;
  labelBitmap : list Z;
  labels : list Z;
  ranks : list Z;
  selects : list Z;
}.

Definition setBit (bm : list Z) (i v : Z) : outcome (list Z) :=
  let bm := bm ++ replicate (Z.to_nat (Z.shiftr i 6 + 1 - len bm)) 0 in
  w ← idx bm (Z.shiftr i 6);
  upd bm (Z.shiftr i 6) (Z.lor w (u64 (Z.shiftl v (Z.land i 63)))).

Definition getBit (bm : list Z) (i : Z) : outcome Z :=
  w ← idx bm (Z.shiftr i 6);
  Ret (Z.land w (Z.shiftl 1 (Z.land i 63))).

(** The condition [getBit(bm, i) != 0]. *)
Definition bitSet (bm : list Z) (i : Z) : outcome bool :=
  x ← getBit bm i; Ret (negb (x =? 0)).

(** [sort.Strings]: the order of the bytes. *)
Fixpoint bytes_le (a b : list Z) : bool :=
  match a, b with
  | [], _ => true
  | _ :: _, [] => false
  | x :: a, y :: b => (x <? y) || ((x =? y) && bytes_le a b)
  end.

Definition le_bytes (a b : list Z) : Prop := bytes_le a b = true.
#[global] Instance le_bytes_dec : RelDecision le_bytes.
Proof. intros a b. unfold le_bytes. apply _. Defined.

Definition sortStrings (keys : list (list Z)) : list (list Z) := merge_sort le_bytes keys.

(** [keys[j][col]]. *)
Definition char_at (keys : list (list Z)) (j col : Z) : outcome Z :=
  k ← idx keys j; idx k col.

(** The keys from [frm] on, up to [e], that have the same byte at [col]. *)
Fixpoint run_end (fuel : nat) (keys : list (list Z)) (col frm e j : Z) : outcome Z :=
  match fuel with
  | O => OutOfFuel
  | S fuel =>
    if j <? e then
      a ← char_at keys j col;
      b ← char_at keys frm col;
      if a =? b then run_end fuel keys col frm e (j + 1) else Ret j
    else Ret j
  end.

(** What the construction has written so far. *)
Record bst := mkBst {
  b_leaves : list Z;
  b_bitmap : list Z;
  b_labels : list Z;
  b_lIdx : Z;
  b_nodeID : Z;
  b_next : list (Z * Z);
}.

(** The edges of a node whose keys are those from [j] to [e]. *)
Fixpoint edges (fuel : nat) (keys : list (list Z)) (col e j : Z) (st : bst) : outcome bst :=
  match fuel with
  | O => OutOfFuel
  | S fuel =>
    if j <? e then
      let frm := j in
      j ← run_end (S (Z.to_nat (e - j))) keys col frm e j;
      c ← char_at keys frm col;
      bitmap ← setBit (b_bitmap st) (b_lIdx st) 0;
      edges fuel keys col e j
        (mkBst (b_leaves st) bitmap (b_labels st ++ [c]) (b_lIdx st + 1) (b_nodeID st)
           (b_next st ++ [(frm, j)]))
    else Ret st
  end.

(** The edges of a node, and the one that ends them. *)
Definition build_edges (keys : list (list Z)) (col s e : Z) (st : bst) : outcome bst :=
  st ← edges (S (Z.to_nat (e - s))) keys col e s st;
  bitmap ← setBit (b_bitmap st) (b_lIdx st) 1;
  Ret (mkBst (b_leaves st) bitmap (b_labels st) (b_lIdx st + 1) (b_nodeID st + 1) (b_next st)).

Section build.
Context `{lib : BitmapLib} {S : Type} (onTerminal : option (list Z → S → S)).

(** One element of the queue. *)
Definition build_node (keys : list (list Z)) (col : Z) (elt : Z * Z) (st : bst) (acc : S) :
    outcome (bst * S) :=
  let '(s, e) := elt in
  k ← idx keys s;
  '(s, st, acc) ←
    (if col =? len k then
      let acc := match onTerminal with Some f => f k acc | None => acc end in
      leaves ← setBit (b_leaves st) (b_nodeID st) 1;
      Ret (s + 1, mkBst leaves (b_bitmap st) (b_labels st) (b_lIdx st) (b_nodeID st) (b_next st), acc)
    else Ret (s, st, acc));
  st ← build_edges keys col s e st;
  Ret (st, acc).

(** The nodes of one level. *)
Fixpoint build_level (keys : list (list Z)) (col : Z) (queue : list (Z * Z)) (st : bst) (acc : S) :
    outcome (bst * S) :=
  match queue with
  | [] => Ret (st, acc)
  | elt :: queue =>
    '(st, acc) ← build_node keys col elt st acc;
    build_level keys col queue st acc
  end.

Fixpoint build_levels (fuel : nat) (keys : list (list Z)) (col : Z) (queue : list (Z * Z))
    (st : bst) (acc : S) : outcome (bst * S) :=
  match queue with
  | [] => Ret (st, acc)
  | _ =>
    match fuel with
    | O => OutOfFuel
    | Datatypes.S fuel =>
      '(st, acc) ← build_level keys col queue st acc;
      build_levels fuel keys (col + 1) (b_next st)
        (mkBst (b_leaves st) (b_bitmap st) (b_labels st) (b_lIdx st) (b_nodeID st) []) acc
    end
  end.

(** [ss.init()]. *)
Definition init (leaves bitmap labels : list Z) : DomainSet :=
  let '(selects, ranks) := IndexSelect32R64 bitmap in
  mkSet leaves bitmap labels ranks selects.

Definition max_length (keys : list (list Z)) : nat := foldr (λ k n, Nat.max (length k) n) O keys.

(** The set, nil without keys; a level per byte of the longest key, and one. *)
Definition buildDomainSet (keys : list (list Z)) (acc : S) : outcome (option DomainSet * S) :=
  match keys with
  | [] => Ret (None, acc)
  | _ =>
    let keys := Compact (sortStrings keys) in
    '(st, acc) ← build_levels (Datatypes.S (max_length keys)) keys 0 [(0, len keys)]
      (mkBst [] [] [] 0 0 []) acc;
    Ret (Some (init (b_leaves st) (b_bitmap st) (b_labels st)), acc)
  end.
End build.

Section index.
Context `{lib : BitmapLib}.

Definition countZeros (bm ranks : list Z) (i : Z) : Z :=
  i - (Rank64 bm ranks (i32 i)).1.

Definition selectIthOne (bm ranks selects : list Z) (i : Z) : Z :=
  (Select32R64 bm selects ranks (i32 i)).1.
End index.

(** ** Bits and lists of booleans *)

(** A bitmap that holds the list of bits [bs], in as many words as it takes. *)
Definition holds (bm : list Z) (bs : list bool) : Prop :=
  (∀ i : nat, bitAt bm (Z.of_nat i) = nth i bs false) ∧
  len bs ≤ 64 * len bm < len bs + 64.

Lemma lookup_pad (bm : list Z) k n : default 0 ((bm ++ replicate k 0) !! n) = default 0 (bm !! n).
Proof.
  destruct (decide (n < length bm)%nat); [by rewrite lookup_app_l|].
  rewrite lookup_app_r, (lookup_ge_None_2 bm n) by lia.
  destruct (replicate k 0 !! (n - length bm)%nat) as [x|] eqn:E; [|done].
  by apply lookup_replicate in E as [-> _].
Qed.

Lemma i32_small z : - 2 ^ 31 ≤ z < 2 ^ 31 → i32 z = z.
Proof. intros. by apply wraps_small. Qed.

Lemma land_63 i : Z.land i 63 = i mod 64.
Proof. change 63 with (Z.ones 6). by rewrite Z.land_ones. Qed.

Lemma shiftr_6 i : Z.shiftr i 6 = i / 64.
Proof. by rewrite Z.shiftr_div_pow2. Qed.

(** A one shifted to bit [k] of a word. *)
Lemma testbit_one k j : 0 ≤ j → Z.testbit (Z.shiftl 1 k) j = bool_decide (j = k).
Proof.
  intros Hj. rewrite Z.shiftl_spec by done. destruct (decide (j = k)) as [->|Hne].
  - by rewrite bool_decide_true, Z.sub_diag.
  - rewrite bool_decide_false by done. destruct (decide (j < k)).
    + by rewrite Z.testbit_neg_r by lia.
    + apply (Z.bits_above_log2 1 (j - k)); [lia|]. simpl. lia.
Qed.

Lemma setBit_Ret bm i (b : bool) :
  0 ≤ i →
  ∃ bm', setBit bm i (Z.b2z b) = Ret bm' ∧
    length bm' = Nat.max (length bm) (Z.to_nat (i / 64 + 1)) ∧
    ∀ j, 0 ≤ j → bitAt bm' j = bitAt bm j || (bool_decide (j = i) && b).
Proof.
  intros Hi. unfold setBit. rewrite shiftr_6, land_63.
  set (bm1 := bm ++ _). pose proof (Z.div_pos i 64 Hi ltac:(lia)) as Hq.
  assert (length bm1 = Nat.max (length bm) (Z.to_nat (i / 64 + 1))) as Hlen.
  { unfold bm1. rewrite length_app, length_replicate. lia. }
  destruct (idx_total bm1 (i / 64)) as (w & Hw & Hl); [lia|]. rewrite Hw. run.
  rewrite upd_Ret by lia. eexists. split; [done|]. split; [by rewrite length_insert|].
  intros j Hj. pose proof (Z.div_pos j 64 Hj ltac:(lia)) as Hqj. unfold bitAt.
  pose proof (Z.mod_pos_bound j 64 ltac:(lia)). pose proof (Z.mod_pos_bound i 64 ltac:(lia)).
  destruct (decide (j / 64 = i / 64)) as [He|He].
  - rewrite He, list_lookup_insert_eq by lia. cbn [default from_option].
    rewrite <- (lookup_pad bm (Z.to_nat (i / 64 + 1 - len bm))). fold bm1. rewrite Hl. simpl.
    rewrite Z.lor_spec. f_equal. unfold wrapu. rewrite Z.mod_pow2_bits_low by lia.
    destruct b; [|by rewrite Z.shiftl_0_l, Z.bits_0, andb_false_r].
    simpl Z.b2z. rewrite testbit_one, andb_true_r by lia. apply bool_decide_ext.
    pose proof (Z.div_mod j 64 ltac:(lia)). pose proof (Z.div_mod i 64 ltac:(lia)). lia.
  - rewrite list_lookup_insert_ne by lia. unfold bm1. rewrite lookup_pad.
    rewrite bool_decide_false by (intros ->; done). by rewrite orb_false_r.
Qed.

Lemma getBit_Ret bm i :
  0 ≤ i < 64 * len bm →
  ∃ x, getBit bm i = Ret x ∧ (x =? 0) = negb (bitAt bm i).
Proof.
  intros Hi. unfold getBit. rewrite shiftr_6, land_63.
  pose proof (Z.div_pos i 64 ltac:(lia) ltac:(lia)).
  assert (i / 64 < len bm) by (apply Z.div_lt_upper_bound; lia).
  destruct (idx_total bm (i / 64)) as (w & Hw & Hl); [lia|]. rewrite Hw. run.
  eexists. split; [done|]. unfold bitAt. rewrite Hl. simpl.
  pose proof (Z.mod_pos_bound i 64 ltac:(lia)) as Hm. destruct (Z.testbit w (i mod 64)) eqn:Ht.
  - apply Z.eqb_neq. intros Hz. apply (f_equal (λ z, Z.testbit z (i mod 64))) in Hz.
    rewrite Z.land_spec, Ht, testbit_one, bool_decide_true, Z.bits_0 in Hz by lia. done.
  - apply Z.eqb_eq. apply Z.bits_inj'. intros j Hj.
    rewrite Z.land_spec, testbit_one, Z.bits_0 by done. case_bool_decide; [|apply andb_false_r].
    subst. by rewrite Ht.
Qed.

Lemma holds_nil : holds [] [].
Proof. split; [|simpl; lia]. intros i. unfold bitAt. simpl. by rewrite Z.bits_0; destruct i. Qed.

(** Writing at the end. *)
Lemma holds_setBit bm bs (b : bool) :
  holds bm bs → ∃ bm', setBit bm (len bs) (Z.b2z b) = Ret bm' ∧ holds bm' (bs ++ [b]).
Proof.
  intros [Hb Hl]. destruct (setBit_Ret bm (len bs) b) as (bm' & H1 & H2 & H3); [lia|].
  exists bm'. split; [done|]. split.
  - intros i. rewrite H3, Hb by lia. destruct (decide (i < length bs)%nat).
    + rewrite app_nth1, bool_decide_false by lia. apply orb_false_r.
    + rewrite app_nth2, (nth_overflow bs) by lia. destruct (decide (i = length bs)) as [->|].
      * by rewrite bool_decide_true, Nat.sub_diag.
      * rewrite bool_decide_false by lia. simpl.
        destruct (i - length bs)%nat as [|[]] eqn:?; [lia|done..].
  - rewrite length_app. simpl. pose proof (Z.div_mod (len bs) 64 ltac:(lia)).
    pose proof (Z.mod_pos_bound (len bs) 64 ltac:(lia)). rewrite H2. lia.
Qed.

(** ** Languages *)

(** A node stands for the bytes on the way to it and what follows them in the keys. *)
Abbreviation lang := (list (list Z)).
Abbreviation tnode := (list Z * lang)%type.

(** The strict order of byte strings. *)
Fixpoint blt (a b : list Z) : Prop :=
  match a, b with
  | [], [] => False
  | [], _ :: _ => True
  | _ :: _, [] => False
  | x :: a, y :: b => x < y ∨ x = y ∧ blt a b
  end.

(** The bytes with which the strings of a language start, and what follows one. *)
Fixpoint firsts (K : lang) : list Z :=
  match K with
  | [] => []
  | [] :: K => firsts K
  | (c :: _) :: K => c :: filter (λ x, x ≠ c) (firsts K)
  end.

Definition after (c : Z) (k : list Z) : option (list Z) :=
  match k with
  | x :: k => if x =? c then Some k else None
  | [] => None
  end.
Definition deriv (c : Z) (K : lang) : lang := omap (after c) K.
#[global] Arguments deriv : simpl never.

Definition has_nil (K : lang) : bool := bool_decide ([] ∈ K).

Definition children (n : tnode) : list tnode :=
  (λ c, (n.1 ++ [c], deriv c n.2)) <$> firsts n.2.

Lemma elem_after c k k' : after c k = Some k' ↔ k = c :: k'.
Proof.
  destruct k as [|x k]; simpl; [done|]. destruct (Z.eqb_spec x c); naive_solver.
Qed.

Lemma elem_deriv c K k : k ∈ deriv c K ↔ c :: k ∈ K.
Proof.
  unfold deriv. rewrite list_elem_of_omap. split.
  - intros (x & Hx & ->%elem_after). done.
  - intros Hx. exists (c :: k). split; [done|]. by apply elem_after.
Qed.

Lemma elem_firsts c K : c ∈ firsts K ↔ ∃ k, c :: k ∈ K.
Proof.
  induction K as [|[|x k] K IH]; simpl.
  - set_solver.
  - rewrite IH. set_solver.
  - rewrite elem_of_cons, list_elem_of_filter, IH. destruct (decide (c = x)) as [->|]; [|set_solver].
    split; [intros _; exists k; set_solver|by left].
Qed.

Lemma NoDup_firsts K : NoDup (firsts K).
Proof.
  induction K as [|[|x k] K IH]; simpl; [constructor|done|]. constructor; [|by apply NoDup_filter].
  rewrite list_elem_of_filter. tauto.
Qed.

Lemma blt_irrefl a : ¬ blt a a.
Proof. induction a; simpl; [tauto|]. intros [?|[_ ?]]; [lia|done]. Qed.

#[global] Instance blt_trans : Transitive blt.
Proof.
  intros a. induction a as [|x a IH]; intros [|y b] [|z c]; simpl; try done.
  intros [?|[-> ?]] [?|[-> ?]]; [left; lia|by left|by left|right]. eauto.
Qed.

Abbreviation sorted K := (StronglySorted blt K).

Lemma sorted_deriv c K : sorted K → sorted (deriv c K).
Proof.
  induction 1 as [|k K HK IH Hk]; [constructor|]. unfold deriv. csimpl.
  destruct (after c k) as [k'|] eqn:E; [|done]. apply elem_after in E as ->.
  constructor; [done|]. apply Forall_forall. intros k'' Hin%elem_deriv.
  rewrite Forall_forall in Hk. specialize (Hk _ Hin) as [?|[_ ?]]; [lia|done].
Qed.

Lemma sorted_firsts K : sorted K → StronglySorted Z.lt (firsts K).
Proof.
  induction 1 as [|[|c k] K HK IH Hk]; simpl; [constructor|done|]. constructor.
  - clear -IH. induction IH as [|x l Hl IH Hx]; [constructor|]. rewrite filter_cons.
    case_decide; [|done]. constructor; [done|]. apply Forall_forall.
    intros y [_ Hy]%list_elem_of_filter. rewrite Forall_forall in Hx. by apply Hx.
  - apply Forall_forall. intros x [Hne Hx]%list_elem_of_filter. apply elem_firsts in Hx as [k' Hk'].
    rewrite Forall_forall in Hk. specialize (Hk _ Hk') as [?|[? _]]; [done|congruence].
Qed.

(** A sorted language that starts with [c]: the strings with [c], and then others. *)
Lemma sorted_group c k K j :
  sorted ((c :: k) :: K) →
  (∀ x, take 1 (drop j K) = [x] → after c x = None) →
  Forall (λ x, is_Some (after c x)) (take j K) →
  deriv c ((c :: k) :: K) = k :: omap (after c) (take j K) ∧
  firsts ((c :: k) :: K) = c :: firsts (drop j K) ∧
  (∀ c', c' ∈ firsts (drop j K) → deriv c' ((c :: k) :: K) = deriv c' (drop j K)).
Proof.
  intros Hs Hstop Hg. inversion_clear Hs as [|? ? HK Hk].
  assert (Forall (λ x, after c x = None) (drop j K)) as Hr.
  { rewrite <- (take_drop j K) in HK, Hk.
    destruct (drop j K) as [|x R] eqn:HR; [constructor|].
    specialize (Hstop x eq_refl). apply StronglySorted_app in HK as (_ & _ & HxR).
    inversion_clear HxR as [|? ? _ Hx]. apply Forall_app in Hk as [_ Hk].
    apply Forall_cons in Hk as [Hk _]. constructor; [done|].
    apply Forall_forall. intros y Hy. rewrite Forall_forall in Hx. specialize (Hx y Hy).
    destruct x as [|a x]; [done|]. destruct y as [|b y]; [done|]. simpl in *.
    destruct (Z.eqb_spec a c); [done|]. destruct (Z.eqb_spec b c); [|done]. lia. }
  assert (∀ x, after c x = None → ∀ y, x = c :: y → False) as Hno.
  { intros x Hx y ->. simpl in Hx. by rewrite Z.eqb_refl in Hx. }
  assert (c ∉ firsts (drop j K)) as Hc.
  { rewrite elem_firsts. intros [y Hy]. rewrite Forall_forall in Hr. by eapply Hno; [apply Hr|]. }
  split_and!.
  - unfold deriv. simpl. rewrite Z.eqb_refl. f_equal. rewrite <- (take_drop j K) at 1.
    rewrite omap_app. replace (omap (after c) (drop j K)) with (@nil (list Z)); [apply app_nil_r|].
    symmetry. clear -Hr. induction Hr as [|x l Hx _ IH]; csimpl; [done|]. by rewrite Hx.
  - simpl. f_equal. rewrite <- (take_drop j K) at 1. clear -Hg Hc.
    assert (filter (λ x, x ≠ c) (firsts (drop j K)) = firsts (drop j K)) as Hf.
    { apply filter_all. apply Forall_forall. by intros x Hx ->. }
    induction Hg as [|x l [y ->%elem_after] _ IH]; simpl; [done|].
    rewrite filter_cons, decide_False by tauto. by rewrite IH.
  - intros c' Hc'. assert (c' ≠ c) as Hne by (by intros ->). unfold deriv. simpl.
    rewrite (proj2 (Z.eqb_neq c c')) by done. rewrite <- (take_drop j K) at 1. rewrite omap_app.
    replace (omap (after c') (take j K)) with (@nil (list Z)); [done|].
    symmetry. clear -Hg Hne. induction Hg as [|x l [y ->%elem_after] _ IH]; csimpl; [done|].
    by rewrite (proj2 (Z.eqb_neq c c')).
Qed.

(** ** The construction *)

(** The keys from [s] to [e] are those of the node. *)
Definition rows (keys : list (list Z)) (s e : Z) (n : tnode) : Prop :=
  0 ≤ s ≤ e ∧ e ≤ len keys ∧
  take (Z.to_nat (e - s)) (drop (Z.to_nat s) keys) = (n.1 ++.) <$> n.2.

Lemma rows_length keys s e n : rows keys s e n → e - s = len n.2.
Proof.
  intros (? & ? & H). apply (f_equal length) in H.
  rewrite length_take, length_drop, length_fmap in H. lia.
Qed.

Lemma rows_idx keys s e pre K i k :
  rows keys s e (pre, K) → K !! i = Some k → idx keys (s + Z.of_nat i) = Ret (pre ++ k).
Proof.
  intros Hr Hk. pose proof (rows_length _ _ _ _ Hr) as Hl. destruct Hr as (? & ? & H).
  apply lookup_lt_Some in Hk as Hi. simpl in *. apply idx_lookup; [lia|].
  apply (f_equal (.!! i)) in H. rewrite list_lookup_fmap, Hk, lookup_take_lt, lookup_drop in H by lia.
  replace (Z.to_nat (s + Z.of_nat i)) with (Z.to_nat s + i)%nat by lia. by rewrite H.
Qed.

Lemma rows_char keys s e pre K i c k :
  rows keys s e (pre, K) → K !! i = Some (c :: k) →
  char_at keys (s + Z.of_nat i) (len pre) = Ret c.
Proof.
  intros Hr Hk. unfold char_at. rewrite (rows_idx _ _ _ _ _ _ _ Hr Hk). run.
  apply idx_lookup; [lia|]. rewrite Nat2Z.id. by rewrite lookup_app_r, Nat.sub_diag by lia.
Qed.

(** A part of the rows, without the byte [c] they share. *)
Lemma rows_sub keys s e pre K i j :
  rows keys s e (pre, K) → (i ≤ j)%nat → (j ≤ length K)%nat →
  rows keys (s + Z.of_nat i) (s + Z.of_nat j) (pre, take (j - i) (drop i K)).
Proof.
  intros Hr Hij Hj. pose proof (rows_length _ _ _ _ Hr) as Hl. destruct Hr as (? & ? & H).
  simpl in *. split_and!; [lia..|]. simpl.
  rewrite fmap_take, fmap_drop, <- H, skipn_firstn_comm, drop_drop, take_take.
  f_equal; [lia|]. f_equal. lia.
Qed.

Lemma rows_cons keys s e pre c K :
  rows keys s e (pre, (c ::.) <$> K) → rows keys s e (pre ++ [c], K).
Proof.
  intros (? & ? & H). split_and!; [lia..|]. simpl in *. rewrite H, <- list_fmap_compose.
  apply list_fmap_ext. intros _ k _. simpl. by rewrite <- app_assoc.
Qed.

Lemma run_end_ok fuel keys s e pre c k K i :
  rows keys s e (pre, (c :: k) :: K) → [] ∉ K → (i ≤ length K)%nat →
  Forall (λ x, is_Some (after c x)) (take i K) → (length K - i < fuel)%nat →
  ∃ j, run_end fuel keys (len pre) s e (s + 1 + Z.of_nat i) = Ret (s + 1 + Z.of_nat j) ∧
    (j ≤ length K)%nat ∧ Forall (λ x, is_Some (after c x)) (take j K) ∧
    (∀ x, take 1 (drop j K) = [x] → after c x = None).
Proof.
  intros Hr Hne. pose proof (rows_length _ _ _ _ Hr) as Hl. simpl in Hl.
  revert i. induction fuel as [|fuel IH]; intros i Hi Hg Hf; [lia|]. simpl.
  destruct (Z.ltb_spec (s + 1 + Z.of_nat i) e).
  - destruct (lookup_lt_is_Some_2 K i) as [x Hx]; [lia|].
    destruct x as [|a x]; [exfalso; by apply Hne, (list_elem_of_lookup_2 _ i)|].
    replace (s + 1 + Z.of_nat i) with (s + Z.of_nat (S i)) by lia.
    rewrite (rows_char keys s e pre _ (S i) a x Hr) by done. run.
    replace (char_at keys s (len pre)) with (Ret c)
      by (rewrite <- (rows_char keys s e pre _ 0 c k Hr eq_refl); f_equal; lia). run.
    destruct (Z.eqb_spec a c) as [->|Hac].
    + destruct (IH (S i)) as (j & Hj & Hrest); [lia| |lia|].
      { rewrite (take_S_r _ _ _ Hx). apply Forall_app. split; [done|]. constructor; [|done].
        exists x. by apply elem_after. }
      exists j. split; [|done]. rewrite <- Hj. f_equal. lia.
    + exists i. split_and!; [f_equal; lia|done|done|].
      intros y. rewrite (drop_S _ _ _ Hx). simpl. intros [= <-]. simpl.
      by rewrite (proj2 (Z.eqb_neq a c)).
  - exists i. split_and!; [done..|]. intros y. rewrite drop_ge by lia. done.
Qed.

(** The edges of a node and the rows of its children. *)
Lemma edges_ok fuel keys s e pre K st bs :
  rows keys s e (pre, K) → sorted K → [] ∉ K → (length K < fuel)%nat →
  holds (b_bitmap st) bs → b_lIdx st = len bs →
  ∃ bm iv,
    edges fuel keys (len pre) e s st =
      Ret (mkBst (b_leaves st) bm (b_labels st ++ firsts K) (len bs + len (firsts K))
             (b_nodeID st) (b_next st ++ iv)) ∧
    holds bm (bs ++ replicate (length (firsts K)) false) ∧
    Forall2 (λ '(s, e) n, rows keys s e n) iv (children (pre, K)).
Proof.
  revert s K st bs. induction fuel as [|fuel IH]; intros s K st bs Hr Hs Hne Hf Hb Hi; [lia|].
  pose proof (rows_length _ _ _ _ Hr) as Hl. simpl in *. destruct K as [|k0 K]; simpl in Hl.
  - destruct (Z.ltb_spec s e); [lia|]. exists (b_bitmap st), []. rewrite !app_nil_r.
    split_and!; [|done|constructor]. destruct st; simpl in *. do 2 f_equal. lia.
  - destruct (Z.ltb_spec s e); [|lia]. destruct k0 as [|c k]; [set_solver|].
    assert ([] ∉ K) as HneK by set_solver.
    destruct (run_end_ok (Z.to_nat (e - s)) keys s e pre c k K 0) as (j & Hj & Hjl & Hg & Hst);
      [done|done|lia|constructor|lia|].
    assert (char_at keys s (len pre) = Ret c) as Hc.
    { rewrite <- (rows_char keys s e pre _ 0 c k Hr eq_refl). f_equal. lia. }
    rewrite Hc. run. rewrite Z.eqb_refl.
    replace (s + 1 + Z.of_nat 0) with (s + 1) in Hj by lia. rewrite Hj. run.
    rewrite Hi. destruct (holds_setBit (b_bitmap st) bs false Hb) as (bm & Hbm & Hb').
    simpl Z.b2z in Hbm. rewrite Hbm. run.
    destruct (sorted_group c k K j Hs Hst Hg) as (Hd & Hfs & Hrest).
    set (st' := mkBst _ _ _ _ _ _).
    assert (rows keys (s + 1 + Z.of_nat j) e (pre, drop j K)) as Hr2.
    { pose proof (rows_sub keys s e pre _ (S j) (S (length K)) Hr ltac:(lia) ltac:(simpl; lia)) as Hx.
      simpl in Hx. rewrite take_ge in Hx by (rewrite length_drop; lia).
      replace (s + Z.of_nat (S j)) with (s + 1 + Z.of_nat j) in Hx by lia.
      by replace (s + Z.of_nat (S (length K))) with e in Hx by lia. }
    destruct (IH (s + 1 + Z.of_nat j) (drop j K) st' (bs ++ [false])) as (bm' & iv & He & Hb2 & Hiv).
    { done. }
    { inversion_clear Hs as [|? ? HK _]. rewrite <- (take_drop j K) in HK.
      by apply StronglySorted_app in HK as (_ & _ & ?). }
    { intros Hx. apply HneK. rewrite <- (take_drop j K). set_solver. }
    { rewrite length_drop. simpl in Hf; lia. }
    { done. }
    { unfold st'. simpl. rewrite length_app. simpl. lia. }
    exists bm', ((s, s + 1 + Z.of_nat j) :: iv). rewrite He. split_and!.
    + unfold st'. cbn [b_leaves b_labels b_nodeID b_next]. rewrite Hfs, <- !app_assoc. simpl.
      rewrite length_app. simpl. f_equal. f_equal. lia.
    + rewrite Hfs. by rewrite <- app_assoc in Hb2.
    + unfold children. cbn [fst snd]. rewrite Hfs, fmap_cons. constructor.
      * apply rows_cons. rewrite Hd.
        pose proof (rows_sub keys s e pre _ 0 (S j) Hr ltac:(lia) ltac:(simpl; lia)) as Hx.
        simpl in Hx. replace (s + Z.of_nat 0) with s in Hx by lia.
        replace (s + Z.of_nat (S j)) with (s + 1 + Z.of_nat j) in Hx by lia.
        replace ((c ::.) <$> k :: omap (after c) (take j K)) with ((c :: k) :: take j K); [done|].
        csimpl. f_equal. clear -Hg. induction Hg as [|x l [y Hy] _ IH]; csimpl; [done|].
        rewrite Hy. csimpl. apply elem_after in Hy as ->. by f_equal.
      * replace (_ <$> firsts (drop j K)) with (children (pre, drop j K)); [done|].
        apply list_fmap_ext. intros i c' Hc'%list_elem_of_lookup_2. simpl.
        by rewrite Hrest.
Qed.

(** *** The encoding of a list of nodes *)

Definition block (n : tnode) : list bool := replicate (length (firsts n.2)) false ++ [true].
Definition enc_bits (D : list tnode) : list bool := mjoin (block <$> D).
Definition enc_labels (D : list tnode) : list Z := mjoin ((λ n, firsts n.2) <$> D).
Definition enc_leaves (D : list tnode) : list bool := (λ n, has_nil n.2) <$> D.
Definition level_below (D : list tnode) : list tnode := mjoin (children <$> D).

(** The keys that end at the nodes. *)
Definition terminals (D : list tnode) : list (list Z) :=
  omap (λ n : tnode, if has_nil n.2 then Some n.1 else None) D.

(** The bitmap of leaves has no words after the last leaf. *)
Definition leaf_bits (lv : list Z) (bs : list bool) : Prop :=
  (∀ i : nat, bitAt lv (Z.of_nat i) = nth i bs false) ∧
  (∀ i : nat, bs !! i = Some true → Z.of_nat i < 64 * len lv) ∧
  64 * len lv < len bs + 64.

Definition written (st : bst) (D : list tnode) : Prop :=
  leaf_bits (b_leaves st) (enc_leaves D) ∧ holds (b_bitmap st) (enc_bits D) ∧
  b_labels st = enc_labels D ∧ b_lIdx st = len (enc_bits D) ∧ b_nodeID st = len D.

(** All nodes from a level on. *)
Fixpoint levels (fuel : nat) (Q : list tnode) : list tnode :=
  match Q with
  | [] => []
  | _ => match fuel with O => [] | S fuel => Q ++ levels fuel (level_below Q) end
  end.

(** The nodes of the trie of [K]. *)
Definition nodes_of (K : lang) : list tnode := levels (S (max_length K)) [([], K)].

Definition good (n : tnode) : Prop := sorted n.2 ∧ n.2 ≠ [].

Lemma good_children n : good n → Forall good (children n).
Proof.
  intros [Hs _]. apply Forall_forall. intros x (c & -> & Hc)%list_elem_of_fmap. split; simpl.
  - by apply sorted_deriv.
  - apply elem_firsts in Hc as [k Hk%elem_deriv]. intros He. rewrite He in Hk. set_solver.
Qed.

Lemma good_below D : Forall good D → Forall good (level_below D).
Proof.
  induction 1 as [|n D Hn _ IH]; [constructor|]. unfold level_below. csimpl.
  apply Forall_app. split; [by apply good_children|done].
Qed.

(** The empty string comes first. *)
Lemma sorted_no_nil k K : sorted (k :: K) → [] ∉ K.
Proof.
  inversion_clear 1 as [|? ? _ Hk]. intros Hin. rewrite Forall_forall in Hk.
  specialize (Hk _ Hin). by destruct k.
Qed.

Lemma leaf_bits_skip lv bs : leaf_bits lv bs → leaf_bits lv (bs ++ [false]).
Proof.
  intros (Hb & Hl & Hu). split_and!.
  - intros i. rewrite Hb. destruct (decide (i < length bs)%nat); [by rewrite app_nth1|].
    rewrite app_nth2, nth_overflow by lia. by destruct (i - length bs)%nat as [|[]].
  - intros i [?|[? Hx]]%lookup_app_Some; [by apply Hl|]. by destruct (i - length bs)%nat as [|[]].
  - rewrite length_app. simpl. lia.
Qed.

Lemma leaf_bits_set lv bs :
  leaf_bits lv bs → ∃ lv', setBit lv (len bs) 1 = Ret lv' ∧ leaf_bits lv' (bs ++ [true]).
Proof.
  intros (Hb & Hl & Hu). destruct (setBit_Ret lv (len bs) true) as (lv' & H1 & H2 & H3); [lia|].
  exists lv'. split; [done|]. pose proof (Z.div_mod (len bs) 64 ltac:(lia)).
  pose proof (Z.mod_pos_bound (len bs) 64 ltac:(lia)). pose proof (Z.div_pos (len bs) 64).
  assert (len bs < 64 * len lv') as Hlen by lia. split_and!.
  - intros i. rewrite H3, Hb by lia. destruct (decide (i < length bs)%nat).
    + rewrite app_nth1, bool_decide_false by lia. apply orb_false_r.
    + rewrite app_nth2, (nth_overflow bs) by lia. destruct (decide (i = length bs)) as [->|].
      * by rewrite bool_decide_true, Nat.sub_diag.
      * rewrite bool_decide_false by lia. simpl.
        destruct (i - length bs)%nat as [|[]] eqn:?; [lia|done..].
  - intros i Hi%lookup_lt_Some. rewrite length_app in Hi. simpl in Hi. lia.
  - rewrite length_app. simpl. lia.
Qed.

Lemma enc_bits_snoc D n : enc_bits (D ++ [n]) = enc_bits D ++ block n.
Proof. unfold enc_bits. rewrite fmap_app, join_app. simpl. by rewrite app_nil_r. Qed.

Lemma enc_labels_snoc D n : enc_labels (D ++ [n]) = enc_labels D ++ firsts n.2.
Proof. unfold enc_labels. rewrite fmap_app, join_app. simpl. by rewrite app_nil_r. Qed.

Lemma build_edges_ok keys s e n K st D :
  leaf_bits (b_leaves st) (enc_leaves (D ++ [n])) → holds (b_bitmap st) (enc_bits D) →
  b_labels st = enc_labels D → b_lIdx st = len (enc_bits D) → b_nodeID st = len D →
  rows keys s e (n.1, K) → sorted K → [] ∉ K → firsts K = firsts n.2 →
  children (n.1, K) = children n →
  ∃ st' iv,
    build_edges keys (len n.1) s e st = Ret st' ∧ written st' (D ++ [n]) ∧
    b_next st' = b_next st ++ iv ∧ Forall2 (λ '(s, e) n, rows keys s e n) iv (children n).
Proof.
  intros Hlv Hbm Hlab Hlx Hid Hr Hs Hno Hf Hc. pose proof (rows_length _ _ _ _ Hr) as Hl.
  cbn [snd] in Hl. unfold build_edges.
  destruct (edges_ok (S (Z.to_nat (e - s))) keys s e n.1 K st (enc_bits D))
    as (bm & iv & -> & Hb & Hiv); [done..|lia|done|done|].
  run. cbn [b_leaves b_bitmap b_labels b_lIdx b_nodeID b_next].
  destruct (holds_setBit _ _ true Hb) as (bm' & Hbm' & Hb'). simpl Z.b2z in Hbm'.
  rewrite length_app, length_replicate, Nat2Z.inj_add in Hbm'. rewrite Hbm'. run.
  eexists _, iv. split; [done|]. rewrite <- Hc. split_and!; [|done|done].
  unfold written. cbn [b_leaves b_bitmap b_labels b_lIdx b_nodeID b_next].
  rewrite enc_bits_snoc, enc_labels_snoc, <- Hf. unfold block. rewrite <- Hf. split_and!.
  - done.
  - by rewrite app_assoc.
  - by rewrite Hlab.
  - rewrite !length_app, length_replicate. simpl. lia.
  - rewrite length_app, Hid. simpl. lia.
Qed.

Section build_proof.
Context `{lib : BitmapLib} {S : Type} (onTerminal : option (list Z → S → S)).

(** The calls of [onTerminal]. *)
Definition called (D : list tnode) (acc : S) : S :=
  foldl (λ a k, match onTerminal with Some f => f k a | None => a end) acc (terminals D).

Lemma called_app D D' acc : called (D ++ D') acc = called D' (called D acc).
Proof. unfold called, terminals. by rewrite omap_app, foldl_app. Qed.

Lemma build_node_ok keys s e n st acc D :
  rows keys s e n → good n → written st D →
  ∃ st' iv,
    build_node onTerminal keys (len n.1) (s, e) st acc = Ret (st', called [n] acc) ∧
    written st' (D ++ [n]) ∧ b_next st' = b_next st ++ iv ∧
    Forall2 (λ '(s, e) n, rows keys s e n) iv (children n).
Proof.
  destruct n as [pre [|k K]]; [by intros ? [_ ?]|]. cbn [fst snd].
  intros Hr [Hs _] (Hlv & Hbm & Hlab & Hlx & Hid). simpl in Hs. unfold build_node.
  pose proof (rows_idx keys s e pre (k :: K) 0 k Hr eq_refl) as Hk.
  replace (s + Z.of_nat 0) with s in Hk by lia. rewrite Hk. run. rewrite length_app.
  pose proof (sorted_no_nil _ _ Hs) as Hno. unfold called, terminals. simpl omap.
  destruct k as [|c k].
  - assert (has_nil ([] :: K) = true) as Hn by (apply bool_decide_eq_true_2; left).
    rewrite (proj2 (Z.eqb_eq _ _)) by (simpl; lia). rewrite Hid, Hn.
    assert (len D = len (enc_leaves D)) as -> by (unfold enc_leaves; by rewrite length_fmap).
    destruct (leaf_bits_set _ _ Hlv) as (lv & -> & Hlv'). run.
    inversion_clear Hs as [|? ? HsK _].
    edestruct (build_edges_ok keys (s + 1) e (pre, [] :: K) K) as (st' & iv & Hb & Hw & Hnx & Hiv);
      [..|exists st', iv; cbn [fst] in Hb; rewrite Hb; run; by rewrite app_nil_r]; simpl; try done.
    + unfold enc_leaves. rewrite fmap_app. simpl. by rewrite Hn.
    + unfold enc_leaves. by rewrite length_fmap.
    + pose proof (rows_sub keys s e pre _ 1 (Datatypes.S (length K)) Hr ltac:(lia) ltac:(simpl; lia)) as Hx.
      simpl in Hx. rewrite Nat.sub_0_r, drop_0, take_ge in Hx by done.
      pose proof (rows_length _ _ _ _ Hr) as Hl. simpl in Hl.
      by replace (s + Z.of_nat (Datatypes.S (length K))) with e in Hx by lia.
  - assert (has_nil ((c :: k) :: K) = false) as Hn.
    { apply bool_decide_eq_false_2. set_solver. }
    rewrite (proj2 (Z.eqb_neq _ _)) by (simpl; lia). rewrite Hn. run.
    edestruct (build_edges_ok keys s e (pre, (c :: k) :: K) ((c :: k) :: K))
      as (st' & iv & Hb & Hw & Hnx & Hiv);
      [..|exists st', iv; cbn [fst] in Hb; rewrite Hb; run; done]; try done.
    + unfold enc_leaves. rewrite fmap_app. simpl. rewrite Hn. by apply leaf_bits_skip.
    + set_solver.
Qed.

Lemma build_level_ok keys col queue Q st acc D :
  Forall2 (λ '(s, e) n, rows keys s e n) queue Q → Forall good Q →
  Forall (λ n : tnode, len n.1 = col) Q → written st D →
  ∃ st' iv,
    build_level onTerminal keys col queue st acc = Ret (st', called Q acc) ∧
    written st' (D ++ Q) ∧ b_next st' = b_next st ++ iv ∧
    Forall2 (λ '(s, e) n, rows keys s e n) iv (level_below Q).
Proof.
  intros HQ. revert st acc D. induction HQ as [|[s e] n queue Q Hr HQ IH]; intros st acc D Hg Hc Hw.
  - exists st, []. rewrite !app_nil_r. split_and!; [done..|constructor].
  - apply Forall_cons in Hg as [Hgn Hg]. apply Forall_cons in Hc as [Hcn Hc]. cbn [build_level].
    destruct (build_node_ok keys s e n st acc D Hr Hgn Hw) as (st1 & iv1 & Hb & Hw1 & Hn1 & Hiv1).
    rewrite Hcn in Hb. rewrite Hb. run.
    destruct (IH st1 (called [n] acc) (D ++ [n]) Hg Hc Hw1) as (st' & iv & -> & Hw' & Hn' & Hiv).
    exists st', (iv1 ++ iv). split_and!.
    + by rewrite (called_app [n] Q).
    + by rewrite <- app_assoc in Hw'.
    + by rewrite Hn', Hn1, app_assoc.
    + unfold level_below. csimpl. by apply Forall2_app.
Qed.

Lemma below_prefix Q col :
  Forall (λ n : tnode, len n.1 = col) Q → Forall (λ n : tnode, len n.1 = col + 1) (level_below Q).
Proof.
  induction 1 as [|n Q Hn _ IH]; [constructor|]. unfold level_below. csimpl.
  apply Forall_app. split; [|done]. apply Forall_fmap, Forall_forall. intros c _. simpl.
  rewrite length_app. simpl. lia.
Qed.

(** What is left of the keys at a level. *)
Definition shorter (m : nat) (n : tnode) : Prop := Forall (λ k, (length k < m)%nat) n.2.

Lemma below_shorter Q m :
  Forall (shorter (Datatypes.S m)) Q → Forall (shorter m) (level_below Q).
Proof.
  induction 1 as [|n Q Hn _ IH]; [constructor|]. unfold level_below. csimpl.
  apply Forall_app. split; [|done]. apply Forall_fmap, Forall_forall. intros c _.
  apply Forall_forall. simpl. intros k Hk%elem_deriv. unfold shorter in Hn.
  rewrite Forall_forall in Hn. specialize (Hn _ Hk). simpl in Hn. lia.
Qed.

(** A node is no deeper than another. *)
Definition shallower (a b : tnode) : Prop := (length a.1 ≤ length b.1)%nat.

Lemma level_shallower col (Q D : list tnode) :
  Forall (λ n : tnode, len n.1 = col) Q → Forall (λ n : tnode, col + 1 ≤ len n.1) D →
  StronglySorted shallower D →
  StronglySorted shallower (Q ++ D) ∧ Forall (λ n : tnode, col ≤ len n.1) (Q ++ D).
Proof.
  intros HQ HD HsD. induction HQ as [|n Q Hn HQ [IH1 IH2]]; simpl.
  - split; [done|]. eapply Forall_impl; [exact HD|]. simpl. lia.
  - split; constructor; [done| |lia|done]. eapply Forall_impl; [exact IH2|].
    unfold shallower. simpl. lia.
Qed.

Lemma build_levels_ok fuel keys col queue Q st acc D :
  Forall2 (λ '(s, e) n, rows keys s e n) queue Q → Forall good Q →
  Forall (λ n : tnode, len n.1 = col) Q → Forall (shorter fuel) Q →
  written st D → b_next st = [] →
  let D' := levels fuel Q in
  ∃ st',
    build_levels onTerminal fuel keys col queue st acc = Ret (st', called D' acc) ∧
    written st' (D ++ D') ∧ D' = Q ++ level_below D' ∧ Forall good D' ∧
    StronglySorted shallower D' ∧ Forall (λ n : tnode, col ≤ len n.1) D'.
Proof.
  revert col queue Q st acc D.
  induction fuel as [|fuel IH]; intros col queue Q st acc D HQ Hg Hc Hs Hw Hnx.
  - destruct HQ as [|[s e] [pre [|k K]] queue Q]; [|by apply Forall_cons in Hg as [[_ ?] _]|].
    + exists st. simpl. rewrite app_nil_r. split_and!; [done..|constructor|constructor].
    + apply Forall_cons in Hs as [Hs _]. apply Forall_cons in Hs as [Hs _]. lia.
  - destruct HQ as [|[s e] n queue Q Hr HQ].
    { exists st. simpl. rewrite app_nil_r. split_and!; [done..|constructor|constructor]. }
    destruct (build_level_ok keys col ((s, e) :: queue) (n :: Q) st acc D)
      as (st1 & iv & Hb & Hw1 & Hn1 & Hiv); [by constructor|done..|].
    cbn [build_levels]. rewrite Hb. run. rewrite Hnx in Hn1. simpl in Hn1. rewrite Hn1.
    destruct (IH (col + 1) iv (level_below (n :: Q))
      (mkBst (b_leaves st1) (b_bitmap st1) (b_labels st1) (b_lIdx st1) (b_nodeID st1) [])
      (called (n :: Q) acc) (D ++ n :: Q)) as (st' & Hb' & Hw' & HD' & Hg' & Ho' & Hp').
    { done. } { by apply good_below. } { by apply below_prefix. } { by apply below_shorter. }
    { done. } { done. }
    set (D' := levels fuel (level_below (n :: Q))) in *.
    destruct (level_shallower col (n :: Q) D' Hc Hp' Ho') as [Hord Hpre].
    change (levels (Datatypes.S fuel) (n :: Q)) with ((n :: Q) ++ D').
    exists st'. rewrite Hb'. split_and!; [| | | |done|done].
    + by rewrite called_app.
    + by rewrite app_assoc.
    + f_equal. rewrite HD' at 1. unfold level_below. by rewrite fmap_app, join_app.
    + by apply Forall_app.
Qed.
End build_proof.

(** What is written does not depend on the callback. *)
Section callback.
Context {S S' : Type} (on : option (list Z → S → S)) (on' : option (list Z → S' → S')).

Lemma build_node_fst keys col elt st acc acc' :
  fst <$> build_node on keys col elt st acc = fst <$> build_node on' keys col elt st acc'.
Proof using Type.
  destruct elt as [s e]. unfold build_node. destruct (idx keys s) as [k| |]; [|done..]. run.
  destruct (col =? len k).
  - destruct (setBit (b_leaves st) (b_nodeID st) 1); [|done..]. run.
    by destruct (build_edges keys col (s + 1) e _).
  - run. by destruct (build_edges keys col s e st).
Qed.

Lemma build_level_fst keys col queue st acc acc' :
  fst <$> build_level on keys col queue st acc = fst <$> build_level on' keys col queue st acc'.
Proof using Type.
  revert st acc acc'. induction queue as [|elt queue IH]; intros st acc acc'; [done|].
  cbn [build_level]. pose proof (build_node_fst keys col elt st acc acc') as Hn.
  destruct (build_node on keys col elt st acc) as [[st1 a1]| |],
    (build_node on' keys col elt st acc') as [[st2 a2]| |]; by simplify_eq/=.
Qed.

Lemma build_levels_fst fuel keys col queue st acc acc' :
  fst <$> build_levels on fuel keys col queue st acc = fst <$> build_levels on' fuel keys col queue st acc'.
Proof using Type.
  revert col queue st acc acc'.
  induction fuel as [|fuel IH]; intros col queue st acc acc'; destruct queue as [|elt queue]; try done.
  cbn [build_levels]. pose proof (build_level_fst keys col (elt :: queue) st acc acc') as Hn.
  destruct (build_level on keys col (elt :: queue) st acc) as [[st1 a1]| |],
    (build_level on' keys col (elt :: queue) st acc') as [[st2 a2]| |]; by simplify_eq/=.
Qed.

Lemma buildDomainSet_fst `{lib : BitmapLib} keys acc acc' :
  fst <$> buildDomainSet on keys acc = fst <$> buildDomainSet on' keys acc'.
Proof using Type.
  unfold buildDomainSet. destruct keys as [|k keys]; [done|]. set (ks := Compact _).
  set (st := mkBst _ _ _ _ _ _).
  pose proof (build_levels_fst (Datatypes.S (max_length ks)) ks 0 [(0, len ks)] st acc acc') as Hn.
  destruct (build_levels on _ ks 0 _ st acc) as [[st1 a1]| |],
    (build_levels on' _ ks 0 _ st acc') as [[st2 a2]| |]; by simplify_eq/=.
Qed.
End callback.

(** *** Sorting *)

Lemma bytes_le_lt a b : bytes_le a b = true ↔ blt a b ∨ a = b.
Proof.
  revert b. induction a as [|x a IH]; intros [|y b]; simpl; [naive_solver..|].
  rewrite orb_true_iff, andb_true_iff, Z.ltb_lt, Z.eqb_eq, IH. naive_solver.
Qed.

Lemma blt_total a b : blt a b ∨ a = b ∨ blt b a.
Proof.
  revert b. induction a as [|x a IH]; intros [|y b]; simpl; [naive_solver..|].
  destruct (Z.lt_trichotomy x y) as [?|[->|?]]; [naive_solver| |naive_solver].
  destruct (IH b) as [?|[->|?]]; naive_solver.
Qed.

#[global] Instance le_bytes_total : Total le_bytes.
Proof.
  intros a b. unfold le_bytes. rewrite !bytes_le_lt.
  destruct (blt_total a b) as [?|[?|?]]; naive_solver.
Qed.

#[global] Instance le_bytes_trans : Transitive le_bytes.
Proof.
  intros a b c. unfold le_bytes. rewrite !bytes_le_lt.
  intros [?|<-] [?|<-]; [left; by etrans|by left|by left|by right].
Qed.

Lemma elem_compact {A} `{EqDecision A} (l : list A) x : x ∈ compact l ↔ x ∈ l.
Proof.
  induction l as [|y l IH]; simpl; [done|].
  destruct (compact l) as [|z r]; [|case_bool_decide; subst]; set_solver.
Qed.

Lemma compact_sorted l : StronglySorted le_bytes l → sorted (compact l).
Proof.
  induction 1 as [|x l _ IH Hx]; simpl; [constructor|]. rewrite Forall_forall in Hx.
  pose proof (elem_compact l) as He. destruct (compact l) as [|y r]; [by repeat constructor|].
  case_bool_decide as Hxy; [done|]. constructor; [done|].
  assert (blt x y) as Hlt.
  { specialize (Hx y). rewrite <- He in Hx. specialize (Hx ltac:(left)).
    by apply bytes_le_lt in Hx as [?|?]. }
  constructor; [done|]. inversion_clear IH as [|? ? _ Hy]. eapply Forall_impl; [exact Hy|].
  intros z Hz. simpl in Hz. by etrans.
Qed.

(** The keys of a set in order, each once. *)
Definition sorted_keys (keys : list (list Z)) : list (list Z) := compact (sortStrings keys).

Lemma sorted_keys_sorted keys : sorted (sorted_keys keys).
Proof. apply compact_sorted. apply (StronglySorted_merge_sort le_bytes). Qed.

Lemma elem_sorted_keys keys k : k ∈ sorted_keys keys ↔ k ∈ keys.
Proof.
  unfold sorted_keys. rewrite elem_compact. unfold sortStrings.
  by rewrite (merge_sort_Permutation le_bytes keys).
Qed.

(** There is one sorted list with given elements. *)
Lemma sorted_unique K K' : sorted K → sorted K' → (∀ k, k ∈ K ↔ k ∈ K') → K = K'.
Proof.
  intros HK. revert K'. induction HK as [|k K HK IH Hk]; intros K' HK' He.
  - destruct K' as [|k' K']; [done|]. set_solver.
  - destruct HK' as [|k' K' HK' Hk']; [set_solver|]. rewrite Forall_forall in Hk, Hk'.
    assert (k = k') as <-.
    { pose proof (proj1 (He k) ltac:(left)) as H1. pose proof (proj2 (He k') ltac:(left)) as H2.
      apply elem_of_cons in H1 as [?|H1]; [done|]. apply elem_of_cons in H2 as [?|H2]; [done|].
      exfalso. apply (blt_irrefl k). etrans; [by apply Hk|by apply Hk']. }
    f_equal. apply IH; [done|]. intros x. specialize (He x).
    assert ((k ∉ K) ∧ (k ∉ K')) as [? ?].
    { split; intros Hin; apply (blt_irrefl k); auto. }
    set_solver.
Qed.

(** ** The size of a trie *)

Definition total (K : lang) : nat := sum_list (length <$> K).

(** The number of edges below a node, [m] levels deep. *)
Fixpoint nedges (m : nat) (K : lang) : nat :=
  match m with
  | O => O
  | S m => sum_list ((λ c, S (nedges m (deriv c K))) <$> firsts K)
  end.

Definition edge_count (K : lang) : nat := nedges (max_length K) K.

Lemma max_length_ge K m : (max_length K ≤ m)%nat ↔ Forall (λ k, (length k ≤ m)%nat) K.
Proof.
  induction K as [|k K IH]; simpl; [split; [constructor|lia]|]. rewrite Forall_cons, <- IH. lia.
Qed.

Lemma max_length_deriv c K m : (max_length K ≤ S m)%nat → (max_length (deriv c K) ≤ m)%nat.
Proof.
  rewrite !max_length_ge, !Forall_forall. intros H k Hk%elem_deriv%H. simpl in Hk. lia.
Qed.

Lemma firsts_flat K : (max_length K ≤ 0)%nat → firsts K = [].
Proof.
  intros H. destruct (firsts K) as [|c l] eqn:E; [done|].
  destruct (proj1 (elem_firsts c K)) as [k Hk]; [rewrite E; left|].
  apply max_length_ge in H. rewrite Forall_forall in H. apply H in Hk. simpl in Hk. lia.
Qed.

Lemma nedges_enough m m' K :
  (max_length K ≤ m)%nat → (max_length K ≤ m')%nat → nedges m K = nedges m' K.
Proof.
  revert m' K. induction m as [|m IH]; intros m' K Hm Hm'.
  - destruct m' as [|m']; [done|]. simpl. by rewrite firsts_flat.
  - destruct m' as [|m']; [simpl; by rewrite firsts_flat|]. simpl. f_equal.
    apply list_fmap_ext. intros _ c _. f_equal. apply IH; by apply max_length_deriv.
Qed.

Lemma edge_count_eq K :
  edge_count K = sum_list ((λ c, S (edge_count (deriv c K))) <$> firsts K).
Proof.
  unfold edge_count. destruct (max_length K) as [|m] eqn:E.
  - simpl. rewrite firsts_flat; [done|lia].
  - simpl. f_equal. apply list_fmap_ext. intros _ c _. f_equal.
    apply nedges_enough; [apply max_length_deriv; lia|done].
Qed.

Lemma sum_list_app l l' : sum_list (l ++ l') = (sum_list l + sum_list l')%nat.
Proof. induction l; simpl; lia. Qed.

(** The bytes of the strings that start with [c]. *)
Definition weight (K : lang) (c : Z) : nat := length (deriv c K) + total (deriv c K).

Lemma weight_cons k K c :
  weight (k :: K) c = (match after c k with Some _ => length k | None => 0 end + weight K c)%nat.
Proof.
  unfold weight, total, deriv. csimpl. destruct (after c k) eqn:E; csimpl; [|done].
  apply elem_after in E as ->. simpl. lia.
Qed.

(** Distinct first bytes have distinct strings. *)
Lemma weights_total cs K : NoDup cs → (sum_list (weight K <$> cs) ≤ total K)%nat.
Proof.
  intros Hnd. induction K as [|k K IH].
  - induction Hnd as [|c cs _ _ IHc]; simpl; [done|]. apply IHc.
  - assert (sum_list (weight (k :: K) <$> cs) ≤ length k + sum_list (weight K <$> cs))%nat as Hk.
    { clear IH. destruct k as [|x k].
      { simpl. apply Nat.eq_le_incl. f_equal. }
      assert (∀ cs : list Z, x ∉ cs → (weight ((x :: k) :: K) <$> cs) = (weight K <$> cs)) as Hx.
      { intros cs' Hx. apply list_fmap_ext. intros _ c Hc%list_elem_of_lookup_2.
        rewrite weight_cons. simpl. by destruct (Z.eqb_spec x c) as [->|]. }
      induction Hnd as [|c cs Hc Hnd IHc]; [simpl; lia|]. rewrite !fmap_cons, weight_cons. simpl.
      destruct (Z.eqb_spec x c) as [->|Hne]; [rewrite Hx by done|]; simpl in *; lia. }
    change (total (k :: K)) with (length k + total K)%nat. lia.
Qed.

Lemma edge_count_total K : (edge_count K ≤ total K)%nat.
Proof.
  unfold edge_count. generalize (max_length K). intros m. revert K.
  induction m as [|m IH]; intros K; simpl; [lia|].
  etrans; [|apply (weights_total (firsts K)); apply NoDup_firsts].
  assert (∀ cs, (∀ c, c ∈ cs → c ∈ firsts K) →
    (sum_list ((λ c, S (nedges m (deriv c K))) <$> cs) ≤ sum_list (weight K <$> cs))%nat) as H;
    [|by apply H].
  induction cs as [|c cs IHc]; intros Hcs; [done|]. rewrite !fmap_cons. simpl.
  specialize (IHc ltac:(set_solver)). specialize (IH (deriv c K)).
  assert (1 ≤ length (deriv c K))%nat; [|unfold weight; fold (weight K); lia].
  destruct (proj1 (elem_firsts c K)) as [k Hk%elem_deriv]; [set_solver|].
  destruct (deriv c K); [set_solver|simpl; lia].
Qed.

(** ** What an index means *)

(** A set that encodes the nodes [D]: the root, and below it level by level the
    children of the nodes. *)
Record encodes `{lib : BitmapLib} (ss : DomainSet) (K : lang) (D : list tnode) : Prop := {
  enc_leaf : leaf_bits (leaves ss) (enc_leaves D);
  enc_bitmap : holds (labelBitmap ss) (enc_bits D);
  enc_label : labels ss = enc_labels D;
  enc_index : IndexSelect32R64 (labelBitmap ss) = (selects ss, ranks ss);
  enc_root : D = ([], K) :: level_below D;
  enc_good : Forall good D;
  enc_order : StronglySorted shallower D;
}.

(** The position of the first edge of node [n]. *)
Definition start (D : list tnode) (n : nat) : Z := len (enc_bits (take n D)).

Definition trues (bs : list bool) : nat := length (filter (λ b, b = true) bs).

Lemma ones_bits bm bs i :
  (∀ i : nat, bitAt bm (Z.of_nat i) = nth i bs false) →
  ones bm (Z.of_nat i) = Z.of_nat (trues (take i bs)).
Proof.
  intros Hb. unfold ones, trues. rewrite Nat2Z.id. f_equal.
  induction i as [|i IH]; [done|].
  rewrite seq_S, filter_app, length_app, IH. rewrite filter_cons, Hb. simpl.
  destruct (bs !! i) as [b|] eqn:E.
  - rewrite (take_S_r _ _ _ E), filter_app, length_app, filter_cons.
    rewrite (nth_lookup_Some _ _ _ _ E). by destruct b.
  - rewrite nth_lookup, E. simpl. apply lookup_ge_None in E. rewrite !take_ge by lia. lia.
Qed.

Lemma ones_holds bm bs i :
  holds bm bs → ones bm (Z.of_nat i) = Z.of_nat (trues (take i bs)).
Proof. intros [Hb _]. by apply ones_bits. Qed.

Lemma trues_app l l' : trues (l ++ l') = (trues l + trues l')%nat.
Proof. unfold trues. by rewrite filter_app, length_app. Qed.

Lemma trues_block_prefix n t :
  (t ≤ length (firsts n.2))%nat → trues (take t (block n)) = 0%nat.
Proof.
  intros Ht. unfold block. rewrite take_app_le, take_replicate by (rewrite length_replicate; lia).
  rewrite Nat.min_l by lia. clear Ht. induction t as [|t IH]; [done|]. simpl. exact IH.
Qed.

Lemma length_block n : length (block n) = S (length (firsts n.2)).
Proof. unfold block. rewrite length_app, length_replicate. simpl. lia. Qed.

Lemma trues_block n : trues (block n) = 1%nat.
Proof.
  unfold block. rewrite trues_app. change (trues [true]) with 1%nat.
  pose proof (trues_block_prefix n (length (firsts n.2)) ltac:(lia)) as H. unfold block in H.
  rewrite take_app_length' in H by (by rewrite length_replicate). lia.
Qed.

Lemma enc_bits_app D D' : enc_bits (D ++ D') = enc_bits D ++ enc_bits D'.
Proof. unfold enc_bits. by rewrite fmap_app, join_app. Qed.

Lemma enc_labels_app D D' : enc_labels (D ++ D') = enc_labels D ++ enc_labels D'.
Proof. unfold enc_labels. by rewrite fmap_app, join_app. Qed.

Lemma level_below_app D D' : level_below (D ++ D') = level_below D ++ level_below D'.
Proof. unfold level_below. by rewrite fmap_app, join_app. Qed.

Lemma trues_enc D : trues (enc_bits D) = length D.
Proof.
  induction D as [|n D IH]; [done|]. unfold enc_bits in *. csimpl. by rewrite trues_app, IH, trues_block.
Qed.

Lemma length_enc_bits D : length (enc_bits D) = (length (enc_labels D) + length D)%nat.
Proof.
  induction D as [|n D IH]; [done|]. unfold enc_bits, enc_labels in *. csimpl.
  rewrite !length_app, length_block, IH. lia.
Qed.

Lemma length_below D : length (level_below D) = length (enc_labels D).
Proof.
  induction D as [|n D IH]; [done|]. unfold level_below, enc_labels in *. csimpl.
  rewrite !length_app, IH. unfold children. by rewrite length_fmap.
Qed.

Lemma StronglySorted_lookup {A} (R : A → A → Prop) l i j x y :
  StronglySorted R l → l !! i = Some x → l !! j = Some y → (i < j)%nat → R x y.
Proof.
  intros Hs. revert i j. induction Hs as [|a l Hs IH Ha]; intros i j Hi Hj Hij; [done|].
  destruct j as [|j]; [lia|]. simpl in Hj. destruct i as [|i]; simpl in Hi; simplify_eq/=.
  - rewrite Forall_lookup in Ha. by eapply Ha.
  - eapply IH; [done..|lia].
Qed.

(** The part of a list of nodes around the n-th. *)
Lemma split_at {A} (D : list A) n x :
  D !! n = Some x → D = take n D ++ x :: drop (S n) D ∧ length (take n D) = n.
Proof.
  intros H. split; [by rewrite take_drop_middle|]. apply lookup_lt_Some in H.
  rewrite length_take. lia.
Qed.

Lemma start_labels D n : (n ≤ length D)%nat → start D n = len (enc_labels (take n D)) + Z.of_nat n.
Proof. intros. unfold start. rewrite length_enc_bits, length_take. lia. Qed.

Lemma start_0 D : start D 0 = 0.
Proof. done. Qed.

Lemma start_S D n pre K :
  D !! n = Some (pre, K) → start D (S n) = start D n + len (firsts K) + 1.
Proof.
  intros H. unfold start. rewrite (take_S_r _ _ _ H), enc_bits_snoc, length_app, length_block. simpl. lia.
Qed.

Section louds.
Context {lib : BitmapLib} {spec : BitmapSpec lib} {ss : DomainSet} {K0 : lang} {D : list tnode}.
Hypothesis Henc : encodes ss K0 D.
Hypothesis Hsmall : 64 * len (labelBitmap ss) < 2 ^ 31.

Lemma root_node : D !! 0%nat = Some ([], K0).
Proof using Henc. clear Hsmall. by rewrite (enc_root _ _ _ Henc). Qed.

Lemma node_good n pre K : D !! n = Some (pre, K) → sorted K ∧ K ≠ [].
Proof using Henc.
  clear Hsmall. intros H. pose proof (enc_good _ _ _ Henc) as Hg. rewrite Forall_lookup in Hg.
  by apply Hg in H.
Qed.

(** The bits of node [n]. *)
Lemma block_bit n pre K t :
  D !! n = Some (pre, K) → (t ≤ length (firsts K))%nat →
  bitAt (labelBitmap ss) (start D n + Z.of_nat t) = bool_decide (t = length (firsts K)) ∧
  0 ≤ start D n + Z.of_nat t < 64 * len (labelBitmap ss) ∧
  ones (labelBitmap ss) (start D n + Z.of_nat t) = Z.of_nat n.
Proof using Henc.
  clear Hsmall. intros H Ht. destruct (split_at _ _ _ H) as [HD Hn].
  pose proof (enc_bitmap _ _ _ Henc) as Hb. pose proof Hb as [Hbit Hlen].
  set (p := (length (enc_bits (take n D)) + t)%nat).
  assert (start D n + Z.of_nat t = Z.of_nat p) as -> by (unfold start, p; lia).
  assert (enc_bits D = enc_bits (take n D) ++ block (pre, K) ++ enc_bits (drop (S n) D)) as HE.
  { rewrite HD at 1. by rewrite enc_bits_app. }
  assert (p < length (enc_bits D))%nat as Hp.
  { rewrite HE, !length_app, length_block. simpl. lia. }
  split_and!; [|lia..|].
  - rewrite Hbit, HE, app_nth2, app_nth1 by (rewrite ?length_block; unfold p; simpl; lia).
    replace (p - _)%nat with t by (unfold p; lia). unfold block. simpl. case_bool_decide.
    + rewrite app_nth2 by (rewrite length_replicate; lia). rewrite length_replicate.
      by replace (t - _)%nat with 0%nat by lia.
    + rewrite app_nth1, nth_lookup by (rewrite length_replicate; lia).
      by rewrite lookup_replicate_2 by lia.
  - rewrite (ones_holds _ _ _ Hb), HE. unfold p. rewrite take_app_add.
    rewrite take_app_le, trues_app, trues_enc, Hn by (rewrite length_block; simpl; lia).
    rewrite trues_block_prefix by done. lia.
Qed.

Lemma bitSet_block n pre K t :
  D !! n = Some (pre, K) → (t ≤ length (firsts K))%nat →
  bitSet (labelBitmap ss) (start D n + Z.of_nat t) = Ret (bool_decide (t = length (firsts K))).
Proof using Henc.
  clear Hsmall. intros H Ht. destruct (block_bit _ _ _ _ H Ht) as (Hb & Hr & _).
  unfold bitSet. destruct (getBit_Ret _ _ Hr) as (x & -> & Hx). run.
  by rewrite Hx, negb_involutive, Hb.
Qed.

(** The label and the node of an edge. *)
Lemma edge_at n pre K t c :
  D !! n = Some (pre, K) → firsts K !! t = Some c →
  idx (labels ss) (start D n + Z.of_nat t - Z.of_nat n) = Ret c ∧
  0 < start D n + Z.of_nat t - Z.of_nat n + 1 ∧
  D !! Z.to_nat (start D n + Z.of_nat t - Z.of_nat n + 1) = Some (pre ++ [c], deriv c K).
Proof using Henc.
  clear Hsmall. intros H Hc. destruct (split_at _ _ _ H) as [HD Hn]. apply lookup_lt_Some in H as Hlt.
  rewrite start_labels by lia. apply lookup_lt_Some in Hc as Ht. set (m := length (enc_labels (take n D))).
  replace (Z.of_nat m + Z.of_nat n + Z.of_nat t - Z.of_nat n) with (Z.of_nat (m + t)) by lia.
  split_and!; [|lia|].
  - apply idx_lookup; [lia|]. rewrite Nat2Z.id, (enc_label _ _ _ Henc), HD, enc_labels_app.
    unfold m. rewrite lookup_app_r, Nat.add_sub' by lia. unfold enc_labels. csimpl.
    by rewrite lookup_app_l by (simpl; lia).
  - rewrite (enc_root _ _ _ Henc). replace (Z.to_nat _) with (S (m + t)) by lia. simpl.
    rewrite HD, level_below_app. rewrite lookup_app_r by (rewrite length_below; unfold m; lia).
    rewrite length_below. unfold m. rewrite Nat.add_sub'. unfold level_below. csimpl.
    unfold children at 1. simpl. rewrite lookup_app_l by (rewrite length_fmap; lia).
    by rewrite list_lookup_fmap, Hc.
Qed.

(** The last node has no edges, so that the bitmap of leaves reaches it. *)
Lemma last_node_leaf pre K : D !! (length D - 1)%nat = Some (pre, K) → has_nil K = true.
Proof using Henc.
  clear Hsmall. intros H. destruct (node_good _ _ _ H) as [Hs Hne].
  assert (firsts K = []) as Hf.
  { destruct (firsts K) as [|c l] eqn:Hf; [done|]. exfalso.
    destruct (edge_at (length D - 1) pre K 0 c) as (_ & _ & Hch); [done|by rewrite Hf|].
    apply lookup_lt_Some in Hch as Hlt. pose proof (enc_order _ _ _ Henc) as Ho.
    set (i := Z.to_nat _) in *. destruct (decide (i = length D - 1)%nat) as [Hi|Hi].
    - rewrite Hi, H in Hch. injection Hch as Hp _. apply (f_equal length) in Hp.
      rewrite length_app in Hp. simpl in Hp. lia.
    - assert (shallower (pre ++ [c], deriv c K) (pre, K)) as Hsh.
      { eapply (StronglySorted_lookup _ _ i (length D - 1) _ _ Ho); [done|done|lia]. }
      unfold shallower in Hsh. cbn [fst] in Hsh. rewrite length_app in Hsh. simpl in Hsh. lia. }
  destruct K as [|[|c k] K]; [done| |done]. apply bool_decide_eq_true_2. left.
Qed.

Lemma bitSet_leaf n pre K :
  D !! n = Some (pre, K) → bitSet (leaves ss) (Z.of_nat n) = Ret (has_nil K) ∧
    bitAt (leaves ss) (Z.of_nat n) = has_nil K ∧ Z.of_nat n < 64 * len (leaves ss).
Proof using Henc.
  clear Hsmall. intros H. pose proof (enc_leaf _ _ _ Henc) as (Hb & Hl & Hu).
  apply lookup_lt_Some in H as Hlt.
  assert (Z.of_nat n < 64 * len (leaves ss)) as Hn.
  { destruct (lookup_lt_is_Some_2 D (length D - 1)) as [[pre' K'] H']; [lia|].
    specialize (Hl (length D - 1)%nat). unfold enc_leaves in Hl.
    rewrite list_lookup_fmap, H' in Hl. simpl in Hl. rewrite (last_node_leaf _ _ H') in Hl.
    specialize (Hl eq_refl). lia. }
  assert (bitAt (leaves ss) (Z.of_nat n) = has_nil K) as Hbit.
  { rewrite Hb, nth_lookup. unfold enc_leaves. by rewrite list_lookup_fmap, H. }
  split_and!; [|done|done]. unfold bitSet.
  destruct (getBit_Ret (leaves ss) (Z.of_nat n)) as (x & -> & Hx); [lia|]. run.
  by rewrite Hx, negb_involutive, Hbit.
Qed.

(** The end of the edges of a node, and their start. *)
Lemma select_end n pre K :
  D !! n = Some (pre, K) →
  selectIthOne (labelBitmap ss) (ranks ss) (selects ss) (Z.of_nat n) =
    start D n + len (firsts K).
Proof using Henc Hsmall spec.
  intros H. destruct (block_bit n pre K (length (firsts K)) H ltac:(lia)) as (Hb & Hr & Ho).
  rewrite bool_decide_true in Hb by done. unfold selectIthOne.
  apply lookup_lt_Some in H as Hlt. pose proof (start_labels D n ltac:(lia)) as Hsl.
  rewrite i32_small by lia.
  pose proof (Select32R64_one (labelBitmap ss) (start D n + len (firsts K)) Hsmall Hr Hb) as Hsel.
  rewrite Ho, (enc_index _ _ _ Henc) in Hsel. exact Hsel.
Qed.

Lemma select_start n pre K :
  (0 < n)%nat → D !! n = Some (pre, K) →
  selectIthOne (labelBitmap ss) (ranks ss) (selects ss) (Z.of_nat n - 1) + 1 = start D n.
Proof using Henc Hsmall spec.
  intros Hn H. apply lookup_lt_Some in H as Hlt.
  destruct (lookup_lt_is_Some_2 D (n - 1)) as [[pre' K'] H']; [lia|].
  replace (Z.of_nat n - 1) with (Z.of_nat (n - 1)) by lia.
  rewrite (select_end _ _ _ H'). rewrite <- (start_S _ _ _ _ H'). f_equal. lia.
Qed.

Lemma countZeros_edge n pre K t :
  D !! n = Some (pre, K) → (t < length (firsts K))%nat →
  countZeros (labelBitmap ss) (ranks ss) (start D n + Z.of_nat t + 1) =
    start D n + Z.of_nat t - Z.of_nat n + 1.
Proof using Henc Hsmall spec.
  intros H Ht. destruct (block_bit n pre K (S t) H ltac:(lia)) as (_ & Hr & Ho).
  replace (start D n + Z.of_nat (S t)) with (start D n + Z.of_nat t + 1) in * by lia.
  unfold countZeros. rewrite i32_small by lia.
  pose proof (Rank64_selects (labelBitmap ss) _ Hsmall Hr) as Hrank.
  rewrite (enc_index _ _ _ Henc) in Hrank. simpl in Hrank. rewrite Hrank, Ho. lia.
Qed.

(** The language of a node is what follows its prefix in the keys. *)
Lemma node_lang pre K k : (pre, K) ∈ D → k ∈ K ↔ pre ++ k ∈ K0.
Proof using Henc.
  clear Hsmall. remember (length pre) as l eqn:Hl. revert pre K k Hl.
  induction l as [|l IH]; intros pre K k Hl Hin; rewrite (enc_root _ _ _ Henc) in Hin;
    apply elem_of_cons in Hin as [[= -> ->]|Hin]; try done.
  all: unfold level_below in Hin; apply list_elem_of_join in Hin as (ch & Hch & Hn).
  all: apply list_elem_of_fmap in Hn as ([pre' K'] & -> & Hn).
  all: apply list_elem_of_fmap in Hch as (c & [= -> ->] & Hc).
  all: rewrite length_app in Hl; simpl in Hl.
  { lia. }
  rewrite elem_deriv, (IH pre' K') by (done || lia). by rewrite <- app_assoc.
Qed.

(** The labels are the edges of the trie. *)
Lemma labels_edges : length (labels ss) = edge_count K0.
Proof using Henc.
  clear Hsmall. rewrite (enc_label _ _ _ Henc), <- length_below.
  set (f := λ n : tnode, edge_count n.2).
  assert (∀ D, sum_list (f <$> D) = (length (level_below D) + sum_list (f <$> level_below D))%nat) as Hsum.
  { clear. intros D. induction D as [|n D IH]; [done|]. unfold level_below in *. csimpl.
    rewrite length_app, fmap_app, sum_list_app, IH. unfold f at 1. rewrite edge_count_eq.
    assert (∀ cs : list Z, sum_list ((λ c, S (edge_count (deriv c n.2))) <$> cs) =
      (length cs + sum_list (f <$> ((λ c, (n.1 ++ [c], deriv c n.2)) <$> cs)))%nat) as ->.
    { induction cs as [|c cs IHc]; [done|]. csimpl. rewrite IHc. unfold f. simpl. lia. }
    unfold children. rewrite length_fmap. lia. }
  specialize (Hsum D). rewrite (enc_root _ _ _ Henc) in Hsum at 1. csimpl in Hsum. simpl in Hsum.
  unfold f at 1 in Hsum. simpl in Hsum. lia.
Qed.
End louds.

(** ** The set that is built *)

Lemma total_compact K : (total (compact K) ≤ total K)%nat.
Proof.
  unfold total. induction K as [|k K IH]; csimpl; [done|].
  destruct (compact K) as [|x r]; [csimpl in *; lia|]. case_bool_decide; csimpl in *; lia.
Qed.

Lemma total_sorted_keys keys : (total (sorted_keys keys) ≤ total keys)%nat.
Proof.
  unfold sorted_keys. etrans; [apply total_compact|]. unfold total, sortStrings.
  by rewrite (merge_sort_Permutation le_bytes keys).
Qed.

(** The keys are short enough for the indexes of the set to be of type [int32]. *)
Definition fits (keys : list (list Z)) : Prop := 2 * Z.of_nat (total keys) + 64 < 2 ^ 31.

Section built.
Context {lib : BitmapLib} {spec : BitmapSpec lib} {S : Type} (onTerminal : option (list Z → S → S)).

Lemma buildDomainSet_encodes keys acc :
  keys ≠ [] →
  let D := nodes_of (sorted_keys keys) in
  ∃ ss,
    buildDomainSet onTerminal keys acc = Ret (Some ss, called onTerminal D acc) ∧
    encodes ss (sorted_keys keys) D ∧
    (fits keys → 64 * len (labelBitmap ss) < 2 ^ 31 ∧ 64 * len (leaves ss) < 2 ^ 31).
Proof using spec.
  intros Hne D. unfold buildDomainSet. rewrite Compact_runs. fold (sorted_keys keys).
  set (K := sorted_keys keys) in *.
  assert (good ([], K)) as Hg.
  { split; [apply sorted_keys_sorted|]. simpl. destruct keys as [|k keys]; [done|].
    intros HK. apply (not_elem_of_nil k). rewrite <- HK. apply elem_sorted_keys. left. }
  destruct (build_levels_ok onTerminal (Datatypes.S (max_length K)) K 0 [(0, len K)] [([], K)]
    (mkBst [] [] [] 0 0 []) acc []) as (st & Hb & (Hlv & Hbm & Hlab & _ & _) & HD & HgD & Ho & _).
  { constructor; [|constructor]. split_and!; simpl; [lia..|]. rewrite Z.sub_0_r, Nat2Z.id, drop_0, take_ge by done.
    symmetry. apply list_fmap_id. }
  { by apply Forall_singleton. } { by apply Forall_singleton. }
  { apply Forall_singleton, Forall_forall. simpl. intros k Hk.
    pose proof (proj1 (max_length_ge K (max_length K)) ltac:(lia)) as Hm.
    rewrite Forall_forall in Hm. specialize (Hm k Hk). lia. }
  { split_and!; [|apply holds_nil|done..]. split_and!; simpl; [|done|lia].
    intros i. unfold bitAt. simpl. rewrite Z.bits_0. by destruct i. }
  { done. }
  fold (nodes_of K) in Hb, Hlv, Hbm, Hlab, HD, HgD, Ho. simpl app in *. fold D in Hb, Hlv, Hbm, Hlab, HD, HgD, Ho.
  clearbody D. destruct keys as [|k keys]; [done|]. rewrite Hb. run.
  destruct (IndexSelect32R64 (b_bitmap st)) as [sel rk] eqn:Hix.
  assert (encodes (init (b_leaves st) (b_bitmap st) (b_labels st)) K D) as He.
  { unfold init. rewrite Hix. by constructor. }
  eexists. split; [done|]. split; [done|]. intros Hfit.
  pose proof (labels_edges He) as Hn. pose proof (edge_count_total K) as Ht.
  pose proof (total_sorted_keys (k :: keys)) as Ht'. fold K in Ht'.
  unfold init in *. rewrite Hix in *. simpl in *. rewrite Hlab in Hn.
  assert (length D = Datatypes.S (length (enc_labels D))) as HlD.
  { rewrite HD at 1. simpl. by rewrite length_below. }
  unfold fits in Hfit. pose proof (length_enc_bits D). destruct Hbm as [_ Hbl].
  destruct Hlv as (_ & _ & Hll). unfold enc_leaves in Hll. rewrite length_fmap in Hll. lia.
Qed.

Lemma buildDomainSet_nil acc : buildDomainSet onTerminal [] acc = Ret (None, acc).
Proof using Type. done. Qed.
End built.

(** ** The library, by counting *)

(** The [k]-th one among the [n] bits from [p] on. *)
Fixpoint select_ref (bm : list Z) (n : nat) (p k : Z) : Z :=
  match n with
  | O => p
  | S n =>
    if bitAt bm p then if k =? 0 then p else select_ref bm n (p + 1) (k - 1)
    else select_ref bm n (p + 1) k
  end.

Definition counting_lib : BitmapLib := {|
  IndexSelect32R64 bm :=
    ((λ k, select_ref bm (64 * length bm) 0 (32 * Z.of_nat k)) <$>
       seq 0 (S (Z.to_nat (ones bm (64 * len bm) / 32))), []);
  IndexRank64 _ := [];
  Rank64 bm _ i := (ones bm i, Z.b2z (bitAt bm i));
  Select32R64 bm _ _ k :=
    (select_ref bm (64 * length bm) 0 k, select_ref bm (64 * length bm) 0 (k + 1));
  Compact := compact;
|}.

Lemma ones_S bm p :
  0 ≤ p → ones bm (p + 1) = ones bm p + Z.b2z (bitAt bm p).
Proof.
  intros Hp. unfold ones. replace (Z.to_nat (p + 1)) with (S (Z.to_nat p)) by lia.
  rewrite seq_S, filter_app, length_app, filter_cons. simpl. rewrite Z2Nat.id by done.
  destruct (bitAt bm p); simpl; lia.
Qed.

Lemma ones_mono bm p q : 0 ≤ p ≤ q → ones bm p ≤ ones bm q.
Proof.
  intros Hp. replace q with (p + Z.of_nat (Z.to_nat (q - p))) by lia.
  induction (Z.to_nat (q - p)) as [|n IH]; [rewrite Z.add_0_r; lia|].
  replace (p + Z.of_nat (S n)) with (p + Z.of_nat n + 1) by lia.
  rewrite ones_S by lia. destruct (bitAt bm _); simpl; lia.
Qed.

Lemma select_ref_one bm n q p :
  0 ≤ q ≤ p → p < q + Z.of_nat n → bitAt bm p = true →
  select_ref bm n q (ones bm p - ones bm q) = p.
Proof.
  revert q. induction n as [|n IH]; intros q Hq Hp Hb; simpl; [lia|].
  destruct (decide (q = p)) as [->|Hne]; [by rewrite Hb, Z.sub_diag|].
  pose proof (ones_S bm q ltac:(lia)) as Hs. pose proof (ones_mono bm (q + 1) p ltac:(lia)) as Hm.
  destruct (bitAt bm q); simpl in Hs.
  - destruct (Z.eqb_spec (ones bm p - ones bm q) 0); [lia|].
    rewrite <- (IH (q + 1)) at 2 by (done || lia). f_equal. lia.
  - rewrite <- (IH (q + 1)) at 2 by (done || lia). f_equal. lia.
Qed.

#[global] Instance counting_spec : BitmapSpec counting_lib.
Proof.
  split; [done|done| | |done].
  - intros bm p _ Hp Hb. simpl. rewrite <- (select_ref_one bm (64 * length bm) 0 p) at 2 by (done || lia).
    f_equal. change (ones bm 0) with 0. lia.
  - intros bm p _ Hp Hb. simpl. rewrite length_fmap, length_seq.
    pose proof (ones_mono bm p (64 * len bm) ltac:(lia)) as Hm.
    pose proof (ones_mono bm 0 p ltac:(lia)) as H0. change (ones bm 0) with 0 in H0.
    pose proof (Z.div_le_mono _ _ 32 ltac:(lia) Hm). pose proof (Z.div_pos (ones bm p) 32). lia.
Qed.
