(* ===== verification/DomainSet.v ===== *)
(** * The domain set ([component/trie/domain_set.go])

    A set of domain patterns, stored as a succinct trie (Louds.v) of the patterns
    read back to front.  The builder accepts the patterns of the domain trie, [Has]
    walks the trie with a stack of the wildcards it has passed, [Foreach] gives the
    patterns back.

    [Has] is proved equal to matching every key in turn, and from this equal to
    [Search] of the domain trie, for patterns without bytes below the star; with such
    bytes the two are shown to differ.  Nil pointers are [None]; a nil callback is
    one without effect. *)

From Stdlib Require Import Ascii.
From stdpp Require Import sorting.
From S2P Require Import Prelude Wire GoStrings Runes DomainTrie Louds.

Definition complexWildcardByte : Z := 43.
Definition wildcardByte : Z := 42.
Definition domainStepByte : Z := 46.

(** ** The builder *)

Record DomainSetBuilder := mkBuilder { keys : list (list Z) }.

Definition newBuilder : DomainSetBuilder := mkBuilder [].

Definition builder_insert (b : DomainSetBuilder) (parts : list string) :
    outcome DomainSetBuilder :=
  match parts with
  | [] => Panic "index out of range"
  | p :: ps =>
    let p := if bool_decide (p = dotWildcard) then complexWildcard else p in
    Ret (mkBuilder (keys b ++ [sbytes (Reverse (joinDomain (p :: ps)))]))
  end.

Definition builder_Insert (b : DomainSetBuilder) (domain : string) :
    outcome (domainError + DomainSetBuilder) :=
  match ValidAndSplitDomain domain with
  | inl e => Ret (inl e)
  | inr parts =>
    p ← idx parts 0;
    if bool_decide (p = complexWildcard) then
      ps ← slice parts 1 (len parts);
      b ← builder_insert b ps;
      b ← builder_insert b parts;
      Ret (inr b)
    else
      b ← builder_insert b parts;
      Ret (inr b)
  end.

Definition builder_IsEmpty (b : option DomainSetBuilder) : bool :=
  match b with
  | None => true
  | Some b => bool_decide (len (keys b) = 0)
  end.

Definition builder_Reset (b : DomainSetBuilder) : DomainSetBuilder := mkBuilder [].

Section set.
Context {lib : BitmapLib}.

(** The set and the builder after it. *)
Definition Build (b : option DomainSetBuilder) :
    outcome (option DomainSet * option DomainSetBuilder) :=
  match b with
  | None => Ret (None, None)
  | Some b =>
    let ks := keys b in
    let b := mkBuilder [] in
    '(ss, _) ← buildDomainSet None ks tt;
    Ret (ss, Some b)
  end.

(** The callback that [NewDomainSet] passes to [Foreach]. *)
Definition collect_key {T} (domain : string) (_ : T) (acc : outcome (list (list Z))) :
    bool * outcome (list (list Z)) :=
  (true,
   ks ← acc;
   c ← idx (sbytes domain) 0;
   let domain := if c =? domainStepByte then complexWildcard +:+ domain else domain in
   Ret (ks ++ [sbytes (Reverse domain)])).

Definition NewDomainSet {T} (t : @DomainTrie T) : outcome (option DomainSet) :=
  ks ← Foreach collect_key t (Ret []);
  '(ss, _) ← buildDomainSet None ks tt;
  Ret ss.

(** ** Queries *)

(** The [i]-th byte from the end, in lower case. *)
Definition revLowerAt (key : list Z) (i : Z) : outcome Z :=
  c ← idx key (len key - 1 - i);
  Ret (if (65 <=? c) && (c <=? 90) then u8 (c + (97 - 65)) else c).

Definition byteReverse (s : string) : string := of_bytes (reverse (sbytes s)).

(** The key that is walked: itself when it is ASCII. *)
Definition normalize (key : string) : string :=
  if existsb (λ c, RuneSelf <=? c) (sbytes key) then byteReverse (ToLower (Reverse key)) else key.

Record wildcardCursor := mkCursor { c_bmIdx : Z; c_index : Z }.

(** What a walk does after the edges of a node: return, restart somewhere else, or
    go on below an edge. *)
Inductive walk : Type :=
| WReturn (b : bool)
| WGoto (nodeId bmIdx i : Z) (stack : list wildcardCursor)
| WBreak (bmIdx : Z) (stack : list wildcardCursor).

(** The first dot of the key from position [j] on. *)
Fixpoint next_step (fuel : nat) (key : list Z) (j : Z) : outcome Z :=
  match fuel with
  | O => OutOfFuel
  | S fuel =>
    if j <? len key then
      c ← revLowerAt key j;
      if c =? domainStepByte then Ret j else next_step fuel key (j + 1)
    else Ret j
  end.

(** The edge with a dot among those of a node. *)
Fixpoint step_edge (fuel : nat) (ss : DomainSet) (nodeId bmIdx : Z) : outcome (option Z) :=
  match fuel with
  | O => OutOfFuel
  | S fuel =>
    b ← bitSet (labelBitmap ss) bmIdx;
    if (b : bool) then Ret None
    else
      l ← idx (labels ss) (bmIdx - nodeId);
      if l =? domainStepByte then Ret (Some bmIdx) else step_edge fuel ss nodeId (bmIdx + 1)
  end.

(** The bits of the bitmap bound the edges of a node. *)
Definition bits_fuel (ss : DomainSet) : nat := S (64 * length (labelBitmap ss)).

(** Back to the wildcards that were passed, the last one first. *)
Fixpoint back_wildcard (ss : DomainSet) (key : list Z) (stack : list wildcardCursor) : outcome walk :=
  match stack with
  | [] => Ret (WReturn false)
  | cursor :: stack =>
    let nextNodeId := countZeros (labelBitmap ss) (ranks ss) (c_bmIdx cursor + 1) in
    j ← next_step (S (length key)) key (c_index cursor);
    if j =? len key then
      leaf ← bitSet (leaves ss) nextNodeId;
      if (leaf : bool) then Ret (WReturn true) else back_wildcard ss key stack
    else
      let nextBmIdx :=
        selectIthOne (labelBitmap ss) (ranks ss) (selects ss) (nextNodeId - 1) + 1 in
      e ← step_edge (bits_fuel ss) ss nextNodeId nextBmIdx;
      match e with
      | Some nextBmIdx => Ret (WGoto nextNodeId nextBmIdx j stack)
      | None => back_wildcard ss key stack
      end
  end.

(** The edges of a node from [bmIdx] on. *)
Fixpoint scan (fuel : nat) (ss : DomainSet) (key : list Z) (c nodeId i bmIdx : Z)
    (stack : list wildcardCursor) : outcome walk :=
  match fuel with
  | O => OutOfFuel
  | S fuel =>
    b ← bitSet (labelBitmap ss) bmIdx;
    if (b : bool) then back_wildcard ss key stack
    else
      l ← idx (labels ss) (bmIdx - nodeId);
      if l =? complexWildcardByte then Ret (WReturn true)
      else if l =? wildcardByte then
        scan fuel ss key c nodeId i (bmIdx + 1) (mkCursor bmIdx i :: stack)
      else if l =? c then Ret (WBreak bmIdx stack)
      else scan fuel ss key c nodeId i (bmIdx + 1) stack
  end.

(** What follows the scan of node [nodeId]; [restart] is the walk from RESTART on. *)
Definition after_scan (restart : Z → Z → Z → list wildcardCursor → outcome bool)
    (ss : DomainSet) (key : list Z) (nodeId i : Z) (w : walk) : outcome bool :=
  match w with
  | WReturn b => Ret b
  | WGoto nodeId bmIdx i stack => restart nodeId bmIdx i stack
  | WBreak bmIdx stack =>
    let nodeId := bmIdx - nodeId + 1 in
    if i =? len key - 1 then
      leaf ← bitSet (leaves ss) nodeId;
      if (leaf : bool) then Ret true
      else
        match stack with
        | [] => Ret false
        | _ =>
          let bmIdx := selectIthOne (labelBitmap ss) (ranks ss) (selects ss) nodeId in
          restart nodeId bmIdx i stack
        end
    else
      let bmIdx := selectIthOne (labelBitmap ss) (ranks ss) (selects ss) (nodeId - 1) + 1 in
      let i := i + 1 in
      if i <? len key then restart nodeId bmIdx i stack
      else bitSet (leaves ss) nodeId
  end.

(** The walk from the label RESTART on. *)
Fixpoint Has_loop (fuel : nat) (ss : DomainSet) (key : list Z) (nodeId bmIdx i : Z)
    (stack : list wildcardCursor) : outcome bool :=
  match fuel with
  | O => OutOfFuel
  | S fuel =>
    c ← revLowerAt key i;
    w ← scan (bits_fuel ss) ss key c nodeId i bmIdx stack;
    after_scan (Has_loop fuel ss key) ss key nodeId i w
  end.

(** [Has]; an edge is walked once and a wildcard is taken back once. *)
Definition Has (ss : option DomainSet) (key : string) : outcome bool :=
  match ss with
  | None => Ret false
  | Some ss =>
    let key := sbytes (normalize key) in
    if 0 <? len key then Has_loop (2 + 2 * length (labels ss)) ss key 0 0 0 []
    else bitSet (leaves ss) 0
  end.

Definition MatchDomain (ss : option DomainSet) (domain : string) : outcome bool := Has ss domain.

(** ** Iteration *)

(** [keys] and its closure [traverse], with a callback that has a state: the result
    of the closure, the current key and the state. *)
Section keys.
Context {S : Type} (f : list Z → Z → S → outcome (bool * S)).

Fixpoint traverse (fuel : nat) (ss : DomainSet) (nodeId bmIdx : Z) (currentKey : list Z) (s : S) :
    outcome (bool * S) :=
  match fuel with
  | O => OutOfFuel
  | Datatypes.S fuel =>
    leaf ← bitSet (leaves ss) nodeId;
    '(go, s) ← (if (leaf : bool) then f currentKey nodeId s else Ret (true, s));
    if negb go then Ret (false, s)
    else
      (fix edges_from (n : nat) (bmIdx : Z) (s : S) : outcome (bool * S) :=
        match n with
        | O => OutOfFuel
        | Datatypes.S n =>
          b ← bitSet (labelBitmap ss) bmIdx;
          if (b : bool) then Ret (true, s)
          else
            nextLabel ← idx (labels ss) (bmIdx - nodeId);
            let nextNodeId := bmIdx - nodeId + 1 in
            let nextBmIdx :=
              selectIthOne (labelBitmap ss) (ranks ss) (selects ss) (nextNodeId - 1) + 1 in
            '(go, s) ← traverse fuel ss nextNodeId nextBmIdx (currentKey ++ [nextLabel]) s;
            if negb go then Ret (false, s) else edges_from n (bmIdx + 1) s
        end) (bits_fuel ss) bmIdx s
  end.

(** A node for every byte of a key. *)
Definition keys_of (ss : DomainSet) (s : S) : outcome S :=
  '(_, s) ← traverse (2 + length (labels ss)) ss 0 0 [] s;
  Ret s.
End keys.

(** [strings.TrimSuffix(key, complexWildcard)]. *)
Definition TrimPlus (key : list Z) : list Z :=
  match reverse key with
  | c :: r => if c =? complexWildcardByte then reverse r else key
  | [] => key
  end.

(** [Foreach]; a nil set is dereferenced. *)
Definition set_Foreach {S} (f : string → S → bool * S) (ss : option DomainSet) (s : S) : outcome S :=
  match ss with
  | None => Panic "invalid memory address or nil pointer dereference"
  | Some ss => keys_of (λ key _ s, Ret (f (of_bytes (reverse_runes (TrimPlus key))) s)) ss s
  end.
End set.

(** ** What a key matches *)

Definition lower (c : Z) : Z := if (65 <=? c) && (c <=? 90) then u8 (c + (97 - 65)) else c.

(** The bytes of a query in the order of the walk. *)
Definition walked (key : list Z) : list Z := lower <$> reverse key.

Fixpoint to_step (w : list Z) : list Z :=
  match w with
  | [] => []
  | x :: w' => if x =? domainStepByte then w else to_step w'
  end.

(** Key [p] matches the bytes [w]: a plus stands for one or more bytes, a star for the
    bytes up to the next dot. *)
Fixpoint bmatch (p w : list Z) {struct p} : bool :=
  match p with
  | [] => match w with [] => true | _ => false end
  | c :: p' =>
    match w with
    | [] => false
    | x :: w' =>
      if c =? complexWildcardByte then true
      else if c =? wildcardByte then
        match to_step w with
        | [] => match p' with [] => true | _ => false end
        | _ :: w'' =>
          match p' with
          | d :: p'' => (d =? domainStepByte) && bmatch p'' w''
          | [] => false
          end
        end
      else (c =? x) && bmatch p' w'
    end
  end.

(** Some key of a language matches. *)
Definition hit (K : lang) (w : list Z) : bool := existsb (λ k, bmatch k w) K.

(** A star among the first bytes of a language matches. *)
Definition star (K : lang) (w : list Z) : bool :=
  match to_step w with
  | [] => has_nil (deriv wildcardByte K)
  | _ :: w'' => hit (deriv domainStepByte (deriv wildcardByte K)) w''
  end.

Definition plain (c : Z) : Prop := c ≠ complexWildcardByte ∧ c ≠ wildcardByte.

Lemma hit_true K w : hit K w = true ↔ ∃ k, k ∈ K ∧ bmatch k w = true.
Proof.
  unfold hit. rewrite existsb_exists. split; intros (k & Hk & ?); exists k; (split; [|done]).
  - by apply list_elem_of_In.
  - by apply list_elem_of_In.
Qed.

Lemma has_nil_true K : has_nil K = true ↔ [] ∈ K.
Proof. apply bool_decide_eq_true. Qed.

Lemma hit_nil K : hit K [] = has_nil K.
Proof.
  apply eq_true_iff_eq. rewrite hit_true, has_nil_true. split; [|intros ?; by exists []].
  intros ([|c k] & Hk & ?); done.
Qed.

Lemma star_true K w :
  star K w = true ↔
    ∃ p, wildcardByte :: p ∈ K ∧
      match to_step w with
      | [] => p = []
      | _ :: w'' => ∃ p'', p = domainStepByte :: p'' ∧ bmatch p'' w'' = true
      end.
Proof.
  unfold star. destruct (to_step w) as [|d w''].
  - rewrite has_nil_true, elem_deriv. split; [intros ?; by exists []|by intros (p & ? & ->)].
  - rewrite hit_true. setoid_rewrite elem_deriv. setoid_rewrite elem_deriv. naive_solver.
Qed.

(** Matching one byte. *)
Lemma hit_cons K x w :
  hit K (x :: w) =
    bool_decide (complexWildcardByte ∈ firsts K) || star K (x :: w) ||
    (bool_decide (plain x) && hit (deriv x K) w).
Proof.
  apply eq_true_iff_eq. rewrite !orb_true_iff, andb_true_iff, !bool_decide_eq_true, hit_true,
    star_true, elem_firsts, hit_true. split.
  - intros ([|c k] & Hk & Hm); [done|]. cbn [bmatch] in Hm.
    destruct (Z.eqb_spec c complexWildcardByte) as [->|H1]; [left; left; by exists k|].
    destruct (Z.eqb_spec c wildcardByte) as [->|H2].
    + left. right. exists k. split; [done|]. destruct (to_step (x :: w)); [by destruct k|].
      destruct k as [|d k]; [done|]. apply andb_true_iff in Hm as [->%Z.eqb_eq ?]. by exists k.
    + right. apply andb_true_iff in Hm as [->%Z.eqb_eq ?]. split; [done|].
      exists k. by rewrite elem_deriv.
  - intros [[(k & Hk)|(p & Hp & Hm)]|[[H1 H2] (k & Hk%elem_deriv & Hm)]].
    + by exists (complexWildcardByte :: k).
    + exists (wildcardByte :: p). split; [done|]. cbn [bmatch].
      change (wildcardByte =? complexWildcardByte) with false. rewrite Z.eqb_refl. cbv iota.
      destruct (to_step (x :: w)); [by rewrite Hm|]. destruct Hm as (p'' & -> & Hm).
      by rewrite Z.eqb_refl, Hm.
    + exists (x :: k). split; [done|]. cbn [bmatch].
      rewrite (proj2 (Z.eqb_neq _ _) H1), (proj2 (Z.eqb_neq _ _) H2), Z.eqb_refl. done.
Qed.

(** ** The walk *)

Lemma walked_length key : length (walked key) = length key.
Proof. unfold walked. by rewrite length_fmap, length_reverse. Qed.

Lemma revLowerAt_walked key i :
  0 ≤ i < len key → ∃ c, revLowerAt key i = Ret c ∧ walked key !! Z.to_nat i = Some c.
Proof.
  intros Hi. unfold revLowerAt. destruct (idx_total key (len key - 1 - i)) as (c & -> & Hc); [lia|].
  run. fold (lower c). exists (lower c). split; [done|]. unfold walked.
  rewrite list_lookup_fmap, reverse_lookup by lia.
  replace (length key - S (Z.to_nat i))%nat with (Z.to_nat (len key - 1 - i)) by lia. by rewrite Hc.
Qed.

Lemma next_step_ok fuel key j :
  (j ≤ length key)%nat → (length key - j < fuel)%nat →
  ∃ j', next_step fuel key (Z.of_nat j) = Ret (Z.of_nat j') ∧ (j ≤ j' ≤ length key)%nat ∧
    to_step (drop j (walked key)) = drop j' (walked key) ∧
    (∀ x, walked key !! j' = Some x → x = domainStepByte).
Proof.
  revert j. induction fuel as [|fuel IH]; intros j Hj Hf; [lia|]. simpl.
  pose proof (walked_length key) as Hl. destruct (Z.ltb_spec (Z.of_nat j) (len key)).
  - destruct (revLowerAt_walked key (Z.of_nat j)) as (c & -> & Hc); [lia|]. run.
    rewrite Nat2Z.id in Hc. rewrite (drop_S _ _ _ Hc). simpl.
    destruct (Z.eqb_spec c domainStepByte) as [->|Hne].
    + exists j. split_and!; [done|lia|lia| |].
      * by rewrite (drop_S _ _ _ Hc).
      * rewrite Hc. by intros x [= <-].
    + destruct (IH (S j)) as (j' & Hj' & Hr & Ht & Hx); [lia|lia|].
      exists j'. replace (Z.of_nat j + 1) with (Z.of_nat (S j)) by lia. split_and!; [done|lia|lia|done|done].
  - exists j. split_and!; [done|lia|lia| |].
    + by rewrite drop_ge by lia.
    + intros x Hx%lookup_lt_Some. lia.
Qed.

(** The scan of the labels [ls] from position [pos] on: how it ends, or the stack with
    which it goes back. *)
Fixpoint scan_labels (c i : Z) (ls : list Z) (pos : Z) (stack : list wildcardCursor) :
    walk + list wildcardCursor :=
  match ls with
  | [] => inr stack
  | l :: ls =>
    if l =? complexWildcardByte then inl (WReturn true)
    else if l =? wildcardByte then scan_labels c i ls (pos + 1) (mkCursor pos i :: stack)
    else if l =? c then inl (WBreak pos stack)
    else scan_labels c i ls (pos + 1) stack
  end.

(** Labels above the plus: the edge with the byte, or none. *)
Lemma scan_labels_plain c i ls pos stack :
  Forall (λ l, complexWildcardByte < l) ls →
  (∃ t, ls !! t = Some c ∧ scan_labels c i ls pos stack = inl (WBreak (pos + Z.of_nat t) stack)) ∨
  (c ∉ ls) ∧ scan_labels c i ls pos stack = inr stack.
Proof.
  intros Hls. revert pos.
  induction Hls as [|l ls Hl _ IH]; intros pos; simpl.
  - right. set_solver.
  - unfold complexWildcardByte, wildcardByte in *.
    rewrite (proj2 (Z.eqb_neq l 43)), (proj2 (Z.eqb_neq l 42)) by lia.
    destruct (Z.eqb_spec l c) as [->|Hne].
    + left. exists 0%nat. by rewrite Z.add_0_r.
    + destruct (IH (pos + 1)) as [(t & Ht & ->)|[Hn ->]]; [left|right; set_solver].
      exists (S t). split; [done|]. do 2 f_equal. lia.
Qed.

(** The labels of a node without bytes below the star, in order: a star is met first,
    then a plus. *)
Lemma scan_labels_ok c i ls stack pos :
  StronglySorted Z.lt ls → Forall (λ l, wildcardByte ≤ l) ls →
  if bool_decide (complexWildcardByte ∈ ls) then scan_labels c i ls pos stack = inl (WReturn true)
  else
    let stack' := if bool_decide (wildcardByte ∈ ls) then mkCursor pos i :: stack else stack in
    (wildcardByte ∈ ls → ls !! 0%nat = Some wildcardByte) ∧
    ((∃ t, plain c ∧ ls !! t = Some c ∧ scan_labels c i ls pos stack = inl (WBreak (pos + Z.of_nat t) stack')) ∨
     ¬ (plain c ∧ c ∈ ls) ∧ scan_labels c i ls pos stack = inr stack').
Proof.
  unfold wildcardByte, complexWildcardByte, plain. intros Hs Hge.
  assert (∀ ls pos stack, StronglySorted Z.lt ls → Forall (λ l, 43 ≤ l) ls →
    if bool_decide (43 ∈ ls) then scan_labels c i ls pos stack = inl (WReturn true)
    else (∃ t, ls !! t = Some c ∧ scan_labels c i ls pos stack = inl (WBreak (pos + Z.of_nat t) stack)) ∨
     (c ∉ ls) ∧ scan_labels c i ls pos stack = inr stack) as Hplus.
  { clear. intros ls pos stack Hs Hge. case_bool_decide as Hp.
    - destruct Hs as [|l ls Hs Hl]; [set_solver|]. rewrite Forall_forall in Hl.
      apply elem_of_cons in Hp as [<-|Hp]; [done|]. apply Forall_cons in Hge as [? _].
      specialize (Hl 43 Hp). lia.
    - apply scan_labels_plain. apply Forall_forall. intros l Hl. unfold complexWildcardByte.
      rewrite Forall_forall in Hge. specialize (Hge l Hl). assert (l ≠ 43) by (by intros ->). lia. }
  destruct Hs as [|l ls Hs Hl].
  { cbn. split; [set_solver|]. right. set_solver. }
  apply Forall_cons in Hge as [Hge0 Hge]. rewrite Forall_forall in Hl.
  destruct (decide (l = 42)) as [->|Hne].
  - assert (Forall (λ l, 43 ≤ l) ls) as Hge'.
    { apply Forall_forall. intros x Hx. specialize (Hl x Hx). lia. }
    specialize (Hplus ls (pos + 1) (mkCursor pos i :: stack) Hs Hge').
    cbn [scan_labels]. change (42 =? complexWildcardByte) with false.
    change (42 =? wildcardByte) with true. cbv iota.
    rewrite (bool_decide_ext (43 ∈ 42 :: ls) (43 ∈ ls)) by set_solver.
    case_bool_decide as Hp; [done|]. rewrite bool_decide_true by set_solver. split; [done|].
    destruct Hplus as [(t & Ht & ->)|[Hn ->]].
    + left. exists (S t). assert (43 ≠ c) by (intros <-; by apply Hp, (list_elem_of_lookup_2 _ t)).
      assert (c ≠ 42) by (intros ->; apply list_elem_of_lookup_2, Hl in Ht; lia).
      split_and!; [done|done|done|]. do 2 f_equal. lia.
    + right. split; [|done]. intros [[_ ?] Hc]. set_solver.
  - assert (Forall (λ l, 43 ≤ l) (l :: ls)) as Hge'.
    { constructor; [lia|]. apply Forall_forall. intros x Hx. specialize (Hl x Hx). lia. }
    specialize (Hplus (l :: ls) pos stack ltac:(constructor; [done|by apply Forall_forall]) Hge').
    case_bool_decide as Hp; [done|]. rewrite bool_decide_false.
    2:{ intros [?|Hin]%elem_of_cons; [done|]. specialize (Hl 42 Hin). lia. }
    split.
    { intros [?|Hin]%elem_of_cons; [done|]. specialize (Hl 42 Hin). lia. }
    destruct Hplus as [(t & Ht & ->)|[Hn ->]].
    + left. exists t. assert (c ∈ l :: ls) as Hc by (by eapply list_elem_of_lookup_2).
      split_and!; [by intros -> | |done|done]. intros ->.
      apply elem_of_cons in Hc as [?|Hc]; [done|]. specialize (Hl 42 Hc). lia.
    + right. split; [|done]. tauto.
Qed.
Lemma firsts_cost K c : c ∈ firsts K → (S (edge_count (deriv c K)) ≤ edge_count K)%nat.
Proof.
  intros Hc. rewrite (edge_count_eq K).
  induction (firsts K) as [|x l IH]; [set_solver|]. csimpl. apply elem_of_cons in Hc as [<-|Hc]; [lia|].
  specialize (IH Hc). lia.
Qed.

Lemma firsts_cost2 K c d :
  c ∈ firsts K → d ∈ firsts K → c ≠ d →
  (S (edge_count (deriv c K)) + S (edge_count (deriv d K)) ≤ edge_count K)%nat.
Proof.
  intros Hc Hd Hne. rewrite (edge_count_eq K).
  set (f := λ c, S (edge_count (deriv c K))).
  change (f c + f d ≤ sum_list (f <$> firsts K))%nat. clearbody f.
  assert (∀ x l, x ∈ l → (f x ≤ sum_list (f <$> l))%nat) as Hone.
  { induction l as [|y l IH]; intros Hx; [set_solver|]. csimpl.
    apply elem_of_cons in Hx as [<-|Hx]; [lia|]. specialize (IH Hx). lia. }
  induction (firsts K) as [|x l IH]; [set_solver|]. csimpl.
  apply elem_of_cons in Hc as [<-|Hc]; apply elem_of_cons in Hd as [<-|Hd]; [done|..].
  - specialize (Hone d l Hd). lia.
  - specialize (Hone c l Hc). lia.
  - specialize (IH Hc Hd). lia.
Qed.

Section walk.
Context {lib : BitmapLib} {spec : BitmapSpec lib} {ss : DomainSet} {K0 : lang} {D : list tnode}.
Hypothesis Henc : encodes ss K0 D.
Hypothesis Hsmall : 64 * len (labelBitmap ss) < 2 ^ 31.

(** An edge found by its byte. *)
Lemma firsts_bits n pre K : D !! n = Some (pre, K) → (length (firsts K) < bits_fuel ss)%nat.
Proof using Henc.
  clear Hsmall. intros H. destruct (block_bit Henc n pre K (length (firsts K)) H) as (_ & Hr & _); [lia|].
  unfold bits_fuel. unfold start in Hr. lia.
Qed.

Lemma step_edge_ok fuel n pre K t :
  D !! n = Some (pre, K) → (t ≤ length (firsts K))%nat → (length (firsts K) - t < fuel)%nat →
  (∃ t', step_edge fuel ss (Z.of_nat n) (start D n + Z.of_nat t) =
      Ret (Some (start D n + Z.of_nat t')) ∧ firsts K !! t' = Some domainStepByte) ∨
  step_edge fuel ss (Z.of_nat n) (start D n + Z.of_nat t) = Ret None ∧
    domainStepByte ∉ drop t (firsts K).
Proof using Henc spec.
  clear Hsmall. intros H. revert t. induction fuel as [|fuel IH]; intros t Ht Hf; [lia|]. simpl.
  rewrite (bitSet_block Henc n pre K t H Ht). run. case_bool_decide as Hd.
  - right. split; [done|]. rewrite drop_ge by lia. set_solver.
  - destruct (lookup_lt_is_Some_2 (firsts K) t) as [c Hc]; [lia|].
    destruct (edge_at Henc n pre K t c H Hc) as (-> & _ & _). run.
    destruct (Z.eqb_spec c domainStepByte) as [->|Hne]; [left; by exists t|].
    replace (start D n + Z.of_nat t + 1) with (start D n + Z.of_nat (S t)) by lia.
    destruct (IH (S t)) as [?|[? Hn]]; [lia|lia|by left|right]. split; [done|].
    rewrite (drop_S _ _ _ Hc). set_solver.
Qed.

(** A cursor stands for a star edge of a node and a place in the query. *)
Definition cursor_at (key : list Z) (cur : wildcardCursor) (Ki : lang * nat) : Prop :=
  ∃ n pre t, D !! n = Some (pre, Ki.1) ∧ firsts Ki.1 !! t = Some wildcardByte ∧
    c_bmIdx cur = start D n + Z.of_nat t ∧ c_index cur = Z.of_nat Ki.2 ∧ (Ki.2 < length key)%nat.

(** What is still to be found through the cursors, and the rounds it takes. *)
Definition stack_hit (key : list Z) (L : list (lang * nat)) : bool :=
  existsb (λ '(K, i), star K (drop i (walked key))) L.
Definition round_cost (K : lang) : nat := 1 + 2 * edge_count K.
Definition stack_cost (L : list (lang * nat)) : nat :=
  sum_list ((λ Ki : lang * nat, round_cost (deriv wildcardByte Ki.1)) <$> L).

(** The three places at which a walk starts again: the edges of a node, its dot edge
    with a dot to match, and the end of its edges. *)
Inductive entry (key : list Z) : nat → Z → nat → bool → nat → Prop :=
| entry_start n pre K i :
    D !! n = Some (pre, K) →
    entry key n (start D n) i (hit K (drop i (walked key))) (round_cost K)
| entry_dot n pre K i t :
    D !! n = Some (pre, K) → firsts K !! t = Some domainStepByte →
    walked key !! i = Some domainStepByte →
    entry key n (start D n + Z.of_nat t) i
      (hit (deriv domainStepByte K) (drop (S i) (walked key))) (round_cost K)
| entry_end n pre K i :
    D !! n = Some (pre, K) →
    entry key n (start D n + len (firsts K)) i false 1.

Lemma back_wildcard_ok key stack L :
  Forall2 (cursor_at key) stack L →
  back_wildcard ss key stack = Ret (WReturn (stack_hit key L)) ∨
  ∃ n bm i stack' L' v cost,
    back_wildcard ss key stack = Ret (WGoto (Z.of_nat n) bm (Z.of_nat i) stack') ∧
    entry key n bm i v cost ∧ Forall2 (cursor_at key) stack' L' ∧ (i < length key)%nat ∧
    stack_hit key L = v || stack_hit key L' ∧ (cost + stack_cost L' ≤ stack_cost L)%nat.
Proof using Henc Hsmall spec.
  induction 1 as [|cur [K i] stack L (n & pre & t & H & Ht & Hbm & Hix & Hi) HL IH]; [by left|].
  cbn [back_wildcard]. cbn [fst snd] in *. rewrite Hbm, Hix. apply lookup_lt_Some in Ht as Htl.
  rewrite (countZeros_edge Henc Hsmall n pre K t) by done.
  destruct (edge_at Henc n pre K t _ H Ht) as (_ & Hpos & Hch).
  set (m := start D n + Z.of_nat t - Z.of_nat n + 1) in *.
  replace m with (Z.of_nat (Z.to_nat m)) by lia. set (n' := Z.to_nat m) in *.
  destruct (next_step_ok (S (length key)) key i) as (j & -> & Hj & Hstep & Hdot); [lia|lia|]. run.
  set (S1 := deriv wildcardByte K) in *.
  assert (star K (drop i (walked key)) =
    match drop j (walked key) with [] => has_nil S1 | _ :: w => hit (deriv domainStepByte S1) w end)
    as Hstar by (unfold star; by rewrite Hstep).
  change (stack_hit key ((K, i) :: L)) with (star K (drop i (walked key)) || stack_hit key L).
  change (stack_cost ((K, i) :: L)) with (round_cost S1 + stack_cost L)%nat.
  destruct (Z.eqb_spec (Z.of_nat j) (len key)) as [Hjl|Hjl].
  - destruct (bitSet_leaf Henc n' _ _ Hch) as (-> & _). run.
    rewrite (drop_ge _ j) in Hstar by (rewrite walked_length; lia). rewrite Hstar.
    destruct (has_nil S1); [by left|]. destruct IH as [IH|IH]; [by left|right].
    destruct IH as (n1 & bm1 & i1 & st1 & L1 & v & cost & ? & ? & ? & ? & ? & ?).
    exists n1, bm1, i1, st1, L1, v, cost. split_and!; try done. lia.
  - destruct (lookup_lt_is_Some_2 (walked key) j) as [x Hx]; [rewrite walked_length; lia|].
    rewrite (Hdot x Hx) in Hx. rewrite (drop_S _ _ _ Hx) in Hstar. rewrite Hstar.
    rewrite (select_start Henc Hsmall n' _ _) by (done || lia).
    pose proof (step_edge_ok (bits_fuel ss) n' _ _ 0 Hch ltac:(lia)) as Hse.
    rewrite Z.add_0_r in Hse. pose proof (firsts_bits _ _ _ Hch).
    destruct Hse as [(t' & -> & Ht')|[-> Hno]]; [lia| |]; run.
    + right. eexists n', _, j, stack, L, _, _. split_and!; [done| |done|lia|done|].
      * by eapply entry_dot.
      * lia.
    + assert (deriv domainStepByte S1 = []) as Hnil.
      { destruct (deriv domainStepByte S1) as [|k l] eqn:E; [done|]. exfalso. apply Hno.
        rewrite drop_0. apply elem_firsts. exists k. apply (elem_deriv domainStepByte S1). rewrite E. left. }
      rewrite Hnil. cbn [hit existsb orb]. destruct IH as [IH|IH]; [by left|right].
      destruct IH as (n1 & bm1 & i1 & st1 & L1 & v & cost & ? & ? & ? & ? & ? & ?).
      exists n1, bm1, i1, st1, L1, v, cost. split_and!; try done. lia.
Qed.

Lemma scan_scan_labels fuel key c i n pre K t stack :
  D !! n = Some (pre, K) → (t ≤ length (firsts K))%nat → (length (firsts K) - t < fuel)%nat →
  scan fuel ss key c (Z.of_nat n) i (start D n + Z.of_nat t) stack =
    match scan_labels c i (drop t (firsts K)) (start D n + Z.of_nat t) stack with
    | inl w => Ret w
    | inr stack => back_wildcard ss key stack
    end.
Proof using Henc spec.
  clear Hsmall. intros H. revert t stack.
  induction fuel as [|fuel IH]; intros t stack Ht Hf; [lia|]. cbn [scan].
  rewrite (bitSet_block Henc n pre K t H Ht). run. case_bool_decide as Hd.
  - by rewrite drop_ge by lia.
  - destruct (lookup_lt_is_Some_2 (firsts K) t) as [l Hl]; [lia|].
    destruct (edge_at Henc n pre K t l H Hl) as (-> & _ & _). run.
    rewrite (drop_S _ _ _ Hl). cbn [scan_labels].
    replace (start D n + Z.of_nat t + 1) with (start D n + Z.of_nat (S t)) by lia.
    destruct (l =? complexWildcardByte); [done|].
    destruct (l =? wildcardByte); [apply IH; lia|].
    destruct (l =? c); [done|]. apply IH; lia.
Qed.

(** *** The walk returns, whatever the keys *)

(** The stack after the labels of a node: a star is met at most once. *)
Definition pushed (i : Z) (ls : list Z) (pos : Z) (stack stack' : list wildcardCursor) : Prop :=
  stack' = stack ∨ ∃ t, ls !! t = Some wildcardByte ∧ stack' = mkCursor (pos + Z.of_nat t) i :: stack.

Lemma pushed_cons i l ls pos stack stack' :
  pushed i ls (pos + 1) stack stack' → pushed i (l :: ls) pos stack stack'.
Proof using Type.
  clear Henc Hsmall spec lib. intros [->|(t & Ht & ->)]; [by left|]. right. exists (S t).
  split; [done|]. do 2 f_equal. lia.
Qed.

Lemma scan_labels_any c i ls pos stack :
  NoDup ls →
  scan_labels c i ls pos stack = inl (WReturn true) ∨
  (∃ t stack', ls !! t = Some c ∧ c ≠ wildcardByte ∧ pushed i ls pos stack stack' ∧
    scan_labels c i ls pos stack = inl (WBreak (pos + Z.of_nat t) stack')) ∨
  ∃ stack', pushed i ls pos stack stack' ∧ scan_labels c i ls pos stack = inr stack'.
Proof using Type.
  clear Henc Hsmall spec lib. intros Hnd. revert pos stack.
  induction Hnd as [|l ls Hl Hnd IH]; intros pos stack; cbn [scan_labels].
  { right. right. exists stack. split; [by left|done]. }
  destruct (Z.eqb_spec l complexWildcardByte) as [->|Hp]; [by left|].
  destruct (Z.eqb_spec l wildcardByte) as [->|Hw].
  - destruct (IH (pos + 1) (mkCursor pos i :: stack)) as [->|[(t & st & Ht & Hc & Hst & ->)|(st & Hst & ->)]];
      [by left|right; left|right; right].
    + exists (S t), st. assert (st = mkCursor pos i :: stack) as ->.
      { destruct Hst as [->|(t' & Ht' & _)]; [done|]. by apply list_elem_of_lookup_2 in Ht'. }
      split_and!; [done|done| |do 2 f_equal; lia]. right. exists 0%nat. split; [done|]. do 2 f_equal. lia.
    + exists st. assert (st = mkCursor pos i :: stack) as ->.
      { destruct Hst as [->|(t' & Ht' & _)]; [done|]. by apply list_elem_of_lookup_2 in Ht'. }
      split; [|done]. right. exists 0%nat. split; [done|]. do 2 f_equal. lia.
  - destruct (Z.eqb_spec l c) as [->|Hc].
    + right. left. exists 0%nat, stack. split_and!; [done|done|by left|]. by rewrite Z.add_0_r.
    + destruct (IH (pos + 1) stack) as [->|[(t & st & Ht & Hcw & Hst & ->)|(st & Hst & ->)]];
        [by left|right; left|right; right].
      * exists (S t), st. split_and!; [done|done|by apply pushed_cons|]. do 2 f_equal. lia.
      * exists st. split; [by apply pushed_cons|done].
Qed.

Definition walk_returns (fuel : nat) : Prop :=
  ∀ key n bm i stack L v cost,
    entry key n bm i v cost → Forall2 (cursor_at key) stack L → (i < length key)%nat →
    (cost + stack_cost L ≤ fuel)%nat →
    ∃ b, Has_loop fuel ss key (Z.of_nat n) bm (Z.of_nat i) stack = Ret b.

Lemma after_back_returns fuel key n i stack L :
  walk_returns fuel → Forall2 (cursor_at key) stack L → (stack_cost L ≤ fuel)%nat →
  ∃ b, (w ← back_wildcard ss key stack; after_scan (Has_loop fuel ss key) ss key n i w) = Ret b.
Proof using Henc Hsmall spec.
  intros IH HL Hf.
  destruct (back_wildcard_ok key stack L HL) as [->|(n' & bm & i' & st & L' & v & cost & Hb)]; [by eexists|].
  destruct Hb as (-> & He & HL' & Hi & _ & Hc). run. cbn [after_scan].
  by apply (IH key n' bm i' st L' v cost); [..|lia].
Qed.

Lemma after_break_returns fuel key n pre K t c i stack L :
  walk_returns fuel → D !! n = Some (pre, K) → firsts K !! t = Some c →
  (i < length key)%nat → Forall2 (cursor_at key) stack L →
  (round_cost (deriv c K) + stack_cost L ≤ fuel)%nat →
  ∃ b, after_scan (Has_loop fuel ss key) ss key (Z.of_nat n) (Z.of_nat i)
      (WBreak (start D n + Z.of_nat t) stack) = Ret b.
Proof using Henc Hsmall spec.
  intros IH H Ht Hi HL Hf. cbn [after_scan].
  destruct (edge_at Henc n pre K t c H Ht) as (_ & Hpos & Hch).
  set (m := start D n + Z.of_nat t - Z.of_nat n + 1) in *.
  replace m with (Z.of_nat (Z.to_nat m)) by lia. set (n' := Z.to_nat m) in *.
  destruct (Z.eqb_spec (Z.of_nat i) (len key - 1)) as [Hl|Hl].
  - destruct (bitSet_leaf Henc n' _ _ Hch) as (-> & _). run. destruct (has_nil (deriv c K)); [by eexists|].
    destruct HL as [|cur Ki stack L Hcur HL]; [by eexists|]. rewrite (select_end Henc Hsmall n' _ _ Hch).
    apply (IH key n' _ i (cur :: stack) (Ki :: L) false 1%nat); [|by constructor|done|].
    + by eapply entry_end.
    + unfold round_cost in Hf. lia.
  - rewrite (select_start Henc Hsmall n' _ _) by (done || lia). rewrite (proj2 (Z.ltb_lt _ _)) by lia.
    replace (Z.of_nat i + 1) with (Z.of_nat (S i)) by lia.
    apply (IH key n' _ (S i) stack L (hit (deriv c K) (drop (S i) (walked key))) (round_cost (deriv c K)));
      [|done|lia|done]. by eapply entry_start.
Qed.

(** The cursors after the labels of a node, and the rounds that they take. *)
Lemma pushed_cursors key n pre K i stack stack' L :
  D !! n = Some (pre, K) → (i < length key)%nat → Forall2 (cursor_at key) stack L →
  pushed (Z.of_nat i) (firsts K) (start D n) stack stack' →
  ∃ L', Forall2 (cursor_at key) stack' L' ∧
    (L' = L ∨ L' = (K, i) :: L ∧ wildcardByte ∈ firsts K).
Proof using Type.
  intros H Hi HL [->|(t & Ht & ->)]; [exists L; by auto|]. exists ((K, i) :: L). split.
  - constructor; [|done]. by exists n, pre, t.
  - right. split; [done|]. by eapply list_elem_of_lookup_2.
Qed.

Lemma stack_cost_cons K i L :
  stack_cost ((K, i) :: L) = (round_cost (deriv wildcardByte K) + stack_cost L)%nat.
Proof using Type. done. Qed.

Lemma walk_returns_start fuel key n pre K i stack L :
  walk_returns fuel → D !! n = Some (pre, K) → Forall2 (cursor_at key) stack L → (i < length key)%nat →
  (round_cost K + stack_cost L ≤ S fuel)%nat →
  ∃ b, Has_loop (S fuel) ss key (Z.of_nat n) (start D n) (Z.of_nat i) stack = Ret b.
Proof using Henc Hsmall spec.
  intros IH H HL Hi Hf. cbn [Has_loop].
  destruct (revLowerAt_walked key (Z.of_nat i)) as (c & -> & Hc); [lia|]. run.
  pose proof (firsts_bits _ _ _ H) as Hb.
  pose proof (scan_scan_labels (bits_fuel ss) key c (Z.of_nat i) n pre K 0 stack H) as Hscan.
  rewrite Z.add_0_r, drop_0 in Hscan. rewrite Hscan by lia. clear Hscan.
  destruct (scan_labels_any c (Z.of_nat i) (firsts K) (start D n) stack (NoDup_firsts K))
    as [->|[(t & st & Ht & Hcw & Hst & ->)|(st & Hst & ->)]]; [by eexists|..].
  - destruct (pushed_cursors key n pre K i stack st L H Hi HL Hst) as (L' & HL' & Hcase). run.
    apply (after_break_returns fuel key n pre K t c i st L'); [done..|].
    apply list_elem_of_lookup_2 in Ht. destruct Hcase as [->|[-> Hw]].
    + pose proof (firsts_cost K c Ht). unfold round_cost in *. lia.
    + pose proof (firsts_cost2 K c wildcardByte Ht Hw Hcw). rewrite stack_cost_cons. unfold round_cost in *. lia.
  - destruct (pushed_cursors key n pre K i stack st L H Hi HL Hst) as (L' & HL' & Hcase).
    apply (after_back_returns fuel key (Z.of_nat n) (Z.of_nat i) st L'); [done..|].
    destruct Hcase as [->|[-> Hw]]; [unfold round_cost in *; lia|].
    pose proof (firsts_cost K wildcardByte Hw). rewrite stack_cost_cons. unfold round_cost in *. lia.
Qed.

Lemma walk_returns_all fuel : walk_returns fuel.
Proof using Henc Hsmall spec.
  induction fuel as [|fuel IH]; intros key n bm i stack L v cost He HL Hi Hf.
  { destruct He; unfold round_cost in Hf; lia. }
  destruct He as [n pre K i H|n pre K i t H Ht Hx|n pre K i H].
  - by apply (walk_returns_start fuel key n pre K i stack L).
  - cbn [Has_loop]. destruct (revLowerAt_walked key (Z.of_nat i)) as (c & -> & Hc); [lia|]. run.
    rewrite Nat2Z.id, Hx in Hc. injection Hc as <-. pose proof (firsts_bits _ _ _ H) as Hb.
    apply lookup_lt_Some in Ht as Htl. rewrite (scan_scan_labels _ _ _ _ n pre K t) by (done || lia).
    rewrite (drop_S _ _ _ Ht). cbn. apply (after_break_returns fuel key n pre K t domainStepByte i stack L); [done..|].
    apply list_elem_of_lookup_2, firsts_cost in Ht. unfold round_cost in *. lia.
  - cbn [Has_loop]. destruct (revLowerAt_walked key (Z.of_nat i)) as (c & -> & Hc); [lia|]. run.
    pose proof (firsts_bits _ _ _ H) as Hb.
    rewrite (scan_scan_labels _ _ _ _ n pre K (length (firsts K))) by (done || lia).
    rewrite drop_ge by lia. cbn [scan_labels]. apply (after_back_returns _ _ _ _ _ L); [done..|lia].
Qed.

Lemma Has_returns key : ∃ b, Has (Some ss) key = Ret b.
Proof using Henc Hsmall spec.
  unfold Has. set (k := sbytes (normalize key)). pose proof (root_node Henc) as Hr.
  destruct (Z.ltb_spec 0 (len k)) as [Hk|Hk].
  - pose proof (walk_returns_all (2 + 2 * length (labels ss)) k 0%nat (start D 0) 0%nat [] [] _ _
      (entry_start _ _ _ _ _ Hr) (Forall2_nil_2 _ _ _)) as Hw.
    rewrite (labels_edges Henc) in *. rewrite start_0 in Hw. change (Z.of_nat 0) with 0 in Hw.
    apply Hw; [lia|]. unfold round_cost, stack_cost. simpl. lia.
  - change 0 with (Z.of_nat 0). destruct (bitSet_leaf Henc 0 _ _ Hr) as (-> & _). by eexists.
Qed.

(** *** What it finds *)

(** No byte of a key is below the star. *)
Hypothesis Hlow : Forall (Forall (λ b, wildcardByte ≤ b)) K0.

Lemma node_low n pre K : D !! n = Some (pre, K) → Forall (λ l, wildcardByte ≤ l) (firsts K).
Proof using Henc Hlow.
  clear Hsmall. intros H. apply Forall_forall. intros c [k Hk]%elem_firsts.
  apply (node_lang Henc pre K) in Hk; [|by eapply list_elem_of_lookup_2].
  rewrite Forall_forall in Hlow. apply Hlow in Hk. apply Forall_app in Hk as [_ Hk].
  by apply Forall_cons in Hk as [? _].
Qed.

(** The walk from any of its entries finds what is below the entry or behind a cursor. *)
Definition walks_to (fuel : nat) : Prop :=
  ∀ key n bm i stack L v cost,
    entry key n bm i v cost → Forall2 (cursor_at key) stack L → (i < length key)%nat →
    (cost + stack_cost L ≤ fuel)%nat →
    Has_loop fuel ss key (Z.of_nat n) bm (Z.of_nat i) stack = Ret (v || stack_hit key L).

(** After going back. *)
Lemma after_back_ok fuel key n i stack L :
  walks_to fuel → Forall2 (cursor_at key) stack L → (stack_cost L ≤ fuel)%nat →
  (w ← back_wildcard ss key stack; after_scan (Has_loop fuel ss key) ss key n i w) =
    Ret (stack_hit key L).
Proof using Henc Hsmall spec.
  intros IH HL Hf.
  destruct (back_wildcard_ok key stack L HL) as [->|(n' & bm & i' & st & L' & v & cost & Hb)]; [done|].
  destruct Hb as (-> & He & HL' & Hi & -> & Hc). run. cbn [after_scan].
  by apply (IH key n' bm i' st L' v cost); [..|lia].
Qed.

(** After an edge with the byte of the query. *)
Lemma after_break_ok fuel key n pre K t c i stack L :
  walks_to fuel → D !! n = Some (pre, K) → firsts K !! t = Some c →
  (i < length key)%nat → Forall2 (cursor_at key) stack L →
  (round_cost (deriv c K) + stack_cost L ≤ fuel)%nat →
  after_scan (Has_loop fuel ss key) ss key (Z.of_nat n) (Z.of_nat i)
      (WBreak (start D n + Z.of_nat t) stack) =
    Ret (hit (deriv c K) (drop (S i) (walked key)) || stack_hit key L).
Proof using Henc Hsmall spec.
  intros IH H Ht Hi HL Hf. cbn [after_scan].
  destruct (edge_at Henc n pre K t c H Ht) as (_ & Hpos & Hch).
  set (m := start D n + Z.of_nat t - Z.of_nat n + 1) in *.
  replace m with (Z.of_nat (Z.to_nat m)) by lia. set (n' := Z.to_nat m) in *.
  pose proof (walked_length key) as Hwl.
  destruct (Z.eqb_spec (Z.of_nat i) (len key - 1)) as [Hl|Hl].
  - destruct (bitSet_leaf Henc n' _ _ Hch) as (-> & _). run.
    rewrite drop_ge, hit_nil by lia. destruct (has_nil (deriv c K)); [done|].
    destruct HL as [|cur Ki stack L Hcur HL]; [done|].
    rewrite (select_end Henc Hsmall n' _ _ Hch).
    apply (IH key n' _ i (cur :: stack) (Ki :: L) false 1%nat); [|by constructor|done|].
    + by eapply entry_end.
    + unfold round_cost in Hf. lia.
  - rewrite (select_start Henc Hsmall n' _ _) by (done || lia).
    rewrite (proj2 (Z.ltb_lt _ _)) by lia.
    replace (Z.of_nat i + 1) with (Z.of_nat (S i)) by lia.
    apply (IH key n' _ (S i) stack L _ (round_cost (deriv c K))); [|done|lia|done].
    by eapply entry_start.
Qed.

Lemma Has_loop_start fuel key n pre K i stack L :
  walks_to fuel → D !! n = Some (pre, K) → Forall2 (cursor_at key) stack L → (i < length key)%nat →
  (round_cost K + stack_cost L ≤ S fuel)%nat →
  Has_loop (S fuel) ss key (Z.of_nat n) (start D n) (Z.of_nat i) stack =
    Ret (hit K (drop i (walked key)) || stack_hit key L).
Proof using Henc Hsmall Hlow spec.
  intros IH H HL Hi Hf. cbn [Has_loop].
  destruct (revLowerAt_walked key (Z.of_nat i)) as (c & -> & Hc); [lia|]. run. rewrite Nat2Z.id in Hc.
  pose proof (firsts_bits _ _ _ H) as Hb.
  replace (start D n) with (start D n + Z.of_nat 0) at 1 by lia.
  rewrite (scan_scan_labels (bits_fuel ss) key c (Z.of_nat i) n pre K 0 stack H) by lia.
  rewrite drop_0, Z.add_0_r. rewrite (drop_S _ _ _ Hc), hit_cons.
  destruct (node_good Henc _ _ _ H) as [Hs _].
  pose proof (scan_labels_ok c (Z.of_nat i) (firsts K) stack (start D n) (sorted_firsts _ Hs)
    (node_low _ _ _ H)) as Hscan.
  case_bool_decide as Hplus; [by rewrite Hscan|]. cbn [orb]. destruct Hscan as [Hfirst Hscan].
  set (L' := if bool_decide (wildcardByte ∈ firsts K) then (K, i) :: L else L).
  set (stack' := if bool_decide _ then _ else stack) in *.
  assert (Forall2 (cursor_at key) stack' L') as HL'.
  { unfold stack', L'. case_bool_decide as Hst; [|done]. constructor; [|done].
    exists n, pre, 0%nat. split_and!; try done; [by apply Hfirst|simpl; lia]. }
  assert (star K (c :: drop (S i) (walked key)) || stack_hit key L = stack_hit key L') as Hst.
  { unfold L'. case_bool_decide as Hst; [by rewrite <- (drop_S _ _ _ Hc)|].
    replace (star K _) with false; [done|]. symmetry. apply not_true_iff_false.
    rewrite star_true. intros (p & Hp & _). apply Hst. apply elem_firsts. by exists p. }
  assert (stack_cost L' = if bool_decide (wildcardByte ∈ firsts K)
    then round_cost (deriv wildcardByte K) + stack_cost L else stack_cost L)%nat as HcL.
  { unfold L'. by case_bool_decide. }
  destruct Hscan as [(t & Hp & Ht & ->)|[Hn ->]].
  - run. rewrite (after_break_ok fuel key n pre K t c i stack' L'); [|done..|].
    + rewrite bool_decide_true by done. cbn [andb]. rewrite <- Hst. f_equal.
      by destruct (star _ _), (hit _ _), (stack_hit _ _).
    + rewrite HcL. apply list_elem_of_lookup_2 in Ht. unfold round_cost in *.
      case_bool_decide as Hw; [|pose proof (firsts_cost K c Ht); lia].
      pose proof (firsts_cost2 K c wildcardByte Ht Hw (proj2 Hp)). lia.
  - rewrite (after_back_ok fuel key (Z.of_nat n) (Z.of_nat i) stack' L'); [|done..|].
    + rewrite <- Hst. f_equal. replace (_ && hit _ _) with false; [by rewrite orb_false_r|].
      symmetry. apply andb_false_iff. rewrite bool_decide_eq_false.
      destruct (decide (plain c)); [right|by left]. apply not_true_iff_false.
      rewrite hit_true. intros (k & Hk%elem_deriv & _). apply Hn. split; [done|].
      apply elem_firsts. by exists k.
    + rewrite HcL. unfold round_cost in *. case_bool_decide as Hw; [|lia].
      pose proof (firsts_cost K wildcardByte Hw). lia.
Qed.

Lemma walks_to_all fuel : walks_to fuel.
Proof using Henc Hsmall Hlow spec.
  induction fuel as [|fuel IH]; intros key n bm i stack L v cost He HL Hi Hf.
  { destruct He; unfold round_cost in Hf; lia. }
  destruct He as [n pre K i H|n pre K i t H Ht Hx|n pre K i H].
  - by apply (Has_loop_start fuel key n pre K i stack L).
  - cbn [Has_loop]. destruct (revLowerAt_walked key (Z.of_nat i)) as (c & -> & Hc); [lia|]. run.
    rewrite Nat2Z.id, Hx in Hc. injection Hc as <-. pose proof (firsts_bits _ _ _ H) as Hb.
    apply lookup_lt_Some in Ht as Htl. rewrite (scan_scan_labels _ _ _ _ n pre K t) by (done || lia).
    rewrite (drop_S _ _ _ Ht). cbn. apply (after_break_ok fuel key n pre K t); [done..|].
    apply list_elem_of_lookup_2, firsts_cost in Ht. unfold round_cost in *. lia.
  - cbn [Has_loop]. destruct (revLowerAt_walked key (Z.of_nat i)) as (c & -> & Hc); [lia|]. run.
    pose proof (firsts_bits _ _ _ H) as Hb.
    rewrite (scan_scan_labels _ _ _ _ n pre K (length (firsts K))) by (done || lia).
    rewrite drop_ge by lia. cbn [scan_labels]. apply after_back_ok; [done..|lia].
Qed.

(** [Has] tells whether a key matches. *)
Lemma Has_hit key : Has (Some ss) key = Ret (hit K0 (walked (sbytes (normalize key)))).
Proof using Henc Hsmall Hlow spec.
  unfold Has. set (k := sbytes (normalize key)). pose proof (root_node Henc) as Hr.
  destruct (Z.ltb_spec 0 (len k)) as [Hk|Hk].
  - pose proof (walks_to_all (2 + 2 * length (labels ss)) k 0%nat (start D 0) 0%nat [] [] _ _
      (entry_start _ _ _ _ _ Hr) (Forall2_nil_2 _ _ _)) as Hw.
    rewrite (labels_edges Henc) in *. rewrite start_0 in Hw. change (Z.of_nat 0) with 0 in Hw. rewrite Hw; [|lia|].
    + by rewrite drop_0, orb_false_r.
    + unfold round_cost, stack_cost. simpl. lia.
  - destruct k; simpl in Hk; [|lia]. change (walked []) with (@nil Z). rewrite hit_nil.
    change 0 with (Z.of_nat 0). by destruct (bitSet_leaf Henc 0 _ _ Hr) as (-> & _).
Qed.
End walk.

(** ** Iteration *)

Lemma length_edge_count k K : k ∈ K → (length k ≤ edge_count K)%nat.
Proof.
  revert K. induction k as [|c k IH]; intros K Hk; simpl; [lia|].
  pose proof (IH (deriv c K)) as Hd. rewrite elem_deriv in Hd. specialize (Hd Hk).
  pose proof (firsts_cost K c) as Hc. rewrite elem_firsts in Hc. specialize (Hc ltac:(by exists k)). lia.
Qed.

(** The keys that start with the bytes [cs], in their order. *)
Definition under (K : lang) (cs : list Z) : lang := mjoin ((λ c, (c ::.) <$> deriv c K) <$> cs).

Lemma elem_under K cs k : k ∈ under K cs ↔ ∃ c k', k = c :: k' ∧ c ∈ cs ∧ k ∈ K.
Proof.
  unfold under. rewrite list_elem_of_join. split.
  - intros (l & Hk & (c & -> & Hc)%list_elem_of_fmap).
    apply list_elem_of_fmap in Hk as (k' & -> & Hk%elem_deriv). naive_solver.
  - intros (c & k' & -> & Hc & Hk). exists ((c ::.) <$> deriv c K). split.
    + apply list_elem_of_fmap. exists k'. by rewrite elem_deriv.
    + apply list_elem_of_fmap. by exists c.
Qed.

Lemma sorted_under K cs : sorted K → StronglySorted Z.lt cs → sorted (under K cs).
Proof.
  intros HK. induction 1 as [|c cs Hcs IH Hc]; [constructor|]. unfold under. csimpl.
  apply StronglySorted_app. split_and!; [|by apply (sorted_deriv c) in HK as Hd; clear -Hd;
    induction Hd as [|k l Hl IH Hk]; csimpl; constructor; [done|];
    apply Forall_fmap; eapply Forall_impl; [exact Hk|]; simpl; auto|done].
  intros k1 k2 (x & -> & _)%list_elem_of_fmap (d & y & -> & Hd & _)%elem_under.
  rewrite Forall_forall in Hc. left. by apply Hc.
Qed.

Lemma sorted_split K :
  sorted K → K = (if has_nil K then [[]] else []) ++ under K (firsts K).
Proof.
  intros HK. apply sorted_unique; [done| |].
  - pose proof (sorted_under K (firsts K) HK (sorted_firsts K HK)) as Hu.
    destruct (has_nil K); [|done]. simpl. constructor; [done|]. apply Forall_forall.
    by intros k (c & k' & -> & _)%elem_under.
  - intros k. rewrite elem_of_app, elem_under. pose proof (has_nil_true K) as Hn.
    destruct k as [|c k].
    + destruct (has_nil K); set_solver.
    + setoid_rewrite elem_firsts. destruct (has_nil K); set_solver.
Qed.

(** Calls on a list until one of them returns false. *)
Fixpoint visit_all {A S} (g : A → S → bool * S) (l : list A) (s : S) : bool * S :=
  match l with
  | [] => (true, s)
  | x :: l => let '(go, s) := g x s in if go then visit_all g l s else (false, s)
  end.

Lemma visit_all_app {A S} (g : A → S → bool * S) l l' s :
  visit_all g (l ++ l') s =
    let '(go, s) := visit_all g l s in if go then visit_all g l' s else (false, s).
Proof.
  revert s. induction l as [|x l IH]; intros s; simpl; [done|].
  destruct (g x s) as [[] s']; [apply IH|done].
Qed.

Section iterate.
Context {lib : BitmapLib} {spec : BitmapSpec lib} {ss : DomainSet} {K0 : lang} {D : list tnode}.
Hypothesis Henc : encodes ss K0 D.
Hypothesis Hsmall : 64 * len (labelBitmap ss) < 2 ^ 31.
Context {S : Type} (f : list Z → Z → S → outcome (bool * S)) (g : list Z → S → bool * S).
Hypothesis Hfg : ∀ n pre K s,
  D !! n = Some (pre, K) → has_nil K = true → f pre (Z.of_nat n) s = Ret (g pre s).

Lemma traverse_ok fuel n pre K s :
  D !! n = Some (pre, K) → Forall (λ k, (length k < fuel)%nat) K →
  traverse f fuel ss (Z.of_nat n) (start D n) pre s = Ret (visit_all g ((pre ++.) <$> K) s).
Proof using Henc Hsmall Hfg spec.
  revert n pre K s. induction fuel as [|fuel IH]; intros n pre K s H Hf.
  { destruct (node_good Henc _ _ _ H) as [_ Hne]. destruct K; [done|].
    apply Forall_cons in Hf as [Hf _]. lia. }
  cbn [traverse]. destruct (bitSet_leaf Henc n pre K H) as (-> & _ & _). run.
  destruct (node_good Henc _ _ _ H) as [HK _].
  set (loop := fix edges_from (n : nat) (bmIdx : Z) (s : S) : outcome (bool * S) := _).
  assert (∀ m t s, (t ≤ length (firsts K))%nat → (length (firsts K) - t < m)%nat →
    loop m (start D n + Z.of_nat t) s =
      Ret (visit_all g ((pre ++.) <$> under K (drop t (firsts K))) s)) as Hloop.
  { clear s. induction m as [|m IHm]; intros t s Ht Hm; [lia|]. cbn [loop].
    rewrite (bitSet_block Henc n pre K t H Ht). run. case_bool_decide as Hd.
    { by rewrite drop_ge by lia. }
    destruct (lookup_lt_is_Some_2 (firsts K) t) as [c Hc]; [lia|].
    destruct (edge_at Henc n pre K t c H Hc) as (-> & Hpos & Hch). run.
    set (x := start D n + Z.of_nat t - Z.of_nat n + 1) in *.
    replace x with (Z.of_nat (Z.to_nat x)) by lia. set (n' := Z.to_nat x) in *.
    rewrite (select_start Henc Hsmall n' _ _) by (done || lia).
    rewrite (IH n' _ _ s Hch).
    2:{ apply Forall_forall. intros k Hk%elem_deriv. rewrite Forall_forall in Hf.
        apply Hf in Hk. simpl in Hk. lia. }
    run. rewrite (drop_S _ _ _ Hc). unfold under. rewrite fmap_cons. simpl mjoin.
    rewrite fmap_app, visit_all_app, <- list_fmap_compose.
    rewrite (list_fmap_ext ((pre ++.) ∘ (c ::.)) ((pre ++ [c]) ++.) (deriv c K))
      by (intros; simpl; by rewrite <- app_assoc).
    destruct (visit_all g (_ <$> deriv c K) s) as [[] s']; simpl negb; cbv iota.
    - replace (start D n + Z.of_nat t + 1) with (start D n + Z.of_nat (Datatypes.S t)) by lia.
      apply IHm; lia.
    - done. }
  assert (∀ s, loop (bits_fuel ss) (start D n) s =
    Ret (visit_all g ((pre ++.) <$> under K (firsts K)) s)) as Hl.
  { intros s'. pose proof (firsts_bits Henc _ _ _ H).
    pose proof (Hloop (bits_fuel ss) 0%nat s' ltac:(lia) ltac:(lia)) as Hl.
    by rewrite Z.add_0_r, drop_0 in Hl. }
  rewrite (sorted_split K HK) at 2. rewrite fmap_app, visit_all_app.
  destruct (has_nil K) eqn:Hn.
  - rewrite (Hfg _ _ _ _ H Hn). run. simpl. rewrite app_nil_r. destruct (g pre s) as [[] s']; [|done].
    simpl. apply Hl.
  - run. simpl. apply Hl.
Qed.

(** The keys in order. *)
Lemma keys_of_ok s : keys_of f ss s = Ret (visit_all g K0 s).2.
Proof using Henc Hsmall Hfg spec.
  unfold keys_of. pose proof (root_node Henc) as Hr.
  pose proof (traverse_ok (2 + length (labels ss)) 0 [] K0 s Hr) as Ht. rewrite start_0 in Ht.
  change (Z.of_nat 0) with 0 in Ht. rewrite Ht.
  - run. rewrite (list_fmap_id K0 : (([] ++.) <$> K0) = K0). by destruct (visit_all g K0 s).
  - apply Forall_forall. intros k Hk%length_edge_count. rewrite (labels_edges Henc). lia.
Qed.
End iterate.
