(* ===== verification/SetTrie.v ===== *)
(** * The domain set and the domain trie ([component/trie])

    Patterns inserted into a [DomainSetBuilder] and into a [DomainTrie] are compared.
    The keys of the set are the paths of the trie read back to front, and a key
    matches the bytes of a query exactly when the path matches its labels.  From this
    [Has] of the set is [Search] of the trie; the set made from a trie is the one the
    builder makes; and the patterns that [Foreach] gives rebuild the set. *)

From Stdlib Require Import Ascii.
From stdpp Require Import sorting.
From S2P Require Import Prelude Wire GoStrings Runes DomainTrie Louds DomainSet.

(** ** Paths as bytes *)

Definition label_bytes (l : string) : list Z :=
  if bool_decide (l = dotWildcard) then [complexWildcardByte] else reverse (sbytes l).

Fixpoint path_bytes (q : list string) : list Z :=
  match q with
  | [] => []
  | [l] => label_bytes l
  | l :: q => label_bytes l ++ domainStepByte :: path_bytes q
  end.

Lemma path_bytes_cons l q :
  path_bytes (l :: q) = label_bytes l ++ match q with [] => [] | _ => domainStepByte :: path_bytes q end.
Proof. destruct q; [by rewrite app_nil_r|done]. Qed.

Lemma path_bytes_snoc q l :
  path_bytes (q ++ [l]) =
    match q with [] => [] | _ => path_bytes q ++ [domainStepByte] end ++ label_bytes l.
Proof.
  induction q as [|x q IH]; [done|]. cbn [app]. rewrite path_bytes_cons.
  destruct (q ++ [l]) as [|y r] eqn:E; [by destruct q|]. rewrite IH, path_bytes_cons.
  destruct q as [|z q]; [by rewrite app_nil_r, <- app_assoc|]. by rewrite <- !app_assoc.
Qed.

(** A label of a pattern: a star, or bytes without dots and wildcards. *)
Definition label_ok (l : string) : Prop :=
  l = wildcard ∨
  l ≠ "" ∧ Forall (λ b, plain b ∧ b ≠ domainStepByte) (sbytes l).

Inductive path_ok : list string → Prop :=
| po_nil : path_ok []
| po_dot : path_ok [dotWildcard]
| po_cons l q : label_ok l → path_ok q → path_ok (l :: q).

(** A label of a query. *)
Definition query_label (l : string) : Prop := l ≠ "" ∧ (domainStepByte ∉ sbytes l).

Lemma bmatch_nil_r p : bmatch p [] = true ↔ p = [].
Proof. by destruct p. Qed.

(** Bytes that are no wildcards match themselves. *)
Lemma bmatch_app u p w :
  Forall plain u → bmatch (u ++ p) w = true ↔ ∃ w', w = u ++ w' ∧ bmatch p w' = true.
Proof.
  intros Hu. revert w. induction Hu as [|c u [H1 H2] _ IH]; intros w; [simpl; naive_solver|].
  cbn [app bmatch]. destruct w as [|x w]; [naive_solver|].
  rewrite (proj2 (Z.eqb_neq _ _) H1), (proj2 (Z.eqb_neq _ _) H2), andb_true_iff, Z.eqb_eq, IH.
  naive_solver.
Qed.

Lemma bmatch_step p w :
  bmatch (domainStepByte :: p) w = true ↔ ∃ w', w = domainStepByte :: w' ∧ bmatch p w' = true.
Proof. apply (bmatch_app [domainStepByte]). by repeat constructor. Qed.

Lemma to_step_app u w :
  (domainStepByte ∉ u) → (w = [] ∨ ∃ w', w = domainStepByte :: w') → to_step (u ++ w) = w.
Proof.
  intros Hu Hw. induction u as [|x u IH]; simpl.
  - by destruct Hw as [->|[w' ->]].
  - rewrite (proj2 (Z.eqb_neq x domainStepByte)) by set_solver. apply IH. set_solver.
Qed.

(** Two lists cut at their first dot. *)
Lemma cut_inj (u v w w' : list Z) :
  (domainStepByte ∉ u) → (domainStepByte ∉ v) →
  (w = [] ∨ ∃ x, w = domainStepByte :: x) → (w' = [] ∨ ∃ x, w' = domainStepByte :: x) →
  u ++ w = v ++ w' → u = v ∧ w = w'.
Proof.
  intros Hu Hv Hw Hw' E. pose proof (to_step_app u w Hu Hw) as H1.
  rewrite E, (to_step_app v w' Hv Hw') in H1. subst. by apply app_inj_2 in E as [-> _].
Qed.

(** The rest of the bytes of a path after its first label. *)
Definition rest_bytes (q : list string) : list Z :=
  match q with [] => [] | _ => domainStepByte :: path_bytes q end.

Lemma rest_bytes_cut q : rest_bytes q = [] ∨ ∃ x, rest_bytes q = domainStepByte :: x.
Proof. destruct q; [by left|right; by eexists]. Qed.

Lemma label_bytes_ne l : label_bytes l ≠ [].
Proof.
  unfold label_bytes. case_bool_decide as H; [done|]. destruct l as [|a l]; [done|].
  simpl. rewrite reverse_cons. by destruct (reverse (sbytes l)).
Qed.

Lemma path_bytes_nil q : path_bytes q = [] ↔ q = [].
Proof.
  split; [|by intros ->]. destruct q as [|l q]; [done|]. rewrite path_bytes_cons.
  pose proof (label_bytes_ne l). by destruct (label_bytes l).
Qed.

Lemma query_label_bytes l : query_label l → label_bytes l = reverse (sbytes l) ∧ (domainStepByte ∉ label_bytes l).
Proof.
  intros [Hne Hd]. unfold label_bytes. rewrite bool_decide_false by done. split; [done|].
  by rewrite elem_of_reverse.
Qed.

(** Matching the bytes is matching the labels. *)
Lemma bmatch_pmatch q ls :
  path_ok q → Forall query_label ls → bmatch (path_bytes q) (path_bytes ls) = true ↔ pmatch q ls.
Proof.
  intros Hq. revert ls. induction Hq as [| |l q Hl Hq IH]; intros ls Hls.
  - destruct ls as [|l ls]; simpl.
    + split; [constructor|done].
    + change (bmatch [] (path_bytes (l :: ls)) = true ↔ pmatch [] (l :: ls)). cbn [bmatch].
      destruct (path_bytes (l :: ls)) eqn:E; [by apply path_bytes_nil in E|].
      split; [done|by inversion 1].
  - destruct ls as [|l ls]; [split; [done|by inversion 1]|].
    change (bmatch [complexWildcardByte] (path_bytes (l :: ls)) = true ↔ pmatch [dotWildcard] (l :: ls)).
    destruct (path_bytes (l :: ls)) eqn:E; [by apply path_bytes_nil in E|].
    split; [constructor|done].
  - destruct ls as [|m ls].
    { rewrite bmatch_nil_r, path_bytes_nil. split; [done|by inversion 1]. }
    apply Forall_cons in Hls as [Hm Hls]. destruct (query_label_bytes m Hm) as [Hmb Hmd].
    rewrite !path_bytes_cons. fold (rest_bytes q) (rest_bytes ls).
    pose proof (rest_bytes_cut ls) as Hc. destruct Hl as [->|[Hne Hl]].
    + change (label_bytes wildcard) with [wildcardByte]. cbn [app bmatch].
      pose proof (to_step_app (label_bytes m) (rest_bytes ls) Hmd Hc) as Hstep.
      destruct (label_bytes m ++ rest_bytes ls) as [|x w] eqn:E.
      { by apply app_eq_nil in E as [?%label_bytes_ne _]. }
      change (wildcardByte =? complexWildcardByte) with false. rewrite Z.eqb_refl. cbv iota.
      rewrite Hstep. clear E Hstep.
      assert (match rest_bytes ls with
        | [] => match rest_bytes q with [] => true | _ => false end
        | _ :: w'' => match rest_bytes q with
          | d :: p'' => (d =? domainStepByte) && bmatch p'' w'' | [] => false end
        end = true ↔ pmatch q ls) as ->.
      { destruct ls as [|m' ls], q as [|l' q]; cbn [rest_bytes].
        - split; [constructor|done].
        - split; [done|by inversion 1].
        - split; [done|by inversion 1].
        - rewrite Z.eqb_refl. by apply IH. }
      split; [by apply pm_star|]. by inversion 1.
    + assert (label_bytes l = reverse (sbytes l)) as Hlb
        by (unfold label_bytes; by rewrite bool_decide_false).
      assert (Forall plain (label_bytes l) ∧ (domainStepByte ∉ label_bytes l)) as [Hp Hld].
      { rewrite Hlb. split.
        - apply Forall_reverse. eapply Forall_impl; [exact Hl|]. naive_solver.
        - rewrite elem_of_reverse. intros Hx. rewrite Forall_forall in Hl. by apply Hl in Hx as [_ ?]. }
      rewrite bmatch_app by done. split.
      * intros (w' & E & Hm').
        assert (w' = [] ∨ ∃ x, w' = domainStepByte :: x) as Hw'.
        { destruct q as [|l' q]; cbn [rest_bytes] in Hm'.
          - left. by destruct w'.
          - right. apply bmatch_step in Hm' as (w'' & -> & _). by eexists. }
        apply cut_inj in E as [E <-]; [|done..]. rewrite Hmb, Hlb in E.
        apply (inj reverse), (inj sbytes) in E as <-. constructor. apply IH; [done|].
        destruct q as [|l' q], ls as [|m' ls]; cbn [rest_bytes] in Hm'; try done.
      * inversion 1 as [|l0 p0 ls0 Hpm|l0 p0 ls0 Hpm|]; subst.
        -- exists (rest_bytes ls). split; [done|].
           destruct q as [|l' q], ls as [|m' ls]; [done|by inversion Hpm|by inversion Hpm|].
           apply bmatch_step. eexists. split; [done|]. by apply IH.
        -- exfalso. apply Forall_cons in Hl as [[[_ Hx] _] _]. done.
        -- done.
Qed.

(** ** The keys of the builder *)

(** Bytes of ASCII from the star on. *)
Definition clean (d : string) : Prop := Forall (λ b, wildcardByte ≤ b < RuneSelf) (sbytes d).

Lemma byte_lower a : byte_of (lower_byte a) = lower (byte_of a).
Proof. destruct a as [[] [] [] [] [] [] [] []]; reflexivity. Qed.

Lemma sbytes_lower s : sbytes (ToLower s) = lower <$> sbytes s.
Proof. induction s as [|a s IH]; simpl; [done|]. f_equal; [apply byte_lower|exact IH]. Qed.

Lemma lower_range b : wildcardByte ≤ b < RuneSelf → wildcardByte ≤ lower b < RuneSelf.
Proof.
  unfold wildcardByte, RuneSelf, lower. intros Hb.
  destruct (Z.leb_spec 65 b), (Z.leb_spec b 90); simpl; try lia.
  rewrite wrapu_small; lia.
Qed.

Lemma clean_lower d : clean d → clean (ToLower d).
Proof.
  unfold clean. rewrite sbytes_lower, Forall_fmap. intros H. eapply Forall_impl; [exact H|].
  apply lower_range.
Qed.

Lemma clean_ascii d : clean d → ascii_only (sbytes d).
Proof. intros H. eapply Forall_impl; [exact H|]. unfold wildcardByte. simpl. lia. Qed.

Lemma clean_ascii_all ds : Forall clean ds → Forall (λ d, ascii_only (sbytes d)) ds.
Proof. intros H. eapply Forall_impl; [exact H|]. apply clean_ascii. Qed.

Lemma ascii_lower d : ascii_only (sbytes d) → ascii_only (sbytes (ToLower d)).
Proof.
  unfold ascii_only. rewrite sbytes_lower, Forall_fmap. intros H. eapply Forall_impl; [exact H|].
  unfold RuneSelf, lower. simpl. intros b Hb.
  destruct (Z.leb_spec 65 b), (Z.leb_spec b 90); simpl; try lia. rewrite wrapu_small; lia.
Qed.

Lemma has_byte_bytes a s : has_byte a s = false ↔ (byte_of a ∉ sbytes s).
Proof.
  induction s as [|b s IH]; simpl; [set_solver|]. rewrite orb_false_iff, IH.
  destruct (Ascii.eqb_spec b a) as [->|Hne]; [set_solver|].
  rewrite not_elem_of_cons. split; [|naive_solver]. intros [_ ?]. split; [|done].
  by intros ->%(inj byte_of).
Qed.

Lemma Contains_byte s a : Contains s (String a "") = has_byte a s.
Proof.
  induction s as [|b s IH]; [done|]. cbn [Contains has_byte]. rewrite IH. f_equal.
  simpl. destruct (ascii_dec a b) as [->|Hne]; [rewrite Ascii.eqb_refl; by destruct s|].
  symmetry. apply Ascii.eqb_neq. congruence.
Qed.

(** The labels of a pattern after the first one, and the first one. *)
Lemma check_wildcards_labels n i parts :
  i ≠ 0%nat → check_wildcards n i parts = None →
  Forall (λ p, p ≠ "") parts → Forall (λ p, has_byte domainStep p = false) parts →
  Forall label_ok parts.
Proof.
  revert i. induction parts as [|p parts IH]; intros i Hi Hw Hne Hd; [constructor|].
  apply Forall_cons in Hne as [Hp Hne]. apply Forall_cons in Hd as [Hpd Hd].
  cbn [check_wildcards] in Hw.
  change complexWildcard with (String "+" "") in Hw. change wildcard with (String "*" "") in Hw.
  rewrite !Contains_byte in Hw. rewrite (proj2 (Nat.eqb_neq i 0) Hi) in Hw.
  destruct (has_byte "+" p) eqn:Hplus; [by case_bool_decide|].
  destruct (has_byte "*" p) eqn:Hstar; simpl in Hw.
  - case_bool_decide as Hpw; [|done]. constructor; [by left|]. by apply (IH (S i)).
  - constructor; [|by apply (IH (S i))]. right. split; [done|]. apply Forall_forall.
    intros b Hb. rewrite has_byte_bytes in Hplus, Hstar, Hpd.
    split; [split|]; by intros ->.
Qed.

Lemma path_ok_snoc q p : Forall label_ok q → p = dotWildcard ∨ label_ok p → path_ok (q ++ [p]).
Proof.
  intros Hq Hp. induction Hq as [|l q Hl _ IH]; simpl.
  - destruct Hp as [->|Hp]; [constructor|]. constructor; [done|constructor].
  - by constructor.
Qed.

Lemma path_ok_all q : Forall label_ok q → path_ok q.
Proof. induction 1; by constructor. Qed.

Lemma Valid_labels d p ps :
  ValidAndSplitDomain d = inr (p :: ps) →
  Forall label_ok ps ∧ (p = dotWildcard ∨ p = complexWildcard ∨ label_ok p) ∧
  (p = complexWildcard ∨ p = dotWildcard → ps ≠ []) ∧
  Forall (λ l, l ≠ "") ps ∧ Forall (λ l, has_byte domainStep l = false) (p :: ps).
Proof.
  intros Hd. destruct (ValidAndSplit_cons _ _ Hd) as (? & ? & [= <- <-] & Hne).
  apply Valid_iff in Hd as (_ & _ & _ & _ & Hs & He & Hw).
  pose proof (Split_parts domainStep (ToLower d)) as Hdots. rewrite <- Hs in Hdots.
  apply Forall_cons in Hdots as Hdots'. destruct Hdots' as [Hpd Hpsd].
  cbn [check_wildcards length] in Hw.
  change complexWildcard with (String "+" "") in *. change wildcard with (String "*" "") in Hw.
  rewrite !Contains_byte in Hw.
  destruct (has_byte "+" p) eqn:Hplus.
  - case_bool_decide as Hpp; [|done]. simpl in Hw. destruct ps as [|q ps]; [done|].
    subst p. cbn in Hw. split_and!; [|right; by left|done|done|done].
    by apply (check_wildcards_labels (S (S (length ps))) 1).
  - destruct (has_byte "*" p) eqn:Hstar; simpl in Hw.
    + case_bool_decide as Hpw; [|done]. simpl in Hw. split_and!; [| |by intros [->| ->]|done|done].
      * by eapply (check_wildcards_labels _ 1).
      * right. right. by left.
    + split_and!; [| | |done|done].
      * by eapply (check_wildcards_labels _ 1).
      * destruct (decide (p = "")); [by left|]. right. right. right. split; [done|].
        apply Forall_forall. intros b Hb. rewrite has_byte_bytes in Hplus, Hstar, Hpd.
        split; [split|]; by intros ->.
      * intros [->| ->]; [done|]. intros ->. done.
Qed.

Lemma paths_ok d parts q :
  ValidAndSplitDomain d = inr parts → q ∈ paths parts → path_ok q ∧ q ≠ [].
Proof.
  intros Hd Hq. destruct (ValidAndSplit_cons _ _ Hd) as (p & ps & -> & _).
  destruct (Valid_labels _ _ _ Hd) as (Hps & Hp & Hne & _ & _). unfold paths in Hq.
  apply Forall_reverse in Hps as Hr. case_bool_decide as Hpp.
  - assert (q = reverse ps ∨ q = reverse (dotWildcard :: ps)) as [->| ->] by set_solver.
    + split; [by apply path_ok_all|]. intros Hx%(f_equal reverse).
      rewrite reverse_involutive in Hx. apply Hne; [by left|done].
    + rewrite reverse_cons. split; [apply path_ok_snoc; [done|by left]|by destruct (reverse ps)].
  - apply list_elem_of_singleton in Hq as ->. rewrite reverse_cons.
    split; [apply path_ok_snoc; [done|tauto]|by destruct (reverse ps)].
Qed.

(** The key of the labels of a pattern, the first one from the front. *)
Lemma join_path_bytes p ps :
  Forall (λ l, l ≠ "") ps →
  reverse (sbytes (joinDomain ((if bool_decide (p = dotWildcard) then complexWildcard else p) :: ps))) =
    path_bytes (reverse (p :: ps)).
Proof.
  intros Hps. revert p. induction Hps as [|q ps Hq _ IH]; intros p.
  - cbn. unfold label_bytes. by case_bool_decide.
  - rewrite (reverse_cons (q :: ps) p), path_bytes_snoc, <- IH.
    rewrite (bool_decide_false (q = dotWildcard)) by done.
    destruct (reverse (q :: ps)) as [|x r] eqn:E.
    { rewrite reverse_cons in E. by destruct (reverse ps). }
    unfold joinDomain. set (p' := if bool_decide (p = dotWildcard) then complexWildcard else p).
    change (Join domainStep (p' :: q :: ps)) with (p' +:+ String domainStep (Join domainStep (q :: ps))).
    rewrite sbytes_app. cbn [sbytes]. rewrite reverse_app, reverse_cons.
    f_equal. unfold p', label_bytes. by case_bool_decide.
Qed.

(** The keys that a pattern adds. *)
Definition pattern_keys (d : string) : list (list Z) :=
  match ValidAndSplitDomain d with
  | inl _ => []
  | inr parts => path_bytes <$> paths parts
  end.

Lemma builder_insert_ok b p ps :
  ascii_only (sbytes (joinDomain ((if bool_decide (p = dotWildcard) then complexWildcard else p) :: ps))) →
  Forall (λ l, l ≠ "") ps →
  builder_insert b (p :: ps) = Ret (mkBuilder (keys b ++ [path_bytes (reverse (p :: ps))])).
Proof.
  intros Ha Hps. unfold builder_insert. rewrite sbytes_Reverse by done. by rewrite join_path_bytes.
Qed.

Lemma builder_Insert_ok b d :
  ascii_only (sbytes d) →
  builder_Insert b d =
    Ret (match ValidAndSplitDomain d with
         | inl e => inl e
         | inr _ => inr (mkBuilder (keys b ++ pattern_keys d))
         end).
Proof.
  intros Hc. unfold builder_Insert, pattern_keys.
  destruct (ValidAndSplitDomain d) as [e|parts] eqn:Hd; [done|].
  destruct (ValidAndSplit_cons _ _ Hd) as (p & ps & -> & Hps).
  pose proof (ascii_lower _ Hc) as Ha. rewrite <- (Valid_join _ _ Hd) in Ha.
  destruct (Valid_labels _ _ _ Hd) as (_ & _ & Hne & _).
  change (idx (p :: ps) 0) with (Ret p). run. unfold paths. case_bool_decide as Hp.
  - subst p. specialize (Hne ltac:(by left)). destruct ps as [|q ps]; [done|].
    rewrite slice_Ret by (simpl; lia). run.
    replace (take _ (drop _ (complexWildcard :: q :: ps))) with (q :: ps).
    2:{ change (Z.to_nat 1) with 1%nat. simpl. rewrite take_ge; [done|]. simpl. lia. }
    apply Forall_cons in Hps as Hq. destruct Hq as [Hq Hps'].
    rewrite builder_insert_ok; [| |done].
    2:{ rewrite bool_decide_false by done. unfold joinDomain in *.
        change (Join domainStep (complexWildcard :: q :: ps)) with
          (complexWildcard +:+ String domainStep (Join domainStep (q :: ps))) in Ha.
        rewrite sbytes_app in Ha. apply Forall_app in Ha as [_ Ha]. by apply Forall_cons in Ha as [_ Ha]. }
    run. rewrite builder_insert_ok by done. run. simpl. do 3 f_equal. rewrite <- app_assoc. simpl.
    rewrite !(reverse_cons (q :: ps)), !path_bytes_snoc. done.
  - rewrite builder_insert_ok; [done| |done]. case_bool_decide as Hdot; [|done]. subst p.
    specialize (Hne ltac:(by right)). destruct ps as [|q ps]; [done|]. unfold joinDomain in *.
    change (sbytes (Join domainStep (complexWildcard :: q :: ps))) with
      (complexWildcardByte :: sbytes (Join domainStep (dotWildcard :: q :: ps))).
    constructor; [done|done].
Qed.

(** Insert patterns one after the other; the ones that are rejected change nothing. *)
Fixpoint insert_all (b : DomainSetBuilder) (ds : list string) : outcome DomainSetBuilder :=
  match ds with
  | [] => Ret b
  | d :: ds =>
    r ← builder_Insert b d;
    match r with inl _ => insert_all b ds | inr b => insert_all b ds end
  end.

Lemma insert_all_ok b ds :
  Forall (λ d, ascii_only (sbytes d)) ds → insert_all b ds = Ret (mkBuilder (keys b ++ mjoin (pattern_keys <$> ds))).
Proof.
  intros Hds. revert b. induction Hds as [|d ds Hd _ IH]; intros b; cbn [insert_all].
  - destruct b. cbn. by rewrite app_nil_r.
  - rewrite builder_Insert_ok by done. run.
    change (mjoin (pattern_keys <$> d :: ds)) with (pattern_keys d ++ mjoin (pattern_keys <$> ds)).
    destruct (ValidAndSplitDomain d) eqn:Hv; rewrite IH.
    + assert (pattern_keys d = []) as -> by (unfold pattern_keys; by rewrite Hv). done.
    + cbn [keys]. by rewrite app_assoc.
Qed.

(** Inserting returns, whatever the pattern. *)
Lemma builder_Insert_returns b d : ∃ r, builder_Insert b d = Ret r.
Proof.
  unfold builder_Insert. destruct (ValidAndSplitDomain d) as [e|parts] eqn:Hd; [by eexists|].
  destruct (ValidAndSplit_cons _ _ Hd) as (p & ps & -> & _).
  destruct (Valid_labels _ _ _ Hd) as (_ & _ & Hne & _).
  change (idx (p :: ps) 0) with (Ret p). run. case_bool_decide as Hp; [|by eexists].
  specialize (Hne ltac:(by left)). destruct ps as [|q ps]; [done|].
  rewrite slice_Ret by (simpl; lia). run.
  change (Z.to_nat 1) with 1%nat. simpl drop. rewrite take_ge by (simpl; lia). by eexists.
Qed.

Lemma insert_all_returns b ds : ∃ b', insert_all b ds = Ret b'.
Proof.
  revert b. induction ds as [|d ds IH]; intros b; cbn [insert_all]; [by eexists|].
  destruct (builder_Insert_returns b d) as [[e|b1] ->]; apply IH.
Qed.

(** A path under which some pattern is stored. *)
Definition stored (ds : list string) (q : list string) : Prop :=
  ∃ d parts, d ∈ ds ∧ ValidAndSplitDomain d = inr parts ∧ q ∈ paths parts.

Lemma elem_pattern_keys ds k :
  k ∈ mjoin (pattern_keys <$> ds) ↔ ∃ q, stored ds q ∧ k = path_bytes q.
Proof.
  rewrite list_elem_of_join. split.
  - intros (l & Hk & (d & -> & Hd)%list_elem_of_fmap). unfold pattern_keys in Hk.
    destruct (ValidAndSplitDomain d) as [|parts] eqn:Hv; [set_solver|].
    apply list_elem_of_fmap in Hk as (q & -> & Hq). exists q. split; [|done]. by exists d, parts.
  - intros (q & (d & parts & Hd & Hv & Hq) & ->). exists (pattern_keys d). split.
    + unfold pattern_keys. rewrite Hv. apply list_elem_of_fmap. by exists q.
    + apply list_elem_of_fmap. by exists d.
Qed.

Lemma getPath_stored {T} (ins : list (string * T)) q :
  is_Some (getPath (build New ins) q) ↔ stored ins.*1 q.
Proof.
  rewrite getPath_build. split.
  - intros [v Hv]. apply sem_Some in Hv as [Hv|(d & parts & Hin & Hd & Hq)].
    + by rewrite getPath_New in Hv.
    + exists d, parts. split_and!; [|done..]. apply list_elem_of_fmap. by exists (d, v).
  - intros (d & parts & Hd & Hv & Hq). apply list_elem_of_fmap in Hd as ([d' v] & -> & Hd).
    by eapply sem_elem.
Qed.

(** The bytes of a query. *)
Lemma walked_query d labels :
  ValidAndSplitDomain d = inr labels → hd "" labels ≠ "" → ascii_only (sbytes d) →
  walked (sbytes (normalize d)) = path_bytes (reverse labels) ∧ Forall query_label labels.
Proof.
  intros Hd Hh Ha. assert (normalize d = d) as ->.
  { unfold normalize. replace (existsb _ _) with false; [done|]. symmetry.
    apply not_true_iff_false. rewrite existsb_exists. intros (c & Hc & Hle).
    unfold ascii_only in Ha. rewrite Forall_forall in Ha. apply list_elem_of_In in Hc.
    specialize (Ha c Hc). lia. }
  destruct (ValidAndSplit_cons _ _ Hd) as (p & ps & -> & Hps). simpl in Hh.
  destruct (Valid_labels _ _ _ Hd) as (_ & _ & _ & _ & Hdots). split.
  - rewrite <- join_path_bytes by done. rewrite bool_decide_false by done.
    rewrite (Valid_join _ _ Hd). unfold walked. by rewrite fmap_reverse, sbytes_lower.
  - apply Forall_forall. intros l Hl. rewrite Forall_forall in Hdots, Hps. split.
    + apply elem_of_cons in Hl as [->|Hl]; [done|by apply Hps].
    + by apply (has_byte_bytes domainStep), Hdots.
Qed.

(** What a set of keys matches, in terms of labels. *)
Lemma hit_stored ds d labels K :
  (∀ k, k ∈ K ↔ ∃ q, stored ds q ∧ k = path_bytes q) →
  ValidAndSplitDomain d = inr labels → hd "" labels ≠ "" → ascii_only (sbytes d) →
  hit K (walked (sbytes (normalize d))) = true ↔ ∃ q, stored ds q ∧ pmatch q (reverse labels).
Proof.
  intros HK Hd Hh Ha. destruct (walked_query d labels Hd Hh Ha) as [-> Hq].
  assert (∀ q, stored ds q → bmatch (path_bytes q) (path_bytes (reverse labels)) = true ↔
    pmatch q (reverse labels)) as Hm.
  { intros q (d' & parts & _ & Hd' & Hin). apply bmatch_pmatch; [by eapply paths_ok|].
    by apply Forall_reverse. }
  rewrite hit_true. split.
  - intros (k & Hk & Hb). apply HK in Hk as (q & Hs & ->). exists q. split; [done|]. by apply Hm.
  - intros (q & Hs & Hp). exists (path_bytes q). split; [apply HK; by exists q|]. by apply Hm.
Qed.

Lemma Search_stored {T} (ins : list (string * T)) d labels :
  ValidAndSplitDomain d = inr labels → hd "" labels ≠ "" →
  Search (build New ins) d ≠ None ↔ ∃ q, stored ins.*1 q ∧ pmatch q (reverse labels).
Proof.
  intros Hd Hh. destruct (Search_best (build New ins) d) as [Hs Hn]. rewrite Hd in Hs.
  rewrite bool_decide_false in Hs by done. rewrite Hn, Hs. split.
  - intros Hb. destruct (best _ _) as [v|] eqn:E; [|done]. apply best_sound in E as (q & Hp & Hv).
    exists q. split; [|done]. apply getPath_stored. by rewrite Hv.
  - intros (q & Hst & Hp) Hb. apply getPath_stored in Hst.
    destruct (best_complete _ _ _ Hp Hst) as [v Hv]. congruence.
Qed.

(** ** Keys of clean patterns *)

Lemma Join_labels (P : Z → Prop) sep ps :
  Forall P (sbytes (Join sep ps)) → Forall (λ l, Forall P (sbytes l)) ps.
Proof.
  induction ps as [|p ps IH]; [constructor|]. destruct ps as [|q ps].
  - intros H. by repeat constructor.
  - change (Join sep (p :: q :: ps)) with (p +:+ String sep (Join sep (q :: ps))).
    rewrite sbytes_app, Forall_app. intros [Hp Hr]. constructor; [done|]. apply IH.
    by apply Forall_cons in Hr as [_ Hr].
Qed.

Lemma path_bytes_forall (P : Z → Prop) q :
  P domainStepByte → P complexWildcardByte → Forall (λ l, Forall P (sbytes l)) q → Forall P (path_bytes q).
Proof.
  intros Hd Hp. induction 1 as [|l q Hl _ IH]; [constructor|]. rewrite path_bytes_cons.
  apply Forall_app. split.
  - unfold label_bytes. case_bool_decide; [by repeat constructor|]. by apply Forall_reverse.
  - destruct q; [constructor|]. by constructor.
Qed.

(** The bytes of the keys are those of the patterns, dots and pluses. *)
Lemma stored_bytes (P : Z → Prop) ds q :
  P domainStepByte → P complexWildcardByte → (∀ b, P b → P (lower b)) →
  Forall (λ d, Forall P (sbytes d)) ds → stored ds q → Forall P (path_bytes q).
Proof.
  intros Hdot Hplus Hlow Hds (d & parts & Hd & Hv & Hq). rewrite Forall_forall in Hds.
  assert (Forall P (sbytes (ToLower d))) as Hc.
  { rewrite sbytes_lower. apply Forall_fmap. eapply Forall_impl; [by apply Hds|done]. }
  rewrite <- (Valid_join _ _ Hv) in Hc. apply Join_labels in Hc.
  apply path_bytes_forall; [done|done|].
  destruct (ValidAndSplit_cons _ _ Hv) as (p & ps & -> & _). unfold paths in Hq.
  apply Forall_cons in Hc as Hc'. destruct Hc' as [_ Hps].
  assert (q = reverse ps ∨ q = reverse (dotWildcard :: ps) ∨ q = reverse (p :: ps)) as Hq'.
  { case_bool_decide; set_solver. }
  destruct Hq' as [->|[->| ->]]; apply Forall_reverse; [done| |done]. by constructor; [constructor|].
Qed.

Lemma stored_clean ds q :
  Forall clean ds → stored ds q → Forall (λ b, wildcardByte ≤ b < RuneSelf) (path_bytes q).
Proof. intros Hds Hst. eapply stored_bytes; [done|done|apply lower_range|done|done]. Qed.

Lemma clean_no_space s : clean s → starts_with_space s = false.
Proof.
  intros Hs. unfold starts_with_space. apply not_true_iff_false. rewrite existsb_exists.
  set (f := λ a, (42 <=? byte_of a) && (byte_of a <? 128)).
  assert (forall_bytes f s = true) as Hf.
  { unfold clean in Hs. induction s as [|a s IH]; [done|]. simpl in *.
    apply Forall_cons in Hs as [Ha Hs]. rewrite IH by done. unfold f, wildcardByte, RuneSelf in *.
    rewrite andb_true_r. apply andb_true_iff. lia. }
  intros (x & Hx & Hp). apply (HasPrefix_forall f) in Hp; [|done].
  assert (forallb (λ x, negb (forall_bytes f x)) spaces = true) as Hsp by reflexivity.
  rewrite forallb_forall in Hsp. apply Hsp in Hx. by rewrite Hp in Hx.
Qed.

Lemma clean_no_space_after_plus {T} (ins : list (string * T)) :
  Forall clean ins.*1 → no_space_after_plus ins.
Proof.
  intros Hds d v ps Hin Hd. apply clean_no_space. rewrite Forall_forall in Hds.
  specialize (Hds d ltac:(apply list_elem_of_fmap; by exists (d, v))). apply clean_lower in Hds.
  unfold clean in Hds. rewrite <- (Valid_join _ _ Hd) in Hds.
  destruct ps as [|p ps]; [constructor|]. unfold clean, joinDomain in *.
  change (Join domainStep (complexWildcard :: p :: ps)) with
    (complexWildcard +:+ String domainStep (Join domainStep (p :: ps))) in Hds.
  rewrite sbytes_app in Hds. apply Forall_app in Hds as [_ Hds]. by apply Forall_cons in Hds as [_ ?].
Qed.

(** The pattern that [Foreach] gives for the key of a stored path. *)
Definition pattern_of (k : list Z) : string := of_bytes (reverse_runes (TrimPlus k)).

Lemma stored_pattern ds q :
  Forall clean ds → stored ds q →
  pattern_of (path_bytes q) = joinDomain (reverse q) ∧ clean (joinDomain (reverse q)) ∧
  pattern_keys (joinDomain (reverse q)) = [path_bytes q].
Proof.
  intros Hds Hst. pose proof (stored_clean ds q Hds Hst) as Hc.
  set (ins := (λ d, (d, tt)) <$> ds). assert (ins.*1 = ds) as Hins.
  { unfold ins. rewrite <- list_fmap_compose. apply list_fmap_id. }
  destruct (proj2 (getPath_stored ins q)) as [[] Hg]; [by rewrite Hins|].
  destruct (stored_valid ins q tt) as (Hne & Hv & Hp);
    [apply clean_no_space_after_plus; by rewrite Hins|done|].
  destruct (reverse q) as [|p ps] eqn:Hr.
  { apply (f_equal reverse) in Hr. by rewrite reverse_involutive in Hr. }
  destruct (Valid_labels _ _ _ Hv) as (_ & Hlab & Hps & Hne' & _).
  assert (path_bytes q = reverse (sbytes (joinDomain
    ((if bool_decide (p = dotWildcard) then complexWildcard else p) :: ps)))) as Hk.
  { rewrite join_path_bytes by done. by rewrite <- Hr, reverse_involutive. }
  assert (pattern_keys (joinDomain (p :: ps)) = [path_bytes q]) as Hpk.
  { unfold pattern_keys. by rewrite Hv, Hp. }
  assert (∀ s, clean s → of_bytes (reverse_runes (reverse (sbytes s))) = s) as Hback.
  { intros s Hs. rewrite reverse_runes_ascii, reverse_involutive by (by apply Forall_reverse, clean_ascii).
    apply of_bytes_sbytes. }
  rewrite Hk in Hc. apply Forall_reverse in Hc. rewrite reverse_involutive in Hc.
  cut (pattern_of (path_bytes q) = joinDomain (p :: ps) ∧ clean (joinDomain (p :: ps)));
    [by intros [? ?]|].
  unfold pattern_of, TrimPlus. rewrite Hk, reverse_involutive.
  case_bool_decide as Hdot; [subst p; destruct ps as [|q0 ps]; [by destruct (Hps ltac:(by right))|]|].
  - change (sbytes (joinDomain (complexWildcard :: q0 :: ps))) with
      (complexWildcardByte :: sbytes (joinDomain (dotWildcard :: q0 :: ps))) in *.
    cbv beta iota. rewrite Z.eqb_refl. apply Forall_cons in Hc as [_ Hc]. by rewrite Hback.
  - destruct Hlab as [?|[->|Hlab]]; [done| |].
    { unfold paths in Hp. rewrite bool_decide_true in Hp by done. done. }
    destruct (sbytes (joinDomain (p :: ps))) as [|c r] eqn:Hs.
    + exfalso. destruct p as [|a p]; [done|]. by destruct ps.
    + assert (c ≠ complexWildcardByte) as Hcp.
      { unfold joinDomain in Hs.
        assert (∃ r', sbytes p = c :: r') as [r' Hpb].
        { destruct p as [|a p]; [done|]. destruct ps; simpl in Hs; simplify_eq/=; by eexists. }
        destruct Hlab as [->|[_ Hl]]; [by cbv in Hpb; simplify_eq|].
        rewrite Hpb in Hl. by apply Forall_cons in Hl as [[[? _] _] _]. }
      rewrite (proj2 (Z.eqb_neq _ _) Hcp), <- Hs. rewrite <- Hs in Hc. by rewrite Hback.
Qed.

(** Iterating over a trie with a callback that never stops. *)
Lemma Foreach_fold {T S} (fn : string → T → S → bool * S) (h : list string → T → S → S) t s :
  wf t → (∀ items d s, fn (joinDomain items) d s = (true, h items d s)) →
  Foreach fn t s = foldl (λ s '(items, d), h items d s) s (entries t).
Proof.
  intros Hw Hh.
  assert (∀ l s, visit fn l s = (true, foldl (λ s '(items, d), h items d s) s l)) as Hv.
  { induction l as [|[items d] l IH]; intros s'; simpl; [done|]. rewrite Hh. simpl. apply IH. }
  unfold Foreach, entries.
  assert (∀ k c, (k, c) ∈ getChildren t → wf c) as Hc by (intros k c Hin; by eapply wf_getChildren).
  revert s. induction (getChildren t) as [|[k c] m IH]; intros s; simpl; [done|].
  rewrite recursion_visit by (apply (Hc k); set_solver). rewrite Hv. cbv iota beta.
  rewrite call_visit, Hv. cbn [negb]. rewrite IH by set_solver. by rewrite !foldl_app.
Qed.

(** The key that [NewDomainSet] makes of a pattern. *)
Lemma collect_key_ok {T} (v : T) p ps ks :
  Forall (λ l, l ≠ "") ps → (p = "" → ps ≠ []) → has_byte domainStep p = false →
  clean (joinDomain (p :: ps)) →
  (collect_key (joinDomain (p :: ps)) v (Ret ks)).2 = Ret (ks ++ [path_bytes (reverse (p :: ps))]).
Proof.
  intros Hps Hne Hd Hc. rewrite <- join_path_bytes by done. unfold collect_key. cbn [snd]. run.
  destruct p as [|a p].
  - destruct ps as [|q ps]; [by destruct (Hne eq_refl)|].
    change (joinDomain ("" :: q :: ps)) with (String "." (joinDomain (q :: ps))) in *.
    change (idx (sbytes (String "." (joinDomain (q :: ps)))) 0) with (Ret domainStepByte). run.
    rewrite Z.eqb_refl. rewrite sbytes_Reverse; [done|].
    apply (clean_ascii (String "+" (String "." (joinDomain (q :: ps))))). by constructor.
  - assert (∃ r, sbytes (joinDomain (String a p :: ps)) = byte_of a :: r) as [r Hr]
      by (destruct ps; by eexists).
    assert (idx (sbytes (joinDomain (String a p :: ps))) 0 = Ret (byte_of a)) as -> by (by rewrite Hr).
    run. rewrite has_byte_bytes in Hd. cbn in Hd. apply not_elem_of_cons in Hd as [Hd _].
    destruct (Z.eqb_spec (byte_of a) domainStepByte) as [He|_]; [by rewrite He in Hd|].
    rewrite sbytes_Reverse by (by apply clean_ascii). done.
Qed.

(** The keys collected from the entries of a trie. *)
Lemma collect_entries {T} (ins : list (string * T)) :
  Forall clean ins.*1 →
  Foreach collect_key (build New ins) (Ret []) =
    Ret ((λ it : list string * T, path_bytes (reverse it.1)) <$> entries (build New ins)).
Proof.
  intros Hc. set (t := build New ins). assert (wf t) as Hw by apply wf_build, wf_newNode.
  rewrite (Foreach_fold _ (λ items d s, (collect_key (joinDomain items) d s).2)) by done.
  change ((λ it : list string * T, path_bytes (reverse it.1)) <$> entries t) with
    ([] ++ ((λ it : list string * T, path_bytes (reverse it.1)) <$> entries t)).
  generalize (@nil (list Z)). intros ks.
  assert (∀ it v, (it, v) ∈ entries t → getPath t (reverse it) = Some v ∧ it ≠ []) as He.
  { intros it v (q & Hq & -> & Hg)%elem_entries; [|done]. rewrite reverse_involutive. split; [done|].
    intros Hr%(f_equal reverse). by rewrite reverse_involutive in Hr. }
  revert ks. induction (entries t) as [|[it v] l IH]; intros ks; [cbn; by rewrite app_nil_r|].
  destruct (He it v ltac:(left)) as [Hg Hne]. cbn [foldl].
  destruct (stored_valid ins (reverse it) v) as (_ & Hv & _);
    [by apply clean_no_space_after_plus|done|]. rewrite reverse_involutive in Hv.
  destruct (stored_pattern ins.*1 (reverse it) Hc) as (_ & Hcl & _).
  { apply getPath_stored. by exists v. }
  rewrite reverse_involutive in Hcl. destruct it as [|p ps]; [done|].
  destruct (Valid_labels _ _ _ Hv) as (_ & _ & Hps & Hne' & Hdots).
  rewrite collect_key_ok; [|done|by intros ->; apply Hps; right|by apply Forall_cons in Hdots as [? _]|done].
  rewrite IH by (intros; apply He; by right). by rewrite <- app_assoc.
Qed.

(** ** The set *)

Section theorems.
Context {lib : BitmapLib} {spec : BitmapSpec lib}.

(** A set depends on which keys there are only. *)
Lemma buildDomainSet_ext {S} (on : option (list Z → S → S)) ks ks' acc :
  (∀ k, k ∈ ks ↔ k ∈ ks') → buildDomainSet on ks acc = buildDomainSet on ks' acc.
Proof using spec.
  intros He. assert (sorted_keys ks = sorted_keys ks') as Hs.
  { apply sorted_unique; [apply sorted_keys_sorted..|]. intros k. by rewrite !elem_sorted_keys. }
  unfold buildDomainSet. rewrite !Compact_runs. fold (sorted_keys ks) (sorted_keys ks'). rewrite Hs.
  destruct ks as [|k ks], ks' as [|k' ks']; [done|set_solver..|done].
Qed.

Lemma Build_encodes b :
  keys b ≠ [] → fits (keys b) →
  ∃ ss D, Build (Some b) = Ret (Some ss, Some newBuilder) ∧
    encodes ss (sorted_keys (keys b)) D ∧ 64 * len (labelBitmap ss) < 2 ^ 31.
Proof using spec.
  intros Hne Hf. unfold Build.
  destruct (buildDomainSet_encodes None (keys b) tt Hne) as (ss & -> & He & Hsm). run.
  exists ss, (nodes_of (sorted_keys (keys b))). split_and!; [done..|]. by apply Hsm.
Qed.

(** C12: inserting patterns always returns, whatever their bytes; and when the keys have
    less than 2^30 bytes in all, so that the indexes of type int32 do not overflow,
    building the set and querying it return, whatever the bytes of the query: the walk
    over the bitmaps stays in range, and it ends within two rounds for every edge. *)
Theorem domain_set_returns ds :
  ∃ b, insert_all newBuilder ds = Ret b ∧
    (fits (keys b) → ∃ ss, Build (Some b) = Ret (ss, Some newBuilder) ∧ ∀ key, ∃ r, Has ss key = Ret r).
Proof using spec.
  destruct (insert_all_returns newBuilder ds) as [b Hb]. exists b. split; [done|]. intros Hf.
  destruct (decide (keys b = [])) as [Hn|Hn].
  - exists None. unfold Build. rewrite Hn. split; [done|]. by eexists.
  - destruct (Build_encodes b Hn Hf) as (ss & D & -> & He & Hs). exists (Some ss). split; [done|].
    intros key. by eapply Has_returns.
Qed.

Lemma Has_Search {T} (ins : list (string * T)) b d labels :
  Forall clean ins.*1 → insert_all newBuilder ins.*1 = Ret b → fits (keys b) →
  ValidAndSplitDomain d = inr labels → hd "" labels ≠ "" → ascii_only (sbytes d) →
  ∃ ss, Build (Some b) = Ret (ss, Some newBuilder) ∧
    Has ss d = Ret (match Search (build New ins) d with Some _ => true | None => false end).
Proof using spec.
  intros Hc Hb Hf Hd Hh Ha. rewrite insert_all_ok in Hb by (by apply clean_ascii_all). injection Hb as <-.
  simpl keys in *. pose proof (Search_stored ins d labels Hd Hh) as Hs.
  set (ks := mjoin (pattern_keys <$> ins.*1)) in *.
  assert (∀ k, k ∈ sorted_keys ks ↔ ∃ q, stored ins.*1 q ∧ k = path_bytes q) as HK.
  { intros k. rewrite elem_sorted_keys. apply elem_pattern_keys. }
  pose proof (hit_stored ins.*1 d labels _ HK Hd Hh Ha) as Hh'. rewrite <- Hs in Hh'.
  destruct (decide (ks = [])) as [Hnil|Hne].
  - exists None. unfold Build. simpl keys. rewrite Hnil in *. split; [done|]. simpl.
    destruct (Search (build New ins) d); [|done]. by destruct (proj2 Hh' ltac:(done)).
  - destruct (Build_encodes (mkBuilder ks) Hne Hf) as (ss & D & -> & He & Hsm).
    exists (Some ss). split; [done|]. rewrite (Has_hit He Hsm).
    2:{ apply Forall_forall. intros k (q & Hst & ->)%HK.
        eapply Forall_impl; [by eapply stored_clean|]. simpl. lia. }
    f_equal. simpl keys. destruct (hit _ _), (Search (build New ins) d); try done.
    + by destruct (proj1 Hh' eq_refl).
    + by discriminate (proj2 Hh' ltac:(done)).
Qed.

(** C4: the documented contract of pattern validation, that the set and the trie never
    disagree: a set built from clean patterns (ASCII, no byte below the star; of less
    than 2^30 bytes in all) has a query, which is a valid domain in ASCII, exactly when
    the trie with the same patterns finds it.  Without the condition on bytes the two
    disagree ([domain_set_low_byte]). *)
Theorem domain_set_search {T} (ins : list (string * T)) b d labels :
  Forall clean ins.*1 → insert_all newBuilder ins.*1 = Ret b → fits (keys b) →
  ValidAndSplitDomain d = inr labels → hd "" labels ≠ "" → ascii_only (sbytes d) →
  ∃ ss, Build (Some b) = Ret (ss, Some newBuilder) ∧
    Has ss d = Ret (match Search (build New ins) d with Some _ => true | None => false end).
Proof using spec. apply Has_Search. Qed.

(** The set made from a trie is the one that the builder makes from the patterns
    of the trie, field by field. *)
Theorem domain_set_from_trie {T} (ins : list (string * T)) b :
  Forall clean ins.*1 → insert_all newBuilder ins.*1 = Ret b →
  ∃ ss, Build (Some b) = Ret (ss, Some newBuilder) ∧ NewDomainSet (build New ins) = Ret ss.
Proof using spec.
  intros Hc Hb. rewrite insert_all_ok in Hb by (by apply clean_ascii_all). injection Hb as <-. simpl keys.
  unfold NewDomainSet, Build. rewrite collect_entries by done. run. simpl keys.
  set (ks := mjoin _). set (ks' := _ <$> entries _).
  rewrite (buildDomainSet_ext None ks' ks tt).
  - destruct ks as [|k l] eqn:E; [by exists None|].
    destruct (buildDomainSet_encodes None (k :: l) tt ltac:(done)) as (ss & -> & _). by exists (Some ss).
  - intros k. unfold ks, ks'. rewrite elem_pattern_keys, list_elem_of_fmap.
    assert (wf (build New ins)) as Hw by apply wf_build, wf_newNode. split.
    + intros ([it v] & -> & (q & _ & -> & Hg)%elem_entries); [|done]. simpl.
      exists q. rewrite reverse_involutive. split; [|done]. apply getPath_stored. by rewrite Hg.
    + intros (q & Hst & ->). apply getPath_stored in Hst as Hg. destruct Hg as [v Hg].
      exists (reverse q, v). simpl. rewrite reverse_involutive. split; [done|].
      apply elem_entries; [done|]. exists q. split_and!; [|done|done].
      destruct Hst as (d & parts & _ & Hd & Hq). by eapply paths_ok.
Qed.

Definition collect_pattern (d : string) (s : list string) : bool * list string := (true, s ++ [d]).

Lemma visit_collect_pattern K s :
  visit_all (λ k, collect_pattern (pattern_of k)) K s = (true, s ++ (pattern_of <$> K)).
Proof using Type.
  clear spec lib. revert s. induction K as [|k K IH]; intros s; csimpl; [by rewrite app_nil_r|].
  by rewrite IH, <- app_assoc.
Qed.

(** What [Foreach] gives: the patterns of the keys, each with its one key. *)
Lemma Foreach_patterns ds b ss b' :
  Forall clean ds → insert_all newBuilder ds = Ret b → fits (keys b) →
  Build (Some b) = Ret (Some ss, b') →
  let K := sorted_keys (keys b) in
  b' = Some newBuilder ∧ set_Foreach collect_pattern (Some ss) [] = Ret (pattern_of <$> K) ∧
  Forall (λ k, clean (pattern_of k) ∧ pattern_keys (pattern_of k) = [k]) K.
Proof using spec.
  intros Hc Hb Hf HB. rewrite insert_all_ok in Hb by (by apply clean_ascii_all). injection Hb as <-. simpl keys in *.
  set (ks := mjoin (pattern_keys <$> ds)) in *.
  destruct (decide (ks = [])) as [Hnil|Hne]; [unfold Build in HB; simpl in HB; by rewrite Hnil in HB|].
  destruct (Build_encodes (mkBuilder ks) Hne Hf) as (ss' & D & HB' & He & Hsm).
  rewrite HB in HB'. injection HB' as <- ->. simpl keys in He. set (K := sorted_keys ks) in *.
  split; [done|]. split.
  - unfold set_Foreach. rewrite (keys_of_ok He Hsm _ (λ k, collect_pattern (pattern_of k))) by done.
    by rewrite visit_collect_pattern.
  - apply Forall_forall. intros k Hk. unfold K, ks in Hk. rewrite elem_sorted_keys, elem_pattern_keys in Hk.
    destruct Hk as (q & Hst & ->). by destruct (stored_pattern ds q Hc Hst) as (-> & ? & ?).
Qed.

(** Patterns with the keys of a builder give its set again. *)
Lemma rebuild b ss b' pats :
  Build (Some b) = Ret (ss, b') → Forall clean pats →
  (∀ k, k ∈ mjoin (pattern_keys <$> pats) ↔ k ∈ keys b) →
  ∃ b2, insert_all newBuilder pats = Ret b2 ∧ Build (Some b2) = Ret (ss, b').
Proof using spec.
  intros HB Hc HK. rewrite insert_all_ok by (by apply clean_ascii_all). eexists. split; [done|].
  unfold Build in *. simpl keys. by rewrite (buildDomainSet_ext None _ (keys b) tt).
Qed.

(** The patterns that [Foreach] gives can be inserted again, and the set built
    from them is the same, field by field. *)
Theorem domain_set_foreach ds b ss b' :
  Forall clean ds → insert_all newBuilder ds = Ret b → fits (keys b) →
  Build (Some b) = Ret (Some ss, b') →
  ∃ pats b2, set_Foreach collect_pattern (Some ss) [] = Ret pats ∧
    Forall (λ p, ∃ parts, ValidAndSplitDomain p = inr parts) pats ∧
    insert_all newBuilder pats = Ret b2 ∧ Build (Some b2) = Ret (Some ss, b').
Proof using spec.
  intros Hc Hb Hf HB. destruct (Foreach_patterns ds b ss b' Hc Hb Hf HB) as (_ & HF & Hp).
  set (K := sorted_keys (keys b)) in *. exists (pattern_of <$> K).
  destruct (rebuild b (Some ss) b' (pattern_of <$> K) HB) as (b2 & Hb2 & HB2).
  { apply Forall_fmap. eapply Forall_impl; [exact Hp|]. naive_solver. }
  { intros k. replace (mjoin (pattern_keys <$> (pattern_of <$> K))) with K; [apply elem_sorted_keys|].
    clear -Hp. induction Hp as [|k' K [_ Hk] _ IH]; csimpl; [done|]. rewrite Hk. simpl. by f_equal. }
  exists b2. split_and!; [done| |done..].
  apply Forall_fmap. eapply Forall_impl; [exact Hp|]. intros k [_ Hk]. simpl. unfold pattern_keys in Hk.
  destruct (ValidAndSplitDomain (pattern_of k)) as [|parts]; [done|by exists parts].
Qed.
End theorems.

(** With a byte below the star in a pattern the set and the trie disagree, against
    the comment on pattern validation: of "+.com" and "a#.com" the trie finds
    "b#.com" by the first, while the set follows the edge "#" before it looks for the
    wildcard, and does not come back. *)
Theorem domain_set_low_byte :
  let ds := ["+.com"; "a#.com"] in
  ∃ b ss, insert_all newBuilder ds = Ret b ∧
    @Build counting_lib (Some b) = Ret (Some ss, Some newBuilder) ∧
    @Has counting_lib (Some ss) "b#.com" = Ret false ∧
    isEmpty (Search (build New ((λ d, (d, tt)) <$> ds)) "b#.com") = false.
Proof.
  do 2 eexists. split; [vm_compute; reflexivity|]. split; [vm_compute; reflexivity|].
  split; vm_compute; reflexivity.
Qed.

Module SetExamples.

Definition patterns : list (string * nat) :=
  [("+.example.com", 1%nat); ("*.Org", 2%nat); (".a.b", 3%nat); ("a..b", 4%nat)].

Definition builder : DomainSetBuilder :=
  mkBuilder (mjoin (pattern_keys <$> patterns.*1)).

Lemma clean_dec d : forallb (λ b, (42 <=? b) && (b <? 128)) (sbytes d) = true → clean d.
Proof.
  unfold clean. rewrite forallb_forall. intros H. apply Forall_forall.
  intros b Hb%list_elem_of_In%H. unfold wildcardByte, RuneSelf. lia.
Qed.

Lemma patterns_clean : Forall clean patterns.*1.
Proof. repeat constructor; simpl; unfold wildcardByte, RuneSelf; vm_compute; intuition congruence. Qed.

Lemma domain_set_search_witness :
  ∃ ss, @Build counting_lib (Some builder) = Ret (ss, Some newBuilder) ∧
    @Has counting_lib ss "www.Example.com" = Ret true.
Proof.
  destruct (domain_set_search (lib := counting_lib) patterns builder "www.Example.com"
    ["www"; "example"; "com"]) as (ss & H1 & H2).
  - exact patterns_clean.
  - vm_compute. reflexivity.
  - vm_compute. reflexivity.
  - vm_compute. reflexivity.
  - done.
  - apply clean_ascii, clean_dec. reflexivity.
  - exists ss. split; [exact H1|]. rewrite H2. vm_compute. reflexivity.
Defined.

Lemma domain_set_from_trie_witness :
  ∃ ss, @Build counting_lib (Some builder) = Ret (ss, Some newBuilder) ∧
    @NewDomainSet counting_lib _ (build New patterns) = Ret ss.
Proof.
  apply (domain_set_from_trie (lib := counting_lib) patterns builder).
  - exact patterns_clean.
  - vm_compute. reflexivity.
Defined.

Definition example_set : DomainSet :=
  match @Build counting_lib (Some builder) with
  | Ret (Some ss, _) => ss
  | _ => mkSet [] [] [] [] []
  end.

Lemma domain_set_foreach_witness :
  ∃ pats b2, @set_Foreach counting_lib _ collect_pattern (Some example_set) [] = Ret pats ∧
    Forall (λ p, ∃ parts, ValidAndSplitDomain p = inr parts) pats ∧
    insert_all newBuilder pats = Ret b2 ∧
    @Build counting_lib (Some b2) = Ret (Some example_set, Some newBuilder).
Proof.
  apply (domain_set_foreach (lib := counting_lib) patterns.*1 builder example_set (Some newBuilder)).
  - exact patterns_clean.
  - vm_compute. reflexivity.
  - vm_compute. reflexivity.
  - vm_compute. reflexivity.
Defined.

(** The patterns of the set, as [Foreach] gives them. *)
Example set_patterns :
  @set_Foreach counting_lib _ collect_pattern (Some example_set) [] =
    Ret [".a.b"; "*.org"; "example.com"; ".example.com"].
Proof. vm_compute. reflexivity. Qed.
End SetExamples.
