(* ===== verification/DomainMap.v ===== *)
(** * The domain map ([component/trie/domain_map.go])

    A domain set with a value for every key: the values are in the order in which the
    construction meets the ends of the keys, and the rank of a node among the leaves
    is the index of its value.  The start of a node's edges is found through an
    8-bit distance to a coarse select index, with a slow path for larger distances.

    [Lookup] is proved equal to [Search] of the domain trie with the same insertions,
    with its priority of labels, stars and suffixes; [Foreach] gives patterns and
    values that rebuild the map. *)

From Stdlib Require Import Ascii.
From stdpp Require Import sorting.
From S2P Require Import Prelude Wire GoStrings Runes DomainTrie Louds DomainSet SetTrie.

Definition domainMapSelectOverflow : Z := 255.

Record domainMapIndex := mkIndex {
  ix_set : DomainSet;
  selectDeltas : list Z;
}.

Section map.
Context {lib : BitmapLib} {T : Type} (zero : T).

(** A map that is not the zero value has an index. *)
Record DomainMap := mkMap {
  index : option domainMapIndex;
  leafRanks : list Z;
  values : list T;
}.

Record DomainMapBuilder := mkMapBuilder {
  mb_set : DomainSetBuilder;
  valueKeys : gmap (list Z) T;
}.

Definition newMapBuilder : DomainMapBuilder := mkMapBuilder newBuilder ∅.

Fixpoint store_keys (ks : list (list Z)) (v : T) (m : gmap (list Z) T) : gmap (list Z) T :=
  match ks with
  | [] => m
  | k :: ks => store_keys ks v (<[k := v]> m)
  end.

Definition map_Insert (builder : DomainMapBuilder) (domain : string) (value : T) :
    outcome (domainError + DomainMapBuilder) :=
  let begin := len (keys (mb_set builder)) in
  r ← builder_Insert (mb_set builder) domain;
  match r with
  | inl e => Ret (inl e)
  | inr set =>
    ks ← slice (keys set) begin (len (keys set));
    Ret (inr (mkMapBuilder set (store_keys ks value (valueKeys builder))))
  end.

Definition mapBuilder_IsEmpty (builder : option DomainMapBuilder) : bool :=
  match builder with
  | None => true
  | Some builder => builder_IsEmpty (Some (mb_set builder))
  end.

Definition mapBuilder_Reset (builder : DomainMapBuilder) : DomainMapBuilder :=
  mkMapBuilder (builder_Reset (mb_set builder)) ∅.

(** ** The cached starts of edges *)

(** [index.selects[ordinal>>5]]. *)
Definition coarse_select (ss : DomainSet) (ordinal : Z) : outcome Z :=
  idx (selects ss) (Z.shiftr ordinal 5).

Definition selectDelta (ss : DomainSet) (ordinal : Z) : outcome Z :=
  let position := selectIthOne (labelBitmap ss) (ranks ss) (selects ss) ordinal in
  s ← coarse_select ss ordinal;
  let delta := position - s in
  Ret (if (delta <? 0) || (domainMapSelectOverflow <=? delta) then domainMapSelectOverflow
       else u8 delta).

Fixpoint select_deltas (ss : DomainSet) (n : nat) (ordinal : Z) : outcome (list Z) :=
  match n with
  | O => Ret []
  | S n =>
    d ← selectDelta ss ordinal;
    ds ← select_deltas ss n (ordinal + 1);
    Ret (d :: ds)
  end.

Definition initSelectDeltas (ss : DomainSet) : outcome domainMapIndex :=
  ds ← select_deltas ss (length (labels ss)) 0;
  Ret (mkIndex ss ds).

Definition uncachedChildStart (ix : domainMapIndex) (ordinal : Z) : Z :=
  let ss := ix_set ix in
  selectIthOne (labelBitmap ss) (ranks ss) (selects ss) ordinal + 1.

Definition childStart (ix : domainMapIndex) (ordinal delta : Z) : outcome Z :=
  if delta =? domainMapSelectOverflow then Ret (uncachedChildStart ix ordinal)
  else
    s ← coarse_select (ix_set ix) ordinal;
    Ret (s + delta + 1).

(** [index.childStart(nodeID-1, index.selectDeltas[nodeID-1])]. *)
Definition node_start (ix : domainMapIndex) (nodeID : Z) : outcome Z :=
  d ← idx (selectDeltas ix) (nodeID - 1);
  childStart ix (nodeID - 1) d.

(** ** Construction *)

Definition map_init (leaves : list Z) (set : DomainSet) (values : list T) : outcome DomainMap :=
  ix ← initSelectDeltas set;
  Ret (mkMap (Some ix) (IndexRank64 leaves) values).

Definition map_Build (builder : option DomainMapBuilder) :
    outcome (option DomainMap * option DomainMapBuilder) :=
  match builder with
  | None => Ret (None, None)
  | Some builder =>
    let ks := keys (mb_set builder) in
    let vk := valueKeys builder in
    let builder := mapBuilder_Reset builder in
    if bool_decide (len ks = 0) then Ret (None, Some builder)
    else
      '(set, values) ← buildDomainSet
        (Some (λ key values, values ++ [default zero (vk !! key)])) ks [];
      match set with
      | None => Panic "invalid memory address or nil pointer dereference"
      | Some set =>
        m ← map_init (leaves set) set values;
        Ret (Some m, Some builder)
      end
  end.

Definition map_IsEmpty (mapping : option DomainMap) : bool :=
  match mapping with
  | None => true
  | Some m => bool_decide (len (values m) = 0)
  end.

Definition map_DomainSet (mapping : option DomainMap) : option DomainSet :=
  match mapping with
  | None => None
  | Some m => ix_set <$> index m
  end.

(** ** Queries *)

(** [strings.LastIndexByte]. *)
Fixpoint LastIndexByte_from (s : list Z) (c : Z) (i last : Z) : Z :=
  match s with
  | [] => last
  | x :: s => LastIndexByte_from s c (i + 1) (if x =? c then i else last)
  end.
Definition LastIndexByte (s : list Z) (c : Z) : Z := LastIndexByte_from s c 0 (-1).

(** The first edge of [nodeID] from [bitmapIndex] on whose label is not below [c]. *)
Fixpoint skip_below (fuel : nat) (ss : DomainSet) (nodeID c bitmapIndex : Z) : outcome Z :=
  match fuel with
  | O => OutOfFuel
  | S fuel =>
    b ← bitSet (labelBitmap ss) bitmapIndex;
    if (b : bool) then Ret bitmapIndex
    else
      l ← idx (labels ss) (bitmapIndex - nodeID);
      if l <? c then skip_below fuel ss nodeID c (bitmapIndex + 1) else Ret bitmapIndex
  end.

(** The edge at [bitmapIndex] has the label [c]. *)
Definition has_label (ss : DomainSet) (nodeID c bitmapIndex : Z) : outcome bool :=
  b ← bitSet (labelBitmap ss) bitmapIndex;
  if (b : bool) then Ret false
  else
    l ← idx (labels ss) (bitmapIndex - nodeID);
    Ret (l =? c).

(** The walk along the bytes of a label, from [offset] on: the node it ends in. *)
Fixpoint static_walk (fuel : nat) (ix : domainMapIndex) (part : list Z) (offset staticNode staticIndex : Z) :
    outcome (option Z) :=
  match fuel with
  | O => OutOfFuel
  | S fuel =>
    let ss := ix_set ix in
    if offset <? len part then
      label ← revLowerAt part offset;
      staticIndex ← skip_below (bits_fuel ss) ss staticNode label staticIndex;
      found ← has_label ss staticNode label staticIndex;
      if negb found || (label =? complexWildcardByte) then Ret None
      else
        let staticNode := staticIndex - staticNode + 1 in
        staticIndex ← (if offset + 1 <? len part then node_start ix staticNode else Ret staticIndex);
        static_walk fuel ix part (offset + 1) staticNode staticIndex
    else Ret (Some staticNode)
  end.

(** The wildcard edges of a node; [rec] is the match below a star. *)
Fixpoint wildcard_edges (fuel : nat) (rec : Z → outcome Z) (ss : DomainSet) (part : list Z)
    (nodeID bitmapIndex : Z) : outcome Z :=
  match fuel with
  | O => OutOfFuel
  | S fuel =>
    b ← bitSet (labelBitmap ss) bitmapIndex;
    if (b : bool) then Ret (-1)
    else
      label ← idx (labels ss) (bitmapIndex - nodeID);
      let childID := bitmapIndex - nodeID + 1 in
      let next := if complexWildcardByte <? label then Ret (-1)
                  else wildcard_edges fuel rec ss part nodeID (bitmapIndex + 1) in
      if label =? wildcardByte then
        if negb (bool_decide (part = [wildcardByte])) then
          terminal ← rec childID;
          if 0 <=? terminal then Ret terminal else next
        else next
      else if label =? complexWildcardByte then Ret childID
      else next
  end.

(** The node behind the dot edge of a node other than the root, and its edges. *)
Definition enter_label (ix : domainMapIndex) (nodeID : Z) : outcome (option (Z * Z)) :=
  let ss := ix_set ix in
  if 0 <? nodeID then
    bitmapIndex ← node_start ix nodeID;
    bitmapIndex ← skip_below (bits_fuel ss) ss nodeID domainStepByte bitmapIndex;
    found ← has_label ss nodeID domainStepByte bitmapIndex;
    if negb found then Ret None
    else
      let nodeID := bitmapIndex - nodeID + 1 in
      bitmapIndex ← node_start ix nodeID;
      Ret (Some (nodeID, bitmapIndex))
  else Ret (Some (nodeID, 0)).

(** The last label of a domain, in the form that is walked, and what is before it. *)
Definition split_label (domain : list Z) : outcome (list Z * list Z) :=
  let separator := LastIndexByte domain domainStepByte in
  part ← slice domain (separator + 1) (len domain);
  remaining ← (if 0 <=? separator then slice domain 0 separator else Ret []);
  Ret (sbytes (normalize (of_bytes part)), remaining).

(** [match]: a node, or -1. *)
Fixpoint map_match (fuel : nat) (ix : domainMapIndex) (nodeID : Z) (domain : list Z) : outcome Z :=
  match fuel with
  | O => OutOfFuel
  | S fuel =>
    let ss := ix_set ix in
    match domain with
    | [] =>
      leaf ← bitSet (leaves ss) nodeID;
      Ret (if (leaf : bool) then nodeID else -1)
    | _ =>
      e ← enter_label ix nodeID;
      match e with
      | None => Ret (-1)
      | Some (nodeID, bitmapIndex) =>
        '(part, remaining) ← split_label domain;
        s ← static_walk (S (length part)) ix part 0 nodeID bitmapIndex;
        terminal ←
          (match s with
           | Some staticNode => map_match fuel ix staticNode remaining
           | None => Ret (-1)
           end);
        if 0 <=? terminal then Ret terminal
        else
          wildcard_edges (bits_fuel ss) (λ childID, map_match fuel ix childID remaining) ss part
            nodeID bitmapIndex
      end
    end
  end.

(** The value of a leaf. *)
Definition leaf_value (m : DomainMap) (ix : domainMapIndex) (nodeID : Z) : outcome T :=
  let rank := (Rank64 (leaves (ix_set ix)) (leafRanks m) (i32 nodeID)).1 in
  idx (values m) rank.

(** [Lookup]; a label is matched per round. *)
Definition Lookup (mapping : option DomainMap) (domain : string) : outcome (T * bool) :=
  match mapping with
  | None => Ret (zero, false)
  | Some m =>
    if map_IsEmpty mapping then Ret (zero, false)
    else
      match index m with
      | None => Panic "invalid memory address or nil pointer dereference"
      | Some ix =>
        nodeID ← map_match (2 + String.length domain) ix 0 (sbytes domain);
        if nodeID <? 0 then Ret (zero, false)
        else
          v ← leaf_value m ix nodeID;
          Ret (v, true)
      end
  end.

(** [Foreach], with a callback that has a state. *)
Definition map_Foreach {S} (fn : string → T → S → bool * S) (mapping : option DomainMap) (s : S) :
    outcome S :=
  match mapping with
  | None => Ret s
  | Some m =>
    if map_IsEmpty mapping then Ret s
    else
      match index m with
      | None => Panic "invalid memory address or nil pointer dereference"
      | Some ix =>
        keys_of (λ key nodeID s,
          v ← leaf_value m ix nodeID;
          Ret (fn (pattern_of key) v s)) (ix_set ix) s
      end
  end.
End map.
Arguments DomainMap : clear implicits.
Arguments DomainMapBuilder : clear implicits.

(** ** The cached starts *)

Section starts.
Context {lib : BitmapLib} {spec : BitmapSpec lib} {ss : DomainSet} {K0 : lang} {D : list tnode}.
Hypothesis Henc : encodes ss K0 D.
Hypothesis Hsmall : 64 * len (labelBitmap ss) < 2 ^ 31.

Lemma length_nodes : length D = S (length (labels ss)).
Proof using Henc.
  clear Hsmall. rewrite (enc_root _ _ _ Henc), (enc_label _ _ _ Henc). simpl. by rewrite length_below.
Qed.

(** The coarse index reaches every node. *)
Lemma coarse_select_Ret n :
  (n < length D)%nat → ∃ s, coarse_select ss (Z.of_nat n) = Ret s.
Proof using Henc Hsmall spec.
  intros Hn. destruct (lookup_lt_is_Some_2 D n Hn) as [[pre K] H].
  destruct (block_bit Henc n pre K (length (firsts K)) H ltac:(lia)) as (Hb & Hr & Ho).
  rewrite bool_decide_true in Hb by done.
  pose proof (IndexSelect32R64_len (labelBitmap ss) _ Hsmall Hr Hb) as Hl.
  rewrite Ho, (enc_index _ _ _ Henc) in Hl. simpl in Hl.
  unfold coarse_select. rewrite Z.shiftr_div_pow2 by lia. change (2 ^ 5) with 32.
  pose proof (Z.div_pos (Z.of_nat n) 32 ltac:(lia) ltac:(lia)).
  destruct (idx_total (selects ss) (Z.of_nat n / 32)) as (s & Hs & _); [lia|]. by exists s.
Qed.

Lemma selectDelta_start n d ds pre K :
  D !! S n = Some (pre, K) → selectDelta ss (Z.of_nat n) = Ret d →
  childStart (mkIndex ss ds) (Z.of_nat n) d = Ret (start D (S n)).
Proof using Henc Hsmall spec.
  intros H. apply lookup_lt_Some in H as Hlt. destruct (coarse_select_Ret n) as [s Hs]; [lia|].
  unfold selectDelta, childStart, uncachedChildStart. cbn [ix_set]. rewrite Hs. run.
  pose proof (select_start Henc Hsmall (S n) _ _ ltac:(lia) H) as Hsel.
  replace (Z.of_nat (S n) - 1) with (Z.of_nat n) in Hsel by lia.
  set (p := selectIthOne _ _ _ _) in *. unfold domainMapSelectOverflow. intros [= <-].
  destruct (Z.ltb_spec (p - s) 0); simpl; [by rewrite Hsel|].
  destruct (Z.leb_spec 255 (p - s)); simpl; [by rewrite Hsel|].
  rewrite wrapu_small by lia. rewrite (proj2 (Z.eqb_neq _ _)) by lia. f_equal. lia.
Qed.

Lemma select_deltas_ok m n :
  (n + m < length D)%nat →
  ∃ ds, select_deltas ss m (Z.of_nat n) = Ret ds ∧ length ds = m ∧
    ∀ i d, ds !! i = Some d → selectDelta ss (Z.of_nat (n + i)) = Ret d.
Proof using Henc Hsmall spec.
  revert n. induction m as [|m IH]; intros n Hn; [by exists []|]. simpl.
  destruct (coarse_select_Ret n) as [s Hs]; [lia|]. unfold selectDelta at 1. rewrite Hs. run.
  replace (Z.of_nat n + 1) with (Z.of_nat (S n)) by lia.
  destruct (IH (S n)) as (ds & -> & Hl & Hds); [lia|]. run.
  eexists. split; [done|]. split; [simpl; by rewrite Hl|]. intros [|i] d.
  - simpl. intros [= <-]. rewrite Nat.add_0_r. unfold selectDelta. by rewrite Hs.
  - simpl. intros Hi%Hds. by rewrite <- Hi, Nat.add_succ_r.
Qed.

(** The index has the start of every node but the root. *)
Definition index_ok (ix : domainMapIndex) : Prop :=
  ix_set ix = ss ∧
  ∀ n pre K, D !! n = Some (pre, K) → (0 < n)%nat → node_start ix (Z.of_nat n) = Ret (start D n).

Lemma initSelectDeltas_ok : ∃ ix, initSelectDeltas ss = Ret ix ∧ index_ok ix.
Proof using Henc Hsmall spec.
  unfold initSelectDeltas. pose proof length_nodes as Hl.
  destruct (select_deltas_ok (length (labels ss)) 0) as (ds & Hds & Hlen & Hd); [lia|].
  change (Z.of_nat 0) with 0 in Hds. rewrite Hds. run. eexists. split; [done|]. split; [done|].
  intros n pre K H Hn. destruct n as [|n]; [lia|]. apply lookup_lt_Some in H as Hlt.
  unfold node_start. replace (Z.of_nat (S n) - 1) with (Z.of_nat n) by lia. cbn [selectDeltas].
  destruct (lookup_lt_is_Some_2 ds n) as [d Hnd]; [lia|].
  rewrite (idx_lookup _ _ d) by (rewrite ?Nat2Z.id; done || lia). run.
  eapply selectDelta_start; [done|]. by apply Hd in Hnd.
Qed.
End starts.

(** ** Edges by their labels *)

(** The first element of an ascending list that is not below [c] is [c] if it is there. *)
Definition at_or_above (l : list Z) (c : Z) (t : nat) : Prop :=
  (t ≤ length l)%nat ∧ (∀ x, l !! t = Some x → c ≤ x) ∧ ∀ i x, l !! i = Some x → (i < t)%nat → x < c.

Lemma at_or_above_elem l c t :
  StronglySorted Z.lt l → at_or_above l c t → c ∈ l → l !! t = Some c.
Proof.
  intros Hs (Ht & Hge & Hlt) [i Hi]%list_elem_of_lookup.
  destruct (decide (i < t)%nat) as [Hit|Hit]; [specialize (Hlt i c Hi Hit); lia|].
  destruct (decide (i = t)) as [->|Hne]; [done|].
  apply lookup_lt_Some in Hi as Hil. destruct (lookup_lt_is_Some_2 l t) as [x Hx]; [lia|].
  specialize (Hge x Hx). assert (x < c) by (eapply (StronglySorted_lookup Z.lt l t i); [done..|lia]). lia.
Qed.

(** What follows a string in a language. *)
Definition derivs (w : list Z) (K : lang) : lang := foldl (λ K c, deriv c K) K w.

Lemma elem_derivs w K k : k ∈ derivs w K ↔ w ++ k ∈ K.
Proof.
  revert K. induction w as [|c w IH]; intros K; [done|]. simpl. unfold derivs in *. simpl.
  by rewrite IH, elem_deriv.
Qed.

Section edges.
Context {lib : BitmapLib} {spec : BitmapSpec lib} {ss : DomainSet} {K0 : lang} {D : list tnode}.
Hypothesis Henc : encodes ss K0 D.
Hypothesis Hsmall : 64 * len (labelBitmap ss) < 2 ^ 31.

Lemma skip_below_ok fuel n pre K c t :
  D !! n = Some (pre, K) → (t ≤ length (firsts K))%nat → (length (firsts K) - t < fuel)%nat →
  (∀ i x, firsts K !! i = Some x → (i < t)%nat → x < c) →
  ∃ t', skip_below fuel ss (Z.of_nat n) c (start D n + Z.of_nat t) = Ret (start D n + Z.of_nat t') ∧
    at_or_above (firsts K) c t'.
Proof using Henc spec.
  clear Hsmall. intros H. revert t. induction fuel as [|fuel IH]; intros t Ht Hf Hb; [lia|].
  cbn [skip_below]. rewrite (bitSet_block Henc n pre K t H Ht). run. case_bool_decide as Hd.
  - exists t. split; [done|]. split_and!; [done| |done]. intros x Hx%lookup_lt_Some. lia.
  - destruct (lookup_lt_is_Some_2 (firsts K) t) as [l Hl]; [lia|].
    destruct (edge_at Henc n pre K t l H Hl) as (-> & _ & _). run.
    destruct (Z.ltb_spec l c).
    + replace (start D n + Z.of_nat t + 1) with (start D n + Z.of_nat (S t)) by lia.
      apply IH; [lia|lia|]. intros i x Hi Hit. destruct (decide (i = t)) as [->|]; [|apply (Hb i); [done|lia]].
      by simplify_eq.
    + exists t. split; [done|]. split_and!; [done| |done]. intros x Hx. by simplify_eq.
Qed.

(** The child of a node by a byte. *)
Lemma find_edge n pre K c :
  D !! n = Some (pre, K) →
  ∃ p, skip_below (bits_fuel ss) ss (Z.of_nat n) c (start D n) = Ret p ∧
    has_label ss (Z.of_nat n) c p = Ret (bool_decide (c ∈ firsts K)) ∧
    (c ∈ firsts K → ∃ m, p - Z.of_nat n + 1 = Z.of_nat m ∧ (0 < m)%nat ∧
      D !! m = Some (pre ++ [c], deriv c K)).
Proof using Henc spec.
  clear Hsmall. intros H. pose proof (firsts_bits Henc _ _ _ H) as Hbits.
  destruct (skip_below_ok (bits_fuel ss) n pre K c 0 H) as (t & Hsk & Ht); [lia|lia|intros; lia|].
  rewrite Z.add_0_r in Hsk. exists (start D n + Z.of_nat t). split; [done|].
  destruct (node_good Henc _ _ _ H) as [HK _].
  pose proof (at_or_above_elem _ c t (sorted_firsts _ HK) Ht) as Hel.
  unfold has_label. rewrite (bitSet_block Henc n pre K t H) by apply Ht. run. split.
  - case_bool_decide as Hd.
    + rewrite bool_decide_false; [done|]. intros Hc%Hel%lookup_lt_Some. lia.
    + destruct Ht as (Htl & _). destruct (lookup_lt_is_Some_2 (firsts K) t) as [l Hl]; [lia|].
      destruct (edge_at Henc n pre K t l H Hl) as (-> & _ & _). run. f_equal.
      destruct (Z.eqb_spec l c) as [->|Hne].
      * rewrite bool_decide_true; [done|]. by eapply list_elem_of_lookup_2.
      * rewrite bool_decide_false; [done|]. intros Hc%Hel. congruence.
  - intros Hc%Hel. destruct (edge_at Henc n pre K t c H Hc) as (_ & Hpos & Hch).
    exists (Z.to_nat (start D n + Z.of_nat t - Z.of_nat n + 1)). split_and!; [lia|lia|done].
Qed.

Context {ix : domainMapIndex}.
Hypothesis Hix : index_ok (ss := ss) (D := D) ix.

Lemma static_walk_ok fuel part i n pre K sx :
  D !! n = Some (pre, K) → (i ≤ length part)%nat → (length part - i < fuel)%nat →
  ((i < length part)%nat → sx = start D n) → complexWildcardByte ∉ drop i (walked part) →
  (∃ m, static_walk fuel ix part (Z.of_nat i) (Z.of_nat n) sx = Ret (Some (Z.of_nat m)) ∧
     D !! m = Some (pre ++ drop i (walked part), derivs (drop i (walked part)) K) ∧
     ((i < length part)%nat → (0 < m)%nat)) ∨
  static_walk fuel ix part (Z.of_nat i) (Z.of_nat n) sx = Ret None ∧
    derivs (drop i (walked part)) K = [].
Proof using Henc Hix spec.
  clear Hsmall. destruct Hix as [Hset Hstart]. pose proof (walked_length part) as Hwl. revert i n pre K sx.
  induction fuel as [|fuel IH]; intros i n pre K sx H Hi Hf Hsx Hno; [lia|].
  cbn [static_walk]. rewrite Hset. destruct (Z.ltb_spec (Z.of_nat i) (len part)) as [Hlt|Hge].
  - rewrite Hsx by lia. destruct (revLowerAt_walked part (Z.of_nat i)) as (c & -> & Hc); [lia|].
    rewrite Nat2Z.id in Hc. run. destruct (find_edge n pre K c H) as (p & -> & Hl & Hch). run.
    rewrite Hl. run. rewrite (drop_S _ _ _ Hc) in Hno |- *. apply not_elem_of_cons in Hno as [Hcp Hno].
    rewrite (proj2 (Z.eqb_neq c _)) by congruence. rewrite orb_false_r.
    case_bool_decide as Hin; simpl negb; cbv iota.
    + destruct (Hch Hin) as (m & -> & Hm & HDm). replace (Z.of_nat i + 1) with (Z.of_nat (S i)) by lia.
      set (next := if _ <? _ then _ else _).
      assert (∃ sx', next = Ret sx' ∧ ((S i < length part)%nat → sx' = start D m)) as (sx' & -> & Hsx').
      { unfold next. destruct (Z.ltb_spec (Z.of_nat (S i)) (len part)).
        - exists (start D m). split; [by eapply Hstart|done].
        - exists p. split; [done|lia]. }
      run. destruct (IH (S i) m _ _ sx' HDm) as [(m' & Hw & HDm' & Hm')|[Hw Hd]]; [lia|lia|done|done| |].
      * left. exists m'. rewrite Hw, HDm'. rewrite <- app_assoc. split_and!; [done|done|]. intros _.
        destruct m'; [|lia]. rewrite (root_node Henc) in HDm'. injection HDm' as Hx _.
        by destruct pre.
      * right. by rewrite Hw.
    + right. split; [done|]. unfold derivs. simpl.
      assert (deriv c K = []) as ->.
      { destruct (deriv c K) as [|k l] eqn:E; [done|]. destruct Hin. apply elem_firsts. exists k.
        apply elem_deriv. rewrite E. left. }
      clear. induction (drop (S i) (walked part)); [done|]. simpl. done.
  - left. exists n. rewrite (drop_ge _ i) by lia. rewrite app_nil_r. split_and!; [done|done|lia].
Qed.

(** A plus in the query is no label. *)
Lemma static_walk_plus fuel part n pre K r :
  D !! n = Some (pre, K) → walked part = complexWildcardByte :: r →
  static_walk (S fuel) ix part 0 (Z.of_nat n) (start D n) = Ret None.
Proof using Henc Hix spec.
  clear Hsmall. destruct Hix as [Hset _]. intros H Hw. pose proof (walked_length part) as Hwl.
  rewrite Hw in Hwl. simpl in Hwl. cbn [static_walk]. rewrite Hset.
  rewrite (proj2 (Z.ltb_lt _ _)) by lia.
  destruct (revLowerAt_walked part 0) as (c & -> & Hc); [lia|]. rewrite Hw in Hc. injection Hc as <-. run.
  destruct (find_edge n pre K complexWildcardByte H) as (p & -> & Hl & _). run. rewrite Hl. run.
  by rewrite Z.eqb_refl, orb_true_r.
Qed.

(** The wildcard edges of a node, the star before the plus. *)
Lemma wildcard_edges_ok fuel rec part n pre K t :
  D !! n = Some (pre, K) → (t ≤ length (firsts K))%nat → (length (firsts K) - t < fuel)%nat →
  ∃ tail,
    ((∃ m, tail = Ret (Z.of_nat m) ∧ complexWildcardByte ∈ drop t (firsts K) ∧
        D !! m = Some (pre ++ [complexWildcardByte], deriv complexWildcardByte K)) ∨
     tail = Ret (-1) ∧ (complexWildcardByte ∉ drop t (firsts K))) ∧
    ((∃ m, wildcardByte ∈ drop t (firsts K) ∧ (0 < m)%nat ∧
        D !! m = Some (pre ++ [wildcardByte], deriv wildcardByte K) ∧
        wildcard_edges fuel rec ss part (Z.of_nat n) (start D n + Z.of_nat t) =
          if bool_decide (part = [wildcardByte]) then tail
          else terminal ← rec (Z.of_nat m); if 0 <=? terminal then Ret terminal else tail) ∨
     (wildcardByte ∉ drop t (firsts K)) ∧
        wildcard_edges fuel rec ss part (Z.of_nat n) (start D n + Z.of_nat t) = tail).
Proof using Henc spec.
  clear Hsmall Hix. intros H. destruct (node_good Henc _ _ _ H) as [HK _].
  pose proof (sorted_firsts _ HK) as Hs. revert t.
  induction fuel as [|fuel IH]; intros t Ht Hf; [lia|]. cbn [wildcard_edges].
  rewrite (bitSet_block Henc n pre K t H Ht). run.
  destruct (bool_decide_reflect (t = length (firsts K))) as [Hd|Hd].
  { exists (Ret (-1)). rewrite drop_ge by lia. split; right; (split; [|]); try done; set_solver. }
  destruct (lookup_lt_is_Some_2 (firsts K) t) as [l Hl]; [lia|].
  destruct (edge_at Henc n pre K t l H Hl) as (-> & Hpos & Hch). run.
  set (x := start D n + Z.of_nat t - Z.of_nat n + 1) in *.
  replace x with (Z.of_nat (Z.to_nat x)) by lia. set (m := Z.to_nat x) in *.
  assert (∀ y, y ∈ drop (S t) (firsts K) → l < y) as Habove.
  { intros y [j Hj]%list_elem_of_lookup. rewrite lookup_drop in Hj.
    eapply (StronglySorted_lookup Z.lt _ t (S t + j)); [done..|lia]. }
  destruct (IH (S t)) as (tail & Hplus & Hstar); [lia|lia|]. clear IH.
  replace (start D n + Z.of_nat t + 1) with (start D n + Z.of_nat (S t)) by lia.
  set (go := wildcard_edges _ _ _ _ _ _) in *. rewrite (drop_S _ _ _ Hl).
  unfold complexWildcardByte, wildcardByte in *.
  destruct (Z.eqb_spec l 42) as [->|H42].
  - change (43 <? 42) with false. cbv iota.
    destruct Hstar as [(? & Hin & _)|[Hno Hgo]]; [specialize (Habove _ Hin); lia|].
    exists tail. split; [destruct Hplus as [(m' & ? & ? & ?)|[? ?]]; [left; exists m'|right]; set_solver|].
    left. exists m. split_and!; [left|lia|done|]. rewrite Hgo. by case_bool_decide.
  - destruct (Z.eqb_spec l 43) as [->|H43].
    + exists (Ret (Z.of_nat m)). split; [left; exists m; split_and!; [done|left|done]|]. right. split; [|done].
      intros [?|Hin]%elem_of_cons; [lia|]. specialize (Habove _ Hin). lia.
    + destruct (Z.ltb_spec 43 l).
      * exists (Ret (-1)). split; right; (split; [|]); try done;
          intros [?|Hin]%elem_of_cons; try lia; specialize (Habove _ Hin); lia.
      * exists tail. split.
        -- destruct Hplus as [(m' & ? & ? & ?)|[? ?]]; [left; exists m'|right]; set_solver.
        -- destruct Hstar as [(m' & ? & ? & ? & ?)|[? ?]]; [left; exists m'|right]; set_solver.
Qed.
End edges.

(** ** Paths of the map *)

Lemma label_ok_nodot l : label_ok l → (domainStepByte ∉ label_bytes l) ∧ (complexWildcardByte ∉ label_bytes l) ∧
  label_bytes l = reverse (sbytes l).
Proof.
  unfold label_bytes. intros [->|[Hne Hl]].
  - split_and!; [set_solver..|done].
  - rewrite bool_decide_false by done. rewrite !elem_of_reverse. rewrite Forall_forall in Hl.
    split_and!; [| |done]; intros Hx; apply Hl in Hx as [[? ?] ?]; done.
Qed.

Lemma label_bytes_inj l l' : label_ok l → label_ok l' → label_bytes l = label_bytes l' → l = l'.
Proof.
  intros (_ & _ & ->)%label_ok_nodot (_ & _ & ->)%label_ok_nodot E. by apply (inj reverse), (inj sbytes) in E.
Qed.

(** The bytes before the label after the path [q0]. *)
Definition before (q0 : list string) : list Z :=
  match q0 with [] => [] | _ => path_bytes q0 ++ [domainStepByte] end.

Lemma before_cons l q : before (l :: q) = label_bytes l ++ domainStepByte :: before q.
Proof.
  unfold before. rewrite path_bytes_cons. destruct q; [by rewrite app_nil_r|].
  by rewrite <- app_assoc.
Qed.

Lemma path_bytes_before q0 l p : path_bytes (q0 ++ l :: p) = before q0 ++ path_bytes (l :: p).
Proof.
  induction q0 as [|x q0 IH]; [done|]. cbn [app]. rewrite path_bytes_cons, before_cons, <- app_assoc.
  destruct (q0 ++ l :: p) as [|y r] eqn:E; [by destruct q0|]. by rewrite IH.
Qed.

(** A path whose bytes continue with a label and a dot. *)
Lemma path_cut q l x :
  path_ok q → label_ok l → path_bytes q = label_bytes l ++ domainStepByte :: x →
  ∃ q', q = l :: q' ∧ path_ok q' ∧ path_bytes q' = x.
Proof.
  intros Hq Hl E. pose proof (label_bytes_ne l) as Hne. destruct Hq as [| |l' q Hl' Hq].
  - by destruct (label_bytes l).
  - cbn in E. destruct (label_bytes l) as [|a [|b r]]; simplify_eq/=; done.
  - rewrite path_bytes_cons in E. fold (rest_bytes q) in E.
    destruct (label_ok_nodot _ Hl) as [Hd _]. destruct (label_ok_nodot _ Hl') as [Hd' _].
    apply cut_inj in E as [E Er]; [|done|done|apply rest_bytes_cut|right; by eexists].
    apply label_bytes_inj in E as ->; [|done|done]. exists q. split_and!; [done|done|].
    destruct q; [done|]. by injection Er.
Qed.

Lemma path_plus q0 q k :
  Forall label_ok q0 → path_ok q → path_bytes q = before q0 ++ complexWildcardByte :: k →
  q = q0 ++ [dotWildcard] ∧ k = [].
Proof.
  intros Hq0. revert q. induction Hq0 as [|l q0 Hl _ IH]; intros q Hq E.
  - simpl in E. destruct Hq as [| |l' q Hl' Hq]; [done|by injection E as <-|]. exfalso.
    rewrite path_bytes_cons in E. destruct (label_ok_nodot _ Hl') as (_ & Hp & _).
    pose proof (label_bytes_ne l'). destruct (label_bytes l') as [|a r]; [done|].
    simplify_eq/=. apply Hp. left.
  - rewrite before_cons, <- app_assoc in E. apply path_cut in E as (q' & -> & Hq' & E); [|done|done].
    destruct (IH q' Hq' E) as [-> ->]. done.
Qed.

Lemma path_ok_elem q x : path_ok q → x ∈ q → x = dotWildcard ∨ label_ok x.
Proof. induction 1; set_solver. Qed.

(** Paths without a suffix are determined by their bytes. *)
Lemma path_bytes_inj q q0 :
  path_ok q → Forall label_ok q0 → path_bytes q = path_bytes q0 → q = q0.
Proof.
  intros Hq Hq0. revert q Hq. induction Hq0 as [|l q0 Hl Hq0 IH]; intros q Hq E.
  - by apply path_bytes_nil in E.
  - rewrite path_bytes_cons in E. destruct q0 as [|l' q0].
    + rewrite app_nil_r in E. destruct Hq as [| |m q Hm Hq].
      * symmetry in E. by apply label_bytes_ne in E.
      * cbn in E. destruct (label_ok_nodot _ Hl) as (_ & Hp & _). rewrite <- E in Hp. set_solver.
      * rewrite path_bytes_cons in E. fold (rest_bytes q) in E.
        destruct (label_ok_nodot _ Hl) as [Hd _]. destruct (label_ok_nodot _ Hm) as [Hd' _].
        rewrite <- (app_nil_r (label_bytes l)) in E.
        apply cut_inj in E as [E Er]; [|done|done|apply rest_bytes_cut|by left].
        apply label_bytes_inj in E as ->; [|done|done]. by destruct q.
    + apply path_cut in E as (q' & -> & Hq' & E); [|done|done]. f_equal. by apply IH.
Qed.

(** ** The last label of a domain *)

Lemma LastIndexByte_absent s c i last : c ∉ s → LastIndexByte_from s c i last = last.
Proof.
  revert i. induction s as [|x s IH]; intros i Hs; simpl; [done|].
  rewrite (proj2 (Z.eqb_neq x c)) by set_solver. apply IH. set_solver.
Qed.

Lemma LastIndexByte_some a b c i last :
  c ∉ b → LastIndexByte_from (a ++ c :: b) c i last = i + len a.
Proof.
  revert i last. induction a as [|x a IH]; intros i last Hb; simpl.
  - rewrite Z.eqb_refl, LastIndexByte_absent by done. lia.
  - rewrite IH by done. lia.
Qed.

(** A label of a query before lower-casing. *)
Definition raw_label (r : string) : Prop :=
  ascii_only (sbytes r) ∧ query_label r ∧ (label_ok (ToLower r) ∨ ToLower r = complexWildcard).

Lemma normalize_ascii r : ascii_only (sbytes r) → normalize r = r.
Proof.
  intros Ha. unfold normalize. replace (existsb _ _) with false; [done|]. symmetry.
  apply not_true_iff_false. rewrite existsb_exists. intros (c & Hc & Hle).
  unfold ascii_only in Ha. rewrite Forall_forall in Ha. apply list_elem_of_In in Hc.
  specialize (Ha c Hc). lia.
Qed.

Lemma split_label_ok r rl :
  raw_label r →
  split_label (reverse (path_bytes (r :: rl))) = Ret (sbytes r, reverse (path_bytes rl)).
Proof.
  intros (Ha & Hq & _). destruct (query_label_bytes r Hq) as [Hb Hd]. destruct Hq as [Hne Hdot].
  rewrite path_bytes_cons, Hb, reverse_app, reverse_involutive. unfold split_label.
  assert (∀ part, of_bytes part = r → sbytes (normalize (of_bytes part)) = sbytes r) as Hn.
  { intros part ->. by rewrite normalize_ascii. }
  destruct rl as [|r' rl].
  - cbn [reverse app rev_append path_bytes]. unfold LastIndexByte. rewrite LastIndexByte_absent by done.
    change (-1 + 1) with 0. change (0 <=? -1) with false. cbv iota. rewrite slice_Ret by lia. run. f_equal.
    rewrite Z.sub_0_r, Nat2Z.id, drop_0, take_ge by done. by rewrite of_bytes_sbytes, normalize_ascii.
  - set (a := path_bytes (r' :: rl)). rewrite reverse_cons, <- app_assoc. cbn [app].
    unfold LastIndexByte. rewrite LastIndexByte_some by done. rewrite Z.add_0_l.
    rewrite slice_Ret by (rewrite ?length_app; simpl; lia). run.
    rewrite (proj2 (Z.leb_le _ _)) by lia. rewrite slice_Ret by (rewrite ?length_app; simpl; lia). run.
    rewrite drop_0, Z.sub_0_r, Nat2Z.id, take_app_length. do 2 f_equal. apply Hn.
    rewrite length_app. simpl.
    replace (Z.to_nat (len (reverse a) + 1)) with (S (length (reverse a))) by lia.
    rewrite drop_app_ge by lia. replace (S _ - _)%nat with 1%nat by lia. simpl.
    rewrite drop_0, take_ge by lia. apply of_bytes_sbytes.
Qed.

(** ** Matching *)

Section matching.
Context {lib : BitmapLib} {spec : BitmapSpec lib} {T : Type} {ss : DomainSet} {K0 : lang} {D : list tnode}.
Hypothesis Henc : encodes ss K0 D.
Hypothesis Hsmall : 64 * len (labelBitmap ss) < 2 ^ 31.
Context {ix : domainMapIndex}.
Hypothesis Hix : index_ok (ss := ss) (D := D) ix.

(** The keys are those of the paths with a value. *)
Context (f : list string → option T).
Hypothesis HK : ∀ k, k ∈ K0 ↔ ∃ q, is_Some (f q) ∧ k = path_bytes q.
Hypothesis Hok : ∀ q, is_Some (f q) → path_ok q.

(** A node that is found: a leaf, of a path with the value. *)
Definition found (o : option T) (r : Z) : Prop :=
  match o with
  | None => r = -1
  | Some v => ∃ m q K, r = Z.of_nat m ∧ D !! m = Some (path_bytes q, K) ∧ has_nil K = true ∧ f q = Some v
  end.

Lemma node_key n pre K k : D !! n = Some (pre, K) → k ∈ K ↔ pre ++ k ∈ K0.
Proof using Henc. clear Hsmall. intros H. apply (node_lang Henc). by eapply list_elem_of_lookup_2. Qed.

Lemma enter_label_ok n q0 K :
  D !! n = Some (path_bytes q0, K) → (n = 0%nat ↔ q0 = []) →
  (∃ m K1, enter_label ix (Z.of_nat n) = Ret (Some (Z.of_nat m, start D m)) ∧
     D !! m = Some (before q0, K1)) ∨
  enter_label ix (Z.of_nat n) = Ret None ∧ ∀ l p, f (q0 ++ l :: p) = None.
Proof using Henc Hix HK spec.
  clear Hsmall Hok. intros H Hn. unfold enter_label. destruct n as [|n].
  { left. pose proof (proj1 Hn eq_refl) as ->. exists 0%nat, K. done. }
  destruct q0 as [|x q0]; [discriminate (proj2 Hn eq_refl)|]. destruct Hix as [Hset Hst].
  rewrite (proj2 (Z.ltb_lt _ _)) by lia. rewrite (Hst (S n) _ _ H) by lia. run. rewrite Hset.
  destruct (find_edge Henc (S n) _ _ domainStepByte H) as (p & -> & Hl & Hch). run. rewrite Hl. run.
  case_bool_decide as Hin; simpl negb; cbv iota.
  - left. destruct (Hch Hin) as (m & -> & Hm & HD). rewrite (Hst m _ _ HD Hm). run. by eexists _, _.
  - right. split; [done|]. intros l q. destruct (f ((x :: q0) ++ l :: q)) as [v|] eqn:E; [|done].
    destruct Hin. apply elem_firsts. exists (path_bytes (l :: q)).
    apply (node_key (S n) _ _ _ H). apply HK. eexists. split; [by rewrite E|].
    rewrite path_bytes_before. unfold before. by rewrite <- app_assoc.
Qed.

(** The walk along a label leads to the node of the longer path. *)
Lemma static_label_ok n q0 K r :
  D !! n = Some (before q0, K) → raw_label r →
  (∃ m K1, static_walk (S (length (sbytes r))) ix (sbytes r) 0 (Z.of_nat n) (start D n) =
      Ret (Some (Z.of_nat m)) ∧ (0 < m)%nat ∧ label_ok (ToLower r) ∧
      D !! m = Some (path_bytes (q0 ++ [ToLower r]), K1)) ∨
  static_walk (S (length (sbytes r))) ix (sbytes r) 0 (Z.of_nat n) (start D n) = Ret None ∧
    ∀ p, f (q0 ++ ToLower r :: p) = None.
Proof using Henc Hix HK Hok spec.
  clear Hsmall. intros H (Ha & [Hne Hd] & Hl).
  assert (walked (sbytes r) = reverse (sbytes (ToLower r))) as Hw.
  { unfold walked. by rewrite fmap_reverse, sbytes_lower. }
  destruct Hl as [Hl|Hl].
  - destruct (label_ok_nodot _ Hl) as (_ & Hp & Hb). rewrite <- Hb in Hw.
    assert (0 < length (sbytes r))%nat as Hpos by (destruct r; simpl; [done|lia]).
    destruct (static_walk_ok Henc Hix (S (length (sbytes r))) (sbytes r) 0 n _ _ (start D n) H)
      as [(m & Hs & HD & Hm)|[Hs Hnil]]; [lia|lia|done|by rewrite drop_0, Hw| |].
    + left. rewrite drop_0, Hw in HD. change (Z.of_nat 0) with 0 in Hs. eexists m, _.
      split_and!; [done|by apply Hm|done|]. rewrite path_bytes_before, HD. done.
    + right. change (Z.of_nat 0) with 0 in Hs. split; [done|]. intros p.
      destruct (f (q0 ++ ToLower r :: p)) as [v|] eqn:E; [|done]. exfalso.
      rewrite drop_0, Hw in Hnil. apply (not_elem_of_nil (rest_bytes p)). rewrite <- Hnil.
      apply elem_derivs, (node_key n _ _ _ H). apply HK. eexists. split; [by rewrite E|].
      rewrite path_bytes_before, path_bytes_cons. done.
  - right. split.
    + eapply (static_walk_plus Henc Hix); [done|]. rewrite Hw, Hl. done.
    + intros p. destruct (f (q0 ++ ToLower r :: p)) as [v|] eqn:E; [|done]. exfalso.
      destruct (path_ok_elem (q0 ++ ToLower r :: p) (ToLower r)) as [Hx|Hx]; [|set_solver| |].
      * apply Hok. by rewrite E.
      * by rewrite Hl in Hx.
      * rewrite Hl in Hx. destruct Hx as [?|[_ Hx]]; [done|]. by apply Forall_cons in Hx as [[[? _] _] _].
Qed.

(** The suffix wildcard. *)
Lemma plus_edge n q0 K :
  D !! n = Some (before q0, K) → Forall label_ok q0 →
  (complexWildcardByte ∈ firsts K ↔ is_Some (f (q0 ++ [dotWildcard]))) ∧
  (complexWildcardByte ∈ firsts K → has_nil (deriv complexWildcardByte K) = true).
Proof using Henc HK Hok.
  clear Hsmall Hix spec. intros H Hq0.
  assert (∀ k, complexWildcardByte :: k ∈ K → is_Some (f (q0 ++ [dotWildcard])) ∧ k = []) as Hp.
  { intros k Hk. apply (node_key n _ _ _ H) in Hk. apply HK in Hk as (q & Hq & E).
    destruct (path_plus q0 q k Hq0 (Hok q Hq) (eq_sym E)) as [-> ->]. done. }
  split; [split|].
  - intros [k Hk]%elem_firsts. by apply Hp in Hk as [? _].
  - intros Hf. apply elem_firsts. exists []. apply (node_key n _ _ _ H). apply HK. eexists.
    split; [done|]. by rewrite path_bytes_before.
  - intros [k Hk]%elem_firsts. apply has_nil_true, elem_deriv. apply Hp in Hk as Hk'.
    destruct Hk' as [_ ->]. done.
Qed.

Lemma best_app q0 l ls :
  best (λ p, f ((q0 ++ [l]) ++ p)) ls = best (λ p, f (q0 ++ l :: p)) ls.
Proof using Type. apply best_ext. intros p. by rewrite <- app_assoc. Qed.

Lemma best_none q0 l ls : (∀ p, f (q0 ++ l :: p) = None) → best (λ p, f (q0 ++ l :: p)) ls = None.
Proof using Type. intros Hn. rewrite (best_ext _ (λ _, None)) by done. apply best_None. Qed.

(** The wildcards, after the label itself has failed. *)
Lemma wildcard_part_ok rec n q0 K r ls :
  D !! n = Some (before q0, K) → Forall label_ok q0 →
  best (λ p, f (q0 ++ ToLower r :: p)) ls = None →
  (∀ m K1, (0 < m)%nat → D !! m = Some (path_bytes (q0 ++ [wildcard]), K1) →
     ∃ t, rec (Z.of_nat m) = Ret t ∧ found (best (λ p, f (q0 ++ wildcard :: p)) ls) t) →
  ∃ t, wildcard_edges (bits_fuel ss) rec ss (sbytes r) (Z.of_nat n) (start D n) = Ret t ∧
    found (match best (λ p, f (q0 ++ wildcard :: p)) ls with
           | Some v => Some v | None => f (q0 ++ [dotWildcard]) end) t.
Proof using Henc HK Hok spec.
  clear Hsmall Hix. intros H Hq0 Hb Hrec. destruct (plus_edge n q0 K H Hq0) as [Hpf Hpn].
  pose proof (firsts_bits Henc _ _ _ H) as Hbits.
  destruct (wildcard_edges_ok Henc (bits_fuel ss) rec (sbytes r) n _ K 0 H ltac:(lia) ltac:(lia))
    as (tail & Hplus & Hstar).
  rewrite drop_0, Z.add_0_r in *.
  assert (∃ t, tail = Ret t ∧ found (f (q0 ++ [dotWildcard])) t) as (t & -> & Ht).
  { destruct Hplus as [(m & -> & Hin & HD)|[-> Hno]].
    - eexists. split; [done|]. destruct (proj1 Hpf Hin) as [v Hv]. rewrite Hv.
      exists m, (q0 ++ [dotWildcard]), (deriv complexWildcardByte K). split_and!; [done| |by apply Hpn|done].
      by rewrite path_bytes_before.
    - eexists. split; [done|]. destruct (f (q0 ++ [dotWildcard])) eqn:E; [|done].
      destruct Hno. apply Hpf. by eexists. }
  destruct Hstar as [(m & Hin & Hm & HD & ->)|[Hno ->]].
  - destruct (Hrec m (deriv wildcardByte K)) as (t' & Ht' & Hf'); [done|by rewrite path_bytes_before|].
    case_bool_decide as Hpart.
    + assert (r = "*") as -> by (by apply (inj sbytes)). change (ToLower "*") with wildcard in Hb.
      exists t. by rewrite Hb.
    + rewrite Ht'. run. destruct (best (λ p, f (q0 ++ wildcard :: p)) ls) as [v|].
      * destruct Hf' as (m' & q & K' & -> & Hf'). rewrite (proj2 (Z.leb_le _ _)) by lia.
        eexists. split; [done|]. by exists m', q, K'.
      * rewrite Hf'. by exists t.
  - exists t. split; [done|]. rewrite best_none; [done|]. intros p.
    destruct (f (q0 ++ wildcard :: p)) as [v|] eqn:E; [|done]. destruct Hno. apply elem_firsts.
    exists (rest_bytes p). apply (node_key n _ _ _ H). apply HK. eexists. split; [by rewrite E|].
    by rewrite path_bytes_before, path_bytes_cons.
Qed.

(** The match from a node: the best path that continues the one of the node. *)
Lemma map_match_ok fuel n q0 K rl :
  D !! n = Some (path_bytes q0, K) → Forall label_ok q0 → (n = 0%nat ↔ q0 = []) →
  Forall raw_label rl → (length rl < fuel)%nat →
  ∃ r, map_match fuel ix (Z.of_nat n) (reverse (path_bytes rl)) = Ret r ∧
    found (best (λ p, f (q0 ++ p)) (ToLower <$> rl)) r.
Proof using Henc Hix HK Hok spec.
  clear Hsmall. revert n q0 K rl. induction fuel as [|fuel IH]; intros n q0 K rl H Hq0 Hn Hrl Hf; [lia|].
  destruct Hrl as [|r rl Hr Hrl].
  - cbn [map_match path_bytes reverse rev_append]. change (reverse (@nil Z)) with (@nil Z). cbv iota.
    destruct Hix as [Hset _]. rewrite Hset. destruct (bitSet_leaf Henc n _ _ H) as (-> & _ & _). run.
    cbn [fmap list_fmap best]. rewrite app_nil_r. eexists. split; [done|].
    pose proof (has_nil_true K) as Hnil. rewrite (node_key n _ _ _ H), app_nil_r in Hnil.
    destruct (f q0) as [v|] eqn:E; simpl.
    + assert (has_nil K = true) as Ht by (apply Hnil, HK; exists q0; by rewrite E).
      rewrite Ht. by exists n, q0, K.
    + destruct (has_nil K); [|done]. destruct (proj1 (HK (path_bytes q0))) as (q & Hq & Eq); [by apply Hnil|].
      symmetry in Eq. apply path_bytes_inj in Eq as ->; [|by apply Hok|done]. rewrite E in Hq. by destruct Hq.
  - assert (∀ l m K1, label_ok l → (0 < m)%nat → D !! m = Some (path_bytes (q0 ++ [l]), K1) →
      ∃ r, map_match fuel ix (Z.of_nat m) (reverse (path_bytes rl)) = Ret r ∧
        found (best (λ p, f (q0 ++ l :: p)) (ToLower <$> rl)) r) as Hrec.
    { intros l m K1 Hl Hm HD. rewrite <- best_app. eapply IH; [done| | |done|simpl in Hf; lia].
      - apply Forall_app. split; [done|by apply Forall_singleton].
      - split; [lia|by destruct q0]. }
    cbn [map_match]. destruct (reverse (path_bytes (r :: rl))) as [|b d] eqn:Hdom.
    { apply (f_equal reverse) in Hdom. rewrite reverse_involutive in Hdom. by apply path_bytes_nil in Hdom. }
    rewrite <- Hdom. clear b d Hdom.
    destruct (enter_label_ok n q0 K H Hn) as [(m1 & K1 & -> & H1)|[-> Hnone]]; run.
    2:{ exists (-1). split; [done|]. csimpl. cbn [best]. rewrite !best_none by done. by rewrite Hnone. }
    rewrite split_label_ok by done. run. rewrite fmap_cons. cbn [best]. destruct Hix as [Hset _]. rewrite Hset.
    assert (∀ t, found (best (λ p, f (q0 ++ ToLower r :: p)) (ToLower <$> rl)) t → ∃ r',
      (if 0 <=? t then Ret t else wildcard_edges (bits_fuel ss)
        (λ childID, map_match fuel ix childID (reverse (path_bytes rl))) ss (sbytes r)
        (Z.of_nat m1) (start D m1)) = Ret r' ∧
      found (match best (λ p, f (q0 ++ ToLower r :: p)) (ToLower <$> rl) with
        | Some v => Some v
        | None => match best (λ p, f (q0 ++ wildcard :: p)) (ToLower <$> rl) with
          | Some v => Some v | None => f (q0 ++ [dotWildcard]) end end) r') as Hcont.
    { intros t Ht. destruct (best (λ p, f (q0 ++ ToLower r :: p)) (ToLower <$> rl)) as [v|] eqn:Hb.
      - destruct Ht as (m & q & K' & -> & Ht). rewrite (proj2 (Z.leb_le _ _)) by lia.
        eexists. split; [done|]. by exists m, q, K'.
      - rewrite Ht. change (0 <=? -1) with false. cbv iota.
        apply (wildcard_part_ok _ m1 q0 K1 r); [done|done|done|].
        intros m K2 Hm HD. apply (Hrec wildcard m K2); [by left|done|done]. }
    destruct (static_label_ok m1 q0 K1 r H1 Hr) as [(m & K2 & -> & Hm & Hl & HD)|[-> Hno]]; run.
    + destruct (Hrec _ m K2 Hl Hm HD) as (t & -> & Ht). run. by apply Hcont.
    + apply Hcont. by rewrite best_none.
Qed.
End matching.

(** ** The builder *)

Lemma path_ok_split q :
  path_ok q → Forall label_ok q ∨ ∃ q0, q = q0 ++ [dotWildcard] ∧ Forall label_ok q0.
Proof.
  induction 1 as [| |l q Hl _ IH]; [by left|right; by exists []|].
  destruct IH as [IH|(q0 & -> & IH)]; [left; by constructor|right]. exists (l :: q0). by split; [|constructor].
Qed.

Lemma path_ok_inj q q' : path_ok q → path_ok q' → path_bytes q = path_bytes q' → q = q'.
Proof.
  intros Hq [Hq'|(q0 & -> & Hq')]%path_ok_split E; [by apply path_bytes_inj|].
  rewrite path_bytes_before in E. by apply (path_plus q0 q []) in E as [-> _].
Qed.

Section builder.
Context {T : Type}.
Implicit Types vk : gmap (list Z) T.

Lemma lookup_store_keys ks v vk k :
  store_keys ks v vk !! k = if bool_decide (k ∈ ks) then Some v else vk !! k.
Proof.
  revert vk. induction ks as [|k0 ks IH]; intros vk; simpl; [done|]. rewrite IH.
  destruct (decide (k ∈ ks)); [rewrite !bool_decide_true by set_solver; done|].
  rewrite bool_decide_false by done. destruct (decide (k = k0)) as [->|Hne].
  - by rewrite lookup_insert_eq, bool_decide_true by set_solver.
  - by rewrite lookup_insert_ne, bool_decide_false by set_solver.
Qed.

Lemma map_Insert_ok (b : DomainMapBuilder T) d v :
  ascii_only (sbytes d) →
  map_Insert b d v =
    Ret (match ValidAndSplitDomain d with
         | inl e => inl e
         | inr _ => inr (mkMapBuilder (mkBuilder (keys (mb_set b) ++ pattern_keys d))
                           (store_keys (pattern_keys d) v (valueKeys b)))
         end).
Proof.
  intros Ha. unfold map_Insert. rewrite builder_Insert_ok by done. run.
  destruct (ValidAndSplitDomain d); [done|]. simpl keys.
  rewrite slice_Ret by (rewrite ?length_app; lia). run. do 2 f_equal.
  rewrite length_app. f_equal. rewrite Nat2Z.id, drop_app_length, take_ge by lia. done.
Qed.

(** Insert patterns with values; the ones that are rejected change nothing. *)
Fixpoint map_insert_all (b : DomainMapBuilder T) (ins : list (string * T)) :
    outcome (DomainMapBuilder T) :=
  match ins with
  | [] => Ret b
  | (d, v) :: ins =>
    r ← map_Insert b d v;
    match r with inl _ => map_insert_all b ins | inr b => map_insert_all b ins end
  end.

(** The values are those of the paths. *)
Definition agrees vk (f : list string → option T) : Prop :=
  ∀ q, path_ok q → vk !! path_bytes q = f q.

Lemma map_insert_all_ok (b : DomainMapBuilder T) f ins :
  Forall (λ d, ascii_only (sbytes d)) ins.*1 → agrees (valueKeys b) f →
  ∃ vk, map_insert_all b ins =
      Ret (mkMapBuilder (mkBuilder (keys (mb_set b) ++ mjoin (pattern_keys <$> ins.*1))) vk) ∧
    agrees vk (sem f ins).
Proof.
  revert b f. induction ins as [|[d v] ins IH]; intros b f Ha Hf.
  { exists (valueKeys b). destruct b as [[ks] vk]. simpl. by rewrite app_nil_r. }
  csimpl in *. apply Forall_cons in Ha as [Hd Ha]. cbn [map_insert_all sem].
  rewrite map_Insert_ok by done. run. destruct (ValidAndSplitDomain d) as [e|parts] eqn:Hv.
  - destruct (IH b f Ha Hf) as (vk & -> & Hvk). exists vk. split; [|done].
    unfold pattern_keys at 2. by rewrite Hv.
  - edestruct IH as (vk & -> & Hvk); [done| |exists vk; split; [by rewrite app_assoc|exact Hvk]].
    intros q Hq. simpl valueKeys. rewrite lookup_store_keys, Hf by done. unfold pattern_keys. rewrite Hv.
    rewrite (bool_decide_ext (path_bytes q ∈ path_bytes <$> paths parts) (q ∈ paths parts)); [done|].
    rewrite list_elem_of_fmap. split; [|naive_solver]. intros (q' & E & Hq').
    apply path_ok_inj in E as ->; [done|done|]. by eapply paths_ok.
Qed.
End builder.

(** The number of a leaf among the leaves. *)
Lemma terminals_rank D m pre K :
  D !! m = Some (pre, K) → has_nil K = true →
  terminals D !! trues (take m (enc_leaves D)) = Some pre.
Proof.
  revert m. induction D as [|n D IH]; intros m H Hn; [done|].
  unfold terminals, enc_leaves in *. destruct m as [|m]; simpl in H.
  - injection H as ->. csimpl. by rewrite Hn.
  - csimpl. unfold trues. rewrite filter_cons. destruct (has_nil n.2) eqn:E; simpl.
    + by apply IH.
    + by apply IH.
Qed.

Lemma called_values {T} (g : list Z → T) D acc :
  called (Some (λ k vs, vs ++ [g k])) D acc = acc ++ (g <$> terminals D).
Proof.
  unfold called. revert acc. induction (terminals D) as [|k l IH]; intros acc; simpl.
  - by rewrite app_nil_r.
  - rewrite IH. by rewrite <- app_assoc.
Qed.

Lemma Split_lower s : Split domainStep (ToLower s) = ToLower <$> Split domainStep s.
Proof.
  induction s as [|a s IH]; [done|]. cbn [ToLower map_string Split]. fold (ToLower s).
  change (Split domainStep (String (lower_byte a) (ToLower s))) with
    (if Ascii.eqb (lower_byte a) domainStep then "" :: Split domainStep (ToLower s)
     else match Split domainStep (ToLower s) with
          | [] => [String (lower_byte a) ""] | p :: ps => String (lower_byte a) p :: ps end).
  rewrite IH. assert (Ascii.eqb (lower_byte a) domainStep = Ascii.eqb a domainStep) as ->.
  { pose proof (lower_byte_no_letter a domainStep eq_refl) as Hl.
    destruct (Ascii.eqb_spec (lower_byte a) domainStep), (Ascii.eqb_spec a domainStep); naive_solver. }
  destruct (Ascii.eqb a domainStep); [done|]. by destruct (Split domainStep s).
Qed.

(** The labels of a valid query before lower-casing. *)
Lemma raw_labels d labels :
  ValidAndSplitDomain d = inr labels → hd "" labels ≠ "" → ascii_only (sbytes d) →
  let rl := reverse (Split domainStep d) in
  Forall raw_label rl ∧ ToLower <$> rl = reverse labels ∧ sbytes d = reverse (path_bytes rl).
Proof.
  intros Hd Hh Ha rl. pose proof (Valid_iff d labels) as [Hv _]. specialize (Hv Hd).
  destruct Hv as (_ & _ & _ & _ & Hs & _). rewrite Split_lower in Hs.
  assert (ToLower <$> rl = reverse labels) as Hrl by (unfold rl; by rewrite fmap_reverse, Hs).
  assert (Forall (λ r, r ≠ "") (Split domainStep d) ∧
    Forall (λ l, label_ok l ∨ l = complexWildcard) labels) as [Hne Hlab].
  { destruct (ValidAndSplit_cons _ _ Hd) as (p & ps & Hp & Hps). rewrite Hp in *. simpl in Hh.
    destruct (Valid_labels _ _ _ Hd) as (Hl & Hlp & _). split.
    - assert (Forall (λ q, q ≠ "") (ToLower <$> Split domainStep d)) as Hx by (rewrite <- Hs; by constructor).
      rewrite Forall_fmap in Hx. eapply Forall_impl; [exact Hx|]. by intros r Hr ->.
    - constructor; [destruct Hlp as [->|[->|?]]; [done|by right|by left]|].
      eapply Forall_impl; [exact Hl|]. by left. }
  split_and!; [|done|].
  - unfold rl. apply Forall_reverse, Forall_forall. intros r Hr. rewrite Forall_forall in Hne, Hlab.
    pose proof (Split_parts domainStep d) as Hdots. rewrite Forall_forall in Hdots.
    rewrite <- (Join_Split domainStep d) in Ha. apply Join_labels in Ha. rewrite Forall_forall in Ha.
    split_and!; [by apply Ha| |].
    + split; [by apply Hne|]. by apply (has_byte_bytes domainStep), Hdots.
    + apply Hlab. rewrite Hs. apply list_elem_of_fmap. by exists r.
  - destruct (Split_cons domainStep d) as (p & ps & Hp). unfold rl. rewrite Hp in *.
    apply Forall_cons in Hne as [Hpn Hpsn]. rewrite <- join_path_bytes by done.
    rewrite bool_decide_false, reverse_involutive by done. unfold joinDomain. by rewrite <- Hp, Join_Split.
Qed.

Lemma length_path_bytes q : (length q ≤ length (path_bytes q))%nat.
Proof.
  induction q as [|l q IH]; [done|]. rewrite path_bytes_cons, length_app.
  pose proof (label_bytes_ne l). destruct (label_bytes l) as [|b r]; [done|].
  destruct q; simpl in *; lia.
Qed.

(** Inserting the patterns of keys one by one stores the values under the keys. *)
Lemma reinsert_pairs {T} (g : list Z → T) K :
  Forall (λ k, clean (pattern_of k) ∧ pattern_keys (pattern_of k) = [k]) K →
  ∃ vk, map_insert_all newMapBuilder ((λ k, (pattern_of k, g k)) <$> K) =
      Ret (mkMapBuilder (mkBuilder K) vk) ∧ ∀ k, k ∈ K → vk !! k = Some (g k).
Proof.
  intros HK.
  assert (∀ b : DomainMapBuilder T, ∃ vk,
    map_insert_all b ((λ k, (pattern_of k, g k)) <$> K) =
      Ret (mkMapBuilder (mkBuilder (keys (mb_set b) ++ K)) vk) ∧
    (∀ k, k ∈ K → vk !! k = Some (g k)) ∧ (∀ k, k ∉ K → vk !! k = valueKeys b !! k)) as Hb.
  { induction HK as [|k K (Hc & Hk) HK IH]; intros b.
    { exists (valueKeys b). destruct b as [[ks] vk]. simpl. rewrite app_nil_r. split_and!; [done|set_solver|done]. }
    rewrite fmap_cons. cbn [map_insert_all]. rewrite map_Insert_ok by (by apply clean_ascii). run.
    destruct (ValidAndSplitDomain (pattern_of k)) as [e|parts] eqn:Hv;
      [unfold pattern_keys in Hk; by rewrite Hv in Hk|]. rewrite Hk.
    destruct (IH (mkMapBuilder (mkBuilder (keys (mb_set b) ++ [k])) (store_keys [k] (g k) (valueKeys b))))
      as (vk & -> & H1 & H2).
    exists vk. simpl. rewrite <- app_assoc. split_and!; [done| |].
    - intros k' Hk'. destruct (decide (k' ∈ K)); [by apply H1|]. rewrite H2 by done. simpl.
      apply elem_of_cons in Hk' as [->|?]; [|done]. by rewrite lookup_insert_eq.
    - intros k' Hk'. rewrite H2 by set_solver. simpl. rewrite lookup_insert_ne by set_solver. done. }
  destruct (Hb newMapBuilder) as (vk & -> & H1 & _). by exists vk.
Qed.

(** ** The map *)

Section theorems.
Context {lib : BitmapLib} {spec : BitmapSpec lib} {T : Type} (zero : T).

(** A map that is built: the set, the cached starts, and the values by keys. *)
Lemma map_Build_ok (b : DomainMapBuilder T) :
  keys (mb_set b) ≠ [] → fits (keys (mb_set b)) →
  let D := nodes_of (sorted_keys (keys (mb_set b))) in
  ∃ m ix ss,
    map_Build zero (Some b) = Ret (Some m, Some newMapBuilder) ∧ index m = Some ix ∧
    encodes ss (sorted_keys (keys (mb_set b))) D ∧ 64 * len (labelBitmap ss) < 2 ^ 31 ∧
    index_ok (ss := ss) (D := D) ix ∧ map_IsEmpty (Some m) = false ∧
    ∀ n pre K, D !! n = Some (pre, K) → has_nil K = true →
      leaf_value m ix (Z.of_nat n) = Ret (default zero (valueKeys b !! pre)).
Proof using spec.
  intros Hne Hf D. unfold map_Build. rewrite bool_decide_false.
  2:{ destruct (keys (mb_set b)); [done|simpl; lia]. }
  set (g := λ k, default zero (valueKeys b !! k)).
  destruct (buildDomainSet_encodes (Some (λ k vs, vs ++ [g k])) (keys (mb_set b)) [] Hne)
    as (ss & Hb & He & Hsm). destruct (Hsm Hf) as [Hs1 Hs2]. unfold g in Hb at 1. rewrite Hb. run.
  fold D in He |- *. clearbody D.
  rewrite called_values. simpl app. unfold map_init.
  destruct (initSelectDeltas_ok He Hs1) as (ix & -> & Hix). run.
  eexists _, ix, ss. split; [done|]. split; [done|]. split_and!; try done.
  - unfold map_IsEmpty. simpl. apply bool_decide_eq_false_2.
    destruct (lookup_lt_is_Some_2 D (length D - 1)) as [[pre K] H].
    { pose proof (length_nodes He). lia. }
    pose proof (terminals_rank _ _ _ _ H (last_node_leaf He _ _ H)) as Ht.
    destruct (terminals D); [done|]. simpl. lia.
  - intros n pre K H Hn. unfold leaf_value. cbn [leafRanks values].
    destruct Hix as [-> _]. destruct (bitSet_leaf He n _ _ H) as (_ & _ & Hlt).
    rewrite i32_small by lia. rewrite (Rank64_ranks (leaves ss)) by lia.
    destruct (enc_leaf _ _ _ He) as (Hbits & _). rewrite (ones_bits _ _ _ Hbits).
    apply idx_lookup; [lia|]. rewrite Nat2Z.id, list_lookup_fmap, (terminals_rank _ _ _ _ H Hn). done.
Qed.

(** C5: looking a domain up in a map of ASCII patterns (of less than 2^30 bytes in all)
    gives the value that the trie with the same insertions finds, with the same priority:
    the label itself, then a star, then a suffix wildcard; and of equal patterns the last
    one inserted.  The domain is a valid one in ASCII: the trie refuses other names, such
    as those that end in a dot, while a lookup in the map does not validate them. *)
Theorem domain_map_lookup ins b d labels :
  Forall (λ p, ascii_only (sbytes p)) ins.*1 → map_insert_all newMapBuilder ins = Ret b →
  fits (keys (mb_set b)) →
  ValidAndSplitDomain d = inr labels → hd "" labels ≠ "" → ascii_only (sbytes d) →
  ∃ m, map_Build zero (Some b) = Ret (m, Some newMapBuilder) ∧
    Lookup zero m d =
      Ret (match Data (Search (build New ins) d) with Some v => (v, true) | None => (zero, false) end).
Proof using spec.
  intros Ha Hb Hf Hd Hh Had.
  destruct (map_insert_all_ok newMapBuilder (λ _, None) ins Ha) as (vk & Hb' & Hvk); [by intros q _|].
  rewrite Hb' in Hb. injection Hb as <-. simpl keys in *.
  set (ks := mjoin (pattern_keys <$> ins.*1)) in *. set (f := getPath (build New ins)).
  destruct (Search_best (build New ins) d) as [-> _]. rewrite Hd, bool_decide_false by done.
  assert (∀ q, path_ok q → vk !! path_bytes q = f q) as Hval.
  { intros q Hq. rewrite Hvk by done. unfold f. rewrite getPath_build. apply sem_ext.
    intros q'. by rewrite getPath_New. }
  assert (∀ k, k ∈ ks ↔ ∃ q, is_Some (f q) ∧ k = path_bytes q) as HK.
  { intros k. unfold ks. rewrite elem_pattern_keys. by setoid_rewrite <- getPath_stored. }
  assert (∀ q, is_Some (f q) → path_ok q) as Hok.
  { intros q (d' & parts & _ & Hd' & Hq)%getPath_stored. by eapply paths_ok. }
  destruct (decide (ks = [])) as [Hnil|Hne].
  { exists None. unfold map_Build. simpl keys. rewrite Hnil. split; [done|]. simpl.
    rewrite (best_ext _ (λ _, None)), best_None; [done|]. intros q. destruct (f q) as [v|] eqn:E; [|done].
    exfalso. apply (not_elem_of_nil (path_bytes q)). rewrite <- Hnil. apply HK. exists q. by rewrite E. }
  destruct (map_Build_ok (mkMapBuilder (mkBuilder ks) vk) Hne Hf)
    as (m & ix & ss & -> & Hm & He & Hsm & Hix & Hnz & Hleaf).
  exists (Some m). split; [done|]. unfold Lookup. rewrite Hnz, Hm. simpl keys in *.
  destruct (raw_labels d labels Hd Hh Had) as (Hraw & Hlow & Hbytes).
  set (rl := reverse (Split domainStep d)) in *.
  destruct (map_match_ok He Hix f ltac:(intros k; by rewrite elem_sorted_keys) Hok
    (2 + String.length d) 0 [] _ rl (root_node He)) as (r & Hr & Hfound); [constructor|done|done| |].
  { pose proof (length_path_bytes rl). apply (f_equal length) in Hbytes.
    rewrite sbytes_length, length_reverse in Hbytes. lia. }
  rewrite <- Hbytes in Hr. change (Z.of_nat 0) with 0 in Hr. rewrite Hr. run. rewrite Hlow in Hfound.
  rewrite (best_ext _ f (reverse labels)) in Hfound by done. fold f.
  destruct (best f (reverse labels)) as [v|]; simpl in Hfound.
  - destruct Hfound as (n & q & K & -> & HD & Hnl & Hv).
    rewrite (proj2 (Z.ltb_ge _ _)) by lia. rewrite (Hleaf n _ _ HD Hnl). run. simpl valueKeys.
    rewrite Hval by (apply Hok; by rewrite Hv). by rewrite Hv.
  - by rewrite Hfound.
Qed.

Lemma elem_terminals (ss : DomainSet) K D k : encodes ss K D → k ∈ terminals D → k ∈ K.
Proof using Type.
  clear spec zero. intros He Hk. unfold terminals in Hk. apply list_elem_of_omap in Hk as ([pre K'] & Hn & Hx).
  simpl in Hx. destruct (has_nil K') eqn:E; [|done]. injection Hx as ->.
  apply has_nil_true, (node_lang He k K' [] Hn) in E. by rewrite app_nil_r in E.
Qed.

(** A map depends on which keys there are and on their values only. *)
Lemma map_Build_ext (b b2 : DomainMapBuilder T) :
  (∀ k, k ∈ keys (mb_set b) ↔ k ∈ keys (mb_set b2)) →
  (∀ k, k ∈ keys (mb_set b) → default zero (valueKeys b !! k) = default zero (valueKeys b2 !! k)) →
  map_Build zero (Some b) = map_Build zero (Some b2).
Proof using spec.
  destruct b as [[ks] vk], b2 as [[ks2] vk2]. unfold map_Build. simpl. intros Hks Hv.
  destruct (decide (ks = [])) as [->|Hne].
  { destruct ks2 as [|k ks2]; [done|]. exfalso. apply (not_elem_of_nil k), Hks. left. }
  destruct (decide (ks2 = [])) as [->|Hne2].
  { destruct ks as [|k ks]; [done|]. exfalso. apply (not_elem_of_nil k), Hks. left. }
  rewrite !bool_decide_false by (by destruct ks, ks2).
  set (g := λ k, default zero (vk !! k)). set (g2 := λ k, default zero (vk2 !! k)).
  change (λ key vs, vs ++ [default zero (vk !! key)]) with (λ key vs, vs ++ [g key]).
  change (λ key vs, vs ++ [default zero (vk2 !! key)]) with (λ key vs, vs ++ [g2 key]).
  rewrite (buildDomainSet_ext (Some (λ key vs, vs ++ [g key])) ks ks2 [] Hks).
  pose proof (buildDomainSet_fst (Some (λ key vs, vs ++ [g key])) (Some (λ key vs, vs ++ [g2 key]))
    ks2 [] []) as Hfst.
  destruct (buildDomainSet_encodes (Some (λ key vs, vs ++ [g key])) ks2 [] Hne2) as (ss & Hb & He & _).
  destruct (buildDomainSet_encodes (Some (λ key vs, vs ++ [g2 key])) ks2 [] Hne2) as (ss2 & Hb2 & _).
  rewrite Hb, Hb2 in *. injection Hfst as <-. rewrite !called_values.
  assert (g <$> terminals (nodes_of (sorted_keys ks2)) = g2 <$> terminals (nodes_of (sorted_keys ks2)))
    as Hg; [|by rewrite Hg].
  apply list_fmap_ext. intros _ k Hk%list_elem_of_lookup_2. apply Hv, Hks.
  apply elem_sorted_keys. by eapply elem_terminals.
Qed.

Definition collect_pair (d : string) (v : T) (s : list (string * T)) : bool * list (string * T) :=
  (true, s ++ [(d, v)]).

Lemma visit_collect_pair (g : list Z → T) K s :
  visit_all (λ k, collect_pair (pattern_of k) (g k)) K s = (true, s ++ ((λ k, (pattern_of k, g k)) <$> K)).
Proof using Type.
  clear spec zero lib. revert s. induction K as [|k K IH]; intros s; csimpl; [by rewrite app_nil_r|].
  by rewrite IH, <- app_assoc.
Qed.

(** The patterns and values that [Foreach] gives can be inserted again, and the map
    built from them is the same, field by field. *)
Theorem domain_map_foreach ins b m b' :
  Forall clean ins.*1 → map_insert_all newMapBuilder ins = Ret b → fits (keys (mb_set b)) →
  map_Build zero (Some b) = Ret (Some m, b') →
  ∃ l b2, map_Foreach collect_pair (Some m) [] = Ret l ∧
    map_insert_all newMapBuilder l = Ret b2 ∧ map_Build zero (Some b2) = Ret (Some m, b').
Proof using spec.
  intros Hc Hb Hf HB.
  destruct (map_insert_all_ok newMapBuilder (λ _, None) ins (clean_ascii_all _ Hc)) as (vk & Hb' & Hvk);
    [by intros q _|]. rewrite Hb' in Hb. injection Hb as <-. simpl keys in *.
  set (ks := mjoin (pattern_keys <$> ins.*1)) in *. set (K := sorted_keys ks).
  destruct (decide (ks = [])) as [Hnil|Hne]; [unfold map_Build in HB; simpl in HB; by rewrite Hnil in HB|].
  destruct (map_Build_ok (mkMapBuilder (mkBuilder ks) vk) Hne Hf)
    as (m' & ix & ss & HB' & Hm & He & Hsm & [Hset Hix] & Hnz & Hleaf).
  rewrite HB in HB'. injection HB' as <- ->. simpl keys in *. simpl valueKeys in *. fold K in He, Hleaf.
  set (g := λ k, default zero (vk !! k)). unfold map_Foreach. rewrite Hnz, Hm, Hset.
  rewrite (keys_of_ok He Hsm _ (λ k, collect_pair (pattern_of k) (g k))).
  2:{ intros n pre K' s HD Hn. by rewrite (Hleaf n pre K' HD Hn). }
  rewrite visit_collect_pair. cbn [snd app].
  assert (∀ k, k ∈ K ↔ ∃ q, stored ins.*1 q ∧ k = path_bytes q) as HK.
  { intros k. unfold K. rewrite elem_sorted_keys. apply elem_pattern_keys. }
  assert (Forall (λ k, clean (pattern_of k) ∧ pattern_keys (pattern_of k) = [k]) K) as Hp.
  { apply Forall_forall. intros k (q & Hst & ->)%HK.
    by destruct (stored_pattern ins.*1 q Hc Hst) as (-> & ? & ?). }
  exists ((λ k, (pattern_of k, g k)) <$> K).
  destruct (reinsert_pairs g K) as (vk2 & Hi & Hv2); [done|]. rewrite Hi. eexists. split_and!; [done..|].
  rewrite <- HB. apply map_Build_ext; simpl.
  - apply elem_sorted_keys.
  - intros k Hk. rewrite Hv2 by done. done.
Qed.
End theorems.

Module MapExamples.
Import SetExamples.

Definition map_builder : DomainMapBuilder nat :=
  match map_insert_all newMapBuilder patterns with Ret b => b | _ => newMapBuilder end.

Definition example_map : DomainMap nat :=
  match @map_Build counting_lib nat 0%nat (Some map_builder) with
  | Ret (Some m, _) => m
  | _ => mkMap None [] []
  end.

Lemma domain_map_lookup_witness :
  ∃ m, @map_Build counting_lib nat 0%nat (Some map_builder) = Ret (m, Some newMapBuilder) ∧
    @Lookup counting_lib nat 0%nat m "WWW.example.com" = Ret (1%nat, true).
Proof.
  destruct (domain_map_lookup (lib := counting_lib) 0%nat patterns map_builder "WWW.example.com"
    ["www"; "example"; "com"]) as (m & H1 & H2).
  - apply clean_ascii_all. exact patterns_clean.
  - vm_compute. reflexivity.
  - vm_compute. reflexivity.
  - vm_compute. reflexivity.
  - done.
  - apply clean_ascii, clean_dec. reflexivity.
  - exists m. split; [exact H1|]. rewrite H2. vm_compute. reflexivity.
Defined.

Lemma domain_map_foreach_witness :
  ∃ l b2, @map_Foreach counting_lib nat _ collect_pair (Some example_map) [] = Ret l ∧
    map_insert_all newMapBuilder l = Ret b2 ∧
    @map_Build counting_lib nat 0%nat (Some b2) = Ret (Some example_map, Some newMapBuilder).
Proof.
  apply (domain_map_foreach (lib := counting_lib) 0%nat patterns map_builder example_map (Some newMapBuilder)).
  - exact patterns_clean.
  - vm_compute. reflexivity.
  - vm_compute. reflexivity.
  - vm_compute. reflexivity.
Defined.

(** The entries of the map, as [Foreach] gives them. *)
Example map_entries :
  @map_Foreach counting_lib nat _ collect_pair (Some example_map) [] =
    Ret [(".a.b", 3%nat); ("*.org", 2%nat); ("example.com", 1%nat); (".example.com", 1%nat)].
Proof. vm_compute. reflexivity. Qed.
End MapExamples.
