(* ===== verification/SetBin.v ===== *)
(** * The binary form of domain sets and maps
      ([component/trie/domain_set_bin.go], [component/trie/domain_map_bin.go])

    A set is written as its two bitmaps and its labels, each after its length; the
    indexes are computed again by the reader.  A map is written as its set followed by
    its values, whose own form is an argument of the functions, as in the code.

    The reader believes the lengths: a slice is allocated before its elements are
    read, and the runtime panics when the size is above what it can allocate. *)

From stdpp Require Import sorting.
From S2P Require Import Prelude Wire GoStrings Runes DomainTrie Louds DomainSet SetTrie DomainMap.

(** ** Reading and writing integers and slices *)

(** [binary.Read(r, binary.BigEndian, &length)] for an [int64]. *)
Definition ReadInt64 : rd Z := v ← ReadBE 8; mret (i64 v).

(** The largest allocation of the runtime on 64-bit systems. *)
Definition maxAlloc : Z := 2 ^ 48.

(** [make([]T, n)] for elements of [size] bytes. *)
Definition makeslice (size n : Z) : rd unit :=
  if (n <? 0) || (maxAlloc <? size * n) then rcrash "runtime error: makeslice: len out of range"
  else mret tt.

(** The loop that fills a slice of [n] elements. *)
Fixpoint read_each {A} (n : nat) (read : rd A) : rd (list A) :=
  match n with
  | O => mret []
  | S n => x ← read; xs ← read_each n read; mret (x :: xs)
  end.

(** A length that has to be positive. *)
Definition read_length : rd Z :=
  length ← ReadInt64;
  if length <? 1 then rfail (ErrMsg "length is invalid") else mret length.

Definition read_words : rd (list Z) :=
  length ← read_length;
  _ ← makeslice 8 length;
  read_each (Z.to_nat length) (ReadBE 8).

Section write.
Context {W : Type} `{!Writer W}.

Fixpoint write_each {A} (write : W → A → result W) (w : W) (l : list A) : result W :=
  match l with
  | [] => Ok w
  | x :: l => w ← write w x; write_each write w l
  end.

Definition write_words (w : W) (l : list Z) : result W :=
  w ← WriteBE 8 w (len l);
  write_each (WriteBE 8) w l.

(** ** Sets *)

Definition set_WriteBin (w : W) (ss : DomainSet) : result W :=
  w ← WriteByte w 1;
  w ← write_words w (leaves ss);
  w ← write_words w (labelBitmap ss);
  w ← WriteBE 8 w (len (labels ss));
  Write w (labels ss).

(** ** Maps *)

Definition map_WriteBin {T} (w : W) (writeValue : W → T → result W) (mapping : option (DomainMap T)) :
    outcome (result W) :=
  match mapping with
  | None => Ret (Err (ErrMsg "empty domainMap"))
  | Some m =>
    if map_IsEmpty mapping then Ret (Err (ErrMsg "empty domainMap"))
    else
      match index m with
      | None => Panic "invalid memory address or nil pointer dereference"
      | Some ix => Ret (
          w ← set_WriteBin w (ix_set ix);
          w ← WriteByte w 0;
          w ← WriteByte w 1;
          w ← WriteBE 8 w (len (values m));
          write_each writeValue w (values m))
      end
  end.
End write.

Section read.
Context {lib : BitmapLib}.

Definition ReadDomainSetBin : rd DomainSet :=
  version ← ReadFull 1;
  if negb (bool_decide (version = [1])) then rfail (ErrMsg "version is invalid")
  else
    leaves ← read_words;
    labelBitmap ← read_words;
    length ← read_length;
    _ ← makeslice 1 length;
    labels ← ReadFull (Z.to_nat length);
    mret (init leaves labelBitmap labels).

(** A computation without effects on the reader. *)
Definition compute {A} (m : outcome A) : rd A :=
  match m with
  | Ret a => mret a
  | Panic msg => rcrash msg
  | OutOfFuel => rcrash "out of fuel"
  end.

(** [sizeof] is the size of a value in memory. *)
Definition ReadDomainMapBin {T} (sizeof : Z) (readValue : rd T) : rd (DomainMap T) :=
  set ← ReadDomainSetBin;
  separator ← ReadFull 1;
  if negb (bool_decide (separator = [0])) then rfail (ErrMsg "separator is invalid")
  else
    version ← ReadFull 1;
    if negb (bool_decide (version = [1])) then rfail (ErrMsg "version is invalid")
    else
      length ← read_length;
      _ ← makeslice sizeof length;
      values ← read_each (Z.to_nat length) readValue;
      compute (map_init (leaves set) set values).
End read.

(** ** The format *)

#[global] Instance mono_read_each {A} n (read : rd A) : Mono read → Mono (read_each n read).
Proof. intros Hr. induction n; simpl; apply _. Qed.

#[global] Instance mono_ReadInt64 : Mono ReadInt64.
Proof. unfold ReadInt64. apply _. Qed.

#[global] Instance mono_makeslice size n : Mono (makeslice size n).
Proof. unfold makeslice. apply _. Qed.

#[global] Instance mono_read_length : Mono read_length.
Proof. unfold read_length. apply _. Qed.

#[global] Instance mono_read_words : Mono read_words.
Proof. unfold read_words. apply _. Qed.

#[global] Instance mono_ReadDomainSetBin `{BitmapLib} : Mono ReadDomainSetBin.
Proof. unfold ReadDomainSetBin. apply _. Qed.

#[global] Instance mono_compute {A} (m : outcome A) : Mono (compute m).
Proof. destruct m; apply _. Qed.

#[global] Instance mono_ReadDomainMapBin `{BitmapLib} {T} sizeof (readValue : rd T) :
  Mono readValue → Mono (ReadDomainMapBin sizeof readValue).
Proof. intros. unfold ReadDomainMapBin. apply _. Qed.

(** The lengths that a slice of elements of [size] bytes can have. *)
Definition slice_ok (size n : Z) : Prop := 1 ≤ n ∧ 0 ≤ size ∧ size * n ≤ maxAlloc ∧ n < 2 ^ 63.

Lemma read_length_ok n s : 1 ≤ n < 2 ^ 63 → read_length (be 8 n ++ s) = Got n s.
Proof.
  intros Hn. unfold read_length, ReadInt64.
  erewrite rd_bind_Got by (erewrite rd_bind_Got by (apply ReadBE_app; lia); done).
  rewrite wraps_small by lia. by destruct (Z.ltb_spec n 1); [lia|].
Qed.

Lemma makeslice_ok size n s : slice_ok size n → makeslice size n s = Got tt s.
Proof.
  intros (H1 & H2 & H3 & _). unfold makeslice.
  by destruct (Z.ltb_spec n 0), (Z.ltb_spec maxAlloc (size * n)); try lia.
Qed.

Section each.
Context {A} (ok : A → Prop) (write : list Z → A → result (list Z)) (read : rd A).
Context {HC : Codec ok write read}.

Lemma write_each_read l w :
  Forall ok l → ∃ bs, write_each write w l = Ok (w ++ bs) ∧
    ∀ rest, read_each (length l) read (bs ++ rest) = Got l rest.
Proof using HC.
  intros Hl. revert w. induction Hl as [|x l Hx _ IH]; intros w; simpl.
  { exists []. by rewrite app_nil_r. }
  destruct (codec_roundtrip x w Hx) as (b1 & -> & Hr1). cbn [mbind result_bind].
  destruct (IH (w ++ b1)) as (b2 & -> & Hr2). exists (b1 ++ b2). split; [by rewrite app_assoc|].
  intros rest. rewrite <- app_assoc. erewrite rd_bind_Got by apply Hr1.
  by erewrite rd_bind_Got by apply Hr2.
Qed.
End each.

#[global] Instance word_codec : Codec u64_ok (WriteBE 8) (ReadBE 8).
Proof.
  split; [|apply _]. intros v w Hv. exists (be 8 v). split; [done|]. intros rest.
  by apply ReadBE_app.
Qed.

(** What is written for a slice of words. *)
Definition words_ok (l : list Z) : Prop := Forall u64_ok l ∧ slice_ok 8 (len l).

#[global] Instance words_codec : Codec words_ok write_words read_words.
Proof.
  split; [|apply _]. intros l w [Hl Hs]. pose proof Hs as (H1 & _ & _ & H2).
  destruct (write_each_read u64_ok (WriteBE 8) (ReadBE 8) l (w ++ be 8 (len l)) Hl) as (bs & Hw & Hr).
  exists (be 8 (len l) ++ bs). split; [unfold write_words; wr_run; by rewrite app_assoc|].
  intros rest. unfold read_words. rewrite <- app_assoc.
  erewrite rd_bind_Got by (apply read_length_ok; lia).
  erewrite rd_bind_Got by (by apply makeslice_ok). rewrite Nat2Z.id. apply Hr.
Qed.

Section codecs.
Context {lib : BitmapLib}.

(** A set that was built, and that is small enough to be allocated again. *)
Definition bin_ok (ss : DomainSet) : Prop :=
  words_ok (leaves ss) ∧ words_ok (labelBitmap ss) ∧ slice_ok 1 (len (labels ss)) ∧
  ss = init (leaves ss) (labelBitmap ss) (labels ss).

#[global] Instance set_codec : Codec bin_ok set_WriteBin ReadDomainSetBin.
Proof.
  split; [|apply _]. intros ss w (Hlv & Hbm & Hlab & Hss). pose proof Hlab as (H1 & _ & _ & H2).
  unfold set_WriteBin, ReadDomainSetBin. change (WriteByte w 1) with (Ok (w ++ [1])).
  cbn [mbind result_bind].
  destruct (codec_roundtrip (leaves ss) (w ++ [1]) Hlv) as (b1 & -> & Hr1). cbn [mbind result_bind].
  destruct (codec_roundtrip (labelBitmap ss) ((w ++ [1]) ++ b1) Hbm) as (b2 & -> & Hr2).
  exists ([1] ++ b1 ++ b2 ++ be 8 (len (labels ss)) ++ labels ss). split; [wr_run; done|].
  intros rest. rewrite <- !app_assoc. rd_step. rewrite bool_decide_true by done. cbn [negb].
  erewrite rd_bind_Got by apply Hr1. erewrite rd_bind_Got by apply Hr2.
  erewrite rd_bind_Got by (apply read_length_ok; lia).
  erewrite rd_bind_Got by (by apply makeslice_ok). rewrite Nat2Z.id. rd_step.
  by rewrite <- Hss.
Qed.

(** A map whose parts belong together. *)
Definition map_ok {T} (sizeof : Z) (ok : T → Prop) (m : DomainMap T) : Prop :=
  ∃ ix, index m = Some ix ∧ bin_ok (ix_set ix) ∧ Forall ok (values m) ∧
    slice_ok sizeof (len (values m)) ∧ map_init (leaves (ix_set ix)) (ix_set ix) (values m) = Ret m.

(** The writer of a map that is not nil, as a function of the map alone. *)
Lemma map_bin_roundtrip {T} sizeof (ok : T → Prop) writeValue readValue (m : DomainMap T) w :
  Codec ok writeValue readValue → map_ok sizeof ok m →
  ∃ bs, map_WriteBin w writeValue (Some m) = Ret (Ok (w ++ bs)) ∧
    ∀ rest, ReadDomainMapBin sizeof readValue (bs ++ rest) = Got m rest.
Proof.
  intros HC (ix & Hix & Hss & Hv & Hn & Hm). pose proof Hn as (H1 & _ & _ & H2).
  unfold map_WriteBin, map_IsEmpty. rewrite bool_decide_false by lia. rewrite Hix.
  destruct (codec_roundtrip (ix_set ix) w Hss) as (b1 & -> & Hr1). cbn [mbind result_bind].
  unfold WriteByte, WriteBE, Write, buffer_writer. cbn [mbind result_bind].
  destruct (write_each_read ok writeValue readValue (values m)
    ((((w ++ b1) ++ [0]) ++ [1]) ++ be 8 (len (values m))) Hv) as (b2 & -> & Hr2).
  exists (b1 ++ [0] ++ [1] ++ be 8 (len (values m)) ++ b2).
  split; [by rewrite <- !app_assoc|]. intros rest. unfold ReadDomainMapBin. rewrite <- !app_assoc.
  erewrite rd_bind_Got by apply Hr1. do 2 (rd_step; rewrite bool_decide_true by done; cbn [negb]).
  erewrite rd_bind_Got by (apply read_length_ok; lia).
  erewrite rd_bind_Got by (by apply makeslice_ok). rewrite Nat2Z.id.
  erewrite rd_bind_Got by apply Hr2. by rewrite Hm.
Qed.
End codecs.

(** ** What the construction writes fits into words and bytes *)

Lemma lor_u64 a b : u64_ok a → u64_ok b → u64_ok (Z.lor a b).
Proof.
  intros [Ha Ha'] [Hb Hb']. assert (0 ≤ Z.lor a b) by by apply Z.lor_nonneg. split; [done|].
  destruct (Z.eq_dec (Z.lor a b) 0) as [->|]; [lia|]. apply Z.log2_lt_pow2; [lia|].
  rewrite Z.log2_lor by done. apply Z.max_lub_lt.
  - destruct (Z.eq_dec a 0) as [->|]; [done|]. apply Z.log2_lt_pow2; lia.
  - destruct (Z.eq_dec b 0) as [->|]; [done|]. apply Z.log2_lt_pow2; lia.
Qed.

Lemma setBit_words bm i v bm' : setBit bm i v = Ret bm' → Forall u64_ok bm → Forall u64_ok bm'.
Proof.
  intros H Hbm. unfold setBit in H. set (l := bm ++ _) in H.
  assert (Forall u64_ok l) as Hl by by (apply Forall_app; split; [|apply Forall_replicate]).
  destruct (idx l _) as [w| |] eqn:Hw; [|done..]. cbn [mbind outcome_bind] in H.
  unfold upd in H. destruct (bool_decide _); [|done]. injection H as <-.
  apply idx_Ret in Hw as [_ Hw]. apply Forall_insert; [done|]. apply lor_u64.
  - rewrite Forall_lookup in Hl. by eapply Hl.
  - unfold wrapu. apply Z.mod_pos_bound. lia.
Qed.

(** What holds of the construction's state at every point. *)
Definition in_range (st : bst) : Prop :=
  Forall u64_ok (b_leaves st) ∧ Forall u64_ok (b_bitmap st) ∧ Forall is_byte (b_labels st).

(** Take the next step of a computation that returned. *)
Ltac step H :=
  lazymatch type of H with
  | mbind _ ?m = Ret _ => let E := fresh "E" in destruct m eqn:E; cbn [mbind outcome_bind] in H; [|done..]
  end.

Lemma char_at_byte (ks : list (list Z)) j col c :
  Forall (Forall is_byte) ks → char_at ks j col = Ret c → is_byte c.
Proof.
  intros Hk H. unfold char_at in H. step H. apply idx_Ret in E as [_ E]. apply idx_Ret in H as [_ H].
  rewrite Forall_lookup in Hk. specialize (Hk _ _ E). rewrite Forall_lookup in Hk. by eapply Hk.
Qed.

Section in_range.
Context {lib : BitmapLib} {S : Type} (onTerminal : option (list Z → S → S)) (ks : list (list Z)).
Hypothesis bytes : Forall (Forall is_byte) ks.

Lemma edges_range fuel col e j st st' : edges fuel ks col e j st = Ret st' → in_range st → in_range st'.
Proof using bytes.
  revert j st. induction fuel as [|fuel IH]; intros j st H Hst; cbn [edges] in H; [done|].
  destruct (j <? e); [|by injection H as <-]. do 3 step H. apply IH in H; [done|].
  destruct Hst as (H1 & H2 & H3). split_and!; simpl; [done|by eapply setBit_words|].
  apply Forall_app. split; [done|]. apply Forall_singleton. by eapply char_at_byte.
Qed.

Lemma build_node_range col elt st acc st' acc' :
  build_node onTerminal ks col elt st acc = Ret (st', acc') → in_range st → in_range st'.
Proof using bytes.
  intros H Hst. unfold build_node in H. destruct elt as [s e]. do 2 step H.
  destruct a0 as [[s' st1] acc1].
  assert (in_range st1) as (H1 & H2 & H3).
  { destruct (col =? len a); [|by simplify_eq]. step E0. simplify_eq. destruct Hst as (H1 & H2 & H3).
    split_and!; simpl; [by eapply setBit_words|done..]. }
  step H. simplify_eq. unfold build_edges in E1. step E1. step E1. simplify_eq.
  apply edges_range in E2 as (H4 & H5 & H6); [|done]. split_and!; simpl; [done|by eapply setBit_words|done].
Qed.

Lemma build_level_range col queue st acc st' acc' :
  build_level onTerminal ks col queue st acc = Ret (st', acc') → in_range st → in_range st'.
Proof using bytes.
  revert st acc. induction queue as [|elt queue IH]; intros st acc H Hst; cbn [build_level] in H;
    [by simplify_eq|]. step H. destruct a as [st1 acc1]. apply build_node_range in E; [|done]. by eapply IH.
Qed.

Lemma build_levels_range fuel col queue st acc st' acc' :
  build_levels onTerminal fuel ks col queue st acc = Ret (st', acc') → in_range st → in_range st'.
Proof using bytes.
  revert col queue st acc. induction fuel as [|fuel IH]; intros col queue st acc H Hst;
    destruct queue as [|elt queue]; cbn [build_levels] in H; try done; [by simplify_eq..|].
  step H. destruct a as [st1 acc1]. apply build_level_range in E; [|done]. by eapply IH.
Qed.
End in_range.

Section built.
Context {lib : BitmapLib} {spec : BitmapSpec lib} {S : Type} (onTerminal : option (list Z → S → S)).

Lemma built_in_range keys acc ss acc' :
  Forall (Forall is_byte) keys → buildDomainSet onTerminal keys acc = Ret (Some ss, acc') →
  Forall u64_ok (leaves ss) ∧ Forall u64_ok (labelBitmap ss) ∧ Forall is_byte (labels ss) ∧
  ss = init (leaves ss) (labelBitmap ss) (labels ss).
Proof using spec.
  intros Hk H. unfold buildDomainSet in H. destruct keys as [|k ks]; [done|].
  rewrite Compact_runs in H. fold (sorted_keys (k :: ks)) in H. step H. destruct a as [st acc1]. simplify_eq.
  apply build_levels_range in E as (H1 & H2 & H3); [|..].
  - unfold init. destruct (IndexSelect32R64 (b_bitmap st)) as [sel rk] eqn:Hix. simpl. by rewrite Hix.
  - apply Forall_forall. intros k' Hin. rewrite Forall_forall in Hk. by apply Hk, elem_sorted_keys.
  - split_and!; constructor.
Qed.

(** Sets that are built from keys, one of which is not empty, can be written. *)
Lemma built_bin_ok keys acc ss acc' :
  Forall (Forall is_byte) keys → Exists (λ k, k ≠ []) keys → fits keys →
  buildDomainSet onTerminal keys acc = Ret (Some ss, acc') → bin_ok ss.
Proof using spec.
  intros Hk Hex Hf H. pose proof (built_in_range _ _ _ _ Hk H) as (H1 & H2 & _ & Hss).
  assert (keys ≠ []) as Hne by (intros ->; by apply Exists_nil in Hex).
  destruct (buildDomainSet_encodes onTerminal keys acc Hne) as (ss' & H' & He & Hsm).
  rewrite H in H'. injection H' as <- _. destruct (Hsm Hf) as [Hb1 Hb2].
  assert (1 ≤ len (labels ss)) as Hlab.
  { rewrite (enc_label _ _ _ He), (enc_root _ _ _ He). apply Exists_exists in Hex as ([|c k] & Hin & Hnn); [done|].
    assert (c ∈ firsts (sorted_keys keys)) as Hc by (apply elem_firsts; exists k; by apply elem_sorted_keys).
    unfold enc_labels. rewrite fmap_cons. simpl mjoin. rewrite length_app. cbn [snd].
    destruct (firsts _); [by apply not_elem_of_nil in Hc|]. simpl. lia. }
  assert (1 ≤ len (labelBitmap ss)) as Hbm.
  { destruct (enc_bitmap _ _ _ He) as [_ Hbl]. pose proof (length_enc_bits (nodes_of (sorted_keys keys))).
    rewrite <- (enc_label _ _ _ He) in *. lia. }
  assert (1 ≤ len (leaves ss)) as Hlv.
  { destruct (bitSet_leaf He 0 [] (sorted_keys keys)) as (_ & _ & Hn); [exact (root_node He)|lia]. }
  assert (len (labels ss) < 2 ^ 31) as Hll.
  { destruct (enc_bitmap _ _ _ He) as [_ Hbl]. pose proof (length_enc_bits (nodes_of (sorted_keys keys))).
    rewrite <- (enc_label _ _ _ He) in *. lia. }
  split_and!; [split; [done|]|split; [done|]|..|done]; unfold slice_ok, maxAlloc; lia.
Qed.
End built.

(** ** The keys of a builder *)

Definition key_ok (k : list Z) : Prop := Forall is_byte k ∧ k ≠ [].

Lemma encodeRune_ne r : encodeRune r ≠ [].
Proof. unfold encodeRune. by repeat case_match. Qed.

Lemma runes_ne b l : runes (b :: l) ≠ [].
Proof. cbn [runes]. by repeat case_match. Qed.

Lemma Reverse_ne s : s ≠ "" → sbytes (Reverse s) ≠ [].
Proof.
  intros Hs. unfold Reverse, reverse_runes. destruct s as [|a s]; [done|].
  destruct (runes (sbytes (String a s))) as [|r rs] eqn:Hr; [by apply runes_ne in Hr|].
  rewrite reverse_cons, fmap_app, join_app. cbn [fmap list_fmap mjoin list_join]. rewrite app_nil_r.
  pose proof (encodeRune_ne r) as Hne. destruct (mjoin _ ++ encodeRune r) eqn:E; [|done].
  by apply app_eq_nil in E as [_ ?].
Qed.

Lemma builder_insert_keys b parts b' :
  builder_insert b parts = Ret b' → Forall key_ok (keys b) → Forall key_ok (keys b').
Proof.
  intros H Hk. unfold builder_insert in H. destruct parts as [|p ps]; [done|]. injection H as <-. simpl.
  apply Forall_app. split; [done|]. apply Forall_singleton. split; [apply sbytes_is_byte|].
  apply Reverse_ne. unfold joinDomain. case_bool_decide as Hp; [by destruct ps|].
  destruct p as [|a p]; [done|]. by destruct ps.
Qed.

Lemma builder_Insert_keys b d b' :
  builder_Insert b d = Ret (inr b') → Forall key_ok (keys b) → Forall key_ok (keys b').
Proof.
  intros H Hk. unfold builder_Insert in H. destruct (ValidAndSplitDomain d) as [e|parts]; [done|].
  step H. destruct (bool_decide _).
  - do 3 step H. simplify_eq. by do 2 (eapply builder_insert_keys; [done|]).
  - step H. simplify_eq. by eapply builder_insert_keys.
Qed.

Lemma insert_all_keys b ds b' :
  insert_all b ds = Ret b' → Forall key_ok (keys b) → Forall key_ok (keys b').
Proof.
  revert b. induction ds as [|d ds IH]; intros b H Hk; cbn [insert_all] in H; [by injection H as <-|].
  step H. destruct a as [e|b1]; [by eapply IH|]. eapply IH; [done|]. by eapply builder_Insert_keys.
Qed.

Lemma keys_bin_ok {lib : BitmapLib} {spec : BitmapSpec lib} {S} (on : option (list Z → S → S)) ks acc ss acc' :
  Forall key_ok ks → fits ks → buildDomainSet on ks acc = Ret (Some ss, acc') → bin_ok ss.
Proof.
  intros Hk Hf H. eapply built_bin_ok; [| |done|done].
  - eapply Forall_impl; [done|]. by intros k [? _].
  - destruct ks as [|k ks]; [done|]. apply Forall_cons in Hk as [[_ Hk] _]. by apply Exists_cons_hd.
Qed.

Section theorems.
Context {lib : BitmapLib} {spec : BitmapSpec lib}.

(** A set built from patterns is read back, field by field, from what [WriteBin]
    writes, with any bytes after it; and no proper prefix of what is written is
    accepted. *)
Theorem domain_set_bin ds b ss b' :
  insert_all newBuilder ds = Ret b → fits (keys b) → Build (Some b) = Ret (Some ss, b') →
  ∃ bs, set_WriteBin [] ss = Ok bs ∧ (∀ rest, ReadDomainSetBin (bs ++ rest) = Got ss rest) ∧
    ∀ k ss' rest, (k < length bs)%nat → ReadDomainSetBin (take k bs) ≠ Got ss' rest.
Proof using spec.
  intros Hb Hf HB. apply insert_all_keys in Hb; [|constructor]. unfold Build in HB. step HB.
  destruct a as [ss' u]. simplify_eq. apply keys_bin_ok in E; [|done..].
  destruct (codec_roundtrip ss [] E) as (bs & Hw & Hr). exists bs. split_and!; [done..|].
  intros k ss' rest Hlt.
  by apply (codec_truncated bin_ok set_WriteBin ReadDomainSetBin ss bs k _ E Hw Hlt).
Qed.

Section values.
Context {T : Type} (zero : T) (ok : T → Prop).
Hypothesis zero_ok : ok zero.

(** What holds of a builder of maps. *)
Definition builder_ok (b : DomainMapBuilder T) : Prop :=
  Forall key_ok (keys (mb_set b)) ∧ map_Forall (λ _ v, ok v) (valueKeys b).

Lemma store_keys_ok ks v vk :
  ok v → map_Forall (λ _ v, ok v) vk → map_Forall (λ _ v, ok v) (store_keys ks v vk).
Proof using Type.
  intros Hv. revert vk. induction ks as [|k ks IH]; intros vk Hvk; simpl; [done|].
  by apply IH, map_Forall_insert_2.
Qed.

Lemma map_insert_all_builder b ins b' :
  map_insert_all b ins = Ret b' → Forall ok ins.*2 → builder_ok b → builder_ok b'.
Proof using Type.
  revert b. induction ins as [|[d v] ins IH]; intros b H Hi Hb; cbn [map_insert_all] in H;
    [by injection H as <-|]. apply Forall_cons in Hi as [Hv Hi].
  step H. destruct a as [e|b1]; [by eapply IH|]. eapply IH; [done..|]. destruct Hb as [Hk Hvk].
  unfold map_Insert in E. step E. destruct a as [e|set]; [done|]. step E. simplify_eq.
  split; simpl; [by eapply builder_Insert_keys|by apply store_keys_ok].
Qed.

Lemma called_values_each (vk : gmap (list Z) T) D acc :
  map_Forall (λ _ v, ok v) vk → Forall ok acc →
  Forall ok (called (Some (λ key values, values ++ [default zero (vk !! key)])) D acc).
Proof using zero_ok.
  intros Hvk Ha. unfold called. revert acc Ha.
  induction (terminals D) as [|k l IH]; intros acc Ha; simpl; [done|]. apply IH, Forall_app.
  split; [done|]. apply Forall_singleton. destruct (vk !! k) eqn:E; [|done]. by apply (Hvk k).
Qed.
End values.

(** A map built from patterns and values is read back, field by field, when the
    values are, from what [WriteBin] writes. *)
Theorem domain_map_bin {T} (zero : T) sizeof (ok : T → Prop) writeValue readValue ins b m b' :
  Codec ok writeValue readValue → ok zero → Forall ok ins.*2 →
  map_insert_all newMapBuilder ins = Ret b → fits (keys (mb_set b)) →
  map_Build zero (Some b) = Ret (Some m, b') → slice_ok sizeof (len (values m)) →
  ∃ bs, map_WriteBin [] writeValue (Some m) = Ret (Ok bs) ∧
    ∀ rest, ReadDomainMapBin sizeof readValue (bs ++ rest) = Got m rest.
Proof using spec.
  intros HC Hz Hi Hb Hf HB Hs.
  apply (map_insert_all_builder ok) in Hb as [Hk Hvk]; [|done|split; [constructor|apply map_Forall_empty]].
  unfold map_Build in HB. case_bool_decide as Hne; [done|]. step HB. destruct a as [[ss|] vs]; [|done].
  step HB. simplify_eq. rename E0 into Hm. pose proof (keys_bin_ok _ _ _ _ _ Hk Hf E) as Hss.
  destruct (buildDomainSet_encodes (Some (λ key values, values ++ [default zero (valueKeys b !! key)]))
    (keys (mb_set b)) []) as (ss' & H' & _); [by intros Hn; rewrite Hn in Hne|].
  rewrite E in H'. injection H' as <- ->. unfold map_init, initSelectDeltas in Hm. step Hm. step E0. simplify_eq.
  apply (map_bin_roundtrip sizeof ok writeValue readValue _ []); [done|]. eexists. split; [done|]. simpl.
  split_and!; [done|by apply called_values_each|done|]. unfold map_init, initSelectDeltas. by rewrite E1.
Qed.
End theorems.

(** ** Malformed input *)

Lemma read_words_huge n rest :
  2 ^ 46 ≤ n < 2 ^ 63 →
  read_words (be 8 n ++ rest) = Crash "runtime error: makeslice: len out of range".
Proof.
  intros Hn. unfold read_words. erewrite rd_bind_Got by (apply read_length_ok; lia).
  unfold makeslice, maxAlloc. destruct (Z.ltb_spec n 0), (Z.ltb_spec (2 ^ 48) (8 * n)); try lia. done.
Qed.

(** A set that was not built: one word without a bit, and one label. *)
Definition malformed : list Z := [1] ++ be 8 1 ++ be 8 0 ++ be 8 1 ++ be 8 0 ++ be 8 1 ++ [97].

(** The reader trusts its input.  A length that is too large for an allocation makes
    it panic, whatever follows; and it accepts bitmaps that belong to no set, on
    which a query then reads beyond the labels and panics. *)
Theorem domain_set_bin_malformed :
  (∀ (lib : BitmapLib) rest, ReadDomainSetBin ([1] ++ be 8 (2 ^ 62) ++ rest) =
    Crash "runtime error: makeslice: len out of range") ∧
  ∃ ss, @ReadDomainSetBin counting_lib malformed = Got ss [] ∧
    @Has counting_lib (Some ss) "b" = Panic "index out of range".
Proof.
  split.
  - intros lib rest. unfold ReadDomainSetBin. rd_step. rewrite bool_decide_true by done. cbn [negb].
    unfold mbind at 1, rd_bind at 1. by rewrite (read_words_huge (2 ^ 62) rest) by lia.
  - eexists. split; [vm_compute; reflexivity|]. vm_compute. reflexivity.
Qed.

Module Examples.
Import SetExamples MapExamples.

Lemma domain_set_bin_witness :
  ∃ b b', insert_all newBuilder patterns.*1 = Ret b ∧
    @Build counting_lib (Some b) = Ret (Some example_set, b') ∧
    ∃ bs, set_WriteBin [] example_set = Ok bs ∧
      (∀ rest, @ReadDomainSetBin counting_lib (bs ++ rest) = Got example_set rest) ∧
      ∀ k ss' rest, (k < length bs)%nat → @ReadDomainSetBin counting_lib (take k bs) ≠ Got ss' rest.
Proof.
  exists builder, (Some newBuilder). split; [vm_compute; reflexivity|]. split; [vm_compute; reflexivity|].
  apply (@domain_set_bin counting_lib _ patterns.*1 builder example_set (Some newBuilder));
    vm_compute; reflexivity.
Defined.

(** Values of one byte. *)
Definition nat_write (w : list Z) (n : nat) : result (list Z) := WriteByte w (Z.of_nat n).
Definition nat_read : rd nat := b ← ReadByte; mret (Z.to_nat b).

Lemma nat_codec : Codec (λ n, n < 256)%nat nat_write nat_read.
Proof.
  split; [|unfold nat_read; apply _]. intros n w Hn. exists [Z.of_nat n]. split; [done|].
  intros rest. unfold nat_read. simpl app. rd_step. by rewrite Nat2Z.id.
Qed.

Lemma domain_map_bin_witness :
  ∃ bs, map_WriteBin [] nat_write (Some example_map) = Ret (Ok bs) ∧
    ∀ rest, @ReadDomainMapBin counting_lib nat 8 nat_read (bs ++ rest) = Got example_map rest.
Proof.
  apply (@domain_map_bin counting_lib _ nat 0%nat 8 (λ n, n < 256)%nat nat_write nat_read patterns map_builder
    example_map (Some newMapBuilder)).
  - apply nat_codec.
  - lia.
  - repeat constructor; lia.
  - vm_compute. reflexivity.
  - vm_compute. reflexivity.
  - vm_compute. reflexivity.
  - vm_compute. split_and!; congruence.
Defined.
End Examples.
