(* ===== verification/IpCidr.v ===== *)
(** * Sets of address prefixes ([component/cidr/ipcidr_set.go], [ipcidr_set_bin.go])

    A set is a list of ranges of the netipx library, which the code also views as an
    [IPSet] of that library.  The library is a class, with what the code relies on as
    its laws: a range covers what its prefix covers, and merging keeps what the
    ranges cover.

    In the binary form every address is 16 bytes long, and a reader cannot tell an
    IPv4 address from the IPv6 address that maps it. *)

From S2P Require Import Prelude Wire NetIP SetBin.

(** ** The library *)

Class NetIPX := {
  IPRange : Type;
  IPRangeFrom : Addr → Addr → IPRange;
  From : IPRange → Addr;
  To : IPRange → Addr;
  Range_IsValid : IPRange → bool;
  Range_Contains : IPRange → Addr → bool;
  RangeOfPrefix : Prefix → IPRange;
  Prefixes : IPRange → list Prefix;
  (* the set of a builder to which the ranges were added *)
  IPSetBuilder_IPSet : list IPRange → result (list IPRange);
  IPSet_Contains : list IPRange → Addr → bool;
}.

Class NetIPXSpec (lib : NetIPX) : Prop := {
  IPRangeFrom_ends r : IPRangeFrom (From r) (To r) = r;
  RangeOfPrefix_valid p : Range_IsValid (RangeOfPrefix p) = PrefixIsValid p;
  RangeOfPrefix_contains p a : Range_Contains (RangeOfPrefix p) a = PrefixContains p a;
  IPSet_union rr : Forall (λ r, Range_IsValid r = true) rr →
    ∃ merged, IPSetBuilder_IPSet rr = Ok merged ∧
      ∀ a, IPSet_Contains merged a = existsb (λ r, Range_Contains r a) rr;
}.

(** ** The set *)

Section cidr.
Context {lib : NetIPX}.
Variable ParsePrefix : string → result Prefix.
Variable ParseAddr : string → result Addr.
Variable Prefix_String : Prefix → string.

Record IpCidrSet := mkCidr { rr : list IPRange }.

Definition NewIpCidrSet : IpCidrSet := mkCidr [].

Definition AddIpCidr (set : IpCidrSet) (ipCidr : Prefix) : result IpCidrSet :=
  let r := RangeOfPrefix ipCidr in
  if Range_IsValid r then Ok (mkCidr (rr set ++ [r]))
  else Err (ErrMsg ("not valid ipcidr range: " +:+ Prefix_String ipCidr)).

Definition AddIpCidrForString (set : IpCidrSet) (ipCidr : string) : result IpCidrSet :=
  prefix ← ParsePrefix ipCidr;
  AddIpCidr set prefix.

(** [ToIPSet] and [fromIPSet] change the type and nothing else. *)
Definition ToIPSet (set : IpCidrSet) : list IPRange := rr set.
Definition fromIPSet (i : list IPRange) : IpCidrSet := mkCidr i.

Definition IsContain (set : IpCidrSet) (ip : Addr) : bool := IPSet_Contains (ToIPSet set) (WithZone ip "").

Definition IsContainForString (set : IpCidrSet) (ipString : string) : bool :=
  match ParseAddr ipString with
  | Err _ => false
  | Ok ip => IsContain set ip
  end.

Definition cidr_IsEmpty (set : option IpCidrSet) : bool :=
  match set with
  | None => true
  | Some set => bool_decide (len (rr set) = 0)
  end.

Definition MatchIp (set : option IpCidrSet) (ip : Addr) : bool :=
  match set with
  | None => false
  | Some s => if cidr_IsEmpty set then false else IsContain s ip
  end.

(** [Merge]: the set, which an error leaves as it is, and the error. *)
Definition Merge (set : IpCidrSet) : IpCidrSet * option goerr :=
  match IPSetBuilder_IPSet (ToIPSet set) with
  | Ok i => (fromIPSet i, None)
  | Err e => (set, Some e)
  end.

(** The two loops of [Foreach], with a callback that has a state. *)
Fixpoint each_prefix {S} (f : Prefix → S → bool * S) (ps : list Prefix) (s : S) : bool * S :=
  match ps with
  | [] => (true, s)
  | p :: ps => let '(go, s) := f p s in if go then each_prefix f ps s else (false, s)
  end.

Fixpoint each_range {S} (f : Prefix → S → bool * S) (l : list IPRange) (s : S) : bool * S :=
  match l with
  | [] => (true, s)
  | r :: l => let '(go, s) := each_prefix f (Prefixes r) s in if go then each_range f l s else (false, s)
  end.

Definition cidr_Foreach {S} (f : Prefix → S → bool * S) (set : IpCidrSet) (s : S) : S :=
  (each_range f (rr set) s).2.

(** ** The binary form *)

(** [Addr.As16] as a number, and [AddrFrom16]. *)
Definition As16 (a : Addr) : Z :=
  match a with
  | AddrZero => 0
  | Addr4 v => Z.lor (Z.shiftl 65535 32) v
  | Addr6 v _ => v
  end.
Definition AddrFrom16 (v : Z) : Addr := Addr6 v "".

Definition write_range {W} `{!Writer W} (w : W) (r : IPRange) : result W :=
  w ← WriteBE 16 w (As16 (From r));
  WriteBE 16 w (As16 (To r)).

Definition cidr_WriteBin {W} `{!Writer W} (w : W) (ss : IpCidrSet) : result W :=
  w ← WriteByte w 1;
  w ← WriteBE 8 w (len (rr ss));
  write_each write_range w (rr ss).

Definition read_range : rd IPRange :=
  a16 ← ReadBE 16;
  let from := Unmap (AddrFrom16 a16) in
  a16 ← ReadBE 16;
  let to := Unmap (AddrFrom16 a16) in
  mret (IPRangeFrom from to).

(** [sizeof] is the size of a range in memory. *)
Definition ReadIpCidrSet (sizeof : Z) : rd IpCidrSet :=
  version ← ReadFull 1;
  if negb (bool_decide (version = [1])) then rfail (ErrMsg "version is invalid")
  else
    length ← read_length;
    _ ← makeslice sizeof length;
    rr ← read_each (Z.to_nat length) read_range;
    mret (mkCidr rr).
End cidr.
Arguments IpCidrSet {lib}.

(** ** The format *)

Section format.
Context {lib : NetIPX} {spec : NetIPXSpec lib}.

(** An end of a range that is not an IPv4 address mapped into IPv6. *)
Definition plain_end (a : Addr) : Prop :=
  match a with
  | AddrZero => False
  | Addr4 v => 0 ≤ v < 2 ^ 32
  | Addr6 v z => 0 ≤ v < 2 ^ 128 ∧ z = "" ∧ Is4In6 a = false
  end.

Definition plain_range (r : IPRange) : Prop := plain_end (From r) ∧ plain_end (To r).

Definition cidr_ok (sizeof : Z) (ss : IpCidrSet) : Prop :=
  Forall plain_range (rr ss) ∧ slice_ok sizeof (len (rr ss)).

Lemma lor_mapped v : 0 ≤ v < 2 ^ 32 → Z.lor (Z.shiftl 65535 32) v = 65535 * 2 ^ 32 + v.
Proof using Type.
  clear spec lib. intros Hv. rewrite Z.shiftl_mul_pow2 by lia. rewrite <- Z.add_lor_land.
  replace (Z.land (65535 * 2 ^ 32) v) with 0; [lia|]. symmetry. apply Z.bits_inj'. intros n Hn.
  rewrite Z.land_spec, Z.bits_0, <- Z.shiftl_mul_pow2, Z.shiftl_spec by lia.
  destruct (Z.ltb_spec n 32) as [Hlt|Hge]; [by rewrite Z.testbit_neg_r by lia|].
  rewrite (Z.bits_above_log2 v n), andb_false_r; [done|lia|].
  destruct (Z.eq_dec v 0) as [->|]; [simpl; lia|].
  assert (Z.log2 v < 32) by (apply Z.log2_lt_pow2; lia). lia.
Qed.

Lemma As16_range a : plain_end a → 0 ≤ As16 a < 256 ^ Z.of_nat 16.
Proof using Type.
  clear spec lib. destruct a as [|v|v z]; cbn [plain_end As16]; [done| |intros (? & _ & _); simpl; lia].
  intros Hv. rewrite lor_mapped by done. simpl. lia.
Qed.

Lemma Unmap_As16 a : plain_end a → Unmap (AddrFrom16 (As16 a)) = a.
Proof using Type.
  clear spec lib. destruct a as [|v|v z]; cbn [plain_end As16 AddrFrom16]; [done| |].
  - intros Hv. rewrite lor_mapped by done. unfold AddrFrom16, Unmap, Is4In6.
    rewrite Z.shiftr_div_pow2, Z.div_add_l, Z.div_small, Z.add_0_r, Z.eqb_refl by lia.
    f_equal. rewrite Z.add_comm, Z.mod_add by lia. by apply Z.mod_small.
  - intros (_ & -> & Hm). unfold AddrFrom16, Unmap. by rewrite Hm.
Qed.

#[global] Instance range_codec : Codec plain_range write_range read_range.
Proof using spec.
  split; [|unfold read_range; apply _]. intros r w [Hf Ht].
  exists (be 16 (As16 (From r)) ++ be 16 (As16 (To r))). split; [unfold write_range; by wr_run|].
  intros rest. unfold read_range. rewrite <- app_assoc.
  erewrite rd_bind_Got by (apply ReadBE_app, As16_range, Hf).
  erewrite rd_bind_Got by (apply ReadBE_app, As16_range, Ht).
  by rewrite !Unmap_As16, IPRangeFrom_ends.
Qed.

#[global] Instance mono_ReadIpCidrSet sizeof : Mono (ReadIpCidrSet sizeof).
Proof using Type. unfold ReadIpCidrSet, read_range. apply _. Qed.

#[global] Instance cidr_codec sizeof : Codec (cidr_ok sizeof) cidr_WriteBin (ReadIpCidrSet sizeof).
Proof using spec.
  split; [|apply _]. intros ss w [Hr Hn]. pose proof Hn as (H1 & _ & _ & H2).
  destruct (write_each_read plain_range write_range read_range (rr ss) ((w ++ [1]) ++ be 8 (len (rr ss))) Hr)
    as (bs & Hw & Hrd).
  exists ([1] ++ be 8 (len (rr ss)) ++ bs). split.
  - unfold cidr_WriteBin. change (WriteByte w 1) with (Ok (w ++ [1])). cbn [mbind result_bind].
    change (WriteBE 8 (w ++ [1]) (len (rr ss))) with (Ok ((w ++ [1]) ++ be 8 (len (rr ss)))).
    cbn [mbind result_bind]. rewrite Hw. by rewrite <- !app_assoc.
  - intros rest. unfold ReadIpCidrSet. rewrite <- !app_assoc. rd_step.
    rewrite bool_decide_true by done. cbn [negb].
    erewrite rd_bind_Got by (apply read_length_ok; lia).
    erewrite rd_bind_Got by (by apply makeslice_ok). rewrite Nat2Z.id.
    erewrite rd_bind_Got by apply Hrd. by destruct ss.
Qed.
End format.

(** ** The library, with pairs of addresses *)

(** The last address of a prefix. *)
Definition last_addr (p : Prefix) : Addr :=
  let fill v n := Z.shiftl (Z.shiftr v n) n + 2 ^ n - 1 in
  match pip p with
  | AddrZero => AddrZero
  | Addr4 v => Addr4 (fill v (32 - pbits p))
  | Addr6 v _ => Addr6 (fill v (128 - pbits p)) ""
  end.

Definition pair_valid (r : Addr * Addr) : bool :=
  IsValid r.1 && (BitLen r.1 =? BitLen r.2) && (aval r.1 <=? aval r.2).

Definition pair_contains (r : Addr * Addr) (a : Addr) : bool :=
  pair_valid r && negb (hasZone a) && (BitLen r.1 =? BitLen a) &&
  (aval r.1 <=? aval a) && (aval a <=? aval r.2).

Definition pair_lib : NetIPX := {|
  IPRange := Addr * Addr;
  IPRangeFrom := pair;
  From := fst;
  To := snd;
  Range_IsValid := pair_valid;
  Range_Contains := pair_contains;
  RangeOfPrefix p := if PrefixIsValid p then (MaskedAddr p, last_addr p) else (AddrZero, AddrZero);
  Prefixes r := [mkPrefix r.1 (BitLen r.1 - Z.log2_up (aval r.2 - aval r.1 + 1))];
  IPSetBuilder_IPSet := Ok;
  IPSet_Contains rr a := existsb (λ r, pair_contains r a) rr;
|}.

Lemma block_range v a n :
  0 ≤ n →
  let base := Z.shiftl (Z.shiftr v n) n in
  (Z.shiftr v n =? Z.shiftr a n) = (base <=? a) && (a <=? base + 2 ^ n - 1).
Proof.
  intros Hn base. unfold base. rewrite Z.shiftl_mul_pow2, !Z.shiftr_div_pow2 by lia.
  pose proof (Z.pow_pos_nonneg 2 n ltac:(lia) Hn) as Hp. set (m := 2 ^ n) in *.
  pose proof (Z.div_mod a m ltac:(lia)). pose proof (Z.mod_pos_bound a m Hp).
  destruct (Z.eqb_spec (v / m) (a / m)), (Z.leb_spec (v / m * m) a), (Z.leb_spec a (v / m * m + m - 1));
    try done; nia.
Qed.

Lemma pair_prefix_valid p : PrefixIsValid p = true → pair_valid (MaskedAddr p, last_addr p) = true.
Proof.
  intros Hp. unfold pair_valid, MaskedAddr, last_addr. rewrite Hp. unfold PrefixIsValid in Hp.
  destruct (pip p) as [|v|v z]; simpl in *; [by rewrite andb_false_r in Hp|..];
    (apply andb_true_iff in Hp as [[H1 H2]%andb_true_iff _]; apply Z.leb_le in H1, H2; apply Z.leb_le).
  - pose proof (Z.pow_pos_nonneg 2 (32 - pbits p)). lia.
  - pose proof (Z.pow_pos_nonneg 2 (128 - pbits p)). lia.
Qed.

#[global] Instance pair_spec : NetIPXSpec pair_lib.
Proof.
  split; cbn.
  - by intros [].
  - intros p. destruct (PrefixIsValid p) eqn:Hp; [by apply pair_prefix_valid|done].
  - intros p a. destruct (PrefixIsValid p) eqn:Hp; [|unfold PrefixContains; by rewrite Hp].
    unfold pair_contains. rewrite pair_prefix_valid by done. unfold PrefixContains, MaskedAddr, last_addr.
    rewrite Hp. unfold PrefixIsValid in Hp.
    destruct (pip p) as [|v|v z]; cbn in *; [by rewrite andb_false_r in Hp|..];
      (apply andb_true_iff in Hp as [[H1 H2]%andb_true_iff _]; apply Z.leb_le in H1, H2);
      destruct a as [|a|a z']; cbn; rewrite ?andb_false_r; try done;
      rewrite ?andb_true_r, block_range by lia; by rewrite ?andb_assoc.
  - intros rr _. by exists rr.
Qed.

(** The prefix of the IPv4 addresses that are mapped into IPv6. *)
Definition mapped_prefix : Prefix := mkPrefix (Addr6 (65535 * 2 ^ 32) "") 96.

(** Writing a set and reading it back can change it: a prefix of mapped addresses
    covers no IPv4 address, and becomes the prefix of all of them. *)
Theorem cidr_bin_mapped :
  ∃ (set : @IpCidrSet pair_lib) (bs : list Z) (set' : @IpCidrSet pair_lib),
    AddIpCidr (λ _, "::ffff:0:0/96") NewIpCidrSet mapped_prefix = Ok set ∧
    cidr_WriteBin [] set = Ok bs ∧ ReadIpCidrSet 48 bs = Got set' [] ∧
    ∀ v, 0 ≤ v < 2 ^ 32 → IsContain set (Addr4 v) = false ∧ IsContain set' (Addr4 v) = true.
Proof.
  do 3 eexists. split; [reflexivity|]. split; [reflexivity|]. split; [vm_compute; reflexivity|].
  intros v Hv. split; [reflexivity|]. unfold IsContain, ToIPSet, rr. cbn [IPSet_Contains pair_lib existsb WithZone].
  unfold pair_contains. simpl. rewrite orb_false_r. apply andb_true_iff. split; apply Z.leb_le; lia.
Qed.

(** Sets of other addresses are kept. *)
Example cidr_bin_kept :
  let set := mkCidr (lib := pair_lib) [(Addr4 16777216, Addr4 33554431); (Addr6 (2 ^ 125) "", Addr6 (2 ^ 125) "")] in
  ∃ bs : list Z, cidr_WriteBin [] set = Ok bs ∧ ReadIpCidrSet 48 bs = Got set [].
Proof. eexists. split; [reflexivity|]. vm_compute. reflexivity. Qed.
