(* ===== verification/Wildcard.v ===== *)
(** * Wildcard patterns ([component/wildcard/wildcard.go])

    The matcher with one backtracking point is shown to decide the declarative
    relation [glob] in which a star stands for any bytes and "?" for one byte.

    Strings are read as lists of bytes; [star = -1] is [None]. *)

From Stdlib Require Import Ascii.
From S2P Require Import Prelude.

Definition question : ascii := "?".
Definition asterisk : ascii := "*".

Section loop.
Variables pattern s : list ascii.

(** The label [checkPattern]: skip the stars that are left. *)
Fixpoint checkPattern (fuel patternIndex : nat) : option bool :=
  match fuel with
  | O => None
  | S fuel =>
    if bool_decide (pattern !! patternIndex = Some asterisk) then checkPattern fuel (S patternIndex)
    else Some (patternIndex =? length pattern)%nat
  end.

(** The label [Loop]. *)
Fixpoint Loop (fuel patternIndex sIndex lastStar : nat) (star : option nat) : option bool :=
  match fuel with
  | O => None
  | S fuel =>
    let backtrack :=
      match star with
      | Some st => Loop fuel (S st) (S lastStar) (S lastStar) star
      | None => Some false
      end in
    match s !! sIndex with
    | None => checkPattern (S (length pattern)) patternIndex
    | Some c =>
      match pattern !! patternIndex with
      | None => backtrack
      | Some p =>
        if bool_decide (p = question) then Loop fuel (S patternIndex) (S sIndex) lastStar star
        else if bool_decide (p = asterisk) then
          Loop fuel (S patternIndex) sIndex sIndex (Some patternIndex)
        else if negb (bool_decide (p = c)) then backtrack
        else Loop fuel (S patternIndex) (S sIndex) lastStar star
      end
    end
  end.
End loop.

Definition matchByString (pattern s : list ascii) : option bool :=
  let n := S (length s) in
  Loop pattern s (S (length pattern + n * n)) 0 0 0 None.

Definition Match (pattern s : string) : option bool :=
  if bool_decide (pattern = "") then Some (bool_decide (s = pattern))
  else if bool_decide (pattern = "*") || bool_decide (s = pattern) then Some true
  else matchByString (String.list_ascii_of_string pattern) (String.list_ascii_of_string s).

(** ** The relation *)

Inductive glob : list ascii → list ascii → Prop :=
| glob_nil : glob [] []
| glob_byte c p s : c ≠ question → c ≠ asterisk → glob p s → glob (c :: p) (c :: s)
| glob_one c p s : glob p s → glob (question :: p) (c :: s)
| glob_skip p s : glob p s → glob (asterisk :: p) s
| glob_more c p s : glob (asterisk :: p) s → glob (asterisk :: p) (c :: s).

(** A pattern byte that is not a star, against one byte. *)
Definition one (p c : ascii) : Prop := p ≠ asterisk ∧ (p = question ∨ p = c).

Lemma glob_star p s : glob (asterisk :: p) s ↔ ∃ k, glob p (drop k s).
Proof.
  split.
  - intros H. remember (asterisk :: p) as q eqn:Hq. induction H; simplify_eq.
    + by exists 0%nat.
    + destruct IHglob as [k Hk]; [done|]. by exists (S k).
  - intros [k Hk]. revert s Hk. induction k as [|k IH]; intros s Hk.
    + by apply glob_skip.
    + destruct s as [|c s]; [apply (IH []); by destruct k|]. by apply glob_more, IH.
Qed.

Lemma glob_cons p c q s : p ≠ asterisk → glob (p :: q) (c :: s) ↔ one p c ∧ glob q s.
Proof.
  intros Hp. unfold one. split.
  - inversion 1; simplify_eq; naive_solver.
  - intros [[_ [->| ->]] H]; [by constructor|].
    destruct (decide (c = question)) as [->|]; by constructor.
Qed.

Lemma glob_cons_nil p q : p ≠ asterisk → ¬ glob (p :: q) [].
Proof. intros Hp. inversion 1; simplify_eq. Qed.

(** A segment without stars takes as many bytes as it has. *)
Lemma glob_segment w q s :
  Forall (λ p, p ≠ asterisk) w →
  glob (w ++ q) s ↔ Forall2 one w (take (length w) s) ∧ glob q (drop (length w) s).
Proof.
  intros Hw. revert s. induction Hw as [|p w Hp Hw IH]; intros s; simpl.
  - split; [intros H; split; [constructor|done]|by intros [_ H]].
  - destruct s as [|c s]; simpl.
    + split; [by intros ?%glob_cons_nil|]. intros [H _]. inversion H.
    + rewrite glob_cons, IH by done. rewrite Forall2_cons. naive_solver.
Qed.

Lemma glob_end q : glob q [] ↔ Forall (λ p, p = asterisk) q.
Proof.
  induction q as [|p q IH]; [split; constructor|].
  rewrite Forall_cons. destruct (decide (p = asterisk)) as [->|Hp].
  - rewrite glob_star, <- IH. split; [intros [[|k] H]; simpl in H; done|].
    intros [_ H]. by exists 0%nat.
  - split; [by intros ?%glob_cons_nil|naive_solver].
Qed.

(** ** The loop decides it *)

Lemma checkPattern_spec pattern fuel i :
  (i ≤ length pattern)%nat → (length pattern - i < fuel)%nat →
  ∃ b, checkPattern pattern fuel i = Some b ∧ (b = true ↔ glob (drop i pattern) []).
Proof.
  revert i. induction fuel as [|fuel IH]; intros i Hi Hf; [lia|]. simpl.
  case_bool_decide as Hl.
  - pose proof (lookup_lt_Some _ _ _ Hl). destruct (IH (S i)) as (b & -> & Hb); [lia..|].
    exists b. split; [done|]. rewrite Hb, (drop_S _ _ _ Hl), !glob_end, Forall_cons. naive_solver.
  - eexists. split; [done|]. rewrite glob_end, Nat.eqb_eq.
    destruct (pattern !! i) as [p|] eqn:Hp.
    + pose proof (lookup_lt_Some _ _ _ Hp). rewrite (drop_S _ _ _ Hp), Forall_cons. naive_solver lia.
    + apply lookup_ge_None in Hp. rewrite drop_ge by lia. split; [constructor|lia].
Qed.

(** What is left to match. *)
Definition goal (pattern s : list ascii) (patternIndex sIndex lastStar : nat) (star : option nat) :
    Prop :=
  match star with
  | None => glob (drop patternIndex pattern) (drop sIndex s)
  | Some st => ∃ k, (lastStar ≤ k)%nat ∧ glob (drop (S st) pattern) (drop k s)
  end.

(** The pattern after the last star up to the index matches what follows [lastStar]. *)
Definition inv (pattern s : list ascii) (patternIndex sIndex lastStar : nat) (star : option nat) :
    Prop :=
  (patternIndex ≤ length pattern ∧ sIndex ≤ length s ∧ lastStar ≤ sIndex)%nat ∧
  match star with
  | None => lastStar = 0%nat
  | Some st => ∃ w, drop (S st) pattern = w ++ drop patternIndex pattern ∧
      Forall2 one w (take (sIndex - lastStar) (drop lastStar s)) ∧
      (length w = sIndex - lastStar ∧ patternIndex = S st + length w)%nat
  end.

Definition measure (pattern s : list ascii) (sIndex lastStar : nat) (star : option nat) : nat :=
  (length pattern - from_option S 0 star + (length s - lastStar) * S (length s) + (length s - sIndex))%nat.

Section steps.
Variables pattern s : list ascii.

Lemma one_no_star w t : Forall2 one w t → Forall (λ p, p ≠ asterisk) w.
Proof. induction 1 as [|p c w t [Hp _] H IH]; by constructor. Qed.

(** The segment matched so far can be cut off. *)
Lemma goal_here pi si ls st :
  inv pattern s pi si ls (Some st) →
  glob (drop (S st) pattern) (drop ls s) ↔ glob (drop pi pattern) (drop si s).
Proof.
  intros ((Hpi & Hsi & Hls) & w & Hw & Hf & Hlen & _). rewrite Hw.
  rewrite glob_segment by by eapply one_no_star.
  rewrite drop_drop, Hlen. replace (ls + (si - ls))%nat with si by lia. naive_solver.
Qed.

Lemma inv_advance pi si ls star p c :
  inv pattern s pi si ls star → pattern !! pi = Some p → s !! si = Some c → one p c →
  inv pattern s (S pi) (S si) ls star ∧
  (goal pattern s (S pi) (S si) ls star ↔ goal pattern s pi si ls star).
Proof.
  intros [(Hpi & Hsi & Hls) Hinv] Hp Hc Hone.
  pose proof (lookup_lt_Some _ _ _ Hp). pose proof (lookup_lt_Some _ _ _ Hc).
  destruct star as [st|].
  - split; [|done]. destruct Hinv as (w & Hw & Hf & Hlen & Hst). split; [lia|].
    exists (w ++ [p]). split_and!.
    + rewrite Hw, (drop_S _ _ _ Hp). by rewrite <- app_assoc.
    + replace (S si - ls)%nat with (S (si - ls)) by lia.
      rewrite (take_S_r _ _ c) by (rewrite lookup_drop; by replace (ls + (si - ls))%nat with si by lia).
      apply Forall2_app; [done|]. by constructor.
    + rewrite length_app. simpl. lia.
    + rewrite length_app. simpl. lia.
  - split; [split; [lia|done]|]. simpl. rewrite (drop_S _ _ _ Hp), (drop_S _ _ _ Hc).
    rewrite glob_cons by apply Hone. naive_solver.
Qed.

(** A new star forgets the old one. *)
Lemma inv_star pi si ls star :
  inv pattern s pi si ls star → pattern !! pi = Some asterisk →
  inv pattern s (S pi) si si (Some pi) ∧
  (goal pattern s (S pi) si si (Some pi) ↔ goal pattern s pi si ls star).
Proof.
  intros [(Hpi & Hsi & Hls) Hinv] Hp. pose proof (lookup_lt_Some _ _ _ Hp). split.
  { split; [lia|]. exists []. rewrite Nat.sub_diag, take_0. split_and!; [done|constructor|done|simpl; lia]. }
  simpl. transitivity (glob (drop pi pattern) (drop si s)).
  { rewrite (drop_S _ _ _ Hp), glob_star. setoid_rewrite drop_drop. split.
    - intros (k & Hk & Hg). exists (k - si)%nat. by replace (si + (k - si))%nat with k by lia.
    - intros (k & Hg). exists (si + k)%nat. split; [lia|done]. }
  destruct star as [st|]; [|done]. simpl. split.
  - intros Hg. exists ls. split; [lia|]. by apply (goal_here pi si).
  - intros (k & Hk & Hg). destruct Hinv as (w & Hw & Hf & Hlen & _).
    rewrite Hw, glob_segment in Hg by by eapply one_no_star. destruct Hg as [_ Hg].
    rewrite drop_drop, (drop_S _ _ _ Hp), glob_star in Hg. destruct Hg as [j Hg].
    rewrite (drop_S _ _ _ Hp), glob_star. exists (k + length w + j - si)%nat.
    rewrite drop_drop in Hg |- *. by replace (si + _)%nat with (k + length w + j)%nat by lia.
Qed.

(** A mismatch leaves the later positions for the last star. *)
Lemma inv_backtrack pi si ls st :
  inv pattern s pi si ls (Some st) → (si < length s)%nat →
  ¬ glob (drop pi pattern) (drop si s) →
  inv pattern s (S st) (S ls) (S ls) (Some st) ∧
  (goal pattern s (S st) (S ls) (S ls) (Some st) ↔ goal pattern s pi si ls (Some st)).
Proof.
  intros Hinv Hlt Hno. rewrite <- (goal_here _ _ _ _ Hinv) in Hno.
  destruct Hinv as ((Hpi & Hsi & Hls) & w & Hw & Hf & Hlen & Hst). split.
  - split; [lia|]. exists []. rewrite Nat.sub_diag, take_0. split_and!; [done|constructor|done|simpl; lia].
  - simpl. split; intros (k & Hk & Hg); exists k; (split; [|done]); [lia|].
    destruct (decide (k = ls)) as [->|]; [done|lia].
Qed.

(** At the end of the string the last star cannot be moved. *)
Lemma goal_end pi si ls star :
  inv pattern s pi si ls star → si = length s →
  goal pattern s pi si ls star ↔ glob (drop pi pattern) [].
Proof.
  intros Hinv Hsi. destruct star as [st|]; simpl; [|by rewrite (drop_ge s) by lia].
  pose proof (goal_here _ _ _ _ Hinv) as Hh. rewrite (drop_ge s si) in Hh by lia.
  split; [|intros Hg; exists ls; split; [lia|by apply Hh]].
  intros (k & Hk & Hg). apply Hh.
  destruct Hinv as ((Hpi & _ & Hls) & w & Hw & Hf & Hlen & _).
  assert (k = ls ∨ length w = 0%nat) as [->|Hw0]; [|done|].
  - rewrite Hw, glob_segment in Hg by by eapply one_no_star. destruct Hg as [Hg _].
    apply Forall2_length in Hg. rewrite length_take, length_drop in Hg. lia.
  - rewrite (drop_ge s k) in Hg by lia. by rewrite (drop_ge s ls) by lia.
Qed.

Lemma Loop_spec fuel pi si ls star :
  inv pattern s pi si ls star → (measure pattern s si ls star < fuel)%nat →
  ∃ b, Loop pattern s fuel pi si ls star = Some b ∧ (b = true ↔ goal pattern s pi si ls star).
Proof.
  revert pi si ls star. induction fuel as [|fuel IH]; intros pi si ls star Hinv Hm; [lia|].
  assert (Hb := Hinv). destruct Hb as ((Hpi & Hsi & Hls) & Hst). cbn [Loop].
  destruct (s !! si) as [c|] eqn:Hc.
  2:{ apply lookup_ge_None in Hc. pose proof (goal_end _ _ _ _ Hinv ltac:(lia)) as Hend.
      setoid_rewrite Hend. apply checkPattern_spec; lia. }
  pose proof (lookup_lt_Some _ _ _ Hc) as Hlt.
  assert (¬ glob (drop pi pattern) (drop si s) →
    ∃ b, match star with
         | Some st => Loop pattern s fuel (S st) (S ls) (S ls) star
         | None => Some false end = Some b ∧ (b = true ↔ goal pattern s pi si ls star)) as Hback.
  { intros Hno. destruct star as [st|]; [|by exists false].
    destruct (inv_backtrack _ _ _ _ Hinv Hlt Hno) as [Hinv' Heq]. setoid_rewrite <- Heq.
    apply IH; [done|].
    unfold measure in *. simpl in *. nia. }
  destruct (pattern !! pi) as [p|] eqn:Hp.
  2:{ apply Hback. apply lookup_ge_None in Hp. rewrite drop_ge, (drop_S _ _ _ Hc) by lia. inversion 1. }
  assert (one p c →
    ∃ b, Loop pattern s fuel (S pi) (S si) ls star = Some b ∧ (b = true ↔ goal pattern s pi si ls star))
    as Hadv.
  { intros Hone. destruct (inv_advance _ _ _ _ _ _ Hinv Hp Hc Hone) as [Hinv' Heq]. setoid_rewrite <- Heq.
    apply IH; [done|].
    unfold measure in *. lia. }
  case_bool_decide as Hq; [apply Hadv; subst; split; [done|by left]|].
  case_bool_decide as Ha; subst.
  - destruct (inv_star _ _ _ _ Hinv Hp) as [Hinv' Heq]. setoid_rewrite <- Heq.
    apply IH; [done|].
    pose proof (lookup_lt_Some _ _ _ Hp). unfold measure in *. cbn [from_option] in *.
    assert (from_option S 0%nat star ≤ pi)%nat.
    { destruct star; simpl; [|lia]. destruct Hst as (? & _ & _ & _ & ->). lia. }
    nia.
  - case_bool_decide as Heq; simpl; [apply Hadv; split; [done|by right]|].
    apply Hback. rewrite (drop_S _ _ _ Hp), (drop_S _ _ _ Hc), glob_cons by done.
    unfold one. naive_solver.
Qed.
End steps.

Lemma matchByString_spec pattern s :
  ∃ b, matchByString pattern s = Some b ∧ (b = true ↔ glob pattern s).
Proof.
  unfold matchByString. apply (Loop_spec pattern s _ 0 0 0 None).
  - split; [lia|done].
  - unfold measure. simpl. nia.
Qed.

Lemma glob_refl s : glob s s.
Proof.
  induction s as [|c s IH]; [constructor|].
  destruct (decide (c = question)) as [->|]; [by constructor|].
  destruct (decide (c = asterisk)) as [->|]; [by apply glob_more, glob_skip|by constructor].
Qed.

Lemma Match_spec pattern s :
  ∃ b, Match pattern s = Some b ∧
    (b = true ↔ glob (String.list_ascii_of_string pattern) (String.list_ascii_of_string s)).
Proof.
  unfold Match. case_bool_decide as Hp; subst.
  { eexists. split; [done|]. rewrite bool_decide_eq_true. simpl. split; [intros ->; constructor|].
    destruct s; [done|]. inversion 1. }
  case_bool_decide as Hs; simpl; subst.
  { exists true. split; [done|]. split; [intros _|done]. apply (glob_star []).
    exists (length (String.list_ascii_of_string s)). rewrite drop_ge by lia. constructor. }
  case_bool_decide as He; simpl; subst.
  - exists true. split; [done|]. split; [intros _; apply glob_refl|done].
  - apply matchByString_spec.
Qed.

(** C31: [Match] always returns, and accepts exactly the strings that the pattern
    stands for, a star being any bytes and "?" any one byte. *)
Theorem wildcard_match pattern s :
  ∃ b, Match pattern s = Some b ∧
    (b = true ↔ glob (String.list_ascii_of_string pattern) (String.list_ascii_of_string s)).
Proof. apply Match_spec. Qed.
