(* ===== verification/Ranges.v ===== *)
(** * Integer ranges ([common/utils/range.go], [common/utils/ranges.go])

    Ranges of a machine integer type are parsed, printed, checked, iterated and
    merged.  A type is its kind and width; [cast] is the conversion [T(val)].
    Parse errors are all the same error.

    [Merge] works in place: the merged ranges are a prefix of the array that holds
    the sorted ranges, which is the state of its loop. *)

From Stdlib Require Import Ascii Sorting.Mergesort Orders.
From stdpp Require Import sorting.
From S2P Require Import Prelude Wire GoStrings.

(** ** Integer types *)

Inductive kind : Type := Unsigned (w : Z) | Signed (w : Z).

Definition cast (k : kind) (v : Z) : Z :=
  match k with Unsigned w => wrapu w v | Signed w => wraps w v end.

Definition fits (k : kind) (v : Z) : Prop :=
  match k with Unsigned w => 0 ≤ v < 2 ^ w | Signed w => - 2 ^ (w - 1) ≤ v < 2 ^ (w - 1) end.

(** ** One range *)

Record Range := mkRange { start : Z; end_ : Z }.

Definition NewRange (s e : Z) : Range := if e <? s then mkRange e s else mkRange s e.

Definition Contains (r : Range) (t : Z) : bool := (start r <=? t) && (t <=? end_ r).
Definition LeftContains (r : Range) (t : Z) : bool := (start r <=? t) && (t <? end_ r).
Definition RightContains (r : Range) (t : Z) : bool := (start r <? t) && (t <=? end_ r).

Definition Range_String (r : Range) : string :=
  if start r =? end_ r then FormatInt (start r)
  else FormatInt (start r) +:+ "-" +:+ FormatInt (end_ r).

(** [parseUnsigned] and [parseSigned]. *)
Definition parse (k : kind) (s : string) : option Z :=
  match k with
  | Unsigned _ => cast k <$> ParseUint s
  | Signed _ => cast k <$> ParseInt s
  end.

Definition newIntRange (k : kind) (s : string) : option Range :=
  let s := TrimSpace s in
  if (String.length s =? 0)%nat then Some (NewRange 0 0)
  else
    match Split "-" s with
    | [] => None
    | st :: rest =>
      match parse k (Trim st "[ ]") with
      | None => None
      | Some sv =>
        match rest with
        | [] => Some (NewRange sv sv)
        | [en] =>
          match parse k (Trim en "[ ]") with
          | Some ev => Some (NewRange sv ev)
          | None => None
          end
        | _ => None
        end
      end
    end.

(** ** Lists of ranges *)

Fixpoint newIntRangesFromList (k : kind) (l : list string) : option (list Range) :=
  match l with
  | [] => Some []
  | s :: l =>
    if bool_decide (s = "") then newIntRangesFromList k l
    else
      match newIntRange k s with
      | None => None
      | Some r =>
        match newIntRangesFromList k l with
        | Some rs => Some (r :: rs)
        | None => None
        end
      end
  end.

Definition newIntRanges (k : kind) (expected : string) : option (list Range) :=
  let expected := TrimSpace expected in
  if (String.length expected =? 0)%nat || bool_decide (expected = "*") then Some []
  else
    let list := Split "/" (ReplaceByte expected "," "/") in
    if (28 <? length list)%nat then None
    else newIntRangesFromList k list.

Definition Check_ (ranges : list Range) (status : Z) : bool :=
  match ranges with
  | [] => true
  | _ => existsb (λ segment, Contains segment status) ranges
  end.

Definition Ranges_String (ranges : list Range) : string :=
  match ranges with
  | [] => "*"
  | _ => Join "/" (Range_String <$> ranges)
  end.

(** [Range(f)] for a callback with a state: the loop of one range, then all. *)
Section iterate.
Context {S : Type} (k : kind) (f : Z → S → bool * S).

Fixpoint range_loop (fuel : nat) (r : Range) (i : Z) (s : S) : outcome (bool * S) :=
  match fuel with
  | O => OutOfFuel
  | Datatypes.S fuel =>
    if (i <=? end_ r) && (start r <=? i) then
      let '(go, s) := f i s in
      if negb go then Ret (false, s)
      else if cast k (i + 1) <? i then Ret (true, s)
      else range_loop fuel r (cast k (i + 1)) s
    else Ret (true, s)
  end.

Fixpoint Range_ (ranges : list Range) (s : S) : outcome S :=
  match ranges with
  | [] => Ret s
  | r :: ranges =>
    match range_loop (Z.to_nat (end_ r - start r + 2)) r (start r) s with
    | Ret (true, s) => Range_ ranges s
    | Ret (false, s) => Ret s
    | Panic e => Panic e
    | OutOfFuel => OutOfFuel
    end
  end.
End iterate.

(** The loop of [Merge] over [ranges[1:]]: the array and [rangeIndex]. *)
Fixpoint merge_loop (k : kind) (n i rangeIndex : nat) (a : list Range) : nat * list Range :=
  match n with
  | O => (rangeIndex, a)
  | S n =>
    match a !! i, a !! rangeIndex with
    | Some r, Some m =>
      if (end_ m <? cast k (end_ m + 1)) && (cast k (end_ m + 1) <? start r) then
        merge_loop k n (S i) (S rangeIndex) (<[S rangeIndex := r]> a)
      else if end_ m <? end_ r then
        merge_loop k n (S i) rangeIndex (<[rangeIndex := mkRange (start m) (end_ r)]> a)
      else merge_loop k n (S i) rangeIndex a
    | _, _ => (rangeIndex, a)
    end
  end.

(** [Merge] after the sort: the merged ranges, and the caller's array. *)
Definition Merge_sorted (k : kind) (sorted : list Range) : list Range * list Range :=
  match sorted with
  | [] => ([], [])
  | _ :: rest =>
    let '(rangeIndex, a) := merge_loop k (length rest) 1 0 sorted in
    (take (S rangeIndex) a, a)
  end.

Definition le_start (r1 r2 : Range) : Prop := start r1 ≤ start r2.
#[global] Instance le_start_dec : RelDecision le_start.
Proof. unfold le_start. intros r1 r2. apply _. Defined.

(** [Merge], with a merge sort for [sort.Slice]. *)
Definition Merge (k : kind) (ranges : list Range) : list Range * list Range :=
  Merge_sorted k (merge_sort le_start ranges).

(** ** Well-formed ranges *)

Definition range_ok (k : kind) (r : Range) : Prop :=
  fits k (start r) ∧ fits k (end_ r) ∧ start r ≤ end_ r.

Definition kmin (k : kind) : Z := match k with Unsigned _ => 0 | Signed w => - 2 ^ (w - 1) end.
Definition kmax (k : kind) : Z :=
  match k with Unsigned w => 2 ^ w - 1 | Signed w => 2 ^ (w - 1) - 1 end.
Definition kind_ok (k : kind) : Prop := match k with Unsigned w | Signed w => 0 < w end.

Lemma fits_bounds k v : fits k v ↔ kmin k ≤ v ≤ kmax k.
Proof. destruct k; simpl; lia. Qed.

Lemma kmin_kmax k : kind_ok k → kmin k < kmax k.
Proof.
  destruct k as [w|w]; simpl; intros Hw.
  - assert (2 ^ 1 ≤ 2 ^ w) by (apply Z.pow_le_mono_r; lia). lia.
  - assert (0 < 2 ^ (w - 1)) by (apply Z.pow_pos_nonneg; lia). lia.
Qed.

Lemma cast_fits k v : kind_ok k → fits k v → cast k v = v.
Proof. destruct k; simpl; intros ? H; [by apply wrapu_small|by apply wraps_small]. Qed.

Lemma cast_overflow k : kind_ok k → cast k (kmax k + 1) = kmin k.
Proof.
  destruct k as [w|w]; simpl; intros Hw.
  - unfold wrapu. replace (2 ^ w - 1 + 1) with (2 ^ w) by lia. apply Z_mod_same_full.
  - unfold wraps. replace (2 ^ (w - 1) - 1 + 1 + 2 ^ (w - 1)) with (2 ^ w).
    + rewrite Z_mod_same_full. lia.
    + replace (2 ^ w) with (2 * 2 ^ (w - 1)); [lia|]. rewrite <- Z.pow_succ_r by lia. f_equal. lia.
Qed.

(** The successor in the type. *)
Lemma cast_succ k v :
  kind_ok k → fits k v →
  v < kmax k ∧ cast k (v + 1) = v + 1 ∨ v = kmax k ∧ cast k (v + 1) < v.
Proof.
  intros Hk Hv. apply fits_bounds in Hv as Hb. pose proof (kmin_kmax k Hk).
  destruct (decide (v = kmax k)) as [->|].
  - right. rewrite cast_overflow by done. lia.
  - left. rewrite cast_fits; [lia|done|]. apply fits_bounds. lia.
Qed.

(** ** Iteration *)

Definition values (r : Range) : list Z := seqZ (start r) (end_ r - start r + 1).

Fixpoint visit_values {S} (f : Z → S → bool * S) (l : list Z) (s : S) : bool * S :=
  match l with
  | [] => (true, s)
  | v :: l => let '(go, s) := f v s in if go then visit_values f l s else (false, s)
  end.

Lemma visit_values_app {S} (f : Z → S → bool * S) l1 l2 s :
  visit_values f (l1 ++ l2) s =
    let '(go, s) := visit_values f l1 s in if go then visit_values f l2 s else (false, s).
Proof.
  revert s. induction l1 as [|v l1 IH]; intros s; simpl; [done|].
  destruct (f v s) as [[] s']; [apply IH|done].
Qed.

Lemma range_loop_spec {S} k (f : Z → S → bool * S) fuel r i s :
  kind_ok k → range_ok k r → start r ≤ i ≤ end_ r + 1 → (Z.to_nat (end_ r - i + 1) < fuel)%nat →
  range_loop k f fuel r i s = Ret (visit_values f (seqZ i (end_ r - i + 1)) s).
Proof.
  intros Hk (Hs & He & Hle). revert i s. induction fuel as [|fuel IH]; intros i s Hi Hf; [lia|].
  cbn [range_loop]. destruct (Z.leb_spec i (end_ r)) as [Hie|Hie]; cbn [andb].
  2:{ rewrite (seqZ_nil i) by lia. done. }
  rewrite (proj2 (Z.leb_le (start r) i)) by lia. cbn [andb].
  rewrite (seqZ_cons i) by lia. cbn [visit_values].
  destruct (f i s) as [[] s']; cbn [negb]; [|done].
  assert (fits k i) as Hfi by (rewrite fits_bounds in *; lia).
  destruct (cast_succ k i Hk Hfi) as [[Hm ->]|[Hm Hc]].
  - destruct (Z.ltb_spec (i + 1) i); [lia|]. rewrite IH by lia.
    do 3 f_equal; lia.
  - rewrite (proj2 (Z.ltb_lt _ _) Hc). rewrite fits_bounds in He.
    rewrite (seqZ_nil (Z.succ i)) by lia. done.
Qed.

(** Iterating over ranges always ends, also when a range reaches the largest
    value of the type, and calls the callback for exactly the values of the ranges
    in order until it returns false. *)
Theorem ranges_iterate {S} k (f : Z → S → bool * S) ranges s :
  kind_ok k → Forall (range_ok k) ranges →
  Range_ k f ranges s = Ret (visit_values f (mjoin (values <$> ranges)) s).2.
Proof.
  intros Hk Hr. revert s. induction Hr as [|r ranges Hr Hrs IH]; intros s; [done|].
  csimpl. assert (start r ≤ end_ r) by apply Hr.
  rewrite range_loop_spec, visit_values_app by (done || lia).
  fold (values r). destruct (visit_values f (values r) s) as [[] s']; [apply IH|done].
Qed.

(** ** Merging *)

(** The recursion that the loop performs in place. *)
Fixpoint merge_rec (k : kind) (m : Range) (rest : list Range) : list Range :=
  match rest with
  | [] => [m]
  | r :: rest =>
    if (end_ m <? cast k (end_ m + 1)) && (cast k (end_ m + 1) <? start r) then m :: merge_rec k r rest
    else if end_ m <? end_ r then merge_rec k (mkRange (start m) (end_ r)) rest
    else merge_rec k m rest
  end.

Lemma merge_loop_rec k done_ m junk rest :
  let a := done_ ++ m :: junk ++ rest in
  let '(j, a') := merge_loop k (length rest) (length done_ + 1 + length junk) (length done_) a in
  take (S j) a' = done_ ++ merge_rec k m rest.
Proof.
  cbv zeta. revert done_ m junk. induction rest as [|r rest IH]; intros done_ m junk.
  - simpl. rewrite app_nil_r, (cons_middle m), app_assoc.
    apply take_app_length'. rewrite length_app. simpl. lia.
  - cbn [length merge_loop].
    assert ((done_ ++ m :: junk ++ r :: rest) !! (length done_ + 1 + length junk)%nat = Some r) as ->.
    { rewrite lookup_app_r by lia. replace (_ - _)%nat with (S (length junk)) by lia. simpl.
      rewrite lookup_app_r by lia. by rewrite Nat.sub_diag. }
    rewrite list_lookup_middle by done. cbn [merge_rec].
    destruct (_ && _).
    + assert (∃ junk', <[S (length done_) := r]> (done_ ++ m :: junk ++ r :: rest) =
        (done_ ++ [m]) ++ r :: junk' ++ rest ∧ length junk' = length junk) as (junk' & -> & Hj).
      { rewrite insert_app_r_alt by lia. replace (_ - _)%nat with 1%nat by lia. simpl.
        destruct junk as [|x junk]; [exists []|exists (junk ++ [r])]; simpl;
          rewrite <- ?app_assoc; simpl; [done|]. split; [done|]. rewrite length_app. simpl. lia. }
      specialize (IH (done_ ++ [m]) r junk'). rewrite length_app in IH. cbn [length] in IH.
      replace (length done_ + 1 + 1 + length junk')%nat with (S (length done_ + 1 + length junk)) in IH by lia.
      rewrite <- (Nat.add_1_r (length done_)).
      destruct (merge_loop _ _ _ _ _) as [j a']. by rewrite IH, <- app_assoc.
    + assert (∀ m', let '(j, a') := merge_loop k (length rest) (S (length done_ + 1 + length junk))
          (length done_) (done_ ++ m' :: junk ++ r :: rest) in
        take (S j) a' = done_ ++ merge_rec k m' rest) as Hstep.
      { intros m'. specialize (IH done_ m' (junk ++ [r])). rewrite length_app, <- app_assoc in IH.
        cbn [length app] in IH.
        by replace (length done_ + 1 + (length junk + 1))%nat with (S (length done_ + 1 + length junk)) in IH by lia. }
      destruct (end_ m <? end_ r); [|apply Hstep].
      rewrite insert_app_r_alt, Nat.sub_diag by lia. apply Hstep.
Qed.

(** Not adjacent. *)
Definition apart (r1 r2 : Range) : Prop := end_ r1 + 1 < start r2.

Definition member (ranges : list Range) (t : Z) : bool := existsb (λ r, Contains r t) ranges.

Lemma merge_rec_spec k m rest :
  kind_ok k → range_ok k m → Forall (range_ok k) rest → StronglySorted le_start (m :: rest) →
  Forall (range_ok k) (merge_rec k m rest) ∧ Sorted apart (merge_rec k m rest) ∧
  (∀ x, HdRel apart x [m] → HdRel apart x (merge_rec k m rest)) ∧
  (∀ t, fits k t → member (merge_rec k m rest) t = member (m :: rest) t).
Proof.
  intros Hk Hm Hrest. revert m Hm. induction Hrest as [|r rest Hr Hrest IH]; intros m Hm Hsort; simpl.
  { split_and!; [by constructor|by repeat constructor|done|done]. }
  apply StronglySorted_inv in Hsort as [Hsort Hmr]. apply Forall_cons in Hmr as [Hmr Hmrest].
  assert (∀ m', range_ok k m' → start m' = start m →
    (∀ t, fits k t → Contains m' t = Contains m t || Contains r t) →
    Forall (range_ok k) (merge_rec k m' rest) ∧ Sorted apart (merge_rec k m' rest) ∧
    (∀ x, HdRel apart x [m] → HdRel apart x (merge_rec k m' rest)) ∧
    (∀ t, fits k t → member (merge_rec k m' rest) t = member (m :: r :: rest) t)) as Hgo.
  { intros m' Hm' Hst Hu. destruct (IH m') as (H1 & H2 & H3 & H4); [done| |].
    { constructor; [by apply StronglySorted_inv in Hsort as [? _]|].
      eapply Forall_impl; [exact Hmrest|]. unfold le_start. intros y. by rewrite Hst. }
    split_and!; [done|done| |].
    - intros x Hx. apply H3. inversion Hx; subst. constructor. unfold apart in *. by rewrite Hst.
    - intros t Ht. rewrite H4 by done. simpl. rewrite Hu by done. by rewrite orb_assoc. }
  destruct Hm as (Hms & Hme & Hmle), Hr as (Hrs & Hre & Hrle). unfold le_start in Hmr.
  destruct (cast_succ k (end_ m) Hk Hme) as [[Hlt Hc]|[Hmax Hc]].
  - rewrite Hc. rewrite (proj2 (Z.ltb_lt (end_ m) (end_ m + 1))) by lia. cbn [andb].
    destruct (Z.ltb_spec (end_ m + 1) (start r)) as [Hap|Hnap].
    + destruct (IH r) as (H1 & H2 & H3 & H4); [done|done|]. split_and!.
      * by constructor.
      * constructor; [done|]. apply H3. by constructor.
      * intros x Hx. inversion Hx; subst. by constructor.
      * intros t Ht. simpl. by rewrite H4.
    + destruct (Z.ltb_spec (end_ m) (end_ r)); 
        (apply Hgo; [unfold range_ok; simpl; split_and!; (done || lia)|done|];
         unfold Contains; intros t _; simpl; lia).
  - rewrite (proj2 (Z.ltb_ge (end_ m) _)) by lia. cbn [andb].
    pose proof (proj1 (fits_bounds _ _) Hre). destruct (Z.ltb_spec (end_ m) (end_ r)); [lia|]. apply Hgo; [done|done|].
    unfold Contains. intros t _. simpl. lia.
Qed.

Lemma member_perm l l' t : l ≡ₚ l' → member l t = member l' t.
Proof.
  induction 1 as [|x l l' H IH|x y l|l1 l2 l3 H1 IH1 H2 IH2]; simpl.
  - done.
  - by rewrite IH.
  - destruct (Contains x t), (Contains y t); done.
  - congruence.
Qed.

Lemma merge_rec_nonempty k m rest : merge_rec k m rest ≠ [].
Proof. revert m. induction rest as [|r rest IH]; intros m; simpl; [done|]. by repeat case_match. Qed.

Lemma Check_member l t : l ≠ [] → Check_ l t = member l t.
Proof. by destruct l. Qed.

Lemma Merge_sorted_rec k m rest : (Merge_sorted k (m :: rest)).1 = merge_rec k m rest.
Proof.
  unfold Merge_sorted. pose proof (merge_loop_rec k [] m [] rest) as H. simpl in H.
  by destruct (merge_loop _ _ _ _ _).
Qed.

(** For every order that [sort.Slice] may give, [Merge] accepts exactly the values
    of the given ranges, as ranges in order that neither overlap nor touch. *)
Theorem ranges_merge k ranges sorted :
  kind_ok k → Forall (range_ok k) ranges → sorted ≡ₚ ranges → StronglySorted le_start sorted →
  let merged := (Merge_sorted k sorted).1 in
  (∀ t, fits k t → Check_ merged t = Check_ ranges t) ∧
  Forall (range_ok k) merged ∧ Sorted apart merged ∧ (length merged ≤ length ranges)%nat.
Proof.
  intros Hk Hok Hperm Hsort. cbv zeta. rewrite <- Hperm in Hok.
  destruct sorted as [|m rest].
  { apply Permutation_nil_l in Hperm. subst. split_and!; [done|constructor|constructor|simpl; lia]. }
  rewrite Merge_sorted_rec. apply Forall_cons in Hok as [Hm Hrest].
  destruct (merge_rec_spec k m rest) as (H1 & H2 & H3 & H4); [done..|]. split_and!; [|done|done|].
  - intros t Ht. rewrite Check_member by apply merge_rec_nonempty. rewrite H4 by done.
    rewrite Check_member; [by apply member_perm|]. intros ->. by apply Permutation_nil_r in Hperm.
  - rewrite <- Hperm. clear. revert m. induction rest as [|r rest IH]; intros m; simpl; [done|].
    repeat case_match; simpl; [specialize (IH r)|specialize (IH (mkRange (start m) (end_ r)))|
      specialize (IH m)]; simpl in *; lia.
Qed.

(** ** Parsing *)

(** The bytes of a printed range. *)
Definition range_byte (a : ascii) : bool := is_digit a || Ascii.eqb a "-".

Lemma digit_bytes a :
  is_digit a = true →
  visible a = true ∧ has_byte a "[ ]" = false ∧ Ascii.eqb a "-" = false ∧ Ascii.eqb a "," = false ∧
  Ascii.eqb a "/" = false.
Proof. destruct a as [[] [] [] [] [] [] [] []]; vm_compute; by split_and?. Qed.

Lemma digits_trim s : forall_bytes is_digit s = true → Trim s "[ ]" = s ∧ has_byte "-" s = false.
Proof.
  intros Hs. split; [apply Trim_id|rewrite has_byte_forall; apply negb_false_iff];
    (eapply forall_bytes_impl; [|exact Hs]); intros a (_ & H1 & H2 & _)%digit_bytes.
  - by rewrite H1.
  - by rewrite H2.
Qed.

Lemma range_bytes_visible s : forall_bytes range_byte s = true → TrimSpace s = s.
Proof.
  intros Hs. apply TrimSpace_visible. eapply forall_bytes_impl; [|exact Hs].
  unfold range_byte. intros a [Ha|Ha]%orb_true_iff; [by apply digit_bytes|].
  apply Ascii.eqb_eq in Ha as ->. done.
Qed.

Lemma Format_bytes n : 0 ≤ n → forall_bytes range_byte (FormatUint n) = true.
Proof.
  intros Hn. destruct (parse_FormatUint n Hn) as (_ & H & _).
  eapply forall_bytes_impl; [|exact H]. unfold range_byte. by intros a ->.
Qed.

Lemma string_length_0 s : (String.length s =? 0)%nat = bool_decide (s = "").
Proof. by destruct s. Qed.

(** A number is parsed to its value in the type. *)
Lemma newIntRange_number w n :
  0 ≤ n < 2 ^ 64 →
  newIntRange (Unsigned w) (FormatUint n) = Some (mkRange (wrapu w n) (wrapu w n)).
Proof.
  intros Hn. destruct (parse_FormatUint n) as (_ & Hd & Hne); [lia|]. unfold newIntRange. cbv zeta.
  rewrite range_bytes_visible by (apply Format_bytes; lia).
  rewrite string_length_0, bool_decide_false by done.
  destruct (digits_trim _ Hd) as [Ht Hb]. rewrite Split_no_sep, Ht by done. simpl.
  rewrite ParseUint_Format by done. simpl. unfold NewRange. by rewrite Z.ltb_irrefl.
Qed.

Lemma newIntRange_pair w n1 n2 :
  0 ≤ n1 < 2 ^ 64 → 0 ≤ n2 < 2 ^ 64 →
  newIntRange (Unsigned w) (FormatUint n1 +:+ "-" +:+ FormatUint n2) =
    Some (NewRange (wrapu w n1) (wrapu w n2)).
Proof.
  intros Hn1 Hn2. destruct (parse_FormatUint n1) as (_ & Hd1 & Hne1); [lia|].
  destruct (parse_FormatUint n2) as (_ & Hd2 & Hne2); [lia|]. unfold newIntRange. cbv zeta.
  rewrite range_bytes_visible.
  2:{ rewrite forall_bytes_app, Format_bytes by lia. simpl. apply Format_bytes. lia. }
  rewrite string_length_0, bool_decide_false by by destruct (FormatUint n1).
  destruct (digits_trim _ Hd1) as [Ht1 Hb1], (digits_trim _ Hd2) as [Ht2 Hb2].
  change ("-" +:+ FormatUint n2) with (String "-" (FormatUint n2)).
  rewrite (Split_app "-" (FormatUint n1) (FormatUint n2) Hb1), Split_no_sep by done.
  rewrite Ht1, Ht2. simpl. by rewrite !ParseUint_Format.
Qed.

(** a number above the type is not refused but taken modulo the width: a port
    rule for 65616 is one for port 80. *)
Theorem ranges_parse_truncates w n :
  0 ≤ n < 2 ^ 64 →
  newIntRanges (Unsigned w) (FormatUint n) = Some [mkRange (n mod 2 ^ w) (n mod 2 ^ w)].
Proof.
  intros Hn. destruct (parse_FormatUint n) as (_ & Hd & Hne); [lia|]. unfold newIntRanges. cbv zeta.
  rewrite range_bytes_visible by (apply Format_bytes; lia).
  rewrite string_length_0, bool_decide_false by done.
  rewrite bool_decide_false by (intros Heq; rewrite Heq in Hd; by vm_compute in Hd). cbn [orb].
  assert (∀ b, (b = ","%char ∨ b = "/"%char) → has_byte b (FormatUint n) = false) as Hb.
  { intros b Hb. rewrite has_byte_forall. apply negb_false_iff. eapply forall_bytes_impl; [|exact Hd].
    intros a (_ & _ & _ & H1 & H2)%digit_bytes. destruct Hb as [->| ->]; by rewrite ?H1, ?H2. }
  rewrite ReplaceByte_id, Split_no_sep by auto. cbn [length newIntRangesFromList].
  rewrite bool_decide_false, newIntRange_number by done. done.
Qed.

(** *** Printing and parsing *)

Lemma FormatInt_nonneg n : 0 ≤ n → FormatInt n = FormatUint n.
Proof. intros Hn. unfold FormatInt. destruct (Z.ltb_spec n 0); [lia|done]. Qed.

Lemma Range_String_spec w r :
  0 < w ≤ 64 → range_ok (Unsigned w) r →
  newIntRange (Unsigned w) (Range_String r) = Some r ∧
  forall_bytes range_byte (Range_String r) = true ∧ Range_String r ≠ "".
Proof.
  intros Hw (Hs & He & Hle). simpl in Hs, He.
  assert (2 ^ w ≤ 2 ^ 64) by (apply Z.pow_le_mono_r; lia).
  destruct (parse_FormatUint (start r)) as (_ & _ & Hne); [lia|].
  unfold Range_String. rewrite !FormatInt_nonneg by lia. destruct (Z.eqb_spec (start r) (end_ r)) as [Heq|Hne'].
  - split_and!; [|apply Format_bytes; lia|done]. rewrite newIntRange_number, wrapu_small by lia.
    f_equal. destruct r; simpl in *; by subst.
  - split_and!.
    + rewrite newIntRange_pair, !wrapu_small by lia. unfold NewRange.
      destruct (Z.ltb_spec (end_ r) (start r)); [lia|]. by destruct r.
    + rewrite forall_bytes_app, Format_bytes by lia. simpl. apply Format_bytes. lia.
    + by destruct (FormatUint (start r)).
Qed.

Lemma newIntRangesFromList_strings w ranges :
  0 < w ≤ 64 → Forall (range_ok (Unsigned w)) ranges →
  newIntRangesFromList (Unsigned w) (Range_String <$> ranges) = Some ranges.
Proof.
  intros Hw. induction 1 as [|r ranges Hr Hrs IH]; [done|].
  destruct (Range_String_spec w r Hw Hr) as (H1 & _ & H3). csimpl.
  by rewrite bool_decide_false, H1, IH.
Qed.

(** printing up to 28 ranges of an unsigned type and parsing the result gives the
    same ranges. *)
Theorem ranges_roundtrip w ranges :
  0 < w ≤ 64 → Forall (range_ok (Unsigned w)) ranges → (length ranges ≤ 28)%nat →
  newIntRanges (Unsigned w) (Ranges_String ranges) = Some ranges.
Proof.
  intros Hw Hok Hlen. destruct ranges as [|r0 rs]; [done|]. unfold newIntRanges, Ranges_String. cbv zeta.
  set (terms := Range_String <$> r0 :: rs).
  assert (Forall (λ p, forall_bytes range_byte p = true ∧ p ≠ "") terms) as Hterms.
  { apply Forall_fmap. eapply Forall_impl; [exact Hok|]. intros r Hr. by apply (Range_String_spec w). }
  assert (∀ b, b = ","%char ∨ b = "/"%char → Forall (λ p, has_byte b p = false) terms) as Hsep.
  { intros b Hb. eapply Forall_impl; [exact Hterms|]. intros p [Hp _]. rewrite has_byte_forall.
    apply negb_false_iff. eapply forall_bytes_impl; [|exact Hp]. unfold range_byte. intros a Ha.
    apply orb_true_iff in Ha as [(_ & _ & _ & H1 & H2)%digit_bytes|Ha%Ascii.eqb_eq].
    - destruct Hb as [->| ->]; by rewrite ?H1, ?H2.
    - subst a. by destruct Hb as [->| ->]. }
  assert (forall_bytes (λ a, range_byte a || Ascii.eqb a "/") (Join "/" terms) = true) as Hall.
  { apply forall_bytes_Join; [done|]. eapply Forall_impl; [exact Hterms|]. intros p [Hp _].
    eapply forall_bytes_impl; [|exact Hp]. by intros a ->. }
  rewrite TrimSpace_visible.
  2:{ eapply forall_bytes_impl; [|exact Hall]. unfold range_byte. intros a.
      rewrite !orb_true_iff, !Ascii.eqb_eq. intros [[?| ->]| ->]; [by apply digit_bytes|done|done]. }
  assert (Join "/" terms ≠ "" ∧ Join "/" terms ≠ "*") as [Hne1 Hne2].
  { split; [|intros Heq; rewrite Heq in Hall; by vm_compute in Hall].
    intros Heq. apply Forall_cons in Hterms as [[_ Ht] _]. revert Heq.
    unfold terms in *. csimpl. destruct (Range_String r0), rs; done. }
  rewrite string_length_0, !bool_decide_false by done. cbn [orb].
  rewrite ReplaceByte_id, Split_Join; [|done|by apply Hsep; right|].
  - unfold terms at 1. rewrite length_fmap. destruct (Nat.ltb_spec 28 (length (r0 :: rs))); [lia|].
    by apply newIntRangesFromList_strings.
  - rewrite has_byte_forall. apply negb_false_iff. eapply forall_bytes_impl; [|exact Hall].
    intros a. unfold range_byte. rewrite !orb_true_iff, !Ascii.eqb_eq.
    intros [[(_ & _ & _ & H1 & _)%digit_bytes| ->]| ->]; [by rewrite H1|done|done].
Qed.

Module Examples.

Definition bytes_ : kind := Unsigned 8.
Definition sample : list Range := [mkRange 10 20; mkRange 0 9; mkRange 255 255; mkRange 40 255].

Lemma sample_ok : Forall (range_ok bytes_) sample.
Proof. repeat constructor; simpl; lia. Qed.

Lemma ranges_iterate_witness :
  Range_ bytes_ (λ v s, (true, s ++ [v])) [mkRange 253 255] [] = Ret [253; 254; 255].
Proof.
  rewrite (ranges_iterate bytes_ (λ v s, (true, s ++ [v])) [mkRange 253 255] []).
  - reflexivity.
  - simpl. lia.
  - repeat constructor; simpl; lia.
Defined.

Lemma ranges_merge_witness :
  (Merge bytes_ sample).1 = [mkRange 0 20; mkRange 40 255] ∧
  Check_ (Merge bytes_ sample).1 255 = true ∧ Check_ (Merge bytes_ sample).1 30 = false.
Proof.
  destruct (ranges_merge bytes_ sample (merge_sort le_start sample)) as (Hc & _).
  - simpl. lia.
  - apply sample_ok.
  - apply merge_sort_Permutation.
  - repeat constructor; vm_compute; discriminate.
  - split; [reflexivity|]. unfold Merge. split; rewrite Hc by (simpl; lia); reflexivity.
Defined.

Lemma ranges_parse_truncates_witness : newIntRanges (Unsigned 16) "65616" = Some [mkRange 80 80].
Proof. apply (ranges_parse_truncates 16 65616). lia. Defined.

Lemma ranges_roundtrip_witness :
  Ranges_String sample = "10-20/0-9/255/40-255" ∧ newIntRanges bytes_ (Ranges_String sample) = Some sample.
Proof.
  split; [reflexivity|]. apply (ranges_roundtrip 8 sample); [lia|apply sample_ok|simpl; lia].
Defined.

End Examples.
