(* ===== verification/Rules.v ===== *)
(** * Rules ([constant/rule.go], [rules/common], [rules/logic], [rules/wrapper])

    A rule matches the metadata of a connection and names an adapter.  Every rule
    type is a constructor of [Rule] with the fields of its Go struct, and [Match]
    is the method of the interface.  Matching has effects: the helper may resolve
    the destination or look up the process, and the geo rules cache what they
    found, so the metadata and the state of the helper are passed along.

    What is outside of the rules (the regular expression library, the geo and ASN
    databases, rule providers, the text form of prefixes) is a field of [World].

    A SUB-RULE rule evaluates a named list of rules, which may have such rules in
    turn; [Match] is given fuel for this, and [OutOfFuel] stands for a recursion
    that does not end. *)

From Stdlib Require Import Ascii.
From S2P Require Import Prelude Wire GoStrings NetIP Metadata Wildcard Ranges.

(** ** Rule types *)

Module RT.
Inductive RuleType : Type :=
| Domain | DomainSuffix | DomainKeyword | DomainRegex | DomainWildcard | GEOSITE | GEOIP
| SrcGEOIP | IPASN | SrcIPASN | IPCIDR | SrcIPCIDR | IPSuffix | SrcIPSuffix | SrcPort
| DstPort | InPort | DSCP | InUser | InName | InType | ProcessName | ProcessPath
| ProcessNameRegex | ProcessPathRegex | ProcessNameWildcard | ProcessPathWildcard
| RematchName | RuleSet | Network | Uid | SubRules | MATCH | AND | OR | NOT.

#[global] Instance RuleType_eq_dec : EqDecision RuleType.
Proof. solve_decision. Defined.
End RT.

Definition RuleType_String (rt : RT.RuleType) : string :=
  match rt with
  | RT.Domain => "Domain"
  | RT.DomainSuffix => "DomainSuffix"
  | RT.DomainKeyword => "DomainKeyword"
  | RT.DomainRegex => "DomainRegex"
  | RT.DomainWildcard => "DomainWildcard"
  | RT.GEOSITE => "GeoSite"
  | RT.GEOIP => "GeoIP"
  | RT.SrcGEOIP => "SrcGeoIP"
  | RT.IPASN => "IPASN"
  | RT.SrcIPASN => "SrcIPASN"
  | RT.IPCIDR => "IPCIDR"
  | RT.SrcIPCIDR => "SrcIPCIDR"
  | RT.IPSuffix => "IPSuffix"
  | RT.SrcIPSuffix => "SrcIPSuffix"
  | RT.SrcPort => "SrcPort"
  | RT.DstPort => "DstPort"
  | RT.InPort => "InPort"
  | RT.InUser => "InUser"
  | RT.InName => "InName"
  | RT.InType => "InType"
  | RT.ProcessName => "ProcessName"
  | RT.ProcessPath => "ProcessPath"
  | RT.ProcessNameRegex => "ProcessNameRegex"
  | RT.ProcessPathRegex => "ProcessPathRegex"
  | RT.ProcessNameWildcard => "ProcessNameWildcard"
  | RT.ProcessPathWildcard => "ProcessPathWildcard"
  | RT.RematchName => "RematchName"
  | RT.MATCH => "Match"
  | RT.RuleSet => "RuleSet"
  | RT.Network => "Network"
  | RT.DSCP => "DSCP"
  | RT.Uid => "Uid"
  | RT.SubRules => "SubRules"
  | RT.AND => "AND"
  | RT.OR => "OR"
  | RT.NOT => "NOT"
  end.

(** The keys of [SmartRuleTypes]. *)
Definition SmartRuleTypes (rt : RT.RuleType) : bool :=
  match rt with
  | RT.Domain | RT.DomainSuffix | RT.DomainKeyword | RT.DomainRegex | RT.DomainWildcard
  | RT.GEOSITE | RT.GEOIP | RT.IPASN | RT.IPCIDR | RT.IPSuffix | RT.RuleSet | RT.SubRules
  | RT.AND | RT.OR | RT.NOT => true
  | _ => false
  end.

(** ** Rules *)

Unset Elimination Schemes.
Inductive Rule : Type :=
| Domain (domain adapter : string)
| DomainSuffix (suffix adapter : string)
| DomainKeyword (keyword adapter : string)
| DomainRegex (regex adapter : string)
| DomainWildcard (pattern adapter : string)
| GEOSITE (country adapter : string)
| GEOIP (country adapter : string) (noResolveIP isSourceIP : bool)
| ASN (asn adapter : string) (noResolveIP isSourceIP : bool)
| IPCIDR (ipnet : Prefix) (adapter : string) (isSourceIP noResolveIP : bool)
| IPSuffix (ipBytes : list Z) (bits : Z) (payload adapter : string) (isSourceIP noResolveIP : bool)
| Port (adapter port : string) (ruleType : RT.RuleType) (portRanges : list Range)
| DSCPRule (ranges : list Range) (payload adapter : string)
| InUserRule (users : list string) (adapter payload : string)
| InNameRule (names : list string) (adapter payload : string)
| InTypeRule (types : list CType) (adapter payload : string)
| RematchNameRule (names : list string) (adapter payload : string)
| ProcessRule (pattern adapter : string) (ruleType : RT.RuleType)
| RuleSet (ruleProviderName adapter : string) (isSrc noResolveIP : bool)
| NetworkType (network : NetWork) (adapter : string)
| UidRule (uids : list Range) (oUid adapter : string)
| MatchRule (adapter : string)
| Logic (payload adapter : string) (ruleType : RT.RuleType) (rules : list Rule).
Set Elimination Schemes.

Definition RuleType_ (r : Rule) : RT.RuleType :=
  match r with
  | Domain _ _ => RT.Domain
  | DomainSuffix _ _ => RT.DomainSuffix
  | DomainKeyword _ _ => RT.DomainKeyword
  | DomainRegex _ _ => RT.DomainRegex
  | DomainWildcard _ _ => RT.DomainWildcard
  | GEOSITE _ _ => RT.GEOSITE
  | GEOIP _ _ _ isSourceIP => if isSourceIP then RT.SrcGEOIP else RT.GEOIP
  | ASN _ _ _ isSourceIP => if isSourceIP then RT.SrcIPASN else RT.IPASN
  | IPCIDR _ _ isSourceIP _ => if isSourceIP then RT.SrcIPCIDR else RT.IPCIDR
  | IPSuffix _ _ _ _ isSourceIP _ => if isSourceIP then RT.SrcIPSuffix else RT.IPSuffix
  | Port _ _ ruleType _ => ruleType
  | DSCPRule _ _ _ => RT.DSCP
  | InUserRule _ _ _ => RT.InUser
  | InNameRule _ _ _ => RT.InName
  | InTypeRule _ _ _ => RT.InType
  | RematchNameRule _ _ _ => RT.RematchName
  | ProcessRule _ _ ruleType => ruleType
  | RuleSet _ _ _ _ => RT.RuleSet
  | NetworkType _ _ => RT.Network
  | UidRule _ _ _ => RT.Uid
  | MatchRule _ => RT.MATCH
  | Logic _ _ ruleType _ => ruleType
  end.

Definition Adapter (r : Rule) : string :=
  match r with
  | Domain _ a | DomainSuffix _ a | DomainKeyword _ a | DomainRegex _ a | DomainWildcard _ a
  | GEOSITE _ a | GEOIP _ a _ _ | ASN _ a _ _ | IPCIDR _ a _ _ | IPSuffix _ _ _ a _ _
  | Port a _ _ _ | DSCPRule _ _ a | InUserRule _ a _ | InNameRule _ a _ | InTypeRule _ a _
  | RematchNameRule _ a _ | ProcessRule _ a _ | RuleSet _ a _ _ | NetworkType _ a
  | UidRule _ _ a | MatchRule a | Logic _ a _ _ => a
  end.

(** [ProviderNames]. *)
Fixpoint ProviderNames (r : Rule) : list string :=
  match r with
  | RuleSet name _ _ _ => [name]
  | Logic _ _ _ rules => flat_map ProviderNames rules
  | _ => []
  end.

(** ** What is outside *)

(** [RuleMatchHelper]: functions that change the metadata and their own state. *)
Record RuleMatchHelper (S : Type) := mkHelper {
  ResolveIP : option (Metadata * S → Metadata * S);
  FindProcess : option (Metadata * S → Metadata * S);
  CheckPassRule : option (Metadata → string → bool);
}.
Arguments mkHelper {S}.
Arguments ResolveIP {S}.
Arguments FindProcess {S}.
Arguments CheckPassRule {S}.

Record World := mkWorld {
  regex_Compile : string → bool;                  (* regexp2.Compile succeeds *)
  regex_MatchString : string → string → bool;     (* regexp2's MatchString *)
  GeodataMode : bool;
  InitGeo : bool;                                 (* the geo data could be loaded *)
  LoadGeoIPMatcher : string → option (Addr → bool);
  LoadGeoSiteMatcher : string → option (string → bool);
  LookupCode : list Z → option (list string);     (* mmdb country codes, nil is None *)
  LookupASN : list Z → string * string;
  RuleProviders : string → option (∀ S : Type,
    RuleMatchHelper S → Metadata * S → outcome (bool * (Metadata * S)));
  ParsePrefix : string → option Prefix;           (* netip.ParsePrefix *)
  Prefix_String : Prefix → string;
  isLinux : bool;                                 (* runtime.GOOS is linux or android *)
}.

(** [Payload]; a logic rule prints its rules. *)
Fixpoint Payload (w : World) (r : Rule) : string :=
  let item r := "(" +:+ RuleType_String (RuleType_ r) +:+ "," +:+ Payload w r +:+ ")" in
  let join sep (l : list string) := String.concat sep l in
  match r with
  | Domain s _ | DomainSuffix s _ | DomainKeyword s _ | DomainRegex s _ | DomainWildcard s _
  | GEOSITE s _ | GEOIP s _ _ _ | ASN s _ _ _ | Port _ s _ _ | RuleSet s _ _ _
  | ProcessRule s _ _ | UidRule _ s _ => s
  | IPCIDR ipnet _ _ _ => Prefix_String w ipnet
  | IPSuffix _ _ payload _ _ _ => payload
  | DSCPRule _ payload _ => payload
  | InUserRule _ _ payload | InNameRule _ _ payload | InTypeRule _ _ payload
  | RematchNameRule _ _ payload => payload
  | NetworkType network _ => NetWork_String network
  | MatchRule _ => ""
  | Logic payload _ ruleType rules =>
    match ruleType with
    | RT.NOT =>
      match rules with
      | r :: _ => "(!(" +:+ RuleType_String (RuleType_ r) +:+ "," +:+ Payload w r +:+ "))"
      | [] => payload
      end
    | RT.OR => "(" +:+ join " || " (List.map item rules) +:+ ")"
    | RT.AND => "(" +:+ join " && " (List.map item rules) +:+ ")"
    | _ => payload
    end
  end.

(** ** Matching *)

(** [GEOIP.isLan] on the address classes of [net/netip]. *)
Definition in_prefix4 (a b c d bits : Z) (ip : Addr) : bool :=
  PrefixContains (mkPrefix (Addr4 (((a * 256 + b) * 256 + c) * 256 + d)) bits) ip.

(** The leading bits of an IPv6 address. *)
Definition in_prefix6 (top bits : Z) (ip : Addr) : bool :=
  match ip with Addr6 v _ => Z.shiftr v (128 - bits) =? top | _ => false end.

Definition IsPrivate (ip : Addr) : bool :=
  let ip := Unmap ip in
  in_prefix4 10 0 0 0 8 ip || in_prefix4 172 16 0 0 12 ip || in_prefix4 192 168 0 0 16 ip ||
  in_prefix6 126 7 ip.

Definition IsUnspecified (ip : Addr) : bool :=
  bool_decide (ip = Addr4 0) || bool_decide (ip = Addr6 0 "").

Definition IsLoopback (ip : Addr) : bool :=
  let ip := Unmap ip in
  in_prefix4 127 0 0 0 8 ip || match ip with Addr6 v _ => v =? 1 | _ => false end.

Definition IsMulticast (ip : Addr) : bool :=
  let ip := Unmap ip in in_prefix4 224 0 0 0 4 ip || in_prefix6 255 8 ip.

Definition IsLinkLocalUnicast (ip : Addr) : bool :=
  let ip := Unmap ip in in_prefix4 169 254 0 0 16 ip || in_prefix6 1018 10 ip.

Definition isLan (ip : Addr) : bool :=
  IsPrivate ip || IsUnspecified ip || IsLoopback ip || IsMulticast ip || IsLinkLocalUnicast ip.

(** [slices.Contains]. *)
Definition slices_Contains (l : list string) (s : string) : bool := bool_decide (s ∈ l).

(** The comparison of the low bits in [IPSuffix.Match]: whole bytes from the end, ... *)
Fixpoint suffix_bytes (ipBytes mIPBytes : list Z) (i : nat) : outcome bool :=
  match i with
  | O => Ret true
  | S i' =>
    x ← idx ipBytes (len mIPBytes - Z.of_nat i);
    y ← idx mIPBytes (len mIPBytes - Z.of_nat i);
    if negb (x =? y) then Ret false else suffix_bytes ipBytes mIPBytes i'
  end.

(** ... then the bits that are left of one more byte. *)
Definition suffix_match (ipBytes mIPBytes : list Z) (bits : Z) : outcome bool :=
  if negb (length ipBytes =? length mIPBytes)%nat then Ret false
  else
    whole ← suffix_bytes ipBytes mIPBytes (Z.to_nat (bits / 8));
    if negb whole then Ret false
    else if negb (bits mod 8 =? 0) then
      x ← idx ipBytes (len mIPBytes - bits / 8 - 1);
      y ← idx mIPBytes (len mIPBytes - bits / 8 - 1);
      Ret (u8 (Z.shiftl x (8 - bits mod 8)) =? u8 (Z.shiftl y (8 - bits mod 8)))
    else Ret true.

Section matching.
Context (w : World) {S : Type} (helper : RuleMatchHelper S).
Abbreviation ctx := (Metadata * S)%type.
Abbreviation answer := (outcome ((bool * string) * ctx)).

Definition call_ResolveIP (c : ctx) : ctx :=
  match ResolveIP helper with Some f => f c | None => c end.

Definition call_FindProcess (c : ctx) : ctx :=
  match FindProcess helper with Some f => f c | None => c end.

(** The first lines of every rule on addresses: resolve unless told not to, and
    take one of the two addresses. *)
Definition target_ip (noResolveIP isSourceIP : bool) (c : ctx) : Addr * ctx :=
  let c := if negb noResolveIP && negb isSourceIP then call_ResolveIP c else c in
  (if isSourceIP then SrcIP c.1 else DstIP c.1, c).

Definition GEOIP_Match (country adapter : string) (noResolveIP isSourceIP : bool) (c : ctx) :
    (bool * string) * ctx :=
  let '(ip, c) := target_ip noResolveIP isSourceIP c in
  let '(m, s) := c in
  let cached := if isSourceIP then SrcGeoIP m else DstGeoIP m in
  let store (codes : option (list string)) :=
    if isSourceIP then set_SrcGeoIP codes m else set_DstGeoIP codes m in
  if negb (IsValid ip) then ((false, ""), c)
  else if bool_decide (country = "lan") then ((isLan ip, adapter), c)
  else if GeodataMode w then
    if slices_Contains (default [] cached) country then ((true, adapter), c)
    else
      match LoadGeoIPMatcher w country with
      | None => ((false, ""), c)
      | Some matcher =>
        if matcher ip then ((true, adapter), (store (Some (default [] cached ++ [country])), s))
        else ((false, adapter), c)
      end
  else
    match cached with
    | Some codes => ((slices_Contains codes country, adapter), c)
    | None =>
      let codes := LookupCode w (AsSlice ip) in
      let c := (store codes, s) in
      if slices_Contains (default [] codes) country then ((true, adapter), c) else ((false, ""), c)
    end.

Definition ASN_Match (asn_ adapter : string) (noResolveIP isSourceIP : bool) (c : ctx) :
    (bool * string) * ctx :=
  let '(ip, c) := target_ip noResolveIP isSourceIP c in
  let '(m, s) := c in
  if negb (IsValid ip) then ((false, ""), c)
  else
    let '(asn, aso) := LookupASN w (AsSlice ip) in
    let asnInfo := if bool_decide (asn = "") then "unknown" else asn +:+ " " +:+ aso in
    let m := if isSourceIP then set_SrcIPASN asnInfo m else set_DstIPASN asnInfo m in
    ((bool_decide (asn_ = asn), adapter), (m, s)).

Definition Process_Match (pattern adapter : string) (ruleType : RT.RuleType) (c : ctx) : answer :=
  let c := call_FindProcess c in
  let target :=
    match ruleType with
    | RT.ProcessName | RT.ProcessNameRegex | RT.ProcessNameWildcard => Process c.1
    | _ => ProcessPath c.1
    end in
  match ruleType with
  | RT.ProcessNameRegex | RT.ProcessPathRegex =>
    Ret ((regex_MatchString w pattern target, adapter), c)
  | RT.ProcessNameWildcard | RT.ProcessPathWildcard =>
    match Wildcard.Match (ToLower pattern) (ToLower target) with
    | Some b => Ret ((b, adapter), c)
    | None => OutOfFuel
    end
  | _ => Ret ((bool_decide (ToLower target = ToLower pattern), adapter), c)
  end.

Definition RuleSet_Match (name adapter : string) (isSrc noResolveIP : bool) (c : ctx) : answer :=
  match RuleProviders w name with
  | Some provider =>
    let silent := mkHelper None (FindProcess helper) (CheckPassRule helper) in
    if isSrc then
      res ← provider S silent (SwapSrcDst c.1, c.2);
      let '(b, (m, s)) := (res : bool * ctx) in
      Ret ((b, adapter), (SwapSrcDst m, s))
    else
      res ← provider S (if noResolveIP then silent else helper) c;
      let '(b, c) := (res : bool * ctx) in
      Ret ((b, adapter), c)
  | None => Ret ((false, ""), c)
  end.

(** *** The rules of [rules/common], file by file *)

Definition Domain_Match (domain adapter : string) (c : ctx) : answer :=
  Ret ((bool_decide (RuleHost c.1 = domain), adapter), c).

Definition DomainSuffix_Match (suffix adapter : string) (c : ctx) : answer :=
  let domain := RuleHost c.1 in
  Ret ((HasSuffix domain ("." +:+ suffix) || bool_decide (domain = suffix), adapter), c).

Definition DomainKeyword_Match (keyword adapter : string) (c : ctx) : answer :=
  let domain := RuleHost c.1 in
  Ret ((GoStrings.Contains domain keyword, adapter), c).

Definition DomainRegex_Match (regex adapter : string) (c : ctx) : answer :=
  let domain := RuleHost c.1 in
  Ret ((regex_MatchString w regex domain, adapter), c).

Definition DomainWildcard_Match (pattern adapter : string) (c : ctx) : answer :=
  match Wildcard.Match pattern (RuleHost c.1) with
  | Some b => Ret ((b, adapter), c)
  | None => OutOfFuel
  end.

Definition GEOSITE_MatchDomain (country domain : string) : bool :=
  if (String.length domain =? 0)%nat then false
  else match LoadGeoSiteMatcher w country with Some f => f domain | None => false end.

Definition GEOSITE_Match (country adapter : string) (c : ctx) : answer :=
  Ret ((GEOSITE_MatchDomain country (RuleHost c.1), adapter), c).

Definition IPCIDR_Match (ipnet : Prefix) (adapter : string) (isSourceIP noResolveIP : bool) (c : ctx) :
    answer :=
  let '(ip, c) := target_ip noResolveIP isSourceIP c in
  Ret ((IsValid ip && PrefixContains ipnet (WithZone ip ""), adapter), c).

Definition IPSuffix_Match (ipBytes : list Z) (bits : Z) (adapter : string)
    (isSourceIP noResolveIP : bool) (c : ctx) : answer :=
  let '(ip, c) := target_ip noResolveIP isSourceIP c in
  b ← suffix_match ipBytes (AsSlice ip) bits;
  Ret (if (b : bool) then (true, adapter) else (false, ""), c).

Definition Port_Match (adapter : string) (ruleType : RT.RuleType) (portRanges : list Range) (c : ctx) :
    answer :=
  let targetPort :=
    match ruleType with
    | RT.InPort => InPort c.1
    | RT.SrcPort => SrcPort c.1
    | _ => DstPort c.1
    end in
  Ret ((Check_ portRanges targetPort, adapter), c).

Definition DSCP_Match (ranges : list Range) (adapter : string) (c : ctx) : answer :=
  Ret ((Check_ ranges (DSCP c.1), adapter), c).

(** The loop of a rule over its names: the adapter is only given with a match. *)
Definition found_in (found : bool) (adapter : string) (c : ctx) : answer :=
  Ret (if found then (true, adapter) else (false, ""), c).

Definition InUser_Match (users : list string) (adapter : string) (c : ctx) : answer :=
  found_in (slices_Contains users (InUser c.1)) adapter c.

Definition InName_Match (names : list string) (adapter : string) (c : ctx) : answer :=
  found_in (slices_Contains names (InName c.1)) adapter c.

Definition InType_Match (types : list CType) (adapter : string) (c : ctx) : answer :=
  found_in (bool_decide (Type_ c.1 ∈ types)) adapter c.

Definition RematchName_Match (names : list string) (adapter : string) (c : ctx) : answer :=
  found_in (slices_Contains names (RematchName c.1)) adapter c.

Definition NetworkType_Match (network : NetWork) (adapter : string) (c : ctx) : answer :=
  Ret ((network =? NetWork_ c.1, adapter), c).

Definition Uid_Match (uids : list Range) (adapter : string) (c : ctx) : answer :=
  let c := call_FindProcess c in
  found_in (negb (Uid c.1 =? 0) && Check_ uids (Uid c.1)) adapter c.

Definition Match_Match (adapter : string) (c : ctx) : answer := Ret ((true, adapter), c).

(** [Match] of every rule that is not a logic rule. *)
Definition leaf_Match (r : Rule) (c : ctx) : answer :=
  match r with
  | Domain domain a => Domain_Match domain a c
  | DomainSuffix suffix a => DomainSuffix_Match suffix a c
  | DomainKeyword keyword a => DomainKeyword_Match keyword a c
  | DomainRegex regex a => DomainRegex_Match regex a c
  | DomainWildcard pattern a => DomainWildcard_Match pattern a c
  | GEOSITE country a => GEOSITE_Match country a c
  | GEOIP country a noResolveIP isSourceIP => Ret (GEOIP_Match country a noResolveIP isSourceIP c)
  | ASN asn a noResolveIP isSourceIP => Ret (ASN_Match asn a noResolveIP isSourceIP c)
  | IPCIDR ipnet a isSourceIP noResolveIP => IPCIDR_Match ipnet a isSourceIP noResolveIP c
  | IPSuffix ipBytes bits _ a isSourceIP noResolveIP =>
    IPSuffix_Match ipBytes bits a isSourceIP noResolveIP c
  | Port a _ ruleType portRanges => Port_Match a ruleType portRanges c
  | DSCPRule ranges _ a => DSCP_Match ranges a c
  | InUserRule users a _ => InUser_Match users a c
  | InNameRule names a _ => InName_Match names a c
  | InTypeRule types a _ => InType_Match types a c
  | RematchNameRule names a _ => RematchName_Match names a c
  | ProcessRule pattern a ruleType => Process_Match pattern a ruleType c
  | RuleSet name a isSrc noResolveIP => RuleSet_Match name a isSrc noResolveIP c
  | NetworkType network a => NetworkType_Match network a c
  | UidRule uids _ a => Uid_Match uids a c
  | MatchRule a => Match_Match a c
  | Logic _ _ _ _ => Ret ((false, ""), c)
  end.

(** The loops of OR and AND, for the [Match] of the rules. *)
Section loops.
Variable match_ : Rule → ctx → answer.

Fixpoint or_loop (adapter : string) (rules : list Rule) (c : ctx) : answer :=
  match rules with
  | [] => Ret ((false, ""), c)
  | rule :: rules =>
    res ← match_ rule c;
    let '((m, _), c) := (res : (bool * string) * ctx) in
    if m then Ret ((true, adapter), c) else or_loop adapter rules c
  end.

Fixpoint and_loop (adapter : string) (rules : list Rule) (c : ctx) : answer :=
  match rules with
  | [] => Ret ((true, adapter), c)
  | rule :: rules =>
    res ← match_ rule c;
    let '((m, _), c) := (res : (bool * string) * ctx) in
    if negb m then Ret ((false, adapter), c) else and_loop adapter rules c
  end.

(** The loop of [matchSubRules]; [sub] is the recursive call. *)
Fixpoint sub_loop (sub : string → ctx → answer) (rules : list Rule) (c : ctx) : answer :=
  match rules with
  | [] => Ret ((false, ""), c)
  | rule :: rules =>
    res ← match_ rule c;
    let '((m, a), c) := (res : (bool * string) * ctx) in
    if negb m then sub_loop sub rules c
    else
      res ← (if bool_decide (RuleType_ rule = RT.SubRules) then sub (Adapter rule) c
             else Ret ((m, a), c));
      let '((m, a), c) := (res : (bool * string) * ctx) in
      let pass := match CheckPassRule helper with Some f => f c.1 a | None => false end in
      if m && (bool_decide (a = "PASS-RULE") || pass) then sub_loop sub rules c
      else Ret ((m, a), c)
  end.

(** [Logic.Match]. *)
Definition Logic_Match (sub : string → ctx → answer) (adapter : string) (ruleType : RT.RuleType)
    (rules : list Rule) (c : ctx) : answer :=
  match ruleType with
  | RT.SubRules =>
    r ← idx rules 0;
    res ← match_ r c;
    let '((m, _), c) := (res : (bool * string) * ctx) in
    if m then sub adapter c else Ret ((false, ""), c)
  | RT.NOT =>
    r ← idx rules 0;
    res ← match_ r c;
    let '((m, _), c) := (res : (bool * string) * ctx) in
    if negb m then Ret ((true, adapter), c) else Ret ((false, ""), c)
  | RT.OR => or_loop adapter rules c
  | RT.AND => and_loop adapter rules c
  | _ => Ret ((false, ""), c)
  end.
End loops.

Variable subRules : gmap string (list Rule).

(** [Rule.Match] and [matchSubRules]. *)
Fixpoint Match (fuel : nat) (r : Rule) (c : ctx) : answer :=
  match fuel with
  | O => OutOfFuel
  | Datatypes.S fuel =>
    match r with
    | Logic _ adapter ruleType rules =>
      Logic_Match (Match fuel) (matchSubRules fuel) adapter ruleType rules c
    | _ => leaf_Match r c
    end
  end
with matchSubRules (fuel : nat) (name : string) (c : ctx) : answer :=
  match fuel with
  | O => OutOfFuel
  | Datatypes.S fuel => sub_loop (Match fuel) (matchSubRules fuel) (default [] (subRules !! name)) c
  end.

End matching.

Ltac unfold_leaf :=
  unfold Domain_Match, DomainSuffix_Match, DomainKeyword_Match, DomainRegex_Match,
    DomainWildcard_Match, GEOSITE_Match, IPCIDR_Match, IPSuffix_Match, Port_Match, DSCP_Match,
    InUser_Match, InName_Match, InType_Match, RematchName_Match, NetworkType_Match, Uid_Match,
    Match_Match, found_in in *.

(** ** Well-formed rules *)

Definition is_leaf (r : Rule) : bool := match r with Logic _ _ _ _ => false | _ => true end.

Definition leaf_ok (r : Rule) : Prop :=
  match r with
  | IPSuffix ipBytes bits _ _ _ _ => 0 ≤ bits ≤ 8 * len ipBytes
  | _ => True
  end.

(** NOT and SUB-RULE have one rule, and there is no SUB-RULE below a logic rule. *)
Inductive wf_rule : Rule → Prop :=
| wf_leaf r : is_leaf r = true → leaf_ok r → wf_rule r
| wf_logic payload adapter ruleType rules :
  (ruleType = RT.AND ∨ ruleType = RT.OR ∨
   (ruleType = RT.NOT ∨ ruleType = RT.SubRules) ∧ length rules = 1%nat) →
  (∀ r, r ∈ rules → wf_rule r) → (∀ r, r ∈ rules → RuleType_ r ≠ RT.SubRules) →
  wf_rule (Logic payload adapter ruleType rules).

(** ** Suffixes of addresses *)

Lemma idx_be n v i :
  (i < n)%nat → idx (be n v) (Z.of_nat n - Z.of_nat (S i)) = Ret ((v / 256 ^ Z.of_nat i) mod 256).
Proof.
  intros Hi. apply idx_Ret. split; [lia|].
  replace (Z.to_nat _) with (n - S i)%nat by lia. revert v i Hi.
  induction n as [|n IH]; intros v i Hi; [lia|]. cbn [be].
  destruct i as [|i].
  - rewrite Nat.sub_succ, Nat.sub_0_r, lookup_app_r by (rewrite length_be; lia).
    rewrite length_be, Nat.sub_diag. by rewrite Z.pow_0_r, Z.div_1_r.
  - rewrite lookup_app_l by (rewrite length_be; lia).
    replace (S n - S (S i))%nat with (n - S i)%nat by lia. rewrite IH by lia.
    rewrite Z.div_div by lia. f_equal. f_equal. f_equal.
    rewrite Nat2Z.inj_succ, Z.pow_succ_r by lia. lia.
Qed.

Lemma mod_split_eq a b m k :
  0 < m → 0 < k →
  a mod (m * k) = b mod (m * k) ↔ (a / m) mod k = (b / m) mod k ∧ a mod m = b mod m.
Proof.
  intros Hm Hk. rewrite !Z.rem_mul_r by lia.
  pose proof (Z.mod_pos_bound a m Hm). pose proof (Z.mod_pos_bound b m Hm). split; [|naive_solver lia].
  intros Heq. assert ((a / m) mod k = (b / m) mod k) as Hq by nia. split; [done|nia].
Qed.

Lemma suffix_bytes_spec n v1 v2 k :
  (k ≤ n)%nat →
  suffix_bytes (be n v1) (be n v2) k =
    Ret (bool_decide (v1 mod 256 ^ Z.of_nat k = v2 mod 256 ^ Z.of_nat k)).
Proof.
  induction k as [|k IH]; intros Hk; [by rewrite Z.pow_0_r, !Z.mod_1_r|]. cbn [suffix_bytes].
  rewrite !length_be, !idx_be by lia. cbn [mbind outcome_bind]. rewrite IH by lia.
  rewrite Nat2Z.inj_succ, Z.pow_succ_r, Z.mul_comm by lia.
  pose proof (mod_split_eq v1 v2 (256 ^ Z.of_nat k) 256 ltac:(lia) ltac:(lia)) as Hs.
  destruct (Z.eqb_spec ((v1 / 256 ^ Z.of_nat k) mod 256) ((v2 / 256 ^ Z.of_nat k) mod 256)) as [He|He];
    simpl; f_equal; [apply bool_decide_ext|symmetry; apply bool_decide_eq_false]; naive_solver.
Qed.

(** The bits that are left of a byte. *)
Lemma shifted_byte x b : 0 < b < 8 → u8 (Z.shiftl (x mod 256) (8 - b)) = 2 ^ (8 - b) * (x mod 2 ^ b).
Proof.
  intros Hb. rewrite Z.shiftl_mul_pow2 by lia. unfold wrapu.
  change 256 with (2 ^ 8).
  replace (2 ^ 8) with (2 ^ b * 2 ^ (8 - b)) by (rewrite <- Z.pow_add_r by lia; f_equal; lia).
  assert (0 < 2 ^ b ∧ 0 < 2 ^ (8 - b)) as [? ?] by (split; apply Z.pow_pos_nonneg; lia).
  rewrite Z.mul_mod_distr_r by lia.
  rewrite Z.mod_mod_divide by (exists (2 ^ (8 - b)); lia). lia.
Qed.

Lemma suffix_match_be n v1 v2 bits :
  0 ≤ bits ≤ 8 * Z.of_nat n →
  suffix_match (be n v1) (be n v2) bits = Ret (bool_decide (v1 mod 2 ^ bits = v2 mod 2 ^ bits)).
Proof.
  intros Hb. unfold suffix_match. rewrite !length_be, Nat.eqb_refl. cbn [negb].
  pose proof (Z.div_mod bits 8 ltac:(lia)) as Hd. pose proof (Z.mod_pos_bound bits 8 ltac:(lia)) as Hm.
  set (k := bits / 8) in *. set (b := bits mod 8) in *.
  rewrite suffix_bytes_spec by lia. rewrite Z2Nat.id by lia. cbn [mbind outcome_bind].
  assert (256 ^ k = 2 ^ (8 * k)) as H256 by (rewrite Z.pow_mul_r by lia; done).
  destruct (Z.eqb_spec b 0) as [Hb0|Hb0]; cbn [negb].
  - replace bits with (8 * k) by lia. rewrite <- H256. by case_bool_decide.
  - replace (Z.of_nat n - k - 1) with (Z.of_nat n - Z.of_nat (S (Z.to_nat k))) by lia.
    rewrite !idx_be by lia. cbn [mbind outcome_bind]. rewrite Z2Nat.id by lia.
    rewrite !shifted_byte by lia.
    replace bits with (8 * k + b) by lia. rewrite Z.pow_add_r, <- H256 by lia.
    assert (0 < 2 ^ b ∧ 0 < 2 ^ (8 - b)) as [? ?] by (split; apply Z.pow_pos_nonneg; lia).
    pose proof (mod_split_eq v1 v2 (256 ^ k) (2 ^ b) ltac:(lia) ltac:(lia)) as Hs.
    case_bool_decide as Hw; cbn [negb]; f_equal.
    + destruct (Z.eqb_spec (2 ^ (8 - b) * ((v1 / 256 ^ k) mod 2 ^ b)) (2 ^ (8 - b) * ((v2 / 256 ^ k) mod 2 ^ b)))
        as [He|He]; symmetry; [apply bool_decide_eq_true, Hs|apply bool_decide_eq_false; rewrite Hs];
        [split; [nia|done]|intros [? _]; nia].
    + symmetry. apply bool_decide_eq_false. naive_solver.
Qed.

(** An IP-SUFFIX rule accepts exactly the addresses of its family whose low [bits]
    bits are those of the rule's address. *)
Theorem rule_ip_suffix ip1 ip2 bits :
  IsValid ip1 = true → 0 ≤ bits ≤ BitLen ip1 →
  suffix_match (AsSlice ip1) (AsSlice ip2) bits =
    Ret (bool_decide (BitLen ip1 = BitLen ip2 ∧ aval ip1 mod 2 ^ bits = aval ip2 mod 2 ^ bits)).
Proof.
  intros Hv Hb. destruct ip1 as [|v1|v1 z1]; [done| |];
    destruct ip2 as [|v2|v2 z2]; simpl in Hb; cbn [AsSlice aval BitLen];
    try (unfold suffix_match; by rewrite !length_be);
    rewrite ?suffix_match_be by lia; try done; f_equal; apply bool_decide_ext; naive_solver.
Qed.

Lemma rule_ip_suffix_witness :
  suffix_match (AsSlice (Addr4 258)) (AsSlice (Addr4 770)) 9 = Ret true ∧
  suffix_match (AsSlice (Addr4 258)) (AsSlice (Addr4 770)) 10 = Ret false.
Proof.
  split.
  - rewrite (rule_ip_suffix (Addr4 258) (Addr4 770) 9); [reflexivity|reflexivity|simpl; lia].
  - rewrite (rule_ip_suffix (Addr4 258) (Addr4 770) 10); [reflexivity|reflexivity|simpl; lia].
Defined.

(** ** Evaluation is defined *)

Lemma suffix_bytes_total l1 l2 k :
  length l1 = length l2 → (k ≤ length l2)%nat → ∃ b, suffix_bytes l1 l2 k = Ret b.
Proof.
  intros Hl. induction k as [|k IH]; intros Hk; [by exists true|]. cbn [suffix_bytes].
  destruct (idx_total l1 (len l2 - Z.of_nat (S k))) as (x & -> & _); [lia|].
  destruct (idx_total l2 (len l2 - Z.of_nat (S k))) as (y & -> & _); [lia|].
  cbn [mbind outcome_bind]. destruct (x =? y); simpl; [apply IH; lia|by eexists].
Qed.

Lemma suffix_match_total l1 l2 bits :
  0 ≤ bits ≤ 8 * len l1 → ∃ b, suffix_match l1 l2 bits = Ret b.
Proof.
  intros Hb. unfold suffix_match. destruct (Nat.eqb_spec (length l1) (length l2)) as [Hl|]; simpl; [|by eexists].
  pose proof (Z.div_mod bits 8 ltac:(lia)). pose proof (Z.mod_pos_bound bits 8 ltac:(lia)).
  destruct (suffix_bytes_total l1 l2 (Z.to_nat (bits / 8))) as [[] ->]; [done|lia| |by eexists].
  cbn [mbind outcome_bind negb]. destruct (Z.eqb_spec (bits mod 8) 0); simpl; [by eexists|].
  destruct (idx_total l1 (len l2 - bits / 8 - 1)) as (x & -> & _); [lia|].
  destruct (idx_total l2 (len l2 - bits / 8 - 1)) as (y & -> & _); [lia|]. by eexists.
Qed.

(** The provider of a name, if there is one, answers every connection. *)
Definition provider_returns (w : World) (name : string) : Prop :=
  ∀ provider S h c, RuleProviders w name = Some provider → ∃ res, provider S h c = Ret res.

Definition providers_return (w : World) : Prop := ∀ name, provider_returns w name.

(** The providers that a rule names answer. *)
Definition names_return (w : World) (r : Rule) : Prop :=
  ∀ name, name ∈ ProviderNames r → provider_returns w name.

Lemma names_return_in w payload a rt rules r :
  names_return w (Logic payload a rt rules) → r ∈ rules → names_return w r.
Proof. intros Hn Hin name Hname. apply Hn. cbn [ProviderNames]. apply elem_flat_map. eauto. Qed.

Section total.
Context (w : World) {S : Type} (helper : RuleMatchHelper S).
Implicit Types c : (Metadata * S).

Lemma RuleSet_Match_total name a isSrc noResolveIP c :
  provider_returns w name → ∃ res, RuleSet_Match w helper name a isSrc noResolveIP c = Ret res.
Proof.
  intros Hp. unfold RuleSet_Match. destruct (RuleProviders w name) as [prov|] eqn:He; [|by eexists].
  destruct isSrc.
  - destruct (Hp prov _ (mkHelper None (FindProcess helper) (CheckPassRule helper))
      (SwapSrcDst c.1, c.2) He) as [[b [m s]] ->]. by eexists.
  - destruct (Hp prov _ (if noResolveIP then mkHelper None (FindProcess helper) (CheckPassRule helper)
      else helper) c He) as [[b c'] ->]. by eexists.
Qed.

Lemma leaf_Match_total r c :
  leaf_ok r → names_return w r → ∃ res, leaf_Match w helper r c = Ret res.
Proof.
  destruct r; cbn [leaf_Match leaf_ok]; unfold_leaf; intros Hok Hn; try by eexists.
  - destruct (Wildcard.Match_spec pattern (RuleHost c.1)) as (b & -> & _). by eexists.
  - destruct (target_ip helper noResolveIP isSourceIP c) as [ip c']. destruct (suffix_match_total ipBytes (AsSlice ip) bits Hok)
      as [b ->]. by eexists.
  - unfold Process_Match.
    destruct (Wildcard.Match_spec (ToLower pattern) (ToLower (Process (call_FindProcess helper c).1)))
      as (b1 & Hb1 & _).
    destruct (Wildcard.Match_spec (ToLower pattern) (ToLower (ProcessPath (call_FindProcess helper c).1)))
      as (b2 & Hb2 & _).
    destruct ruleType; rewrite ?Hb1, ?Hb2; by eexists.
  - apply RuleSet_Match_total, Hn. by apply list_elem_of_singleton.
Qed.

(** The loops return when the rules do. *)
Section loops_total.
Variable match_ : Rule → (Metadata * S) → outcome ((bool * string) * (Metadata * S)).
Variable P : Rule → Prop.
Hypothesis match_total : ∀ r c, P r → ∃ res, match_ r c = Ret res.

Lemma or_loop_total a rules c : Forall P rules → ∃ res, or_loop match_ a rules c = Ret res.
Proof.
  intros Hr. revert c. induction Hr as [|r rules Hr Hrs IH]; intros c; simpl; [by eexists|].
  destruct (match_total r c Hr) as [[[[] a'] c'] ->]; simpl; [by eexists|apply IH].
Qed.

Lemma and_loop_total a rules c : Forall P rules → ∃ res, and_loop match_ a rules c = Ret res.
Proof.
  intros Hr. revert c. induction Hr as [|r rules Hr Hrs IH]; intros c; simpl; [by eexists|].
  destruct (match_total r c Hr) as [[[[] a'] c'] ->]; simpl; [apply IH|by eexists].
Qed.

Lemma sub_loop_total sub rules c :
  Forall P rules →
  (∀ r c, r ∈ rules → RuleType_ r = RT.SubRules → ∃ res, sub (Adapter r) c = Ret res) →
  ∃ res, sub_loop helper match_ sub rules c = Ret res.
Proof.
  intros Hr. revert c. induction Hr as [|r rules Hr Hrs IH]; intros c Hsub; simpl; [by eexists|].
  assert (∀ c, ∃ res, sub_loop helper match_ sub rules c = Ret res) as Hgo.
  { intros c'. apply IH. intros r' c'' Hin. apply Hsub. set_solver. }
  destruct (match_total r c Hr) as [[[[] a'] c'] ->]; simpl; [|apply Hgo].
  case_bool_decide as Ht.
  - destruct (Hsub r c') as [[[m a''] c''] ->]; [set_solver|done|]. cbn [mbind outcome_bind].
    destruct (m && _); [apply Hgo|by eexists].
  - cbn [mbind outcome_bind]. destruct (_ || _); simpl; [apply Hgo|by eexists].
Qed.
End loops_total.
End total.

(** ** What evaluation does to the state of the helper *)

(** The functions of a helper keep [I]. *)
Definition helper_keeps {S} (I : S → Prop) (h : RuleMatchHelper S) : Prop :=
  (∀ f c, ResolveIP h = Some f → I c.2 → I (f c).2) ∧
  (∀ f c, FindProcess h = Some f → I c.2 → I (f c).2).

(** A rule provider touches the state of the helper only by calling the helper. *)
Definition providers_keep (w : World) : Prop :=
  ∀ name provider S (I : S → Prop) h c b c',
    RuleProviders w name = Some provider → helper_keeps I h → I c.2 →
    provider S h c = Ret (b, c') → I c'.2.

Section keep.
Context (w : World) {S : Type} (helper : RuleMatchHelper S) (I : S → Prop).
Hypothesis helper_ok : helper_keeps I helper.
Hypothesis providers_ok : providers_keep w.
Implicit Types c : (Metadata * S).

Lemma call_ResolveIP_keeps c : I c.2 → I (call_ResolveIP helper c).2.
Proof.
  unfold call_ResolveIP. destruct (ResolveIP helper) eqn:He; [|done].
  by apply (proj1 helper_ok).
Qed.

Lemma call_FindProcess_keeps c : I c.2 → I (call_FindProcess helper c).2.
Proof.
  unfold call_FindProcess. destruct (FindProcess helper) eqn:He; [|done].
  by apply (proj2 helper_ok).
Qed.

Lemma target_ip_keeps n s c : I c.2 → I (target_ip helper n s c).2.2.
Proof. unfold target_ip. destruct (negb n && negb s); [apply call_ResolveIP_keeps|done]. Qed.

Lemma GEOIP_keeps country a n s c : I c.2 → I (GEOIP_Match w helper country a n s c).2.2.
Proof.
  intros Hi%(target_ip_keeps n s). unfold GEOIP_Match.
  destruct (target_ip helper n s c) as [ip [m st]]. simpl in Hi.
  by repeat case_match.
Qed.

Lemma ASN_keeps asn a n s c : I c.2 → I (ASN_Match w helper asn a n s c).2.2.
Proof.
  intros Hi%(target_ip_keeps n s). unfold ASN_Match.
  destruct (target_ip helper n s c) as [ip [m st]]. simpl in Hi.
  by repeat case_match.
Qed.

Lemma RuleSet_keeps name ad isSrc n c a c' :
  RuleSet_Match w helper name ad isSrc n c = Ret (a, c') → I c.2 → I c'.2.
Proof.
  intros Hm Hi. unfold RuleSet_Match in Hm.
  destruct (RuleProviders w name) as [prov|] eqn:Hp; [|by simplify_eq].
  assert (helper_keeps I (mkHelper None (FindProcess helper) (CheckPassRule helper))) as Hs.
  { split; [done|]. exact (proj2 helper_ok). }
  destruct isSrc; [|destruct n];
    (destruct (prov _ _ _) as [[b [m s]]| |] eqn:Hr; simpl in Hm; simplify_eq;
     by apply (providers_ok _ _ _ I _ _ _ _ Hp) in Hr).
Qed.

Lemma leaf_Match_keeps r c a c' : leaf_Match w helper r c = Ret (a, c') → I c.2 → I c'.2.
Proof.
  intros Hm Hi. destruct r; cbn [leaf_Match] in Hm; unfold_leaf; try (injection Hm as <- <-; exact Hi).
  - destruct (Wildcard.Match _ _); by simplify_eq.
  - injection Hm as Hm. pose proof (GEOIP_keeps country adapter noResolveIP isSourceIP c Hi) as H.
    by rewrite Hm in H.
  - injection Hm as Hm. pose proof (ASN_keeps asn adapter noResolveIP isSourceIP c Hi) as H.
    by rewrite Hm in H.
  - pose proof (target_ip_keeps noResolveIP isSourceIP c Hi) as H.
    destruct (target_ip _ _ _ _). by simplify_eq.
  - pose proof (target_ip_keeps noResolveIP isSourceIP c Hi) as H.
    destruct (target_ip _ _ _ _). destruct (suffix_match _ _ _); by simplify_eq/=.
  - unfold Process_Match in Hm. pose proof (call_FindProcess_keeps c Hi) as H.
    by repeat case_match; simplify_eq.
  - by eapply RuleSet_keeps.
  - injection Hm as _ <-. by apply call_FindProcess_keeps.
Qed.

Section loops_keep.
Variable match_ : Rule → (Metadata * S) → outcome ((bool * string) * (Metadata * S)).
Variable sub : string → (Metadata * S) → outcome ((bool * string) * (Metadata * S)).
Hypothesis match_keeps : ∀ r c a c', match_ r c = Ret (a, c') → I c.2 → I c'.2.
Hypothesis sub_keeps : ∀ n c a c', sub n c = Ret (a, c') → I c.2 → I c'.2.

Lemma or_loop_keeps ad rules c a c' : or_loop match_ ad rules c = Ret (a, c') → I c.2 → I c'.2.
Proof.
  revert c. induction rules as [|r rules IH]; intros c; simpl; [by intros [= <- <-]|].
  destruct (match_ r c) as [[[m a1] c1]| |] eqn:Hm; simpl; try done. intros H Hi.
  specialize (match_keeps _ _ _ _ Hm Hi). destruct m; [by simplify_eq|by apply (IH c1)].
Qed.

Lemma and_loop_keeps ad rules c a c' : and_loop match_ ad rules c = Ret (a, c') → I c.2 → I c'.2.
Proof.
  revert c. induction rules as [|r rules IH]; intros c; simpl; [by intros [= <- <-]|].
  destruct (match_ r c) as [[[m a1] c1]| |] eqn:Hm; simpl; try done. intros H Hi.
  specialize (match_keeps _ _ _ _ Hm Hi). destruct m; simpl in H; [by apply (IH c1)|by simplify_eq].
Qed.

Lemma sub_loop_keeps rules c a c' : sub_loop helper match_ sub rules c = Ret (a, c') → I c.2 → I c'.2.
Proof.
  revert c. induction rules as [|r rules IH]; intros c; cbn [sub_loop]; [by intros [= <- <-]|].
  destruct (match_ r c) as [[[m a1] c1]| |] eqn:Hm; cbn [mbind outcome_bind]; try done. intros H Hi.
  specialize (match_keeps _ _ _ _ Hm Hi). destruct m; cbn [negb] in H; [|by apply (IH c1)].
  destruct (if bool_decide _ then _ else _) as [[[m2 a2] c2]| |] eqn:H2; cbn [mbind outcome_bind] in H; try done.
  assert (I c2.2) as Hi2.
  { destruct (bool_decide (RuleType_ r = _)); [by eapply sub_keeps|by simplify_eq]. }
  destruct (m2 && _); [by apply (IH c2)|by simplify_eq].
Qed.

Lemma Logic_Match_keeps ad rt rules c a c' :
  Logic_Match match_ sub ad rt rules c = Ret (a, c') → I c.2 → I c'.2.
Proof.
  destruct rt; cbn [Logic_Match]; try (by intros [= <- <-]);
    try apply or_loop_keeps; try apply and_loop_keeps;
    (destruct (idx rules 0) as [r| |]; cbn [mbind outcome_bind]; try done;
     destruct (match_ r c) as [[[m a1] c1]| |] eqn:Hm; cbn [mbind outcome_bind]; try done;
     intros H Hi; specialize (match_keeps _ _ _ _ Hm Hi); destruct m; simpl in H;
     first [by simplify_eq|by eapply sub_keeps]).
Qed.
End loops_keep.

Lemma Match_keeps subRules fuel :
  (∀ r c a c', Match w helper subRules fuel r c = Ret (a, c') → I c.2 → I c'.2) ∧
  (∀ n c a c', matchSubRules w helper subRules fuel n c = Ret (a, c') → I c.2 → I c'.2).
Proof.
  induction fuel as [|fuel [IH1 IH2]]; [done|]. split.
  - intros r c a c'. destruct r; try apply leaf_Match_keeps. by apply Logic_Match_keeps.
  - intros n c a c'. by apply sub_loop_keeps.
Qed.
End keep.

(** ** An instance of what is outside *)

Module Examples.

(** Only IPv4 hosts are parsed as prefixes, there is no geo data and no provider, and
    a regular expression is a literal. *)
Definition small_world : World := {|
  regex_Compile := λ _, true;
  regex_MatchString := λ re s, GoStrings.Contains s re;
  GeodataMode := false;
  InitGeo := true;
  LoadGeoIPMatcher := λ _, None;
  LoadGeoSiteMatcher := λ _, None;
  LookupCode := λ _, None;
  LookupASN := λ _, ("", "");
  RuleProviders := λ _, None;
  ParsePrefix := λ s,
    if bool_decide (s = "10.0.0.0/8") then Some (mkPrefix (Addr4 (10 * 2 ^ 24)) 8) else None;
  Prefix_String := λ _, "10.0.0.0/8";
  isLinux := true;
|}.

Definition no_helper : RuleMatchHelper unit := mkHelper None None None.

Lemma small_world_returns : providers_return small_world.
Proof. by intros name provider S h c. Qed.

End Examples.
