(* ===== verification/RuleParser.v ===== *)
(** * Parsing rules ([rules/parser.go], [rules/common], [rules/logic])

    A rule is a text "TYPE,payload,target,params"; a logic rule has rules in
    parentheses in its payload, which are parsed in turn.  [ParseRule] recurses on
    these texts with fuel; it is total ([rule_parse_total]) and gives well-formed
    rules only ([rule_parse_wf]). *)

From Stdlib Require Import Ascii.
From S2P Require Import Prelude Wire GoStrings NetIP Metadata Ranges Rules.

(** ** Parsing *)

Definition NoResolve : string := "no-resolve".
Definition Src : string := "src".

(** [ParseParams]: [isSrc] and [noResolve]. *)
Definition ParseParams (params : list string) : bool * bool :=
  let isSrc := slices_Contains params Src in
  (isSrc, if isSrc then true else slices_Contains params NoResolve).

Definition trimArr (arr : list string) : list string := (λ e, Trim e " ") <$> arr.

(** The rule types whose payload may have commas. *)
Definition comma_types : list string :=
  ["NOT"; "OR"; "AND"; "SUB-RULE"; "DOMAIN-REGEX"; "PROCESS-NAME-REGEX"; "PROCESS-PATH-REGEX"].

Record rulePayload := mkPayload { tp : string; payload : string; target : string; params : list string }.

Definition ParseRulePayload (ruleRaw : string) (needTarget : bool) : rulePayload :=
  let item := trimArr (Split "," ruleRaw) in
  let tp := ToUpper (hd "" item) in
  match item with
  | [] | [_] => mkPayload tp "" "" []
  | _ :: rest =>
    if bool_decide (tp = "MATCH") then mkPayload tp "" (hd "" rest) []
    else if slices_Contains comma_types tp then
      if needTarget then
        mkPayload tp (Join "," (removelast rest)) (List.last rest "") []
      else mkPayload tp (Join "," rest) "" []
    else
      let payload := hd "" rest in
      match tail rest with
      | [] => mkPayload tp payload "" []
      | third :: more =>
        if needTarget then mkPayload tp payload third more
        else mkPayload tp payload "" (third :: more)
      end
  end.

Definition errPayload : goerr := ErrMsg "payloadRule error".

(** The constructors; [option_result] turns a missing value into an error. *)
Definition option_result {A} (e : goerr) (o : option A) : result A :=
  match o with Some a => Ok a | None => Err e end.

(** The elements of a list "a/b/c", none of them empty after trimming. *)
Fixpoint trimmed (e : goerr) (l : list string) : result (list string) :=
  match l with
  | [] => Ok []
  | s :: l =>
    let s := TrimSpace s in
    if (String.length s =? 0)%nat then Err e
    else l ← trimmed e l; Ok (s :: l)
  end.

Fixpoint parseInTypes (tps : list string) : result (list CType) :=
  match tps with
  | [] => Ok []
  | tp :: tps =>
    let utp := ToUpper tp in
    if bool_decide (utp = "SOCKS") then
      res ← parseInTypes tps; Ok (SOCKS4 :: SOCKS5 :: res)
    else
      r ← ParseType utp; res ← parseInTypes tps; Ok (r :: res)
  end.

Definition NewDomain (domain adapter : string) : Rule := Domain (ToLower domain) adapter.

Definition NewDomainSuffix (suffix adapter : string) : Rule := DomainSuffix (ToLower suffix) adapter.

Definition NewDomainKeyword (keyword adapter : string) : Rule := DomainKeyword (ToLower keyword) adapter.

Definition NewDomainWildcard (pattern adapter : string) : result Rule :=
  Ok (DomainWildcard (ToLower pattern) adapter).

Definition NewMatch (adapter : string) : Rule := MatchRule adapter.

Definition NewRuleSet (ruleProviderName adapter : string) (isSrc noResolveIP : bool) : result Rule :=
  Ok (RuleSet ruleProviderName adapter isSrc noResolveIP).

Definition NewInType (iTypes adapter : string) : result Rule :=
  types ← trimmed (ErrMsg "in type couldn't be empty") (Split "/" iTypes);
  tps ← parseInTypes types;
  Ok (InTypeRule tps adapter (ToUpper iTypes)).

Definition NewInUser (iUsers adapter : string) : result Rule :=
  users ← trimmed (ErrMsg "in user couldn't be empty") (Split "/" iUsers);
  Ok (InUserRule users adapter iUsers).

Definition NewInName (iNames adapter : string) : result Rule :=
  names ← trimmed (ErrMsg "in name couldn't be empty") (Split "/" iNames);
  Ok (InNameRule names adapter iNames).

Definition NewRematchName (iNames adapter : string) : result Rule :=
  names ← trimmed (ErrMsg "rematch name couldn't be empty") (Split "/" iNames);
  Ok (RematchNameRule names adapter iNames).

Definition NewPort (port adapter : string) (ruleType : RT.RuleType) : result Rule :=
  portRanges ← option_result errPayload (newIntRanges (Unsigned 16) port);
  match portRanges with
  | [] => Err errPayload
  | _ => Ok (Port adapter port ruleType portRanges)
  end.

Definition NewDSCP (dscp adapter : string) : result Rule :=
  ranges ← option_result (ErrMsg "parse DSCP rule fail") (newIntRanges (Unsigned 8) dscp);
  if existsb (λ r, 63 <? end_ r) ranges then Err (ErrMsg "DSCP couldn't be negative or exceed 63")
  else Ok (DSCPRule ranges dscp adapter).

Definition NewNetworkType (network adapter : string) : result Rule :=
  if bool_decide (ToUpper network = "TCP") then Ok (NetworkType TCP adapter)
  else if bool_decide (ToUpper network = "UDP") then Ok (NetworkType UDP adapter)
  else Err (ErrMsg "unsupported network type, only TCP/UDP").

Section parsing.
Variable w : World.

Definition NewUid (oUid adapter : string) : result Rule :=
  if negb (isLinux w) then Err (ErrMsg "uid rule not support this platform")
  else
    uidRange ← option_result errPayload (newIntRanges (Unsigned 32) oUid);
    match uidRange with
    | [] => Err errPayload
    | _ => Ok (UidRule uidRange oUid adapter)
    end.

Definition NewIPCIDR (s adapter : string) (isSourceIP noResolve : bool) : result Rule :=
  ipnet ← option_result errPayload (ParsePrefix w s);
  Ok (IPCIDR ipnet adapter isSourceIP noResolve).

Definition NewIPSuffix (payload adapter : string) (isSrc noResolveIP : bool) : result Rule :=
  ipnet ← option_result errPayload (ParsePrefix w payload);
  Ok (IPSuffix (AsSlice (pip ipnet)) (pbits ipnet) payload adapter isSrc noResolveIP).

Definition NewDomainRegex (regex adapter : string) : result Rule :=
  if regex_Compile w regex then Ok (DomainRegex regex adapter) else Err errPayload.

Definition NewProcess (pattern adapter : string) (ruleType : RT.RuleType) : result Rule :=
  match ruleType with
  | RT.ProcessNameRegex | RT.ProcessPathRegex =>
    if regex_Compile w pattern then Ok (ProcessRule pattern adapter ruleType) else Err errPayload
  | _ => Ok (ProcessRule pattern adapter ruleType)
  end.

Definition NewGEOSITE (country adapter : string) : result Rule :=
  if negb (InitGeo w) then Err errPayload
  else match LoadGeoSiteMatcher w country with
       | Some _ => Ok (GEOSITE country adapter)
       | None => Err errPayload
       end.

Definition NewGEOIP (country adapter : string) (isSrc noResolveIP : bool) : result Rule :=
  let country := ToLower country in
  let geoip := GEOIP country adapter noResolveIP isSrc in
  if bool_decide (country = "lan") then Ok geoip
  else if negb (InitGeo w) then Err errPayload
  else if GeodataMode w then
    match LoadGeoIPMatcher w country with Some _ => Ok geoip | None => Err errPayload end
  else Ok geoip.

Definition NewIPASN (asn adapter : string) (isSrc noResolveIP : bool) : result Rule :=
  if negb (InitGeo w) then Err errPayload else Ok (ASN asn adapter noResolveIP isSrc).

(** *** Logic rules *)

(** [logic.Range]: the positions of a pair of parentheses. *)
Record parens := mkParens { p_start : nat; p_end : nat }.

Definition containRange (r : parens) (preStart preEnd : nat) : bool :=
  (preStart <? p_start r)%nat && (p_end r <? preEnd)%nat.

(** The loop of [format] from position [i], with the stack and the ranges so far. *)
Fixpoint format_loop (i : nat) (s : string) (stack : list nat) (subRanges : list parens) :
    result (list nat * list parens) :=
  match s with
  | EmptyString => Ok (stack, subRanges)
  | String c s =>
    if Ascii.eqb c "(" then format_loop (S i) s (i :: stack) subRanges
    else if Ascii.eqb c ")" then
      match stack with
      | [] => Err (ErrMsg "missing '('")
      | start :: stack => format_loop (S i) s stack (subRanges ++ [mkParens start i])
      end
    else format_loop (S i) s stack subRanges
  end.

(** [sort.Slice] by start; the starts are distinct. *)
Fixpoint insert_range (r : parens) (l : list parens) : list parens :=
  match l with
  | [] => [r]
  | x :: l => if (p_start r <? p_start x)%nat then r :: x :: l else x :: insert_range r l
  end.

Definition sort_ranges (l : list parens) : list parens := fold_right insert_range [] l.

Definition format (payload : string) : result (list parens) :=
  res ← format_loop 0 payload [] [];
  let '(stack, subRanges) := (res : list nat * list parens) in
  match stack with
  | [] => Ok (sort_ranges subRanges)
  | _ => Err (ErrMsg "format error is missing )")
  end.

Fixpoint findSubRuleRange (payloadLen : nat) (ruleRanges subRuleRange : list parens) : list parens :=
  match ruleRanges with
  | [] => subRuleRange
  | rr :: ruleRanges =>
    if (p_start rr =? 0)%nat && (p_end rr =? payloadLen - 1)%nat then
      findSubRuleRange payloadLen ruleRanges subRuleRange
    else if existsb (λ r, containRange rr (p_start r) (p_end r)) subRuleRange then
      findSubRuleRange payloadLen ruleRanges subRuleRange
    else findSubRuleRange payloadLen ruleRanges (subRuleRange ++ [rr])
  end.

(** The texts of the sub-rules of a payload. *)
Definition subPayloads (payload : string) : result (list string) :=
  if negb (HasPrefix payload "(") || negb (HasSuffix payload ")") then
    Err (ErrMsg "payload format error")
  else
    subAllRanges ← format payload;
    Ok ((λ r, String.substring (S (p_start r)) (p_end r - S (p_start r)) payload) <$>
        findSubRuleRange (String.length payload) subAllRanges []).

Section logic.
Variable parseRule : rulePayload → outcome (result Rule).

Definition payloadToRule (subPayload : string) : outcome (result Rule) :=
  let p := ParseRulePayload subPayload false in
  if bool_decide (tp p = "MATCH") || bool_decide (tp p = "SUB-RULE") then
    Ret (Err (ErrMsg ("unsupported rule type [" +:+ tp p +:+ "] on logic rule")))
  else if bool_decide (tp p = "") then Ret (Err (ErrMsg ("[" +:+ subPayload +:+ "] format is error")))
  else parseRule p.

Fixpoint payloadsToRules (l : list string) : outcome (result (list Rule)) :=
  match l with
  | [] => Ret (Ok [])
  | s :: l =>
    res ← payloadToRule s;
    match res with
    | Err e => Ret (Err e)
    | Ok rule =>
      rest ← payloadsToRules l;
      Ret (rules ← rest; Ok (rule :: rules))
    end
  end.

Definition parsePayload (payload : string) : outcome (result (list Rule)) :=
  match subPayloads payload with
  | Err e => Ret (Err e)
  | Ok l => payloadsToRules l
  end.

(** What the rules of a payload become. *)
Definition with_rules (text : string) (f : list Rule → result Rule) : outcome (result Rule) :=
  res ← parsePayload text;
  Ret (rules ← res; f rules).

Definition NewSubRule (payload subName : string) : outcome (result Rule) :=
  with_rules ("(" +:+ payload +:+ ")") (λ rules,
    if negb (length rules =? 1)%nat then Err (ErrMsg "Sub-Rule rule must contain one rule")
    else Ok (Logic payload subName RT.SubRules rules)).

Definition NewNOT (payload adapter : string) : outcome (result Rule) :=
  with_rules payload (λ rules,
    if negb (length rules =? 1)%nat then Err (ErrMsg "not rule must contain one rule")
    else Ok (Logic payload adapter RT.NOT rules)).

Definition NewOR (payload adapter : string) : outcome (result Rule) :=
  with_rules payload (λ rules, Ok (Logic payload adapter RT.OR rules)).

Definition NewAND (payload adapter : string) : outcome (result Rule) :=
  with_rules payload (λ rules, Ok (Logic payload adapter RT.AND rules)).
End logic.

(** [ParseRule]. *)
Fixpoint ParseRule (fuel : nat) (p : rulePayload) : outcome (result Rule) :=
  match fuel with
  | O => OutOfFuel
  | S fuel =>
    let '(mkPayload tp payload target params) := p in
    let '(isSrc, noResolve) := ParseParams params in
    let tpIs (s : string) := bool_decide (tp = s) in
    if negb (tpIs "MATCH") && bool_decide (payload = "") then
      Ret (Err (ErrMsg ("missing subsequent parameters: " +:+ tp)))
    else if tpIs "DOMAIN" then Ret (Ok (NewDomain payload target))
    else if tpIs "DOMAIN-SUFFIX" then Ret (Ok (NewDomainSuffix payload target))
    else if tpIs "DOMAIN-KEYWORD" then Ret (Ok (NewDomainKeyword payload target))
    else if tpIs "DOMAIN-REGEX" then Ret (NewDomainRegex payload target)
    else if tpIs "DOMAIN-WILDCARD" then Ret (NewDomainWildcard payload target)
    else if tpIs "GEOSITE" then Ret (NewGEOSITE payload target)
    else if tpIs "GEOIP" then Ret (NewGEOIP payload target isSrc noResolve)
    else if tpIs "SRC-GEOIP" then Ret (NewGEOIP payload target true true)
    else if tpIs "IP-ASN" then Ret (NewIPASN payload target isSrc noResolve)
    else if tpIs "SRC-IP-ASN" then Ret (NewIPASN payload target true true)
    else if tpIs "IP-CIDR" || tpIs "IP-CIDR6" then Ret (NewIPCIDR payload target isSrc noResolve)
    else if tpIs "SRC-IP-CIDR" then Ret (NewIPCIDR payload target true true)
    else if tpIs "IP-SUFFIX" then Ret (NewIPSuffix payload target isSrc noResolve)
    else if tpIs "SRC-IP-SUFFIX" then Ret (NewIPSuffix payload target true true)
    else if tpIs "SRC-PORT" then Ret (NewPort payload target RT.SrcPort)
    else if tpIs "DST-PORT" then Ret (NewPort payload target RT.DstPort)
    else if tpIs "IN-PORT" then Ret (NewPort payload target RT.InPort)
    else if tpIs "DSCP" then Ret (NewDSCP payload target)
    else if tpIs "PROCESS-NAME" then Ret (NewProcess payload target RT.ProcessName)
    else if tpIs "PROCESS-PATH" then Ret (NewProcess payload target RT.ProcessPath)
    else if tpIs "PROCESS-NAME-REGEX" then Ret (NewProcess payload target RT.ProcessNameRegex)
    else if tpIs "PROCESS-PATH-REGEX" then Ret (NewProcess payload target RT.ProcessPathRegex)
    else if tpIs "PROCESS-NAME-WILDCARD" then Ret (NewProcess payload target RT.ProcessNameWildcard)
    else if tpIs "PROCESS-PATH-WILDCARD" then Ret (NewProcess payload target RT.ProcessPathWildcard)
    else if tpIs "NETWORK" then Ret (NewNetworkType payload target)
    else if tpIs "UID" then Ret (NewUid payload target)
    else if tpIs "IN-TYPE" then Ret (NewInType payload target)
    else if tpIs "IN-USER" then Ret (NewInUser payload target)
    else if tpIs "IN-NAME" then Ret (NewInName payload target)
    else if tpIs "REMATCH-NAME" then Ret (NewRematchName payload target)
    else if tpIs "SUB-RULE" then NewSubRule (ParseRule fuel) payload target
    else if tpIs "AND" then NewAND (ParseRule fuel) payload target
    else if tpIs "OR" then NewOR (ParseRule fuel) payload target
    else if tpIs "NOT" then NewNOT (ParseRule fuel) payload target
    else if tpIs "RULE-SET" then Ret (NewRuleSet payload target isSrc noResolve)
    else if tpIs "MATCH" then Ret (Ok (NewMatch target))
    else Ret (Err (ErrMsg ("unsupported rule type: " +:+ tp)))
  end.

(** [ParseRule] on a text; its length is enough fuel (see [rule_parse_total]). *)
Definition ParseRule_ (p : rulePayload) : outcome (result Rule) :=
  ParseRule (S (String.length (payload p))) p.

End parsing.

(** ** The texts of sub-rules are shorter *)

Lemma format_loop_ranges i s stack acc stack' acc' :
  format_loop i s stack acc = Ok (stack', acc') →
  (∀ x, x ∈ stack → (x < i)%nat) → (∀ r, r ∈ acc → (p_start r < p_end r < i)%nat) →
  ∀ r, r ∈ acc' → (p_start r < p_end r < i + String.length s)%nat.
Proof.
  revert i stack acc. induction s as [|c s IH]; intros i stack acc; simpl.
  { intros [= <- <-] _ Hacc r Hr. specialize (Hacc r Hr). lia. }
  intros Hf Hst Hacc r Hr.
  assert (∀ r, r ∈ acc → (p_start r < p_end r < S i)%nat) as Hacc'.
  { intros r' Hr'. specialize (Hacc r' Hr'). lia. }
  assert (∀ stack, format_loop (S i) s stack acc = Ok (stack', acc') →
    (∀ x, x ∈ stack → (x < S i)%nat) → (p_start r < p_end r < i + S (String.length s))%nat) as Hgo.
  { intros st Hst' Hlt. specialize (IH (S i) st acc Hst' Hlt Hacc' r Hr). lia. }
  destruct (Ascii.eqb c "("); [|destruct (Ascii.eqb c ")")].
  - apply (Hgo _ Hf). intros x [->|Hx]%elem_of_cons; [lia|]. specialize (Hst x Hx). lia.
  - destruct stack as [|x stack]; [done|]. apply IH with (r := r) in Hf; [lia| | |done].
    + intros y Hy. specialize (Hst y). set_solver by lia.
    + intros r' [Hr'| ->%list_elem_of_singleton]%elem_of_app; [by apply Hacc'|]. simpl.
      specialize (Hst x). set_solver by lia.
  - apply (Hgo _ Hf). intros x Hx. specialize (Hst x Hx). lia.
Qed.

Lemma elem_insert_range r x l : x ∈ insert_range r l ↔ x = r ∨ x ∈ l.
Proof.
  induction l as [|y l IH]; simpl; [set_solver|]. destruct (_ <? _)%nat; set_solver.
Qed.

Lemma elem_sort_ranges x l : x ∈ sort_ranges l ↔ x ∈ l.
Proof.
  induction l as [|y l IH]; [done|]. unfold sort_ranges in *. cbn [fold_right].
  rewrite elem_insert_range. set_solver.
Qed.

Lemma elem_findSubRuleRange n x l acc :
  x ∈ findSubRuleRange n l acc → x ∈ acc ∨ x ∈ l ∧ ¬ (p_start x = 0 ∧ p_end x = n - 1)%nat.
Proof.
  revert acc. induction l as [|r l IH]; intros acc; simpl; [by left|].
  destruct (Nat.eqb_spec (p_start r) 0), (Nat.eqb_spec (p_end r) (n - 1)); simpl;
    [intros []%IH; set_solver| | |];
    (destruct (existsb _ acc); intros [Hx|Hx]%IH; [by left|set_solver| |set_solver];
     apply elem_of_app in Hx as [?| ->%list_elem_of_singleton]; [by left|];
     right; split; [set_solver|lia]).
Qed.

Lemma subPayloads_shorter payload l x :
  subPayloads payload = Ok l → x ∈ l → (String.length x + 3 ≤ String.length payload)%nat.
Proof.
  unfold subPayloads. destruct (_ || _); [done|]. unfold format.
  destruct (format_loop 0 payload [] []) as [[stack ranges]|] eqn:Hf; cbn [mbind result_bind]; [|done].
  destruct stack; [|done]. intros [= <-] (r & -> & Hr)%list_elem_of_fmap.
  pose proof (format_loop_ranges _ _ _ _ _ _ Hf ltac:(set_solver) ltac:(set_solver) r) as Hb.
  apply elem_findSubRuleRange in Hr as [?|[Hr Hnot]]; [set_solver|].
  rewrite elem_sort_ranges in Hr. specialize (Hb Hr).
  pose proof (substring_length (S (p_start r)) (p_end r - S (p_start r)) payload). lia.
Qed.

Lemma ParseRulePayload_length s :
  (String.length (payload (ParseRulePayload s false)) ≤ String.length s)%nat.
Proof.
  pose proof (Join_length_le (λ e, Trim e " ") "," (Split "," s) (λ e, Trim_length e " ")) as Hj.
  rewrite Join_Split in Hj. unfold ParseRulePayload, trimArr. cbv zeta.
  destruct ((λ e, Trim e " ") <$> Split "," s) as [|a [|b rest]];
    [simpl; lia..|].
  pose proof (Join_tail_length "," a (b :: rest)). pose proof (Join_hd_length "," (b :: rest)).
  repeat case_match; cbn [payload] in *; simpl hd in *; try lia; simpl; lia.
Qed.

(** ** The parser returns *)

Section total.
Variable w : World.

Lemma payloadsToRules_total parseRule l :
  (∀ s, s ∈ l → ∃ res, parseRule (ParseRulePayload s false) = Ret res) →
  ∃ res, payloadsToRules parseRule l = Ret res.
Proof.
  induction l as [|s l IH]; intros Hp; cbn [payloadsToRules]; [by eexists|].
  destruct IH as [rest Hrest]; [set_solver|].
  destruct (Hp s) as [res Hres]; [set_solver|]. unfold payloadToRule.
  destruct (_ || _); [by eexists|]. destruct (bool_decide _); [by eexists|].
  rewrite Hres. cbn [mbind outcome_bind]. destruct res; [|by eexists].
  rewrite Hrest. by eexists.
Qed.

Lemma with_rules_total parseRule text n f :
  (∀ p, (String.length (payload p) < n)%nat → ∃ res, parseRule p = Ret res) →
  (String.length text ≤ n + 2)%nat → ∃ res, with_rules parseRule text f = Ret res.
Proof.
  intros Hp Ht. unfold with_rules, parsePayload.
  destruct (subPayloads text) as [l|e] eqn:Hl; [|by eexists].
  destruct (payloadsToRules_total parseRule l) as [res ->]; [|by eexists].
  intros s Hs. apply Hp. pose proof (subPayloads_shorter _ _ _ Hl Hs).
  pose proof (ParseRulePayload_length s). lia.
Qed.

Lemma ParseRule_total fuel p :
  (String.length (payload p) < fuel)%nat → ∃ res, ParseRule w fuel p = Ret res.
Proof.
  revert p. induction fuel as [|fuel IH]; intros p Hf; [lia|]. destruct p as [tp pl target params].
  cbn [payload] in Hf.
  assert (∀ text f, (String.length text ≤ String.length pl + 2)%nat →
    ∃ res, with_rules (ParseRule w fuel) text f = Ret res) as Hl.
  { intros text f. apply with_rules_total. intros p Hp. apply IH. lia. }
  cbn [ParseRule]. destruct (ParseParams params) as [isSrc noResolve].
  repeat match goal with
         | |- ∃ res, (if ?b then _ else _) = Ret res => destruct b; [first [by eexists|apply Hl; rewrite ?string_app_length; simpl; lia]|]
         end.
  by eexists.
Qed.

End total.

(** ** The rules it gives *)

(** A well-formed rule that may stand in a logic rule. *)
Definition plain_rule (r : Rule) : Prop := wf_rule r ∧ RuleType_ r ≠ RT.SubRules.

Lemma plain_leaf r : is_leaf r = true → leaf_ok r → RuleType_ r ≠ RT.SubRules → plain_rule r.
Proof. intros. split; [by apply wf_leaf|done]. Qed.

(** Every outcome of a constructor that is not an error is a leaf. *)
Ltac leaf_rule :=
  repeat match goal with
         | H : mbind _ _ = Ok _ |- _ => apply result_bind_Ok in H as (? & _ & H)
         | H : (if ?b then _ else _) = Ok _ |- _ => destruct b
         | H : match ?x with _ => _ end = Ok _ |- _ => destruct x
         | H : Err _ = Ok _ |- _ => discriminate H
         | H : Ok _ = Ok _ |- _ => injection H as <-
         end;
  by apply plain_leaf.

Section rules.
Variable w : World.

(** [netip.ParsePrefix] returns valid prefixes only. *)
Hypothesis ParsePrefix_valid : ∀ s p, ParsePrefix w s = Some p → PrefixIsValid p = true.

Lemma len_AsSlice a : IsValid a = true → 8 * len (AsSlice a) = BitLen a.
Proof. by destruct a. Qed.

Lemma NewIPSuffix_plain pl a s n r : NewIPSuffix w pl a s n = Ok r → plain_rule r.
Proof.
  unfold NewIPSuffix. destruct (ParsePrefix w pl) as [p|] eqn:Hp; simpl; [|done].
  intros [= <-]. apply ParsePrefix_valid in Hp. unfold PrefixIsValid in Hp.
  rewrite !andb_true_iff, !Z.leb_le in Hp. destruct Hp as [[? ?] Hv].
  apply plain_leaf; [done| |by destruct s]. simpl. rewrite len_AsSlice by done. lia.
Qed.

Lemma NewPort_plain pl a rt r :
  rt ≠ RT.SubRules → NewPort pl a rt = Ok r → plain_rule r.
Proof. unfold NewPort. intros ? ?. leaf_rule. Qed.

Lemma NewProcess_plain pl a rt r :
  rt ≠ RT.SubRules → NewProcess w pl a rt = Ok r → plain_rule r.
Proof. unfold NewProcess. intros ? ?. leaf_rule. Qed.

Lemma NewGEOIP_plain pl a s n r : NewGEOIP w pl a s n = Ok r → plain_rule r.
Proof. unfold NewGEOIP. intros ?. destruct s; leaf_rule. Qed.

Lemma NewIPASN_plain pl a s n r : NewIPASN w pl a s n = Ok r → plain_rule r.
Proof. unfold NewIPASN. intros ?. destruct s; leaf_rule. Qed.

Lemma NewIPCIDR_plain pl a s n r : NewIPCIDR w pl a s n = Ok r → plain_rule r.
Proof. unfold NewIPCIDR. intros ?. destruct s; leaf_rule. Qed.

Lemma NewInType_plain pl a r : NewInType pl a = Ok r → plain_rule r.
Proof.
  unfold NewInType. destruct (trimmed _ _); simpl; [|done].
  destruct (parseInTypes _); simpl; [|done]. intros [= <-]. by apply plain_leaf.
Qed.

Lemma payloadsToRules_plain parseRule l rules :
  (∀ p r, tp p ≠ "SUB-RULE" → parseRule p = Ret (Ok r) → plain_rule r) →
  payloadsToRules parseRule l = Ret (Ok rules) → ∀ r, r ∈ rules → plain_rule r.
Proof.
  intros Hp. revert rules. induction l as [|s l IH]; intros rules; cbn [payloadsToRules].
  { intros [= <-]. set_solver. }
  unfold payloadToRule. repeat case_bool_decide; cbn [orb mbind outcome_bind]; try done.
  destruct (parseRule (ParseRulePayload s false)) as [[rule|]| |] eqn:Hr; cbn [mbind outcome_bind]; try done.
  destruct (payloadsToRules parseRule l) as [[rest|]| |]; cbn [mbind outcome_bind result_bind]; try done.
  intros [= <-] r [->|Hin]%elem_of_cons; [by apply (Hp (ParseRulePayload s false))|by apply (IH rest)].
Qed.

Lemma with_rules_plain parseRule text f r :
  (∀ p r, tp p ≠ "SUB-RULE" → parseRule p = Ret (Ok r) → plain_rule r) →
  with_rules parseRule text f = Ret (Ok r) →
  ∃ rules, f rules = Ok r ∧ (∀ r, r ∈ rules → wf_rule r) ∧ ∀ r, r ∈ rules → RuleType_ r ≠ RT.SubRules.
Proof.
  intros Hp. unfold with_rules, parsePayload.
  destruct (subPayloads text) as [l|e]; cbn [mbind outcome_bind result_bind]; [|done].
  destruct (payloadsToRules parseRule l) as [[rules|]| |] eqn:Hr; cbn [mbind outcome_bind result_bind]; try done.
  pose proof (payloadsToRules_plain _ _ _ Hp Hr) as Hplain. intros [= Hf].
  exists rules. split; [done|]. split; intros x Hx; by apply Hplain.
Qed.

(** The four constructors. *)
Lemma logic_wf parseRule pl a r o rt :
  (∀ p r, tp p ≠ "SUB-RULE" → parseRule p = Ret (Ok r) → plain_rule r) →
  (o = NewSubRule parseRule pl a ∧ rt = RT.SubRules ∨ o = NewNOT parseRule pl a ∧ rt = RT.NOT ∨
   o = NewOR parseRule pl a ∧ rt = RT.OR ∨ o = NewAND parseRule pl a ∧ rt = RT.AND) →
  o = Ret (Ok r) → wf_rule r ∧ RuleType_ r = rt.
Proof.
  intros Hp [[-> ->]|[[-> ->]|[[-> ->]|[-> ->]]]] Hr;
    apply (with_rules_plain _ _ _ _ Hp) in Hr as (rules & Hr & Hw & Ht);
    try (destruct (Nat.eqb_spec (length rules) 1)); simpl in Hr; simplify_eq;
    (split; [apply wf_logic; [naive_solver|done|done]|done]).
Qed.

Lemma ParseRule_wf fuel p r :
  ParseRule w fuel p = Ret (Ok r) → wf_rule r ∧ (RuleType_ r = RT.SubRules → tp p = "SUB-RULE").
Proof.
  revert p r. induction fuel as [|fuel IH]; intros [t pl target params] r; [done|].
  assert (plain_rule r → wf_rule r ∧ (RuleType_ r = RT.SubRules → t = "SUB-RULE")) as Hplain.
  { intros [? ?]. done. }
  assert (∀ p r, tp p ≠ "SUB-RULE" → ParseRule w fuel p = Ret (Ok r) → plain_rule r) as IH'.
  { intros p r' Hne Hr'. apply IH in Hr' as [? ?]. split; [done|naive_solver]. }
  pose proof (λ o rt, logic_wf (ParseRule w fuel) pl target r o rt IH') as Hlogic.
  cbn [ParseRule tp]. destruct (ParseParams params) as [isSrc noResolve].
  repeat match goal with
         | |- (if ?b then _ else _) = Ret _ → _ => destruct b eqn:?
         end; try done; intros Hr;
    first [apply (Hlogic _ RT.SubRules) in Hr as [? ?]; [|by auto]; by rewrite ?bool_decide_eq_true in *
          |first [apply (Hlogic _ RT.NOT) in Hr as [? Ht]; [|by auto]
                 |apply (Hlogic _ RT.OR) in Hr as [? Ht]; [|by auto]
                 |apply (Hlogic _ RT.AND) in Hr as [? Ht]; [|by auto]]; by rewrite Ht
          |apply Hplain; injection Hr as Hr].
  all: try (by eapply NewIPSuffix_plain); try (by eapply NewGEOIP_plain);
    try (by eapply NewIPASN_plain); try (by eapply NewIPCIDR_plain); try (by eapply NewInType_plain);
    try (by eapply NewPort_plain; [|exact Hr]); try (by eapply NewProcess_plain; [|exact Hr]);
    try (by rewrite <- Hr; apply plain_leaf).
  all: unfold NewDomainRegex, NewGEOSITE, NewDSCP, NewNetworkType, NewUid, NewInUser, NewInName,
    NewRematchName in Hr; leaf_rule.
Qed.

End rules.

(** C29: the parser returns on every text, and what it accepts is a well-formed rule:
    NOT and SUB-RULE have one rule, and no SUB-RULE is inside of a logic rule. *)
Theorem rule_parse_wf (w : World) p :
  (∀ s pre, ParsePrefix w s = Some pre → PrefixIsValid pre = true) →
  ∃ res, ParseRule_ w p = Ret res ∧ ∀ r, res = Ok r → wf_rule r.
Proof.
  intros Hw. destruct (ParseRule_total w (S (String.length (payload p))) p) as [res Hr]; [lia|].
  exists res. split; [done|]. intros r ->. by eapply ParseRule_wf.
Qed.

(** ** The sub-rules of a payload *)

Inductive balanced : string → Prop :=
| bal_nil : balanced ""
| bal_byte c s : c ≠ "("%char → c ≠ ")"%char → balanced s → balanced (String c s)
| bal_paren s t : balanced s → balanced t → balanced ("(" +:+ s +:+ String ")" t).

Lemma string_app_assoc (a b c : string) : (a +:+ b) +:+ c = a +:+ (b +:+ c).
Proof. induction a as [|x a IH]; [done|]. change (String x ((a +:+ b) +:+ c) = String x (a +:+ (b +:+ c))). by rewrite IH. Qed.

(** The ranges of [l] are within [i, j). *)
Definition within (i j : nat) (l : list parens) : Prop :=
  ∀ r, r ∈ l → (i ≤ p_start r ∧ p_start r < p_end r ∧ p_end r < j)%nat.

(** What [format_loop] does on a text, whatever follows. *)
Definition formats (i : nat) (s : string) (l : list parens) : Prop :=
  within i (i + String.length s) l ∧
  ∀ rest stack acc,
    format_loop i (s +:+ rest) stack acc = format_loop (i + String.length s) rest stack (acc ++ l).

Lemma formats_byte i c s l :
  c ≠ "("%char → c ≠ ")"%char → formats (S i) s l → formats i (String c s) l.
Proof.
  intros H1 H2 [Hw Hf]. split.
  - intros r Hr. specialize (Hw r Hr). simpl. lia.
  - intros rest stack acc. change (String c s +:+ rest) with (String c (s +:+ rest)).
    cbn [format_loop String.length]. rewrite (proj2 (Ascii.eqb_neq c "(")), (proj2 (Ascii.eqb_neq c ")")) by done.
    rewrite Hf. f_equal. lia.
Qed.

(** A text in parentheses, and what follows it. *)
Lemma formats_paren i s t l1 l2 :
  formats (S i) s l1 → formats (i + String.length s + 2) t l2 →
  formats i ("(" +:+ s +:+ String ")" t) ((l1 ++ [mkParens i (i + String.length s + 1)]) ++ l2).
Proof.
  intros [Hw1 Hf1] [Hw2 Hf2].
  assert (String.length ("(" +:+ s +:+ String ")" t) = String.length s + String.length t + 2)%nat as Hlen.
  { rewrite !string_app_length. simpl. lia. }
  split; rewrite Hlen.
  - intros r [[Hr| ->%list_elem_of_singleton]%elem_of_app|Hr]%elem_of_app.
    + specialize (Hw1 r Hr). lia.
    + simpl. lia.
    + specialize (Hw2 r Hr). lia.
  - intros rest stack acc.
    replace (("(" +:+ s +:+ String ")" t) +:+ rest) with (String "(" (s +:+ String ")" (t +:+ rest))).
    2:{ rewrite !string_app_assoc. done. }
    cbn [format_loop]. rewrite Hf1. cbn [format_loop].
    change (Ascii.eqb "(" "(") with true. change (Ascii.eqb ")" "(") with false.
    change (Ascii.eqb ")" ")") with true. cbv iota.
    replace (S (S i + String.length s))%nat with (i + String.length s + 2)%nat by lia. rewrite Hf2.
    replace (S i + String.length s)%nat with (i + String.length s + 1)%nat by lia.
    rewrite !app_assoc. f_equal. lia.
Qed.

Lemma balanced_formats s i : balanced s → ∃ l, formats i s l.
Proof.
  intros Hs. revert i. induction Hs as [|c s H1 H2 Hs IH|s t Hs IHs Ht IHt]; intros i.
  - exists []. split; [intros r Hr; set_solver|]. intros. simpl. by rewrite Nat.add_0_r, app_nil_r.
  - destruct (IH (S i)) as [l Hl]. exists l. by apply formats_byte.
  - destruct (IHs (S i)) as [l1 H1], (IHt (i + String.length s + 2)%nat) as [l2 H2].
    eexists. by apply formats_paren.
Qed.

(** *** Sorting *)

Lemma insert_range_app r l m :
  (∀ x, x ∈ m → (p_start r < p_start x)%nat) → insert_range r (l ++ m) = insert_range r l ++ m.
Proof.
  intros Hm. induction l as [|x l IH]; simpl.
  - destruct m as [|y m]; [done|]. simpl. rewrite (proj2 (Nat.ltb_lt _ _)); [done|]. apply Hm. set_solver.
  - by destruct (_ <? _)%nat; [|rewrite IH].
Qed.

Lemma sort_ranges_app l m :
  (∀ x y, x ∈ l → y ∈ m → (p_start x < p_start y)%nat) → sort_ranges (l ++ m) = sort_ranges l ++ sort_ranges m.
Proof.
  unfold sort_ranges. induction l as [|r l IH]; intros Hlt; [done|]. cbn [app fold_right].
  rewrite IH by (intros; apply Hlt; set_solver). apply insert_range_app.
  intros x Hx%(elem_sort_ranges x m). apply Hlt; set_solver.
Qed.

Lemma sort_ranges_last l o :
  (∀ x, x ∈ l → (p_start o < p_start x)%nat) → sort_ranges (l ++ [o]) = o :: sort_ranges l.
Proof.
  unfold sort_ranges. induction l as [|r l IH]; intros Hlt; [done|]. cbn [app fold_right].
  rewrite IH by (intros; apply Hlt; set_solver). simpl.
  rewrite (proj2 (Nat.ltb_ge _ _)); [done|]. apply Nat.lt_le_incl, Hlt. set_solver.
Qed.

(** *** Choosing the outer ranges *)

Lemma find_inside n inner o rest acc :
  (0 < p_start o)%nat →
  (∀ r, r ∈ inner → (p_start o < p_start r ∧ p_end r < p_end o)%nat) →
  findSubRuleRange n (inner ++ rest) (acc ++ [o]) = findSubRuleRange n rest (acc ++ [o]).
Proof.
  intros Ho. induction inner as [|r inner IH]; intros Hin; [done|].
  destruct (Hin r) as [H1 H2]; [set_solver|]. cbn [app findSubRuleRange].
  rewrite (proj2 (Nat.eqb_neq (p_start r) 0)) by lia. cbn [andb].
  assert (existsb (λ x, containRange r (p_start x) (p_end x)) (acc ++ [o]) = true) as ->.
  { rewrite existsb_app. simpl. unfold containRange.
    rewrite (proj2 (Nat.ltb_lt _ _) H1), (proj2 (Nat.ltb_lt _ _) H2). by rewrite orb_true_r. }
  apply IH. intros x Hx. apply Hin. set_solver.
Qed.

Lemma find_outer n o inner rest acc :
  (0 < p_start o)%nat → (∀ a, a ∈ acc → (p_end a ≤ p_end o)%nat) →
  (∀ r, r ∈ inner → (p_start o < p_start r ∧ p_end r < p_end o)%nat) →
  findSubRuleRange n ((o :: inner) ++ rest) acc = findSubRuleRange n rest (acc ++ [o]).
Proof.
  intros Ho Hacc Hin. cbn [app findSubRuleRange].
  rewrite (proj2 (Nat.eqb_neq (p_start o) 0)) by lia. cbn [andb].
  assert (existsb (λ x, containRange o (p_start x) (p_end x)) acc = false) as ->.
  { apply not_true_iff_false. rewrite existsb_exists. intros (a & Ha & Hc).
    unfold containRange in Hc. rewrite andb_true_iff, !Nat.ltb_lt in Hc.
    specialize (Hacc a). rewrite list_elem_of_In in Hacc. specialize (Hacc Ha). lia. }
  by apply find_inside.
Qed.

(** *** A list of rules in parentheses *)

Definition wrap (p : string) : string := "(" +:+ p +:+ ")".
Definition items (ps : list string) : string := Join "," (wrap <$> ps).

Fixpoint outer (i : nat) (ps : list string) : list parens :=
  match ps with
  | [] => []
  | p :: ps => mkParens i (i + String.length p + 1) :: outer (i + String.length p + 3) ps
  end.

Lemma items_cons p q ps : items (p :: q :: ps) = "(" +:+ p +:+ String ")" (String "," (items (q :: ps))).
Proof.
  change (items (p :: q :: ps)) with (wrap p +:+ String "," (items (q :: ps))).
  unfold wrap. by rewrite !string_app_assoc.
Qed.

(** The text of the rules, formatted from [i]; the outer ranges are those of the rules. *)
Lemma items_formats ps i :
  Forall balanced ps → (0 < i)%nat →
  ∃ l, formats i (items ps) l ∧
    ∀ n acc, (∀ a, a ∈ acc → (p_end a < i)%nat) →
      findSubRuleRange n (sort_ranges l) acc = acc ++ outer i ps.
Proof.
  intros Hps. revert i. induction Hps as [|p ps Hp Hps IH]; intros i Hi.
  { exists []. split; [|intros; simpl; by rewrite app_nil_r].
    destruct (balanced_formats "" i bal_nil) as [l [Hw Hf]]. split; [intros r; set_solver|].
    intros. simpl. by rewrite Nat.add_0_r, app_nil_r. }
  destruct (balanced_formats p (S i) Hp) as [lp Hlp].
  set (o := mkParens i (i + String.length p + 1)).
  assert (∀ t l2, formats (i + String.length p + 2) t l2 →
    formats i ("(" +:+ p +:+ String ")" t) ((lp ++ [o]) ++ l2) ∧
    sort_ranges ((lp ++ [o]) ++ l2) = (o :: sort_ranges lp) ++ sort_ranges l2) as Hblock.
  { intros t l2 H2. split; [by apply formats_paren|]. destruct Hlp as [Hw1 _], H2 as [Hw2 _].
    rewrite sort_ranges_app, sort_ranges_last; [done| |].
    - intros x Hx. specialize (Hw1 x Hx). simpl. lia.
    - intros x y [Hx| ->%list_elem_of_singleton]%elem_of_app Hy; specialize (Hw2 y Hy); simpl; [|lia].
      specialize (Hw1 x Hx). lia. }
  assert (∀ n rest acc, (∀ a, a ∈ acc → (p_end a < i)%nat) →
    findSubRuleRange n ((o :: sort_ranges lp) ++ rest) acc = findSubRuleRange n rest (acc ++ [o])) as Hfind.
  { intros n rest acc Hacc. apply find_outer; [done| |].
    - intros a Ha. specialize (Hacc a Ha). simpl. lia.
    - intros r Hr%(elem_sort_ranges r lp). destruct Hlp as [Hw1 _]. specialize (Hw1 r Hr). simpl. lia. }
  destruct ps as [|q ps].
  - assert (formats (i + String.length p + 2) "" []) as Hnil.
    { split; [intros r; set_solver|]. intros. simpl. by rewrite Nat.add_0_r, app_nil_r. }
    destruct (Hblock "" [] Hnil) as [H1 H2]. exists ((lp ++ [o]) ++ []). split; [done|].
    intros n acc Hacc. rewrite H2, Hfind by done. done.
  - destruct (IH (i + String.length p + 3)%nat) as (l2 & Hl2 & Hout); [lia|].
    destruct (Hblock (String "," (items (q :: ps))) l2) as [H1 H2].
    { apply formats_byte; [done..|]. by replace (S (i + String.length p + 2)) with (i + String.length p + 3)%nat by lia. }
    rewrite items_cons. exists ((lp ++ [o]) ++ l2). split; [done|].
    intros n acc Hacc. rewrite H2, Hfind by done. rewrite Hout.
    + by rewrite <- app_assoc.
    + intros a [Ha| ->%list_elem_of_singleton]%elem_of_app; [specialize (Hacc a Ha); lia|simpl; lia].
Qed.

Lemma substring_middle a b c :
  String.substring (String.length a) (String.length b) (a +:+ b +:+ c) = b.
Proof.
  induction a as [|x a IH]; [|exact IH]. simpl. induction b as [|y b IH]; simpl.
  - by destruct c.
  - f_equal. exact IH.
Qed.

Lemma outer_substrings ps pre post :
  (λ r, String.substring (S (p_start r)) (p_end r - S (p_start r)) (pre +:+ items ps +:+ post)) <$>
    outer (String.length pre) ps = ps.
Proof.
  revert pre. induction ps as [|p ps IH]; intros pre; [done|]. csimpl. f_equal.
  - assert (∃ c, pre +:+ items (p :: ps) +:+ post = (pre +:+ "(") +:+ p +:+ c) as [c ->].
    { destruct ps as [|q ps].
      - exists (")" +:+ post). change (items [p]) with (wrap p). unfold wrap. by rewrite !string_app_assoc.
      - rewrite items_cons. eexists. by rewrite !string_app_assoc. }
    replace (S (String.length pre)) with (String.length (pre +:+ "(")).
    2:{ rewrite string_app_length. simpl. lia. }
    replace (String.length pre + String.length p + 1 - String.length (pre +:+ "("))%nat with (String.length p).
    2:{ rewrite string_app_length. simpl. lia. }
    apply substring_middle.
  - destruct ps as [|q ps]; [done|]. rewrite items_cons.
    replace (pre +:+ ("(" +:+ p +:+ String ")" (String "," (items (q :: ps)))) +:+ post)
      with ((pre +:+ "(" +:+ p +:+ "),") +:+ items (q :: ps) +:+ post) by by rewrite !string_app_assoc.
    replace (String.length pre + String.length p + 3)%nat with (String.length (pre +:+ "(" +:+ p +:+ "),")).
    2:{ rewrite !string_app_length. simpl. lia. }
    apply IH.
Qed.

(** The pair of parentheses around everything is not a sub-rule. *)
Lemma subPayloads_wrapped s l :
  formats 1 s l →
  subPayloads (wrap s) =
    Ok ((λ r, String.substring (S (p_start r)) (p_end r - S (p_start r)) (wrap s)) <$>
        findSubRuleRange (String.length (wrap s)) (sort_ranges l) []).
Proof.
  intros [Hw Hf].
  assert (format (wrap s) = Ok (mkParens 0 (String.length s + 1) :: sort_ranges l)) as Hformat.
  { unfold format, wrap. change ("(" +:+ s +:+ ")") with (String "(" (s +:+ ")")).
    cbn [format_loop]. change (Ascii.eqb "(" "(") with true. cbv iota. rewrite Hf. cbn.
    rewrite sort_ranges_last; [by rewrite Nat.add_comm|]. intros x Hx. specialize (Hw x Hx). simpl. lia. }
  unfold subPayloads. rewrite Hformat.
  assert (HasPrefix (wrap s) "(" = true ∧ HasSuffix (wrap s) ")" = true) as [-> ->].
  { unfold wrap. split; [unfold HasPrefix; simpl; by destruct (s +:+ ")")|].
    rewrite <- string_app_assoc. by apply HasSuffix_app. }
  cbn [negb orb mbind result_bind]. f_equal. cbn [findSubRuleRange p_start p_end].
  assert (String.length (wrap s) = String.length s + 2)%nat as Hlen.
  { unfold wrap. rewrite !string_app_length. simpl. lia. }
  rewrite Hlen. replace (String.length s + 2 - 1)%nat with (String.length s + 1)%nat by lia.
  by rewrite !Nat.eqb_refl.
Qed.

(** A payload "((rule),(rule),...)" whose rules have balanced parentheses is split
    into exactly these rules, in order, whatever rules in parentheses they contain. *)
Theorem logic_payload_split ps :
  Forall balanced ps → subPayloads (wrap (items ps)) = Ok ps.
Proof.
  intros Hps. destruct (items_formats ps 1 Hps) as (l & Hl & Hout); [lia|].
  rewrite (subPayloads_wrapped _ l) by done. f_equal. rewrite Hout by set_solver.
  apply (outer_substrings ps "(" ")").
Qed.

Lemma no_parens_formats s i :
  has_byte "(" s = false → has_byte ")" s = false → formats i s [].
Proof.
  revert i. induction s as [|c s IH]; intros i; simpl.
  - intros _ _. split; [intros r; set_solver|]. intros. simpl. by rewrite Nat.add_0_r, app_nil_r.
  - rewrite !orb_false_iff, !Ascii.eqb_neq. intros [? ?] [? ?]. apply formats_byte; [done..|]. by apply IH.
Qed.

(** an AND rule whose single rule is not in parentheses of its own, as in
    "AND,(DOMAIN,a.com),target", is accepted with no rules at all, and matches every
    connection. *)
Theorem logic_and_unwrapped (w : World) (S : Type) (helper : RuleMatchHelper S) subRules x target fuel c :
  has_byte "(" x = false → has_byte ")" x = false →
  ParseRule_ w (mkPayload "AND" (wrap x) target []) = Ret (Ok (Logic (wrap x) target RT.AND [])) ∧
  Match w helper subRules (Datatypes.S fuel) (Logic (wrap x) target RT.AND []) c = Ret ((true, target), c).
Proof.
  intros H1 H2. split; [|done]. unfold ParseRule_. cbn -[wrap subPayloads].
  rewrite bool_decide_false by done. unfold NewAND, with_rules, parsePayload.
  rewrite (subPayloads_wrapped x []) by by apply no_parens_formats. done.
Qed.

Module Examples.
Import Rules.Examples.

Lemma small_world_prefix s pre : ParsePrefix small_world s = Some pre → PrefixIsValid pre = true.
Proof. simpl. case_bool_decide; [|done]. by intros [= <-]. Qed.

Definition nested : rulePayload :=
  ParseRulePayload "and,((DOMAIN-suffix, Example.com),(OR,((NETWORK,udp),(DST-PORT,80/443)))),Proxy" true.

Lemma rule_parse_wf_witness :
  ∃ r, ParseRule_ small_world nested = Ret (Ok r) ∧ wf_rule r ∧ Adapter r = "Proxy".
Proof.
  destruct (rule_parse_wf small_world nested small_world_prefix) as (res & Hr & Hwf).
  destruct res as [r|e]; [|by vm_compute in Hr].
  exists r. split; [done|]. split; [by apply Hwf|]. vm_compute in Hr. by injection Hr as <-.
Defined.

(** Go over the bytes that are not parentheses. *)
Ltac plain_bytes := repeat (apply bal_byte; [discriminate|discriminate|]).

Lemma logic_payload_split_witness :
  subPayloads "((DOMAIN,a),(NOT,((NETWORK,udp))))" = Ok ["DOMAIN,a"; "NOT,((NETWORK,udp))"].
Proof.
  apply (logic_payload_split ["DOMAIN,a"; "NOT,((NETWORK,udp))"]).
  repeat (apply Forall_cons; split); [| |constructor]; plain_bytes; [constructor|].
  apply (bal_paren "(NETWORK,udp)" ""); [|constructor].
  apply (bal_paren "NETWORK,udp" ""); plain_bytes; constructor.
Defined.

Lemma logic_and_unwrapped_witness :
  ParseRule_ small_world (ParseRulePayload "AND,(DOMAIN,a.com),DIRECT" true) =
    Ret (Ok (Logic "(DOMAIN,a.com)" "DIRECT" RT.AND [])) ∧
  Match small_world no_helper ∅ 1 (Logic "(DOMAIN,a.com)" "DIRECT" RT.AND []) (zeroMetadata, ()) =
    Ret ((true, "DIRECT"), (zeroMetadata, ())).
Proof.
  apply (logic_and_unwrapped small_world unit no_helper ∅ "DOMAIN,a.com" "DIRECT" 0); reflexivity.
Defined.

End Examples.
