(* ===== verification/SubRules.v ===== *)
(** * Sub-rules of a configuration ([config/config.go])

    The check for circular references of named rule lists, and what it is for: with
    an accepted configuration the evaluation of rules ends. *)

From S2P Require Import Prelude Wire GoStrings Metadata Rules.

(** ** Sub-rules of a configuration ([config/config.go]) *)

(** [verifySubRuleCircularReferences]; the recursion follows the references. *)
Section verify.
Variable subRules : gmap string (list Rule).

Fixpoint verify_loop (verify : string → outcome (result unit)) (n : string) (arr : list string)
    (i : Z) (rules : list Rule) : outcome (result unit) :=
  match rules with
  | [] => Ret (Ok tt)
  | rule :: rules =>
    if bool_decide (RuleType_ rule = RT.SubRules) then
      match subRules !! (Adapter rule) with
      | None =>
        Ret (Err (ErrMsg ("sub-rule[" +:+ FormatInt i +:+ ":" +:+ n +:+ "] error: [" +:+ Adapter rule +:+
          "] not found")))
      | Some _ =>
        if slices_Contains arr (Adapter rule) then
          Ret (Err (ErrMsg ("sub-rule error: circular references [" +:+
            String.concat "->" (arr ++ [Adapter rule]) +:+ "]")))
        else
          res ← verify (Adapter rule);
          match res with
          | Err e => Ret (Err e)
          | Ok _ => verify_loop verify n arr (i + 1) rules
          end
      end
    else verify_loop verify n arr (i + 1) rules
  end.

Fixpoint verifySubRuleCircularReferences (fuel : nat) (n : string) (arr : list string) :
    outcome (result unit) :=
  match fuel with
  | O => OutOfFuel
  | S fuel =>
    let arr := arr ++ [n] in
    verify_loop (λ m, verifySubRuleCircularReferences fuel m arr) n arr 0 (default [] (subRules !! n))
  end.

(** [verifySubRule]; a map iteration in some order. *)
Fixpoint verify_names (names : list string) : outcome (result unit) :=
  match names with
  | [] => Ret (Ok tt)
  | name :: names =>
    res ← verifySubRuleCircularReferences (S (size subRules)) name [];
    match res with
    | Err e => Ret (Err e)
    | Ok _ => verify_names names
    end
  end.

Definition verifySubRule : outcome (result unit) := verify_names (map_to_list subRules).*1.
End verify.

(** ** The check decides acyclicity *)

Section decide.
Variable subRules : gmap string (list Rule).

(** The list [n] has a SUB-RULE rule to the list [m]. *)
Definition ref (n m : string) : Prop :=
  ∃ rules rule, subRules !! n = Some rules ∧ rule ∈ rules ∧
    RuleType_ rule = RT.SubRules ∧ Adapter rule = m.

Lemma verify_loop_spec verify n arr i rules :
  match verify_loop subRules verify n arr i rules with
  | Ret (Ok _) => ∀ rule, rule ∈ rules → RuleType_ rule = RT.SubRules →
      is_Some (subRules !! (Adapter rule)) ∧ (Adapter rule ∉ arr) ∧ verify (Adapter rule) = Ret (Ok tt)
  | Ret (Err _) => ∃ rule, rule ∈ rules ∧ RuleType_ rule = RT.SubRules ∧
      (subRules !! (Adapter rule) = None ∨ Adapter rule ∈ arr ∨
       is_Some (subRules !! (Adapter rule)) ∧ (Adapter rule ∉ arr) ∧ ∃ e, verify (Adapter rule) = Ret (Err e))
  | _ => ∃ rule, rule ∈ rules ∧ RuleType_ rule = RT.SubRules ∧
      is_Some (subRules !! (Adapter rule)) ∧ (Adapter rule ∉ arr) ∧ ∀ res, verify (Adapter rule) ≠ Ret res
  end.
Proof.
  revert i. induction rules as [|r rules IH]; intros i; cbn [verify_loop]; [set_solver|]. specialize (IH (i + 1)).
  case_bool_decide as Ht.
  - destruct (subRules !! (Adapter r)) as [rs|] eqn:Hr; [|exists r; set_solver].
    unfold slices_Contains. case_bool_decide as Ha; [exists r; set_solver|].
    destruct (verify (Adapter r)) as [[[]|e]| |] eqn:Hv; cbn [mbind outcome_bind].
    + destruct (verify_loop _ _ _ _ _ rules) as [[]| |]; set_solver.
    + exists r. split_and!; [set_solver|done|]. right. right. rewrite Hr. naive_solver.
    + exists r. split_and!; [set_solver|done|by rewrite Hr|done|by rewrite Hv].
    + exists r. split_and!; [set_solver|done|by rewrite Hr|done|by rewrite Hv].
  - destruct (verify_loop _ _ _ _ _ rules) as [[]| |]; set_solver.
Qed.

(** The references of [n], for every fuel. *)
Lemma ref_default n m :
  ref n m ↔ ∃ rule, rule ∈ default [] (subRules !! n) ∧ RuleType_ rule = RT.SubRules ∧ Adapter rule = m.
Proof. unfold ref. destruct (subRules !! n); simpl; set_solver. Qed.

Lemma verify_Ok fuel n arr :
  verifySubRuleCircularReferences subRules (S fuel) n arr = Ret (Ok tt) →
  ∀ m, ref n m → is_Some (subRules !! m) ∧ (m ∉ arr ++ [n]) ∧
    verifySubRuleCircularReferences subRules fuel m (arr ++ [n]) = Ret (Ok tt).
Proof.
  cbn [verifySubRuleCircularReferences]. intros Hv m (rule & Hin & Ht & <-)%ref_default.
  pose proof (verify_loop_spec (λ m, verifySubRuleCircularReferences subRules fuel m (arr ++ [n]))
    n (arr ++ [n]) 0 (default [] (subRules !! n))) as Hs.
  rewrite Hv in Hs. by apply Hs.
Qed.

Lemma verify_total fuel n arr :
  NoDup (arr ++ [n]) → (∀ x, x ∈ arr ++ [n] → is_Some (subRules !! x)) →
  (size subRules < fuel + length arr)%nat →
  ∃ res, verifySubRuleCircularReferences subRules fuel n arr = Ret res.
Proof.
  revert n arr. induction fuel as [|fuel IH]; intros n arr Hnd Hdom Hf.
  - exfalso. assert (arr ++ [n] ⊆+ elements (dom subRules)) as Hs%submseteq_length.
    { apply NoDup_submseteq; [done|]. intros x Hx. by apply elem_of_elements, elem_of_dom, Hdom. }
    rewrite length_app in Hs. cbn [length] in Hs.
    change (length (elements (dom subRules))) with (size (dom subRules)) in Hs.
    rewrite size_dom in Hs. lia.
  - cbn [verifySubRuleCircularReferences].
    pose proof (verify_loop_spec (λ m, verifySubRuleCircularReferences subRules fuel m (arr ++ [n]))
      n (arr ++ [n]) 0 (default [] (subRules !! n))) as Hs.
    destruct (verify_loop _ _ _ _ _ _) as [res| |]; [by eexists| |]; exfalso;
      destruct Hs as (rule & Hin & Ht & Hd & Ha & Hno);
      (destruct (IH (Adapter rule) (arr ++ [n])) as [res Hres];
       [apply NoDup_app; split_and!; [done|set_solver|apply NoDup_singleton]
       |intros x [?| ->%list_elem_of_singleton]%elem_of_app; auto
       |rewrite length_app; simpl; lia
       |by apply (Hno res)]).
Qed.

Lemma verify_Err fuel n arr e :
  (∀ x, x ∈ arr → tc ref x n) →
  verifySubRuleCircularReferences subRules fuel n arr = Ret (Err e) →
  (∃ n m, ref n m ∧ subRules !! m = None) ∨ ∃ x, tc ref x x.
Proof.
  revert n arr e. induction fuel as [|fuel IH]; intros n arr e Hpath; [done|].
  cbn [verifySubRuleCircularReferences]. intros Hv.
  pose proof (verify_loop_spec (λ m, verifySubRuleCircularReferences subRules fuel m (arr ++ [n]))
    n (arr ++ [n]) 0 (default [] (subRules !! n))) as Hs. rewrite Hv in Hs.
  destruct Hs as (rule & Hin & Ht & Hs).
  assert (ref n (Adapter rule)) as Hr by (apply ref_default; eauto).
  assert (∀ x, x ∈ arr ++ [n] → tc ref x (Adapter rule)) as Hp.
  { intros x [Hx| ->%list_elem_of_singleton]%elem_of_app; [|by apply tc_once].
    eapply tc_r; [by apply Hpath|done]. }
  destruct Hs as [Hs|[Hs|(_ & _ & e' & Hs)]].
  - left. by exists n, (Adapter rule).
  - right. exists (Adapter rule). by apply Hp.
  - by apply (IH (Adapter rule) (arr ++ [n]) e').
Qed.

(** A verified list is on no cycle through its path. *)
Lemma verify_no_return fuel n arr a m :
  verifySubRuleCircularReferences subRules fuel n arr = Ret (Ok tt) →
  a ∈ arr ++ [n] → tc ref n m → m ≠ a.
Proof.
  intros Hv Ha Htc. revert fuel arr Hv Ha.
  induction Htc as [n m Hr|n x m Hr Htc IH]; intros [|fuel] arr Hv Ha; try done;
    destruct (verify_Ok fuel n arr Hv _ Hr) as (_ & Hx & Hv').
  - by intros ->.
  - apply (IH fuel (arr ++ [n])); [done|]. apply elem_of_app. by left.
Qed.

Lemma verify_names_spec names :
  (∀ n, n ∈ names → is_Some (subRules !! n)) →
  ∃ res, verify_names subRules names = Ret res ∧
    match res with
    | Ok _ => ∀ n, n ∈ names →
        verifySubRuleCircularReferences subRules (S (size subRules)) n [] = Ret (Ok tt)
    | Err _ => (∃ n m, ref n m ∧ subRules !! m = None) ∨ ∃ x, tc ref x x
    end.
Proof.
  induction names as [|n names IH]; intros Hdom; cbn [verify_names]; [exists (Ok tt); set_solver|].
  destruct (verify_total (S (size subRules)) n []) as [res Hres];
    [apply NoDup_singleton|intros x ->%list_elem_of_singleton; apply Hdom; set_solver|simpl; lia|].
  rewrite Hres. cbn [mbind outcome_bind]. destruct res as [[]|e].
  - destruct IH as (res & Hr & Hs); [set_solver|]. exists res. split; [done|].
    destruct res; [|done]. intros x [->|Hx]%elem_of_cons; [done|by apply Hs].
  - exists (Err e). split; [done|]. eapply verify_Err; [|done]. set_solver.
Qed.

Lemma verifySubRule_spec :
  ∃ res, verifySubRule subRules = Ret res ∧
    match res with
    | Ok _ => ∀ n, is_Some (subRules !! n) →
        verifySubRuleCircularReferences subRules (S (size subRules)) n [] = Ret (Ok tt)
    | Err _ => (∃ n m, ref n m ∧ subRules !! m = None) ∨ ∃ x, tc ref x x
    end.
Proof.
  assert (∀ n, n ∈ (map_to_list subRules).*1 ↔ is_Some (subRules !! n)) as Hn.
  { intros n. rewrite list_elem_of_fmap. split.
    - intros ([k v] & -> & Hin%elem_of_map_to_list). by exists v.
    - intros [v Hv]. exists (n, v). by rewrite elem_of_map_to_list. }
  destruct (verify_names_spec (map_to_list subRules).*1) as (res & Hr & Hs); [apply Hn|].
  exists res. split; [done|]. destruct res; [|done]. intros n Hsome. by apply Hs, Hn.
Qed.

Lemma ref_defined n m : ref n m → is_Some (subRules !! n).
Proof. intros (rules & rule & -> & _). by eexists. Qed.

Lemma tc_defined n m : tc ref n m → is_Some (subRules !! n).
Proof. intros []; by eapply ref_defined. Qed.

(** C30: the check of the sub-rules always ends, and it accepts exactly when every
    SUB-RULE rule names an existing list and no list refers to itself, directly or
    through others. *)
Theorem subrules_verify :
  ∃ res, verifySubRule subRules = Ret res ∧
    (res = Ok tt ↔ (∀ n m, ref n m → is_Some (subRules !! m)) ∧ ∀ n, ¬ tc ref n n).
Proof.
  destruct verifySubRule_spec as (res & Hr & Hs). exists res. split; [done|].
  destruct res as [[]|e].
  - split; [intros _|done]. split.
    + intros n m Hnm. eapply verify_Ok; [apply Hs; by eapply ref_defined|done].
    + intros n Hc. assert (is_Some (subRules !! n)) as Hn by by eapply tc_defined.
      eapply (verify_no_return _ n [] n n); [by apply Hs|set_solver|done|done].
  - split; [done|]. intros [Hdef Hacyc]. destruct Hs as [(n & m & Hnm & Hm)|[x Hx]].
    + destruct (Hdef n m Hnm) as [? ?]. congruence.
    + by apply Hacyc in Hx.
Qed.
End decide.

(** ** Evaluation ends *)

(** A bound for every element is a bound for all. *)
Lemma uniform_bound {A} (l : list A) (Q : nat → A → Prop) :
  (∀ x, x ∈ l → ∃ F, ∀ fuel, (F ≤ fuel)%nat → Q fuel x) →
  ∃ F, ∀ fuel, (F ≤ fuel)%nat → Forall (Q fuel) l.
Proof.
  induction l as [|x l IH]; intros H; [exists 0%nat; constructor|].
  destruct (H x) as [F1 H1]; [set_solver|]. destruct IH as [F2 H2]; [set_solver|].
  exists (F1 + F2)%nat. intros fuel Hf. constructor; [apply H1; lia|apply H2; lia].
Qed.

Section terminates.
Context (w : World) {S : Type} (helper : RuleMatchHelper S).
Variable subRules : gmap string (list Rule).

Definition match_returns (fuel : nat) (r : Rule) : Prop :=
  ∀ c, ∃ res, Match w helper subRules fuel r c = Ret res.

Definition sub_returns (fuel : nat) (name : string) : Prop :=
  ∀ c, ∃ res, matchSubRules w helper subRules fuel name c = Ret res.

Lemma rule_terminates r :
  wf_rule r → names_return w r →
  (RuleType_ r = RT.SubRules → ∃ F, ∀ fuel, (F ≤ fuel)%nat → sub_returns fuel (Adapter r)) →
  ∃ F, ∀ fuel, (F ≤ fuel)%nat → match_returns fuel r.
Proof.
  intros Hwf. induction Hwf as [r Hl Hok|payload adapter ruleType rules Ht Hr IH Hns]; intros Hn Hsub.
  { exists 1%nat. intros [|fuel] Hf; [lia|]. intros c.
    destruct (leaf_Match_total w helper r c Hok Hn) as [res Hres]. exists res. by destruct r. }
  destruct (uniform_bound rules match_returns) as [F HF].
  { intros r Hin. apply IH; [done|by eapply names_return_in|]. intros He. by apply Hns in He. }
  assert (∃ F', ∀ fuel, (F' ≤ fuel)%nat → ruleType = RT.SubRules → sub_returns fuel adapter) as [F' HF'].
  { destruct (decide (ruleType = RT.SubRules)) as [->|]; [|by exists 0%nat].
    destruct Hsub as [F' HF']; [done|]. exists F'. auto. }
  exists (Datatypes.S (F + F')). intros [|fuel] Hf c; [lia|]. cbn [Match].
  assert (Forall (match_returns fuel) rules) as Hrules by (apply HF; lia).
  assert (∀ r c, match_returns fuel r → ∃ res, Match w helper subRules fuel r c = Ret res) as Htot by auto.
  unfold Logic_Match. destruct Ht as [->|[->|[Ht Hlen]]].
  - by eapply and_loop_total.
  - by eapply or_loop_total.
  - destruct rules as [|r [|]]; try done. cbn [idx]. apply Forall_cons in Hrules as [Hrule _].
    destruct (Hrule c) as [[[m a] c'] Hm]. destruct Ht as [->| ->].
    + change (idx [r] 0) with (@Ret Rule r). cbn [mbind outcome_bind]. rewrite Hm.
      cbn [mbind outcome_bind]. destruct m; by eexists.
    + change (idx [r] 0) with (@Ret Rule r). cbn [mbind outcome_bind]. rewrite Hm.
      cbn [mbind outcome_bind]. destruct m; [|by eexists]. apply HF'; [lia|done].
Qed.

Hypothesis subRules_wf : ∀ name rules, subRules !! name = Some rules → Forall wf_rule rules.
Hypothesis returns : providers_return w.

Lemma sub_terminates fuelv name arr :
  verifySubRuleCircularReferences subRules fuelv name arr = Ret (Ok tt) →
  ∃ F, ∀ fuel, (F ≤ fuel)%nat → sub_returns fuel name.
Proof.
  revert name arr. induction fuelv as [|fuelv IH]; intros name arr Hv; [done|].
  set (rules := default [] (subRules !! name)).
  assert (Forall wf_rule rules) as Hwf.
  { unfold rules. destruct (subRules !! name) eqn:He; [by eapply subRules_wf|constructor]. }
  assert (∀ r, r ∈ rules → RuleType_ r = RT.SubRules →
    ∃ F, ∀ fuel, (F ≤ fuel)%nat → sub_returns fuel (Adapter r)) as Hsub.
  { intros r Hin Ht. destruct (verify_Ok subRules fuelv name arr Hv (Adapter r)) as (_ & _ & Hr).
    { apply ref_default. eauto. }
    by eapply IH. }
  rewrite Forall_forall in Hwf.
  destruct (uniform_bound rules match_returns) as [F1 H1].
  { intros r Hin. apply rule_terminates; [by apply Hwf|by intros ? _|by apply Hsub]. }
  destruct (uniform_bound rules (λ fuel r, RuleType_ r = RT.SubRules → sub_returns fuel (Adapter r)))
    as [F2 H2].
  { intros r Hin. destruct (decide (RuleType_ r = RT.SubRules)) as [Ht|]; [|by exists 0%nat].
    destruct (Hsub r Hin Ht) as [F HF]. exists F. auto. }
  exists (Datatypes.S (F1 + F2)). intros [|fuel] Hf c; [lia|]. cbn [matchSubRules]. fold rules.
  eapply (sub_loop_total helper _ (match_returns fuel)); [auto|apply H1; lia|].
  intros r c' Hin Ht. specialize (H2 fuel ltac:(lia)). rewrite Forall_forall in H2. by apply H2.
Qed.
Hypothesis accepted : verifySubRule subRules = Ret (Ok tt).

Lemma accepted_terminates r :
  wf_rule r → ∃ F, ∀ fuel, (F ≤ fuel)%nat → match_returns fuel r.
Proof.
  intros Hr. destruct (verifySubRule_spec subRules) as (res & Hres & Hs).
  rewrite accepted in Hres. simplify_eq. apply rule_terminates; [done|by intros ? _|]. intros _.
  destruct (subRules !! Adapter r) as [rules|] eqn:He.
  - eapply sub_terminates. apply Hs. by rewrite He.
  - exists 1%nat. intros [|fuel] Hf c; [lia|]. cbn [matchSubRules]. rewrite He. by eexists.
Qed.
End terminates.

(** with well-formed rules and an accepted configuration the evaluation of every
    rule returns an answer for every connection: it neither recurses forever nor
    panics. *)
Theorem subrules_match_terminates (w : World) (S : Type) (helper : RuleMatchHelper S) subRules r :
  providers_return w → verifySubRule subRules = Ret (Ok tt) →
  (∀ name rules, subRules !! name = Some rules → Forall wf_rule rules) → wf_rule r →
  ∃ F, ∀ fuel c, (F ≤ fuel)%nat → ∃ res, Match w helper subRules fuel r c = Ret res.
Proof.
  intros Hp Hv Hwf Hr. destruct (accepted_terminates w helper subRules Hwf Hp Hv r Hr) as [F HF].
  exists F. intros fuel c Hf. by apply HF.
Qed.

Module Examples.
Import Rules.Examples.

Definition to_sub (name : string) : Rule :=
  Logic "NETWORK,TCP" name RT.SubRules [NetworkType TCP ""].

Definition sub_rules : gmap string (list Rule) :=
  {[ "a" := [Domain "x.com" "PASS-RULE"; to_sub "b"]; "b" := [MatchRule "DIRECT"] ]}.

Lemma sub_rules_wf name rules : sub_rules !! name = Some rules → Forall wf_rule rules.
Proof.
  intros H. unfold sub_rules in H. rewrite lookup_insert in H.
  assert (wf_rule (to_sub "b")) as Hw.
  { apply wf_logic; [right; right; split; [by right|done]| |]; intros r ->%list_elem_of_singleton;
      [by apply wf_leaf|done]. }
  case_decide; simplify_eq.
  - constructor; [by apply wf_leaf|]. by apply Forall_singleton.
  - rewrite lookup_singleton in H. case_decide; simplify_eq. apply Forall_singleton. by apply wf_leaf.
Qed.

Lemma subrules_match_terminates_witness :
  ∃ fuel, Match small_world no_helper sub_rules fuel (to_sub "a") (set_Host "x.com" zeroMetadata, ()) =
    Ret ((true, "DIRECT"), (set_Host "x.com" zeroMetadata, ())).
Proof.
  destruct (subrules_match_terminates small_world unit no_helper sub_rules (to_sub "a")) as [F HF].
  - apply small_world_returns.
  - vm_compute. reflexivity.
  - apply sub_rules_wf.
  - apply wf_logic; [right; right; split; [by right|done]| |]; intros r ->%list_elem_of_singleton;
      [by apply wf_leaf|done].
  - exists 6%nat. vm_compute. reflexivity.
Defined.

(** Without the check: a list that refers to itself is never evaluated to an end. *)
Example subrules_cycle fuel :
  let cyclic := {[ "a" := [to_sub "a"] ]} : gmap string (list Rule) in
  Match small_world no_helper cyclic fuel (to_sub "a") (zeroMetadata, ()) = OutOfFuel.
Proof.
  intros cyclic. set (c := (zeroMetadata, ())).
  cut (Match small_world no_helper cyclic fuel (to_sub "a") c = OutOfFuel ∧
    matchSubRules small_world no_helper cyclic fuel "a" c = OutOfFuel); [by intros [? _]|].
  induction fuel as [[|n] IH] using lt_wf_ind; [done|].
  destruct (IH n) as [H1 H2]; [lia|]. split.
  - destruct n as [|n]; [done|]. exact H2.
  - change (sub_loop no_helper (Match small_world no_helper cyclic n)
      (matchSubRules small_world no_helper cyclic n) [to_sub "a"] c = OutOfFuel).
    cbn [sub_loop]. by rewrite H1.
Qed.
End Examples.
