(* ===== verification/Config.v ===== *)
(** * Rules of a configuration ([config/config.go])

    The lines of the [rules] and [sub-rules] sections are parsed against the names
    of proxies, rule providers and sub-rules, and the sub-rules are checked for
    cycles.  What a configuration is accepted for: its rules can be evaluated on
    every connection. *)

From S2P Require Import Prelude Wire GoStrings NetIP Metadata Rules RuleParser SubRules.

Section config.
Variable w : World.

(** The names that a rule may refer to. *)
Variables (proxies ruleProviders : gset string).

(** The error of [parseRules] for the line with the index [idx]. *)
Definition line_error (format : string) (idx : Z) (line text : string) : goerr :=
  ErrMsg (format +:+ "[" +:+ FormatInt idx +:+ "] [" +:+ line +:+ "] error: " +:+ text).

(** [parseRules] for one line: the parsed rule, or why the line is refused. *)
Definition parseRule_line (subNames : gset string) (format : string) (idx : Z) (line : string) :
    outcome (result Rule) :=
  let fail text := Err (line_error format idx line text) in
  let p := ParseRulePayload line true in
  if bool_decide (target p = "") then Ret (fail "format invalid")
  else if negb (bool_decide (target p ∈ proxies)) && negb (bool_decide (tp p = "SUB-RULE")) then
    Ret (fail ("proxy [" +:+ target p +:+ "] not found"))
  else if negb (bool_decide (target p ∈ proxies)) && negb (bool_decide (target p ∈ subNames)) then
    Ret (fail ("sub-rule [" +:+ target p +:+ "] not found"))
  else
    parsed ← ParseRule_ w p;
    Ret match parsed with
        | Err e => fail (Error e)
        | Ok r =>
          match List.find (λ name, negb (bool_decide (name ∈ ruleProviders))) (ProviderNames r) with
          | Some name => fail ("rule set [" +:+ name +:+ "] not found")
          | None => Ok r
          end
        end.

(** The lines from the index [idx] on.  The rules are the parsed ones; the tunnel
    holds those of the top level in the wrapper of Tunnel.v, which this function of
    the program puts around them. *)
Fixpoint parse_lines (subNames : gset string) (format : string) (idx : Z) (rulesConfig : list string) :
    outcome (result (list Rule)) :=
  match rulesConfig with
  | [] => Ret (Ok [])
  | line :: rulesConfig =>
    parsed ← parseRule_line subNames format idx line;
    match parsed with
    | Err e => Ret (Err e)
    | Ok r =>
      rest ← parse_lines subNames format (idx + 1) rulesConfig;
      Ret (rules ← rest; Ok (r :: rules))
    end
  end.

Definition parseRules (rulesConfig : list string) (subNames : gset string) (format : string) :
    outcome (result (list Rule)) :=
  parse_lines subNames format 0 rulesConfig.

(** The loop of [parseSubRules]; while a list is parsed only the names count. *)
Fixpoint parse_sections (subNames : gset string) (sections : list (string * list string))
    (subRules : gmap string (list Rule)) : outcome (result (gmap string (list Rule))) :=
  match sections with
  | [] => Ret (Ok subRules)
  | (name, rawRules) :: sections =>
    if bool_decide (name = "") then Ret (Err (ErrMsg "sub-rule name is empty"))
    else
      parsed ← parseRules rawRules subNames ("sub-rules[" +:+ name +:+ "]");
      match parsed with
      | Err e => Ret (Err e)
      | Ok rules => parse_sections subNames sections (<[name := rules]> subRules)
      end
  end.

Definition parseSubRules (sections : list (string * list string)) :
    outcome (result (gmap string (list Rule))) :=
  parsed ← parse_sections (list_to_set sections.*1) sections ∅;
  match parsed with
  | Err e => Ret (Err e)
  | Ok subRules =>
    verified ← verifySubRule subRules;
    Ret match verified with Err e => Err e | Ok _ => Ok subRules end
  end.

(** ** Accepted rules are well formed *)

Hypothesis ParsePrefix_valid : ∀ s p, ParsePrefix w s = Some p → PrefixIsValid p = true.

Lemma parseRule_line_wf subNames format idx line :
  ∃ res, parseRule_line subNames format idx line = Ret res ∧ ∀ r, res = Ok r → wf_rule r.
Proof.
  unfold parseRule_line. set (p := ParseRulePayload line true).
  destruct (ParseRule_total w (S (String.length (payload p))) p) as [res Hres]; [lia|].
  fold (ParseRule_ w p) in Hres. rewrite Hres. cbn [mbind outcome_bind].
  repeat match goal with |- context [if ?b then _ else _] => destruct b end;
    try (eexists; split; [done|]; naive_solver);
    destruct res as [r|e]; cbn; try (eexists; split; [done|]; naive_solver).
  destruct (List.find _ _); (eexists; split; [done|]); [naive_solver|].
  intros r' [= <-]. by eapply ParseRule_wf.
Qed.

Lemma parseRules_wf subNames format lines :
  ∃ res, parseRules lines subNames format = Ret res ∧ ∀ rules, res = Ok rules → Forall wf_rule rules.
Proof.
  unfold parseRules. generalize 0. induction lines as [|line lines IH]; intros idx; cbn [parse_lines].
  { eexists. split; [done|]. intros rules [= <-]. constructor. }
  destruct (parseRule_line_wf subNames format idx line) as (res & -> & Hwf). cbn [mbind outcome_bind].
  destruct res as [r|e]; [|eexists; split; [done|naive_solver]].
  destruct (IH (idx + 1)) as (rest & -> & Hrest).
  cbn [mbind outcome_bind]. eexists. split; [done|]. intros rules (rs & -> & [= <-])%result_bind_Ok.
  constructor; [by apply Hwf|by apply Hrest].
Qed.

Definition sections_wf (m : gmap string (list Rule)) : Prop :=
  ∀ name rules, m !! name = Some rules → Forall wf_rule rules.

Lemma parse_sections_wf subNames sections m :
  sections_wf m →
  ∃ res, parse_sections subNames sections m = Ret res ∧ ∀ m', res = Ok m' → sections_wf m'.
Proof.
  revert m. induction sections as [|[name raw] sections IH]; intros m Hm; cbn [parse_sections].
  { eexists. split; [done|]. by intros m' [= <-]. }
  case_bool_decide; [eexists; split; [done|naive_solver]|].
  destruct (parseRules_wf subNames ("sub-rules[" +:+ name +:+ "]") raw) as (res & -> & Hwf). cbn [mbind outcome_bind].
  destruct res as [rules|e]; [|eexists; split; [done|naive_solver]].
  apply IH. intros n rs. rewrite lookup_insert. case_decide; [intros [= <-]; by apply Hwf|apply Hm].
Qed.

(** Parsing the sub-rules always returns; what is accepted is checked. *)
Lemma parseSubRules_wf sections :
  ∃ res, parseSubRules sections = Ret res ∧
    ∀ m, res = Ok m → sections_wf m ∧ verifySubRule m = Ret (Ok tt).
Proof.
  unfold parseSubRules.
  destruct (parse_sections_wf (list_to_set sections.*1) sections ∅) as (res & -> & Hwf).
  { intros n rules. by rewrite lookup_empty. }
  cbn [mbind outcome_bind]. destruct res as [m|e]; [|eexists; split; [done|naive_solver]].
  destruct (verifySubRule_spec m) as (v & Hv & _). rewrite Hv. cbn [mbind outcome_bind].
  destruct v as [[]|e]; (eexists; split; [done|]); [|naive_solver].
  intros m' [= <-]. split; [by apply Hwf|done].
Qed.
End config.

(** C14: when the prefixes that the address parser gives are valid, a configuration is
    always either refused or accepted, and when it is accepted and the rule providers
    return on every connection, one amount of fuel is enough to evaluate each of its rules
    on every connection. *)
Theorem config_rules_evaluate (w : World) proxies ruleProviders sections lines :
  (∀ s p, ParsePrefix w s = Some p → PrefixIsValid p = true) → providers_return w →
  (∃ res, parseSubRules w proxies ruleProviders sections = Ret res ∧
   ∀ subRules, res = Ok subRules →
   ∃ res', parseRules w proxies ruleProviders lines (dom subRules) "rules" = Ret res' ∧
   ∀ rules, res' = Ok rules →
   ∀ (S : Type) (helper : RuleMatchHelper S),
   ∃ F, ∀ fuel, (F ≤ fuel)%nat →
     Forall (λ r, ∀ c, ∃ answer, Match w helper subRules fuel r c = Ret answer) rules).
Proof.
  intros Hw Hp. destruct (parseSubRules_wf w proxies ruleProviders Hw sections) as (res & Hres & Hsub).
  exists res. split; [done|]. intros subRules ->. destruct (Hsub subRules eq_refl) as [Hwf Hv].
  destruct (parseRules_wf w proxies ruleProviders Hw (dom subRules) "rules" lines) as (res' & Hres' & Hrules).
  exists res'. split; [done|]. intros rules -> S helper. specialize (Hrules rules eq_refl).
  rewrite Forall_forall in Hrules.
  apply (uniform_bound rules (λ fuel r, ∀ c, ∃ answer, Match w helper subRules fuel r c = Ret answer)).
  intros r Hr. by apply (accepted_terminates w helper subRules Hwf Hp Hv), Hrules.
Qed.

Module Examples.
Import Rules.Examples RuleParser.Examples.

Definition proxy_names : gset string := {[ "DIRECT"; "Proxy" ]}.
Definition sub_sections : list (string * list string) :=
  [("a", ["SUB-RULE,(NETWORK,tcp),b"; "MATCH,DIRECT"]); ("b", ["DOMAIN-KEYWORD,x,Proxy"])].
Definition lines : list string := ["SUB-RULE,(OR,((NETWORK,tcp),(DST-PORT,53))),a"; "MATCH,Proxy"].

Lemma config_rules_evaluate_witness :
  ∃ subRules rules,
    parseSubRules small_world proxy_names ∅ sub_sections = Ret (Ok subRules) ∧
    parseRules small_world proxy_names ∅ lines (dom subRules) "rules" = Ret (Ok rules) ∧
    ∃ F, ∀ fuel, (F ≤ fuel)%nat →
      Forall (λ r, ∀ c, ∃ answer, Match small_world no_helper subRules fuel r c = Ret answer) rules.
Proof.
  destruct (config_rules_evaluate small_world proxy_names ∅ sub_sections lines small_world_prefix
    small_world_returns)
    as (res & Hres & Hall).
  destruct res as [subRules|e]; [|by vm_compute in Hres].
  destruct (Hall subRules eq_refl) as (res' & Hres' & Hrules).
  assert (∃ m, parseSubRules small_world proxy_names ∅ sub_sections = Ret (Ok m) ∧
    ∃ rules, parseRules small_world proxy_names ∅ lines (dom m) "rules" = Ret (Ok rules)) as (m & Hm & rules & Hr).
  { eexists. split; [vm_compute; reflexivity|]. eexists. vm_compute. reflexivity. }
  rewrite Hres in Hm. injection Hm as ->. rewrite Hres' in Hr. injection Hr as ->.
  exists m, rules. split; [exact Hres|]. split; [exact Hres'|]. exact (Hrules rules eq_refl unit no_helper).
Defined.

(** A configuration with a cycle is refused. *)
Example cyclic_config :
  parseSubRules small_world proxy_names ∅ [("a", ["SUB-RULE,(NETWORK,tcp),a"])] =
    Ret (Err (ErrMsg "sub-rule error: circular references [a->a]")).
Proof. vm_compute. reflexivity. Qed.

End Examples.
