(* ===== verification/RuleProvider.v ===== *)
(** * Rule providers ([rules/provider], [constant/provider])

    A provider holds the rules of a RULE-SET rule.  Its strategy depends on the
    behavior: a succinct set of domains, a set of prefixes, or a list of rules.  The
    rules come from a text file, a YAML file, a list in the configuration, or the
    binary form MRS.

    What is outside of the repository is a class: the parser of prefixes, the YAML
    library, the zstd library and the sorting of [golang.org/x/exp/slices]. *)

From Stdlib Require Import Ascii.
From stdpp Require Import sorting.
From S2P Require Import Prelude Wire GoStrings Runes NetIP Metadata DomainTrie Louds DomainSet SetTrie DomainMap.
From S2P Require Import SetBin IpCidr Rules RuleParser.

(** ** Behaviors and formats *)

Module P.
Inductive RuleBehavior : Type := Domain | IPCIDR | Classical.
Inductive RuleFormat : Type := YamlRule | TextRule | MrsRule.

#[global] Instance RuleBehavior_eq_dec : EqDecision RuleBehavior.
Proof. solve_decision. Defined.
#[global] Instance RuleFormat_eq_dec : EqDecision RuleFormat.
Proof. solve_decision. Defined.
End P.

Definition RuleBehavior_String (rt : P.RuleBehavior) : string :=
  match rt with P.Domain => "Domain" | P.IPCIDR => "IPCIDR" | P.Classical => "Classical" end.

Definition RuleBehavior_Byte (rt : P.RuleBehavior) : Z :=
  match rt with P.Domain => 0 | P.IPCIDR => 1 | P.Classical => 2 end.

Definition ParseBehavior (s : string) : result P.RuleBehavior :=
  if bool_decide (s = "domain") then Ok P.Domain
  else if bool_decide (s = "ipcidr") then Ok P.IPCIDR
  else if bool_decide (s = "classical") then Ok P.Classical
  else Err (ErrMsg ("unsupported behavior type: " +:+ s)).

Definition RuleFormat_String (rf : P.RuleFormat) : string :=
  match rf with P.YamlRule => "YamlRule" | P.TextRule => "TextRule" | P.MrsRule => "MrsRule" end.

Definition ParseRuleFormat (s : string) : result P.RuleFormat :=
  if bool_decide (s = "") || bool_decide (s = "yaml") then Ok P.YamlRule
  else if bool_decide (s = "text") then Ok P.TextRule
  else if bool_decide (s = "mrs") then Ok P.MrsRule
  else Err (ErrMsg ("unsupported format type: " +:+ s)).

(** ** What is outside *)

(** [RulePayload]. *)
Record RulePayload := mkRulePayload { Payload_ : list string; Rules_ : list string }.

Class ProviderLib := {
  ParsePrefix_ : string → result Prefix;              (* netip.ParsePrefix *)
  PrefixText : Prefix → string;                       (* Prefix.String *)
  sizeof_IPRange : Z;
  (* yaml.Unmarshal into a schema: the schema after it, and whether there was no error *)
  yaml_Unmarshal : list Z → RulePayload → RulePayload * bool;
  (* zstd: the bytes that a reader gives, and the bytes that a closed encoder wrote *)
  zstd_NewReader : list Z → result (list Z);
  zstd_Encode : list Z → list Z;
  SortFunc : (string → string → Z) → list string → list string;   (* slices.SortFunc *)
  Sort_ : list string → list string;                              (* slices.Sort *)
}.

Definition nil_pointer : string := "invalid memory address or nil pointer dereference".

Section provider.
Context {bitmap : BitmapLib} {netipx : NetIPX} {plib : ProviderLib}.

(** ** Domains *)

Record domainStrategy := mkDomainStrategy {
  d_count : Z;
  domainSetBuilder : DomainSetBuilder;
  domainSet : option DomainSet;
}.

Definition NewDomainStrategy : domainStrategy := mkDomainStrategy 0 newBuilder None.

Definition domain_Match (d : domainStrategy) (m : Metadata) : outcome bool :=
  match domainSet d with
  | None => Ret false
  | Some ss => Has (Some ss) (RuleHost m)
  end.

Definition domain_Reset (d : domainStrategy) : domainStrategy :=
  mkDomainStrategy 0 (builder_Reset (domainSetBuilder d)) None.

Definition domain_Insert (d : domainStrategy) (rule : string) : outcome domainStrategy :=
  if GoStrings.Contains rule "/" then Ret d
  else
    r ← builder_Insert (domainSetBuilder d) rule;
    match r with
    | inl _ => Ret d
    | inr b => Ret (mkDomainStrategy (d_count d + 1) b (domainSet d))
    end.

Definition domain_FinishInsert (d : domainStrategy) : outcome domainStrategy :=
  '(ss, b) ← Build (Some (domainSetBuilder d));
  Ret (mkDomainStrategy (d_count d) (default newBuilder b) ss).

(** ** Prefixes *)

Record ipcidrStrategy := mkIpcidrStrategy {
  i_count : Z;
  cidrSet : option IpCidrSet;
}.

Definition NewIPCidrStrategy : ipcidrStrategy := mkIpcidrStrategy 0 None.

(** [Match] after the address was resolved. *)
Definition ipcidr_Match (i : ipcidrStrategy) (m : Metadata) : bool :=
  match cidrSet i with
  | None => false
  | Some set => IsContain set (DstIP m)
  end.

Definition ipcidr_Reset (i : ipcidrStrategy) : ipcidrStrategy := mkIpcidrStrategy 0 (Some NewIpCidrSet).

Definition ipcidr_Insert (i : ipcidrStrategy) (rule : string) : outcome ipcidrStrategy :=
  match cidrSet i with
  | None =>
    match ParsePrefix_ rule with
    | Err _ => Ret i
    | Ok prefix => if Range_IsValid (RangeOfPrefix prefix) then Panic nil_pointer else Ret i
    end
  | Some set =>
    match AddIpCidrForString ParsePrefix_ PrefixText set rule with
    | Err _ => Ret i
    | Ok set => Ret (mkIpcidrStrategy (i_count i + 1) (Some set))
    end
  end.

Definition ipcidr_FinishInsert (i : ipcidrStrategy) : outcome ipcidrStrategy :=
  match cidrSet i with
  | None => Panic nil_pointer
  | Some set => Ret (mkIpcidrStrategy (i_count i) (Some (Merge set).1))
  end.

(** ** Rules *)

(** [ParseRuleFunc]; it may be nil. *)
Abbreviation ParseRuleFunc := (option (rulePayload → outcome (result Rule))).

Record classicalStrategy := mkClassicalStrategy {
  c_rules : list Rule;
  c_count : Z;
  c_parse : ParseRuleFunc;
}.

Definition NewClassicalStrategy (parse : ParseRuleFunc) : classicalStrategy := mkClassicalStrategy [] 0 parse.

Definition classical_Reset (c : classicalStrategy) : classicalStrategy := mkClassicalStrategy [] 0 (c_parse c).

Definition classical_payloadToRule (c : classicalStrategy) (rule : string) : outcome (result Rule) :=
  let p := ParseRulePayload rule false in
  if bool_decide (tp p = "MATCH") || bool_decide (tp p = "RULE-SET") || bool_decide (tp p = "SUB-RULE") then
    Ret (Err (ErrMsg ("unsupported rule type on classical rule-set: " +:+ tp p)))
  else
    match c_parse c with
    | None => Panic nil_pointer
    | Some parse => parse p
    end.

Definition classical_Insert (c : classicalStrategy) (rule : string) : outcome classicalStrategy :=
  r ← classical_payloadToRule c rule;
  match r with
  | Err _ => Ret c
  | Ok r => Ret (mkClassicalStrategy (c_rules c ++ [r]) (c_count c + 1) (c_parse c))
  end.

(** The nesting of logic rules. *)
Fixpoint depth (r : Rule) : nat :=
  match r with
  | Logic _ _ _ rules => S (list_max (depth <$> rules))
  | _ => 0
  end.

Section classical_match.
Context (w : World) {S : Type} (helper : RuleMatchHelper S).

Fixpoint classical_loop (rules : list Rule) (c : Metadata * S) : outcome (bool * (Metadata * S)) :=
  match rules with
  | [] => Ret (false, c)
  | rule :: rules =>
    res ← Match w helper ∅ (Datatypes.S (depth rule)) rule c;
    let '((m, _), c) := (res : (bool * string) * (Metadata * S)) in
    if m then Ret (true, c) else classical_loop rules c
  end.
End classical_match.

(** ** Strategies *)

Inductive ruleStrategy : Type :=
| SDomain (d : domainStrategy)
| SIPCidr (i : ipcidrStrategy)
| SClassical (c : classicalStrategy).

Definition Behavior (s : ruleStrategy) : P.RuleBehavior :=
  match s with SDomain _ => P.Domain | SIPCidr _ => P.IPCIDR | SClassical _ => P.Classical end.

Definition strategy_Match (w : World) {S} (helper : RuleMatchHelper S) (s : ruleStrategy) (c : Metadata * S) :
    outcome (bool * (Metadata * S)) :=
  match s with
  | SDomain d => b ← domain_Match d c.1; Ret (b, c)
  | SIPCidr i => let c := call_ResolveIP helper c in Ret (ipcidr_Match i c.1, c)
  | SClassical cl => classical_loop w helper (c_rules cl) c
  end.

Definition Count (s : ruleStrategy) : Z :=
  match s with SDomain d => d_count d | SIPCidr i => i_count i | SClassical c => c_count c end.

Definition Reset_ (s : ruleStrategy) : ruleStrategy :=
  match s with
  | SDomain d => SDomain (domain_Reset d)
  | SIPCidr i => SIPCidr (ipcidr_Reset i)
  | SClassical c => SClassical (classical_Reset c)
  end.

Definition strategy_Insert (s : ruleStrategy) (rule : string) : outcome ruleStrategy :=
  match s with
  | SDomain d => SDomain <$> domain_Insert d rule
  | SIPCidr i => SIPCidr <$> ipcidr_Insert i rule
  | SClassical c => SClassical <$> classical_Insert c rule
  end.

Definition FinishInsert (s : ruleStrategy) : outcome ruleStrategy :=
  match s with
  | SDomain d => SDomain <$> domain_FinishInsert d
  | SIPCidr i => SIPCidr <$> ipcidr_FinishInsert i
  | SClassical c => Ret s
  end.

Definition newStrategy (behavior : P.RuleBehavior) (parse : ParseRuleFunc) : ruleStrategy :=
  match behavior with
  | P.Domain => SDomain NewDomainStrategy
  | P.IPCIDR => SIPCidr NewIPCidrStrategy
  | P.Classical => SClassical (NewClassicalStrategy parse)
  end.

(** ** Files of rules *)

Definition ErrNoPayload : goerr := ErrMsg "file must have a `payload` field".
Definition ErrInvalidFormat : goerr := ErrMsg "invalid format".

(** [bytes.IndexByte]. *)
Fixpoint IndexByte (l : list Z) (c : Z) : Z :=
  match l with
  | [] => -1
  | x :: l => if x =? c then 0 else let i := IndexByte l c in if i <? 0 then -1 else i + 1
  end.

(** The rule of a line of text; the empty string when there is none. *)
Definition text_rule (line : list Z) : string :=
  let str := TrimSpace (of_bytes line) in
  if (String.length str =? 0)%nat then ""
  else if HasPrefix str "#" then ""
  else if HasPrefix str "//" then ""
  else str.

(** What is kept from the lines of a YAML file. *)
Record yamlState := mkYaml {
  firstLineBuffer : list Z;
  firstLineLength : Z;
  schema : RulePayload;
}.

Definition newYaml : yamlState := mkYaml [] 0 (mkRulePayload [] []).

(** The line that tests for the head of the payload. *)
Definition test_line : list Z := sbytes "  - ''".

Definition yaml_rule (y : yamlState) (line : list Z) : yamlState * string :=
  let trimLine := TrimSpace (of_bytes line) in
  if (String.length trimLine =? 0)%nat then (y, "")
  else if HasPrefix trimLine "#" then (y, "")
  else
    let buf := firstLineBuffer y ++ line in
    if firstLineLength y =? 0 then
      let '(sc, ok) := yaml_Unmarshal (buf ++ test_line) (schema y) in
      if ok && negb (bool_decide (Rules_ sc = []) && bool_decide (Payload_ sc = []))
      then (mkYaml buf (len buf) sc, "")
      else (mkYaml [] 0 sc, "")
    else
      let '(sc, ok) := yaml_Unmarshal buf (schema y) in
      let y := mkYaml (take (Z.to_nat (firstLineLength y)) buf) (firstLineLength y) sc in
      if negb ok then (y, "")
      else
        let str := default "" (head (Rules_ sc)) in
        let str := match Payload_ sc with p :: _ => p | [] => str end in
        (y, str).

(** The loop over the lines; every round takes a byte at least. *)
Fixpoint parse_lines (fuel : nat) (buf : list Z) (format : P.RuleFormat) (s : Z) (y : yamlState)
    (strategy : ruleStrategy) : outcome (result ruleStrategy) :=
  match fuel with
  | O => OutOfFuel
  | S fuel =>
    if s <? len buf then
      line ← slice buf s (len buf);
      let i := IndexByte line 10 in
      if (i <? 0) && ((firstLineLength y =? 0) && bool_decide (format = P.YamlRule))
      then Ret (Err ErrNoPayload)
      else
        line ← (if 0 <=? i then slice buf s (i + s + 1) else Ret line);
        let s := if 0 <=? i then i + s + 1 else len buf in
        let next y str :=
          if bool_decide (str = "") then parse_lines fuel buf format s y strategy
          else
            strategy ← strategy_Insert strategy str;
            parse_lines fuel buf format s y strategy in
        match format with
        | P.TextRule => next y (text_rule line)
        | P.YamlRule => let '(y, str) := yaml_rule y line in next y str
        | P.MrsRule => Ret (Err ErrInvalidFormat)
        end
    else Ret (Ok strategy)
  end.

(** ** The binary form *)

Definition domain_FromMrs (d : domainStrategy) (count : Z) : rd domainStrategy :=
  domainSet ← ReadDomainSetBin;
  mret (mkDomainStrategy count (domainSetBuilder d) (Some domainSet)).

Definition ipcidr_FromMrs (i : ipcidrStrategy) (count : Z) : rd ipcidrStrategy :=
  cidrSet ← ReadIpCidrSet sizeof_IPRange;
  mret (mkIpcidrStrategy count (Some cidrSet)).

(** 'M', 'R', 'S' and the version. *)
Definition MrsMagicBytes : list Z := [77; 82; 83; 1].

(** The stream of an MRS file. *)
Definition read_mrs (strategy : ruleStrategy) : rd ruleStrategy :=
  header ← ReadFull 4;
  if negb (bool_decide (header = MrsMagicBytes)) then rfail (ErrMsg "invalid MrsMagic bytes")
  else
    _behavior ← ReadFull 1;
    if negb (bool_decide (_behavior = [RuleBehavior_Byte (Behavior strategy)]))
    then rfail (ErrMsg "invalid behavior")
    else
      count ← ReadInt64;
      length ← ReadInt64;
      if length <? 0 then rfail (ErrMsg "length is invalid")
      else
        _ ← (if 0 <? length then
          _ ← makeslice 1 length;
          extra ← ReadFull (Z.to_nat length);
          mret tt
        else mret tt);
        match strategy with
        | SDomain d => d ← domain_FromMrs d count; mret (SDomain d)
        | SIPCidr i => i ← ipcidr_FromMrs i count; mret (SIPCidr i)
        | SClassical _ => rfail ErrInvalidFormat
        end.

Definition rulesMrsParse (buf : list Z) (strategy : ruleStrategy) : outcome (result ruleStrategy) :=
  match strategy with
  | SClassical _ => Ret (Err ErrInvalidFormat)
  | _ =>
    match zstd_NewReader buf with
    | Err e => Ret (Err e)
    | Ok stream =>
      match read_mrs strategy stream with
      | Got strategy _ => Ret (Ok strategy)
      | Fail e => Ret (Err e)
      | Crash msg => Panic msg
      end
    end
  end.

(** ** Parsing *)

Definition rulesParse (buf : list Z) (strategy : ruleStrategy) (format : P.RuleFormat) :
    outcome (result ruleStrategy) :=
  let strategy := Reset_ strategy in
  match format with
  | P.MrsRule => rulesMrsParse buf strategy
  | _ =>
    r ← parse_lines (S (length buf)) buf format 0 newYaml strategy;
    match r with
    | Err e => Ret (Err e)
    | Ok strategy =>
      strategy ← FinishInsert strategy;
      Ret (Ok strategy)
    end
  end.

Fixpoint inline_loop (rs : list string) (strategy : ruleStrategy) : outcome ruleStrategy :=
  match rs with
  | [] => Ret strategy
  | r :: rs =>
    if bool_decide (r = "") then inline_loop rs strategy
    else
      strategy ← strategy_Insert strategy r;
      inline_loop rs strategy
  end.

Definition rulesParseInline (rs : list string) (strategy : ruleStrategy) : outcome ruleStrategy :=
  let strategy := Reset_ strategy in
  strategy ← inline_loop rs strategy;
  FinishInsert strategy.

(** ** Conversion *)

(** [strings.Compare]. *)
Definition Compare (a b : string) : Z :=
  if bool_decide (a = b) then 0 else if bytes_le (sbytes a) (sbytes b) then -1 else 1.

(** [strings.TrimPrefix(s, ".")]. *)
Definition TrimDot (s : string) : string :=
  match s with
  | String "." t => t
  | _ => s
  end.

Definition compare_domains (left right : string) : Z := Compare (TrimDot left) (TrimDot right).

(** The loop that puts an entry and its suffix entry together. *)
Fixpoint merge_pairs (keys : list string) : list string :=
  match keys with
  | [] => []
  | key :: rest =>
    match rest with
    | [] => [key]
    | key' :: rest' =>
      if bool_decide (TrimDot key = TrimDot key') then ("+." +:+ TrimDot key) :: "" :: merge_pairs rest'
      else key :: merge_pairs rest
    end
  end.

Definition domain_DumpMrs {S} (f : string → S → bool * S) (d : domainStrategy) (s : S) : outcome S :=
  match domainSet d with
  | None => Ret s
  | Some ss =>
    keys ← set_Foreach collect_pattern (Some ss) [];
    let keys := SortFunc compare_domains keys in
    let keys := filter (λ key, key ≠ "") (merge_pairs keys) in
    let keys := Sort_ keys in
    Ret (visit_all f keys s).2
  end.

Definition ipcidr_DumpMrs {S} (f : string → S → bool * S) (i : ipcidrStrategy) (s : S) : S :=
  match cidrSet i with
  | None => s
  | Some set => cidr_Foreach (λ prefix s, f (PrefixText prefix) s) set s
  end.

Definition domain_WriteMrs {W} `{!Writer W} (w : W) (d : domainStrategy) : result W :=
  match domainSet d with
  | None => Err (ErrMsg "nil domainSet")
  | Some ss => set_WriteBin w ss
  end.

Definition ipcidr_WriteMrs {W} `{!Writer W} (w : W) (i : ipcidrStrategy) : result W :=
  match cidrSet i with
  | None => Err (ErrMsg "nil cidrSet")
  | Some set => cidr_WriteBin w set
  end.

(** What is written to the encoder. *)
Definition write_mrs (behavior : P.RuleBehavior) (strategy : ruleStrategy) (encoder : list Z) :
    result (list Z) :=
  encoder ← Write encoder MrsMagicBytes;
  encoder ← Write encoder [RuleBehavior_Byte behavior];
  encoder ← WriteBE 8 encoder (Count strategy);
  encoder ← WriteBE 8 encoder 0;
  encoder ← Write encoder [];
  match strategy with
  | SDomain d => domain_WriteMrs encoder d
  | SIPCidr i => ipcidr_WriteMrs encoder i
  | SClassical _ => Err ErrInvalidFormat
  end.

(** [fmt.Fprintln(w, key)] for the keys: an error ends the loop, with the writer as it
    was before. *)
Definition print_key {W} `{!Writer W} (key : string) (w : W) : bool * W :=
  match Write w (sbytes key ++ [10]) with
  | Ok w => (true, w)
  | Err _ => (false, w)
  end.

Definition DumpMrs {S} (f : string → S → bool * S) (strategy : ruleStrategy) (s : S) : outcome S :=
  match strategy with
  | SDomain d => domain_DumpMrs f d s
  | SIPCidr i => Ret (ipcidr_DumpMrs f i s)
  | SClassical _ => Ret s
  end.

Definition ConvertToMrs {W} `{!Writer W} (buf : list Z) (behavior : P.RuleBehavior)
    (format : P.RuleFormat) (w : W) : outcome (result W) :=
  r ← rulesParse buf (newStrategy behavior None) format;
  match r with
  | Err e => Ret (Err e)
  | Ok strategy =>
    if Count strategy =? 0 then Ret (Err (ErrMsg "empty rule"))
    else
      match strategy with
      | SClassical _ => Ret (Err ErrInvalidFormat)
      | _ =>
        if bool_decide (format = P.MrsRule) then
          w ← DumpMrs print_key strategy w;
          Ret (Ok w)
        else
          Ret (stream ← write_mrs behavior strategy []; Write w (zstd_Encode stream))
      end
  end.

(** ** Providers *)

Record baseProvider := mkProvider {
  p_behavior : P.RuleBehavior;
  p_strategy : option ruleStrategy;
}.

Definition provider_Count (bp : baseProvider) : outcome Z :=
  match p_strategy bp with None => Panic nil_pointer | Some s => Ret (Count s) end.

Definition provider_Match (w : World) {S} (helper : RuleMatchHelper S) (bp : baseProvider) (c : Metadata * S) :
    outcome (bool * (Metadata * S)) :=
  match p_strategy bp with
  | None => Ret (false, c)
  | Some s => strategy_Match w helper s c
  end.

Definition NewInlineProvider (behavior : P.RuleBehavior) (payload : list string) (parse : ParseRuleFunc) :
    outcome baseProvider :=
  strategy ← rulesParseInline payload (newStrategy behavior parse);
  Ret (mkProvider behavior (Some strategy)).

(** A provider with a file, before the file is read. *)
Definition NewRuleSetProvider (behavior : P.RuleBehavior) (payload : list string) (parse : ParseRuleFunc) :
    outcome baseProvider :=
  let strategy := newStrategy behavior parse in
  strategy ← (if bool_decide (payload = []) then Ret strategy else rulesParseInline payload strategy);
  Ret (mkProvider behavior (Some strategy)).

(** [onUpdate] with what the parser of the fetcher gives for the bytes of the file. *)
Definition provider_update (bp : baseProvider) (format : P.RuleFormat) (parse : ParseRuleFunc) (bytes : list Z) :
    outcome (result baseProvider) :=
  r ← rulesParse bytes (newStrategy (p_behavior bp) parse) format;
  match r with
  | Err e => Ret (Err e)
  | Ok strategy => Ret (Ok (mkProvider (p_behavior bp) (Some strategy)))
  end.

(** The providers of the tunnel, for rules that are [n] providers deep. *)
Fixpoint serve (table : gmap string baseProvider) (w : World) (n : nat) : World := {|
  regex_Compile := regex_Compile w;
  regex_MatchString := regex_MatchString w;
  GeodataMode := GeodataMode w;
  InitGeo := InitGeo w;
  LoadGeoIPMatcher := LoadGeoIPMatcher w;
  LoadGeoSiteMatcher := LoadGeoSiteMatcher w;
  LookupCode := LookupCode w;
  LookupASN := LookupASN w;
  RuleProviders := λ name,
    match table !! name with
    | None => None
    | Some bp => Some (λ S helper c,
        match n with
        | O => OutOfFuel
        | Datatypes.S n => provider_Match (serve table w n) helper bp c
        end)
    end;
  ParsePrefix := ParsePrefix w;
  Prefix_String := Prefix_String w;
  isLinux := isLinux w;
|}.

(** [MatchDomain] and [MatchIp] of a RULE-SET rule. *)
Definition RuleSet_MatchDomain (w : World) (name : string) (isSrc noResolveIP : bool) (domain : string) :
    outcome bool :=
  res ← RuleSet_Match w (mkHelper None None None) name "" isSrc noResolveIP (set_Host domain zeroMetadata, tt);
  Ret res.1.1.

Definition RuleSet_MatchIp (w : World) (name : string) (isSrc noResolveIP : bool) (ip : Addr) : outcome bool :=
  res ← RuleSet_Match w (mkHelper None None None) name "" isSrc noResolveIP (set_DstIP ip zeroMetadata, tt);
  Ret res.1.1.
End provider.
Arguments ruleStrategy {netipx}.
Arguments baseProvider {netipx}.
