(* ===== verification/ProviderSpec.v ===== *)
(** * What rule providers do

    A text file gives the provider of the list of its rules, and a provider of domain
    patterns matches as the trie of these patterns.  Converting to the binary form and
    reading it back gives the same provider.  Providers may refer to each other
    through logic rules: evaluation ends when they do not refer in a circle, and does
    not when one refers to itself. *)

From Stdlib Require Import Ascii.
From stdpp Require Import sorting.
From S2P Require Import Prelude Wire GoStrings Runes NetIP Metadata DomainTrie Louds DomainSet SetTrie DomainMap.
From S2P Require Import SetBin IpCidr Rules RuleParser SubRules RuleProvider.

(** ** The lines of a file *)

(** Every line with its end; [cur] is the line that is being read. *)
Fixpoint file_lines (cur l : list Z) : list (list Z) :=
  match l with
  | [] => match cur with [] => [] | _ => [cur] end
  | x :: l => if x =? 10 then (cur ++ [x]) :: file_lines [] l else file_lines (cur ++ [x]) l
  end.

Lemma IndexByte_range l c : -1 ≤ IndexByte l c < Z.max 1 (len l).
Proof.
  induction l as [|x l IH]; cbn [IndexByte length]; [lia|].
  destruct (x =? c); [lia|]. destruct (Z.ltb_spec (IndexByte l c) 0); [lia|]. destruct l; simpl in *; lia.
Qed.

Lemma file_lines_none cur l :
  IndexByte l 10 < 0 → cur ++ l ≠ [] → file_lines cur l = [cur ++ l].
Proof.
  revert cur. induction l as [|x l IH]; intros cur Hi Hne; cbn [file_lines].
  { rewrite app_nil_r in *. by destruct cur. }
  cbn [IndexByte] in Hi. destruct (Z.eqb_spec x 10) as [->|]; [lia|].
  destruct (Z.ltb_spec (IndexByte l 10) 0); [|lia]. rewrite IH; [by rewrite <- app_assoc|done|by destruct cur].
Qed.

Lemma file_lines_some cur l i :
  IndexByte l 10 = Z.of_nat i →
  file_lines cur l = (cur ++ take (S i) l) :: file_lines [] (drop (S i) l) ∧ (i < length l)%nat.
Proof.
  revert cur i. induction l as [|x l IH]; intros cur i Hi; cbn [IndexByte] in Hi; [lia|].
  cbn [file_lines]. destruct (Z.eqb_spec x 10) as [->|].
  - assert (i = 0)%nat as -> by lia. split; [done|simpl; lia].
  - destruct (Z.ltb_spec (IndexByte l 10) 0); [lia|]. destruct i as [|i]; [lia|].
    destruct (IH (cur ++ [x]) i) as [-> Hlt]; [lia|]. split; [|simpl; lia]. by rewrite <- app_assoc.
Qed.

Lemma file_lines_total cur l : (sum_list (length <$> file_lines cur l) = length cur + length l)%nat.
Proof.
  revert cur. induction l as [|x l IH]; intros cur; cbn [file_lines].
  - destruct cur; csimpl; lia.
  - destruct (x =? 10); csimpl; rewrite IH, ?length_app; csimpl; lia.
Qed.

Section lines.
Context {bitmap : BitmapLib} {netipx : NetIPX} {plib : ProviderLib}.
Implicit Types st : ruleStrategy.

(** The rules of a text file. *)
Definition text_rules (buf : list Z) : list string := text_rule <$> file_lines [] buf.

Lemma parse_lines_text fuel buf s y st :
  0 ≤ s ≤ len buf → len buf - s < Z.of_nat fuel →
  parse_lines fuel buf P.TextRule s y st =
    (st ← inline_loop (text_rules (drop (Z.to_nat s) buf)) st; Ret (Ok st)).
Proof.
  revert s st. induction fuel as [|fuel IH]; intros s st Hs Hf; [lia|]. cbn [parse_lines].
  destruct (Z.ltb_spec s (len buf)) as [Hlt|Hge].
  2:{ by rewrite drop_ge by lia. }
  rewrite slice_Ret by lia. cbn [mbind outcome_bind].
  rewrite (take_ge (drop _ _)) by (rewrite length_drop; lia). set (l := drop (Z.to_nat s) buf).
  assert (l ≠ []) as Hl.
  { intros Hl. apply (f_equal length) in Hl. unfold l in Hl. rewrite length_drop in Hl. simpl in Hl. lia. }
  rewrite (bool_decide_false (P.TextRule = P.YamlRule)) by done. rewrite !andb_false_r. cbv iota.
  unfold text_rules. destruct (Z.leb_spec 0 (IndexByte l 10)) as [Hi|Hi].
  - destruct (Z_of_nat_complete _ Hi) as [i Hi']. rewrite Hi'.
    destruct (file_lines_some [] l i Hi') as [-> Hil]. unfold l in Hil. rewrite length_drop in Hil.
    rewrite slice_Ret by lia. cbn [mbind outcome_bind].
    replace (Z.to_nat (Z.of_nat i + s + 1 - s)) with (S i) by lia. fold l.
    assert (∀ st, parse_lines fuel buf P.TextRule (Z.of_nat i + s + 1) y st =
      (st ← inline_loop (text_rules (drop (S i) l)) st; Ret (Ok st))) as Hrec.
    { intros st'. rewrite IH by lia. unfold l. rewrite drop_drop. by replace (Z.to_nat _) with (Z.to_nat s + S i)%nat by lia. }
    rewrite fmap_cons. cbn [inline_loop app]. case_bool_decide; [apply Hrec|].
    destruct (strategy_Insert st _); cbn [mbind outcome_bind]; [apply Hrec|done..].
  - rewrite (file_lines_none [] l) by (done || lia). cbn [mbind outcome_bind].
    assert (∀ st, parse_lines fuel buf P.TextRule (len buf) y st = Ret (Ok st)) as Hrec.
    { intros st'. destruct fuel; [lia|]. cbn [parse_lines]. by rewrite Z.ltb_irrefl. }
    rewrite fmap_cons. cbn [inline_loop app]. case_bool_decide; [apply Hrec|].
    destruct (strategy_Insert st _); cbn [mbind outcome_bind]; [apply Hrec|done..].
Qed.

(** A text file gives what the list of its rules gives. *)
Lemma rulesParse_text buf st :
  rulesParse buf st P.TextRule = (st ← rulesParseInline (text_rules buf) st; Ret (Ok st)).
Proof.
  unfold rulesParse, rulesParseInline. rewrite parse_lines_text by lia. rewrite drop_0.
  by destruct (inline_loop _ _).
Qed.
End lines.

(** ** Providers of domains *)

(** The rules that are offered to the builder, and those that it takes. *)
Definition domain_rules (rs : list string) : list string := filter (λ r, GoStrings.Contains r "/" = false) rs.

Definition accepted_domain (r : string) : bool :=
  match ValidAndSplitDomain r with inl _ => false | inr _ => true end.

Definition domain_count (rs : list string) : Z := len (filter (λ r, accepted_domain r = true) (domain_rules rs)).

Section domains.
Context {bitmap : BitmapLib} {bspec : BitmapSpec bitmap} {netipx : NetIPX} {plib : ProviderLib}.

Lemma builder_Insert_accepts b r :
  (∃ e, builder_Insert b r = Ret (inl e) ∧ accepted_domain r = false) ∨
  ∃ b', builder_Insert b r = Ret (inr b') ∧ accepted_domain r = true.
Proof using Type.
  destruct (builder_Insert_returns b r) as [[e|b'] H]; [left; exists e|right; exists b']; (split; [done|]);
    unfold builder_Insert, accepted_domain in *; destruct (ValidAndSplitDomain r); try done;
    by repeat (step H || destruct (bool_decide _)).
Qed.

Lemma inline_domains rs d :
  ∃ b, insert_all (domainSetBuilder d) (domain_rules rs) = Ret b ∧
    inline_loop rs (SDomain d) = Ret (SDomain (mkDomainStrategy (d_count d + domain_count rs) b (domainSet d))).
Proof using Type.
  revert d. induction rs as [|r rs IH]; intros d; cbn [inline_loop].
  { exists (domainSetBuilder d). split; [done|]. destruct d. unfold domain_count. simpl. by rewrite Z.add_0_r. }
  unfold domain_count, domain_rules in *. rewrite filter_cons. case_bool_decide as Hr.
  { subst r. rewrite decide_True by done. rewrite filter_cons. cbn [insert_all]. apply IH. }
  cbn [strategy_Insert]. unfold domain_Insert. destruct (GoStrings.Contains r "/") eqn:Hc.
  { rewrite decide_False by done. apply IH. }
  rewrite decide_True by done. rewrite filter_cons. cbn [insert_all].
  destruct (builder_Insert_accepts (domainSetBuilder d) r) as [(e & -> & Ha)|(b' & -> & Ha)];
    cbn [mbind outcome_bind fmap outcome_fmap]; rewrite Ha.
  - rewrite decide_False by done. apply IH.
  - rewrite decide_True by done.
    destruct (IH (mkDomainStrategy (d_count d + 1) b' (domainSet d))) as (b & Hb & Hl). simpl in Hb, Hl.
    exists b. split; [done|]. rewrite Hl. do 3 f_equal. simpl. lia.
Qed.

(** *** The size of the keys *)

Lemma encodeRune_length r : (length (encodeRune r) ≤ 4)%nat.
Proof using Type. unfold encodeRune. repeat case_match; simpl; lia. Qed.

Lemma runes_length l : (length (runes l) ≤ length l)%nat.
Proof using Type.
  cut (∀ n l, (length l < n)%nat → (length (runes l) ≤ length l)%nat); [eauto|]. clear. induction n as [|n IH]; [lia|].
  intros [|b0 l] Hl; [done|]. cbn [runes]. simpl in Hl.
  repeat case_match; simplify_eq; cbn [length] in *;
    repeat match goal with |- context [runes ?x] => pose proof (IH x ltac:(simpl; lia)); generalize dependent (runes x); intros end;
    simpl in *; lia.
Qed.

Lemma Reverse_length s : (length (sbytes (Reverse s)) ≤ 4 * String.length s)%nat.
Proof using Type.
  unfold Reverse. rewrite <- sbytes_length. generalize (sbytes s). intros l.
  assert (∀ l, length (sbytes (of_bytes l)) = length l) as ->.
  { induction l0; simpl; congruence. }
  unfold reverse_runes. etrans; [|apply Nat.mul_le_mono_l, runes_length].
  rewrite <- (length_reverse (runes l)). generalize (reverse (runes l)). intros rs.
  induction rs as [|r rs IH]; csimpl; [lia|]. rewrite length_app. pose proof (encodeRune_length r). lia.
Qed.

Lemma Join_cons_length p q ps :
  String.length (joinDomain (p :: q :: ps)) = (String.length p + 1 + String.length (joinDomain (q :: ps)))%nat.
Proof using Type.
  unfold joinDomain. change (Join domainStep (p :: q :: ps)) with (p +:+ String domainStep (Join domainStep (q :: ps))).
  rewrite string_app_length. simpl. lia.
Qed.

Lemma builder_insert_total b p ps b' :
  builder_insert b (p :: ps) = Ret b' →
  (total (keys b') ≤ total (keys b) + 4 * (1 + String.length (joinDomain (p :: ps))))%nat.
Proof using Type.
  intros [= <-]. unfold total. simpl keys. rewrite fmap_app, sum_list_app. csimpl.
  pose proof (Reverse_length (joinDomain ((if bool_decide (p = dotWildcard) then complexWildcard else p) :: ps))) as Hr.
  case_bool_decide as Hp; [|lia]. subst p. destruct ps as [|q ps]; [simpl in *; lia|].
  rewrite Join_cons_length in *. simpl in *. lia.
Qed.

Lemma builder_Insert_total b d b' :
  builder_Insert b d = Ret (inr b') → (total (keys b') ≤ total (keys b) + 8 * (1 + String.length d))%nat.
Proof using Type.
  intros H. unfold builder_Insert in H. destruct (ValidAndSplitDomain d) as [e|parts] eqn:Hd; [done|].
  assert (String.length (joinDomain parts) = String.length d) as Hl.
  { rewrite (Valid_join _ _ Hd), <- !sbytes_length, sbytes_lower. apply length_fmap. }
  destruct (ValidAndSplit_cons _ _ Hd) as (p & ps & -> & _).
  change (idx (p :: ps) 0) with (Ret p) in H. cbn [mbind outcome_bind] in H. case_bool_decide as Hp.
  - destruct (Valid_labels _ _ _ Hd) as (_ & _ & Hne & _). destruct ps as [|q ps]; [naive_solver|].
    rewrite slice_Ret in H by (simpl; lia). cbn [mbind outcome_bind] in H.
    change (Z.to_nat 1) with 1%nat in H. simpl drop in H. rewrite take_ge in H by (simpl; lia).
    step H. step H. simplify_eq. apply builder_insert_total in E, E0. rewrite Join_cons_length in *. lia.
  - step H. simplify_eq. apply builder_insert_total in E. lia.
Qed.

Lemma insert_all_total b ds b' :
  insert_all b ds = Ret b' →
  (total (keys b') ≤ total (keys b) + 8 * sum_list ((λ d, 1 + String.length d) <$> ds))%nat.
Proof using Type.
  revert b. induction ds as [|d ds IH]; intros b H; cbn [insert_all] in H;
    [simplify_eq; lia|]. rewrite fmap_cons. cbn [sum_list sum_list_with id].
  destruct (builder_Insert b d) as [[e|b1]| |] eqn:E; cbn [mbind outcome_bind] in H; try done; apply IH in H; [lia|].
  apply builder_Insert_total in E. lia.
Qed.

Lemma substring_shorter n m s : (String.length (String.substring n m s) ≤ String.length s)%nat.
Proof using Type.
  revert n m. induction s as [|a s IH]; intros [|n] [|m]; cbn [String.substring String.length]; try lia.
  - specialize (IH 0%nat m). lia.
  - specialize (IH n 0%nat). lia.
  - specialize (IH n (S m)). lia.
Qed.

Lemma TrimSpace_length s : (String.length (TrimSpace s) ≤ String.length s)%nat.
Proof using Type.
  unfold TrimSpace. assert (∀ n s, (String.length (trim_left n s) ≤ String.length s)%nat) as Hl.
  { induction n as [|n IH]; intros t; cbn [trim_left]; [lia|]. destruct (List.find _ _); [|lia].
    etrans; [apply IH|apply substring_shorter]. }
  assert (∀ n s, (String.length (trim_right n s) ≤ String.length s)%nat) as Hr.
  { induction n as [|n IH]; intros t; cbn [trim_right]; [lia|]. destruct (List.find _ _); [|lia].
    etrans; [apply IH|apply substring_shorter]. }
  etrans; [apply Hr|apply Hl].
Qed.

Lemma text_rule_length line : (String.length (text_rule line) ≤ length line)%nat.
Proof using Type.
  unfold text_rule. assert (String.length (of_bytes line) = length line) as Hl.
  { induction line; simpl; congruence. }
  pose proof (TrimSpace_length (of_bytes line)). repeat case_match; simpl; lia.
Qed.

Lemma file_lines_ne cur l : Forall (λ line, line ≠ []) (file_lines cur l).
Proof using Type.
  revert cur. induction l as [|x l IH]; intros cur; cbn [file_lines].
  - destruct cur; repeat constructor. done.
  - destruct (x =? 10); [|apply IH]. constructor; [by destruct cur|apply IH].
Qed.

Lemma file_lines_count buf : (length (file_lines [] buf) ≤ length buf)%nat.
Proof using Type.
  pose proof (file_lines_total [] buf) as Ht. pose proof (file_lines_ne [] buf) as Hne. simpl in Ht. rewrite <- Ht.
  clear -Hne. induction Hne as [|l ls Hl _ IH]; csimpl; [lia|]. destruct l; [done|]. simpl. lia.
Qed.

Lemma text_rules_size buf :
  (sum_list ((λ d, 1 + String.length d) <$> domain_rules (text_rules buf)) ≤ 2 * length buf)%nat.
Proof using Type.
  unfold text_rules. pose proof (file_lines_total [] buf) as Ht. pose proof (file_lines_ne [] buf) as Hne.
  cbn [length] in Ht. rewrite Nat.add_0_l in Ht. rewrite <- Ht. clear Ht.
  induction Hne as [|line ls Hl _ IH]; [simpl; lia|]. rewrite !fmap_cons. unfold domain_rules in *.
  rewrite filter_cons. pose proof (text_rule_length line) as Hr.
  assert (0 < length line)%nat by (destruct line; simpl; [done|lia]).
  case_decide; rewrite ?fmap_cons; cbn [sum_list sum_list_with id]; lia.
Qed.

(** A text file of at most 32 MB gives keys for which the indexes are large enough. *)
Lemma text_fits buf b :
  len buf ≤ 2 ^ 25 → insert_all newBuilder (domain_rules (text_rules buf)) = Ret b → fits (keys b).
Proof using Type.
  intros Hb Hi. apply insert_all_total in Hi. pose proof (text_rules_size buf). unfold fits.
  change (total (keys newBuilder)) with 0%nat in Hi. lia.
Qed.

(** The provider of a text file of domains. *)
Lemma text_domains buf parse :
  ∃ b ss, insert_all newBuilder (domain_rules (text_rules buf)) = Ret b ∧
    Build (Some b) = Ret (ss, Some newBuilder) ∧
    rulesParse buf (newStrategy P.Domain parse) P.TextRule =
      Ret (Ok (SDomain (mkDomainStrategy (domain_count (text_rules buf)) newBuilder ss))).
Proof using bspec.
  rewrite rulesParse_text. unfold rulesParseInline. cbn [newStrategy Reset_].
  destruct (inline_domains (text_rules buf) (domain_Reset NewDomainStrategy)) as (b & Hb & ->). exists b.
  cbn [mbind outcome_bind FinishInsert fmap outcome_fmap]. unfold domain_FinishInsert. simpl domainSetBuilder.
  assert (∃ ss, Build (Some b) = Ret (ss, Some newBuilder)) as [ss Hss].
  { unfold Build. destruct (decide (keys b = [])) as [->|Hn]; [by exists None|].
    destruct (buildDomainSet_encodes None (keys b) tt Hn) as (ss & -> & _). by exists (Some ss). }
  exists ss. rewrite Hss. done.
Qed.
End domains.

(** ** Providers of prefixes *)

Section prefixes.
Context {bitmap : BitmapLib} {netipx : NetIPX} {nspec : NetIPXSpec netipx} {plib : ProviderLib}.

(** The prefixes that are added. *)
Definition prefix_rules (rs : list string) : list Prefix :=
  omap (λ r,
    if bool_decide (r = "") then None
    else match ParsePrefix_ r with
         | Ok p => if PrefixIsValid p then Some p else None
         | Err _ => None
         end) rs.

Lemma inline_prefixes rs n set :
  inline_loop rs (SIPCidr (mkIpcidrStrategy n (Some set))) =
    Ret (SIPCidr (mkIpcidrStrategy (n + len (prefix_rules rs))
      (Some (mkCidr (rr set ++ (RangeOfPrefix <$> prefix_rules rs)))))).
Proof using nspec.
  revert n set. induction rs as [|r rs IH]; intros n set; cbn [inline_loop].
  { destruct set. simpl. by rewrite Z.add_0_r, app_nil_r. }
  unfold prefix_rules. cbn [omap list_omap]. fold (prefix_rules rs). case_bool_decide as Hr; [apply IH|].
  cbn [strategy_Insert]. unfold ipcidr_Insert, AddIpCidrForString, AddIpCidr. cbn [cidrSet].
  destruct (ParsePrefix_ r) as [p|e]; cbn [mbind result_bind]; [|apply IH].
  rewrite RangeOfPrefix_valid. destruct (PrefixIsValid p); [|apply IH].
  cbn [fmap outcome_fmap mbind outcome_bind]. rewrite IH. do 3 f_equal.
  - simpl. lia.
  - simpl rr. by rewrite <- app_assoc.
Qed.

(** The provider of a text file of prefixes. *)
Lemma text_prefixes buf parse :
  let ps := prefix_rules (text_rules buf) in
  ∃ set, rulesParse buf (newStrategy P.IPCIDR parse) P.TextRule =
      Ret (Ok (SIPCidr (mkIpcidrStrategy (len ps) (Some set)))) ∧
    ∀ ip, IsContain set ip = existsb (λ p, PrefixContains p (WithZone ip "")) ps.
Proof using nspec.
  intros ps. rewrite rulesParse_text. unfold rulesParseInline. cbn [newStrategy Reset_].
  unfold ipcidr_Reset. rewrite inline_prefixes. fold ps. cbn [mbind outcome_bind FinishInsert].
  unfold ipcidr_FinishInsert. cbn [cidrSet i_count]. rewrite Z.add_0_l. unfold Merge, ToIPSet. simpl rr.
  destruct (IPSet_union (RangeOfPrefix <$> ps)) as (merged & Hm & Hc).
  { apply Forall_fmap, Forall_forall. intros p Hp. simpl. rewrite RangeOfPrefix_valid.
    unfold ps, prefix_rules in Hp. apply list_elem_of_omap in Hp as (r & _ & Hr). by repeat case_match; simplify_eq. }
  rewrite Hm. eexists. split; [done|]. intros ip. unfold IsContain, ToIPSet. simpl rr. rewrite Hc.
  clear Hm Hc. induction ps as [|p ps IH]; [done|]. csimpl. rewrite RangeOfPrefix_contains. by f_equal.
Qed.
End prefixes.

(** ** What RULE-SET rules match *)

Section ruleset.
Context {bitmap : BitmapLib} {bspec : BitmapSpec bitmap} {netipx : NetIPX} {nspec : NetIPXSpec netipx}
  {plib : ProviderLib}.
Context (w : World) (table : gmap string baseProvider) (subRules : gmap string (list Rule)).
Context {S : Type} (helper : RuleMatchHelper S).

(** A rule that looks at the destination. *)
Lemma ruleset_Match n fuel name adapter (noResolve : bool) bp c b c' :
  table !! name = Some bp →
  provider_Match (serve table w n)
    (if noResolve then mkHelper None (FindProcess helper) (CheckPassRule helper) else helper) bp c = Ret (b, c') →
  Match (serve table w (Datatypes.S n)) helper subRules (Datatypes.S fuel) (RuleSet name adapter false noResolve) c =
    Ret ((b, adapter), c').
Proof using Type.
  intros Hn Hm. cbn [Match leaf_Match]. unfold RuleSet_Match. cbn [serve RuleProviders]. rewrite Hn.
  destruct noResolve; by rewrite Hm.
Qed.

(** C8: a RULE-SET rule on a provider that was loaded from a text file, of at most 32 MB,
    of clean domain patterns (ASCII, no byte below the star) matches a connection whose
    host is a valid domain in ASCII exactly when the domain trie of the patterns finds
    the host; comments, blank lines and lines that are not accepted have no effect. *)
Theorem ruleset_text_domains n fuel name adapter noResolve parse buf bp bp' c labels :
  p_behavior bp = P.Domain → provider_update bp P.TextRule parse buf = Ret (Ok bp') →
  table !! name = Some bp' → len buf ≤ 2 ^ 25 →
  let patterns := domain_rules (text_rules buf) in
  Forall clean patterns → ValidAndSplitDomain (RuleHost c.1) = inr labels → hd "" labels ≠ "" →
  ascii_only (sbytes (RuleHost c.1)) →
  Match (serve table w (Datatypes.S n)) helper subRules (Datatypes.S fuel) (RuleSet name adapter false noResolve) c =
    Ret ((match Search (build New ((λ d, (d, tt)) <$> patterns)) (RuleHost c.1) with
          | Some _ => true
          | None => false
          end, adapter), c).
Proof using bspec.
  intros Hbeh Hup Hn Hbuf patterns Hc Hd Hh Ha. apply (ruleset_Match _ _ _ _ _ bp'); [done|].
  unfold provider_update in Hup. rewrite Hbeh in Hup.
  destruct (text_domains buf parse) as (b & ss & Hb & HB & Hp). rewrite Hp in Hup. cbn [mbind outcome_bind] in Hup.
  injection Hup as <-. unfold provider_Match. cbn [p_strategy strategy_Match domain_Match].
  assert (((λ d, (d, tt)) <$> patterns).*1 = patterns) as Hfst.
  { clear. induction patterns; csimpl; congruence. }
  destruct (Has_Search ((λ d, (d, tt)) <$> patterns) b (RuleHost c.1) labels) as (ss' & HB' & Hs);
    rewrite ?Hfst; try done; [by eapply text_fits|].
  rewrite HB in HB'. injection HB' as <-. unfold domain_Match. cbn [domainSet].
  destruct ss as [ss|]; [by rewrite Hs|]. cbn [Has] in Hs. injection Hs as <-. done.
Qed.

(** A RULE-SET rule on a provider that was loaded from a text file of prefixes
    matches exactly when one of the accepted prefixes contains the destination, which
    is resolved first unless the rule says not to. *)
Theorem ruleset_text_prefixes n fuel name adapter noResolve parse buf bp bp' c :
  p_behavior bp = P.IPCIDR → provider_update bp P.TextRule parse buf = Ret (Ok bp') →
  table !! name = Some bp' →
  let c' := if (noResolve : bool) then c else call_ResolveIP helper c in
  Match (serve table w (Datatypes.S n)) helper subRules (Datatypes.S fuel) (RuleSet name adapter false noResolve) c =
    Ret ((existsb (λ p, PrefixContains p (WithZone (DstIP c'.1) "")) (prefix_rules (text_rules buf)), adapter), c').
Proof using nspec.
  intros Hbeh Hup Hn c'. apply (ruleset_Match _ _ _ _ _ bp'); [done|].
  unfold provider_update in Hup. rewrite Hbeh in Hup.
  destruct (text_prefixes buf parse) as (set & Hp & Hc). rewrite Hp in Hup. cbn [mbind outcome_bind] in Hup.
  injection Hup as <-. unfold provider_Match. cbn [p_strategy strategy_Match].
  unfold ipcidr_Match. cbn [cidrSet]. rewrite Hc. by destruct noResolve.
Qed.
End ruleset.

(** ** The binary form *)

Section mrs.
Context {bitmap : BitmapLib} {bspec : BitmapSpec bitmap} {netipx : NetIPX} {nspec : NetIPXSpec netipx}
  {plib : ProviderLib}.

(** What the reader needs of a strategy: for a set of prefixes, that its ranges are
    not of mapped addresses and that there are not too many. *)
Definition mrs_writable (st : ruleStrategy) : Prop :=
  match st with
  | SDomain d => ∃ ss, domainSet d = Some ss ∧ bin_ok ss ∧ domainSetBuilder d = newBuilder
  | SIPCidr i => ∃ set, cidrSet i = Some set ∧ cidr_ok sizeof_IPRange set
  | SClassical _ => False
  end ∧ 0 ≤ Count st < 2 ^ 63.

Lemma ReadInt64_ok n s : 0 ≤ n < 2 ^ 63 → ReadInt64 (be 8 n ++ s) = Got n s.
Proof using Type.
  intros Hn. unfold ReadInt64. erewrite rd_bind_Got by (apply ReadBE_app; lia).
  rewrite wraps_small by lia. done.
Qed.

(** The body of a file. *)
Lemma write_body st behavior w :
  mrs_writable st → Behavior st = behavior →
  ∃ bs, match st with
        | SDomain d => domain_WriteMrs w d
        | SIPCidr i => ipcidr_WriteMrs w i
        | SClassical _ => Err ErrInvalidFormat
        end = Ok (w ++ bs) ∧
    ∀ rest parse,
      match Reset_ (newStrategy behavior parse) with
      | SDomain d => d ← domain_FromMrs d (Count st); mret (SDomain d)
      | SIPCidr i => i ← ipcidr_FromMrs i (Count st); mret (SIPCidr i)
      | SClassical _ => rfail ErrInvalidFormat
      end (bs ++ rest) = Got st rest.
Proof using nspec.
  intros [Hw _] <-. destruct st as [d|i|c]; [| |done].
  - destruct Hw as (ss & Hd & Hss & Hb). unfold domain_WriteMrs. rewrite Hd.
    destruct (codec_roundtrip ss w Hss) as (bs & -> & Hr). exists bs. split; [done|]. intros rest parse.
    cbn [newStrategy Reset_ Behavior]. unfold domain_FromMrs, mbind, rd_bind. rewrite Hr.
    destruct d as [n b s]. simpl in *. by subst.
  - destruct Hw as (set & Hi & Hset). unfold ipcidr_WriteMrs. rewrite Hi.
    destruct (codec_roundtrip set w Hset) as (bs & -> & Hr). exists bs. split; [done|]. intros rest parse.
    cbn [newStrategy Reset_ Behavior]. unfold ipcidr_FromMrs, mbind, rd_bind. rewrite Hr.
    destruct i as [n s]. simpl in *. by subst.
Qed.

Lemma write_mrs_read st behavior parse :
  mrs_writable st → Behavior st = behavior →
  ∃ stream, write_mrs behavior st [] = Ok stream ∧
    read_mrs (Reset_ (newStrategy behavior parse)) stream = Got st [].
Proof using nspec.
  intros Hw Hb. set (n := Count st). pose proof Hw as [_ Hn]. fold n in Hn.
  set (head := MrsMagicBytes ++ [RuleBehavior_Byte behavior] ++ be 8 n ++ be 8 0 ++ []).
  destruct (write_body st behavior head Hw Hb) as (bs & Hbs & Hr).
  exists (head ++ bs). split.
  - unfold write_mrs, WriteBE, Write, buffer_writer. cbn [mbind result_bind app].
    rewrite <- ?app_assoc. cbn [app]. exact Hbs.
  - unfold read_mrs, head. rewrite <- !app_assoc. rd_step. rewrite bool_decide_true by done. cbn [negb].
    rd_step. rewrite bool_decide_true by (by destruct behavior). cbn [negb].
    erewrite rd_bind_Got by (by apply ReadInt64_ok).
    erewrite rd_bind_Got by (apply ReadInt64_ok; lia).
    change (0 <? 0) with false. cbv iota. erewrite rd_bind_Got by done. cbn [app].
    specialize (Hr [] parse). rewrite app_nil_r in Hr. exact Hr.
Qed.

Hypothesis zstd : ∀ stream, zstd_NewReader (zstd_Encode stream) = Ok stream.

Lemma convert_read buf behavior format parse st :
  rulesParse buf (newStrategy behavior None) format = Ret (Ok st) → format ≠ P.MrsRule →
  Count st ≠ 0 → mrs_writable st → Behavior st = behavior →
  ∃ bs, ConvertToMrs buf behavior format [] = Ret (Ok bs) ∧
    rulesParse bs (newStrategy behavior parse) P.MrsRule = Ret (Ok st).
Proof using nspec zstd.
  intros Hp Hf Hc Hw Hb. destruct (write_mrs_read st behavior parse Hw Hb) as (stream & Hs & Hr).
  exists (zstd_Encode stream). unfold ConvertToMrs. rewrite Hp. cbn [mbind outcome_bind].
  rewrite (proj2 (Z.eqb_neq _ _) Hc), bool_decide_false by done. split.
  - rewrite Hs. destruct Hw as [Hw _]. by destruct st.
  - unfold rulesParse, rulesMrsParse. rewrite zstd, Hr. destruct Hw as [Hw _]. subst behavior. by destruct st.
Qed.

(** The ranges of a set of prefixes are kept by the binary form. *)
Definition prefixes_kept (st : ruleStrategy) : Prop :=
  match st with
  | SIPCidr i => ∀ set, cidrSet i = Some set → cidr_ok sizeof_IPRange set
  | _ => True
  end.

Lemma insert_all_grows b ds b' :
  insert_all b ds = Ret b' → filter (λ r, accepted_domain r = true) ds ≠ [] ∨ keys b ≠ [] → keys b' ≠ [].
Proof using Type.
  clear zstd nspec bspec. revert b. induction ds as [|d ds IH]; intros b H Hne; cbn [insert_all] in H.
  { injection H as <-. by destruct Hne. }
  rewrite filter_cons in Hne.
  destruct (builder_Insert_accepts b d) as [(e & Hi & Ha)|(b1 & Hi & Ha)]; rewrite Hi in H;
    cbn [mbind outcome_bind] in H; rewrite Ha in Hne.
  - rewrite decide_False in Hne by done. by apply (IH b).
  - apply (IH b1); [done|]. right. unfold builder_Insert in Hi. destruct (ValidAndSplitDomain d); [done|].
    step Hi. assert (∀ b parts b', builder_insert b parts = Ret b' → keys b' ≠ []) as Hins.
    { intros b2 [|p ps] b3; [done|]. intros [= <-]. simpl. by destruct (keys b2). }
    destruct (bool_decide _); repeat step Hi; simplify_eq; by eapply Hins.
Qed.

Lemma domain_count_range buf : 0 ≤ domain_count (text_rules buf) ≤ len buf.
Proof using Type.
  clear zstd nspec bspec. split; [unfold domain_count; lia|]. unfold domain_count, domain_rules.
  pose proof (length_filter (λ r, accepted_domain r = true) (filter (λ r, GoStrings.Contains r "/" = false) (text_rules buf))) as H1.
  pose proof (length_filter (λ r, GoStrings.Contains r "/" = false) (text_rules buf)) as H2.
  unfold text_rules in *. rewrite length_fmap in H2.
  pose proof (file_lines_count buf). lia.
Qed.

Lemma text_writable behavior buf parse st :
  len buf ≤ 2 ^ 25 → behavior ≠ P.Classical → rulesParse buf (newStrategy behavior parse) P.TextRule = Ret (Ok st) →
  Count st ≠ 0 → prefixes_kept st → mrs_writable st ∧ Behavior st = behavior.
Proof using bspec nspec.
  intros Hl Hbeh Hp Hc Hk. destruct behavior; [| |done].
  - destruct (text_domains buf parse) as (b & ss & Hb & HB & Hp'). rewrite Hp in Hp'. injection Hp' as ->.
    split; [|done]. cbn [Count d_count] in Hc. pose proof (domain_count_range buf) as Hr.
    assert (keys b ≠ []) as Hne.
    { eapply insert_all_grows; [done|]. left. intros Hn. apply Hc. unfold domain_count. by rewrite Hn. }
    split; [|simpl; lia]. cbn [domainSet domainSetBuilder].
    destruct (Build_encodes b Hne (text_fits _ _ Hl Hb)) as (ss' & D & HB' & _ & _). rewrite HB in HB'.
    injection HB' as ->. exists ss'. split_and!; [done| |done].
    unfold Build in HB. step HB. destruct a as [s u]. simplify_eq.
    eapply keys_bin_ok; [|by eapply text_fits|done]. eapply insert_all_keys; [done|constructor].
  - destruct (text_prefixes buf parse) as (set & Hp' & _). rewrite Hp in Hp'. injection Hp' as ->.
    split; [|done]. split; [|simpl; split; [lia|]]; cbn [cidrSet prefixes_kept] in *; [eauto|].
    assert (len (prefix_rules (text_rules buf)) ≤ len buf); [|simpl in *; lia].
    unfold prefix_rules. etrans; [apply Nat2Z.inj_le, length_omap_le|].
    unfold text_rules. rewrite length_fmap. pose proof (file_lines_count buf). lia.
Qed.

(** C9: a text file, of at most 32 MB, of domains or of prefixes with at least one rule is
    converted to the binary form and read back as the same strategy, with the same set
    and the same count, so that it matches the same connections.  Of prefixes it is asked
    that no range has an end that is an IPv4 address mapped into IPv6, which the binary
    form does not keep ([cidr_bin_mapped]), and that the reader can allocate the ranges. *)
Theorem mrs_roundtrip behavior buf parse st :
  len buf ≤ 2 ^ 25 → behavior ≠ P.Classical → rulesParse buf (newStrategy behavior parse) P.TextRule = Ret (Ok st) →
  Count st ≠ 0 → prefixes_kept st →
  ∃ bs, ConvertToMrs buf behavior P.TextRule [] = Ret (Ok bs) ∧
    rulesParse bs (newStrategy behavior parse) P.MrsRule = Ret (Ok st).
Proof using bspec nspec zstd.
  intros Hl Hbeh Hp Hc Hk. destruct (text_writable _ _ _ _ Hl Hbeh Hp Hc Hk) as [Hw Hb].
  apply convert_read; try done. by destruct behavior.
Qed.
End mrs.

(** ** Evaluation of providers *)

(** One more than the depth is enough fuel for a rule without sub-rules. *)
Lemma plain_Match_returns (w : World) {S} (helper : RuleMatchHelper S) subRules r fuel c :
  plain_rule r → names_return w r → (depth r < fuel)%nat →
  ∃ res, Match w helper subRules fuel r c = Ret res.
Proof.
  intros [Hwf Ht]. revert fuel c Ht.
  induction Hwf as [r Hl Hok|payload adapter ruleType rules Hrt Hr IH Hns]; intros fuel c Ht Hn Hf.
  { destruct fuel as [|fuel]; [lia|]. destruct (leaf_Match_total w helper r c Hok Hn) as [res Hres].
    exists res. by destruct r. }
  destruct fuel as [|fuel]; [lia|]. cbn [depth] in Hf. cbn [Match].
  assert (∀ r c, r ∈ rules → ∃ res, Match w helper subRules fuel r c = Ret res) as Htot.
  { intros r c' Hin. apply IH; [done|by apply Hns|by eapply names_return_in|].
    assert (depth r ≤ list_max (depth <$> rules))%nat by (apply list_max_elem; by apply list_elem_of_fmap_2). lia. }
  unfold Logic_Match. destruct Hrt as [->|[->|[[->| ->] Hlen]]]; [..|done].
  - apply (and_loop_total _ (λ r, r ∈ rules)); [done|by apply Forall_forall].
  - apply (or_loop_total _ (λ r, r ∈ rules)); [done|by apply Forall_forall].
  - destruct rules as [|r [|]]; try done. change (idx [r] 0) with (@Ret Rule r). cbn [mbind outcome_bind].
    destruct (Htot r c) as [[[m a] c'] ->]; [by left|]. cbn [mbind outcome_bind]. destruct m; by eexists.
Qed.

Section evaluation.
Context {bitmap : BitmapLib} {bspec : BitmapSpec bitmap} {netipx : NetIPX} {nspec : NetIPXSpec netipx}
  {plib : ProviderLib}.

(** The rules of a strategy. *)
Definition strategy_rules (st : ruleStrategy) : list Rule :=
  match st with SClassical c => c_rules c | _ => [] end.

(** A strategy that was loaded: its set is built, and its rules are well formed. *)
Definition sound_strategy (st : ruleStrategy) : Prop :=
  match st with
  | SDomain d => ∀ key, ∃ b, Has (domainSet d) key = Ret b
  | SIPCidr _ => True
  | SClassical c => Forall plain_rule (c_rules c)
  end.

Lemma strategy_returns (w : World) {S} (helper : RuleMatchHelper S) st c :
  sound_strategy st → (∀ r, r ∈ strategy_rules st → names_return w r) →
  ∃ res, strategy_Match w helper st c = Ret res.
Proof using Type.
  destruct st as [d|i|cl]; cbn [sound_strategy strategy_rules strategy_Match]; intros Hs Hn.
  - unfold domain_Match. destruct (domainSet d); [|by eexists].
    destruct (Hs (RuleHost c.1)) as [b ->]. by eexists.
  - by eexists.
  - revert c. induction Hs as [|r rules Hr _ IH]; intros c; cbn [classical_loop]; [by eexists|].
    destruct (plain_Match_returns w helper ∅ r (Datatypes.S (depth r)) c Hr) as [[[m a] c'] ->];
      [apply Hn; by left|lia|]. cbn [mbind outcome_bind]. destruct m; [by eexists|].
    apply IH. intros r' Hr'. apply Hn. by right.
Qed.

Lemma inline_rules w rs c :
  (∀ s p, ParsePrefix w s = Some p → PrefixIsValid p = true) →
  c_parse c = Some (ParseRule_ w) → Forall plain_rule (c_rules c) →
  ∃ c', inline_loop rs (SClassical c) = Ret (SClassical c') ∧ Forall plain_rule (c_rules c').
Proof using Type.
  intros Hw. revert c. induction rs as [|r rs IH]; intros c Hp Hc; cbn [inline_loop]; [by eexists|].
  case_bool_decide; [by apply IH|]. cbn [strategy_Insert]. unfold classical_Insert, classical_payloadToRule.
  set (p := ParseRulePayload r false). destruct (_ || _ || _) eqn:Ht; [by apply IH|]. rewrite Hp.
  unfold ParseRule_. destruct (ParseRule_total w (Datatypes.S (String.length (payload p))) p) as [[rule|e] Hr];
    [lia| |]; rewrite Hr; cbn [mbind outcome_bind fmap outcome_fmap]; [|by apply IH].
  apply IH; [done|]. simpl. apply Forall_app. split; [done|]. apply Forall_singleton.
  destruct (ParseRule_wf w Hw _ _ _ Hr) as [Hwf Hsub]. split; [done|]. intros Hty. specialize (Hsub Hty).
  rewrite orb_false_iff, !bool_decide_eq_false in Ht. naive_solver.
Qed.

(** Every text file is loaded, and gives a strategy that can be evaluated. *)
Lemma text_sound w behavior buf :
  (∀ s p, ParsePrefix w s = Some p → PrefixIsValid p = true) → len buf ≤ 2 ^ 25 →
  ∃ st, rulesParse buf (newStrategy behavior (Some (ParseRule_ w))) P.TextRule = Ret (Ok st) ∧
    sound_strategy st ∧ Behavior st = behavior.
Proof using bspec nspec.
  intros Hw Hl. destruct behavior.
  - destruct (text_domains buf (Some (ParseRule_ w))) as (b & ss & Hb & HB & ->). eexists. split; [done|].
    split; [|done]. intros key. cbn [domainSet]. destruct (decide (keys b = [])) as [Hn|Hn].
    + unfold Build in HB. rewrite Hn in HB. injection HB as <-. by eexists.
    + destruct (Build_encodes b Hn (text_fits _ _ Hl Hb)) as (ss' & D & HB' & He & Hs). rewrite HB in HB'.
      injection HB' as ->. by eapply Has_returns.
  - destruct (text_prefixes buf (Some (ParseRule_ w))) as (set & -> & _). by eexists.
  - rewrite rulesParse_text. unfold rulesParseInline. cbn [newStrategy Reset_].
    destruct (inline_rules w (text_rules buf) (classical_Reset (NewClassicalStrategy (Some (ParseRule_ w)))) Hw)
      as (c & -> & Hc); [done|constructor|]. by eexists.
Qed.

Context (table : gmap string baseProvider).

(** [name] refers to [name']. *)
Definition refers (name name' : string) : Prop :=
  ∃ bp st r, table !! name = Some bp ∧ p_strategy bp = Some st ∧ r ∈ strategy_rules st ∧
    name' ∈ ProviderNames r.

Definition sound_table : Prop :=
  ∀ name bp st, table !! name = Some bp → p_strategy bp = Some st → sound_strategy st.

(** A provider answers when the world is deeper than what it refers to. *)
Lemma serve_returns w (rank : string → nat) :
  sound_table → (∀ name name', refers name name' → (rank name' < rank name)%nat) →
  ∀ n name, (rank name < n)%nat → provider_returns (serve table w n) name.
Proof using Type.
  intros Hsound Hrank. induction n as [|n IH]; intros name Hn; [lia|].
  intros provider S h c Hp. cbn [serve RuleProviders] in Hp.
  destruct (table !! name) as [bp|] eqn:Hname; [|done]. injection Hp as <-. unfold provider_Match.
  destruct (p_strategy bp) as [st|] eqn:Hst; [|by eexists].
  apply strategy_returns; [by eapply Hsound|]. intros r Hr name' Hname'. apply IH.
  assert (rank name' < rank name)%nat; [|lia]. apply Hrank. by exists bp, st, r.
Qed.

(** The table was loaded from text files. *)
Definition loaded (w : World) : Prop :=
  ∀ name bp, table !! name = Some bp → ∃ behavior buf, len buf ≤ 2 ^ 25 ∧
    provider_update (mkProvider behavior None) P.TextRule (Some (ParseRule_ w)) buf = Ret (Ok bp).

Lemma loaded_sound w :
  (∀ s p, ParsePrefix w s = Some p → PrefixIsValid p = true) → loaded w → sound_table.
Proof using bspec nspec.
  intros Hw Hload name bp st Hn Hst. destruct (Hload _ _ Hn) as (behavior & buf & Hl & Hup).
  destruct (text_sound w behavior buf Hw Hl) as (st' & Hp & Hs & _). unfold provider_update in Hup.
  cbn [p_behavior] in Hup. rewrite Hp in Hup. cbn [mbind outcome_bind] in Hup. injection Hup as <-.
  simpl in Hst. by injection Hst as <-.
Qed.
End evaluation.

(** C15: when the providers were loaded from text files and do not refer to each other in
    a circle, every RULE-SET rule is answered; and with sub-rules that the
    configuration accepts, every rule is. *)
Theorem ruleset_providers_return {bitmap : BitmapLib} {bspec : BitmapSpec bitmap} {netipx : NetIPX}
    {nspec : NetIPXSpec netipx} {plib : ProviderLib} (w : World) table (rank : string → nat) :
  (∀ s p, ParsePrefix w s = Some p → PrefixIsValid p = true) → loaded table w →
  (∀ name name', refers table name name' → (rank name' < rank name)%nat) →
  ∃ N, ∀ n, (N ≤ n)%nat → providers_return (serve table w n) ∧
    ∀ subRules r S (helper : RuleMatchHelper S),
      verifySubRule subRules = Ret (Ok tt) →
      (∀ name rules, subRules !! name = Some rules → Forall wf_rule rules) → wf_rule r →
      ∃ F, ∀ fuel c, (F ≤ fuel)%nat → ∃ res, Match (serve table w n) helper subRules fuel r c = Ret res.
Proof.
  intros Hw Hload Hrank. exists (Datatypes.S (list_max (rank <$> (map_to_list table).*1))). intros n Hn.
  assert (providers_return (serve table w n)) as Hret.
  { intros name. destruct (table !! name) as [bp|] eqn:Hname.
    - apply (serve_returns table w rank); [by eapply loaded_sound|done|].
      assert (rank name ≤ list_max (rank <$> (map_to_list table).*1))%nat; [|lia].
      apply list_max_elem, list_elem_of_fmap_2, list_elem_of_fmap. exists (name, bp). by rewrite elem_of_map_to_list.
    - intros provider S h c Hp. destruct n; cbn [serve RuleProviders] in Hp; by rewrite Hname in Hp. }
  split; [done|]. intros subRules r S helper Hv Hwf Hr.
  destruct (accepted_terminates (serve table w n) helper subRules Hwf Hret Hv r Hr) as [F HF].
  exists F. intros fuel c Hf. by apply HF.
Qed.
