(* ===== verification/ProviderDump.v ===== *)
(** * Text from the binary form ([domainStrategy.DumpMrs], [ConvertToMrs])

    The rules that are printed for a set of domains are fewer than its entries: an
    entry and its suffix entry become one rule.  Loading the printed rules gives the
    same set again.  Then what goes wrong in conversions, and in files without rules. *)

From Stdlib Require Import Ascii.
From stdpp Require Import sorting.
From S2P Require Import Prelude Wire GoStrings Runes NetIP Metadata DomainTrie Louds DomainSet SetTrie DomainMap.
From S2P Require Import SetBin IpCidr Rules RuleParser SubRules RuleProvider ProviderSpec.

(** ** Trimming clean lines *)

Definition clean_byte (a : ascii) : bool := (42 <=? byte_of a) && (byte_of a <? 128).

Lemma clean_forall s : clean s ↔ forall_bytes clean_byte s = true.
Proof.
  unfold clean. induction s as [|a s IH]; simpl; [done|]. rewrite Forall_cons, IH, andb_true_iff.
  unfold clean_byte, wildcardByte, RuneSelf. rewrite andb_true_iff, Z.leb_le, Z.ltb_lt. tauto.
Qed.

Lemma spaces_not_clean : forallb (λ x, negb (forall_bytes clean_byte x)) spaces = true.
Proof. reflexivity. Qed.

Lemma find_space_none (has : string → string → bool) s :
  (∀ x, has s x = true → forall_bytes clean_byte s = true → forall_bytes clean_byte x = true) →
  clean s → List.find (has s) spaces = None.
Proof.
  intros Hh Hc%clean_forall. pose proof spaces_not_clean as Hs. rewrite forallb_forall in Hs.
  destruct (List.find (has s) spaces) as [x|] eqn:E; [|done].
  apply List.find_some in E as [Hin Hx]. apply Hs in Hin. by rewrite (Hh x Hx Hc) in Hin.
Qed.

Lemma trim_left_clean n s : clean s → trim_left n s = s.
Proof.
  intros Hc. destruct n; [done|]. cbn [trim_left].
  rewrite (find_space_none HasPrefix); [done| |done]. intros x. apply HasPrefix_forall.
Qed.

Lemma trim_right_clean n s : clean s → trim_right n s = s.
Proof.
  intros Hc. destruct n; [done|]. cbn [trim_right].
  rewrite (find_space_none HasSuffix); [done| |done]. intros x. apply HasSuffix_forall.
Qed.

Definition newline : string := String "010" "".

Lemma HasSuffix_last s a b : HasSuffix (s +:+ String a "") (String b "") = bool_decide (a = b).
Proof.
  unfold HasSuffix. rewrite string_app_length. simpl String.length.
  rewrite (proj2 (Nat.leb_le _ _)) by lia. cbn [andb].
  replace (String.length s + 1 - 1)%nat with (String.length s) by lia.
  induction s as [|c s IH]; [|exact IH]. cbn. apply bool_decide_ext. split; [by intros [= ->]|by intros ->].
Qed.

Lemma substring_all s t : String.substring 0 (String.length s) (s +:+ t) = s.
Proof. induction s as [|a s IH]; simpl; [by destruct t|]. by rewrite IH. Qed.

Lemma find_prefix_clean s t : clean s → s ≠ "" → List.find (HasPrefix (s +:+ t)) spaces = None.
Proof.
  intros Hc Hne. destruct s as [|a s]; [done|]. apply clean_forall in Hc. simpl in Hc.
  apply andb_true_iff in Hc as [Ha _].
  assert (forallb (λ x, match x with String b _ => negb (clean_byte b) | _ => false end) spaces = true) as Hs by done.
  rewrite forallb_forall in Hs. destruct (List.find _ _) as [x|] eqn:E; [|done].
  apply List.find_some in E as [Hin Hx]. apply Hs in Hin. destruct x as [|b x]; [done|].
  unfold HasPrefix in Hx. simpl in Hx. destruct (Ascii.ascii_dec b a) as [->|]; [|done]. by rewrite Ha in Hin.
Qed.

Lemma TrimSpace_newline s : clean s → s ≠ "" → TrimSpace (s +:+ newline) = s.
Proof.
  intros Hc Hne. unfold TrimSpace. assert (trim_left (String.length (s +:+ newline)) (s +:+ newline) = s +:+ newline) as ->.
  { destruct (String.length _); [done|]. cbn [trim_left]. by rewrite find_prefix_clean. }
  rewrite string_app_length. simpl String.length. rewrite Nat.add_1_r. cbn [trim_right].
  assert (List.find (HasSuffix (s +:+ newline)) spaces = Some newline) as ->.
  { change spaces with (String "009" "" :: newline :: drop 2 spaces). cbn [List.find].
    unfold newline. rewrite !HasSuffix_last. by rewrite bool_decide_false, bool_decide_true by done. }
  rewrite string_app_length. simpl String.length. rewrite Nat.add_sub, substring_all. by apply trim_right_clean.
Qed.

(** ** Printed rules *)

Lemma of_bytes_app l k : of_bytes (l ++ k) = of_bytes l +:+ of_bytes k.
Proof. induction l as [|x l IH]; simpl; [done|]. by rewrite IH. Qed.

(** A rule that can be printed and read back. *)
Definition printable (k : string) : Prop := clean k ∧ k ≠ "" ∧ GoStrings.Contains k "/" = false.

Lemma text_rule_printed k : printable k → text_rule (sbytes k ++ [10]) = k.
Proof.
  intros (Hc & Hne & Hs). unfold text_rule. rewrite of_bytes_app, of_bytes_sbytes.
  change (of_bytes [10]) with newline. rewrite TrimSpace_newline by done.
  destruct k as [|a k]; [done|]. cbn [String.length Nat.eqb].
  apply clean_forall in Hc. simpl in Hc. apply andb_true_iff in Hc as [Ha _].
  assert (HasPrefix (String a k) "#" = false) as ->.
  { unfold HasPrefix. cbn [String.prefix]. destruct (ascii_dec "#" a) as [<-|]; [by vm_compute in Ha|done]. }
  assert (HasPrefix (String a k) "//" = false) as ->; [|done].
  unfold HasPrefix. change (GoStrings.Contains (String a k) "/") with
    (String.prefix "/" (String a k) || GoStrings.Contains k "/") in Hs. apply orb_false_iff in Hs as [Hs _].
  cbn [String.prefix] in *. destruct (ascii_dec "/" a); [by destruct k|done].
Qed.

Definition printed (ks : list string) : list Z := mjoin ((λ k, sbytes k ++ [10]) <$> ks).

Lemma visit_print ks w : visit_all print_key ks w = (true, w ++ printed ks).
Proof.
  revert w. induction ks as [|k ks IH]; intros w; cbn [visit_all]; [by rewrite app_nil_r|].
  unfold print_key at 1, Write, buffer_writer. cbv beta iota zeta. rewrite IH.
  unfold printed. csimpl. by rewrite <- !app_assoc.
Qed.

Lemma file_lines_line cur l rest :
  (10 ∉ l) → file_lines cur (l ++ 10 :: rest) = (cur ++ l ++ [10]) :: file_lines [] rest.
Proof.
  revert cur. induction l as [|x l IH]; intros cur Hl; cbn [file_lines app]; [done|].
  rewrite (proj2 (Z.eqb_neq x 10)) by set_solver. rewrite IH by set_solver. by rewrite <- app_assoc.
Qed.

Lemma text_rules_printed ks : Forall printable ks → text_rules (printed ks) = ks.
Proof.
  intros Hks. unfold text_rules. induction Hks as [|k ks Hk _ IH]; [done|].
  unfold printed in *. csimpl. rewrite <- app_assoc. cbn [app]. rewrite file_lines_line.
  2:{ intros Hin. destruct Hk as [Hc _]. unfold clean in Hc. rewrite Forall_forall in Hc. apply Hc in Hin.
      unfold wildcardByte in Hin. lia. }
  rewrite fmap_cons, IH, app_nil_l. by rewrite text_rule_printed.
Qed.

(** ** Entries and suffix entries *)

Lemma TrimDot_eq a b : TrimDot a = TrimDot b → a ≠ b → a = String "." b ∨ b = String "." a.
Proof.
  unfold TrimDot. intros H Hne. destruct a as [|x a], b as [|y b]; repeat case_match; simplify_eq; auto.
Qed.

(** The rule for an entry and its suffix entry has the keys of both. *)
Lemma plus_keys d k k' :
  clean d → pattern_keys d = [k] → pattern_keys (String "." d) = [k'] →
  pattern_keys ("+." +:+ d) = [k; k'].
Proof.
  intros Hc Hk Hk'. unfold pattern_keys in *.
  destruct (ValidAndSplitDomain (String "." d)) as [|parts'] eqn:Hd'; [done|].
  destruct (ValidAndSplitDomain d) as [|parts] eqn:Hd; [done|].
  apply Valid_iff in Hd as (Hne & Hlast & _ & _ & Hs & _). apply Valid_iff in Hd' as (_ & _ & _ & _ & Hs' & Hok').
  change (Split domainStep (ToLower (String "." d))) with ("" :: Split domainStep (ToLower d)) in Hs'.
  rewrite <- Hs in Hs'. subst parts'. destruct (Split_cons domainStep (ToLower d)) as (p & ps & Hps).
  rewrite Hps in Hs. subst parts.
  assert (clean ("+." +:+ d)) as Hcd by (unfold clean; simpl; repeat constructor; done).
  assert (ValidAndSplitDomain ("+." +:+ d) = inr (complexWildcard :: p :: ps)) as ->.
  { apply Valid_iff. split_and!; [done| | | | |].
    - change ("+." +:+ d) with (String "+" (String "." d)). by destruct d.
    - by apply clean_no_space.
    - unfold ends_with_space. apply not_true_iff_false. intros (x & Hin & Hx)%existsb_exists.
      apply (HasSuffix_forall clean_byte) in Hx; [|by apply clean_forall].
      pose proof spaces_not_clean as Hsp. rewrite forallb_forall in Hsp. apply Hsp in Hin. by rewrite Hx in Hin.
    - change (ToLower ("+." +:+ d)) with (String "+" (String "." (ToLower d))).
      cbn [Split]. change (Ascii.eqb "." domainStep) with true. cbv iota. by rewrite Hps.
    - destruct Hok' as [He Hw]. split; [done|]. exact Hw. }
  unfold paths in *. rewrite (bool_decide_false ("" = complexWildcard)) in Hk' by done.
  cbn [fmap list_fmap] in *. injection Hk' as <-. rewrite bool_decide_true by done.
  destruct (bool_decide (p = complexWildcard)); [done|]. cbn [fmap list_fmap] in *. by injection Hk as <-.
Qed.

(** What is listed for a set: a rule that can be printed, with one key. *)
Definition entry_rule (p : string) : Prop := printable p ∧ ∃ k, pattern_keys p = [k].

Lemma printable_plus d : printable d → printable ("+." +:+ d).
Proof.
  intros (Hc & _ & Hs). split_and!; [|done|exact Hs]. unfold clean. simpl. repeat constructor; done.
Qed.

Lemma merge_rules a b :
  entry_rule a → entry_rule b → a ≠ b → TrimDot a = TrimDot b →
  printable ("+." +:+ TrimDot a) ∧
  ∀ k, k ∈ pattern_keys ("+." +:+ TrimDot a) ↔ k ∈ pattern_keys a ∨ k ∈ pattern_keys b.
Proof.
  intros [Ha (ka & Hka)] [Hb (kb & Hkb)] Hne Heq.
  destruct (TrimDot_eq a b Heq Hne) as [->| ->].
  - change (TrimDot (String "." b)) with b. split; [by apply printable_plus|].
    rewrite (plus_keys b kb ka) by (done || apply Hb). rewrite Hka, Hkb. set_solver.
  - rewrite Heq. change (TrimDot (String "." a)) with a. split; [by apply printable_plus|].
    rewrite (plus_keys a ka kb) by (done || apply Ha). rewrite Hka, Hkb. set_solver.
Qed.

Definition keys_of_rules (l : list string) : list (list Z) := mjoin (pattern_keys <$> l).

Lemma keys_cons p l k : k ∈ keys_of_rules (p :: l) ↔ k ∈ pattern_keys p ∨ k ∈ keys_of_rules l.
Proof. unfold keys_of_rules. csimpl. apply elem_of_app. Qed.

Lemma merge_pairs_keys l :
  Forall entry_rule l → NoDup l →
  let m := filter (λ key, key ≠ "") (merge_pairs l) in
  Forall printable m ∧ ∀ k, k ∈ keys_of_rules m ↔ k ∈ keys_of_rules l.
Proof.
  remember (length l) as n eqn:Hn. revert l Hn.
  induction (lt_wf n) as [n _ IH]. intros [|a [|b l]] -> Hl Hnd; cbn [merge_pairs]; cbv zeta.
  - done.
  - apply Forall_singleton in Hl as [Hp _]. rewrite filter_cons, decide_True, filter_nil by apply Hp.
    split; [by apply Forall_singleton|done].
  - apply Forall_cons in Hl as [Ha Hl]. apply NoDup_cons in Hnd as [Hab Hnd]. case_bool_decide as Heq.
    + apply Forall_cons in Hl as [Hb Hl]. apply NoDup_cons in Hnd as [_ Hnd].
      destruct (IH (length l) ltac:(simpl; lia) l eq_refl Hl Hnd) as [Hp Hk].
      destruct (merge_rules a b Ha Hb) as [Hpm Hkm]; [set_solver|done|].
      rewrite filter_cons, decide_True by done. rewrite filter_cons, decide_False by (by intros ?).
      split; [by constructor|]. intros k. rewrite !keys_cons, Hk, Hkm. tauto.
    + destruct (IH (length (b :: l)) ltac:(simpl; lia) (b :: l) eq_refl Hl Hnd) as [Hp Hk].
      rewrite filter_cons, decide_True by apply Ha. split; [constructor; [apply Ha|done]|].
      intros k. rewrite (keys_cons a), (keys_cons a (b :: l)), Hk. tauto.
Qed.

Lemma sorted_NoDup (K : lang) : sorted K → NoDup K.
Proof.
  induction 1 as [|k K _ IH Hk]; constructor; [|done]. intros Hin. rewrite Forall_forall in Hk.
  by apply Hk, blt_irrefl in Hin.
Qed.

Lemma keys_of_rules_perm l l' : l ≡ₚ l' → ∀ k, k ∈ keys_of_rules l ↔ k ∈ keys_of_rules l'.
Proof.
  intros Hl k. unfold keys_of_rules. rewrite !list_elem_of_join. setoid_rewrite list_elem_of_fmap.
  split; intros (x & Hx & y & -> & Hy); exists (pattern_keys y); (split; [done|]); exists y; (split; [done|]);
    by rewrite ?Hl || by rewrite <- ?Hl.
Qed.

Section dump.
Context {bitmap : BitmapLib} {bspec : BitmapSpec bitmap} {netipx : NetIPX} {nspec : NetIPXSpec netipx}
  {plib : ProviderLib}.
Hypothesis SortFunc_perm : ∀ cmp l, SortFunc cmp l ≡ₚ l.
Hypothesis Sort_perm : ∀ l, Sort_ l ≡ₚ l.

(** No byte of a pattern is a slash. *)
Lemma no_slash ds k :
  Forall clean ds → Forall (λ d, GoStrings.Contains d "/" = false) ds → (∃ q, stored ds q ∧ k = path_bytes q) →
  GoStrings.Contains (pattern_of k) "/" = false.
Proof using Type.
  clear. intros Hc Hs (q & Hq & ->).
  set (P := λ b, (wildcardByte ≤ b < RuneSelf) ∧ b ≠ 47).
  assert (Forall P (path_bytes q)) as HP.
  { eapply stored_bytes; [done|done| | |done].
    - intros b [Hb Hb']. split; [by apply lower_range|]. unfold lower.
      destruct (Z.leb_spec 65 b), (Z.leb_spec b 90); simpl; try done. unfold wrapu. rewrite Z.mod_small; lia.
    - apply Forall_forall. intros d Hd. rewrite Forall_forall in Hc, Hs. specialize (Hc d Hd). specialize (Hs d Hd).
      rewrite Contains_byte in Hs. apply has_byte_bytes in Hs. change (byte_of "/") with 47 in Hs.
      unfold clean in Hc. rewrite Forall_forall in Hc. apply Forall_forall. intros b Hb.
      split; [by apply Hc|]. by intros ->. }
  assert (Forall P (TrimPlus (path_bytes q))) as HT.
  { unfold TrimPlus. destruct (reverse (path_bytes q)) as [|c r] eqn:Hr; [done|].
    destruct (c =? complexWildcardByte); [|done]. apply Forall_reverse in HP. rewrite Hr in HP.
    by apply Forall_reverse; apply Forall_cons in HP as [_ ?]. }
  assert (ascii_only (TrimPlus (path_bytes q))) as Ha.
  { eapply Forall_impl; [exact HT|]. unfold P, wildcardByte. lia. }
  rewrite Contains_byte. apply has_byte_bytes. change (byte_of "/") with 47. unfold pattern_of.
  rewrite reverse_runes_ascii by done. rewrite sbytes_of_bytes by (by apply Forall_reverse, ascii_is_byte).
  intros Hin. rewrite elem_of_reverse in Hin. rewrite Forall_forall in HT. by apply HT in Hin as [_ ?].
Qed.

(** The rules that are printed for a set. *)
Lemma dump_rules ds b ss b' n bl :
  Forall clean ds → Forall (λ d, GoStrings.Contains d "/" = false) ds → insert_all newBuilder ds = Ret b →
  fits (keys b) → Build (Some b) = Ret (Some ss, b') →
  ∃ rules, (∀ S (f : string → S → bool * S) s,
      domain_DumpMrs f (mkDomainStrategy n bl (Some ss)) s = Ret (visit_all f rules s).2) ∧
    Forall printable rules ∧ ∀ k, k ∈ keys_of_rules rules ↔ k ∈ keys b.
Proof using SortFunc_perm Sort_perm bspec.
  intros Hc Hs Hb Hf HB. destruct (Foreach_patterns ds b ss b' Hc Hb Hf HB) as (_ & HF & Hp).
  set (K := sorted_keys (keys b)) in *. unfold domain_DumpMrs. cbn [domainSet]. setoid_rewrite HF.
  cbn [mbind outcome_bind]. set (l := SortFunc compare_domains (pattern_of <$> K)).
  pose proof (SortFunc_perm compare_domains (pattern_of <$> K)) as Hl. fold l in Hl.
  assert (Forall entry_rule (pattern_of <$> K)) as He.
  { apply Forall_fmap, Forall_forall. intros k Hk. rewrite Forall_forall in Hp. destruct (Hp k Hk) as [Hcl Hkk].
    split; [|by exists k]. split_and!; [done| |].
    - simpl. intros Hn. unfold pattern_keys in Hkk. by rewrite Hn in Hkk.
    - apply (no_slash ds); [done..|]. unfold K in Hk. rewrite elem_sorted_keys in Hk.
      rewrite insert_all_ok in Hb by (by apply clean_ascii_all). injection Hb as <-. simpl in Hk.
      by apply elem_pattern_keys. }
  destruct (merge_pairs_keys l) as [Hpr Hk].
  { by rewrite Hl. }
  { rewrite Hl. apply NoDup_fmap_2_strong; [|apply sorted_NoDup, sorted_keys_sorted].
    intros k1 k2 H1 H2 Heq. rewrite Forall_forall in Hp. destruct (Hp k1 H1) as [_ E1]. destruct (Hp k2 H2) as [_ E2].
    rewrite Heq, E2 in E1. by injection E1. }
  set (m := filter _ _) in *. exists (Sort_ m). split_and!.
  - done.
  - by rewrite Sort_perm.
  - intros k. rewrite (keys_of_rules_perm _ m) by apply Sort_perm. rewrite Hk, (keys_of_rules_perm _ _ Hl).
    replace (keys_of_rules (pattern_of <$> K)) with K; [apply elem_sorted_keys|].
    clear -Hp. unfold keys_of_rules. induction Hp as [|k' K' [_ Hk] _ IH]; csimpl; [done|].
    rewrite Hk. simpl. by f_equal.
Qed.

Hypothesis zstd : ∀ stream, zstd_NewReader (zstd_Encode stream) = Ok stream.

(** A text file and its binary form, with the rules that are printed for it. *)
Lemma dump_text buf d :
  len buf ≤ 2 ^ 25 → Forall clean (domain_rules (text_rules buf)) →
  rulesParse buf (newStrategy P.Domain None) P.TextRule = Ret (Ok (SDomain d)) → d_count d ≠ 0 →
  ∃ mrs rules, ConvertToMrs buf P.Domain P.TextRule [] = Ret (Ok mrs) ∧
    (∀ W (wr : Writer W) (w : W), ConvertToMrs mrs P.Domain P.MrsRule w = Ret (Ok (visit_all print_key rules w).2)) ∧
    rules ≠ [] ∧ Forall printable rules ∧
    ∃ b, insert_all newBuilder rules = Ret b ∧ Build (Some b) = Ret (domainSet d, Some newBuilder).
Proof using SortFunc_perm Sort_perm bspec nspec zstd.
  intros Hl Hc Hp Hn.
  destruct (text_writable P.Domain buf None (SDomain d) Hl) as [Hw Hbeh]; [done..|].
  destruct (convert_read zstd buf P.Domain P.TextRule None (SDomain d) Hp) as (mrs & Hm & Hr); [done..|].
  destruct (text_domains buf None) as (b & oss & Hb & HB & Hp'). rewrite Hp in Hp'. injection Hp' as ->.
  destruct Hw as [(ss & Hss & _) _]. simpl in Hss. subst oss.
  assert (Forall (λ d, GoStrings.Contains d "/" = false) (domain_rules (text_rules buf))) as Hs.
  { apply Forall_forall. intros r Hr'. unfold domain_rules in Hr'. by apply list_elem_of_filter in Hr' as [? _]. }
  destruct (dump_rules _ b ss _ (domain_count (text_rules buf)) newBuilder Hc Hs Hb (text_fits _ _ Hl Hb) HB)
    as (rules & Hd & Hpr & Hk).
  exists mrs, rules. split_and!; [done| | |done|].
  - intros W wr w. unfold ConvertToMrs. rewrite Hr. cbn [mbind outcome_bind Count d_count] in Hn |- *.
    rewrite (proj2 (Z.eqb_neq _ _) Hn), bool_decide_true by done. cbn [DumpMrs]. by rewrite Hd.
  - intros ->. unfold Build in HB. destruct (keys b) as [|k ks] eqn:Hks; [done|].
    apply (not_elem_of_nil k). apply Hk. by left.
  - apply (rebuild b); [done| |exact Hk]. eapply Forall_impl; [exact Hpr|]. by intros r [? _].
Qed.

(** The text that a text file of domains becomes on the way through the binary form. *)
Definition through_mrs (buf text : list Z) : Prop :=
  ∃ mrs, ConvertToMrs buf P.Domain P.TextRule [] = Ret (Ok mrs) ∧
    ConvertToMrs mrs P.Domain P.MrsRule [] = Ret (Ok text).

(** C35: a text file of domains that is converted to the binary form and back to text
    gives the same set of domains when the text is loaded again, although the text
    has one rule for an entry and its suffix entry. *)
Theorem mrs_dump_roundtrip buf d :
  len buf ≤ 2 ^ 25 → Forall clean (domain_rules (text_rules buf)) →
  rulesParse buf (newStrategy P.Domain None) P.TextRule = Ret (Ok (SDomain d)) → d_count d ≠ 0 →
  ∃ text d', through_mrs buf text ∧
    rulesParse text (newStrategy P.Domain None) P.TextRule = Ret (Ok (SDomain d')) ∧
    domainSet d' = domainSet d.
Proof using SortFunc_perm Sort_perm bspec nspec zstd.
  intros Hl Hc Hp Hn. destruct (dump_text buf d Hl Hc Hp Hn) as (mrs & rules & Hm & Hd & _ & Hpr & b & Hb & HB).
  destruct (text_domains (printed rules) None) as (b2 & ss2 & Hb2 & HB2 & Hp2).
  rewrite text_rules_printed in Hb2 by done.
  assert (domain_rules rules = rules) as Hdr.
  { unfold domain_rules. apply filter_all. eapply Forall_impl; [exact Hpr|]. by intros r (_ & _ & ?). }
  rewrite Hdr, Hb in Hb2. injection Hb2 as <-. rewrite HB in HB2. injection HB2 as <-.
  exists (printed rules). eexists. split; [exists mrs; split; [done|]|by split]. by rewrite Hd, visit_print.
Qed.

(** *** Conversions that go wrong *)

(** A writer that accepts nothing. *)
Definition closed_pipe : broken_pipe := mkPipe [] 0.

(** An error of the writer is lost when a binary file is converted to text: the
    conversion succeeds although nothing was written; and the conversion of classical
    rules, which is meant to be refused, calls a parser that is nil. *)
Theorem convert_failures buf d classical r rs :
  len buf ≤ 2 ^ 25 → Forall clean (domain_rules (text_rules buf)) →
  rulesParse buf (newStrategy P.Domain None) P.TextRule = Ret (Ok (SDomain d)) → d_count d ≠ 0 →
  text_rules classical = r :: rs → r ≠ "" →
  tp (ParseRulePayload r false) ∉ ["MATCH"; "RULE-SET"; "SUB-RULE"] →
  (∃ mrs text, ConvertToMrs buf P.Domain P.TextRule [] = Ret (Ok mrs) ∧
    ConvertToMrs mrs P.Domain P.MrsRule [] = Ret (Ok text) ∧ text ≠ [] ∧
    ConvertToMrs mrs P.Domain P.MrsRule closed_pipe = Ret (Ok closed_pipe)) ∧
  ConvertToMrs classical P.Classical P.TextRule closed_pipe = Panic nil_pointer.
Proof using SortFunc_perm Sort_perm bspec nspec zstd.
  intros Hl Hc Hp Hn Hr Hne Ht. split.
  - destruct (dump_text buf d Hl Hc Hp Hn) as (mrs & rules & Hm & Hd & Hrs & _ & _).
    exists mrs, (printed rules). split_and!; [done|by rewrite Hd, visit_print| |].
    + destruct rules as [|k rules]; [done|]. unfold printed. csimpl. by destruct (sbytes k).
    + rewrite Hd. do 2 f_equal. destruct rules as [|k rules]; [done|]. cbn [visit_all].
      assert (∀ w, w = closed_pipe → print_key k w = (false, w)) as Hk.
      { intros w ->. unfold print_key, Write, pipe_writer. rewrite decide_False; [done|].
        rewrite length_app. simpl. lia. }
      by rewrite Hk.
  - unfold ConvertToMrs. rewrite rulesParse_text, Hr. unfold rulesParseInline.
    cbn [newStrategy Reset_ inline_loop strategy_Insert]. rewrite bool_decide_false by done.
    unfold classical_Insert, classical_payloadToRule. set (p := ParseRulePayload r false) in *.
    rewrite !bool_decide_false by set_solver. done.
Qed.
End dump.

(** ** What goes wrong *)

Section failures.
Context {bitmap : BitmapLib} {netipx : NetIPX} {plib : ProviderLib}.

(** A provider "loop" with one rule, which refers to "loop" below a logic rule. *)
Definition loop_file : list Z := sbytes "AND,((RULE-SET,loop),(NETWORK,TCP))" ++ [10].

Definition loop_rule : Rule :=
  Logic "((RULE-SET,loop),(NETWORK,TCP))" "" RT.AND [RuleSet "loop" "" false false; NetworkType TCP ""].

Definition loop_provider (w : World) : baseProvider :=
  mkProvider P.Classical (Some (SClassical (mkClassicalStrategy [loop_rule] 1 (Some (ParseRule_ w))))).

Lemma loop_provider_hangs w table n S (helper : RuleMatchHelper S) c :
  table !! "loop" = Some (loop_provider w) →
  provider_Match (serve table w n) helper (loop_provider w) c = OutOfFuel.
Proof using Type.
  intros Ht. revert c helper. induction n as [|n IH]; intros c helper;
    unfold provider_Match; cbn [p_strategy loop_provider strategy_Match c_rules classical_loop Match loop_rule
      Logic_Match and_loop leaf_Match depth fmap list_fmap list_max foldr Nat.max];
    unfold RuleSet_Match; cbn [serve RuleProviders]; rewrite Ht; [done|]. by rewrite IH.
Qed.

Lemma loop_text : text_rules loop_file = ["AND,((RULE-SET,loop),(NETWORK,TCP))"].
Proof using Type. vm_compute. reflexivity. Qed.

Lemma direct_text : text_rules (sbytes "RULE-SET,loop") = ["RULE-SET,loop"].
Proof using Type. vm_compute. reflexivity. Qed.

Lemma loop_parse w :
  ParseRule_ w (ParseRulePayload "AND,((RULE-SET,loop),(NETWORK,TCP))" false) = Ret (Ok loop_rule).
Proof using Type. vm_compute. reflexivity. Qed.

Lemma loop_loaded w :
  provider_update (mkProvider P.Classical None) P.TextRule (Some (ParseRule_ w)) loop_file = Ret (Ok (loop_provider w)).
Proof using Type.
  unfold provider_update. rewrite rulesParse_text, loop_text. unfold rulesParseInline.
  cbn [p_behavior newStrategy Reset_ inline_loop strategy_Insert].
  unfold classical_Insert, classical_payloadToRule, classical_Reset, NewClassicalStrategy. cbn [c_parse c_rules c_count].
  rewrite loop_parse. reflexivity.
Qed.

Lemma direct_refused w :
  provider_update (mkProvider P.Classical None) P.TextRule (Some (ParseRule_ w)) (sbytes "RULE-SET,loop") =
    Ret (Ok (mkProvider P.Classical (Some (SClassical (mkClassicalStrategy [] 0 (Some (ParseRule_ w))))))).
Proof using Type.
  unfold provider_update. rewrite rulesParse_text, direct_text. reflexivity.
Qed.

(** C40: a rule set may not hold RULE-SET rules, but it may hold them below a logic rule:
    a file with such a rule is accepted, and when the rule names its own provider, the
    evaluation of a RULE-SET rule never ends, for any connection.  The direct form of
    the rule is left out. *)
Theorem ruleset_self_reference w table subRules n fuel S (helper : RuleMatchHelper S) adapter noResolve c :
  table !! "loop" = Some (loop_provider w) →
  provider_update (mkProvider P.Classical None) P.TextRule (Some (ParseRule_ w)) loop_file = Ret (Ok (loop_provider w)) ∧
  Match (serve table w n) helper subRules (Datatypes.S fuel) (RuleSet "loop" adapter false noResolve) c = OutOfFuel ∧
  provider_update (mkProvider P.Classical None) P.TextRule (Some (ParseRule_ w)) (sbytes "RULE-SET,loop") =
    Ret (Ok (mkProvider P.Classical (Some (SClassical (mkClassicalStrategy [] 0 (Some (ParseRule_ w))))))).
Proof using Type.
  intros Ht. split_and!; [apply loop_loaded| |apply direct_refused].
  cbn [Match leaf_Match]. unfold RuleSet_Match. destruct n; cbn [serve RuleProviders]; rewrite Ht; [done|].
  by rewrite loop_provider_hangs.
Qed.

(** *** YAML files *)

Definition empty_payload (sc : RulePayload) : Prop := Rules_ sc = [] ∧ Payload_ sc = [].

(** The library finds no rules in any line of the file, with the test line after it. *)
Definition headless (buf : list Z) : Prop :=
  ∀ i n sc, empty_payload sc →
    empty_payload (yaml_Unmarshal (take n (drop i buf) ++ test_line) sc).1.

(** No head was found so far. *)
Definition no_head (y : yamlState) : Prop :=
  firstLineLength y = 0 ∧ firstLineBuffer y = [] ∧ empty_payload (schema y).

Lemma yaml_rule_none buf i n y :
  headless buf → no_head y →
  (yaml_rule y (take n (drop i buf))).2 = "" ∧ no_head (yaml_rule y (take n (drop i buf))).1.
Proof using Type.
  intros Hf (Hy & Hb & Hs). unfold yaml_rule. destruct (String.length _ =? 0)%nat; [done|].
  destruct (HasPrefix _ _); [done|].
  rewrite Hy, Hb. cbn [Z.eqb app]. specialize (Hf i n (schema y) Hs).
  destruct (yaml_Unmarshal _ _) as [sc ok]. cbn [fst snd] in Hf. pose proof Hf as [-> ->].
  rewrite !bool_decide_true by done. by rewrite andb_false_r.
Qed.

Lemma IndexByte_last l : l ≠ [] → last l = Some 10 → 0 ≤ IndexByte l 10.
Proof using Type.
  clear. induction l as [|x l IH]; intros Hne Hl; [done|]. cbn [IndexByte].
  destruct (Z.eqb_spec x 10); [lia|]. destruct l as [|y l]; [simpl in Hl; congruence|].
  specialize (IH ltac:(done) Hl). destruct (Z.ltb_spec (IndexByte (y :: l) 10) 0); lia.
Qed.

Lemma IndexByte_lookup l c i : IndexByte l c = Z.of_nat i → l !! i = Some c.
Proof using Type.
  clear. revert i. induction l as [|x l IH]; intros i Hi; cbn [IndexByte] in Hi; [lia|].
  destruct (Z.eqb_spec x c) as [->|]; [by replace i with 0%nat by lia|].
  destruct (Z.ltb_spec (IndexByte l c) 0); [lia|]. destruct i as [|i]; [lia|]. apply IH. lia.
Qed.

Lemma parse_lines_yaml fuel buf s y st :
  headless buf → no_head y → 0 ≤ s ≤ len buf → len buf - s < Z.of_nat fuel →
  parse_lines fuel buf P.YamlRule s y st =
    Ret (if bool_decide (drop (Z.to_nat s) buf = [] ∨ last buf = Some 10) then Ok st else Err ErrNoPayload).
Proof using Type.
  intros Hf. revert s y. induction fuel as [|fuel IH]; intros s y Hy Hs Hl; [lia|]. cbn [parse_lines].
  destruct (Z.ltb_spec s (len buf)) as [Hlt|Hge].
  2:{ rewrite bool_decide_true; [done|]. left. apply drop_ge. lia. }
  rewrite slice_Ret by lia. cbn [mbind outcome_bind].
  rewrite (take_ge (drop _ _)) by (rewrite length_drop; lia). set (l := drop (Z.to_nat s) buf).
  assert (l ≠ []) as Hne.
  { intros Hx. apply (f_equal length) in Hx. unfold l in Hx. rewrite length_drop in Hx. simpl in Hx. lia. }
  assert (last l = last buf) as Hlast.
  { rewrite <- (take_drop (Z.to_nat s) buf) at 1. fold l. rewrite last_app.
    destruct (last l) eqn:E; [done|]. by apply last_None in E. }
  rewrite (proj1 Hy), (bool_decide_true (P.YamlRule = P.YamlRule)) by done. cbn [Z.eqb andb]. rewrite andb_true_r.
  destruct (Z.ltb_spec (IndexByte l 10) 0) as [Hi|Hi].
  - rewrite bool_decide_false; [done|]. rewrite <- Hlast. intros [?|Hx]; [done|].
    apply IndexByte_last in Hx; [lia|done].
  - destruct (Z_of_nat_complete _ Hi) as [i Hi']. rewrite Hi'.
    destruct (file_lines_some [] l i Hi') as [_ Hil]. unfold l in Hil. rewrite length_drop in Hil.
    rewrite (proj2 (Z.leb_le 0 (Z.of_nat i))) by lia. rewrite slice_Ret by lia. cbn [mbind outcome_bind].
    destruct (yaml_rule_none buf (Z.to_nat s) (Z.to_nat (Z.of_nat i + s + 1 - s)) y Hf Hy) as [H1 H2].
    destruct (yaml_rule y _) as [y' str]. cbn [fst snd] in H1, H2. subst str. rewrite bool_decide_true by done.
    rewrite IH by (done || lia). f_equal.
    rewrite (bool_decide_ext (drop (Z.to_nat (Z.of_nat i + s + 1)) buf = [] ∨ last buf = Some 10)
      (l = [] ∨ last buf = Some 10)); [done|]. split; [|naive_solver]. intros [Hd|?]; [|by right]. right. rewrite <- Hlast.
    assert (length l = S i) as Hll.
    { apply (f_equal length) in Hd. unfold l. rewrite length_drop in *. simpl in Hd. lia. }
    rewrite last_lookup, Hll. by apply IndexByte_lookup.
Qed.

(** A YAML file in which no line is the head of a list of rules should be refused,
    as it has no payload.  It is refused only when its last line does not end in a
    newline; otherwise, and when it is empty, it is loaded like an empty list of rules. *)
Theorem yaml_no_payload buf strategy :
  headless buf →
  rulesParse buf strategy P.YamlRule =
    (if bool_decide (buf = [] ∨ last buf = Some 10)
     then strategy ← rulesParseInline [] strategy; Ret (Ok strategy)
     else Ret (Err ErrNoPayload)).
Proof using Type.
  intros Hf. unfold rulesParse. rewrite parse_lines_yaml by (done || lia). cbn [mbind outcome_bind].
  change (drop (Z.to_nat 0) buf) with buf. by case_bool_decide.
Qed.
End failures.

(** ** Examples *)

Module Examples.
Import Rules.Examples SetExamples.

(** A YAML library that finds nothing, and a compression that does nothing. *)
Definition example_lib : ProviderLib := {|
  ParsePrefix_ s :=
    if bool_decide (s = "10.0.0.0/8") then Ok (mkPrefix (Addr4 (10 * 2 ^ 24)) 8) else Err (ErrMsg "no prefix");
  PrefixText _ := "10.0.0.0/8";
  sizeof_IPRange := 48;
  yaml_Unmarshal _ sc := (sc, true);
  zstd_NewReader bs := Ok bs;
  zstd_Encode bs := bs;
  SortFunc _ l := l;
  Sort_ l := l;
|}.

#[local] Existing Instance counting_lib.
#[local] Existing Instance pair_lib.
#[local] Existing Instance example_lib.

Definition domain_file : list Z := sbytes "# ads" ++ [10] ++ sbytes "+.example.com" ++ [10] ++ sbytes "a.org".
Definition prefix_file : list Z := sbytes "10.0.0.0/8" ++ [10] ++ sbytes "nonsense".

Definition load (behavior : P.RuleBehavior) (buf : list Z) : baseProvider :=
  match provider_update (mkProvider behavior None) P.TextRule None buf with
  | Ret (Ok bp) => bp
  | _ => mkProvider behavior None
  end.

Definition table : gmap string baseProvider :=
  <["ads" := load P.Domain domain_file]> (<["lan" := load P.IPCIDR prefix_file]> ∅).

Definition to_host : Metadata * unit := (set_Host "www.Example.com" zeroMetadata, tt).

Lemma domain_file_clean : Forall clean (domain_rules (text_rules domain_file)).
Proof.
  replace (domain_rules _) with [""; "+.example.com"; "a.org"] by (vm_compute; reflexivity).
  apply Forall_forall. intros d Hd. apply clean_dec. revert d Hd. apply Forall_forall. by repeat constructor.
Qed.

Lemma ruleset_text_domains_witness :
  Match (serve table small_world 1) no_helper ∅ 1 (RuleSet "ads" "REJECT" false false) to_host =
    Ret ((true, "REJECT"), to_host).
Proof.
  etransitivity; [refine (ruleset_text_domains small_world table ∅ no_helper 0 0 "ads" "REJECT" false None domain_file
    (mkProvider P.Domain None) (load P.Domain domain_file) to_host ["www"; "example"; "com"] eq_refl _ _ _
    domain_file_clean _ _ _)|].
  - vm_compute. reflexivity.
  - reflexivity.
  - vm_compute. discriminate.
  - vm_compute. reflexivity.
  - done.
  - apply clean_ascii, clean_dec. reflexivity.
  - vm_compute. reflexivity.
Defined.

Lemma ruleset_text_prefixes_witness :
  let c := (set_DstIP (Addr4 (10 * 2 ^ 24 + 7)) zeroMetadata, tt) in
  Match (serve table small_world 1) no_helper ∅ 1 (RuleSet "lan" "DIRECT" false true) c = Ret ((true, "DIRECT"), c).
Proof.
  intros c. etransitivity; [refine (ruleset_text_prefixes small_world table ∅ no_helper 0 0 "lan" "DIRECT" true None
    prefix_file (mkProvider P.IPCIDR None) (load P.IPCIDR prefix_file) c eq_refl _ _)|].
  - vm_compute. reflexivity.
  - reflexivity.
  - vm_compute. reflexivity.
Defined.

Definition file_strategy : ruleStrategy :=
  default (SDomain NewDomainStrategy) (p_strategy (load P.Domain domain_file)).

Definition file_domains : domainStrategy :=
  match file_strategy with SDomain d => d | _ => NewDomainStrategy end.

Lemma example_zstd stream : zstd_NewReader (zstd_Encode stream) = Ok stream.
Proof. done. Qed.

Lemma example_sortfunc cmp l : SortFunc cmp l ≡ₚ l.
Proof. done. Qed.

Lemma example_sort l : Sort_ l ≡ₚ l.
Proof. done. Qed.

Definition prefix_strategy : ruleStrategy :=
  default (SDomain NewDomainStrategy) (p_strategy (load P.IPCIDR prefix_file)).

Lemma prefix_strategy_kept : prefixes_kept prefix_strategy.
Proof.
  replace prefix_strategy with
    (SIPCidr (mkIpcidrStrategy 1 (Some (mkCidr (lib := pair_lib) [(Addr4 (10 * 2 ^ 24), Addr4 (11 * 2 ^ 24 - 1))])))) by (vm_compute; reflexivity).
  intros set [= <-]. split; [|vm_compute; repeat split; discriminate].
  apply Forall_singleton. split; vm_compute; (split; [discriminate|reflexivity]).
Qed.

Lemma mrs_roundtrip_witness :
  (∃ bs, ConvertToMrs domain_file P.Domain P.TextRule [] = Ret (Ok bs) ∧
    rulesParse bs (newStrategy P.Domain None) P.MrsRule = Ret (Ok file_strategy)) ∧
  (∃ bs, ConvertToMrs prefix_file P.IPCIDR P.TextRule [] = Ret (Ok bs) ∧
    rulesParse bs (newStrategy P.IPCIDR None) P.MrsRule = Ret (Ok prefix_strategy)).
Proof.
  split.
  - apply (mrs_roundtrip example_zstd P.Domain domain_file None file_strategy);
      [vm_compute; discriminate|done|vm_compute; reflexivity|vm_compute; discriminate|vm_compute; exact I].
  - apply (mrs_roundtrip example_zstd P.IPCIDR prefix_file None prefix_strategy);
      [vm_compute; discriminate|done|vm_compute; reflexivity|vm_compute; discriminate|exact prefix_strategy_kept].
Defined.

Lemma mrs_dump_roundtrip_witness :
  ∃ text d', through_mrs domain_file text ∧
    rulesParse text (newStrategy P.Domain None) P.TextRule = Ret (Ok (SDomain d')) ∧
    domainSet d' = domainSet file_domains.
Proof.
  refine (mrs_dump_roundtrip example_sortfunc example_sort example_zstd domain_file
    file_domains _ domain_file_clean _ _).
  - vm_compute. discriminate.
  - vm_compute. reflexivity.
  - vm_compute. discriminate.
Defined.

Lemma convert_failures_witness :
  (∃ mrs text, ConvertToMrs domain_file P.Domain P.TextRule [] = Ret (Ok mrs) ∧
    ConvertToMrs mrs P.Domain P.MrsRule [] = Ret (Ok text) ∧ text ≠ [] ∧
    ConvertToMrs mrs P.Domain P.MrsRule closed_pipe = Ret (Ok closed_pipe)) ∧
  ConvertToMrs (sbytes "DOMAIN,a.org") P.Classical P.TextRule closed_pipe = Panic nil_pointer.
Proof.
  refine (convert_failures example_sortfunc example_sort example_zstd domain_file
    file_domains (sbytes "DOMAIN,a.org") "DOMAIN,a.org" [] _ domain_file_clean _ _ _ _ _).
  - vm_compute. discriminate.
  - vm_compute. reflexivity.
  - vm_compute. discriminate.
  - vm_compute. reflexivity.
  - done.
  - apply (bool_decide_unpack _). vm_compute. exact I.
Defined.

(** A rule set of classical rules that refers to the others, and one that refers to it. *)
Definition mixed_file : list Z := sbytes "OR,((RULE-SET,ads),(RULE-SET,lan))" ++ [10] ++ sbytes "NETWORK,udp" ++ [10].
Definition outer_file : list Z := sbytes "NOT,((RULE-SET,mixed))" ++ [10].

Definition classical (buf : list Z) : baseProvider :=
  match provider_update (mkProvider P.Classical None) P.TextRule (Some (ParseRule_ small_world)) buf with
  | Ret (Ok bp) => bp
  | _ => mkProvider P.Classical None
  end.

Definition nested : gmap string baseProvider :=
  <["outer" := classical outer_file]> (<["mixed" := classical mixed_file]> table).

Definition depth (name : string) : nat :=
  if bool_decide (name = "outer") then 2 else if bool_decide (name = "mixed") then 1 else 0.

(** The names that the rules of a provider refer to. *)
Definition names_of (bp : baseProvider) : list string :=
  match p_strategy bp with Some st => flat_map ProviderNames (strategy_rules st) | None => [] end.

Lemma nested_lookup (Q : string → baseProvider → Prop) :
  Q "outer" (classical outer_file) → Q "mixed" (classical mixed_file) → Q "ads" (load P.Domain domain_file) →
  Q "lan" (load P.IPCIDR prefix_file) → map_Forall Q nested.
Proof. intros. do 4 (apply map_Forall_insert_2; [done|]). apply map_Forall_empty. Qed.

Lemma classical_loaded buf n :
  len buf ≤ 2 ^ 25 → strategy_rules <$> p_strategy (classical buf) = Some n →
  ∃ behavior buf', len buf' ≤ 2 ^ 25 ∧
    provider_update (mkProvider behavior None) P.TextRule (Some (ParseRule_ small_world)) buf' = Ret (Ok (classical buf)).
Proof.
  intros Hl Hs. exists P.Classical, buf. split; [done|]. unfold classical in *.
  by destruct (provider_update _ _ _ _) as [[bp|e]| |].
Qed.

Lemma nested_loaded : loaded nested small_world.
Proof.
  apply nested_lookup.
  - eapply classical_loaded; [vm_compute; discriminate|]. vm_compute. reflexivity.
  - eapply classical_loaded; [vm_compute; discriminate|]. vm_compute. reflexivity.
  - exists P.Domain, domain_file. split; [vm_compute; discriminate|]. vm_compute. reflexivity.
  - exists P.IPCIDR, prefix_file. split; [vm_compute; discriminate|]. vm_compute. reflexivity.
Qed.

Lemma nested_names : names_of (classical outer_file) = ["mixed"] ∧ names_of (classical mixed_file) = ["ads"; "lan"].
Proof. vm_compute. done. Qed.

Lemma nested_refers name name' : refers nested name name' → (depth name' < depth name)%nat.
Proof.
  intros (bp & st & r & Hbp & Hst & Hr & Hn).
  assert (name' ∈ names_of bp) as Hin by (unfold names_of; rewrite Hst; apply elem_flat_map; eauto).
  clear -Hbp Hin. revert name bp Hbp Hin.
  apply (nested_lookup (λ name bp, name' ∈ names_of bp → (depth name' < depth name)%nat)); intros Hin.
  - rewrite (proj1 nested_names) in Hin. apply list_elem_of_singleton in Hin as ->. vm_compute. lia.
  - rewrite (proj2 nested_names) in Hin. apply elem_of_cons in Hin as [->|Hin]; [vm_compute; lia|]. apply list_elem_of_singleton in Hin as ->. vm_compute. lia.
  - vm_compute in Hin. by apply not_elem_of_nil in Hin.
  - vm_compute in Hin. by apply not_elem_of_nil in Hin.
Qed.

Lemma ruleset_providers_return_witness :
  ∃ N, ∀ n, (N ≤ n)%nat → providers_return (serve nested small_world n) ∧
    ∀ subRules r S (helper : RuleMatchHelper S),
      verifySubRule subRules = Ret (Ok tt) →
      (∀ name rules, subRules !! name = Some rules → Forall wf_rule rules) → wf_rule r →
      ∃ F, ∀ fuel c, (F ≤ fuel)%nat → ∃ res, Match (serve nested small_world n) helper subRules fuel r c = Ret res.
Proof.
  apply (ruleset_providers_return small_world nested depth).
  - intros s p. cbn [small_world ParsePrefix]. case_bool_decide; [|done]. by intros [= <-].
  - exact nested_loaded.
  - exact nested_refers.
Defined.

Lemma ruleset_self_reference_witness :
  provider_update (mkProvider P.Classical None) P.TextRule (Some (ParseRule_ small_world)) loop_file =
    Ret (Ok (loop_provider small_world)) ∧
  Match (serve {["loop" := loop_provider small_world]} small_world 5) no_helper ∅ 10
    (RuleSet "loop" "REJECT" false false) to_host = OutOfFuel ∧
  provider_update (mkProvider P.Classical None) P.TextRule (Some (ParseRule_ small_world)) (sbytes "RULE-SET,loop") =
    Ret (Ok (mkProvider P.Classical (Some (SClassical (mkClassicalStrategy [] 0 (Some (ParseRule_ small_world))))))).
Proof. apply ruleset_self_reference. reflexivity. Defined.

Lemma yaml_no_payload_witness :
  rulesParse (sbytes "payload:") (newStrategy P.Domain None) P.YamlRule = Ret (Err ErrNoPayload).
Proof.
  apply (yaml_no_payload (sbytes "payload:") (newStrategy P.Domain None)). by intros i n sc.
Defined.

Lemma domain_set_returns_witness :
  ∃ b ss, insert_all newBuilder patterns.*1 = Ret b ∧ fits (keys b) ∧
    Build (Some b) = Ret (ss, Some newBuilder) ∧ ∀ key, ∃ r, Has ss key = Ret r.
Proof.
  destruct (domain_set_returns patterns.*1) as (b & Hb & H).
  assert (fits (keys b)) as Hf.
  { replace b with builder; [vm_compute; reflexivity|]. vm_compute in Hb. injection Hb as <-. vm_compute. reflexivity. }
  destruct (H Hf) as (ss & Hss & Hhas). exists b, ss. split; [exact Hb|]. split; [exact Hf|]. split; [exact Hss|exact Hhas].
Defined.
End Examples.
