(* ===== verification/Hosts.v ===== *)
(** * The hosts table ([component/resolver/host.go], [parseHosts] of [config/config.go])

    A domain trie maps domains to addresses or to other domains; [Search] follows
    the domains.  The loop has fuel, and [OutOfFuel] stands for a search that does
    not end.

    Parsing an address, the system's hosts file and the addresses of interfaces are
    parameters, and so is the random number of [RandIP]. *)

From Stdlib Require Import Ascii.
From S2P Require Import Prelude Wire GoStrings NetIP DomainTrie.

Record HostValue := mkHostValue { IsDomain : bool; IPs : list Addr; hv_Domain : string }.

Definition NewHostValueByIPs (ips : list Addr) : result HostValue :=
  match ips with
  | [] => Err (ErrMsg "ip list is empty")
  | _ => Ok (mkHostValue false ips "")
  end.

Definition NewHostValueByDomain (domain : string) : result HostValue :=
  let domain := Trim domain "." in
  if (length (Split "." domain) <? 2)%nat then Err (ErrMsg "invalid domain")
  else Ok (mkHostValue true [] domain).

(** [IntN] is the random number below its argument, for which [randv2.IntN] panics at
    zero. *)
Definition RandIP (IntN : nat → nat) (hv : HostValue) : outcome (result Addr) :=
  if IsDomain hv then Ret (Err (ErrMsg "value type is error"))
  else
    match IPs hv with
    | [] => Panic "invalid argument to IntN"
    | ips => ip ← idx ips (Z.of_nat (IntN (length ips))); Ret (Ok ip)
    end.

Section hosts.
Variable ParseAddr : string → option Addr.         (* netip.ParseAddr *)

(** The addresses of a list of two or more texts. *)
Fixpoint parse_ips (value : list string) : result (list Addr) :=
  match value with
  | [] => Ok []
  | str :: value =>
    match ParseAddr str with
    | Some ip => ips ← parse_ips value; Ok (Unmap ip :: ips)
    | None => Err (ErrMsg "ParseAddr")
    end
  end.

Definition NewHostValue (value : list string) : result HostValue :=
  match value with
  | [] => Err (ErrMsg "value is empty")
  | [host] =>
    match ParseAddr host with
    | Some ip => NewHostValueByIPs [Unmap ip]
    | None => NewHostValueByDomain host
    end
  | _ => ips ← parse_ips value; NewHostValueByIPs ips
  end.

(** ** Searching *)

Variable LookupStaticHost : string → list string.   (* the hosts file of the system *)
Variable UseSystem : bool.                          (* !DisableSystemHosts && UseSystemHosts *)

Abbreviation Hosts := (@DomainTrie HostValue).

(** The value of a node that was found. *)
Definition value_of (t : Hosts) (domain : string) : option HostValue := Data (DomainTrie.Search t domain).

Fixpoint search_loop (fuel : nat) (t : Hosts) (isDomain : bool) (hv : HostValue) :
    outcome (HostValue * bool) :=
  match fuel with
  | O => OutOfFuel
  | S fuel =>
    if isDomain && IsDomain hv then Ret (hv, true)
    else
      match value_of t (hv_Domain hv) with
      | Some hv => search_loop fuel t isDomain hv
      | None => Ret (hv, Bool.eqb isDomain (IsDomain hv))
      end
  end.

Definition Search (fuel : nat) (t : Hosts) (domain : string) (isDomain : bool) :
    outcome (option HostValue * bool) :=
  match value_of t domain with
  | Some hv => '(hv, ok) ← search_loop fuel t isDomain hv; Ret (Some hv, ok)
  | None =>
    if negb isDomain && UseSystem then
      match NewHostValue (LookupStaticHost domain) with
      | Ok hv => Ret (Some hv, true)
      | Err _ => Ret (None, false)
      end
    else Ret (None, false)
  end.

(** ** The hosts of a configuration *)

Variable InterfaceAddrs : option (list string).     (* the addresses for "lan" *)

(** The check for a cycle before [domain] is inserted. *)
Fixpoint check_cycle (fuel : nat) (tree : Hosts) (domain : string) (node : option HostValue) :
    outcome (result unit) :=
  match fuel with
  | O => OutOfFuel
  | S fuel =>
    match node with
    | Some hv =>
      if negb (IsDomain hv) then Ret (Ok tt)
      else if bool_decide (hv_Domain hv = domain) then
        Ret (Err (ErrMsg (domain +:+ ", there is a cycle in domain name mapping")))
      else check_cycle fuel tree domain (value_of tree (hv_Domain hv))
    | None => Ret (Ok tt)
    end
  end.

(** One entry; an invalid domain is skipped with a warning. *)
Definition add_host (fuel : nat) (tree : Hosts) (domain : string) (hosts : list string) :
    outcome (result Hosts) :=
  let hosts :=
    if bool_decide (hosts = ["lan"]) then default hosts InterfaceAddrs else hosts in
  match NewHostValue hosts with
  | Err _ => Ret (Err (ErrMsg "not a valid value"))
  | Ok value =>
    checked ← (if IsDomain value then check_cycle fuel tree domain (value_of tree (hv_Domain value))
               else Ret (Ok tt));
    Ret match checked with
        | Err e => Err e
        | Ok _ => Ok match Insert tree domain value with inr tree => tree | inl _ => tree end
        end
  end.

Fixpoint add_hosts (fuel : nat) (tree : Hosts) (cfg : list (string * list string)) : outcome (result Hosts) :=
  match cfg with
  | [] => Ret (Ok tree)
  | (domain, hosts) :: cfg =>
    added ← add_host fuel tree domain hosts;
    match added with
    | Err e => Ret (Err e)
    | Ok tree => add_hosts fuel tree cfg
    end
  end.

(** [127.0.0.1] for "localhost". *)
Definition localhost : HostValue := mkHostValue false [Addr4 (127 * 2 ^ 24 + 1)] "".

(** [parseHosts], for the entries in the order of the map iteration. *)
Definition parseHosts (fuel : nat) (cfg : list (string * list string)) : outcome (result Hosts) :=
  let tree := match Insert New "localhost" localhost with inr tree => tree | inl _ => New end in
  added ← add_hosts fuel tree cfg;
  Ret match added with Err e => Err e | Ok tree => Ok (Optimize tree) end.

(** ** Following domains *)

(** [d] is mapped to the domain [d']. *)
Definition alias (t : Hosts) (d d' : string) : Prop :=
  ∃ hv, value_of t d = Some hv ∧ hv_Domain hv = d'.

Lemma search_loop_acc t isDomain hv :
  Acc (flip (alias t)) (hv_Domain hv) →
  ∃ F, ∀ fuel, (F ≤ fuel)%nat → ∃ res, search_loop fuel t isDomain hv = Ret res.
Proof.
  intros Ha. remember (hv_Domain hv) as d eqn:Hd. revert hv Hd.
  induction Ha as [d _ IH]; intros hv ->.
  destruct (value_of t (hv_Domain hv)) as [hv'|] eqn:Hv.
  - destruct (IH (hv_Domain hv')) with (hv := hv') as [F HF]; [by exists hv'|done|].
    exists (S F). intros [|fuel] Hf; [lia|]. simpl. destruct (isDomain && _); [by eexists|].
    rewrite Hv. apply HF. lia.
  - exists 1%nat. intros [|fuel] Hf; [lia|]. simpl. destruct (isDomain && _); [by eexists|].
    rewrite Hv. by eexists.
Qed.

(** A search returns whenever the aliases that it follows are not cyclic. *)
Theorem hosts_search_returns t domain isDomain :
  Acc (flip (alias t)) domain →
  ∃ F, ∀ fuel, (F ≤ fuel)%nat → ∃ res, Search fuel t domain isDomain = Ret res.
Proof.
  intros Ha. unfold Search. destruct (value_of t domain) as [hv|] eqn:Hv.
  - destruct (search_loop_acc t isDomain hv) as [F HF]; [apply Ha; by exists hv|].
    exists F. intros fuel Hf. destruct (HF fuel Hf) as [[hv' ok] ->]. by eexists.
  - exists 0%nat. intros fuel _. destruct (negb isDomain && UseSystem); [|by eexists].
    destruct (NewHostValue _); by eexists.
Qed.

(** ** A domain that is mapped to itself *)

Lemma value_of_Insert t d v t' p ps :
  ValidAndSplitDomain d = inr (p :: ps) → p ≠ complexWildcard → p ≠ "" → Insert t d v = inr t' →
  value_of t' d = Some v.
Proof.
  intros Hd Hp Hne Hi. unfold value_of. destruct (Search_best t' d) as [-> _]. rewrite Hd. simpl.
  rewrite bool_decide_false by done.
  pose proof (getPath_Insert t d v) as Hg. rewrite Hd, Hi in Hg.
  apply best_exact. rewrite Hg. unfold paths. rewrite (bool_decide_false (p = _)) by done.
  rewrite bool_decide_true; [done|]. by apply list_elem_of_singleton.
Qed.

Lemma value_of_Optimize t d : wf t → value_of (Optimize t) d = value_of t d.
Proof.
  intros Hw. unfold value_of, Optimize. destruct (Search_best (optimize t) d) as [-> _].
  destruct (Search_best t d) as [-> _]. destruct (ValidAndSplitDomain d); [done|].
  case_bool_decide; [done|]. apply best_ext. intros q. by apply optimize_getPath.
Qed.

Lemma search_loop_self t d hv fuel :
  hv_Domain hv = d → value_of t d = Some hv → search_loop fuel t false hv = OutOfFuel.
Proof.
  intros Hd Hv. induction fuel as [|fuel IH]; [done|]. simpl. by rewrite Hd, Hv.
Qed.

(** The tree before the entries of the configuration. *)
Lemma localhost_tree :
  ∃ t0, Insert New "localhost" localhost = inr t0 ∧ wf t0 ∧
    ∀ x hv, value_of t0 x = Some hv → IsDomain hv = false.
Proof.
  destruct (Insert New "localhost" localhost) as [e|t0] eqn:Hi; [by vm_compute in Hi|].
  exists t0. split; [done|]. split.
  { pose proof (wf_build New [("localhost", localhost)] wf_newNode) as Hw.
    cbn [build] in Hw. by rewrite Hi in Hw. }
  intros x hv. unfold value_of. destruct (Search_best t0 x) as [-> _].
  destruct (ValidAndSplitDomain x); [done|]. case_bool_decide; [done|].
  intros (q & _ & Hq)%best_sound. pose proof (getPath_Insert New "localhost" localhost) as Hg.
  rewrite Hi in Hg. destruct (ValidAndSplitDomain "localhost") as [|parts]; [done|].
  rewrite Hg, getPath_New in Hq. case_bool_decide; by simplify_eq.
Qed.

Lemma wf_Insert_inr (t : Hosts) d v t' : wf t → Insert t d v = inr t' → wf t'.
Proof. intros Hw Hi. pose proof (wf_build t [(d, v)] Hw) as H. cbn [build] in H. by rewrite Hi in H. Qed.

(** C38: a hosts entry that maps a domain to itself passes the check for cycles, and the
    search for its addresses never returns. *)
Theorem hosts_self_mapping_hangs d p ps :
  ValidAndSplitDomain d = inr (p :: ps) → p ≠ complexWildcard → p ≠ "" →
  ParseAddr d = None → d ≠ "lan" → Trim d "." = d → (2 ≤ length (Split "." d))%nat →
  ∃ t, (∀ fuel, (0 < fuel)%nat → parseHosts fuel [(d, [d])] = Ret (Ok t)) ∧
    ∀ fuel, Search fuel t d false = OutOfFuel.
Proof.
  intros Hd Hp Hne Hip Hlan Htrim Hlen. destruct localhost_tree as (t0 & Ht0 & Hw0 & Hip0).
  pose proof (getPath_Insert t0 d (mkHostValue true [] d)) as Hi. rewrite Hd in Hi.
  destruct (Insert t0 d (mkHostValue true [] d)) as [e|t1] eqn:Ht1; [done|]. clear Hi.
  assert (NewHostValue [d] = Ok (mkHostValue true [] d)) as Hnew.
  { unfold NewHostValue, NewHostValueByDomain. rewrite Hip, Htrim.
    destruct (Nat.ltb_spec (length (Split "." d)) 2); [lia|done]. }
  assert (wf t1) as Hw1 by by eapply wf_Insert_inr.
  assert (value_of (Optimize t1) d = Some (mkHostValue true [] d)) as Hv.
  { rewrite value_of_Optimize by done. by eapply value_of_Insert. }
  exists (Optimize t1). split.
  - intros [|fuel] Hf; [lia|]. unfold parseHosts. rewrite Ht0. cbn [add_hosts]. unfold add_host.
    rewrite bool_decide_false by (intros [= ?]; done). rewrite Hnew. cbn [IsDomain hv_Domain].
    assert (check_cycle (S fuel) t0 d (value_of t0 d) = Ret (Ok tt)) as ->.
    { cbn [check_cycle]. destruct (value_of t0 d) as [hv|] eqn:E; [|done]. by rewrite (Hip0 _ _ E). }
    cbn [mbind outcome_bind]. by rewrite Ht1.
  - intros fuel. unfold Search. rewrite Hv. by rewrite (search_loop_self _ d).
Qed.
End hosts.

Module Examples.

(** Any text with a letter is not an address. *)
Definition no_addr (s : string) : option Addr := if has_byte "1" s then Some (Addr4 1) else None.

Lemma hosts_self_mapping_hangs_witness :
  ∃ t, (∀ fuel, (0 < fuel)%nat → parseHosts no_addr None fuel [("a.com", ["a.com"])] = Ret (Ok t)) ∧
    ∀ fuel, Search no_addr (λ _, []) false fuel t "a.com" false = OutOfFuel.
Proof.
  apply (hosts_self_mapping_hangs no_addr (λ _, []) false None "a.com" "a" ["com"]);
    try reflexivity; try discriminate.
Defined.

Definition chain : @DomainTrie HostValue :=
  match parseHosts no_addr None 9 [("a.com", ["b.com"]); ("b.com", ["10.0.0.1"])] with
  | Ret (Ok t) => t
  | _ => New
  end.

Lemma hosts_search_returns_witness :
  ∃ F, ∀ fuel, (F ≤ fuel)%nat →
    ∃ res, Search no_addr (λ _, []) false fuel chain "a.com" false = Ret res.
Proof.
  apply (hosts_search_returns no_addr (λ _, []) false chain "a.com" false).
  constructor. intros d (hv & Hv & <-). vm_compute in Hv. injection Hv as <-.
  constructor. intros d (hv & Hv & <-). vm_compute in Hv. injection Hv as <-.
  constructor. intros d (hv & Hv & <-). by vm_compute in Hv.
Defined.

Example chain_search :
  Search no_addr (λ _, []) false 5 chain "a.com" false = Ret (Some (mkHostValue false [Addr4 1] ""), true).
Proof. vm_compute. reflexivity. Qed.

(** A wildcard entry whose target it covers itself is such a cycle, too. *)
Example wildcard_hangs :
  ∃ t, parseHosts no_addr None 9 [("*.a.com", ["x.a.com"])] = Ret (Ok t) ∧
    ∀ fuel, Search no_addr (λ _, []) false fuel t "y.a.com" false = OutOfFuel.
Proof.
  eexists. split; [vm_compute; reflexivity|]. intros fuel. unfold Search.
  set (t := mkNode _ _ _ _).
  assert (∀ d, d = "x.a.com" ∨ d = "y.a.com" → value_of t d = Some (mkHostValue true [] "x.a.com")) as Hv.
  { intros d [->| ->]; vm_compute; reflexivity. }
  rewrite Hv by by right. rewrite (search_loop_self t "x.a.com"); [done|done|]. apply Hv. by left.
Qed.

End Examples.
