(* ===== verification/Dns.v ===== *)
(** * DNS messages, their cache and the resolver ([dns/util.go], [dns/resolver.go])

    A message has the fields of [github.com/miekg/dns] that the resolver uses.  The
    methods of that package ([SetRcode], [Question.String], [Fqdn]) and the generic
    helpers [lo.MinBy] and [lo.Clamp] are parameters, with what their documentation
    says as hypotheses.

    A name server is a function from queries to answers.  Servers are asked
    concurrently; [race] is the order in which their answers arrive.  Time is in
    nanoseconds; the cache keeps seconds. *)

From S2P Require Import Prelude Lru Wire GoStrings NetIP.

(** ** Messages *)

Definition TypeA : Z := 1.
Definition TypeCNAME : Z := 5.
Definition TypeTXT : Z := 16.
Definition TypeAAAA : Z := 28.
Definition TypeOPT : Z := 41.
Definition TypeSVCB : Z := 64.
Definition TypeHTTPS : Z := 65.
Definition ClassINET : Z := 1.
Definition RcodeSuccess : Z := 0.
Definition RcodeServerFailure : Z := 2.
Definition RcodeRefused : Z := 5.

Record RR_Header := mkHeader { h_Name : string; Rrtype : Z; h_Class : Z; Ttl : Z }.

Inductive RR : Type :=
| RR_A (hdr : RR_Header) (a : list Z)
| RR_AAAA (hdr : RR_Header) (aaaa : list Z)
| RR_CNAME (hdr : RR_Header) (target : string)
| RR_Other (hdr : RR_Header) (rdata : list Z).

Definition Header (rr : RR) : RR_Header :=
  match rr with RR_A h _ | RR_AAAA h _ | RR_CNAME h _ | RR_Other h _ => h end.

(** [rr.Header().Ttl = ttl]. *)
Definition set_Ttl (ttl : Z) (rr : RR) : RR :=
  let f h := mkHeader (h_Name h) (Rrtype h) (h_Class h) ttl in
  match rr with
  | RR_A h x => RR_A (f h) x
  | RR_AAAA h x => RR_AAAA (f h) x
  | RR_CNAME h x => RR_CNAME (f h) x
  | RR_Other h x => RR_Other (f h) x
  end.

Record Question := mkQuestion { q_Name : string; Qtype : Z; Qclass : Z }.

Record Msg := mkMsg {
  Id : Z;
  Authoritative : bool;
  RecursionAvailable : bool;
  Rcode : Z;
  Questions : list Question;
  Answer : list RR;
  Ns : list RR;
  Extra : list RR;
}.

Definition zeroMsg : Msg := mkMsg 0 false false 0 [] [] [] [].

Definition set_sections (a n e : list RR) (m : Msg) : Msg :=
  mkMsg (Id m) (Authoritative m) (RecursionAvailable m) (Rcode m) (Questions m) a n e.
Definition set_Answer (a : list RR) (m : Msg) : Msg := set_sections a (Ns m) (Extra m) m.
Definition set_Questions (qs : list Question) (m : Msg) : Msg :=
  mkMsg (Id m) (Authoritative m) (RecursionAvailable m) (Rcode m) qs (Answer m) (Ns m) (Extra m).
Definition set_Id (id : Z) (m : Msg) : Msg :=
  mkMsg id (Authoritative m) (RecursionAvailable m) (Rcode m) (Questions m) (Answer m) (Ns m) (Extra m).
Definition set_flags (auth ra : bool) (m : Msg) : Msg :=
  mkMsg (Id m) auth ra (Rcode m) (Questions m) (Answer m) (Ns m) (Extra m).

(** [Copy]; messages are values here. *)
Definition Copy (m : Msg) : Msg := m.

(** [netip.AddrFromSlice]. *)
Definition AddrFromSlice (bs : list Z) : Addr :=
  if (length bs =? 4)%nat then Addr4 (unbe bs)
  else if (length bs =? 16)%nat then Addr6 (unbe bs) ""
  else AddrZero.

Definition serverFailureCacheTTL : Z := 5.

(** [for _, x := range l { x.Header().Ttl = ttl }]. *)
Definition setMsgTTL (msg : Msg) (ttl : Z) : Msg :=
  set_sections (set_Ttl ttl <$> Answer msg) (set_Ttl ttl <$> Ns msg)
    ((λ extra, if Rrtype (Header extra) =? TypeOPT then extra else set_Ttl ttl extra) <$> Extra msg) msg.

Definition isIPRequest (q : Question) : bool :=
  (Qclass q =? ClassINET) &&
  ((Qtype q =? TypeA) || (Qtype q =? TypeAAAA) || (Qtype q =? TypeCNAME)).

(** The address of an answer. *)
Definition answer_ip (rr : RR) : option Addr :=
  match rr with
  | RR_A _ bs | RR_AAAA _ bs => Some (AddrFromSlice bs)
  | _ => None
  end.

Fixpoint msgToIP_loop (answers : list RR) : list Addr :=
  match answers with
  | [] => []
  | answer :: answers =>
    match answer_ip answer with
    | Some ip => if IsValid ip then Unmap ip :: msgToIP_loop answers else msgToIP_loop answers
    | None => msgToIP_loop answers
    end
  end.
Definition msgToIP (msg : Msg) : list Addr := msgToIP_loop (Answer msg).

Definition msgToDomain (msg : Msg) : string :=
  match Questions msg with
  | q :: _ => TrimRight (q_Name q) "."
  | [] => ""
  end.

Section dns.
Variable SetRcode : Msg → Msg → Z → Msg.           (* msg.SetRcode(request, rcode) *)
Variable Question_String : Question → string.
Variable Fqdn : string → string.
Variable SetQuestion : string → Z → Msg.           (* a new message, and SetQuestion *)
Variable MinBy : list RR → (RR → RR → bool) → option RR.
Variable Clamp : Z → Z → Z → Z.
Variable ParseAddr : string → option Addr.

Definition handleMsgWithEmptyAnswer (r : Msg) : Msg :=
  set_flags true true (SetRcode (set_Answer [] zeroMsg) r RcodeSuccess).

(** ** Times to live *)

Definition minimalTTL (records : list RR) : Z :=
  match MinBy records (λ r1 r2, Ttl (Header r1) <? Ttl (Header r2)) with
  | None => 0
  | Some rr => Ttl (Header rr)
  end.

Definition updateTTL (records : list RR) (ttl : Z) : list RR :=
  match records with
  | [] => []
  | _ =>
    let delta := u32 (minimalTTL records - ttl) in
    (λ rr, set_Ttl (Clamp (u32 (Ttl (Header rr) - delta)) 1 (Ttl (Header rr))) rr) <$> records
  end.

Definition updateMsgTTL (msg : Msg) (ttl : Z) : Msg :=
  set_sections (updateTTL (Answer msg) ttl) (updateTTL (Ns msg) ttl) (updateTTL (Extra msg) ttl) msg.

(** ** The cache *)

Definition second : Z := 1000000000.

Section cache.
Context {L elem : Type} `{!DList positive L elem}.

(** [newCache] for the default algorithm: an LRU cache that returns stale entries;
    the value [nil] is [None]. *)
Abbreviation LruC := (LruCache (K := string) (V := option Msg) (L := L) (elem := elem)).
Abbreviation cache_state := (gmap positive (entry (K := string) (V := option Msg)) * LruC)%type.

Definition newCache (CacheMaxSize : Z) : cache_state :=
  (∅, Lru.New [WithSize (if CacheMaxSize =? 0 then 4096 else CacheMaxSize); WithStale true]).

(** The message, the expiry in seconds and whether there was an entry. *)
Definition getMsgFromCache (c : cache_state) (now : Z) (q : Question) :
    outcome (option Msg * Z * bool * cache_state) :=
  '(msg, expireTime, hit, h, c) ← Lru.GetWithExpire None c.1 c.2 (now / second) (Question_String q);
  mret (option_map Copy msg, expireTime, hit, (h, c)).

(** The message that is stored and its time to live. *)
Definition cached (msg : Msg) : Msg * Z :=
  let msg := Copy msg in
  let msg := set_sections (Answer msg) (Ns msg)
    (List.filter (λ rr, negb (Rrtype (Header rr) =? TypeOPT)) (Extra msg)) msg in
  (msg, if Rcode msg =? RcodeServerFailure then serverFailureCacheTTL
        else minimalTTL (Answer msg ++ Ns msg ++ Extra msg)).

Definition putMsgToCache (c : cache_state) (now : Z) (q : Question) (msg : Msg) : outcome cache_state :=
  if (Qtype q =? TypeTXT) && HasPrefix (q_Name q) "_acme-challenge." then mret c
  else
    let (msg, ttl) := cached msg in
    if ttl =? 0 then mret c
    else
      let expires := (now + ttl * second) / second in
      '(h, c) ← Lru.SetWithExpire c.1 c.2 (now / second) (Question_String q) (Some msg) expires;
      mret (h, c).

(** ** Asking servers *)

Record dnsClient := mkClient { isRCodeClient : bool; Exchange : Msg → result Msg }.

(** The order in which concurrent queries finish. *)
Variable race : list (result Msg) → list (result Msg).

(** [RcodeToString], and whether [errors.Is] finds a deadline or a cancellation. *)
Variable RcodeToString : Z → string.
Variable cancelled : goerr → bool.

(** The first success. *)
Fixpoint first_ok (l : list (result Msg)) : option Msg :=
  match l with
  | [] => None
  | Ok m :: _ => Some m
  | Err _ :: l => first_ok l
  end.

(** The first failure. *)
Fixpoint first_err (l : list (result Msg)) : option goerr :=
  match l with
  | [] => None
  | Ok _ :: l => first_err l
  | Err e :: _ => Some e
  end.

(** What a query of [batchExchange] reports to the picker. *)
Definition ask (m : Msg) (client : dnsClient) : result Msg :=
  m ← Exchange client m;
  if (Rcode m =? RcodeServerFailure) || (Rcode m =? RcodeRefused) then
    Err (ErrMsg ("server failure: " +:+ RcodeToString (Rcode m)))
  else Ok m.

(** The answer and whether it may be cached: a client with a fixed code answers at
    once, otherwise the first success wins. *)
Definition batchExchange (clients : list dnsClient) (m : Msg) : result (Msg * bool) :=
  match List.find isRCodeClient clients with
  | Some client => msg ← Exchange client m; Ok (msg, false)
  | None =>
    let answers := race (ask m <$> clients) in
    match first_ok answers with
    | Some msg => Ok (msg, true)
    | None =>
      Err (ErrMsg ("all DNS requests failed" +:+
        match first_err answers with Some e => ", first error: " +:+ Error e | None => "" end))
    end
  end.

(** *** Clients that do not answer some types *)

Definition inQuestion (disableTypes : gset Z) (q : Question) : bool := bool_decide (Qtype q ∈ disableTypes).
Definition inRR (disableTypes : gset Z) (rr : RR) : bool := bool_decide (Rrtype (Header rr) ∈ disableTypes).

Definition disable_ExchangeContext (disableTypes : gset Z) (c : dnsClient) (m : Msg) : result Msg :=
  if existsb (inQuestion disableTypes) (Questions m) then Ok (handleMsgWithEmptyAnswer m)
  else
    msg ← Exchange c m;
    let keep := List.filter (λ rr, negb (inRR disableTypes rr)) in
    Ok (set_sections (keep (Answer msg)) (keep (Ns msg)) (keep (Extra msg)) msg).

Definition isDisableTypesParam (key : string) : bool :=
  bool_decide (key = "disable-ipv4") || bool_decide (key = "disable-ipv6") || HasPrefix key "disable-qtype-".

Variable TypeToRR : Z → bool.                      (* is the type a key of TypeToRR *)

(** The type that a parameter "disable-qtype-<n>" names. *)
Definition disabled_qtype (p : string * string) : option Z :=
  let '(key, value) := p in
  let prefix := "disable-qtype-" in
  if HasPrefix key prefix && bool_decide (value = "true") then
    match ParseUint (String.substring (String.length prefix) (String.length key) key) with
    | Some qType => if (qType <? 2 ^ 16) && TypeToRR qType then Some qType else None
    | None => None
    end
  else None.

Definition disabled_types (params : gmap string string) : gset Z :=
  (if bool_decide (params !! "disable-ipv4" = Some "true") then {[TypeA]} else ∅) ∪
  (if bool_decide (params !! "disable-ipv6" = Some "true") then {[TypeAAAA]} else ∅) ∪
  list_to_set (omap disabled_qtype (map_to_list params)).

Definition wrapClientWithDisableTypes (c : dnsClient) (params : gmap string string) : dnsClient :=
  let disableTypes := disabled_types params in
  if bool_decide (disableTypes = ∅) then c
  else mkClient false (disable_ExchangeContext disableTypes c).

(** The servers and filters; the cache is passed along, and the timeout for IPv6 is
    an argument of [LookupIP]. *)
Record Resolver := mkResolver {
  main : list dnsClient;
  fallback : option (list dnsClient);              (* nil when there is none *)
  fallbackDomainFilters : list (string → bool);
  fallbackIPFilters : list (Addr → bool);
  policy : option (list (string → list dnsClient));
}.

Definition shouldIPFallback (r : Resolver) (ip : Addr) : bool :=
  existsb (λ filter, filter ip) (fallbackIPFilters r).

Fixpoint policy_loop (policies : list (string → list dnsClient)) (domain : string) : list dnsClient :=
  match policies with
  | [] => []
  | p :: policies =>
    match p domain with
    | [] => policy_loop policies domain
    | clients => clients
    end
  end.

Definition matchPolicy (r : Resolver) (m : Msg) : list dnsClient :=
  match policy r with
  | None => []
  | Some policies =>
    let domain := msgToDomain m in
    if bool_decide (domain = "") then [] else policy_loop policies domain
  end.

Definition shouldOnlyQueryFallback (r : Resolver) (m : Msg) : bool :=
  match fallback r with
  | None => false
  | Some _ =>
    match fallbackDomainFilters r with
    | [] => false
    | filters =>
      let domain := msgToDomain m in
      if bool_decide (domain = "") then false else existsb (λ df, df domain) filters
    end
  end.

(** The result of [asyncExchange]. *)
Definition asyncExchange (clients : list dnsClient) (m : Msg) : result Msg :=
  res ← batchExchange clients m; Ok res.1.

(** [ipExchange]; a lazy fallback query has the result that an eager one has. *)
Definition ipExchange (r : Resolver) (m : Msg) : result Msg :=
  match matchPolicy r m with
  | _ :: _ as matched => asyncExchange matched m
  | [] =>
    let fb := default [] (fallback r) in
    if shouldOnlyQueryFallback r m then asyncExchange fb m
    else
      let res := asyncExchange (main r) m in
      match fallback r with
      | None => res
      | Some fb =>
        match res with
        | Ok msg =>
          let ips := msgToIP msg in
          if negb (length ips =? 0)%nat && forallb (λ ip, negb (shouldIPFallback r ip)) ips
          then Ok msg else asyncExchange fb m
        | Err _ => asyncExchange fb m
        end
      end
  end.

(** The query that [exchangeWithoutCache] runs once for concurrent equal questions:
    the answer, and whether it is cached. *)
Definition exchange_fn (r : Resolver) (m : Msg) (q : Question) : result (Msg * bool) :=
  if isIPRequest q then msg ← ipExchange r m; Ok (msg, true)
  else
    match matchPolicy r m with
    | _ :: _ as matched => batchExchange matched m
    | [] => batchExchange (main r) m
    end.

(** [exchangeWithoutCache] when the context is not cancelled and no other query
    for the question runs: the answer, and whether the query is run once more in the
    background, as it is after a failure. *)
Definition exchangeWithoutCache (r : Resolver) (c : cache_state) (now : Z) (m : Msg) :
    outcome (result Msg * bool * cache_state) :=
  match Questions m with
  | [] => Panic "index out of range"
  | q :: _ =>
    match exchange_fn r m q with
    | Err e => mret (Err e, true, c)
    | Ok (msg, cache) =>
      c ← (if cache : bool then putMsgToCache c now q msg else mret c);
      mret (Ok msg, false, c)
    end
  end.

(** [ExchangeContext]: the answer, and whether queries in the background follow. *)
Definition ExchangeContext (r : Resolver) (c : cache_state) (now : Z) (m : Msg) :
    outcome (result Msg * bool * cache_state) :=
  match Questions m with
  | [] =>
    mret (Err (ErrMsg "should have one question at least"), false, c)
  | q :: _ =>
    '(msg, expireTime, hit, c) ← getMsgFromCache c now q;
    if hit : bool then
      match msg with
      | None => Panic "nil pointer dereference"
      | Some msg =>
        if expireTime * second <? now then mret (Ok (setMsgTTL msg 1), true, c)
        else mret (Ok (updateMsgTTL msg (u32 ((expireTime * second - now) / second))), false, c)
      end
    else
      '(res, retry, c) ← exchangeWithoutCache r c now m;
      mret (res, retry || match res with Err e => cancelled e | Ok _ => false end, c)
  end.

(** ** Looking hosts up *)

Definition ErrIPVersion : goerr := ErrMsg "ip version error".
Definition ErrIPNotFound : goerr := ErrMsg "couldn't find ip".

Definition lookupIP (r : Resolver) (c : cache_state) (now : Z) (host : string) (dnsType : Z) :
    outcome (result (list Addr) * cache_state) :=
  match ParseAddr host with
  | Some ip =>
    let ip := Unmap ip in
    mret (if ((dnsType =? TypeAAAA) && negb (Is4 ip)) || ((dnsType =? TypeA) && Is4 ip)
          then Ok [ip] else Err ErrIPVersion, c)
  | None =>
    '(res, _, c) ← ExchangeContext r c now (SetQuestion (Fqdn host) dnsType);
    mret (match res with
          | Err e => Err e
          | Ok msg =>
            match msgToIP msg with
            | [] => Err ErrIPNotFound
            | ips => Ok ips
            end
          end, c)
  end.

(** [LookupIP], given the results of the two queries and whether the one for IPv6
    arrives before the timer. *)
Definition LookupIP_join (v4 v6 : result (list Addr)) (in_time : bool) : result (list Addr) :=
  let ips := match v4 with Ok ips => ips | Err _ => [] end in
  if in_time then
    match v6 with
    | Err _ => match v4 with Err _ => Err ErrIPNotFound | Ok _ => Ok ips end
    | Ok ipv6s => Ok (ips ++ ipv6s)
    end
  else Ok ips.

(** [LookupIPPrimaryIPv4], given the results of the two queries. *)
Definition LookupIPPrimaryIPv4_join (v4 v6 : result (list Addr)) : result (list Addr) :=
  match v4 with
  | Ok ips => Ok ips
  | Err _ => match v6 with Ok ips => Ok ips | Err _ => Err ErrIPNotFound end
  end.

(** The two queries of a lookup, which run concurrently: [v6_first] is the order of
    their accesses to the cache. *)
Definition lookup_both (r : Resolver) (c : cache_state) (now : Z) (host : string) (v6_first : bool) :
    outcome (result (list Addr) * result (list Addr) * cache_state) :=
  if v6_first then
    '(v6, c) ← lookupIP r c now host TypeAAAA;
    '(v4, c) ← lookupIP r c now host TypeA;
    mret (v4, v6, c)
  else
    '(v4, c) ← lookupIP r c now host TypeA;
    '(v6, c) ← lookupIP r c now host TypeAAAA;
    mret (v4, v6, c).

(** [LookupIP]; [in_time] is whether the answer for IPv6 arrives before the timer. *)
Definition LookupIP (r : Resolver) (c : cache_state) (now : Z) (host : string) (v6_first in_time : bool) :
    outcome (result (list Addr) * cache_state) :=
  '(v4, v6, c) ← lookup_both r c now host v6_first;
  mret (LookupIP_join v4 v6 in_time, c).

Definition LookupIPPrimaryIPv4 (r : Resolver) (c : cache_state) (now : Z) (host : string) (v6_first : bool) :
    outcome (result (list Addr) * cache_state) :=
  '(v4, v6, c) ← lookup_both r c now host v6_first;
  mret (LookupIPPrimaryIPv4_join v4 v6, c).

Definition LookupIPv4 (r : Resolver) (c : cache_state) (now : Z) (host : string) :
    outcome (result (list Addr) * cache_state) := lookupIP r c now host TypeA.
Definition LookupIPv6 (r : Resolver) (c : cache_state) (now : Z) (host : string) :
    outcome (result (list Addr) * cache_state) := lookupIP r c now host TypeAAAA.

(** [Invalid], which says that the resolver can be used. *)
Definition Invalid (r : option Resolver) : bool :=
  match r with None => false | Some r => negb (length (main r) =? 0)%nat end.

Definition ClearCache (c : cache_state) : cache_state := (c.1, Lru.Clear c.2).

(** When the lookup for IPv4 fails and the timer for IPv6 fires first, the caller gets
    no address and no error. *)
Lemma LookupIP_silent r c now host e v6 c' :
  lookup_both r c now host false = Ret (Err e, v6, c') →
  LookupIP r c now host false false = Ret (Ok [], c').
Proof using Type. intros H. unfold LookupIP. by rewrite H. Qed.

(** ** The age of cached answers *)

(** What is documented of [lo.MinBy] and [lo.Clamp]. *)
Hypothesis MinBy_spec : ∀ l,
  match MinBy l (λ r1 r2, Ttl (Header r1) <? Ttl (Header r2)) with
  | None => l = []
  | Some x => x ∈ l ∧ ∀ y, y ∈ l → (Ttl (Header y) <? Ttl (Header x)) = false
  end.
Hypothesis Clamp_spec : ∀ v lo hi, lo ≤ hi → Clamp v lo hi = Z.max lo (Z.min v hi).

Lemma minimalTTL_le records rr : rr ∈ records → minimalTTL records ≤ Ttl (Header rr).
Proof using MinBy_spec.
  intros Hin. unfold minimalTTL. pose proof (MinBy_spec records) as Hm.
  destruct (MinBy _ _) as [x|]; [|subst; by apply elem_of_nil in Hin].
  destruct Hm as [_ Hm]. specialize (Hm rr Hin). simpl in Hm. lia.
Qed.

Lemma minimalTTL_in records :
  records ≠ [] → ∃ rr, rr ∈ records ∧ minimalTTL records = Ttl (Header rr).
Proof using MinBy_spec.
  intros Hne. unfold minimalTTL. pose proof (MinBy_spec records) as Hm.
  destruct (MinBy _ _) as [x|]; [|done]. exists x. by destruct Hm.
Qed.

Lemma Header_set_Ttl t rr : Ttl (Header (set_Ttl t rr)) = t.
Proof. by destruct rr. Qed.

Definition ttl_ok (rr : RR) : Prop := 1 ≤ Ttl (Header rr) < 2 ^ 32.

(** The record [rr] of an answer that is [age] nanoseconds old. *)
Definition aged (age : Z) (rr rr' : RR) : Prop :=
  ∃ t, rr' = set_Ttl t rr ∧ 1 ≤ t ∧ t * second ≤ Z.max second (Ttl (Header rr) * second - age).

Lemma updateTTL_aged records ttl age :
  Forall ttl_ok records → 0 ≤ age → 0 ≤ ttl → (∀ rr, rr ∈ records → ttl ≤ Ttl (Header rr)) →
  (∀ rr, rr ∈ records → (ttl * second ≤ Ttl (Header rr) * second - age)) →
  Forall2 (aged age) records (updateTTL records ttl).
Proof using MinBy_spec Clamp_spec.
  intros Hok Hage Htl Hle Hold. unfold updateTTL.
  destruct records as [|r0 rest] eqn:Hr; [constructor|]. rewrite <- Hr in *.
  destruct (minimalTTL_in records) as (rm & Hrm & Hmin); [by rewrite Hr|].
  rewrite Hmin. apply Forall2_fmap_r, Forall_Forall2_diag, Forall_forall. intros rr Hin.
  rewrite Forall_forall in Hok. pose proof (Hok _ Hin) as [? ?]. pose proof (Hok _ Hrm) as [? ?].
  pose proof (Hle _ Hrm). pose proof (Hold _ Hrm). pose proof (minimalTTL_le _ _ Hin) as Hm. rewrite Hmin in Hm.
  unfold aged. eexists. split; [done|]. rewrite Clamp_spec by lia.
  rewrite (wrapu_small 32 (Ttl (Header rm) - ttl)), wrapu_small by lia. unfold second in *. lia.
Qed.

(** What is stored has the least time to live of its records. *)
Lemma cached_ttl msg :
  Rcode msg ≠ RcodeServerFailure → Forall ttl_ok (Answer msg ++ Ns msg ++ Extra msg) → Answer msg ≠ [] →
  let all := Answer msg ++ Ns msg ++ Extra (cached msg).1 in
  Forall ttl_ok all ∧ 1 ≤ (cached msg).2 < 2 ^ 32 ∧
  ∀ rr, rr ∈ all → (cached msg).2 ≤ Ttl (Header rr).
Proof using MinBy_spec.
  intros Hrc Hok Hne all.
  assert ((cached msg).2 = minimalTTL all) as ->.
  { unfold all, cached, Copy. cbn [fst snd Rcode set_sections Answer Ns Extra].
    by rewrite (proj2 (Z.eqb_neq _ _) Hrc). }
  assert (Forall ttl_ok all) as Hall.
  { rewrite Forall_forall in Hok. apply Forall_forall. intros rr Hin. apply Hok.
    unfold all, cached, Copy in Hin. cbn [fst Extra set_sections] in Hin.
    rewrite !elem_of_app in *. destruct Hin as [?|[?|Hin]]; [by left|by right; left|].
    apply list_elem_of_In, filter_In in Hin as [Hin%list_elem_of_In _]. by right; right. }
  split; [done|]. split; [|intros rr; apply minimalTTL_le].
  destruct (minimalTTL_in all) as (rm & Hrm & ->); [unfold all; by destruct (Answer msg)|].
  rewrite Forall_forall in Hall. by apply Hall.
Qed.

(** C21: an answer that is cached and asked for again before it expires comes from the
    cache: its records are those of the answer (OPT records excepted), and the time
    to live of each is at least one second and otherwise no longer than what is left
    of it. *)
Theorem dns_cache_ttl r (c : cache_state) t0 t1 q m msg :
  reachable None c.1 c.2 → maxAge c.2 = 0 → head (Questions m) = Some q →
  (Qtype q =? TypeTXT) = false → Rcode msg ≠ RcodeServerFailure →
  Forall ttl_ok (Answer msg ++ Ns msg ++ Extra msg) → Answer msg ≠ [] →
  t0 ≤ t1 ≤ (t0 / second + (cached msg).2) * second →
  ∃ c1 c2 msg', putMsgToCache c t0 q msg = Ret c1 ∧
    ExchangeContext r c1 t1 m = Ret (Ok msg', false, c2) ∧
    Forall2 (aged (t1 - t0)) (Answer msg) (Answer msg') ∧
    Forall2 (aged (t1 - t0)) (Ns msg) (Ns msg') ∧
    Forall2 (aged (t1 - t0)) (Extra (cached msg).1) (Extra msg').
Proof using MinBy_spec Clamp_spec.
  clear SetRcode TypeToRR SetQuestion ParseAddr Fqdn. intros Hreach Hage Hq Htxt Hrc Hok Hne Ht.
  destruct (cached_ttl msg Hrc Hok Hne) as (Hall & Httl & Hle).
  unfold putMsgToCache. rewrite Htxt. cbn [andb].
  destruct (cached msg) as [stored ttl] eqn:Hc. cbn [fst snd] in *.
  rewrite (proj2 (Z.eqb_neq ttl 0)), (Z.div_add t0 ttl second) by (unfold second; lia).
  destruct (SetWithExpire_get None c.1 c.2 (t0 / second) (t1 / second) (Question_String q) (Some stored)
    (t0 / second + ttl) Hreach Hage) as (h1 & l1 & h2 & l2 & -> & Hget).
  exists (h1, l1), (h2, l2). cbn [mbind outcome_bind mret outcome_ret].
  unfold ExchangeContext, getMsgFromCache. destruct (Questions m) as [|q' qs]; [done|].
  injection Hq as ->. cbn [fst snd]. rewrite Hget. cbn [mbind outcome_bind mret outcome_ret option_map Copy].
  set (left_ := (t0 / second + ttl) * second - t1) in *.
  assert (∀ x, x / second * second ≤ x) as Hfl.
  { intros x. pose proof (Z.mul_div_le x second). unfold second in *. lia. }
  destruct (Z.ltb_spec ((t0 / second + ttl) * second) t1); [lia|].
  assert (0 ≤ left_ / second ∧ left_ / second * second ≤ ttl * second - (t1 - t0)) as [Hl0 Hl1].
  { pose proof (Hfl t0). pose proof (Hfl left_). split; [apply Z.div_pos; unfold second; lia|].
    unfold left_ in *. lia. }
  rewrite wrapu_small by (unfold second in *; lia).
  assert (Answer stored = Answer msg ∧ Ns stored = Ns msg) as [Ha Hn].
  { unfold cached in Hc. by injection Hc as <- _. }
  eexists. do 2 (split; [reflexivity|]). cbn [updateMsgTTL Answer Ns Extra set_sections]. unfold Copy. rewrite Ha, Hn.
  rewrite !Forall_app in Hall. destruct Hall as (H1 & H2 & H3).
  split_and!; apply updateTTL_aged; try done; try lia; intros rr Hin;
    (assert (ttl ≤ Ttl (Header rr)) as Hrr by (apply Hle; set_solver)); unfold second in *; lia.
Qed.

(** ** Disabled types *)

(** [SetRcode] is about the header and the question. *)
Hypothesis SetRcode_sections : ∀ m r rc,
  Answer (SetRcode m r rc) = Answer m ∧ Ns (SetRcode m r rc) = Ns m ∧ Extra (SetRcode m r rc) = Extra m.

Definition has_type (t : Z) (msg : Msg) : Prop :=
  ∃ rr, rr ∈ Answer msg ++ Ns msg ++ Extra msg ∧ Rrtype (Header rr) = t.

Lemma kept_types ds rr l :
  rr ∈ List.filter (λ rr, negb (inRR ds rr)) l → Rrtype (Header rr) ∉ ds.
Proof using Type.
  rewrite list_elem_of_In, filter_In. intros [_ Hn]. unfold inRR in Hn.
  by apply negb_true_iff, bool_decide_eq_false in Hn.
Qed.

(** A name server for which a type is disabled is not asked for it, and no record
    of that type is passed on from its answers. *)
Theorem dns_disabled_types c params m t :
  t ∈ disabled_types params →
  (∀ msg, Exchange (wrapClientWithDisableTypes c params) m = Ok msg → ¬ has_type t msg) ∧
  (t ∈ Qtype <$> Questions m →
     Exchange (wrapClientWithDisableTypes c params) m = Ok (handleMsgWithEmptyAnswer m)).
Proof using SetRcode_sections.
  clear MinBy_spec Clamp_spec Clamp SetQuestion RcodeToString ParseAddr Fqdn. intros Ht. unfold wrapClientWithDisableTypes. rewrite bool_decide_false by set_solver.
  cbn [Exchange]. unfold disable_ExchangeContext. split.
  - intros msg. destruct (existsb _ _).
    + intros [= <-] (rr & Hin & _). unfold handleMsgWithEmptyAnswer in Hin.
      destruct (SetRcode_sections (set_Answer [] zeroMsg) m RcodeSuccess) as (HA & HN & HE).
      cbn [set_flags Answer Ns Extra] in Hin. rewrite HA, HN, HE in Hin. by apply elem_of_nil in Hin.
    + destruct (Exchange c m); cbn [mbind result_bind]; [|done].
      intros [= <-] (rr & Hin & <-). cbn [set_sections Answer Ns Extra] in Hin.
      rewrite !elem_of_app in Hin. by destruct Hin as [Hin|[Hin|Hin]]; apply kept_types in Hin.
  - intros Hq. assert (existsb (inQuestion (disabled_types params)) (Questions m) = true) as ->; [|done].
    apply list_elem_of_fmap in Hq as (q & -> & Hq). apply existsb_exists. exists q.
    split; [by apply list_elem_of_In|]. by apply bool_decide_eq_true.
Qed.

End cache.
End dns.

Module Examples.
Import ListModel.

(** The documented behaviour of the helpers, as functions. *)
Definition set_rcode (m r : Msg) (rc : Z) : Msg :=
  mkMsg (Id r) (Authoritative m) (RecursionAvailable m) rc (take 1 (Questions r)) (Answer m) (Ns m) (Extra m).
Fixpoint min_by (l : list RR) (lt : RR → RR → bool) : option RR :=
  match l with
  | [] => None
  | x :: l =>
    match min_by l lt with
    | Some y => Some (if lt y x then y else x)
    | None => Some x
    end
  end.
Definition clamp (v lo hi : Z) : Z := Z.max lo (Z.min v hi).
Definition rcode_text (rc : Z) : string := FormatInt rc.
Definition q_string (q : Question) : string := q_Name q.

Lemma min_by_ttl l :
  match min_by l (λ r1 r2, Ttl (Header r1) <? Ttl (Header r2)) with
  | None => l = []
  | Some x => x ∈ l ∧ ∀ y, y ∈ l → (Ttl (Header y) <? Ttl (Header x)) = false
  end.
Proof.
  induction l as [|x l IH]; simpl; [done|]. destruct (min_by l _) as [y|].
  - destruct IH as [Hy Hmin]. destruct (Z.ltb_spec (Ttl (Header y)) (Ttl (Header x))).
    + split; [by right|]. intros z [->|Hz]%elem_of_cons; [lia|by apply Hmin].
    + split; [by left|]. intros z [->|Hz]%elem_of_cons; [lia|]. specialize (Hmin z Hz). lia.
  - subst l. split; [by left|]. intros z [->|Hz]%elem_of_cons; [lia|by apply elem_of_nil in Hz].
Qed.

Abbreviation state := (gmap positive (entry (K := string) (V := option Msg)) *
  LruCache (K := string) (V := option Msg) (L := list (nat * positive)) (elem := nat * positive))%type.

Definition empty_cache : state := newCache 2.

Lemma empty_reachable : reachable None empty_cache.1 empty_cache.2.
Proof. exists [oSize 2; oStale true], [], []. reflexivity. Qed.

(** Two addresses for ten seconds and five minutes. *)
Definition answer : Msg :=
  mkMsg 7 true true 0 [mkQuestion "a.com." 1 1]
    [RR_A (mkHeader "a.com." 1 1 10) [10; 0; 0; 1]; RR_A (mkHeader "a.com." 1 1 300) [10; 0; 0; 2]] [] [].
Definition query : Msg := mkMsg 9 false false 0 [mkQuestion "a.com." 1 1] [] [] [].
Definition no_servers : Resolver := mkResolver [] None [] [] None.

Lemma dns_cache_ttl_witness :
  ∃ (c1 c2 : state) msg', putMsgToCache q_string min_by empty_cache 5500000000 (mkQuestion "a.com." 1 1) answer = Ret c1 ∧
    ExchangeContext q_string min_by clamp (λ l, l) rcode_text (λ _, false) no_servers c1 9000000000 query = Ret (Ok msg', false, c2) ∧
    Forall2 (aged 3500000000) (Answer answer) (Answer msg').
Proof.
  destruct (dns_cache_ttl q_string min_by clamp (λ l, l) rcode_text (λ _, false) min_by_ttl (λ v lo hi _, eq_refl) no_servers
    empty_cache 5500000000 9000000000 (mkQuestion "a.com." 1 1) query answer) as (c1 & c2 & msg' & H1 & H2 & H3 & _);
    try reflexivity; try discriminate; try apply empty_reachable.
  - repeat constructor; simpl; lia.
  - vm_compute. split; discriminate.
  - exists c1, c2, msg'. done.
Defined.

Definition ipv6_server : dnsClient :=
  mkClient false (λ m, Ok (set_Answer [RR_AAAA (mkHeader "a.com." 28 1 60) (repeat 1 16);
    RR_A (mkHeader "a.com." 1 1 60) [10; 0; 0; 1]] m)).

Lemma dns_disabled_types_witness :
  ∃ msg, Exchange (wrapClientWithDisableTypes set_rcode (λ _, true) ipv6_server {["disable-ipv6" := "true"]}) query = Ok msg ∧
    Answer msg = [RR_A (mkHeader "a.com." 1 1 60) [10; 0; 0; 1]] ∧ ¬ has_type TypeAAAA msg.
Proof.
  eexists. split; [vm_compute; reflexivity|]. split; [reflexivity|].
  apply (proj1 (dns_disabled_types set_rcode (λ _, true) (λ m r rc, conj eq_refl (conj eq_refl eq_refl))
    ipv6_server {["disable-ipv6" := "true"]} query TypeAAAA ltac:(apply (bool_decide_unpack _); vm_compute; exact I))).
  vm_compute. reflexivity.
Defined.

End Examples.
