(* ===== verification/Enhancer.v ===== *)
(** * Fake addresses in DNS ([dns/enhancer.go], [dns/middleware.go], [dns/service.go],
    [component/resolver/enhancer.go], [component/fakeip/skipper.go])

    The enhancer holds the fake-IP pools and the map from addresses back to hosts.
    The DNS service answers a query through a chain of middlewares: the hosts table,
    the fake-IP pools, the map, and the resolver at the end.  Handlers share the
    enhancer, so they are functions that pass it along; the resolver is any
    implementation of its interface, with its own state.

    Time is in seconds, one reading per query. *)

From S2P Require Import Prelude Lru Wire GoStrings NetIP Metadata FakeIP Rules DomainTrie Hosts Dns.

(** ** Which names get no fake address *)

Inductive FilterMode : Type := FilterBlackList | FilterWhiteList | FilterRule.

Definition UseFakeIP : string := "fake-ip".
Definition UseRealIP : string := "real-ip".

Record Skipper := mkSkipper {
  sk_Rules : list Rule;
  sk_Host : list (string → bool);
  sk_Mode : FilterMode;
}.

Section skipper.
Context (w : World) (subRules : gmap string (list Rule)).

Definition shouldSkipped (p : Skipper) (domain : string) : bool :=
  existsb (λ matcher, matcher domain) (sk_Host p).

Fixpoint skip_loop (fuel : nat) (rules : list Rule) (c : Metadata * unit) : outcome bool :=
  match rules with
  | [] => Ret false
  | rule :: rules =>
    res ← Rules.Match w (mkHelper None None None) subRules fuel rule c;
    let '((matched, action), c) := (res : (bool * string) * (Metadata * unit)) in
    if matched then Ret (bool_decide (action = UseRealIP)) else skip_loop fuel rules c
  end.

Definition ShouldSkipped (fuel : nat) (p : Skipper) (domain : string) : outcome bool :=
  match sk_Rules p with
  | _ :: _ => skip_loop fuel (sk_Rules p) (set_Host domain zeroMetadata, tt)
  | [] =>
    let should := shouldSkipped p domain in
    Ret match sk_Mode p with FilterWhiteList => negb should | _ => should end
  end.
End skipper.

(** ** The enhancer *)

(** [netip.Addr.IsGlobalUnicast]. *)
Definition IsGlobalUnicast (ip : Addr) : bool :=
  if negb (IsValid ip) then false
  else
    let ip := if Is4In6 ip then Unmap ip else ip in
    if bool_decide (ip = Addr4 0) || bool_decide (ip = Addr4 (2 ^ 32 - 1)) then false
    else negb (bool_decide (ip = Addr6 0 "")) && negb (IsLoopback ip) && negb (IsMulticast ip) &&
         negb (IsLinkLocalUnicast ip).

Section enhancer.
Context {S : Type} `{Store S} {L elem : Type} `{!DList positive L elem}.

(** The map from addresses to hosts, with the heap of its entries. *)
Abbreviation Mapping := (gmap positive (entry (K := Addr) (V := string)) *
  LruCache (K := Addr) (V := string) (L := L) (elem := elem))%type.

Record ResolverEnhancer := mkEnhancer {
  ipv6 : bool;
  mode : DNSMode;
  fakeIPPool : option (Pool S);
  fakeIPPool6 : option (Pool S);
  fakeIPSkipper : option Skipper;
  fakeIPTTL : Z;
  mapping : option Mapping;
  useHosts : bool;
}.
Implicit Types h : ResolverEnhancer.

Definition set_pools h (p p6 : option (Pool S)) : ResolverEnhancer :=
  mkEnhancer (ipv6 h) (mode h) p p6 (fakeIPSkipper h) (fakeIPTTL h) (mapping h) (useHosts h).
Definition set_pool h (p : Pool S) : ResolverEnhancer := set_pools h (Some p) (fakeIPPool6 h).
Definition set_pool6 h (p : Pool S) : ResolverEnhancer := set_pools h (fakeIPPool h) (Some p).
Definition set_mapping h (m : Mapping) : ResolverEnhancer :=
  mkEnhancer (ipv6 h) (mode h) (fakeIPPool h) (fakeIPPool6 h) (fakeIPSkipper h) (fakeIPTTL h) (Some m) (useHosts h).

Definition FakeIPEnabled h : bool := mode h =? DNSFakeIP.
Definition MappingEnabled h : bool := (mode h =? DNSFakeIP) || (mode h =? DNSMapping).

(** [if pool := ...; pool != nil { ... }]. *)
Definition on_pool {A} (p : option (Pool S)) (z : A) (f : Pool S → outcome A) : outcome A :=
  match p with Some p => f p | None => Ret z end.

Definition IsExistFakeIP h (ip : Addr) : outcome bool :=
  if negb (FakeIPEnabled h) then Ret false
  else
    b ← on_pool (fakeIPPool h) false (λ p, FakeIP.Exist p ip);
    if (b : bool) then Ret true else on_pool (fakeIPPool6 h) false (λ p, FakeIP.Exist p ip).

Definition in_pool (ip : Addr) (p : option (Pool S)) : bool :=
  match p with
  | Some p => PrefixContains (IPNet p) ip && negb (bool_decide (ip = Gateway p)) &&
              negb (bool_decide (ip = Broadcast p))
  | None => false
  end.

Definition IsFakeIP h (ip : Addr) : bool :=
  if negb (FakeIPEnabled h) then false else in_pool ip (fakeIPPool h) || in_pool ip (fakeIPPool6 h).

Definition IsFakeBroadcastIP h (ip : Addr) : bool :=
  if negb (FakeIPEnabled h) then false
  else
    let is_broadcast p := match p with Some p => bool_decide (Broadcast p = ip) | None => false end in
    is_broadcast (fakeIPPool h) || is_broadcast (fakeIPPool6 h).

(** Looking an address up touches the caches. *)
Definition FindHostByIP h (now : Z) (ip : Addr) : outcome (string * bool * ResolverEnhancer) :=
  '(host, existed, h) ← on_pool (fakeIPPool h) ("", false, h)
    (λ p, '(host, existed, p) ← LookBack p ip; Ret (host, existed, set_pool h p));
  if (existed : bool) then Ret (host, true, h)
  else
    '(host, existed, h) ← on_pool (fakeIPPool6 h) ("", false, h)
      (λ p, '(host, existed, p) ← LookBack p ip; Ret (host, existed, set_pool6 h p));
    if (existed : bool) then Ret (host, true, h)
    else
      match mapping h with
      | Some (hp, m) =>
        '(host, existed, hp, m) ← Lru.Get "" hp m now ip;
        let h := set_mapping h (hp, m) in
        if (existed : bool) then Ret (host, true, h) else Ret ("", false, h)
      | None => Ret ("", false, h)
      end.

Definition InsertHostByIP h (now : Z) (ip : Addr) (host : string) : outcome ResolverEnhancer :=
  match mapping h with
  | Some (hp, m) => '(hp, m) ← Lru.Set_ hp m now ip host; Ret (set_mapping h (hp, m))
  | None => Ret h
  end.

(** [errors.Join]. *)
Definition errors_Join (errs : list goerr) : goerr := ErrMsg (Join (Ascii.ascii_of_nat 10) (Error <$> errs)).

(** The pools are flushed one after the other; an error of the first does not stop
    the second. *)
Definition FlushFakeIP h : outcome (result unit * ResolverEnhancer) :=
  let flush (p : option (Pool S)) : outcome (list goerr * option (Pool S)) :=
    match p with
    | Some p =>
      r ← FakeIP.FlushFakeIP p;
      Ret match r with Ok p => ([], Some p) | Err e => ([e], Some p) end
    | None => Ret ([], None)
    end in
  '(errs, p) ← flush (fakeIPPool h);
  '(errs6, p6) ← flush (fakeIPPool6 h);
  let h := set_pools h p p6 in
  Ret (match errs ++ errs6 with [] => Ok tt | errs => Err (errors_Join errs) end, h).

Definition PatchFrom h (o : ResolverEnhancer) : outcome ResolverEnhancer :=
  h ← (match mapping h, mapping o with
       | Some (_, m), Some (hp, mo) => m ← Lru.CloneTo hp mo m; Ret (set_mapping h (hp, m))
       | _, _ => Ret h
       end);
  h ← (match fakeIPPool h, fakeIPPool o with
       | Some p, Some po => p ← CloneFrom p po; Ret (set_pool h p)
       | _, _ => Ret h
       end);
  match fakeIPPool6 h, fakeIPPool6 o with
  | Some p, Some po => p ← CloneFrom p po; Ret (set_pool6 h p)
  | _, _ => Ret h
  end.

Definition StoreFakePoolState h : outcome ResolverEnhancer :=
  h ← on_pool (fakeIPPool h) h (λ p, p ← StoreState p; Ret (set_pool h p));
  on_pool (fakeIPPool6 h) h (λ p, p ← StoreState p; Ret (set_pool6 h p)).

Record EnhancerConfig := mkEnhancerConfig {
  cfg_IPv6 : bool;
  cfg_EnhancedMode : DNSMode;
  cfg_FakeIPPool : option (Pool S);
  cfg_FakeIPPool6 : option (Pool S);
  cfg_FakeIPSkipper : option Skipper;
  cfg_FakeIPTTL : Z;
  cfg_UseHosts : bool;
}.

Definition NewEnhancer (cfg : EnhancerConfig) : ResolverEnhancer :=
  if cfg_EnhancedMode cfg =? DNSNormal then
    mkEnhancer (cfg_IPv6 cfg) (cfg_EnhancedMode cfg) None None None 0 None (cfg_UseHosts cfg)
  else
    mkEnhancer (cfg_IPv6 cfg) (cfg_EnhancedMode cfg) (cfg_FakeIPPool cfg)
      (if cfg_IPv6 cfg then cfg_FakeIPPool6 cfg else None) (cfg_FakeIPSkipper cfg)
      (if cfg_FakeIPTTL cfg <? 1 then 1 else cfg_FakeIPTTL cfg)
      (Some (∅, Lru.New [WithSize 4096])) (cfg_UseHosts cfg).

(** *** The functions of [component/resolver/enhancer.go], for [DefaultHostMapper] *)

Definition mapper_MappingEnabled (mapper : option ResolverEnhancer) : bool :=
  match mapper with Some h => MappingEnabled h | None => false end.
Definition mapper_FakeIPEnabled (mapper : option ResolverEnhancer) : bool :=
  match mapper with Some h => FakeIPEnabled h | None => false end.
Definition mapper_IsFakeIP (mapper : option ResolverEnhancer) (ip : Addr) : bool :=
  match mapper with Some h => IsFakeIP h ip | None => false end.
Definition mapper_IsFakeBroadcastIP (mapper : option ResolverEnhancer) (ip : Addr) : bool :=
  match mapper with Some h => IsFakeBroadcastIP h ip | None => false end.
Definition mapper_IsExistFakeIP (mapper : option ResolverEnhancer) (ip : Addr) : outcome bool :=
  match mapper with Some h => IsExistFakeIP h ip | None => Ret false end.
Definition mapper_FindHostByIP (mapper : option ResolverEnhancer) (now : Z) (ip : Addr) :
    outcome (string * bool * option ResolverEnhancer) :=
  match mapper with
  | Some h => '(host, ok, h) ← FindHostByIP h now ip; Ret (host, ok, Some h)
  | None => Ret ("", false, None)
  end.
Definition mapper_InsertHostByIP (mapper : option ResolverEnhancer) (now : Z) (ip : Addr) (host : string) :
    outcome (option ResolverEnhancer) :=
  match mapper with
  | Some h => h ← InsertHostByIP h now ip host; Ret (Some h)
  | None => Ret None
  end.

Definition mapper_FlushFakeIP (mapper : option ResolverEnhancer) :
    outcome (result unit * option ResolverEnhancer) :=
  match mapper with
  | Some h => '(r, h) ← FlushFakeIP h; Ret (r, Some h)
  | None => Ret (Ok tt, None)
  end.
Definition mapper_StoreFakePoolState (mapper : option ResolverEnhancer) : outcome (option ResolverEnhancer) :=
  match mapper with
  | Some h => h ← StoreFakePoolState h; Ret (Some h)
  | None => Ret None
  end.

(** ** The middlewares *)

Section handlers.
Variable SetRcode : Msg → Msg → Z → Msg.
Variable R : Type.
Variable resolver_ExchangeContext : R → Msg → outcome (result Msg * R).
Context (w : World) (subRules : gmap string (list Rule)).
Variable hosts_Search : string → bool → outcome (option HostValue * bool).   (* DefaultHosts.Search *)
Variable fuel : nat.
Variable now : Z.

(** The type of the answer in the context, the enhancer and the resolver. *)
Record st := mkSt { ctx_tp : string; enh : ResolverEnhancer; res : R }.
Definition SetType (tp : string) (s : st) : st := mkSt tp (enh s) (res s).
Definition set_enh (h : ResolverEnhancer) (s : st) : st := mkSt (ctx_tp s) h (res s).

Definition DNSTypeHost : string := "host".
Definition DNSTypeFakeIP : string := "fakeip".
Definition DNSTypeRaw : string := "raw".
Definition dnsDefaultTTL : Z := 600.

Definition handler : Type := st → Msg → outcome (result Msg * st).

(** [mapping.SetWithExpire], the method of a pointer. *)
Definition mapping_SetWithExpire (s : st) (ip : Addr) (host : string) (exp : Z) : outcome st :=
  match mapping (enh s) with
  | Some (hp, m) =>
    '(hp, m) ← Lru.SetWithExpire hp m now ip host exp;
    Ret (set_enh (set_mapping (enh s) (hp, m)) s)
  | None => Panic "nil pointer dereference"
  end.

(** The last lines of a middleware that answers itself. *)
Definition reply (msg r : Msg) : Msg := set_flags true true (SetRcode msg r RcodeSuccess).

Definition handleCName (q : Question) (resp : Msg) (domain : string) : Msg :=
  set_Answer (RR_CNAME (mkHeader (q_Name q) TypeCNAME ClassINET 10) (domain +:+ ".") :: Answer resp) resp.

(** The loop of [handleIPs]. *)
Fixpoint handleIPs (q : Question) (host : string) (ips : list Addr) (msg : Msg) (s : st) : outcome (Msg * st) :=
  match ips with
  | [] => Ret (msg, s)
  | ipAddr :: ips =>
    let add (rr : RR) : outcome (Msg * st) :=
      s ← (match mapping (enh s) with
           | Some _ => mapping_SetWithExpire s ipAddr host (now + 10)
           | None => Ret s
           end);
      handleIPs q host ips (set_Answer (Answer msg ++ [rr]) msg) s in
    if Is4 ipAddr && (Qtype q =? TypeA) then
      add (RR_A (mkHeader (q_Name q) TypeA ClassINET 10) (AsSlice ipAddr))
    else if Is6 ipAddr && (Qtype q =? TypeAAAA) then
      add (RR_AAAA (mkHeader (q_Name q) TypeAAAA ClassINET 10) (AsSlice ipAddr))
    else handleIPs q host ips msg s
  end.

(** [r.Question[0]]. *)
Definition question (r : Msg) : outcome Question :=
  match Questions r with q :: _ => Ret q | [] => Panic "index out of range" end.

Definition withHosts (next : handler) : handler := λ s r,
  q ← question r;
  if negb (isIPRequest q) then next s r
  else
    let host := TrimRight (q_Name q) "." in
    '(record, ok) ← hosts_Search host (negb (Qtype q =? TypeA) && negb (Qtype q =? TypeAAAA));
    match record, (ok : bool) with
    | Some record, false =>
      if IsDomain record then
        let newR := set_Questions
          (mkQuestion (hv_Domain record +:+ ".") (Qtype q) (Qclass q) :: tail (Questions r)) r in
        '(resp, s) ← next s newR;
        Ret (match resp with
             | Ok resp => Ok (handleCName q (set_Questions (Questions r) (set_Id (Id r) resp)) (hv_Domain record))
             | Err e => Err e
             end, s)
      else next s r
    | None, false => next s r
    | None, true => Panic "nil pointer dereference"
    | Some record, true =>
      let msg := Copy r in
      if (Qtype q =? TypeA) || (Qtype q =? TypeAAAA) then
        '(msg, s) ← handleIPs q host (IPs record) msg s;
        Ret (Ok (reply msg r), SetType DNSTypeHost s)
      else if Qtype q =? TypeCNAME then
        Ret (Ok (reply (handleCName q msg (hv_Domain record)) r), SetType DNSTypeHost s)
      else next s r
    end.

(** The loop of [withMapping]. *)
Fixpoint map_answers (host : string) (answers : list RR) (s : st) : outcome st :=
  match answers with
  | [] => Ret s
  | ans :: answers =>
    match answer_ip ans with
    | Some ip =>
      if negb (IsValid ip) || negb (IsGlobalUnicast ip) then map_answers host answers s
      else
        let ttl := Ttl (Header ans) in
        let ttl := if ttl <? 1 then 1 else ttl in
        s ← mapping_SetWithExpire s (Unmap ip) host (now + ttl);
        map_answers host answers s
    | None => map_answers host answers s
    end
  end.

Definition withMapping (next : handler) : handler := λ s r,
  q ← question r;
  if negb (isIPRequest q) then next s r
  else
    '(msg, s) ← next s r;
    match msg with
    | Err e => Ret (Err e, s)
    | Ok msg =>
      let host := TrimRight (q_Name q) "." in
      s ← map_answers host (Answer msg) s;
      Ret (Ok msg, s)
    end.

(** What follows the choice of a record in [withFakeIP]. *)
Definition fake_answer (r : Msg) (rr : RR) (s : st) : outcome (result Msg * st) :=
  let msg := set_Answer [rr] (Copy r) in
  let s := SetType DNSTypeFakeIP s in
  let msg := setMsgTTL msg (u32 (fakeIPTTL (enh s))) in
  Ret (Ok (reply msg r), s).

Definition withFakeIP (next : handler) : handler := λ s r,
  q ← question r;
  let host := TrimRight (q_Name q) "." in
  match fakeIPSkipper (enh s) with
  | None => Panic "nil pointer dereference"
  | Some skipper =>
    skipped ← ShouldSkipped w subRules fuel skipper host;
    if (skipped : bool) then next s r
    else if Qtype q =? TypeA then
      match fakeIPPool (enh s) with
      | None => Ret (Ok (handleMsgWithEmptyAnswer SetRcode r), s)
      | Some p =>
        '(ip, p) ← Lookup p host;
        fake_answer r (RR_A (mkHeader (q_Name q) TypeA ClassINET dnsDefaultTTL) (AsSlice ip))
          (set_enh (set_pool (enh s) p) s)
      end
    else if Qtype q =? TypeAAAA then
      match fakeIPPool6 (enh s) with
      | None => Ret (Ok (handleMsgWithEmptyAnswer SetRcode r), s)
      | Some p =>
        '(ip, p) ← Lookup p host;
        fake_answer r (RR_AAAA (mkHeader (q_Name q) TypeAAAA ClassINET dnsDefaultTTL) (AsSlice ip))
          (set_enh (set_pool6 (enh s) p) s)
      end
    else if (Qtype q =? TypeSVCB) || (Qtype q =? TypeHTTPS) then
      Ret (Ok (handleMsgWithEmptyAnswer SetRcode r), s)
    else next s r
  end.

(** With an error, the message of the resolver is not used by any caller. *)
Definition withResolver (ipv6 : bool) : handler := λ s r,
  let s := SetType DNSTypeRaw s in
  q ← question r;
  if negb ipv6 && (Qtype q =? TypeAAAA) then Ret (Ok (handleMsgWithEmptyAnswer SetRcode r), s)
  else
    '(msg, rs) ← resolver_ExchangeContext (res s) r;
    let s := mkSt (ctx_tp s) (enh s) rs in
    match msg with
    | Err e => Ret (Err e, s)
    | Ok msg =>
      let msg := SetRcode msg r (Rcode msg) in
      Ret (Ok (set_flags true (RecursionAvailable msg) msg), s)
    end.

Definition compose (middlewares : list (handler → handler)) (endpoint : handler) : handler :=
  fold_right (λ middleware next, middleware next) endpoint middlewares.

(** [newHandler]; the handlers read the fields of [mapper] that do not change from the
    enhancer itself. *)
Definition newHandler (mapper : ResolverEnhancer) : handler :=
  compose ((if useHosts mapper then [withHosts] else []) ++
           (if mode mapper =? DNSFakeIP then [withFakeIP] else []) ++
           (if negb (mode mapper =? DNSNormal) then [withMapping] else []))
    (withResolver (ipv6 mapper)).

(** ** The service *)

Variable IsEdns0 : Msg → option bool.             (* the OPT record and its DO bit *)
Variable SetEdns0 : Msg → Z → bool → Msg.

Definition ServeMsg (service : handler) (s : st) (msg : Msg) : outcome (result Msg * st) :=
  match Questions msg with
  | [] => Ret (Err (ErrMsg "at least one question is required"), s)
  | _ =>
    '(r, s) ← service (SetType "" s) msg;
    Ret (match r with
         | Err e => Err e
         | Ok r =>
           Ok match IsEdns0 msg, IsEdns0 r with
              | Some do_, None => SetEdns0 r 1232 do_
              | _, _ => r
              end
         end, s)
  end.

End handlers.
End enhancer.
