(* ===== verification/SniffTls.v ===== *)
(** * Sniffing TLS ([component/sniffer/tls_sniffer.go])

    The server name is read from a prefix of the client's first flight.  A verdict on
    a prefix is the name, a rejection, or the number of bytes to wait for.  The
    parser works at offsets into a buffer with Go's bounds checks, so an offset
    outside of it would panic.

    [ps] is the monad of such parsers: they read the buffer and may return early with
    a verdict.  [Stable] parsers give the same result however much more arrives,
    unless they ask for more, and [Safe] ones do not panic. *)

From S2P Require Import Prelude Wire GoStrings.

(** ** Verdicts *)

Inductive verdict : Type :=
| Found (serverName : string)
| Need (length : Z)          (* errNeedAtLeastData *)
| Reject (err : string).

Definition errNotTLS : verdict := Reject "not TLS header".
Definition errNotClientHello : verdict := Reject "not client hello".

Inductive step (A : Type) : Type := Go (a : A) | Stop (v : verdict).
Arguments Go {A}.
Arguments Stop {A}.

Definition ps (A : Type) : Type := list Z → outcome (step A).

#[global] Instance ps_ret : MRet ps := λ A a data, Ret (Go a).
#[global] Instance ps_bind : MBind ps := λ A B f m data,
  match m data with
  | Ret (Go a) => f a data
  | Ret (Stop v) => Ret (Stop v)
  | Panic s => Panic s
  | OutOfFuel => OutOfFuel
  end.

(** [return nil, err], a byte, a slice, two bytes as a number. *)
Definition stop {A} (v : verdict) : ps A := λ _, Ret (Stop v).
Definition byte_at (o : Z) : ps Z := λ data, x ← idx data o; Ret (Go x).
Definition slice_at (lo hi : Z) : ps (list Z) := λ data, x ← slice data lo hi; Ret (Go x).
Definition short_at (o : Z) : ps Z :=
  x ← byte_at o; y ← byte_at (o + 1); mret (Z.lor (Z.shiftl x 8) y).

(** ** Parsing a ClientHello *)

Definition tlsRecordHeaderLen : Z := 5.
Definition tlsHandshakeHeaderLen : Z := 4.
Definition tlsRecordTypeHandshake : Z := 22.
Definition tlsHandshakeTypeClientHello : Z := 1.
Definition tlsMaxPlaintext : Z := 2 ^ 14.

Definition IsValidTLSVersion (major minor : Z) : bool := major =? 3.

(** The closure [need]. *)
Definition need (helloSize length : Z) : ps unit := λ data,
  if helloSize <? length then Ret (Stop errNotClientHello)
  else if len data <? length then Ret (Stop (Need length))
  else Ret (Go tt).

(** The loop over the names of a server_name extension; it gives the offset after
    the last one. *)
Fixpoint names_loop (fuel : nat) (helloSize offset namesEnd : Z) : ps Z :=
  match fuel with
  | O => λ _, OutOfFuel
  | S fuel =>
    if namesEnd <=? offset then mret offset
    else
      _ ← need helloSize (offset + 3);
      nameType ← byte_at offset;
      nameLen ← short_at (offset + 1);
      let offset := offset + 3 in
      let nameEnd := offset + nameLen in
      if namesEnd <? nameEnd then stop errNotClientHello
      else
        _ ← need helloSize nameEnd;
        if nameType =? 0 then
          bs ← slice_at offset nameEnd;
          let serverName := bytes_string bs in
          if HasSuffix serverName "." then stop errNotClientHello else stop (Found serverName)
        else names_loop fuel helloSize nameEnd namesEnd
  end.

(** The loop over the extensions. *)
Fixpoint extensions_loop (fuel : nat) (helloSize offset extensionsEnd : Z) : ps unit :=
  match fuel with
  | O => λ _, OutOfFuel
  | S fuel =>
    if extensionsEnd <=? offset then stop errNotTLS
    else
      _ ← need helloSize (offset + 4);
      extension ← short_at offset;
      length ← short_at (offset + 2);
      let offset := offset + 4 in
      let extensionEnd := offset + length in
      if extensionsEnd <? extensionEnd then stop errNotClientHello
      else if extension =? 0 then
        if length <? 2 then stop errNotClientHello
        else
          _ ← need helloSize (offset + 2);
          namesLen ← short_at offset;
          let offset := offset + 2 in
          let namesEnd := offset + namesLen in
          if negb (namesEnd =? extensionEnd) then stop errNotClientHello
          else
            offset ← names_loop (S fuel) helloSize offset namesEnd;
            extensions_loop fuel helloSize offset extensionsEnd
      else if extensionEnd =? extensionsEnd then stop errNotTLS
      else
        _ ← need helloSize extensionEnd;
        extensions_loop fuel helloSize extensionEnd extensionsEnd
  end.

(** [clientHelloSize] on a buffer that has the header. *)
Definition clientHelloSize : ps Z :=
  b1 ← byte_at 1; b2 ← byte_at 2; b3 ← byte_at 3;
  mret (tlsHandshakeHeaderLen + Z.lor (Z.lor (Z.shiftl b1 16) (Z.shiftl b2 8)) b3).

(** The rest of [ReadClientHello], on the data cut to the size of the message; every
    round of the loops moves on, so the size is enough fuel. *)
Definition read_body (helloSize : Z) : ps unit :=
  let offset := tlsHandshakeHeaderLen + 2 + 32 in
  _ ← need helloSize (offset + 1);
  sessionIDLen ← byte_at offset;
  if 32 <? sessionIDLen then stop errNotClientHello
  else
    let offset := offset + 1 in
    _ ← need helloSize (offset + sessionIDLen);
    let offset := offset + sessionIDLen in
    _ ← need helloSize (offset + 2);
    cipherSuiteLen ← short_at offset;
    if cipherSuiteLen mod 2 =? 1 then stop errNotClientHello
    else
      let offset := offset + 2 in
      _ ← need helloSize (offset + cipherSuiteLen);
      let offset := offset + cipherSuiteLen in
      _ ← need helloSize (offset + 1);
      compressionMethodsLen ← byte_at offset;
      let offset := offset + 1 in
      _ ← need helloSize (offset + compressionMethodsLen);
      let offset := offset + compressionMethodsLen in
      if offset =? helloSize then stop errNotClientHello
      else
        _ ← need helloSize (offset + 2);
        extensionsLength ← short_at offset;
        let offset := offset + 2 in
        let extensionsEnd := offset + extensionsLength in
        if negb (extensionsEnd =? helloSize) then stop errNotClientHello
        else extensions_loop (S (Z.to_nat helloSize)) helloSize offset extensionsEnd.

(** The parser as a function to verdicts; it always returns one. *)
Definition verdict_of {A} (m : ps A) (data : list Z) : outcome verdict :=
  r ← m data;
  match r with
  | Stop v => Ret v
  | Go _ => Panic "unreachable"
  end.

Definition ReadClientHello (data : list Z) : outcome verdict :=
  match data with
  | [] => Ret (Need 1)
  | b0 :: _ =>
    if negb (b0 =? tlsHandshakeTypeClientHello) then Ret errNotClientHello
    else if len data <? tlsHandshakeHeaderLen then Ret (Need tlsHandshakeHeaderLen)
    else
      r ← clientHelloSize data;
      match r with
      | Stop v => Ret v
      | Go helloSize =>
        let data := if helloSize <? len data then take (Z.to_nat helloSize) data else data in
        verdict_of (read_body helloSize) data
      end
  end.

(** ** Records *)

(** The header of the record at [wireOffset]: the length of its payload; [header[i]] is
    [b[wireOffset+i]]. *)
Definition record_header (wireOffset : Z) : ps Z :=
  _ ← (λ b, if len b - wireOffset <? tlsRecordHeaderLen
            then Ret (Stop (Need (wireOffset + tlsRecordHeaderLen))) else Ret (Go tt));
  h0 ← byte_at wireOffset; h1 ← byte_at (wireOffset + 1); h2 ← byte_at (wireOffset + 2);
  if negb (h0 =? tlsRecordTypeHandshake) || negb (IsValidTLSVersion h1 h2) then stop errNotTLS
  else
    recordLen ← short_at (wireOffset + 3);
    if tlsMaxPlaintext <? recordLen then stop errNotTLS
    else if recordLen =? 0 then stop errNotClientHello
    else mret recordLen.

(** One round of the loop: a verdict, or the end of the record and the message so
    far. *)
Definition record_step (b : list Z) (wireOffset : Z) (clientHello : list Z) : outcome (step (Z * list Z)) :=
  r ← record_header wireOffset b;
  match r with
  | Stop v => Ret (Stop v)
  | Go recordLen =>
    let payloadOffset := wireOffset + tlsRecordHeaderLen in
    let recordEnd := payloadOffset + recordLen in
    let payloadEnd := if recordEnd <? len b then recordEnd else len b in
    let payloadEnd := if payloadEnd <? payloadOffset then payloadOffset else payloadEnd in
    payload ← slice b payloadOffset payloadEnd;
    let clientHello := if wireOffset =? 0 then payload else clientHello ++ payload in
    v ← ReadClientHello clientHello;
    match v with
    | Need length =>
      if payloadEnd <? recordEnd then
        let missing := length - len clientHello in
        let remaining := recordEnd - payloadEnd in
        let missing := if remaining <? missing then remaining else missing in
        Ret (Stop (Need (payloadEnd + missing)))
      else Ret (Go (recordEnd, clientHello))
    | v => Ret (Stop v)
    end
  end.

Fixpoint records_loop (fuel : nat) (b : list Z) (wireOffset : Z) (clientHello : list Z) : outcome verdict :=
  match fuel with
  | O => OutOfFuel
  | S fuel =>
    r ← record_step b wireOffset clientHello;
    match r with
    | Stop v => Ret v
    | Go (wireOffset, clientHello) => records_loop fuel b wireOffset clientHello
    end
  end.

(** Every record has a header, so the length of the buffer is enough fuel. *)
Definition SniffTLS (b : list Z) : outcome verdict := records_loop (S (length b)) b 0 [].

(** ** Safety *)

(** [m] returns on [data]: a value with [Q], or a verdict; when it asks for more, it
    is for more than there is, and for no more than [h] bytes. *)
Definition asks_more (h : Z) (data : list Z) (v : verdict) : Prop :=
  ∀ n, v = Need n → len data < n ≤ h.
Definition Safe (h : Z) {A} (m : ps A) (data : list Z) (Q : A → Prop) : Prop :=
  (∃ a, m data = Ret (Go a) ∧ Q a) ∨ (∃ v, m data = Ret (Stop v) ∧ asks_more h data v).

Lemma Safe_ret h {A} (a : A) data (Q : A → Prop) : Q a → Safe h (mret a) data Q.
Proof. intros. left. by exists a. Qed.

Lemma Safe_bind h {A B} (m : ps A) (f : A → ps B) data Q Q' :
  Safe h m data Q → (∀ a, Q a → Safe h (f a) data Q') → Safe h (m ≫= f) data Q'.
Proof.
  intros [(a & Hm & Ha)|(v & Hm & Hv)] Hf; unfold Safe, mbind, ps_bind; rewrite Hm; [by apply Hf|].
  right. by exists v.
Qed.

Lemma Safe_stop h {A} v data (Q : A → Prop) : asks_more h data v → Safe h (stop v) data Q.
Proof. intros. right. by exists v. Qed.

Lemma Safe_reject h {A} e data (Q : A → Prop) : Safe h (stop (Reject e)) data Q.
Proof. by apply Safe_stop. Qed.

Lemma Safe_need h n data : Safe h (need h n) data (λ _, n ≤ len data ∧ n ≤ h).
Proof.
  unfold Safe, need. destruct (Z.ltb_spec h n); [by right; eexists|].
  destruct (Z.ltb_spec (len data) n).
  - right. eexists. split; [done|]. by intros ? [= <-].
  - left. by exists tt.
Qed.

(** Numbers from bytes. *)
Lemma lor_shiftl x y k : 0 ≤ k → 0 ≤ y < 2 ^ k → Z.lor (Z.shiftl x k) y = x * 2 ^ k + y.
Proof.
  intros Hk Hy. assert (Z.land (Z.shiftl x k) y = 0) as H0.
  { apply Z.bits_inj'. intros n Hn. rewrite Z.land_spec, Z.shiftl_spec, Z.bits_0 by done.
    destruct (Z.ltb_spec n k); [by rewrite Z.testbit_neg_r by lia|].
    rewrite <- (Z.mod_small y (2 ^ k)), Z.mod_pow2_bits_high by lia. apply andb_false_r. }
  rewrite <- Z.lxor_lor, <- Z.add_nocarry_lxor by done. by rewrite Z.shiftl_mul_pow2.
Qed.

Lemma lor_short x y : is_byte y → Z.lor (Z.shiftl x 8) y = x * 256 + y.
Proof. intros Hy. rewrite lor_shiftl by (unfold is_byte in Hy; lia). lia. Qed.

Lemma lor_triple x y z :
  is_byte y → is_byte z →
  Z.lor (Z.lor (Z.shiftl x 16) (Z.shiftl y 8)) z = x * 65536 + y * 256 + z.
Proof.
  unfold is_byte. intros Hy Hz. rewrite (lor_shiftl x (Z.shiftl y 8) 16).
  2: lia. 2: { rewrite Z.shiftl_mul_pow2 by lia. lia. }
  rewrite Z.shiftl_mul_pow2 by lia.
  replace (x * 2 ^ 16 + y * 2 ^ 8) with (Z.shiftl (x * 256 + y) 8) by (rewrite Z.shiftl_mul_pow2; lia).
  rewrite lor_shiftl by lia. lia.
Qed.

Section safety.
Variable data : list Z.
Variable h : Z.
Hypothesis data_ok : Forall is_byte data.

Lemma Safe_byte o : 0 ≤ o < len data → Safe h (byte_at o) data is_byte.
Proof.
  intros Ho. destruct (idx_total data o Ho) as (x & Hx & Hl). left. exists x.
  unfold byte_at. rewrite Hx. split; [done|]. by eapply Forall_lookup_1 in data_ok.
Qed.

Lemma Safe_short o : 0 ≤ o → o + 2 ≤ len data → Safe h (short_at o) data (λ x, 0 ≤ x < 65536).
Proof.
  intros Ho Hl. unfold short_at. eapply Safe_bind; [apply Safe_byte; lia|]. intros x Hx.
  eapply Safe_bind; [apply Safe_byte; lia|]. intros y Hy. apply Safe_ret.
  rewrite lor_short by done. unfold is_byte in *. lia.
Qed.

Lemma Safe_slice lo hi : 0 ≤ lo ≤ hi → hi ≤ len data → Safe h (slice_at lo hi) data (λ _, True).
Proof. intros. left. unfold slice_at. rewrite slice_Ret by done. by eexists. Qed.

(** One step of a parser whose next offset is in range. *)
Ltac safe_step :=
  match goal with
  | |- Safe _ (need _ _ ≫= _) _ _ => eapply Safe_bind; [apply Safe_need|]; intros _ [? ?]
  | |- Safe _ (byte_at _ ≫= _) _ _ => eapply Safe_bind; [apply Safe_byte; lia|]; intros ? ?
  | |- Safe _ (short_at _ ≫= _) _ _ => eapply Safe_bind; [apply Safe_short; lia|]; intros ? ?
  | |- Safe _ (slice_at _ _ ≫= _) _ _ => eapply Safe_bind; [apply Safe_slice; lia|]; intros ? _
  | |- Safe _ (stop (Reject _)) _ _ => apply Safe_reject
  | |- Safe _ (stop errNotTLS) _ _ => apply Safe_reject
  | |- Safe _ (stop errNotClientHello) _ _ => apply Safe_reject
  | |- Safe _ (stop (Found _)) _ _ => by apply Safe_stop
  | |- Safe _ (if ?x <? ?y then _ else _) _ _ => destruct (Z.ltb_spec x y)
  | |- Safe _ (if ?x <=? ?y then _ else _) _ _ => destruct (Z.leb_spec x y)
  | |- Safe _ (if ?x =? ?y then _ else _) _ _ => destruct (Z.eqb_spec x y)
  | |- Safe _ (if negb (?x =? ?y) then _ else _) _ _ => destruct (Z.eqb_spec x y); cbn [negb]
  | |- Safe _ (if HasSuffix _ _ then _ else _) _ _ => destruct (HasSuffix _ _)
  end; cbv beta zeta in *; unfold is_byte in * |-.

Lemma names_loop_safe fuel o e :
  0 ≤ o ≤ e → (Z.to_nat (e - o) < fuel)%nat → Safe h (names_loop fuel h o e) data (λ o', o' = e).
Proof.
  revert o. induction fuel as [|fuel IH]; intros o Ho Hf; [lia|]. cbn [names_loop].
  safe_step; [apply Safe_ret; lia|]. repeat safe_step. apply IH; lia.
Qed.

Lemma extensions_loop_safe fuel o e :
  0 ≤ o → (Z.to_nat (e - o) < fuel)%nat → Safe h (extensions_loop fuel h o e) data (λ _, False).
Proof.
  revert o. induction fuel as [|fuel IH]; intros o Ho Hf; [lia|]. cbn [extensions_loop].
  repeat safe_step.
  - eapply Safe_bind; [apply names_loop_safe; lia|]. intros o' ->. apply IH; lia.
  - apply IH; lia.
Qed.

Lemma read_body_safe : 0 ≤ h → Safe h (read_body h) data (λ _, False).
Proof.
  intros Hh. unfold read_body, tlsHandshakeHeaderLen. cbv zeta. repeat safe_step. apply extensions_loop_safe; lia.
Qed.

End safety.

Lemma clientHelloSize_safe data :
  Forall is_byte data → 4 ≤ len data →
  ∃ h, clientHelloSize data = Ret (Go h) ∧ 4 ≤ h < 4 + 2 ^ 24.
Proof.
  intros Hd Hl. unfold clientHelloSize.
  assert (Safe 0 clientHelloSize data (λ h, 4 ≤ h < 4 + 2 ^ 24)) as [(h & Hh & ?)|(v & Hv & _)].
  - do 3 (eapply Safe_bind; [apply Safe_byte; [done|lia]|]; intros ? ?). apply Safe_ret.
    rewrite lor_triple by done. unfold is_byte, tlsHandshakeHeaderLen in *. lia.
  - by exists h.
  - revert Hv. unfold clientHelloSize, mbind, ps_bind, byte_at.
    do 3 (destruct (idx data _); simpl; try done).
Qed.

(** The largest handshake message. *)
Definition maxHello : Z := 4 + 2 ^ 24.

Lemma ReadClientHello_safe data :
  Forall is_byte data → ∃ v, ReadClientHello data = Ret v ∧ asks_more maxHello data v.
Proof.
  intros Hd. unfold ReadClientHello. destruct data as [|b0 rest] eqn:E.
  { eexists. split; [done|]. intros ? [= <-]. unfold maxHello; simpl; lia. }
  rewrite <- E in *. destruct (negb _); [by eexists|].
  unfold tlsHandshakeHeaderLen. destruct (Z.ltb_spec (len data) 4).
  { eexists. split; [done|]. intros ? [= <-]. unfold maxHello. lia. }
  destruct (clientHelloSize_safe data) as (h & -> & Hh); [done|lia|]. run.
  set (cut := if h <? len data then _ else _).
  assert (Forall is_byte cut ∧ (len cut = h ∨ cut = data)) as [Hc Hlen].
  { unfold cut. destruct (Z.ltb_spec h (len data)); [|by split; [|right]].
    split; [by apply Forall_take|]. left. rewrite length_take. lia. }
  destruct (read_body_safe cut h Hc) as [(a & _ & [])|(v & Hv & Hm)]; [lia|].
  unfold verdict_of. rewrite Hv. run. exists v. split; [done|]. intros n ->. specialize (Hm n eq_refl).
  unfold maxHello. clearbody cut. destruct Hlen as [Hlen|Hlen]; [lia|]. rewrite Hlen in Hm. lia.
Qed.

(** ** Stability *)

Class Stable {A} (m : ps A) : Prop :=
  stable data more r : m data = Ret r → (∀ n, r ≠ Stop (Need n)) → m (data ++ more) = Ret r.

#[global] Instance Stable_ret {A} (a : A) : Stable (mret a).
Proof. by intros data more r. Qed.

#[global] Instance Stable_stop {A} v : Stable (@stop A v).
Proof. by intros data more r. Qed.

#[global] Instance Stable_out {A} : Stable (λ _, OutOfFuel (A := step A)).
Proof. by intros data more r. Qed.

#[global] Instance Stable_bind {A B} (m : ps A) (f : A → ps B) :
  Stable m → (∀ a, Stable (f a)) → Stable (m ≫= f).
Proof.
  intros Hm Hf data more r. unfold mbind, ps_bind.
  destruct (m data) as [[a|v]| |] eqn:E; try done; intros Hr Hn.
  - rewrite (Hm _ more _ E) by done. by apply Hf.
  - simplify_eq. by rewrite (Hm _ more (Stop v) E) by (intros n [= ->]; by destruct (Hn n)).
Qed.

#[global] Instance Stable_if {A} (b : bool) (m1 m2 : ps A) :
  Stable m1 → Stable m2 → Stable (if b then m1 else m2).
Proof. by destruct b. Qed.

#[global] Instance Stable_need h n : Stable (need h n).
Proof.
  intros data more r. unfold need. destruct (h <? n); [done|].
  destruct (Z.ltb_spec (len data) n); [by intros [= <-] Hn; destruct (Hn n)|].
  rewrite length_app. by destruct (Z.ltb_spec (Z.of_nat (length data + length more)) n); [lia|].
Qed.

#[global] Instance Stable_byte o : Stable (byte_at o).
Proof.
  intros data more r. unfold byte_at. intros (x & Hx & [= <-])%bind_Ret _.
  apply idx_Ret in Hx as [Ho Hx]. rewrite (idx_lookup _ o x); [done..|]. by apply lookup_app_l_Some.
Qed.

#[global] Instance Stable_slice lo hi : Stable (slice_at lo hi).
Proof.
  intros data more r. unfold slice_at, slice. case_bool_decide as Hb; run; [|done]. intros [= <-] _.
  rewrite bool_decide_true by (rewrite length_app; lia). run.
  rewrite drop_app_le, take_app_le by (rewrite ?length_drop; lia). done.
Qed.

#[global] Instance Stable_names fuel h o e : Stable (names_loop fuel h o e).
Proof. revert o. induction fuel as [|fuel IH]; intros o; cbn [names_loop]; apply _. Qed.

#[global] Instance Stable_extensions fuel h o e : Stable (extensions_loop fuel h o e).
Proof. revert o. induction fuel as [|fuel IH]; intros o; cbn [extensions_loop]; apply _. Qed.

#[global] Instance Stable_body h : Stable (read_body h).
Proof. unfold read_body. apply _. Qed.

(** More bytes do not change a verdict of the ClientHello parser. *)
Lemma ReadClientHello_stable data more v :
  Forall is_byte data → ReadClientHello data = Ret v → (∀ n, v ≠ Need n) → ReadClientHello (data ++ more) = Ret v.
Proof.
  intros Hd. unfold ReadClientHello. destruct data as [|b0 rest] eqn:E.
  { intros [= <-] Hn. by destruct (Hn 1). }
  rewrite <- E in *. replace (data ++ more) with (b0 :: (rest ++ more)) at 1 by (by rewrite E).
  destruct (negb _); [done|]. unfold tlsHandshakeHeaderLen.
  destruct (Z.ltb_spec (len data) 4).
  { intros [= <-] Hn. by destruct (Hn 4). }
  rewrite length_app. destruct (Z.ltb_spec (Z.of_nat (length data + length more)) 4); [lia|].
  destruct (clientHelloSize_safe data) as (h & Hh & Hb); [done|lia|].
  assert (Stable clientHelloSize) as Hst by (unfold clientHelloSize; apply _).
  rewrite Hh, (Hst _ more _ Hh) by done. run. intros Hv Hn.
  set (cut := if h <? len data then _ else _) in Hv.
  set (cut' := if h <? _ then _ else _).
  assert (∃ more', cut' = cut ++ more') as [more' ->].
  { unfold cut, cut'. destruct (Z.ltb_spec h (len data)), (Z.ltb_spec h (Z.of_nat (length data + length more)));
      try lia.
    - exists []. rewrite app_nil_r, take_app_le by lia. done.
    - exists (take (Z.to_nat h - length data) more). rewrite take_app_ge by lia. done.
    - by exists more. }
  unfold verdict_of in *. apply bind_Ret in Hv as ([a|v'] & Hr & Hv); [done|]. simplify_eq.
  by rewrite (stable _ more' _ Hr) by (intros n [= ->]; by destruct (Hn n)).
Qed.

(** ** The records of a flight *)

Lemma record_header_safe b w :
  Forall is_byte b → 0 ≤ w ≤ len b →
  Safe (len b + 5) (record_header w) b (λ n, 1 ≤ n ≤ tlsMaxPlaintext ∧ w + 5 ≤ len b).
Proof.
  intros Hb Hw. unfold record_header, tlsRecordHeaderLen.
  eapply (Safe_bind _ _ _ _ (λ _, w + 5 ≤ len b)).
  { destruct (Z.ltb_spec (len b - w) 5).
    - right. eexists. split; [by rewrite (proj2 (Z.ltb_lt _ _))|]. intros ? [= <-]. lia.
    - left. exists tt. split; [by rewrite (proj2 (Z.ltb_ge _ _))|]. lia. }
  intros _ Hl. do 3 (eapply Safe_bind; [apply Safe_byte; [done|lia]|]; intros ? _).
  destruct (_ || _); [apply Safe_reject|].
  eapply Safe_bind; [apply Safe_short; [done|lia..]|]. intros n Hn. cbv beta in Hn.
  destruct (Z.ltb_spec tlsMaxPlaintext n); [apply Safe_reject|].
  destruct (Z.eqb_spec n 0); [apply Safe_reject|]. apply Safe_ret. lia.
Qed.

#[global] Instance Stable_record_header w : Stable (record_header w).
Proof.
  unfold record_header. assert (Stable (λ b, if len b - w <? tlsRecordHeaderLen
    then Ret (Stop (Need (w + tlsRecordHeaderLen))) else Ret (Go tt))); [|apply _].
  intros data more r. destruct (Z.ltb_spec (len data - w) tlsRecordHeaderLen).
  - intros [= <-] Hn. by destruct (Hn (w + tlsRecordHeaderLen)).
  - intros [= <-] _. rewrite length_app. rewrite (proj2 (Z.ltb_ge _ _)) by lia. done.
Qed.

(** The payload that is there of a record. *)
Lemma record_payload b w n :
  Forall is_byte b → 0 ≤ w → 1 ≤ n → w + 5 ≤ len b →
  let recordEnd := w + tlsRecordHeaderLen + n in
  let payloadEnd := if recordEnd <? len b then recordEnd else len b in
  let payloadEnd := if payloadEnd <? w + tlsRecordHeaderLen then w + tlsRecordHeaderLen else payloadEnd in
  payloadEnd = Z.min recordEnd (len b) ∧
  ∃ payload, slice b (w + tlsRecordHeaderLen) payloadEnd = Ret payload ∧ Forall is_byte payload ∧
    payload = take (Z.to_nat n) (drop (Z.to_nat (w + 5)) b).
Proof.
  intros Hb Hw Hn Hl recordEnd p1 p2. unfold tlsRecordHeaderLen in *.
  assert (p2 = Z.min recordEnd (len b)) as Hp.
  { unfold p2, p1. destruct (Z.ltb_spec recordEnd (len b));
      [destruct (Z.ltb_spec recordEnd (w + 5))|destruct (Z.ltb_spec (len b) (w + 5))];
      unfold recordEnd in *; lia. }
  split; [done|]. eexists. rewrite slice_Ret by (unfold recordEnd in *; lia).
  split; [done|]. split; [by apply Forall_take, Forall_drop|]. rewrite Hp.
  destruct (Z.le_gt_cases recordEnd (len b)).
  - f_equal. unfold recordEnd in *. lia.
  - rewrite !take_ge; [done|rewrite length_drop; unfold recordEnd in *; lia..].
Qed.

Lemma record_step_safe b w ch :
  Forall is_byte b → Forall is_byte ch → 0 ≤ w ≤ len b →
  (∃ w' ch', record_step b w ch = Ret (Go (w', ch')) ∧ w < w' ≤ len b ∧ Forall is_byte ch') ∨
  (∃ v, record_step b w ch = Ret (Stop v) ∧ asks_more (len b + tlsMaxPlaintext) b v).
Proof.
  intros Hb Hch Hw. unfold record_step.
  destruct (record_header_safe b w Hb Hw) as [(n & -> & Hn & Hl)|(v & -> & Hv)]; run.
  2: { right. exists v. split; [done|]. intros m ->. specialize (Hv m eq_refl). unfold tlsMaxPlaintext. lia. }
  destruct (record_payload b w n Hb) as (-> & payload & -> & Hp & _); [lia..|]. run.
  set (ch' := if w =? 0 then payload else ch ++ payload).
  assert (Forall is_byte ch') as Hch' by (unfold ch'; destruct (w =? 0); [done|by apply Forall_app]).
  destruct (ReadClientHello_safe ch' Hch') as (v & -> & Hv). run.
  destruct v as [name|k|e]; [right; by eexists| |right; by eexists].
  specialize (Hv k eq_refl). unfold tlsRecordHeaderLen, tlsMaxPlaintext in *.
  destruct (Z.ltb_spec (Z.min (w + 5 + n) (len b)) (w + 5 + n)).
  - right. eexists. split; [done|]. intros m [= <-].
    destruct (Z.ltb_spec (w + 5 + n - Z.min (w + 5 + n) (len b)) (k - len ch')); lia.
  - left. do 2 eexists. split; [done|]. split; [lia|done].
Qed.

Lemma records_loop_safe fuel b w ch :
  Forall is_byte b → Forall is_byte ch → 0 ≤ w ≤ len b → (Z.to_nat (len b - w) < fuel)%nat →
  ∃ v, records_loop fuel b w ch = Ret v ∧ asks_more (len b + tlsMaxPlaintext) b v.
Proof.
  intros Hb. revert w ch. induction fuel as [|fuel IH]; intros w ch Hch Hw Hf; [lia|]. cbn [records_loop].
  destruct (record_step_safe b w ch Hb Hch Hw) as [(w' & ch' & -> & Hw' & Hch')|(v & -> & Hv)]; run.
  - apply IH; [done|lia..].
  - by exists v.
Qed.

Lemma SniffTLS_returns b :
  Forall is_byte b → ∃ v, SniffTLS b = Ret v ∧ asks_more (len b + tlsMaxPlaintext) b v.
Proof. intros Hb. apply records_loop_safe; [done|constructor|lia..]. Qed.

(** C13: sniffing TLS returns on every buffer of bytes, without an access out of bounds;
    when it asks for more bytes, it asks for more than there are, and for no more
    than the rest of a record. *)
Theorem tls_sniff_safe b :
  Forall is_byte b →
  ∃ v, SniffTLS b = Ret v ∧ ∀ n, v = Need n → len b < n ≤ len b + tlsMaxPlaintext.
Proof. apply SniffTLS_returns. Qed.

Lemma record_step_stable b more w ch r :
  Forall is_byte b → Forall is_byte more → Forall is_byte ch → 0 ≤ w ≤ len b →
  record_step b w ch = Ret r → (∀ n, r ≠ Stop (Need n)) → record_step (b ++ more) w ch = Ret r.
Proof.
  intros Hb Hmore Hch Hw. unfold record_step. intros ([n|v] & Hh & Hr)%bind_Ret Hne.
  2: { simplify_eq. rewrite (stable _ more _ Hh); [done|]. intros n [= ->]. by destruct (Hne n). }
  rewrite (stable _ more _ Hh) by done. run.
  destruct (record_header_safe b w Hb Hw) as [(n' & Hh' & Hn & Hl)|(v & Hh' & _)]; [|congruence].
  assert (n' = n) as -> by congruence. clear Hh Hh'. revert Hr.
  destruct (record_payload b w n Hb) as (-> & payload & -> & Hp & Hpl); [lia..|].
  destruct (record_payload (b ++ more) w n) as (-> & payload' & -> & _ & Hpl');
    [by apply Forall_app|rewrite ?length_app; lia..|]. run.
  assert (∃ more', payload' = payload ++ more' ∧ (w + 5 + n ≤ len b → more' = [])) as (more' & -> & Hfull).
  { rewrite drop_app_le, take_app in Hpl' by lia. subst. eexists. split; [done|]. intros ?.
    rewrite length_drop. replace (_ - _)%nat with 0%nat by lia. done. }
  set (ch1 := if w =? 0 then payload else ch ++ payload).
  assert ((if w =? 0 then payload ++ more' else ch ++ payload ++ more') = ch1 ++ more') as ->.
  { unfold ch1. destruct (w =? 0); [done|]. by rewrite app_assoc. }
  assert (Forall is_byte ch1) as Hch1 by (unfold ch1; destruct (w =? 0); [done|by apply Forall_app]).
  intros (v & Hv & Hr)%bind_Ret. unfold tlsRecordHeaderLen in *.
  destruct v as [name|k|e]; [|revert Hr|].
  1,3: rewrite (ReadClientHello_stable _ more' _ Hch1 Hv) by done; done.
  destruct (Z.ltb_spec (Z.min (w + 5 + n) (len b)) (w + 5 + n)); intros Hr.
  - simplify_eq. by destruct (Hne _ eq_refl).
  - rewrite Hfull, app_nil_r, Hv by lia. run. rewrite length_app.
    destruct (Z.ltb_spec (Z.min (w + 5 + n) (Z.of_nat (length b + length more))) (w + 5 + n)); [lia|done].
Qed.

Lemma records_loop_stable fuel fuel' b more w ch v :
  Forall is_byte b → Forall is_byte more → Forall is_byte ch → 0 ≤ w ≤ len b → (fuel ≤ fuel')%nat →
  records_loop fuel b w ch = Ret v → (∀ n, v ≠ Need n) → records_loop fuel' (b ++ more) w ch = Ret v.
Proof.
  intros Hb Hmore. revert fuel' w ch. induction fuel as [|fuel IH]; intros [|fuel'] w ch Hch Hw Hf; try done; [lia|].
  cbn [records_loop]. intros Hv Hne.
  destruct (record_step_safe b w ch Hb Hch Hw) as [(w' & ch' & Hs & Hw' & Hch')|(v' & Hs & _)];
    rewrite Hs in Hv; simpl in Hv.
  - rewrite (record_step_stable b more w ch _ Hb Hmore Hch Hw Hs) by done. run.
    apply IH; [done|lia|lia|done..].
  - simplify_eq. rewrite (record_step_stable b more w ch _ Hb Hmore Hch Hw Hs); [done|].
    intros n [= ->]. by destruct (Hne n).
Qed.

(** A verdict of the TLS sniffer does not change when more bytes arrive: a server
    name stays, and a rejection stays. *)
Theorem tls_sniff_stable b more v :
  Forall is_byte (b ++ more) → SniffTLS b = Ret v → (∀ n, v ≠ Need n) → SniffTLS (b ++ more) = Ret v.
Proof.
  intros [Hb Hmore]%Forall_app. apply records_loop_stable; [done..|constructor|lia|].
  rewrite length_app. lia.
Qed.

(** ** A well-formed ClientHello *)

Record ClientHello := mkHello {
  legacy_version : list Z;
  random : list Z;
  session_id : list Z;
  cipher_suites : list Z;
  compression : list Z;
  exts_before : list (Z * list Z);       (* type and payload *)
  server_name : list Z;
  exts_after : list (Z * list Z);
}.

Definition ext_bytes (e : Z * list Z) : list Z := be 2 e.1 ++ be 2 (len e.2) ++ e.2.
Definition exts_bytes (es : list (Z * list Z)) : list Z := mjoin (ext_bytes <$> es).
Definition sni (name : list Z) : list Z := be 2 (len name + 3) ++ [0] ++ be 2 (len name) ++ name.
Definition extensions (c : ClientHello) : list Z :=
  exts_bytes (exts_before c) ++ ext_bytes (0, sni (server_name c)) ++ exts_bytes (exts_after c).
Definition hello_body (c : ClientHello) : list Z :=
  legacy_version c ++ random c ++ [len (session_id c)] ++ session_id c ++
  be 2 (len (cipher_suites c)) ++ cipher_suites c ++ [len (compression c)] ++ compression c ++
  be 2 (len (extensions c)) ++ extensions c.
Definition hello_bytes (c : ClientHello) : list Z := [1] ++ be 3 (len (hello_body c)) ++ hello_body c.

Definition ext_ok (e : Z * list Z) : Prop := 0 < e.1 < 65536 ∧ len e.2 < 65536 ∧ Forall is_byte e.2.

Record hello_ok (c : ClientHello) : Prop := {
  ok_version : length (legacy_version c) = 2%nat;
  ok_random : length (random c) = 32%nat;
  ok_session : len (session_id c) ≤ 32;
  ok_ciphers : len (cipher_suites c) < 65536 ∧ len (cipher_suites c) mod 2 = 0;
  ok_compression : len (compression c) < 256;
  ok_before : Forall ext_ok (exts_before c);
  ok_extensions : len (extensions c) < 65536;
  ok_name : HasSuffix (bytes_string (server_name c)) "." = false;
  ok_bytes : Forall is_byte (hello_bytes c);
}.

(** *** Reading at an offset *)

Definition cur (data : list Z) (o : Z) (rest : list Z) : Prop :=
  0 ≤ o ≤ len data ∧ drop (Z.to_nat o) data = rest.

Lemma bind_go {A B} (m : ps A) (f : A → ps B) data a : m data = Ret (Go a) → (m ≫= f) data = f a data.
Proof. intros Hm. unfold mbind, ps_bind. by rewrite Hm. Qed.

Lemma cur_len data o rest : cur data o rest → len data = o + len rest.
Proof. intros [Ho <-]. rewrite length_drop. lia. Qed.

Lemma cur_skip data o l rest : cur data o (l ++ rest) → cur data (o + len l) rest.
Proof.
  intros Hc. pose proof (cur_len _ _ _ Hc) as Hl. destruct Hc as [Ho Hd]. rewrite length_app in Hl.
  split; [lia|]. replace (Z.to_nat (o + len l)) with (Z.to_nat o + length l)%nat by lia.
  by rewrite <- drop_drop, Hd, drop_app_length.
Qed.

Lemma byte_lookup data o x : 0 ≤ o → data !! Z.to_nat o = Some x → byte_at o data = Ret (Go x).
Proof. intros Ho Hx. unfold byte_at. by rewrite (idx_lookup _ o x). Qed.

Lemma cur_byte data o x rest : cur data o (x :: rest) → byte_at o data = Ret (Go x).
Proof.
  intros [Ho Hd]. apply byte_lookup; [lia|].
  by rewrite <- (Nat.add_0_r (Z.to_nat o)), <- lookup_drop, Hd.
Qed.

Lemma cur_short data o v rest :
  0 ≤ v < 65536 → cur data o (be 2 v ++ rest) → short_at o data = Ret (Go v).
Proof.
  intros Hv Hc. unfold short_at. simpl in Hc.
  assert (v / 256 / 256 = 0) as E by (rewrite Z.div_div by lia; apply Z.div_small; lia).
  rewrite (bind_go _ _ _ _ (cur_byte _ _ _ _ Hc)).
  pose proof (cur_skip data o [(v / 256) mod 256] _ Hc) as Hc1. simpl in Hc1.
  rewrite (bind_go _ _ _ _ (cur_byte _ _ _ _ Hc1)).
  pose proof (Z.mod_pos_bound v 256 ltac:(lia)). rewrite lor_short by done.
  unfold mret, ps_ret. f_equal. f_equal. rewrite (Z.mod_small (v / 256)) by
    (split; [apply Z.div_pos; lia|apply Z.div_lt_upper_bound; lia]).
  rewrite (Z.div_mod v 256) at 3 by lia. lia.
Qed.

Lemma cur_slice data o l rest :
  cur data o (l ++ rest) → slice_at o (o + len l) data = Ret (Go l).
Proof.
  intros Hc. pose proof (cur_len _ _ _ Hc) as Hl. destruct Hc as [Ho Hd]. rewrite length_app in Hl.
  unfold slice_at. rewrite slice_Ret by lia. run.
  replace (Z.to_nat (o + len l - o)) with (length l) by lia. by rewrite Hd, take_app_length.
Qed.

Lemma need_ok data n : n ≤ len data → need (len data) n data = Ret (Go tt).
Proof. intros Hn. unfold need. by rewrite !(proj2 (Z.ltb_ge _ _)) by lia. Qed.

Lemma length_ext_bytes e : len (ext_bytes e) = 4 + len e.2.
Proof. unfold ext_bytes. rewrite !length_app, !length_be. lia. Qed.

Lemma length_sni name : len (sni name) = 5 + len name.
Proof. unfold sni. rewrite !length_app, !length_be. simpl. lia. Qed.

(** Take the next step of a parser at the cursor. *)
Ltac read_step :=
  first [rewrite (bind_go _ _ _ tt) by (apply need_ok; lia)
        |erewrite bind_go by (eapply cur_short; [|eassumption]; lia)
        |erewrite bind_go by (eapply cur_byte; eassumption)];
  cbv beta zeta.

Lemma sni_found data fuel o name rest :
  HasSuffix (bytes_string name) "." = false → len (sni name) < 65536 →
  cur data o (ext_bytes (0, sni name) ++ rest) →
  extensions_loop (S fuel) (len data) o (len data) data = Ret (Stop (Found (bytes_string name))).
Proof.
  intros Hdot Hsz Hc. pose proof (cur_len _ _ _ Hc) as Hl. rewrite length_app in Hl.
  pose proof (length_ext_bytes (0, sni name)) as He. pose proof (length_sni name) as Hs. cbn [fst snd] in *.
  cbn [extensions_loop]. rewrite (proj2 (Z.leb_gt _ _)) by lia.
  unfold ext_bytes in Hc. cbn [fst snd] in Hc. rewrite <- !app_assoc in Hc.
  pose proof (cur_skip _ _ _ _ Hc) as H1. rewrite length_be in H1. change (Z.of_nat 2) with 2 in H1.
  pose proof (cur_skip _ _ _ _ H1) as H2. rewrite length_be in H2. change (Z.of_nat 2) with 2 in H2.
  do 3 read_step. replace (o + 2 + 2) with (o + 4) in H2 by lia.
  rewrite (proj2 (Z.ltb_ge _ _)) by lia. cbn [Z.eqb]. rewrite (proj2 (Z.ltb_ge _ _)) by lia.
  unfold sni in H2 at 1. rewrite <- !app_assoc in H2.
  pose proof (cur_skip _ _ _ _ H2) as H3. rewrite length_be in H3. change (Z.of_nat 2) with 2 in H3.
  do 2 read_step. rewrite (proj2 (Z.eqb_eq _ _)) by lia. cbn [negb].
  assert (names_loop (S fuel) (len data) (o + 4 + 2) (o + 4 + 2 + (len name + 3)) data =
    Ret (Stop (Found (bytes_string name)))) as Hn.
  { cbn [names_loop]. rewrite (proj2 (Z.leb_gt _ _)) by lia.
    pose proof (cur_skip _ _ _ _ H3) as H4. simpl in H3. change (o + 4 + 2 + len [0]) with (o + 4 + 2 + 1) in H4.
    pose proof (cur_skip _ _ _ _ H4) as H5. rewrite length_be in H5. change (Z.of_nat 2) with 2 in H5.
    read_step. read_step. read_step. rewrite (proj2 (Z.ltb_ge _ _)) by lia. read_step. cbn [Z.eqb].
    replace (o + 4 + 2 + 1 + 2) with (o + 4 + 2 + 3) in H5 by lia.
    rewrite (bind_go _ _ _ _ (cur_slice _ _ _ _ H5)). by rewrite Hdot. }
  unfold mbind, ps_bind. by rewrite Hn.
Qed.

Lemma extensions_found data fuel o es name rest :
  Forall ext_ok es → HasSuffix (bytes_string name) "." = false → len (sni name) < 65536 →
  cur data o (exts_bytes es ++ ext_bytes (0, sni name) ++ rest) → (length es < fuel)%nat →
  extensions_loop fuel (len data) o (len data) data = Ret (Stop (Found (bytes_string name))).
Proof.
  intros Hes Hdot Hsz. revert fuel o. induction Hes as [|[t pl] es (Ht & Hpl & _) Hes IH]; intros fuel o Hc Hf.
  { destruct fuel; [lia|]. eapply sni_found; [done|done|exact Hc]. }
  destruct fuel as [|fuel]; [lia|]. cbn [fst snd length] in *.
  unfold exts_bytes in Hc. rewrite fmap_cons in Hc. cbn [mjoin list_join] in Hc.
  change (mjoin (ext_bytes <$> es)) with (exts_bytes es) in Hc.
  rewrite <- app_assoc in Hc. pose proof (cur_skip _ _ _ _ Hc) as Hnext.
  pose proof (cur_len _ _ _ Hc) as Hl. rewrite !length_app in Hl.
  pose proof (length_ext_bytes (t, pl)) as He. pose proof (length_ext_bytes (0, sni name)) as Hs. cbn [fst snd] in *.
  cbn [extensions_loop]. rewrite (proj2 (Z.leb_gt _ _)) by lia.
  unfold ext_bytes in Hc at 1. cbn [fst snd] in Hc. rewrite <- !app_assoc in Hc.
  pose proof (cur_skip _ _ _ _ Hc) as H1. rewrite length_be in H1. change (Z.of_nat 2) with 2 in H1.
  do 3 read_step. rewrite (proj2 (Z.ltb_ge _ _)), (proj2 (Z.eqb_neq t 0)) by lia.
  rewrite (proj2 (Z.eqb_neq _ _)) by lia. read_step.
  replace (o + 4 + len pl) with (o + len (ext_bytes (t, pl))) by lia. apply IH; [done|lia].
Qed.

(** Go over the next part of the message, to offset [o]. *)
Ltac goto H o H' :=
  pose proof (cur_skip _ _ _ _ H) as H';
  match type of H' with
  | cur _ ?x _ => replace x with o in H' by (rewrite ?length_be; cbn [length]; lia)
  end.

Lemma read_body_found c data :
  hello_ok c → data = hello_bytes c →
  read_body (len data) data = Ret (Stop (Found (bytes_string (server_name c)))).
Proof.
  intros Hok Hd. destruct Hok as [Hv Hr Hs [Hcs Hev] Hcm Hb He Hn _].
  assert (cur data 0 (hello_bytes c)) as H0 by (split; [lia|by rewrite drop_0]).
  unfold hello_bytes, hello_body in H0.
  goto H0 1 H1. goto H1 4 H2. goto H2 6 H3. goto H3 38 H4. clear H0 H1 H2 H3.
  pose proof (cur_len _ _ _ H4) as Hlen. rewrite !length_app, !length_be in Hlen. cbn [length] in Hlen.
  unfold read_body. change (tlsHandshakeHeaderLen + 2 + 32) with 38. cbv zeta.
  goto H4 39 H5. cbn [app] in H4. do 2 read_step. rewrite (proj2 (Z.ltb_ge _ _)) by lia.
  change (38 + 1) with 39. set (o := 39 + len (session_id c)).
  goto H5 o H6. goto H6 (o + 2) H7. goto H7 (o + 2 + len (cipher_suites c)) H8.
  do 3 read_step. rewrite Hev. cbn [Z.eqb]. set (o2 := o + 2 + len (cipher_suites c)) in *.
  goto H8 (o2 + 1) H9. cbn [app] in H8. do 3 read_step.
  set (o3 := o2 + 1 + len (compression c)) in *. goto H9 o3 H10. goto H10 (o3 + 2) H11. read_step.
  pose proof (cur_len _ _ _ H10) as Hl10. rewrite length_app, length_be in Hl10.
  rewrite (proj2 (Z.eqb_neq _ _)) by lia. do 2 read_step.
  rewrite (proj2 (Z.eqb_eq _ _)) by lia. cbn [negb].
  replace (o3 + 2 + len (extensions c)) with (len data) by lia. unfold extensions in H11, He.
  rewrite !length_app in He. pose proof (length_ext_bytes (0, sni (server_name c))) as Hx. cbn [snd] in Hx.
  eapply extensions_found; [done|done|lia|exact H11|].
  assert (∀ es, (length es ≤ length (exts_bytes es))%nat) as Hes.
  { induction es as [|e es IH]; [done|]. unfold exts_bytes. rewrite fmap_cons. cbn [mjoin list_join].
    change (mjoin (ext_bytes <$> es)) with (exts_bytes es). rewrite length_app.
    pose proof (length_ext_bytes e). cbn [length]. lia. }
  pose proof (Hes (exts_before c)). pose proof (cur_len _ _ _ H11) as Hl11. rewrite !length_app in Hl11. destruct H11 as [? _]. lia.
Qed.

Lemma ReadClientHello_found c :
  hello_ok c → ReadClientHello (hello_bytes c) = Ret (Found (bytes_string (server_name c))).
Proof.
  intros Hok. set (data := hello_bytes c). pose proof (read_body_found c data Hok eq_refl) as Hb.
  assert (len (hello_body c) < 2 ^ 24) as Hlt.
  { destruct Hok as [Hv Hr Hs [Hcs _] Hcm _ He _ _]. unfold hello_body.
    rewrite !length_app, !length_be. cbn [length]. lia. }
  assert (clientHelloSize data = Ret (Go (len data))) as Hsz.
  { assert (Forall is_byte data) as Hby by apply Hok.
    unfold data, hello_bytes. unfold data, hello_bytes in Hby. set (n := len (hello_body c)) in *.
    change (be 3 n) with ((([] ++ [(n / 256 / 256) mod 256]) ++ [(n / 256) mod 256]) ++ [n mod 256]) in *.
    cbn [app] in Hby |- *. rewrite !Forall_cons in Hby. destruct Hby as (_ & H1 & H2 & H3 & _).
    unfold clientHelloSize. do 3 (erewrite bind_go by (eapply byte_lookup; [|reflexivity]; lia)).
    rewrite lor_triple by done. unfold mret, ps_ret, tlsHandshakeHeaderLen. do 2 f_equal.
    cbn [length]. rewrite !Nat2Z.inj_succ. fold n.
    pose proof (Z.div_mod n 256 ltac:(lia)) as D1. pose proof (Z.div_mod (n / 256) 256 ltac:(lia)) as D2.
    assert (n / 256 / 256 < 256) by (apply Z.div_lt_upper_bound; [lia|]; apply Z.div_lt_upper_bound; lia).
    rewrite (Z.mod_small (n / 256 / 256)) by (split; [|done]; do 2 (apply Z.div_pos; [|lia]); lia). lia. }
  unfold ReadClientHello. assert (data = 1 :: tail data) as Hd by done. rewrite Hd at 1.
  cbn [negb Z.eqb Pos.eqb tlsHandshakeTypeClientHello].
  assert (4 ≤ len data) by (unfold data, hello_bytes; rewrite !length_app, length_be; cbn [length]; lia).
  unfold tlsHandshakeHeaderLen. rewrite (proj2 (Z.ltb_ge _ _)) by done. rewrite Hsz. run.
  rewrite Z.ltb_irrefl. unfold verdict_of. rewrite Hb. by run.
Qed.

(** *** Its records *)

Definition record (minor : Z) (payload : list Z) : list Z := [22; 3; minor] ++ be 2 (len payload) ++ payload.
Definition wire (minor : Z) (chunks : list (list Z)) : list Z := mjoin (record minor <$> chunks).

Lemma record_header_at b w minor payload rest :
  cur b w (record minor payload ++ rest) → 1 ≤ len payload ≤ tlsMaxPlaintext →
  record_header w b = Ret (Go (len payload)) ∧ cur b (w + 5) (payload ++ rest).
Proof.
  intros Hc Hp. pose proof (cur_len _ _ _ Hc) as Hl. unfold record in *. rewrite <- !app_assoc in Hc.
  rewrite !length_app, length_be in Hl. cbn [length] in Hl. unfold tlsMaxPlaintext in *.
  goto Hc (w + 3) H3. goto H3 (w + 5) H5. split; [|done].
  pose proof (cur_skip b w [22] ([3; minor] ++ be 2 (len payload) ++ payload ++ rest) Hc) as H1.
  pose proof (cur_skip b w [22; 3] ([minor] ++ be 2 (len payload) ++ payload ++ rest) Hc) as H2.
  cbn [app length] in Hc, H1, H2. unfold record_header, tlsRecordHeaderLen.
  erewrite bind_go; [|by rewrite (proj2 (Z.ltb_ge _ _)) by lia].
  do 3 (erewrite bind_go by (eapply cur_byte; eassumption)). cbn [negb orb Z.eqb Pos.eqb IsValidTLSVersion tlsRecordTypeHandshake].
  erewrite bind_go by (eapply cur_short; [|eassumption]; lia).
  unfold tlsMaxPlaintext. rewrite (proj2 (Z.ltb_ge _ _)), (proj2 (Z.eqb_neq _ _)) by lia. done.
Qed.

Lemma records_found c minor fuel chunks b w ch rest :
  hello_ok c → Forall is_byte b → chunks ≠ [] → (w = 0 → ch = []) → Forall is_byte ch →
  ch ++ mjoin chunks = hello_bytes c → Forall (λ p, 1 ≤ len p ≤ tlsMaxPlaintext) chunks →
  cur b w (wire minor chunks ++ rest) → (length chunks ≤ fuel)%nat →
  records_loop fuel b w ch = Ret (Found (bytes_string (server_name c))).
Proof.
  intros Hok Hb Hne. revert fuel w ch.
  induction chunks as [|p chunks IH]; intros fuel w ch Hw0 Hch Heq Hok' Hc Hf; [done|].
  destruct fuel as [|fuel]; [simpl in Hf; lia|]. apply Forall_cons in Hok' as [Hp Hok'].
  unfold wire in Hc. rewrite fmap_cons in Hc. cbn [mjoin list_join] in Hc, Heq. rewrite <- app_assoc in Hc.
  change (mjoin (record minor <$> chunks)) with (wire minor chunks) in Hc.
  destruct (record_header_at _ _ _ _ _ Hc Hp) as [Hh Hpay].
  pose proof (cur_skip _ _ _ _ Hpay) as Hnext. pose proof (cur_len _ _ _ Hnext) as Hl.
  cbn [records_loop]. unfold record_step. rewrite Hh. run.
  destruct (record_payload b w (len p) Hb) as (-> & payload & -> & Hpb & Hpl); [destruct Hc; lia|lia|lia|].
  assert (payload = p) as ->.
  { rewrite Hpl. destruct Hpay as [_ ->]. by rewrite Nat2Z.id, take_app_length. }
  run. assert ((if w =? 0 then p else ch ++ p) = ch ++ p) as ->.
  { destruct (Z.eqb_spec w 0) as [H0|]; [|done]. by rewrite (Hw0 H0). }
  assert (Forall is_byte (ch ++ p)) as Hch' by (by apply Forall_app).
  pose proof (ReadClientHello_found c Hok) as Hfound. rewrite <- Heq, app_assoc in Hfound.
  destruct (ReadClientHello_safe (ch ++ p) Hch') as (v & Hv & _). rewrite Hv. run.
  destruct v as [name|k|e].
  1,3: rewrite (ReadClientHello_stable _ (mjoin chunks) _ Hch' Hv) in Hfound by done; by simplify_eq.
  unfold tlsRecordHeaderLen. rewrite (proj2 (Z.ltb_ge _ _)) by lia. run.
  assert (chunks ≠ []) as Hne'.
  { intros ->. simpl in Hfound. rewrite app_nil_r in Hfound. by rewrite Hv in Hfound. }
  apply IH; [done|destruct Hc; lia|done|by rewrite <- app_assoc|done|done|simpl in Hf; lia].
Qed.

Lemma length_wire minor chunks : (length chunks ≤ length (wire minor chunks))%nat.
Proof.
  induction chunks as [|p chunks IH]; [done|].
  change (wire minor (p :: chunks)) with (record minor p ++ wire minor chunks).
  rewrite length_app. unfold record. cbn [app length]. lia.
Qed.

(** C26: from a well-formed ClientHello the TLS sniffer reads the server name, however
    the message is cut into records and whatever follows it. *)
Theorem tls_sniff_finds c minor chunks rest :
  hello_ok c → mjoin chunks = hello_bytes c → Forall (λ p, 1 ≤ len p ≤ tlsMaxPlaintext) chunks →
  Forall is_byte (wire minor chunks ++ rest) →
  SniffTLS (wire minor chunks ++ rest) = Ret (Found (bytes_string (server_name c))).
Proof.
  intros Hok Heq Hp Hb. eapply (records_found c minor _ chunks _ 0 [] rest); try done.
  - intros ->. simpl in Heq. unfold hello_bytes in Heq. simpl in Heq. congruence.
  - split; [lia|]. by rewrite drop_0.
  - pose proof (length_wire minor chunks). rewrite length_app. lia.
Qed.

(** ** Instances of the properties *)

Module Examples.

(** "a.io" in a message with one other extension on each side. *)
Definition hello : ClientHello :=
  mkHello [3; 3] (repeat 7 32) [] [19; 1; 19; 2] [0] [(10, [0; 2; 0; 29])] [97; 46; 105; 111] [(16, [0; 0])].

(** Evaluate a statement about concrete bytes. *)
Ltac bytes := unfold is_byte; apply (bool_decide_unpack (Forall (λ b, 0 ≤ b < 256) _)); vm_compute; exact I.

Lemma hello_is_ok : hello_ok hello.
Proof.
  split; try reflexivity; try (vm_compute; congruence).
  - split; reflexivity.
  - repeat constructor; simpl; lia.
  - bytes.
Qed.

(** Its first twenty bytes in one record, the rest in another. *)
Definition cut : list (list Z) := [take 20 (hello_bytes hello); drop 20 (hello_bytes hello)].

Lemma tls_sniff_finds_witness : SniffTLS (wire 1 cut ++ [23; 3; 3]) = Ret (Found "a.io").
Proof.
  rewrite (tls_sniff_finds hello 1 cut [23; 3; 3]); [reflexivity|apply hello_is_ok|reflexivity| |].
  - repeat constructor; vm_compute; congruence.
  - bytes.
Defined.

Lemma tls_sniff_safe_witness :
  ∃ v, SniffTLS (take 30 (wire 1 cut)) = Ret v ∧ v = Need 49 ∧
    ∀ n, v = Need n → len (take 30 (wire 1 cut)) < n ≤ len (take 30 (wire 1 cut)) + tlsMaxPlaintext.
Proof.
  destruct (tls_sniff_safe (take 30 (wire 1 cut))) as (v & Hv & Hn); [bytes|].
  exists v. split; [exact Hv|]. split; [|exact Hn]. vm_compute in Hv. by injection Hv as <-.
Defined.

Lemma tls_sniff_stable_witness :
  SniffTLS (take 85 (wire 1 cut)) = Ret (Found "a.io") ∧
  SniffTLS (take 85 (wire 1 cut) ++ [255]) = Ret (Found "a.io").
Proof.
  assert (SniffTLS (take 85 (wire 1 cut)) = Ret (Found "a.io")) as H by (vm_compute; reflexivity).
  split; [exact H|]. apply (tls_sniff_stable (take 85 (wire 1 cut)) [255] (Found "a.io")); [bytes|exact H|].
  intros n. discriminate.
Defined.
End Examples.
