(* ===== verification/SniffHttp.v ===== *)
(** * The HTTP sniffer ([component/sniffer/http_sniffer.go])

    HTTP/1 requests and the HTTP/2 client preface, read from a prefix of the
    connection.  The decoder of header blocks (HPACK, from golang.org/x/net) is a
    parameter: a state, and a function from the bytes that are written to the header
    fields that become complete, with whether there was an error.  [netip.ParseAddr]
    is a parameter as well.

    [http_sniff_safe] shows that the sniffer returns on every input and asks only for
    bytes that it has not seen, [http_sniff_stable] that a verdict on an HTTP/1
    connection is final, and [http_sniff_finds] that the host of a request is found. *)

From Stdlib Require Import Ascii.
From S2P Require Import Prelude Wire GoStrings NetIP SniffTls.

(** ** The [bytes] package *)

Fixpoint bytes_HasPrefix (b prefix : list Z) {struct prefix} : bool :=
  match prefix, b with
  | [], _ => true
  | p :: prefix, x :: b => (x =? p) && bytes_HasPrefix b prefix
  | _ :: _, [] => false
  end.

(** [bytes.Cut] for a separator that is not empty. *)
Fixpoint bytes_Cut (b sep : list Z) : option (list Z * list Z) :=
  if bytes_HasPrefix b sep then Some ([], drop (length sep) b)
  else
    match b with
    | [] => None
    | x :: b =>
      match bytes_Cut b sep with
      | Some (before, after) => Some (x :: before, after)
      | None => None
      end
    end.

Definition fold_byte (x : Z) : Z := if (65 <=? x) && (x <=? 90) then x + 32 else x.

(** [bytes.EqualFold(s, t)] for a [t] of ASCII letters.  Two other characters fold to
    ASCII letters: U+017F to "s" and U+212A to "k". *)
Fixpoint bytes_EqualFold (s t : list Z) {struct t} : bool :=
  match t with
  | [] => match s with [] => true | _ => false end
  | c :: t =>
    match s with
    | [] => false
    | x :: s1 =>
      if fold_byte x =? fold_byte c then bytes_EqualFold s1 t
      else
        match s with
        | 197 :: 191 :: s2 => (fold_byte c =? 115) && bytes_EqualFold s2 t
        | 226 :: 132 :: 170 :: s3 => (fold_byte c =? 107) && bytes_EqualFold s3 t
        | _ => false
        end
    end
  end.

(** [uri[:i]] for the [i] of [bytes.IndexAny(uri, chars)]. *)
Fixpoint before_any (b chars : list Z) : list Z :=
  match b with
  | [] => []
  | x :: b => if existsb (Z.eqb x) chars then [] else x :: before_any b chars
  end.

(** [net.SplitHostPort]: the host, if there is no error. *)
Fixpoint IndexByte (s : string) (c : ascii) : option nat :=
  match s with
  | EmptyString => None
  | String a s => if Ascii.eqb a c then Some O else S <$> IndexByte s c
  end.
Fixpoint LastIndexByte (s : string) (c : ascii) : option nat :=
  match s with
  | EmptyString => None
  | String a s =>
    match LastIndexByte s c with
    | Some i => Some (S i)
    | None => if Ascii.eqb a c then Some O else None
    end
  end.

Definition string_from (i : nat) (s : string) : string := String.substring i (String.length s - i) s.

Definition SplitHostPort (hostport : string) : option string :=
  match LastIndexByte hostport ":" with
  | None => None
  | Some i =>
    if HasPrefix hostport "[" then
      match IndexByte hostport "]" with
      | None => None
      | Some e =>
        if (S e =? String.length hostport)%nat then None
        else if negb (S e =? i)%nat then None
        else if has_byte "[" (string_from 1 hostport) || has_byte "]" (string_from (S e) hostport) then None
        else Some (String.substring 1 (e - 1) hostport)
      end
    else
      let host := String.substring 0 i hostport in
      if has_byte ":" host then None
      else if has_byte "[" hostport || has_byte "]" hostport then None
      else Some host
  end.

(** ** Constants *)

Definition errNotHTTP : verdict := Reject "not an HTTP".
Definition errHostIsIP : verdict := Reject "host is ip".
Definition ErrNoClue : verdict := Reject "not enough information for making a decision".

Definition httpMethods : list (list Z) :=
  string_bytes <$> ["GET"; "POST"; "HEAD"; "PUT"; "DELETE"; "OPTIONS"; "CONNECT"; "PATCH"; "TRACE"].

Definition SP : list Z := [32].
Definition CRLF : list Z := [13; 10].

Definition h2ClientPreface : list Z :=
  string_bytes "PRI * HTTP/2.0" ++ CRLF ++ CRLF ++ string_bytes "SM" ++ CRLF ++ CRLF.

Definition h2FrameHeaderLen : Z := 9.
Definition h2FrameHeaders : Z := 1.
Definition h2FrameSettings : Z := 4.
Definition h2FrameContinuation : Z := 9.
Definition h2FlagAck : Z := 1.
Definition h2FlagEndHeaders : Z := 4.
Definition h2FlagPadded : Z := 8.
Definition h2FlagPriority : Z := 32.
Definition h2DefaultMaxFrameSize : Z := Z.shiftl 1 14.

(** ** Parts of a request *)

(** [s[lo:hi]] on a string. *)
Definition string_slice (s : string) (lo hi : Z) : outcome string :=
  bs ← slice (string_bytes s) lo hi; Ret (bytes_string bs).

Definition isHTTPMethod (method : list Z) : bool := existsb (bytes_EqualFold method) httpMethods.

Definition isHTTPMethodPrefix (prefix : list Z) : bool :=
  existsb (λ method, (length prefix <=? length method)%nat &&
    bytes_EqualFold prefix (take (length prefix) method)) httpMethods.

(** The authority of a request target in absolute form. *)
Definition uri_authority (uri : list Z) : list Z :=
  let uri := match bytes_Cut uri (string_bytes "://") with Some (_, afterScheme) => afterScheme | None => uri end in
  let uri := before_any uri (string_bytes "/?#") in
  match bytes_Cut uri (string_bytes "@") with Some (_, afterAt) => afterAt | None => uri end.

(** The target of a request line. *)
Definition request_uri (req : list Z) : option (list Z) :=
  match bytes_Cut req SP with
  | None => None
  | Some (_, rest) =>
    match bytes_Cut rest SP with
    | None | Some ([], _) => None
    | Some (uri, _) => Some uri
    end
  end.

(** The callback of the decoder, on the variables [authority] and [host]. *)
Definition on_field (vars : string * string) (f : string * string) : string * string :=
  if bool_decide (f.1 = ":authority") then (f.2, vars.2)
  else if bool_decide (f.1 = "host") then (vars.1, f.2)
  else vars.

(** [fragmentStart] and [fragmentEnd]. *)
Definition fragment_bounds (b : list Z) (payloadOffset length frameType flags : Z) : outcome (step (Z * Z)) :=
  if negb (frameType =? h2FrameHeaders) then Ret (Go (0, length))
  else
    r ← (if negb (Z.land flags h2FlagPadded =? 0) then
           if length =? 0 then Ret (Stop ErrNoClue)
           else if len b =? 0 then Ret (Stop (Need (payloadOffset + 1)))
           else
             padLen ← idx b 0;
             Ret (if length <=? padLen then Stop ErrNoClue else Go (1, length - padLen))
         else Ret (Go (0, length)));
    Ret match r with
        | Stop v => Stop v
        | Go (fragmentStart, fragmentEnd) =>
          if negb (Z.land flags h2FlagPriority =? 0) then
            if fragmentEnd - fragmentStart <? 5 then Stop ErrNoClue else Go (fragmentStart + 5, fragmentEnd)
          else Go (fragmentStart, fragmentEnd)
        end.

Section sniffer.

Variable ParseAddr : string → option Addr.

Definition parseHost (hs : string) : outcome verdict :=
  if bool_decide (hs = "") then Ret ErrNoClue
  else
    let hs := match SplitHostPort hs with Some host => host | None => hs end in
    hs ← (if HasPrefix hs "[" && HasSuffix hs "]"
          then string_slice hs 1 (Z.of_nat (String.length hs) - 1) else Ret hs);
    let hs := ToLower (TrimRight hs ".") in
    if bool_decide (hs = "") then Ret ErrNoClue
    else
      match ParseAddr hs with
      | Some _ => Ret errHostIsIP
      | None => Ret (Found hs)
      end.

(** The loop of [parseHeaderHostH1]; [total] is [len(b)]. *)
Fixpoint header_loop (fuel : nat) (total : Z) (rest : list Z) : outcome verdict :=
  match fuel with
  | O => OutOfFuel
  | S fuel =>
    match bytes_Cut rest CRLF with
    | None => Ret (Need (total + 1))
    | Some ([], _) => Ret ErrNoClue
    | Some (line, tail) =>
      match bytes_Cut line [58] with
      | Some (key, val) =>
        if negb (bytes_EqualFold key (string_bytes "host")) then header_loop fuel total tail
        else parseHost (TrimSpace (bytes_string val))
      | None => header_loop fuel total tail
      end
    end
  end.

(** A line takes two bytes at least, so the length is enough fuel. *)
Definition parseHeaderHostH1 (b : list Z) : outcome verdict := header_loop (S (length b)) (len b) b.

Definition sniffHTTP1 (b : list Z) : outcome verdict :=
  match bytes_Cut b SP with
  | None => Ret (if isHTTPMethodPrefix b then Need (len b + 1) else errNotHTTP)
  | Some (method, _) =>
    if negb (isHTTPMethod method) then Ret errNotHTTP
    else
      match bytes_Cut b CRLF with
      | None => Ret (Need (len b + 1))
      | Some (req, _) =>
        if len req <? 14 then Ret ErrNoClue
        else
          match request_uri req with
          | None => Ret ErrNoClue
          | Some uri =>
            c ← idx uri 0;
            if (c =? 47) || (c =? 42) then parseHeaderHostH1 b
            else
              v ← parseHost (bytes_string (uri_authority uri));
              match v with
              | Found h => Ret (Found h)
              | _ => parseHeaderHostH1 b
              end
          end
      end
  end.

(** The HPACK decoder: the fields that a write completes, in order, whether it failed,
    and the decoder afterwards. *)
Variable Decoder : Type.
Variable NewDecoder : Decoder.
Variable decoder_Write : Decoder → list Z → list (string * string) * bool * Decoder.

(** The checks of a frame header: must the connection be rejected? *)
Definition bad_frame (payloadOffset length frameType flags streamID headerStreamID : Z) : bool :=
  let ack := negb (Z.land flags h2FlagAck =? 0) in
  (payloadOffset =? len h2ClientPreface + h2FrameHeaderLen) && (negb (frameType =? h2FrameSettings) || ack) ||
  (h2DefaultMaxFrameSize <? length) ||
  (frameType =? h2FrameSettings) &&
    (negb (streamID =? 0) || ack && negb (length =? 0) || negb ack && negb (length mod 6 =? 0)) ||
  (if headerStreamID =? 0 then
     (frameType =? h2FrameContinuation) || (frameType =? h2FrameHeaders) && (streamID =? 0)
   else negb (frameType =? h2FrameContinuation) || negb (streamID =? headerStreamID)).

(** The variables of the loop over the frames. *)
Record h2state := mkH2 { h2_vars : string * string; headerStreamID : Z; decoder : Decoder }.

(** The header block fragment of a frame: a verdict, or the state afterwards.  [b] is
    what there is of the payload and what follows. *)
Definition h2_fragment (total payloadOffset length flags : Z) (b : list Z) (fs fe : Z) (st : h2state) :
    outcome (step h2state) :=
  let availableEnd := if fe <? len b then fe else len b in
  r ← (if fs <? availableEnd then
         frag ← slice b fs availableEnd;
         let '(fields, err, d) := decoder_Write (decoder st) frag in
         let vars := foldl on_field (h2_vars st) fields in
         if negb (bool_decide (vars.1 = "")) then v ← parseHost vars.1; Ret (Stop v)
         else if negb (bool_decide (vars.2 = "")) then v ← parseHost vars.2; Ret (Stop v)
         else if (err : bool) then Ret (Stop ErrNoClue)
         else Ret (Go (mkH2 vars (headerStreamID st) d))
       else Ret (Go st));
  Ret match r with
      | Stop v => Stop v
      | Go st =>
        if negb (Z.land flags h2FlagEndHeaders =? 0) && ((fs =? fe) || (availableEnd =? fe)) then Stop ErrNoClue
        else if len b <? length then
          Stop (Need (if availableEnd <? fe then
                        if len b <? fs then payloadOffset + fs + 1 else total + 1
                      else payloadOffset + length))
        else Go st
      end.

(** One frame: a verdict, or what follows it and the state. *)
Definition h2_frame (total : Z) (b : list Z) (st : h2state) : outcome (step (list Z * h2state)) :=
  if len b <? h2FrameHeaderLen then Ret (Stop (Need (total - len b + h2FrameHeaderLen)))
  else
    b0 ← idx b 0; b1 ← idx b 1; b2 ← idx b 2; frameType ← idx b 3; flags ← idx b 4; sid ← slice b 5 9;
    let length := Z.lor (Z.lor (Z.shiftl b0 16) (Z.shiftl b1 8)) b2 in
    let streamID := Z.land (unbe sid) 0x7fffffff in
    b ← slice b h2FrameHeaderLen (len b);
    let payloadOffset := total - len b in
    if bad_frame payloadOffset length frameType flags streamID (headerStreamID st) then Ret (Stop ErrNoClue)
    else if (headerStreamID st =? 0) && negb (frameType =? h2FrameHeaders) then
      if len b <? length then Ret (Stop (Need (payloadOffset + length)))
      else b ← slice b length (len b); Ret (Go (b, st))
    else
      let st := if headerStreamID st =? 0 then mkH2 (h2_vars st) streamID (decoder st) else st in
      r ← fragment_bounds b payloadOffset length frameType flags;
      match r with
      | Stop v => Ret (Stop v)
      | Go (fs, fe) =>
        r ← h2_fragment total payloadOffset length flags b fs fe st;
        match r with
        | Stop v => Ret (Stop v)
        | Go st => b ← slice b length (len b); Ret (Go (b, st))
        end
      end.

Fixpoint h2_loop (fuel : nat) (total : Z) (b : list Z) (st : h2state) : outcome verdict :=
  match fuel with
  | O => OutOfFuel
  | S fuel =>
    r ← h2_frame total b st;
    match r with
    | Stop v => Ret v
    | Go (b, st) => h2_loop fuel total b st
    end
  end.

(** Every frame has a header, so the length is enough fuel. *)
Definition sniffHTTP2 (b : list Z) : outcome verdict :=
  b' ← slice b (len h2ClientPreface) (len b);
  h2_loop (S (length b)) (len b) b' (mkH2 ("", "") 0 NewDecoder).

Definition SniffHTTP (b : list Z) : outcome verdict :=
  if len b <? len h2ClientPreface then
    if bytes_HasPrefix h2ClientPreface b then Ret (Need (len b + 1)) else sniffHTTP1 b
  else if bytes_HasPrefix b h2ClientPreface then sniffHTTP2 b
  else sniffHTTP1 b.

End sniffer.
Arguments mkH2 {Decoder}.
Arguments h2_vars {Decoder}.
Arguments headerStreamID {Decoder}.
Arguments decoder {Decoder}.

(** ** What the theorems say of bytes and requests *)

Definition asks (total : Z) (v : verdict) : Prop := ∀ n, v = Need n → total < n.

(** What a piece of a frame gives, when it does not give a verdict. *)
Definition gives {A} (total : Z) (m : outcome (step A)) (Q : A → Prop) : Prop :=
  ∃ r, m = Ret r ∧ match r with Stop v => asks total v | Go x => Q x end.

Definition ascii_bytes (b : list Z) : Prop := Forall (λ x, 0 ≤ x < 128) b.

(** A field that is not the host. *)
Definition other_field (line : list Z) : Prop :=
  line ≠ [] ∧ (13 ∉ line) ∧
  match bytes_Cut line [58] with
  | Some (key, _) => bytes_EqualFold key (string_bytes "host") = false
  | None => True
  end.

Definition lines (ls : list (list Z)) : list Z := mjoin ((λ l, l ++ CRLF) <$> ls).

Definition with_port (name : string) (port : option string) : string :=
  match port with Some p => name +:+ ":" +:+ p | None => name end.

Definition port_ok (p : string) : Prop := has_byte ":" p = false ∧ has_byte "[" p = false ∧ has_byte "]" p = false.

(** ** Lemmas on bytes *)

Lemma bytes_HasPrefix_iff b p : bytes_HasPrefix b p = true ↔ ∃ r, b = p ++ r.
Proof.
  revert b. induction p as [|x p IH]; intros b; simpl; [split; [by exists b|by intros _]|].
  destruct b as [|y b]; [split; [done|by intros [r ?]]|]. rewrite andb_true_iff, Z.eqb_eq, IH.
  split; [intros [-> [r ->]]; by exists r|intros [r [= -> ->]]; eauto].
Qed.

Lemma bytes_HasPrefix_drop b p : bytes_HasPrefix b p = true → b = p ++ drop (length p) b.
Proof. intros [r ->]%bytes_HasPrefix_iff. by rewrite drop_app_length. Qed.

Lemma bytes_Cut_Some b sep x y : bytes_Cut b sep = Some (x, y) → b = x ++ sep ++ y.
Proof.
  revert x y. induction b as [|c b IH]; intros x y; cbn [bytes_Cut]; destruct (bytes_HasPrefix _ sep) eqn:Hp.
  1,3: apply bytes_HasPrefix_drop in Hp; intros [= <- <-]; exact Hp.
  - done.
  - destruct (bytes_Cut b sep) as [[x' y']|]; [|done]. intros [= <- <-]. by rewrite (IH x' y').
Qed.

(** A separator that was found is found again when more bytes follow. *)
Lemma bytes_Cut_more b sep x y more :
  bytes_Cut b sep = Some (x, y) → bytes_Cut (b ++ more) sep = Some (x, y ++ more).
Proof.
  revert x y. induction b as [|c b IH]; intros x y Hc.
  - simpl in Hc. destruct (bytes_HasPrefix [] sep) eqn:Hp; [|done]. injection Hc as <- <-.
    apply bytes_HasPrefix_iff in Hp as [r Hr]. symmetry in Hr. apply app_eq_nil in Hr as [-> ->].
    by destruct more.
  - pose proof (bytes_Cut_Some _ _ _ _ Hc) as Hb. cbn [bytes_Cut app] in *.
    destruct (bytes_HasPrefix (c :: b) sep) eqn:Hp.
    + apply bytes_HasPrefix_iff in Hp as [r Hr]. injection Hc as <- <-.
      rewrite (proj2 (bytes_HasPrefix_iff (c :: b ++ more) sep)); [|exists (r ++ more)].
      * f_equal. f_equal. rewrite <- (drop_app_le (c :: b)); [done|]. rewrite Hr, length_app. lia.
      * change (c :: b ++ more) with ((c :: b) ++ more). by rewrite Hr, <- app_assoc.
    + destruct (bytes_HasPrefix (c :: b ++ more) sep) eqn:Hp'.
      * exfalso. apply bytes_HasPrefix_iff in Hp' as [r Hr]. apply not_true_iff_false in Hp. apply Hp.
        apply bytes_HasPrefix_iff. exists (drop (length sep) (c :: b)).
        assert (length sep ≤ length (c :: b))%nat by (rewrite Hb, !length_app; lia).
        rewrite <- (take_drop (length sep) (c :: b)) at 1. f_equal.
        change (c :: b ++ more) with ((c :: b) ++ more) in Hr.
        apply (f_equal (take (length sep))) in Hr. by rewrite take_app_le, take_app_length in Hr.
      * destruct (bytes_Cut b sep) as [[x' y']|]; [|done]. injection Hc as <- <-. by rewrite (IH x' y').
Qed.

(** The first separator is found. *)
Lemma bytes_Cut_first x c sep y :
  c ∉ x → bytes_Cut (x ++ (c :: sep) ++ y) (c :: sep) = Some (x, y).
Proof.
  induction x as [|d x IH]; intros Hn.
  - simpl. rewrite Z.eqb_refl, (proj2 (bytes_HasPrefix_iff _ _)); [|by exists y]. by rewrite drop_app_length.
  - specialize (IH ltac:(set_solver)). cbn [app bytes_Cut bytes_HasPrefix] in *.
    rewrite (proj2 (Z.eqb_neq d c)) by set_solver. cbn [andb]. by rewrite IH.
Qed.

Lemma bytes_Cut_None x c sep : c ∉ x → bytes_Cut x (c :: sep) = None.
Proof.
  induction x as [|d x IH]; intros Hn; [done|]. cbn [bytes_Cut bytes_HasPrefix].
  rewrite (proj2 (Z.eqb_neq d c)) by set_solver. cbn [andb]. by rewrite IH by set_solver.
Qed.

Lemma brackets_length s : HasPrefix s "[" = true → HasSuffix s "]" = true → (2 ≤ String.length s)%nat.
Proof.
  destruct s as [|a [|b s]]; [done| |simpl; lia]. by destruct a as [[] [] [] [] [] [] [] []].
Qed.

Lemma length_string_bytes s : length (string_bytes s) = String.length s.
Proof. unfold string_bytes. induction s as [|a s IH]; simpl; [done|]. by f_equal. Qed.

Lemma frame_length_nonneg b0 b1 b2 :
  is_byte b0 → is_byte b1 → is_byte b2 → 0 ≤ Z.lor (Z.lor (Z.shiftl b0 16) (Z.shiftl b1 8)) b2.
Proof.
  unfold is_byte. intros H0 H1 H2. apply Z.lor_nonneg. split; [|lia]. apply Z.lor_nonneg.
  split; apply Z.shiftl_nonneg; lia.
Qed.

Lemma bytes_Cut_byte b c : bytes_Cut b [c] = None → c ∉ b.
Proof.
  induction b as [|x b IH]; cbn [bytes_Cut bytes_HasPrefix]; [set_solver|]. rewrite andb_true_r.
  destruct (Z.eqb_spec x c); [done|]. destruct (bytes_Cut b [c]) as [[? ?]|]; [done|]. set_solver.
Qed.

(** A byte that is not in a prefix is after the prefix. *)
Lemma app_split_notin (b more x y : list Z) c :
  c ∉ b → b ++ more = x ++ c :: y → ∃ z, x = b ++ z.
Proof.
  revert x. induction b as [|d b IH]; intros x Hn He; [by exists x|].
  destruct x as [|e x]; simplify_eq/=; [set_solver|].
  destruct (IH x) as [z ->]; [set_solver|done|]. by exists z.
Qed.

Lemma EqualFold_prefix b m t :
  ascii_bytes b → bytes_EqualFold (b ++ m) t = true →
  (length b ≤ length t)%nat ∧ bytes_EqualFold b (take (length b) t) = true.
Proof.
  intros Hb. revert t. induction Hb as [|x b Hx _ IH]; intros t; [simpl; split; [lia|done]|].
  destruct t as [|c t]; [done|]. cbn [app bytes_EqualFold length take].
  destruct (_ =? _); [intros [? ->]%IH; split; [lia|done]|].
  destruct (decide (x = 197)); [lia|]. destruct (decide (x = 226)); [lia|].
  destruct x as [|x|x]; [done| |lia]. do 8 (destruct x as [x|x|]; try done; try lia).
Qed.

Lemma method_prefix b m :
  ascii_bytes b → isHTTPMethod (b ++ m) = true ∨ isHTTPMethodPrefix (b ++ m) = true →
  isHTTPMethodPrefix b = true.
Proof.
  intros Hb H. apply existsb_exists. destruct H as [H|H]; apply existsb_exists in H as (t & Ht & H);
    exists t; (split; [done|]).
  - apply EqualFold_prefix in H as [Hl He]; [|done]. rewrite He. rewrite (proj2 (Nat.leb_le _ _) Hl). done.
  - apply andb_true_iff in H as [Hl He]. apply Nat.leb_le in Hl. rewrite length_app in Hl.
    apply EqualFold_prefix in He as [_ He]; [|done].
    rewrite take_take, Nat.min_l in He by (rewrite length_app; lia). rewrite He.
    by rewrite (proj2 (Nat.leb_le _ _)) by lia.
Qed.

Lemma has_byte_app a s t : has_byte a (s +:+ t) = has_byte a s || has_byte a t.
Proof. induction s as [|b s IH]; simpl; [done|]. by rewrite IH, orb_assoc. Qed.

Lemma LastIndexByte_none s c : has_byte c s = false → LastIndexByte s c = None.
Proof.
  induction s as [|a s IH]; simpl; [done|]. intros [Ha Hs]%orb_false_iff. rewrite IH by done. by rewrite Ha.
Qed.

Lemma LastIndexByte_app s c t :
  has_byte c t = false → LastIndexByte (s +:+ String c t) c = Some (String.length s).
Proof.
  intros Ht. induction s as [|a s IH]; simpl; [by rewrite LastIndexByte_none, Ascii.eqb_refl|]. by rewrite IH.
Qed.

Lemma substring_app s t : String.substring 0 (String.length s) (s +:+ t) = s.
Proof. induction s as [|a s IH]; simpl; [by destruct t|]. by f_equal. Qed.

Lemma HasPrefix_byte s c : has_byte c s = false → HasPrefix s (String c "") = false.
Proof.
  destruct s as [|a s]; [done|]. cbn [has_byte]. intros [Ha _]%orb_false_iff.
  unfold HasPrefix. cbn [String.prefix]. destruct (Ascii.ascii_dec c a) as [<-|]; [|done].
  by rewrite Ascii.eqb_refl in Ha.
Qed.

(** Only letters fold to letters. *)
Lemma EqualFold_letters s t :
  bytes_EqualFold s t = true → Forall (λ c, 97 ≤ fold_byte c ≤ 122) t → Forall (λ x, x = 32 ∨ x = 58 ∨ x = 13 → False) s.
Proof.
  intros He Ht. revert s He. induction Ht as [|c t Hc _ IH]; intros s; cbn [bytes_EqualFold]; [by destruct s|].
  destruct s as [|x s]; [done|]. destruct (Z.eqb_spec (fold_byte x) (fold_byte c)) as [Hx|].
  { intros He. constructor; [|by apply IH]. rewrite <- Hx in Hc. intros [-> |[-> | ->]]; vm_compute in Hc; destruct Hc; congruence. }
  destruct (decide (x = 197)) as [->|]; [|destruct (decide (x = 226)) as [->|]].
  - destruct s as [|y s]; [done|]. destruct (decide (y = 191)) as [->|Hy].
    + intros [_ He]%andb_true_iff. repeat constructor; [lia..|by apply IH].
    + destruct y as [|y|y]; try done. do 8 (destruct y as [y|y|]; try done).
  - destruct s as [|y s]; [done|]. destruct (decide (y = 132)) as [->|Hy].
    + destruct s as [|z s]; [done|]. destruct (decide (z = 170)) as [->|Hz].
      * intros [_ He]%andb_true_iff. repeat constructor; [lia..|by apply IH].
      * destruct z as [|z|z]; try done. do 8 (destruct z as [z|z|]; try done).
    + destruct y as [|y|y]; try done. do 8 (destruct y as [y|y|]; try done).
  - destruct x as [|x|x]; try done. do 8 (destruct x as [x|x|]; try done).
Qed.

Lemma method_letters method : isHTTPMethod method = true → Forall (λ x, x = 32 ∨ x = 58 ∨ x = 13 → False) method.
Proof.
  intros (t & Ht & He)%existsb_exists. eapply EqualFold_letters; [exact He|].
  assert (Forall (Forall (λ c, 97 ≤ fold_byte c ≤ 122)) httpMethods) as Hall
    by (repeat constructor; by vm_compute).
  rewrite Forall_forall in Hall. apply Hall. by apply list_elem_of_In.
Qed.

(** The request line is not a Host field. *)
Lemma request_line_other method rest :
  isHTTPMethod method = true → 13 ∉ rest → other_field (method ++ SP ++ rest).
Proof.
  intros Hm Hr. apply method_letters in Hm. rewrite Forall_forall in Hm.
  split; [by destruct method|]. split.
  { unfold SP. intros [H|[H|H]%elem_of_app]%elem_of_app; [by apply (Hm 13); auto| |done].
    by apply list_elem_of_singleton in H. }
  destruct (bytes_Cut _ [58]) as [[key val]|] eqn:Hc; [|done]. apply bytes_Cut_Some in Hc.
  apply not_true_iff_false. intros He. destruct (app_split_notin _ _ _ _ _ ltac:(intros H; by apply (Hm 58); auto) Hc) as [z ->].
  rewrite <- app_assoc in Hc. apply app_inv_head in Hc. destruct z as [|x z]; [done|]. injection Hc as <- _.
  apply EqualFold_letters in He; [|repeat constructor; by vm_compute].
  rewrite Forall_app, Forall_cons in He. destruct He as (_ & H & _). by apply H; left.
Qed.

Lemma length_lines ls : (length ls ≤ length (lines ls))%nat.
Proof.
  induction ls as [|l ls IH]; [done|]. change (lines (l :: ls)) with ((l ++ CRLF) ++ lines ls).
  rewrite !length_app. cbn [length CRLF]. lia.
Qed.

(** ** The sniffer returns, and asks only for what it has not seen *)

Section proofs.
Variable ParseAddr : string → option Addr.
Variable Decoder : Type.
Variable NewDecoder : Decoder.
Variable decoder_Write : Decoder → list Z → list (string * string) * bool * Decoder.

Abbreviation parseHost := (parseHost ParseAddr).
Abbreviation header_loop := (header_loop ParseAddr).
Abbreviation parseHeaderHostH1 := (parseHeaderHostH1 ParseAddr).
Abbreviation sniffHTTP1 := (sniffHTTP1 ParseAddr).
Abbreviation h2state := (h2state Decoder).
Abbreviation h2_fragment := (h2_fragment ParseAddr Decoder decoder_Write).
Abbreviation h2_frame := (h2_frame ParseAddr Decoder decoder_Write).
Abbreviation h2_loop := (h2_loop ParseAddr Decoder decoder_Write).
Abbreviation SniffHTTP := (SniffHTTP ParseAddr Decoder NewDecoder decoder_Write).

Lemma parseHost_total hs : ∃ v, parseHost hs = Ret v ∧ ∀ n, v ≠ Need n.
Proof using Type.
  unfold parseHost. case_bool_decide; [by eexists|].
  set (h := match SplitHostPort hs with Some _ => _ | None => _ end). clearbody h.
  assert (∃ h', (if HasPrefix h "[" && HasSuffix h "]"
    then string_slice h 1 (Z.of_nat (String.length h) - 1) else Ret h) = Ret h') as [h' ->].
  { destruct (HasPrefix h "[") eqn:Hp, (HasSuffix h "]") eqn:Hs; cbn [andb]; try by eexists.
    pose proof (brackets_length h Hp Hs). unfold string_slice.
    rewrite slice_Ret by (rewrite ?length_string_bytes; lia). by eexists. }
  run. case_bool_decide; [by eexists|]. destruct (ParseAddr _); by eexists.
Qed.

Lemma header_loop_total fuel total rest :
  (length rest < fuel)%nat → ∃ v, header_loop fuel total rest = Ret v ∧ asks total v.
Proof using Type.
  revert rest. induction fuel as [|fuel IH]; intros rest Hf; [lia|]. cbn [header_loop].
  destruct (bytes_Cut rest CRLF) as [[line tail]|] eqn:Hc; [|eexists; split; [done|intros n [= <-]; lia]].
  apply bytes_Cut_Some in Hc as ->. rewrite !length_app in Hf. cbn [length CRLF] in Hf.
  destruct line as [|x line]; [by eexists|].
  destruct (bytes_Cut (x :: line) [58]) as [[key val]|]; [|apply IH; lia].
  destruct (negb _); [apply IH; lia|].
  destruct (parseHost_total (TrimSpace (bytes_string val))) as (v & Hv & Hn). exists v. split; [done|].
  intros n ->. by destruct (Hn n).
Qed.

Lemma sniffHTTP1_total b : ∃ v, sniffHTTP1 b = Ret v ∧ asks (len b) v.
Proof using Type.
  assert (∃ v, parseHeaderHostH1 b = Ret v ∧ asks (len b) v) as Hh by (apply header_loop_total; lia).
  unfold sniffHTTP1. destruct (bytes_Cut b SP) as [[method ?]|].
  2: { eexists. split; [done|]. intros n. destruct (isHTTPMethodPrefix b); [intros [= <-]; lia|done]. }
  destruct (negb _); [by eexists|].
  destruct (bytes_Cut b CRLF) as [[req ?]|]; [|eexists; split; [done|intros n [= <-]; lia]].
  destruct (len req <? 14); [by eexists|]. unfold request_uri.
  destruct (bytes_Cut req SP) as [[? rest]|]; [|by eexists].
  destruct (bytes_Cut rest SP) as [[[|c uri] ?]|]; [by eexists| |by eexists].
  rewrite (idx_lookup (c :: uri) 0 c) by done. run. destruct (_ || _); [done|].
  destruct (parseHost_total (bytes_string (uri_authority (c :: uri)))) as (v & -> & Hn). run.
  destruct v as [h|n|e]; [by eexists|done|done].
Qed.

Lemma fragment_bounds_gives b payloadOffset length frameType flags :
  Forall is_byte b → 0 ≤ length →
  gives (payloadOffset + len b) (fragment_bounds b payloadOffset length frameType flags)
    (λ '(fs, fe), 0 ≤ fs ≤ fe ∧ fe ≤ length).
Proof using Type.
  intros Hb Hl. unfold fragment_bounds, gives.
  destruct (negb (frameType =? _)); [eexists; split; [done|simpl; lia]|].
  assert (gives (payloadOffset + len b)
    (if negb (Z.land flags h2FlagPadded =? 0) then
       if length =? 0 then Ret (Stop ErrNoClue)
       else if len b =? 0 then Ret (Stop (Need (payloadOffset + 1)))
       else padLen ← idx b 0; Ret (if length <=? padLen then Stop ErrNoClue else Go (1, length - padLen))
     else Ret (Go (0, length))) (λ '(fs, fe), 0 ≤ fs ≤ fe ∧ fe ≤ length)) as (r & -> & Hr).
  { destruct (negb _); [|eexists; split; [done|simpl; lia]].
    destruct (Z.eqb_spec length 0); [by eexists|].
    destruct (Z.eqb_spec (len b) 0); [eexists; split; [done|intros n' [= <-]; lia]|].
    destruct (idx_total b 0) as (pad & -> & Hpad); [lia|]. run.
    assert (is_byte pad) as Hp by (by eapply Forall_lookup_1). unfold is_byte in Hp.
    eexists. split; [done|]. destruct (Z.leb_spec length pad); [done|lia]. }
  run. eexists. split; [done|]. destruct r as [[fs fe]|v]; [|done].
  destruct (negb _); [|done]. destruct (Z.ltb_spec (fe - fs) 5); [done|lia].
Qed.

Lemma h2_fragment_gives total payloadOffset length flags b fs fe st :
  payloadOffset + len b = total → 0 ≤ fs ≤ fe → fe ≤ length →
  gives total (h2_fragment total payloadOffset length flags b fs fe st) (λ _, length ≤ len b).
Proof using Type.
  intros Ht Hfs Hfe. unfold h2_fragment, gives.
  set (avail := if fe <? len b then fe else len b).
  assert (avail ≤ fe ∧ avail ≤ len b) as [Ha1 Ha2] by (unfold avail; destruct (Z.ltb_spec fe (len b)); lia).
  assert (∀ h, gives total (v ← parseHost h; Ret (Stop (A := h2state) v)) (λ _, True)) as Hparse.
  { intros h. destruct (parseHost_total h) as (v & -> & Hn). eexists. split; [done|]. intros n ->. by destruct (Hn n). }
  match goal with |- ∃ r, mbind _ ?m = _ ∧ _ => assert (gives total m (λ _, True)) as (r & -> & Hr) end.
  { destruct (Z.ltb_spec fs avail); [|by eexists]. rewrite slice_Ret by lia. run.
    destruct (decoder_Write _ _) as [[fields err] d].
    set (vars := foldl _ _ _). clearbody vars.
    destruct (negb _); [apply Hparse|]. destruct (negb _); [apply Hparse|]. destruct err; by eexists. }
  run. eexists. split; [done|]. destruct r as [st'|v]; [|done].
  destruct (_ && _); [done|]. destruct (Z.ltb_spec (len b) length); [|done].
  intros n [= <-]. destruct (Z.ltb_spec avail fe); [destruct (Z.ltb_spec (len b) fs); lia|lia].
Qed.

Lemma h2_frame_gives total b st :
  Forall is_byte b → len b ≤ total →
  gives total (h2_frame total b st) (λ '(b', _), Forall is_byte b' ∧ len b' < len b).
Proof using Type.
  intros Hb Ht. unfold h2_frame, gives.
  destruct (Z.ltb_spec (len b) h2FrameHeaderLen) as [|Hlen]; unfold h2FrameHeaderLen in *;
    [eexists; split; [done|intros n [= <-]; lia]|].
  destruct (idx_total b 0) as (b0 & -> & H0); [lia|]. destruct (idx_total b 1) as (b1 & -> & H1); [lia|].
  destruct (idx_total b 2) as (b2 & -> & H2); [lia|]. destruct (idx_total b 3) as (ty & -> & _); [lia|].
  destruct (idx_total b 4) as (fl & -> & _); [lia|]. run. rewrite !slice_Ret by lia. run.
  assert (0 ≤ Z.lor (Z.lor (Z.shiftl b0 16) (Z.shiftl b1 8)) b2) as Hn
    by (apply frame_length_nonneg; by eapply Forall_lookup_1).
  set (n := Z.lor _ b2) in *. clearbody n. set (sid := Z.land _ _). clearbody sid.
  rewrite take_ge by (rewrite length_drop; lia). set (p := drop (Z.to_nat 9) b).
  assert (len p = len b - 9) as Hp by (unfold p; rewrite length_drop; lia).
  assert (Forall is_byte p) as Hpb by (by apply Forall_drop). clearbody p.
  assert (n ≤ len p → ∀ st' : h2state, gives total (b ← slice p n (len p); Ret (Go (b, st')))
    (λ '(b', _), Forall is_byte b' ∧ len b' < len b)) as Hgo.
  { intros Hle st'. rewrite slice_Ret by lia. eexists. split; [done|].
    split; [by apply Forall_take, Forall_drop|]. rewrite length_take, length_drop. lia. }
  destruct (bad_frame _ _ _ _ _ _); [by eexists|].
  destruct (_ && negb (ty =? h2FrameHeaders)).
  { destruct (Z.ltb_spec (len p) n); [eexists; split; [done|intros k [= <-]; lia]|by apply Hgo]. }
  destruct (fragment_bounds_gives p (total - len p) n ty fl) as (r & -> & Hr); [done|lia|]. run.
  destruct r as [[fs fe]|v]; [|eexists; split; [done|by replace (total - len p + len p) with total in Hr by lia]].
  destruct (h2_fragment_gives total (total - len p) n fl p fs fe
    (if headerStreamID st =? 0 then mkH2 (h2_vars st) sid (decoder st) else st)) as (r & -> & Hr'); [lia..|]. run.
  destruct r as [st'|v]; [by apply Hgo|by eexists].
Qed.

Lemma h2_loop_total fuel total b st :
  Forall is_byte b → len b ≤ total → (length b < fuel)%nat →
  ∃ v, h2_loop fuel total b st = Ret v ∧ asks total v.
Proof using Type.
  revert b st. induction fuel as [|fuel IH]; intros b st Hb Ht Hf; [lia|]. cbn [h2_loop].
  destruct (h2_frame_gives total b st Hb Ht) as (r & -> & Hr). run.
  destruct r as [[b' st']|v]; [|by exists v]. destruct Hr as [Hb' Hlt]. apply IH; [done|lia|lia].
Qed.

(** What the dispatcher relies on. *)
Lemma SniffHTTP_returns b : Forall is_byte b → ∃ v, SniffHTTP b = Ret v ∧ asks (len b) v.
Proof using Type.
  intros Hb. unfold SniffHTTP. destruct (Z.ltb_spec (len b) (len h2ClientPreface)).
  { destruct (bytes_HasPrefix _ _); [eexists; split; [done|intros n [= <-]; lia]|apply sniffHTTP1_total]. }
  destruct (bytes_HasPrefix _ _); [|apply sniffHTTP1_total]. unfold sniffHTTP2.
  rewrite slice_Ret by lia. run. apply h2_loop_total.
  - by apply Forall_take, Forall_drop.
  - rewrite length_take, length_drop. lia.
  - rewrite length_take, length_drop. lia.
Qed.

(** C27: the HTTP sniffer returns a verdict on every input, without an access out of
    range and whatever the decoder of header blocks does, and when it asks for more
    it asks for more than it was given. *)
Theorem http_sniff_safe b :
  Forall is_byte b → ∃ v, SniffHTTP b = Ret v ∧ ∀ n, v = Need n → len b < n.
Proof using Type. apply SniffHTTP_returns. Qed.

Lemma header_loop_stable fuel fuel' total total' rest more v :
  header_loop fuel total rest = Ret v → (∀ n, v ≠ Need n) → (fuel ≤ fuel')%nat →
  header_loop fuel' total' (rest ++ more) = Ret v.
Proof using Type.
  revert fuel' rest. induction fuel as [|fuel IH]; intros [|fuel'] rest H Hn Hf; try done; [lia|].
  cbn [header_loop] in *. destruct (bytes_Cut rest CRLF) as [[line tail]|] eqn:Hc.
  2: { injection H as <-. by destruct (Hn (total + 1)). }
  rewrite (bytes_Cut_more _ _ _ _ more Hc). destruct line as [|x line]; [done|].
  destruct (bytes_Cut (x :: line) [58]) as [[key val]|]; [|apply IH; [done|done|lia]].
  destruct (negb _); [apply IH; [done|done|lia]|done].
Qed.

Lemma parseHeader_stable b more v :
  parseHeaderHostH1 b = Ret v → (∀ n, v ≠ Need n) → parseHeaderHostH1 (b ++ more) = Ret v.
Proof using Type. intros H Hn. eapply header_loop_stable; [exact H|done|]. rewrite length_app. lia. Qed.

Lemma sniffHTTP1_stable b more v :
  ascii_bytes b → sniffHTTP1 b = Ret v → (∀ n, v ≠ Need n) → sniffHTTP1 (b ++ more) = Ret v.
Proof using Type.
  unfold sniffHTTP1. intros Hb H Hn. destruct (bytes_Cut b SP) as [[method y]|] eqn:Hm.
  - rewrite (bytes_Cut_more _ _ _ _ more Hm). destruct (negb _); [done|].
    destruct (bytes_Cut b CRLF) as [[req z]|] eqn:Hr; [|injection H as <-; by destruct (Hn (len b + 1))].
    rewrite (bytes_Cut_more _ _ _ _ more Hr). destruct (len req <? 14); [done|].
    destruct (request_uri req) as [uri|]; [|done]. destruct (idx uri 0) as [c| |]; [|done..]. run. revert H. run.
    destruct (_ || _); [intros H; by apply parseHeader_stable|].
    destruct (parseHost _) as [[]| |]; run; try done; intros H; by apply parseHeader_stable.
  - apply bytes_Cut_byte in Hm. destruct (isHTTPMethodPrefix b) eqn:Hp.
    { injection H as <-. by destruct (Hn (len b + 1)). }
    destruct (bytes_Cut (b ++ more) SP) as [[method y]|] eqn:Hm'.
    + apply bytes_Cut_Some in Hm'. destruct (app_split_notin _ _ _ _ _ Hm Hm') as [z ->].
      destruct (isHTTPMethod (b ++ z)) eqn:Hz; [|done].
      rewrite (method_prefix b z) in Hp; [done|done|by left].
    + destruct (isHTTPMethodPrefix (b ++ more)) eqn:Hz; [|done].
      rewrite (method_prefix b more) in Hp; [done|done|by right].
Qed.

(** A verdict of the HTTP sniffer on ASCII bytes that do not start with the HTTP/2
    preface does not change when more bytes arrive. *)
Theorem http_sniff_stable b more v :
  ascii_bytes b → bytes_HasPrefix b h2ClientPreface = false →
  SniffHTTP b = Ret v → (∀ n, v ≠ Need n) → SniffHTTP (b ++ more) = Ret v.
Proof using Type.
  intros Hb Hpre H Hn.
  assert (bytes_HasPrefix h2ClientPreface b = true → len b < len h2ClientPreface → False) as Hshort.
  { intros Hp Hl. unfold SniffHTTP in H. rewrite (proj2 (Z.ltb_lt _ _) Hl), Hp in H. injection H as <-.
    by destruct (Hn (len b + 1)). }
  assert (sniffHTTP1 b = Ret v) as H1.
  { unfold SniffHTTP in H. destruct (Z.ltb_spec (len b) (len h2ClientPreface)); [|by rewrite Hpre in H].
    destruct (bytes_HasPrefix h2ClientPreface b); [by destruct Hshort|done]. }
  apply (sniffHTTP1_stable b more v Hb) in H1; [|done]. unfold SniffHTTP.
  destruct (Z.ltb_spec (len (b ++ more)) (len h2ClientPreface)) as [Hl|Hl].
  - destruct (bytes_HasPrefix h2ClientPreface (b ++ more)) eqn:Hp; [|done]. exfalso.
    apply bytes_HasPrefix_iff in Hp as [r Hr]. rewrite length_app in Hl. apply Hshort; [|lia].
    apply bytes_HasPrefix_iff. exists (more ++ r). by rewrite app_assoc.
  - destruct (bytes_HasPrefix (b ++ more) h2ClientPreface) eqn:Hp; [|done]. exfalso.
    apply bytes_HasPrefix_iff in Hp as [r Hr]. apply app_eq_app in Hr as (l & [[-> ->]|[Hr ->]]).
    + apply not_true_iff_false in Hpre. apply Hpre, bytes_HasPrefix_iff. by exists l.
    + destruct l as [|x l].
      * apply not_true_iff_false in Hpre. apply Hpre, bytes_HasPrefix_iff. exists []. by rewrite Hr, !app_nil_r.
      * apply Hshort; [apply bytes_HasPrefix_iff; by exists (x :: l)|]. rewrite Hr, length_app. cbn [length]. lia.
Qed.

(** A name that can stand in a Host field, with or without a port. *)
Record host_name (name : string) : Prop := {
  hn_nonempty : name ≠ "";
  hn_colon : has_byte ":" name = false;
  hn_open : has_byte "[" name = false;
  hn_close : has_byte "]" name = false;
  hn_dot : TrimRight name "." = name;
  hn_addr : ParseAddr (ToLower name) = None;
}.

Lemma parseHost_name name port :
  host_name name → (∀ p, port = Some p → port_ok p) → parseHost (with_port name port) = Ret (Found (ToLower name)).
Proof using Type.
  intros [Hne Hc Ho Hcl Hd Ha] Hp.
  assert (match SplitHostPort (with_port name port) with Some h => h | None => with_port name port end = name) as Hs.
  { unfold SplitHostPort. destruct port as [p|]; cbn [with_port]; [|by rewrite LastIndexByte_none].
    destruct (Hp p eq_refl) as (H1 & H2 & H3). change (":" +:+ p) with (String ":" p).
    rewrite LastIndexByte_app, HasPrefix_byte by (try done; rewrite has_byte_app, Ho; simpl; by rewrite H2).
    rewrite substring_app, Hc, !has_byte_app, Ho, Hcl. simpl. by rewrite H2, H3. }
  unfold parseHost. rewrite Hs, bool_decide_false, HasPrefix_byte by (try done; destruct port, name; done).
  cbn [andb]. run. rewrite Hd, bool_decide_false, Ha; [done|]. by destruct name.
Qed.

Lemma header_loop_host fuel total headers key val rest :
  Forall other_field headers → 58 ∉ key → 13 ∉ key ++ val → bytes_EqualFold key (string_bytes "host") = true →
  (length headers < fuel)%nat →
  header_loop fuel total (lines headers ++ (key ++ [58] ++ val) ++ CRLF ++ rest) =
    parseHost (TrimSpace (bytes_string val)).
Proof using Type.
  clear Decoder NewDecoder decoder_Write. intros Hh Hk Hcr He. revert fuel. induction Hh as [|h headers (Hne & Hn & Ho) _ IH]; intros [|fuel] Hf; try lia.
  - cbn [header_loop]. change (lines [] ++ (key ++ [58] ++ val) ++ CRLF ++ rest)
      with ((key ++ [58] ++ val) ++ [13; 10] ++ rest).
    unfold CRLF. rewrite bytes_Cut_first by set_solver.
    destruct (key ++ [58] ++ val) eqn:E; [by destruct key|]. rewrite <- E.
    rewrite (bytes_Cut_first key 58 [] val Hk). by rewrite He.
  - cbn [header_loop]. change (lines (h :: headers)) with ((h ++ CRLF) ++ lines headers). rewrite <- !app_assoc.
    change (h ++ CRLF ++ ?x) with (h ++ [13; 10] ++ x). unfold CRLF at 1. rewrite (bytes_Cut_first h 13 [10]) by done. destruct h as [|x h]; [done|].
    assert (length headers < fuel)%nat by (simpl in Hf; lia).
    destruct (bytes_Cut (x :: h) [58]) as [[k v]|]; [rewrite Ho; cbn [negb]|];
      rewrite <- (IH fuel) by done; by rewrite <- !app_assoc.
Qed.

(** A request is not the HTTP/2 preface. *)
Lemma not_preface b method y :
  bytes_Cut b SP = Some (method, y) → isHTTPMethod method = true → SniffHTTP b = sniffHTTP1 b.
Proof using Type.
  intros Hc Hm. assert (bytes_Cut h2ClientPreface SP = Some (string_bytes "PRI", drop 4 h2ClientPreface)) as Hp by done.
  assert (isHTTPMethod (string_bytes "PRI") = false) as Hpri by done.
  unfold SniffHTTP. destruct (len b <? len h2ClientPreface).
  - destruct (bytes_HasPrefix h2ClientPreface b) eqn:Hb; [|done]. exfalso.
    apply bytes_HasPrefix_iff in Hb as [r Hr]. apply (bytes_Cut_more _ _ _ _ r) in Hc.
    rewrite <- Hr, Hp in Hc. injection Hc as <- _. congruence.
  - destruct (bytes_HasPrefix b h2ClientPreface) eqn:Hb; [|done]. exfalso.
    apply bytes_HasPrefix_iff in Hb as [r ->]. rewrite (bytes_Cut_more _ _ _ _ r Hp) in Hc.
    injection Hc as <- _. congruence.
Qed.

(** In a request with an origin target, the sniffer finds the host that its Host
    field names, in lower case and without the port, after any other fields and
    whatever follows. *)
Theorem http_sniff_finds (method uri version : list Z) headers (key val : list Z) name port rest :
  isHTTPMethod method = true → 13 ∉ uri ++ version → 32 ∉ uri →
  14 ≤ len (method ++ SP ++ (47 :: uri) ++ SP ++ version) →
  Forall other_field headers → 58 ∉ key → 13 ∉ key ++ val → bytes_EqualFold key (string_bytes "host") = true →
  TrimSpace (bytes_string val) = with_port name port → host_name name → (∀ p, port = Some p → port_ok p) →
  SniffHTTP ((method ++ SP ++ (47 :: uri) ++ SP ++ version) ++ CRLF ++ lines headers ++
      (key ++ [58] ++ val) ++ CRLF ++ rest) = Ret (Found (ToLower name)).
Proof using Type.
  intros Hm Hcr Huri Hlen Hh Hk Hkv He Hval Hname Hport.
  assert (13 ∉ (47 :: uri) ++ SP ++ version) as Hcr' by (clear -Hcr; unfold SP; set_solver).
  pose proof (request_line_other method _ Hm Hcr') as Hreq.
  assert (32 ∉ method) as Hsp.
  { intros H. apply method_letters in Hm. rewrite Forall_forall in Hm. by apply (Hm 32); auto. }
  set (req := method ++ SP ++ (47 :: uri) ++ SP ++ version) in *.
  set (tail := lines headers ++ (key ++ [58] ++ val) ++ CRLF ++ rest). set (b := req ++ CRLF ++ tail).
  assert (bytes_Cut b SP = Some (method, ((47 :: uri) ++ SP ++ version) ++ CRLF ++ tail)) as Hc1.
  { unfold b, req. rewrite <- (app_assoc method), <- (app_assoc SP). by apply (bytes_Cut_first method 32 []). }
  assert (bytes_Cut b CRLF = Some (req, tail)) as Hc2 by (apply (bytes_Cut_first req 13 [10]), Hreq).
  assert (request_uri req = Some (47 :: uri)) as Hu.
  { unfold request_uri, req, SP. rewrite (bytes_Cut_first method 32 []) by done.
    by rewrite (bytes_Cut_first (47 :: uri) 32 []) by (clear -Huri; set_solver). }
  assert (sniffHTTP1 b = Ret (Found (ToLower name))) as H1.
  { unfold sniffHTTP1. rewrite Hc1, Hm, Hc2, Hu. cbn [negb]. rewrite (proj2 (Z.ltb_ge _ _)) by lia.
    rewrite (idx_lookup (47 :: uri) 0 47) by done. run. cbn [Z.eqb Pos.eqb orb]. unfold parseHeaderHostH1.
    replace b with (lines (req :: headers) ++ (key ++ [58] ++ val) ++ CRLF ++ rest)
      by (unfold b, tail; change (lines (req :: headers)) with ((req ++ CRLF) ++ lines headers);
          by rewrite <- !app_assoc).
    rewrite header_loop_host; [|by constructor|done..|].
    - rewrite Hval. by apply parseHost_name.
    - rewrite length_app. pose proof (length_lines (req :: headers)). lia. }
  by rewrite (not_preface b method _ Hc1 Hm).
Qed.

End proofs.

(** ** Instances of the properties *)

Module Examples.

(** No text is an address, and a decoder that never gives a field. *)
Definition no_addr (s : string) : option Addr := None.
Definition no_field (d : unit) (b : list Z) : list (string * string) * bool * unit := ([], false, d).
Abbreviation sniff := (SniffHTTP no_addr unit tt no_field).

Definition get_line : list Z := string_bytes "GET" ++ SP ++ string_bytes "/a:b" ++ SP ++ string_bytes "HTTP/1.1".
Definition accept : list Z := string_bytes "Accept: */*".
Definition host_line : list Z := string_bytes "HOST" ++ [58] ++ string_bytes " Example.com:80 ".
Definition request : list Z := get_line ++ CRLF ++ lines [accept] ++ host_line ++ CRLF ++ string_bytes "X".

Lemma http_sniff_finds_witness : sniff request = Ret (Found "example.com").
Proof.
  apply (http_sniff_finds no_addr unit tt no_field (string_bytes "GET") (string_bytes "a:b") (string_bytes "HTTP/1.1")
    [accept] (string_bytes "HOST") (string_bytes " Example.com:80 ") "Example.com" (Some "80") (string_bytes "X")).
  1,4,8,9: (reflexivity || (vm_compute; congruence)).
  1,2,4,5: apply (bool_decide_unpack (¬ _)); vm_compute; exact I.
  - repeat constructor; try discriminate. apply (bool_decide_unpack (¬ _)); vm_compute; exact I.
  - split; (reflexivity || discriminate).
  - intros p [= <-]. by split.
Defined.

(** A frame of settings and the start of a header block. *)
Definition h2_start : list Z := h2ClientPreface ++ [0; 0; 0; 4; 0; 0; 0; 0; 0] ++ [0; 0; 9; 1; 4; 0; 0; 0; 1] ++ [130].

Lemma http_sniff_safe_witness :
  ∃ v, sniff h2_start = Ret v ∧ (∀ n, v = Need n → len h2_start < n) ∧ v = Need 44.
Proof.
  destruct (http_sniff_safe no_addr unit tt no_field h2_start) as (v & Hv & Hn).
  - unfold is_byte. apply (bool_decide_unpack (Forall (λ b, 0 ≤ b < 256) _)). vm_compute. exact I.
  - exists v. split; [exact Hv|]. split; [exact Hn|]. vm_compute in Hv. congruence.
Defined.

Lemma http_sniff_stable_witness : sniff (request ++ [255]) = Ret (Found "example.com").
Proof.
  apply (http_sniff_stable no_addr unit tt no_field request [255] (Found "example.com")).
  - apply (bool_decide_unpack (Forall (λ x, 0 ≤ x < 128) _)). vm_compute. exact I.
  - reflexivity.
  - vm_compute. reflexivity.
  - discriminate.
Defined.

End Examples.
