(* ===== verification/Sniffer.v ===== *)
(** * The sniffer ([component/sniffer/dispatcher.go], [base_sniffer.go])

    The dispatcher peeks at the first bytes of a connection and lets the sniffers of
    its port look for a domain.  A sniffer may ask for more bytes; the loop waits for
    the least amount that one of them asked for, up to [maxSniffBufferSize].

    A connection is the function [peek] that gives the bytes that are buffered once
    [want] of them have been waited for, or the error of the read.
    The matchers of domains and addresses, and the syntax of domain names, are
    parameters. *)

From S2P Require Import Prelude Lru Wire GoStrings NetIP Metadata Ranges SniffTls SniffHttp.

Definition maxSniffBufferSize : Z := 64 * 1024.

Record SnifferConfig := mkSnifferConfig { OverrideDest : bool; Ports : list Range }.

(** [configuredSniffer]: the methods of the sniffer and its configuration. *)
Record configuredSniffer := mkConfigured {
  SupportNetwork : NetWork;
  ports : list Range;
  SniffData : list Z → outcome verdict;
  config : SnifferConfig;
}.

Definition SupportPort (s : configuredSniffer) (port : Z) : bool := Check_ (ports s) port.

Definition supportsNetwork (s : configuredSniffer) (network : NetWork) : bool :=
  (SupportNetwork s =? network) || (SupportNetwork s =? ALLNet).

Definition NewTLSSniffer (snifferConfig : SnifferConfig) : configuredSniffer :=
  mkConfigured TCP (match Ports snifferConfig with [] => [NewRange 443 443] | ps => ps end)
    SniffTLS snifferConfig.

(** The HTTP sniffer, for a parser of addresses and a decoder of header blocks. *)
Definition NewHTTPSniffer (ParseAddr : string → option Addr) (Decoder : Type) (NewDecoder : Decoder)
    (decoder_Write : Decoder → list Z → list (string * string) * bool * Decoder)
    (snifferConfig : SnifferConfig) : configuredSniffer :=
  mkConfigured TCP (match Ports snifferConfig with [] => [NewRange 80 80] | ps => ps end)
    (SniffHTTP ParseAddr Decoder NewDecoder decoder_Write) snifferConfig.

Section dispatcher.
Variable IsDomainName : string → bool.
Context {L elem : Type} `{!DList positive L elem}.
Abbreviation SkipList := (gmap positive (entry (K := AddrPort) (V := Z)) *
  LruCache (K := AddrPort) (V := Z) (L := L) (elem := elem))%type.

Record Dispatcher := mkDispatcher {
  enable : bool;
  sniffers : list configuredSniffer;
  forceDomain : list (string → bool);
  skipSrcAddress : list (Addr → bool);
  skipDstAddress : list (Addr → bool);
  skipDomain : list (string → bool);
  skipList : SkipList;
  forceDnsMapping : bool;
  parsePureIp : bool;
}.

Definition set_skipList (l : SkipList) (sd : Dispatcher) : Dispatcher :=
  mkDispatcher (enable sd) (sniffers sd) (forceDomain sd) (skipSrcAddress sd) (skipDstAddress sd)
    (skipDomain sd) l (forceDnsMapping sd) (parsePureIp sd).

Definition newSkipList : SkipList := (∅, Lru.New [WithSize 128; WithAge 600]).

Definition forceSniff (sd : Dispatcher) (m : Metadata) : bool :=
  existsb (λ matcher, matcher (Host m)) (forceDomain sd).

Definition shouldOverride (sd : Dispatcher) (m : Metadata) : bool :=
  if existsb (λ matcher, matcher (DstIP m)) (skipDstAddress sd) then false
  else if existsb (λ matcher, matcher (SrcIP m)) (skipSrcAddress sd) then false
  else if bool_decide (Host m = "") && parsePureIp sd then true
  else if (DNSMode_ m =? DNSMapping) && forceDnsMapping sd then true
  else forceSniff sd m.

Definition isValidSniffHost (host : string) : bool :=
  negb (bool_decide (host = ".")) && IsDomainName host.

Definition domainCanReplace (sd : Dispatcher) (host : string) : bool :=
  isValidSniffHost host && negb (existsb (λ matcher, matcher host) (skipDomain sd)).

Definition replaceDomain (host : string) (overrideDest : bool) (m : Metadata) : Metadata :=
  let m := set_SniffHost host m in
  let m := if overrideDest then set_DstIP AddrZero (set_Host host m) else m in
  set_DNSMode_ DNSNormal m.

(** ** Reading the domain *)

Record candidate := mkCandidate { cand : configuredSniffer; cand_want : Z }.

Inductive round : Type :=
| RFound (host : string) (cfg : SnifferConfig)
| RMore (remaining : list candidate) (nextWant : Z).

(** One round over the candidates, with the data that is there. *)
Fixpoint sniff_round (data : list Z) (candidates remaining : list candidate) (nextWant : Z) : outcome round :=
  match candidates with
  | [] => Ret (RMore remaining nextWant)
  | current :: candidates =>
    let keep (current : candidate) :=
      sniff_round data candidates (remaining ++ [current])
        (if (nextWant =? 0) || (cand_want current <? nextWant) then cand_want current else nextWant) in
    if cand_want current <=? len data then
      v ← SniffData (cand current) data;
      match v with
      | Found host =>
        if isValidSniffHost host then Ret (RFound host (config (cand current)))
        else sniff_round data candidates remaining nextWant
      | Need length =>
        if length <=? len data then sniff_round data candidates remaining nextWant
        else keep (mkCandidate (cand current) length)
      | Reject _ => sniff_round data candidates remaining nextWant
      end
    else keep current
  end.

Section conn.
(** [Buffered] after the first byte was waited for; the data after [Peek(want)]. *)
Variable peek1 : result Z.
Variable peek : Z → result (list Z).

(** The loop; the amounts that were waited for are kept. *)
Fixpoint sniff_loop (fuel : nat) (candidates : list candidate) (want buffered : Z) (peeked : list Z) :
    outcome (result (string * SnifferConfig) * list Z) :=
  match fuel with
  | O => OutOfFuel
  | S fuel =>
    match candidates with
    | [] => Ret (Err (ErrMsg "all sniffer failed"), peeked)
    | _ =>
      if (maxSniffBufferSize <? want) && (buffered <? want) then Ret (Err (ErrMsg "bufio: buffer full"), peeked)
      else
        let peeked := peeked ++ [want] in
        match peek want with
        | Err e => Ret (Err e, peeked)
        | Ok data =>
          r ← sniff_round data candidates [] 0;
          match r with
          | RFound host cfg => Ret (Ok (host, cfg), peeked)
          | RMore remaining nextWant => sniff_loop fuel remaining nextWant (len data) peeked
          end
        end
    end
  end.

(** Every round after the first waits for more bytes, up to [maxSniffBufferSize]. *)
Definition sniff_fuel : nat := Z.to_nat (maxSniffBufferSize + 3).

Definition sniffDomain (sd : Dispatcher) (m : Metadata) :
    outcome (result (string * SnifferConfig) * list Z) :=
  match List.filter (λ s, supportsNetwork s TCP && SupportPort s (DstPort m)) (sniffers sd) with
  | [] => Ret (Err (ErrMsg "all sniffer failed"), [])
  | current =>
    match peek1 with
    | Err e => Ret (Err e, [1])
    | Ok buffered => sniff_loop sniff_fuel ((λ s, mkCandidate s 1) <$> current) buffered buffered []
    end
  end.

(** ** The whole of [TCPSniff] *)

Variable now : Z.

(** Another failure for the destination, as a [uint8]. *)
Definition cacheSniffFailed (sd : Dispatcher) (m : Metadata) : outcome Dispatcher :=
  let '(h, c) := skipList sd in
  '(_, _, h, c) ← Lru.Compute_ 0 h c now (Metadata_AddrPort m)
    (λ oldValue _, (if oldValue <=? 5 then u8 (oldValue + 1) else oldValue, false));
  Ret (set_skipList (h, c) sd).

Definition TCPSniff (sd : Dispatcher) (m : Metadata) : outcome (bool * Metadata * Dispatcher) :=
  if negb (shouldOverride sd m) then Ret (false, m, sd)
  else if negb (existsb (λ s, supportsNetwork s TCP && SupportPort s (DstPort m)) (sniffers sd)) then
    Ret (false, m, sd)
  else
    let forceSniffer := forceSniff sd m in
    let dst := Metadata_AddrPort m in
    '(skip, sd) ←
      (if negb forceSniffer then
         let '(h, c) := skipList sd in
         '(count, ok, h, c) ← Lru.Get 0 h c now dst;
         Ret (ok && (5 <? count), set_skipList (h, c) sd)
       else Ret (false, sd));
    if (skip : bool) then Ret (false, m, sd)
    else
      '(res, _) ← sniffDomain sd m;
      match res with
      | Err _ =>
        sd ← (if negb forceSniffer then cacheSniffFailed sd m else Ret sd);
        Ret (false, m, sd)
      | Ok (host, cfg) =>
        if negb (domainCanReplace sd host) then Ret (false, m, sd)
        else
          let '(h, c) := skipList sd in
          c ← Lru.Delete_ h c dst;
          Ret (true, replaceDomain host (OverrideDest cfg) m, set_skipList (h, c) sd)
      end.

(** ** The loop ends, and reads ahead no more than it may *)

Hypothesis peek_data : ∀ want data, peek want = Ok data → want ≤ len data ∧ Forall is_byte data.

Definition cand_ok (c : candidate) : Prop :=
  ∀ data, Forall is_byte data → ∃ v, SniffData (cand c) data = Ret v.

Lemma sniff_round_spec data candidates remaining nextWant :
  Forall is_byte data → Forall cand_ok (candidates ++ remaining) →
  (∀ c, c ∈ remaining → len data < cand_want c) →
  (remaining = [] → nextWant = 0) → (remaining ≠ [] → len data < nextWant) →
  ∃ r, sniff_round data candidates remaining nextWant = Ret r ∧
    match r with
    | RFound host cfg => isValidSniffHost host = true ∧ ∃ c, c ∈ candidates ∧ config (cand c) = cfg
    | RMore remaining' nextWant' =>
      Forall cand_ok remaining' ∧ (remaining' ≠ [] → len data < nextWant')
    end.
Proof.
  intros Hd. revert remaining nextWant.
  induction candidates as [|c candidates IH]; intros remaining nextWant Hok Hrem H0 Hn; cbn [sniff_round].
  { eexists. split; [done|]. by split. }
  pose proof Hok as Hok'. apply Forall_app in Hok' as [[Hc Hcs]%Forall_cons Hr].
  assert (∀ c', cand c' = cand c → len data < cand_want c' → ∃ r,
    sniff_round data candidates (remaining ++ [c'])
      (if (nextWant =? 0) || (cand_want c' <? nextWant) then cand_want c' else nextWant) = Ret r ∧
    match r with
    | RFound host cfg => isValidSniffHost host = true ∧ ∃ x, x ∈ c :: candidates ∧ config (cand x) = cfg
    | RMore remaining' nextWant' => Forall cand_ok remaining' ∧ (remaining' ≠ [] → len data < nextWant')
    end) as Hkeep.
  { intros c' Hcc Hw. destruct (IH (remaining ++ [c'])
      (if (nextWant =? 0) || (cand_want c' <? nextWant) then cand_want c' else nextWant)) as (r & -> & Hr').
    - rewrite !Forall_app, Forall_singleton. split_and!; [done..|]. unfold cand_ok in *. by rewrite Hcc.
    - intros x [Hx| ->%list_elem_of_singleton]%elem_of_app; [by apply Hrem|done].
    - by destruct remaining.
    - intros _. destruct (Z.eqb_spec nextWant 0); simpl; [done|].
      destruct (cand_want c' <? nextWant); [done|]. apply Hn. intros ->. by rewrite H0 in *.
    - exists r. split; [done|]. destruct r as [host cfg|]; [|done]. destruct Hr' as (? & x & ? & ?).
      split; [done|]. exists x. split; [by right|done]. }
  assert (∃ r, sniff_round data candidates remaining nextWant = Ret r ∧
    match r with
    | RFound host cfg => isValidSniffHost host = true ∧ ∃ x, x ∈ c :: candidates ∧ config (cand x) = cfg
    | RMore remaining' nextWant' => Forall cand_ok remaining' ∧ (remaining' ≠ [] → len data < nextWant')
    end) as Hdrop.
  { destruct (IH remaining nextWant) as (r & -> & Hr'); [by apply Forall_app|done..|].
    exists r. split; [done|]. destruct r as [host cfg|]; [|done]. destruct Hr' as (? & x & ? & ?).
    split; [done|]. exists x. split; [by right|done]. }
  destruct (Z.leb_spec (cand_want c) (len data)); [|by apply Hkeep].
  destruct (Hc data Hd) as [v ->]. run. destruct v as [host|n|e]; [|destruct (Z.leb_spec n (len data))|done].
  - destruct (isValidSniffHost host) eqn:Hv; [|done]. eexists. split; [done|]. split; [done|].
    exists c. split; [by left|done].
  - done.
  - by apply Hkeep.
Qed.

(** What is buffered when the first byte has been waited for. *)
Definition first_read (r : result Z) : Z := match r with Ok b => b | Err _ => 1 end.

(** The rounds that may follow one that waits for [want] bytes. *)
Definition rounds_left (want : Z) : nat :=
  Z.to_nat (maxSniffBufferSize + 2 - Z.min want (maxSniffBufferSize + 1)).

Lemma sniff_loop_spec fuel candidates want buffered peeked b0 :
  Forall cand_ok candidates → 0 ≤ want →
  (want ≤ b0 ∧ (S (rounds_left want) < fuel)%nat ∨ buffered < want ∧ (rounds_left want < fuel)%nat) →
  (∀ x, x ∈ peeked → x ≤ Z.max b0 maxSniffBufferSize) →
  ∃ res peeked', sniff_loop fuel candidates want buffered peeked = Ret (res, peeked') ∧
    (∀ x, x ∈ peeked' → x ≤ Z.max b0 maxSniffBufferSize) ∧
    ∀ host cfg, res = Ok (host, cfg) → isValidSniffHost host = true.
Proof.
  revert candidates want buffered peeked.
  induction fuel as [|fuel IH]; intros candidates want buffered peeked Hok Hw Hb Hp; [lia|]. cbn [sniff_loop].
  destruct candidates as [|c cs] eqn:E; [by do 2 eexists|]. rewrite <- E in *. clear E c cs.
  destruct (Z.ltb_spec maxSniffBufferSize want), (Z.ltb_spec buffered want); cbn [andb].
  1: by do 2 eexists.
  all: assert (∀ x, x ∈ peeked ++ [want] → x ≤ Z.max b0 maxSniffBufferSize) as Hp'
    by (intros x [Hx| ->%list_elem_of_singleton]%elem_of_app; [by apply Hp|lia]).
  all: destruct (peek want) as [data|] eqn:Hpeek; [|by do 2 eexists].
  all: apply peek_data in Hpeek as [Hlen Hbytes].
  all: destruct (sniff_round_spec data candidates [] 0) as (r & -> & Hr);
    [done|by rewrite app_nil_r|by intros c Hc%elem_of_nil|done|done|]; run.
  all: destruct r as [host cfg|remaining nextWant]; [do 2 eexists; split; [done|]; split; [done|];
    intros ? ? [= <- <-]; by destruct Hr|].
  all: destruct remaining as [|c cs] eqn:E; [destruct fuel; [unfold rounds_left in *; lia|]; by do 2 eexists|]; rewrite <- E in *.
  all: destruct Hr as [Hrok Hnext]; specialize (Hnext ltac:(by rewrite E)).
  all: apply IH; [done|lia| |done]; right; split; [done|]; unfold rounds_left in *; lia.
Qed.

(** C28: the sniffer returns on every connection, whatever its sniffers ask for: beyond
    what arrived with the first byte it never waits for a buffer of more than 64 KiB,
    and a domain that it reports is a valid host name. *)
Theorem sniffer_bounded sd m :
  Forall (λ s, cand_ok (mkCandidate s 1)) (sniffers sd) → (∀ b, peek1 = Ok b → 1 ≤ b) →
  ∃ res peeked, sniffDomain sd m = Ret (res, peeked) ∧
    (∀ want, want ∈ peeked → want ≤ Z.max (first_read peek1) maxSniffBufferSize) ∧
    ∀ host cfg, res = Ok (host, cfg) → isValidSniffHost host = true.
Proof.
  intros Hok H1. unfold sniffDomain.
  destruct (List.filter _ (sniffers sd)) as [|s ss] eqn:Hf.
  { do 2 eexists. split; [done|]. split; [|done]. intros x Hx. by apply elem_of_nil in Hx. }
  rewrite <- Hf. destruct peek1 as [b|e]; cbn [first_read].
  - specialize (H1 b eq_refl).
    apply (sniff_loop_spec _ _ _ _ _ b); [|lia| |intros x Hx; by apply elem_of_nil in Hx].
    + apply Forall_fmap. rewrite Forall_forall in *. intros x Hx.
      apply Hok, list_elem_of_In, (filter_In (λ s, supportsNetwork s TCP && SupportPort s (DstPort m))).
      by apply list_elem_of_In.
    + left. split; [done|]. unfold rounds_left, sniff_fuel, maxSniffBufferSize. lia.
  - do 2 eexists. split; [done|]. split; [|done]. intros x ->%list_elem_of_singleton. lia.
Qed.

End conn.
End dispatcher.

(** The TLS and the HTTP sniffer are sniffers that the theorem is about. *)
Lemma NewTLSSniffer_ok cfg : cand_ok (mkCandidate (NewTLSSniffer cfg) 1).
Proof. intros data Hd. destruct (SniffTLS_returns data Hd) as (v & Hv & _). by exists v. Qed.

Lemma NewHTTPSniffer_ok ParseAddr Decoder NewDecoder decoder_Write cfg :
  cand_ok (mkCandidate (NewHTTPSniffer ParseAddr Decoder NewDecoder decoder_Write cfg) 1).
Proof.
  intros data Hd. destruct (SniffHTTP_returns ParseAddr Decoder NewDecoder decoder_Write data Hd) as (v & Hv & _).
  by exists v.
Qed.

(** ** Instances of the properties *)

Module Examples.
Import ListModel SniffTls.Examples SniffHttp.Examples.

(** A dispatcher with both sniffers on port 443, which do not replace the
    destination, and a connection whose first flight arrives in two segments. *)
Definition tls_config : SnifferConfig := mkSnifferConfig false [].
Definition http_sniffer : configuredSniffer :=
  NewHTTPSniffer no_addr unit tt no_field (mkSnifferConfig false [NewRange 443 443]).
Definition dispatcher : Dispatcher (L := list (nat * positive)) (elem := nat * positive) :=
  mkDispatcher true [NewTLSSniffer tls_config; http_sniffer] [] [] [] [] newSkipList false true.
Definition flight : list Z := wire 1 cut.
Definition peek_flight (want : Z) : result (list Z) :=
  if want <=? 30 then Ok (take 30 flight) else if want <=? len flight then Ok flight
  else Err (ErrMsg "i/o timeout").
Definition any_name (s : string) : bool := true.

Lemma peek_flight_data want data : peek_flight want = Ok data → want ≤ len data ∧ Forall is_byte data.
Proof.
  unfold peek_flight. assert (Forall is_byte flight) as Hb by bytes.
  destruct (Z.leb_spec want 30); [|destruct (Z.leb_spec want (len flight)); [|done]].
  - assert (len (take 30 flight) = 30 ∧ Forall is_byte (take 30 flight)) as [H30 Hb30]
      by (split; [reflexivity|by apply Forall_take]).
    intros Hd. assert (take 30 flight = data) as <- by congruence. split; [lia|done].
  - intros Hd. assert (flight = data) as <- by congruence. done.
Qed.

Definition to_443 : Metadata :=
  let '(mkMetadata a1 a2 a3 _ a5 a6 a7 a8 a9 a10 a11 a12 _ a14 a15 a16 a17 a18 a19
          a20 a21 a22 a23 a24 a25 a26 a27 a28 a29 a30 a31 a32 a33 a34) := zeroMetadata in
  mkMetadata a1 a2 a3 (Addr4 3323068421) a5 a6 a7 a8 a9 a10 a11 a12 443 a14 a15 a16 a17 a18 a19
    a20 a21 a22 a23 a24 a25 a26 a27 a28 a29 a30 a31 a32 a33 a34.

Lemma sniffer_bounded_witness :
  ∃ res peeked, sniffDomain any_name (Ok 30) peek_flight dispatcher to_443 = Ret (res, peeked) ∧
    (∀ want, want ∈ peeked → want ≤ Z.max 30 maxSniffBufferSize) ∧
    ∀ host cfg, res = Ok (host, cfg) → isValidSniffHost any_name host = true.
Proof.
  apply (sniffer_bounded any_name (Ok 30) peek_flight peek_flight_data dispatcher to_443).
  - repeat constructor; [apply NewTLSSniffer_ok|apply NewHTTPSniffer_ok].
  - intros b [= <-]. discriminate.
Defined.

Example sniffs_name :
  sniffDomain any_name (Ok 30) peek_flight dispatcher to_443 = Ret (Ok ("a.io", tls_config), [30; 49]).
Proof. vm_compute. reflexivity. Qed.
End Examples.
