(* ===== verification/Tunnel.v ===== *)
(** * Choosing a proxy for a connection ([tunnel/tunnel.go], [rules/wrapper/wrapper.go],
    [adapter/outbound/rematch.go])

    [match] goes through the rules in order, and through the groups that the adapter
    of a matching rule unwraps to: a Pass adapter sends the search on, a Rematch
    adapter changes the metadata and starts it again.

    Proxies are any instance of [ProxyOps]; [Unwrap] of a group is its choice for
    the metadata.  The top-level rules are wrapped with counters, the sub-rules are
    not.  The state of the search is the metadata, the state of the helper and the
    counters.  [answer_ok] says what an answer is, by the first entry that decides. *)

From Stdlib Require Import Ascii.
From S2P Require Import Prelude Wire GoStrings NetIP Metadata Rules SubRules Config.

(** ** Adapter types *)

Module AT.
Inductive AdapterType : Type :=
| Direct | Reject | RejectDrop | Compatible | Pass | PassRule | Rematch | Dns | Relay | Selector
| Fallback | URLTest | LoadBalance | Smart | Shadowsocks | ShadowsocksR | Snell | Socks5 | Http
| Vmess | Vless | Trojan | Hysteria | Hysteria2 | WireGuard | Tuic | Ssh | Mieru | AnyTLS | Sudoku
| Masque | TrustTunnel | ShadowQuic | OpenVPN | Tailscale | ZeroTier | EasyTier | GostRelay
| Freedom | AntiLag.

#[global] Instance AdapterType_eq_dec : EqDecision AdapterType.
Proof. solve_decision. Defined.
End AT.

(** [C.Proxy], what the tunnel uses of it; [DialContext] of a Rematch adapter is not a
    connection but a change of the metadata. *)
Class ProxyOps (P : Type) := {
  Name : P → string;
  PType : P → AT.AdapterType;
  SupportUDP : P → bool;
  Unwrap : P → Metadata → option P;
  DialContext : P → Metadata → result Metadata;
}.

(** [Rematch.applyMetadata], the effect of its [DialContext]. *)
Definition applyMetadata (targetRematchName targetSubRule : option string) (m : Metadata) : Metadata :=
  let m := match targetRematchName with Some n => set_RematchName n m | None => m end in
  match targetSubRule with Some n => set_SpecialRules n m | None => m end.

(** ** Wrapped rules *)

Record RuleWrapper := mkWrapper {
  w_rule : Rule;
  disabled : bool;
  hitCount : Z;
  hitAt : Z;
  missCount : Z;
  missAt : Z;
}.

Definition NewRuleWrapper (rule : Rule) : RuleWrapper := mkWrapper rule false 0 0 0 0.

Definition SetDisabled (v : bool) (r : RuleWrapper) : RuleWrapper :=
  mkWrapper (w_rule r) v (hitCount r) (hitAt r) (missCount r) (missAt r).

Definition Hit (now : Z) (r : RuleWrapper) : RuleWrapper :=
  mkWrapper (w_rule r) (disabled r) (u64 (hitCount r + 1)) now (missCount r) (missAt r).

Definition Miss (now : Z) (r : RuleWrapper) : RuleWrapper :=
  mkWrapper (w_rule r) (disabled r) (hitCount r) (hitAt r) (u64 (missCount r + 1)) now.

(** ** The search *)

(** [(?i)^[A-Z]{2}$] on bytes. *)
Definition is_letter (a : ascii) : bool := negb (no_letter a).
Definition countryCode (s : string) : bool :=
  match s with
  | String a (String b EmptyString) => is_letter a && is_letter b
  | _ => false
  end.

Section search.
Context (w : World) {S : Type} (helper : RuleMatchHelper S).
Context {P : Type} `{!ProxyOps P}.
Variable proxies : gmap string P.
Variable subRules : gmap string (list Rule).
Variable now : Z.

(** The state: metadata and helper, and the top-level rules with their counters. *)
Abbreviation ctx := (Metadata * S)%type.
Abbreviation st := (list RuleWrapper * ctx)%type.

(** A rule of a sub-rule list, or the top-level rule at a position. *)
Inductive entry : Type := Plain (r : Rule) | Top (i : nat).

(** [getRules]. *)
Definition getRules (s : st) : list entry :=
  match subRules !! SpecialRules s.2.1 with
  | Some sr => Plain <$> sr
  | None => Top <$> seq 0 (length s.1)
  end.

(** [rule.Match] of an entry, and the rule itself; [RuleWrapper.Match] counts. *)
Definition entry_Match (fuel : nat) (e : entry) (s : st) : outcome ((bool * string) * Rule * st) :=
  let '(rs, c) := s in
  match e with
  | Plain r =>
    res ← Match w helper subRules fuel r c;
    Ret (res.1, r, (rs, res.2))
  | Top i =>
    match rs !! i with
    | None => Panic "index out of range"
    | Some wr =>
      if disabled wr then Ret ((false, ""), w_rule wr, s)
      else
        res ← Match w helper subRules fuel (w_rule wr) c;
        let '((ok, adapter), c) := (res : (bool * string) * ctx) in
        Ret ((ok, adapter), w_rule wr, (<[i := if ok then Hit now wr else Miss now wr]> rs, c))
    end
  end.

(** The loop over the unwrapped adapters. *)
Inductive unwrapped : Type := IsPass | IsRematch (p : P) | Through (smart : bool).

Fixpoint unwrap_loop (fuel : nat) (adapter : P) (m : Metadata) (smart : bool) : outcome unwrapped :=
  match fuel with
  | O => OutOfFuel
  | Datatypes.S fuel =>
    let smart := smart || bool_decide (PType adapter = AT.Smart) in
    if bool_decide (PType adapter = AT.Pass) then Ret IsPass
    else if bool_decide (PType adapter = AT.Rematch) then Ret (IsRematch adapter)
    else
      match Unwrap adapter m with
      | Some next => unwrap_loop fuel next m smart
      | None => Ret (Through smart)
      end
  end.

(** [metadata.SmartTarget] for a matching rule. *)
Definition smart_target (rule : Rule) (m : Metadata) : Metadata :=
  if SmartRuleTypes (RuleType_ rule) &&
     (negb (bool_decide (RuleType_ rule = RT.GEOIP)) || negb (countryCode (Payload w rule)))
  then set_SmartTarget (RuleType_String (RuleType_ rule) +:+ " [" +:+ Payload w rule +:+ "]") m
  else m.

Inductive verdict : Type :=
| Chosen (adapter : P) (rule : Rule)
| RematchBy (adapter : P) (rule : Rule)
| NoRule.

Definition update_md (f : Metadata → Metadata) (s : st) : st := (s.1, (f s.2.1, s.2.2)).

(** The loop over the rules, from the label [GetRules]. *)
Fixpoint rules_loop (fuel : nat) (entries : list entry) (s : st) : outcome (verdict * st) :=
  match entries with
  | [] => Ret (NoRule, s)
  | e :: entries =>
    res ← entry_Match fuel e s;
    let '((matched, ada), rule, s) := (res : (bool * string) * Rule * st) in
    if negb matched then rules_loop fuel entries s
    else
      match proxies !! ada with
      | None => rules_loop fuel entries s
      | Some adapter =>
        let s := update_md (smart_target rule) s in
        u ← unwrap_loop fuel adapter s.2.1 false;
        match u with
        | IsPass => rules_loop fuel entries s
        | IsRematch p => Ret (RematchBy p rule, s)
        | Through smart =>
          let s := update_md (if smart then set_SmartBlock "normal" else set_SmartTarget "") s in
          if (NetWork_ s.2.1 =? UDP) && negb (SupportUDP adapter) then rules_loop fuel entries s
          else Ret (Chosen adapter rule, s)
        end
      end
  end.

(** [match]: rounds of the outer loop, with the names of the Rematch adapters so far. *)
Fixpoint match_rounds (rounds fuel : nat) (rematchChain : list string) (s : st) :
    outcome ((option P * option Rule) * st) :=
  match rounds with
  | O => OutOfFuel
  | Datatypes.S rounds =>
    res ← rules_loop fuel (getRules s) s;
    let '(v, s) := (res : verdict * st) in
    match v with
    | Chosen adapter rule => Ret ((Some adapter, Some rule), s)
    | NoRule => Ret ((proxies !! "DIRECT", None), s)
    | RematchBy p rule =>
      if bool_decide (Name p ∈ rematchChain) then Ret ((Some p, Some rule), s)
      else
        match DialContext p s.2.1 with
        | Err _ => Ret ((Some p, Some rule), s)
        | Ok m => match_rounds rounds fuel (rematchChain ++ [Name p]) (update_md (λ _, m) s)
        end
    end
  end.

Definition match_ (fuel : nat) (s : st) : outcome ((option P * option Rule) * st) :=
  match_rounds fuel fuel [] s.


(** ** What is chosen *)

(** From an adapter to one that it unwraps to, through adapters that are neither Pass
    nor Rematch. *)
Definition unwraps (m : Metadata) (a b : P) : Prop :=
  PType a ≠ AT.Pass ∧ PType a ≠ AT.Rematch ∧ Unwrap a m = Some b.

Definition leads (m : Metadata) : P → P → Prop := rtc (unwraps m).

(** There is nothing behind an adapter of a connection. *)
Definition innermost (m : Metadata) (a : P) : Prop :=
  PType a ≠ AT.Pass ∧ PType a ≠ AT.Rematch ∧ Unwrap a m = None.

(** In the state [s], the rule of the entry matches and names the proxy [a], which leads to
    [b] for the metadata of [s']. *)
Definition names_proxy (fuel : nat) (e : entry) (s : st) (rule : Rule) (a b : P) (s' : st) : Prop :=
  ∃ ada s1, entry_Match fuel e s = Ret ((true, ada), rule, s1) ∧ proxies !! ada = Some a ∧
    s' = update_md (smart_target rule) s1 ∧ leads s'.2.1 a b.

(** Entries that do not decide: their rule does not match, or names no proxy, or one that
    leads to Pass, or one that does not carry UDP for a UDP connection. *)
Inductive undecided (fuel : nat) : list entry → st → st → Prop :=
| undecided_nil s : undecided fuel [] s s
| no_match e entries s ada rule s1 s' :
    entry_Match fuel e s = Ret ((false, ada), rule, s1) → undecided fuel entries s1 s' → undecided fuel (e :: entries) s s'
| no_proxy e entries s ada rule s1 s' :
    entry_Match fuel e s = Ret ((true, ada), rule, s1) → proxies !! ada = None →
    undecided fuel entries s1 s' → undecided fuel (e :: entries) s s'
| to_Pass e entries s rule a b s1 s' :
    names_proxy fuel e s rule a b s1 → PType b = AT.Pass →
    undecided fuel entries s1 s' → undecided fuel (e :: entries) s s'
| no_UDP e entries s rule a b s1 f s' :
    names_proxy fuel e s rule a b s1 → innermost s1.2.1 b → NetWork_ s1.2.1 = UDP → SupportUDP a = false →
    f ∈ [set_SmartBlock "normal"; set_SmartTarget ""] →
    undecided fuel entries (update_md f s1) s' → undecided fuel (e :: entries) s s'.

(** The first entry that decides. *)
Definition first_names (fuel : nat) (entries : list entry) (s : st) (rule : Rule) (a b : P) (s' : st) : Prop :=
  ∃ before e after s1, entries = before ++ e :: after ∧ undecided fuel before s s1 ∧ names_proxy fuel e s1 rule a b s'.

Definition verdict_ok (fuel : nat) (entries : list entry) (s : st) (v : verdict) (s' : st) : Prop :=
  match v with
  | Chosen a rule => ∃ b s1, first_names fuel entries s rule a b s1 ∧ innermost s1.2.1 b ∧
      (NetWork_ s1.2.1 = UDP → SupportUDP a = true)
  | RematchBy p rule => ∃ a, first_names fuel entries s rule a p s' ∧ PType p = AT.Rematch
  | NoRule => undecided fuel entries s s'
  end.

(** The verdict is that of the other entries when the first one does not decide. *)
Lemma verdict_ok_cons fuel e entries s s1 v s' :
  (∀ entries s', undecided fuel entries s1 s' → undecided fuel (e :: entries) s s') →
  verdict_ok fuel entries s1 v s' → verdict_ok fuel (e :: entries) s v s'.
Proof.
  intros He.
  assert (∀ rule a b s2, first_names fuel entries s1 rule a b s2 → first_names fuel (e :: entries) s rule a b s2) as Hf.
  { intros rule a b s2 (before & e' & after & s3 & -> & Hb & Hn). exists (e :: before), e', after, s3. auto. }
  destruct v; simpl; naive_solver.
Qed.

Lemma first_names_head fuel e entries s rule a b s' :
  names_proxy fuel e s rule a b s' → first_names fuel (e :: entries) s rule a b s'.
Proof. intros H. exists [], e, entries, s. by split; [|split; [constructor|]]. Qed.

Lemma unwrap_loop_leads fuel a m smart u :
  unwrap_loop fuel a m smart = Ret u →
  ∃ b, leads m a b ∧
    match u with
    | IsPass => PType b = AT.Pass
    | IsRematch p => b = p ∧ PType p = AT.Rematch
    | Through _ => innermost m b
    end.
Proof.
  revert a smart. induction fuel as [|fuel IH]; intros a smart; cbn [unwrap_loop]; [done|].
  case_bool_decide; [intros [= <-]; exists a; by split; [apply rtc_refl|]|].
  case_bool_decide; [intros [= <-]; exists a; by split; [apply rtc_refl|]|].
  destruct (Unwrap a m) as [b|] eqn:Hu; [|intros [= <-]; exists a; by split; [apply rtc_refl|]].
  intros (c & Hc & Hend)%IH. exists c. split; [|done]. by eapply rtc_l.
Qed.

Lemma rules_loop_ok fuel entries s v s' :
  rules_loop fuel entries s = Ret (v, s') → verdict_ok fuel entries s v s'.
Proof.
  revert s. induction entries as [|e entries IH]; intros s; cbn [rules_loop]; [intros [= <- <-]; constructor|].
  destruct (entry_Match fuel e s) as [[[[matched ada] rule] s1]| |] eqn:He; cbn [mbind outcome_bind]; try done.
  destruct matched; cbn [negb].
  2: { intros H%IH. eapply verdict_ok_cons; [|done]. intros. by eapply no_match. }
  destruct (proxies !! ada) as [a|] eqn:Ha.
  2: { intros H%IH. eapply verdict_ok_cons; [|done]. intros. by eapply no_proxy. }
  set (s2 := update_md (smart_target rule) s1). destruct (unwrap_loop _ _ _ _) as [u| |] eqn:Hu; cbn [mbind outcome_bind]; try done.
  apply unwrap_loop_leads in Hu as (b & Hl & Hend).
  assert (names_proxy fuel e s rule a b s2) as Hn by (exists ada, s1; done).
  destruct u as [|p|smart].
  - intros H%IH. eapply verdict_ok_cons; [|done]. intros. by eapply to_Pass.
  - intros [= <- <-]. destruct Hend as [-> Hp]. exists a. by split; [apply first_names_head|].
  - set (f := if smart then _ else _).
    assert (NetWork_ (update_md f s2).2.1 = NetWork_ s2.2.1) as ->.
    { unfold f. cbn [update_md fst snd]. by destruct smart, s2 as [? [[] ?]]. }
    destruct (Z.eqb_spec (NetWork_ s2.2.1) UDP), (SupportUDP a) eqn:Hudp; cbn [andb negb].
    2: { intros H%IH. eapply verdict_ok_cons; [|done]. intros. eapply (no_UDP _ _ _ _ _ _ _ _ f); try done.
         unfold f. destruct smart; set_solver. }
    all: intros [= <- _]; exists b, s2; split_and!; [by apply first_names_head|done|done].
Qed.

(** Rounds of the search that ended at a Rematch adapter, which changed the metadata, with
    the names of these adapters. *)
Inductive rematched (fuel : nat) : st → list string → st → Prop :=
| rematched_nil s : rematched fuel s [] s
| rematched_cons s q rule s1 m visited s0 :
    rules_loop fuel (getRules s) s = Ret (RematchBy q rule, s1) → DialContext q s1.2.1 = Ok m →
    rematched fuel (update_md (λ _, m) s1) visited s0 → rematched fuel s (Name q :: visited) s0.

(** What the last round, from the state [s], answers: DIRECT when no rule decides, the proxy
    that the first deciding rule names, or a Rematch adapter behind it that was visited
    before or that fails. *)
Definition answer_ok (fuel : nat) (visited : list string) (s : st) (p : option P) (rule : option Rule) (s' : st) : Prop :=
  match rule with
  | None => p = proxies !! "DIRECT" ∧ undecided fuel (getRules s) s s'
  | Some r => ∃ a b s1, first_names fuel (getRules s) s r a b s1 ∧
      (p = Some a ∧ innermost s1.2.1 b ∧ (NetWork_ s1.2.1 = UDP → SupportUDP a = true) ∨
       p = Some b ∧ PType b = AT.Rematch ∧ (Name b ∈ visited ∨ ∃ err, DialContext b s1.2.1 = Err err))
  end.

Lemma match_rounds_ok rounds fuel chain s p rule s' :
  match_rounds rounds fuel chain s = Ret ((p, rule), s') →
  ∃ visited s0, rematched fuel s visited s0 ∧ answer_ok fuel (chain ++ visited) s0 p rule s'.
Proof.
  revert chain s. induction rounds as [|rounds IH]; intros chain s; cbn [match_rounds]; [done|].
  destruct (rules_loop fuel (getRules s) s) as [[v s1]| |] eqn:Hloop; cbn [mbind outcome_bind]; try done.
  pose proof (rules_loop_ok _ _ _ _ _ Hloop) as Hr. destruct v as [a r|q r|]; simpl in Hr.
  - intros [= <- <- <-]. destruct Hr as (b & s2 & Hf & Hi & Hu). exists [], s. split; [constructor|]. exists a, b, s2. naive_solver.
  - destruct Hr as (a & Hf & Hq). case_bool_decide as Hc.
    { intros [= <- <- <-]. exists [], s. split; [constructor|]. rewrite app_nil_r. exists a, q, s1. naive_solver. }
    destruct (DialContext q s1.2.1) as [md|err] eqn:Hd.
    + intros (visited & s0 & Hv & Ha)%IH. exists (Name q :: visited), s0. rewrite <- app_assoc in Ha.
      split; [by eapply rematched_cons|exact Ha].
    + intros [= <- <- <-]. exists [], s. split; [constructor|]. exists a, q, s1. split; [done|]. right. split_and!; [done|done|].
      right. by exists err.
  - intros [= <- <- <-]. exists [], s. by split; [constructor|].
Qed.

(** ** The search ends *)

Section ends.
Variable rules : list Rule.
Hypothesis rules_wf : Forall wf_rule rules.
Hypothesis subRules_wf : sections_wf subRules.
Hypothesis providers_ret : providers_return w.
Hypothesis accepted : verifySubRule subRules = Ret (Ok tt).

(** Groups do not contain themselves. *)
Variable rank : P → nat.
Hypothesis rank_Unwrap : ∀ p m q, Unwrap p m = Some q → (rank q < rank p)%nat.

(** There are finitely many Rematch adapters. *)
Variable names : list string.
Hypothesis names_Rematch : ∀ p, PType p = AT.Rematch → Name p ∈ names.

Lemma unwrap_loop_total fuel a m smart :
  (rank a < fuel)%nat → ∃ u, unwrap_loop fuel a m smart = Ret u.
Proof.
  revert a smart. induction fuel as [|fuel IH]; intros a smart Hf; [lia|]. simpl.
  repeat case_bool_decide; try (by eexists).
  all: destruct (Unwrap a m) as [q|] eqn:Hq; [|by eexists]; apply rank_Unwrap in Hq; apply IH; lia.
Qed.

Definition entry_ok (returns : Rule → Prop) (e : entry) : Prop :=
  match e with Plain r => returns r | Top i => (i < length rules)%nat end.

Lemma entry_Match_total fuel e (s : st) :
  Forall (match_returns w helper subRules fuel) rules →
  entry_ok (match_returns w helper subRules fuel) e → w_rule <$> s.1 = rules →
  ∃ a r s', entry_Match fuel e s = Ret (a, r, s') ∧ w_rule <$> s'.1 = rules.
Proof.
  intros Hrules He Hs. destruct s as [rs c]. destruct e as [r|i]; simpl in *.
  - destruct (He c) as [[a c'] ->]. by eexists _, _, _.
  - destruct (lookup_lt_is_Some_2 rs i) as [wr Hwr].
    { by rewrite <- (length_fmap w_rule rs), Hs. }
    rewrite Hwr. destruct (disabled wr); [by eexists _, _, _|].
    assert (match_returns w helper subRules fuel (w_rule wr)) as Hr.
    { rewrite Forall_forall in Hrules. apply Hrules. rewrite <- Hs. apply list_elem_of_fmap.
      exists wr. split; [done|]. by eapply list_elem_of_lookup_2. }
    destruct (Hr c) as [[[ok a] c'] ->]. eexists _, _, _. split; [done|]. simpl.
    rewrite list_fmap_insert, Hs. apply list_insert_id. rewrite <- Hs, list_lookup_fmap, Hwr.
    by destruct ok.
Qed.

Lemma rules_loop_total fuel entries (s : st) :
  Forall (match_returns w helper subRules fuel) rules →
  Forall (entry_ok (match_returns w helper subRules fuel)) entries →
  (∀ ada a, proxies !! ada = Some a → (rank a < fuel)%nat) → w_rule <$> s.1 = rules →
  ∃ v s', rules_loop fuel entries s = Ret (v, s') ∧ w_rule <$> s'.1 = rules.
Proof.
  intros Hrules He Hrank. revert s. induction He as [|e entries He Hes IH]; intros s Hs; cbn [rules_loop].
  { by eexists _, _. }
  destruct (entry_Match_total fuel e s Hrules He Hs) as ([matched ada] & rule & s1 & -> & Hs1).
  cbn [mbind outcome_bind]. destruct matched; cbn [negb]; [|by apply IH].
  destruct (proxies !! ada) as [a|] eqn:Ha; [|by apply IH].
  destruct (unwrap_loop_total fuel a (update_md (smart_target rule) s1).2.1 false) as [u ->].
  { by eapply Hrank. }
  cbn [mbind outcome_bind]. destruct u as [|p|smart]; [by apply IH|by eexists _, _|].
  destruct (_ && _); [by apply IH|by eexists _, _].
Qed.

Lemma getRules_ok (returns : Rule → Prop) (s : st) :
  (∀ name rs, subRules !! name = Some rs → Forall returns rs) → w_rule <$> s.1 = rules →
  Forall (entry_ok returns) (getRules s).
Proof.
  intros Hret Hs. unfold getRules. destruct (subRules !! _) as [sr|] eqn:Hsr.
  - apply Forall_fmap. by eapply Hret.
  - apply Forall_fmap, Forall_seq. intros j Hj. simpl. rewrite <- Hs, length_fmap. lia.
Qed.

Lemma match_rounds_total fuel rounds chain (s : st) :
  Forall (match_returns w helper subRules fuel) rules →
  (∀ name rs, subRules !! name = Some rs → Forall (match_returns w helper subRules fuel) rs) →
  (∀ ada a, proxies !! ada = Some a → (rank a < fuel)%nat) →
  NoDup chain → chain ⊆ names → (length names < rounds + length chain)%nat →
  w_rule <$> s.1 = rules → ∃ res, match_rounds rounds fuel chain s = Ret res.
Proof.
  intros Hrules Hsub Hrank. revert chain s.
  induction rounds as [|rounds IH]; intros chain s Hnd Hin Hlen Hs.
  { exfalso. assert (chain ⊆+ names) as Hm%submseteq_length; [|lia]. by apply NoDup_submseteq. }
  cbn [match_rounds].
  destruct (rules_loop_total fuel (getRules s) s Hrules) as (v & s1 & Hr & Hs1); [by apply getRules_ok|done..|].
  rewrite Hr. cbn [mbind outcome_bind]. apply rules_loop_ok in Hr.
  destruct v as [a r|a r|]; [by eexists| |by eexists]. destruct Hr as (_ & _ & Hrematch).
  case_bool_decide as Hc; [by eexists|]. destruct (DialContext a s1.2.1) as [m|]; [|by eexists].
  apply IH; [|set_solver|rewrite length_app; simpl; lia|done].
  apply NoDup_app. split_and!; [done|set_solver|apply NoDup_singleton].
Qed.

Lemma match_total :
  ∃ F, ∀ fuel (s : st), (F ≤ fuel)%nat → w_rule <$> s.1 = rules → ∃ res, match_ fuel s = Ret res.
Proof.
  destruct (uniform_bound (rules ++ mjoin (map_to_list subRules).*2)
    (match_returns w helper subRules)) as [F HF].
  { intros r Hr. apply accepted_terminates; [done..|].
    apply elem_of_app in Hr as [Hr|Hr]; [rewrite Forall_forall in rules_wf; by apply rules_wf|].
    apply list_elem_of_join in Hr as (rs & Hr & Hrs).
    apply list_elem_of_fmap in Hrs as ([name rs'] & -> & Hrs). apply elem_of_map_to_list in Hrs.
    specialize (subRules_wf name rs' Hrs). rewrite Forall_forall in subRules_wf. by apply subRules_wf. }
  destruct (uniform_bound (map_to_list proxies).*2 (λ fuel a, (rank a < fuel)%nat)) as [F' HF'].
  { intros a _. exists (Datatypes.S (rank a)). lia. }
  exists (Datatypes.S (F + F' + length names)). intros fuel s Hf Hs.
  specialize (HF fuel ltac:(lia)). apply Forall_app in HF as [HF1 HF2].
  specialize (HF' fuel ltac:(lia)).
  apply match_rounds_total; [done| | |constructor|set_solver|simpl; lia|done].
  - intros name rs Hrs. apply Forall_forall. intros r Hr. rewrite Forall_forall in HF2. apply HF2.
    apply list_elem_of_join. exists rs. split; [done|]. apply list_elem_of_fmap.
    exists (name, rs). by rewrite elem_of_map_to_list.
  - intros ada a Ha. rewrite Forall_forall in HF'. apply HF'. apply list_elem_of_fmap.
    exists (ada, a). by rewrite elem_of_map_to_list.
Qed.
End ends.
End search.

(** C25: for an accepted configuration, with rule providers that return and groups that do
    not contain themselves, the search for a proxy always ends.  It goes through rounds
    that end at Rematch adapters, and its answer is that of the last round: the proxy that
    the first deciding rule names, where rules that do not match, name no proxy, lead to
    Pass or name a proxy without UDP for a UDP connection do not decide; a Rematch adapter
    behind it, when it was visited in a round before or fails; or DIRECT when no rule
    decides. *)
Theorem tunnel_match_returns (w : World) (S : Type) (helper : RuleMatchHelper S) (P : Type)
    (ops : ProxyOps P) (proxies : gmap string P) subRules now rules (rank : P → nat) (names : list string) :
  Forall wf_rule rules → sections_wf subRules → providers_return w →
  verifySubRule subRules = Ret (Ok tt) →
  (∀ p m q, Unwrap p m = Some q → (rank q < rank p)%nat) →
  (∀ p : P, PType p = AT.Rematch → Name p ∈ names) →
  ∃ F, ∀ fuel rs c, (F ≤ fuel)%nat → w_rule <$> rs = rules →
  ∃ p rule s' visited s0, match_ w helper proxies subRules now fuel (rs, c) = Ret ((p, rule), s') ∧
    rematched w helper proxies subRules now fuel (rs, c) visited s0 ∧
    answer_ok w helper proxies subRules now fuel visited s0 p rule s'.
Proof.
  intros Hrules Hsub Hret Hacc Hrank Hnames.
  destruct (match_total w helper proxies subRules now rules Hrules Hsub Hret Hacc rank Hrank names Hnames) as [F HF].
  exists F. intros fuel rs c Hf Hrs. destruct (HF fuel (rs, c) Hf Hrs) as [[[p rule] s'] Hm].
  destruct (match_rounds_ok _ _ _ _ _ _ _ _ _ _ _ _ Hm) as (visited & s0 & Hv & Ha). by exists p, rule, s', visited, s0.
Qed.

(** The search keeps what the rules keep. *)
Section keep_search.
Context (w : World) {S : Type} (helper : RuleMatchHelper S) (I : S → Prop).
Hypothesis helper_ok : helper_keeps I helper.
Hypothesis providers_ok : providers_keep w.
Context {P : Type} `{!ProxyOps P} (proxies : gmap string P) (subRules : gmap string (list Rule)) (now : Z).

Lemma entry_Match_keeps fuel e s res s' :
  entry_Match w helper subRules now fuel e s = Ret (res, s') → I s.2.2 → I s'.2.2.
Proof.
  destruct s as [rs c]. destruct e as [r|i]; simpl.
  - destruct (Match w helper subRules fuel r c) as [[a c']| |] eqn:Hm; simpl; try done.
    intros [= <- <-]. by eapply (proj1 (Match_keeps w helper I helper_ok providers_ok subRules fuel)).
  - destruct (rs !! i) as [wr|]; [|done]. destruct (disabled wr); [by intros [= <- <-]|].
    destruct (Match w helper subRules fuel (w_rule wr) c) as [[[ok a] c']| |] eqn:Hm; simpl; try done.
    intros [= <- <-]. by eapply (proj1 (Match_keeps w helper I helper_ok providers_ok subRules fuel)).
Qed.

Lemma rules_loop_keeps fuel entries s v s' :
  rules_loop w helper proxies subRules now fuel entries s = Ret (v, s') → I s.2.2 → I s'.2.2.
Proof.
  revert s. induction entries as [|e entries IH]; intros s; cbn [rules_loop]; [by intros [= <- <-]|].
  destruct (entry_Match _ _ _ _ fuel e s) as [[[[m ada] rule] s1]| |] eqn:He; cbn [mbind outcome_bind]; try done.
  intros H Hi. apply entry_Match_keeps in He; [|done]. destruct m; cbn [negb] in H; [|by apply (IH s1)].
  destruct (proxies !! ada) as [a|]; [|by apply (IH s1)].
  destruct (unwrap_loop _ _ _ _) as [[|p|smart]| |]; cbn [mbind outcome_bind] in H; try done.
  - by eapply IH.
  - by simplify_eq.
  - destruct (_ && _); [by eapply IH|by simplify_eq].
Qed.

Lemma match_rounds_keeps rounds fuel chain s res s' :
  match_rounds w helper proxies subRules now rounds fuel chain s = Ret (res, s') → I s.2.2 → I s'.2.2.
Proof.
  revert chain s. induction rounds as [|rounds IH]; intros chain s; cbn [match_rounds]; [done|].
  destruct (rules_loop _ _ _ _ _ _ _ s) as [[v s1]| |] eqn:Hr; cbn [mbind outcome_bind]; try done.
  intros H Hi. apply rules_loop_keeps in Hr; [|done]. destruct v as [a r|a r|]; [by simplify_eq| |by simplify_eq].
  case_bool_decide; [by simplify_eq|]. destruct (DialContext a s1.2.1); [by eapply IH|by simplify_eq].
Qed.
End keep_search.


(** ** Instances of the properties *)

Module Examples.
Import Rules.Examples.

(** A direct proxy, a group with one server, and a Rematch adapter that sends a
    connection to the sub-rules "sub". *)
Inductive px : Type := Direct | Server | Group | Again.

#[global] Instance px_ops : ProxyOps px := {|
  Name p := match p with Direct => "DIRECT" | Server => "server" | Group => "group" | Again => "again" end;
  PType p :=
    match p with Direct => AT.Direct | Server => AT.Tuic | Group => AT.Selector | Again => AT.Rematch end;
  SupportUDP p := match p with Direct | Server | Group => true | Again => false end;
  Unwrap p _ := match p with Group => Some Server | _ => None end;
  DialContext p m := match p with Again => Ok (applyMetadata None (Some "sub") m) | _ => Err EOF end;
|}.

Definition proxies : gmap string px := {["DIRECT" := Direct; "G" := Group; "R" := Again]}.
Definition rules : list Rule := [DomainSuffix "a.com" "R"; MatchRule "DIRECT"].
Definition sub_rules : gmap string (list Rule) := {["sub" := [Domain "x.a.com" "PASS"; MatchRule "G"]]}.

Lemma tunnel_sections_wf : sections_wf sub_rules.
Proof.
  intros name rs. unfold sub_rules. rewrite lookup_singleton. case_decide; [|done]. intros [= <-].
  repeat (constructor; [by apply wf_leaf|]). constructor.
Qed.

Lemma tunnel_match_returns_witness :
  ∃ F, ∀ fuel rs c, (F ≤ fuel)%nat → w_rule <$> rs = rules →
  ∃ p rule s' visited s0, match_ small_world no_helper proxies sub_rules 0 fuel (rs, c) = Ret ((p, rule), s') ∧
    rematched small_world no_helper proxies sub_rules 0 fuel (rs, c) visited s0 ∧
    answer_ok small_world no_helper proxies sub_rules 0 fuel visited s0 p rule s'.
Proof.
  apply (tunnel_match_returns small_world unit no_helper px px_ops proxies sub_rules 0 rules
    (λ p, match p with Group => 1 | _ => 0 end)%nat ["again"]).
  - repeat (constructor; [by apply wf_leaf|]). constructor.
  - apply tunnel_sections_wf.
  - apply small_world_returns.
  - vm_compute. reflexivity.
  - intros p m q Hq. destruct p; simpl in Hq; try discriminate Hq. injection Hq as <-. lia.
  - intros p Hp. destruct p; try discriminate Hp. by left.
Defined.

(** A connection that is matched again ends at the group of the sub-rules. *)
Example matched_again :
  match match_ small_world no_helper proxies sub_rules 7 9
    (NewRuleWrapper <$> rules, (set_Host "x.a.com" zeroMetadata, tt)) with
  | Ret ((p, rule), (rs, (m, _))) =>
    p = Some Group ∧ rule = Some (MatchRule "G") ∧ SpecialRules m = "sub" ∧ hitCount <$> rs = [1; 0]
  | _ => False
  end.
Proof. vm_compute. done. Qed.
End Examples.
