(* ===== verification/Handle.v ===== *)
(** * Handling a connection ([tunnel/tunnel.go], [tunnel/mode.go], [tunnel/status.go],
    [component/process/find_process_mode.go])

    From the metadata of a connection to the proxy it is dialled with: the host of a
    fake address is looked up, the sniffer may find a domain, and [resolveMetadata]
    searches the rules with helpers that resolve the host and find the process at
    most once.  [handleTCPConn] is modelled up to the dial.

    The hosts table and the enhancer are those of [Hosts] and [Enhancer]; DNS, the
    process tables and the sniffer are parameters. *)

From Stdlib Require Import Ascii.
From S2P Require Import Prelude Lru Wire GoStrings NetIP Metadata FakeIP Rules SubRules Ranges SniffTls Sniffer Hosts Dns Enhancer Tunnel.

(** ** Modes *)

Inductive TunnelMode : Type := Global | RuleMode | DirectMode.
Inductive TunnelStatus : Type := Suspend | Inner | Running.
Inductive FindProcessMode : Type := FindProcessStrict | FindProcessAlways | FindProcessOff.

Definition TunnelMode_String (m : TunnelMode) : string :=
  match m with Global => "global" | RuleMode => "rule" | DirectMode => "direct" end.

(** [UnmarshalText] through [ModeMapping]. *)
Definition TunnelMode_UnmarshalText (data : string) : result TunnelMode :=
  match List.find (λ m, bool_decide (TunnelMode_String m = ToLower data)) [Global; RuleMode; DirectMode] with
  | Some m => Ok m
  | None => Err (ErrMsg "invalid mode")
  end.

Definition TunnelStatus_String (s : TunnelStatus) : string :=
  match s with Suspend => "suspend" | Inner => "inner" | Running => "running" end.

Definition TunnelStatus_UnmarshalText (data : string) : result TunnelStatus :=
  match List.find (λ s, bool_decide (TunnelStatus_String s = ToLower data)) [Suspend; Inner; Running] with
  | Some s => Ok s
  | None => Err (ErrMsg "invalid status")
  end.

Definition isHandle (status : TunnelStatus) (t : CType) : bool :=
  match status with
  | Running => true
  | Inner => bool_decide (t = INNER)
  | Suspend => false
  end.

(** [path/filepath.Base] on slash-separated paths. *)
Definition filepath_Base (path : string) : string :=
  if bool_decide (path = "") then "."
  else
    match List.filter (λ p, negb (bool_decide (p = ""))) (Split "/" path) with
    | [] => "/"
    | parts => List.last parts ""
    end.

(** The variables that the closures of [resolveMetadata] share; the number of DNS
    queries and of process lookups is kept beside them. *)
Record closure := mkClosure {
  resolved : bool;
  attemptProcessLookup : bool;
  dnsQueries : nat;
  processLookups : nat;
}.

Section resolve.
Context (w : World) {P : Type} `{!ProxyOps P}.
Variable proxies : gmap string P.
Variable subRules : gmap string (list Rule).
Variable now : Z.

(** DNS, whose answers may change from query to query, and the process tables. *)
Variable resolver_ResolveIP : nat → string → option Addr.
Variable FindProcessName : NetWork → Addr → Z → option (Z * string).
Variable FindPackageName : Metadata → option string.
Variable CMFA : bool.

(** The hosts table, and the random choice among its addresses. *)
Variable hosts_Search : string → bool → outcome (option HostValue * bool).
Variable IntN : nat → nat.

(** [node, ok := DefaultHosts.Search(host, false)] and [node.RandIP()], whose error is
    ignored. *)
Definition hosts_addr (host : string) : outcome (option Addr) :=
  '(node, ok) ← hosts_Search host false;
  if (ok : bool) then
    match node with
    | None => Panic "nil pointer dereference"
    | Some node =>
      ip ← RandIP IntN node;
      Ret (Some match ip with Ok ip => ip | Err _ => AddrZero end)
    end
  else Ret None.

Definition helper_ResolveIP (c : Metadata * closure) : Metadata * closure :=
  let '(m, s) := c in
  if negb (resolved s) && negb (bool_decide (Host m = "")) && negb (Resolved m) then
    (match resolver_ResolveIP (dnsQueries s) (Host m) with Some ip => set_DstIP ip m | None => m end,
     mkClosure true (attemptProcessLookup s) (S (dnsQueries s)) (processLookups s))
  else c.

Definition helper_FindProcess (c : Metadata * closure) : Metadata * closure :=
  let '(m, s) := c in
  if attemptProcessLookup s then
    let s := mkClosure (resolved s) false (dnsQueries s) (S (processLookups s)) in
    let package (m : Metadata) :=
      match FindPackageName m with Some pkg => set_Process (Uid m) pkg (ProcessPath m) m | None => m end in
    if negb CMFA then
      match FindProcessName (NetWork_ m) (SrcIP m) (SrcPort m) with
      | Some (uid, path) => (package (set_Process uid (filepath_Base path) path m), s)
      | None => (m, s)
      end
    else (package m, s)
  else c.

(** The loop of [CheckPassRule], for groups nested less than [depth]
    ([pass_rule_depth]). *)
Fixpoint pass_rule (depth : nat) (a : P) (m : Metadata) : bool :=
  match depth with
  | O => false
  | S depth =>
    if bool_decide (PType a = AT.PassRule) then true
    else match Unwrap a m with Some a => pass_rule depth a m | None => false end
  end.

Definition helper_CheckPassRule (depth : nat) (m : Metadata) (adapterName : string) : bool :=
  match proxies !! adapterName with Some a => pass_rule depth a m | None => false end.

Definition full_helper (depth : nat) : RuleMatchHelper closure :=
  mkHelper (Some helper_ResolveIP) (Some helper_FindProcess) (Some (helper_CheckPassRule depth)).

(** [resolveMetadata]: the proxy and rule or an error, and the state at the end. *)
Definition resolveMetadata (fuel : nat) (mode : TunnelMode) (findProcessMode : FindProcessMode)
    (rs : list RuleWrapper) (m : Metadata) :
    outcome (result (option P * option Rule) * (list RuleWrapper * (Metadata * closure))) :=
  let s := mkClosure false (negb (bool_decide (Type_ m = INNER))) 0 0 in
  if negb (bool_decide (SpecialProxy m = "")) then
    Ret (match proxies !! SpecialProxy m with
         | Some p => Ok (Some p, None)
         | None => Err (ErrMsg ("proxy " +:+ SpecialProxy m +:+ " not found"))
         end, (rs, (m, s)))
  else
    hosts ← hosts_addr (Host m);
    let '(m, s) :=
      match hosts with
      | Some ip => (set_DstIP ip m, mkClosure true (attemptProcessLookup s) 0 0)
      | None => (m, s)
      end in
    let helper := full_helper fuel in
    let silent := mkHelper (ResolveIP helper) None (CheckPassRule helper) in
    let '(helper, (m, s)) :=
      match findProcessMode with
      | FindProcessAlways => (silent, helper_FindProcess (m, s))
      | FindProcessOff => (silent, (m, s))
      | FindProcessStrict => (helper, (m, s))
      end in
    match mode with
    | DirectMode => Ret (Ok (proxies !! "DIRECT", None), (rs, (m, s)))
    | Global => Ret (Ok (proxies !! "GLOBAL", None), (rs, (m, s)))
    | RuleMode =>
      res ← match_ w helper proxies subRules now fuel (rs, (m, s));
      Ret (Ok res.1, res.2)
    end.

(** ** From a fake address to its host *)

Variable ParseAddr : string → option Addr.
Variable Addr_String : Addr → string.
Context {St : Type} `{Store St} {L elem : Type} `{!DList positive L elem}.
Abbreviation Mapper := (option (ResolverEnhancer (S := St) (L := L) (elem := elem))).

Definition fixMetadata (m : Metadata) : Metadata :=
  let m := set_DstIP (Unmap (DstIP m)) m in
  match ParseAddr (Host m) with
  | Some ip => set_Host "" (set_DstIP (Unmap ip) m)
  | None => m
  end.

Definition needLookupIP (mapper : Mapper) (m : Metadata) : bool :=
  mapper_MappingEnabled mapper && bool_decide (Host m = "") && IsValid (DstIP m).

(** The metadata is changed in place, also when there is an error. *)
Definition preHandleMetadata (mapper : Mapper) (m : Metadata) :
    outcome (result unit * Metadata * Mapper) :=
  if needLookupIP mapper m then
    '(host, existed, mapper) ← mapper_FindHostByIP mapper now (DstIP m);
    if (existed : bool) then
      let m := set_DNSMode_ DNSMapping (set_Host host m) in
      if mapper_IsFakeIP mapper (DstIP m) then
        Ret (Ok tt, set_DNSMode_ DNSFakeIP (set_DstIP AddrZero m), mapper)
      else
        '(node, ok) ← hosts_Search host false;
        match node, (ok : bool) with
        | Some node, true =>
          ip ← RandIP IntN node;
          Ret (Ok tt, set_DstIP (match ip with Ok ip => ip | Err _ => AddrZero end) m, mapper)
        | None, true => Panic "nil pointer dereference"
        | Some node, false =>
          Ret (Ok tt, if IsDomain node then set_Host (hv_Domain node) m else m, mapper)
        | None, false => Ret (Ok tt, m, mapper)
        end
    else if mapper_IsFakeIP mapper (DstIP m) then
      Ret (Err (ErrMsg ("fake DNS record " +:+ Addr_String (DstIP m) +:+ " missing")), m, mapper)
    else Ret (Ok tt, m, mapper)
  else
    '(node, ok) ← hosts_Search (Host m) true;
    match node, (ok : bool) with
    | Some node, true => Ret (Ok tt, set_Host (hv_Domain node) m, mapper)
    | None, true => Panic "nil pointer dereference"
    | _, false => Ret (Ok tt, m, mapper)
    end.

(** ** A TCP connection, until it is dialled *)

(** The sniffer, when it is enabled: whether it found a domain, and the metadata. *)
Context {D : Type} (TCPSniff : D → Metadata → outcome (bool * Metadata * D)).

Inductive tcp_result : Type :=
| Closed
| Dial (proxy : option P) (rule : option Rule) (dialMetadata : Metadata).

Definition handleTCPConn (fuel : nat) (status : TunnelStatus) (mode : TunnelMode)
    (findProcessMode : FindProcessMode) (rs : list RuleWrapper) (mapper : Mapper) (sniffer : option D)
    (m : Metadata) : outcome (tcp_result * list RuleWrapper * Mapper * option D) :=
  if negb (isHandle status (Type_ m)) then Ret (Closed, rs, mapper, sniffer)
  else if negb (Valid m) then Ret (Closed, rs, mapper, sniffer)
  else
    '(err, m, mapper) ← preHandleMetadata mapper (fixMetadata m);
    let preHandleFailed := match err with Ok _ => false | Err _ => true end in
    '(sniffed, m, sniffer) ←
      (match sniffer with
       | Some d => '(sniffed, m, d) ← TCPSniff d m; Ret (sniffed, m, Some d)
       | None => Ret (false, m, None)
       end);
    if preHandleFailed && negb sniffed then Ret (Closed, rs, mapper, sniffer)
    else
      '(res, s) ← resolveMetadata fuel mode findProcessMode rs m;
      let '(rs, (m, _)) := (s : list RuleWrapper * (Metadata * closure)) in
      match res with
      | Err _ => Ret (Closed, rs, mapper, sniffer)
      | Ok (proxy, rule) =>
        dialMetadata ←
          (if negb (String.length (Host m) =? 0)%nat then
             hosts ← hosts_addr (Host m);
             Ret match hosts with
                 | Some dstIp =>
                   if negb (mapper_IsFakeIP mapper dstIp)
                   then Pure (set_DNSMode_ DNSHosts (set_DstIP dstIp m)) else m
                 | None => m
                 end
           else Ret m);
        Ret (Dial proxy rule dialMetadata, rs, mapper, sniffer)
      end.

(** ** At most one query *)

(** A depth above the nesting of the groups does not change the answer. *)
Lemma pass_rule_depth (rank : P → nat) d1 d2 a m :
  (∀ p m q, Unwrap p m = Some q → (rank q < rank p)%nat) →
  (rank a < d1)%nat → (rank a < d2)%nat → pass_rule d1 a m = pass_rule d2 a m.
Proof.
  intros Hr. revert d2 a. induction d1 as [|d1 IH]; intros [|d2] a H1 H2; try lia. cbn [pass_rule].
  destruct (bool_decide _); [done|]. destruct (Unwrap a m) as [b|] eqn:Hu; [|done].
  apply Hr in Hu. apply IH; lia.
Qed.

Definition once (s : closure) : Prop :=
  (dnsQueries s ≤ (if resolved s then 1 else 0))%nat ∧
  (processLookups s ≤ (if attemptProcessLookup s then 0 else 1))%nat.

Lemma helper_ResolveIP_once c : once c.2 → once (helper_ResolveIP c).2.
Proof.
  destruct c as [m s]. unfold once, helper_ResolveIP. simpl.
  destruct (resolved s) eqn:Hr; simpl; [by rewrite Hr|]. intros [Hd Hp].
  destruct (_ && _); simpl; [lia|]. rewrite Hr. lia.
Qed.

Lemma helper_FindProcess_once c : once c.2 → once (helper_FindProcess c).2.
Proof.
  destruct c as [m s]. unfold once, helper_FindProcess. simpl.
  destruct (attemptProcessLookup s) eqn:Ha; simpl; [|by rewrite Ha]. intros [Hd Hp].
  destruct (negb CMFA); [destruct (FindProcessName _ _ _) as [[uid path]|]|]; simpl; (split; [exact Hd|lia]).
Qed.

Lemma full_helper_once depth : helper_keeps once (full_helper depth).
Proof.
  split; intros f c [= <-]; [apply helper_ResolveIP_once|apply helper_FindProcess_once].
Qed.
End resolve.

(** ** The host of a fake address *)

Section fake.
Context {St : Type} `{StoreSpec St} {L elem : Type} `{!DList positive L elem}.
Abbreviation Enh := (ResolverEnhancer (S := St) (L := L) (elem := elem)).
Context (w : World) (subRules : gmap string (list Rule)) (now : Z).
Variable SetRcode : Msg → Msg → Z → Msg.
Hypothesis SetRcode_Answer : ∀ m r rc, Answer (SetRcode m r rc) = Answer m.
Variable R : Type.
Variable exchange : R → Msg → outcome (result Msg * R).
Variable hosts_Search : string → bool → outcome (option HostValue * bool).
Variable IntN : nat → nat.
Variable Addr_String : Addr → string.

(** The addresses that the pool hands out are fake addresses. *)
Definition pool_fake (p : Pool St) (f l : Z) : Prop :=
  ∀ v, f ≤ v < l → in_pool (Addr4 v) (Some p) = true.

Lemma Lookup_fields p host ip p' :
  Lookup p host = Ret (ip, p') → ipnet p' = ipnet p ∧ gateway p' = gateway p ∧ last p' = last p.
Proof.
  unfold Lookup, get. intros ([[ip0 found] s] & _ & Hl)%bind_Ret. destruct found; [injection Hl as <- <-; done|].
  apply bind_Ret in Hl as ([ip1 p1] & Hg & Hl). apply bind_Ret in Hl as (s1 & _ & Hl).
  apply bind_Ret in Hg as (fd & _ & Hg). apply bind_Ret in Hg as (s2 & _ & Hg).
  apply bind_Ret in Hg as (s3 & _ & Hg). injection Hg as <- <-. injection Hl as <- <-. cbn. by destruct (negb _).
Qed.

Lemma pool_fake_fields p p' f l :
  ipnet p' = ipnet p ∧ gateway p' = gateway p ∧ last p' = last p → pool_fake p f l → pool_fake p' f l.
Proof.
  intros (H1 & H2 & H3) Hf v Hv. specialize (Hf v Hv). unfold in_pool, IPNet, Gateway, Broadcast in *.
  by rewrite H1, H2, H3.
Qed.

Lemma AddrFromSlice_4 v : 0 ≤ v < 2 ^ 32 → AddrFromSlice (AsSlice (Addr4 v)) = Addr4 v.
Proof. intros Hv. unfold AddrFromSlice, AsSlice. rewrite length_be. cbn [Nat.eqb]. by rewrite unbe_be. Qed.

(** The address of a host leads back to the host. *)
Lemma preHandle_fake (e : Enh) p f l o mp host v m :
  mode e = DNSFakeIP → fakeIPPool e = Some p → pool_at p true f l o mp → pool_fake p f l →
  mp !! host = Some (Addr4 v) → Host m = "" → DstIP m = Addr4 v →
  ∃ m' e', preHandleMetadata now hosts_Search IntN Addr_String (Some e) m = Ret (Ok tt, m', Some e') ∧
    Host m' = host ∧ DstIP m' = AddrZero ∧ DNSMode_ m' = DNSFakeIP.
Proof.
  intros Hmode Hpool Hp Hfake Hmp Hh Hd. unfold preHandleMetadata, needLookupIP.
  cbn [mapper_MappingEnabled]. unfold MappingEnabled. rewrite Hmode, Hh, Hd. simpl andb. cbv iota.
  destruct (LookBack_spec p _ _ _ _ _ (Addr4 v) Hp) as (h & ok & p' & Hb & Hp' & Hok).
  destruct ok; [|destruct Hok as [_ Hn]; by destruct (Hn host)].
  assert (h = host) as ->.
  { by apply (synced_one _ _ (pa_store _ _ _ _ _ _ Hp) h host (Addr4 v)). }
  cbn [mapper_FindHostByIP]. unfold FindHostByIP. rewrite Hpool. cbn [on_pool]. rewrite Hb. run.
  destruct (pa_ips _ _ _ _ _ _ Hp _ _ Hmp) as (v' & [= <-] & Hv).
  assert (ipnet p' = ipnet p ∧ gateway p' = gateway p ∧ last p' = last p) as Hsame.
  { unfold LookBack in Hb. apply bind_Ret in Hb as ([[? ?] ?] & _ & Hb). by injection Hb as _ _ <-. }
  assert (mapper_IsFakeIP (Some (set_pool e p')) (Addr4 v) = true) as Hf.
  { cbn [mapper_IsFakeIP]. unfold IsFakeIP, FakeIPEnabled. cbn [mode set_pool set_pools fakeIPPool].
    rewrite Hmode. cbn [negb Z.eqb DNSFakeIP]. by rewrite (pool_fake_fields p p' f l Hsame Hfake v Hv). }
  replace (DstIP (set_DNSMode_ DNSMapping (set_Host host m))) with (Addr4 v) by (by destruct m).
  rewrite Hf. do 2 eexists. split; [done|]. by destruct m.
Qed.

(** C20: in fake-IP mode with a pool of IPv4 addresses, the DNS service answers a query of
    type A for a host that the skipper does not skip and that is not in the hosts table
    with an address of the pool, and a connection to that address which is handled next is
    handled as a connection to the host: its metadata get the host in lower case, and lose
    the fake address. *)
Theorem dns_fakeip_connection fuel (s : st (S := St) (L := L) (elem := elem) R) p f l o mp sk q qs r :
  let e := enh _ s in
  let host := TrimRight (q_Name q) "." in
  mode e = DNSFakeIP → fakeIPPool e = Some p → pool_at p true f l o mp → pool_fake p f l →
  fakeIPSkipper e = Some sk → ShouldSkipped w subRules fuel sk host = Ret false →
  hosts_Search host false = Ret (None, false) → Questions r = q :: qs → Qtype q = TypeA →
  ∃ msg s' v, newHandler SetRcode R exchange w subRules hosts_Search fuel now e s r = Ret (Ok msg, s') ∧
    msgToIP msg = [Addr4 v] ∧ f ≤ v < l ∧
    ∀ m, Host m = "" → DstIP m = Addr4 v →
      ∃ m' e', preHandleMetadata now hosts_Search IntN Addr_String (Some (enh _ s')) m = Ret (Ok tt, m', Some e') ∧
        Host m' = ToLower host ∧ DstIP m' = AddrZero ∧ DNSMode_ m' = DNSFakeIP.
Proof.
  intros e host Hmode Hpool Hp Hfake Hsk Hskip Hhosts Hq Hqt.
  destruct (Lookup_spec p _ _ _ _ _ host Hp) as (ip & p' & o' & mp' & Hl & Hp' & Hmp' & _).
  destruct (pa_ips _ _ _ _ _ _ Hp' _ _ Hmp') as (v & -> & Hv). change (at_ true v) with (Addr4 v) in *.
  pose proof (pool_fake_fields _ _ _ _ (Lookup_fields _ _ _ _ Hl) Hfake) as Hfake'.
  assert (0 ≤ v < 2 ^ 32) as Hv32 by (destruct (pa_range _ _ _ _ _ _ Hp') as [? ?]; simpl in *; lia).
  set (rr := RR_A (mkHeader (q_Name q) TypeA ClassINET dnsDefaultTTL) (AsSlice (Addr4 v))).
  assert (∀ next, withFakeIP SetRcode R w subRules fuel next s r =
    fake_answer SetRcode R r rr (set_enh R (set_pool e p') s)) as Hfk.
  { intros next. unfold withFakeIP, question. rewrite Hq. run. fold e. rewrite Hsk. fold host. rewrite Hskip. run.
    rewrite Hqt, Hpool. cbn [TypeA Z.eqb Pos.eqb]. rewrite Hl. by run. }
  assert (newHandler SetRcode R exchange w subRules hosts_Search fuel now e s r =
    fake_answer SetRcode R r rr (set_enh R (set_pool e p') s)) as ->.
  { unfold newHandler. rewrite Hmode. cbn [Z.eqb DNSFakeIP DNSNormal negb Pos.eqb].
    destruct (useHosts e); cbn [app compose fold_right]; [|apply Hfk].
    unfold withHosts, question. rewrite Hq. run. destruct (isIPRequest q); cbn [negb]; [|apply Hfk].
    rewrite Hqt. cbn [TypeA TypeAAAA Z.eqb Pos.eqb negb andb]. fold host. rewrite Hhosts. run. apply Hfk. }
  eexists _, _, v. split; [done|]. split; [|split; [done|]].
  - unfold msgToIP, reply. cbn [set_flags Answer]. rewrite SetRcode_Answer.
    cbn [setMsgTTL set_sections set_Answer Answer fmap list_fmap msgToIP_loop answer_ip set_Ttl rr].
    by rewrite AddrFromSlice_4.
  - intros m Hh Hd. cbn [SetType set_enh enh]. by eapply preHandle_fake.
Qed.

End fake.

(** C16: however many rules ask for the address or for the process of a connection,
    choosing its proxy ([resolveMetadata]) asks the resolver for the address at most once
    and the process finder at most once, when the rule providers reach both only through
    the helper that they are given. *)
Theorem tunnel_resolves_once (w : World) (P : Type) (ops : ProxyOps P) proxies subRules now
    dns findProcess findPackage cmfa search intn fuel mode fpm rs m res rs' m' s :
  providers_keep w →
  resolveMetadata w proxies subRules now dns findProcess findPackage cmfa search intn fuel mode fpm rs m =
    Ret (res, (rs', (m', s))) →
  (dnsQueries s ≤ 1 ∧ processLookups s ≤ 1)%nat.
Proof.
  intros Hprov Hr. cut (once s); [intros [? ?]; repeat case_match; lia|]. revert Hr.
  assert (∀ b, once (mkClosure false b 0 0)) as H0 by (intros b; split; simpl; destruct b; lia).
  assert (∀ b, once (mkClosure true b 0 0)) as H1 by (intros b; split; simpl; destruct b; lia).
  unfold resolveMetadata. destruct (negb _); [by intros [= _ _ _ <-]|].
  destruct (hosts_addr _ _ _) as [hosts| |]; cbn [mbind outcome_bind]; try done.
  destruct (match hosts with Some _ => _ | None => _ end) as [m1 s1] eqn:E1.
  assert (once s1) as Hs1 by (destruct hosts; by simplify_eq). clear E1.
  set (full := full_helper proxies dns findProcess findPackage cmfa fuel).
  assert (helper_keeps once full) as Hfull by apply full_helper_once.
  assert (helper_keeps once (mkHelper (ResolveIP full) None (CheckPassRule full))) as Hsilent.
  { split; [exact (proj1 Hfull)|done]. }
  destruct (match fpm with FindProcessStrict => _ | _ => _ end) as [helper [m2 s2]] eqn:E2.
  assert (helper_keeps once helper ∧ once s2) as [Hh Hs2].
  { destruct fpm; injection E2 as <- E2; split; try done; try (by simplify_eq).
    pose proof (helper_FindProcess_once findProcess findPackage cmfa (m1, s1) Hs1) as H.
    change (helper_FindProcess findProcess findPackage cmfa (m1, s1) = (m2, s2)) in E2.
    by rewrite E2 in H. }
  destruct mode; try (by intros [= _ _ _ <-]).
  destruct (match_ _ _ _ _ _ _ _) as [[r [rs2 [m3 s3]]]| |] eqn:Hm; cbn [mbind outcome_bind]; try done.
  intros [= _ _ _ <-]. by apply (match_rounds_keeps w helper once) in Hm.
Qed.

(** ** A sniffed name without its destination *)

(** C39: a connection to a fake address whose record is gone is closed, unless the
    sniffer finds a domain.  If the sniffer that found it does not replace the
    destination, the connection is dialled with the fake address and no host. *)
Theorem sniff_dials_fake_address (w : World) (P : Type) (ops : ProxyOps P) proxies subRules now dns
    findProcess findPackage cmfa search intn ParseAddr Addr_String (St : Type) (store : Store St) (L elem : Type)
    (dl : DList positive L elem) isDomain peek1 peek fuel rs (e e' : ResolverEnhancer (S := St) (L := L) (elem := elem))
    (sd sd' : Dispatcher (L := L) (elem := elem)) host h m :
  Type_ m = HTTP → Host m = "" → SpecialProxy m = "" → IsValid (DstIP m) = true → Unmap (DstIP m) = DstIP m →
  ParseAddr "" = None → search "" false = Ret (None, false) → MappingEnabled e = true →
  FindHostByIP e now (DstIP m) = Ret (h, false, e') → IsFakeIP e' (DstIP m) = true →
  TCPSniff isDomain peek1 peek now sd m = Ret (true, replaceDomain host false m, sd') →
  let handle sniffer := handleTCPConn w proxies subRules now dns findProcess findPackage cmfa search intn
    ParseAddr Addr_String (TCPSniff isDomain peek1 peek now) fuel Running DirectMode FindProcessOff rs (Some e) sniffer m in
  handle None = Ret (Closed, rs, Some e', None) ∧
  ∃ dm, handle (Some sd) = Ret (Dial (proxies !! "DIRECT") None dm, rs, Some e', Some sd') ∧
    Host dm = "" ∧ DstIP dm = DstIP m ∧ IsFakeIP e' (DstIP dm) = true.
Proof.
  intros Ht Hh Hsp Hv Hun Hpa Hse Hme Hf Hfk Hsn handle.
  assert (fixMetadata ParseAddr m = m) as Hfix.
  { unfold fixMetadata. rewrite Hun. assert (set_DstIP (DstIP m) m = m) as -> by (by destruct m).
    by rewrite Hh, Hpa. }
  assert (preHandleMetadata now search intn Addr_String (Some e) m =
    Ret (Err (ErrMsg ("fake DNS record " +:+ Addr_String (DstIP m) +:+ " missing")), m, Some e')) as Hpre.
  { unfold preHandleMetadata, needLookupIP. cbn [mapper_MappingEnabled]. rewrite Hme, Hh, Hv. simpl andb. cbv iota.
    cbn [mapper_FindHostByIP]. rewrite Hf. run. cbn [mapper_IsFakeIP]. by rewrite Hfk. }
  assert (Valid m = true) as Hval by (unfold Valid; by rewrite Hv, orb_true_r).
  unfold handle, handleTCPConn. cbn [isHandle negb]. rewrite Hval, Hfix, Hpre. run. cbn [negb]. split; [done|].
  rewrite Hsn. run. cbn [andb negb].
  assert (Host (replaceDomain host false m) = "" ∧ SpecialProxy (replaceDomain host false m) = "" ∧
    DstIP (replaceDomain host false m) = DstIP m) as (H1 & H2 & H3) by (destruct m; simpl in *; done).
  assert (∃ s, resolveMetadata w proxies subRules now dns findProcess findPackage cmfa search intn fuel
    DirectMode FindProcessOff rs (replaceDomain host false m) =
    Ret (Ok (proxies !! "DIRECT", None), (rs, (replaceDomain host false m, s)))) as [s ->].
  { unfold resolveMetadata, hosts_addr. rewrite H1, H2, Hse, bool_decide_true by done. by eexists. }
  run. rewrite H1. cbn [String.length Nat.eqb negb]. eexists. split; [done|]. by rewrite H1, H3.
Qed.

(** ** Instances of the properties *)

Module Examples.
Import ListModel MemoryStore FakeIP.Examples Rules.Examples Dns.Examples Tunnel.Examples Sniffer.Examples.

Definition no_text (ip : Addr) : string := "".
Definition no_hosts (host : string) (isDomain : bool) : outcome (option HostValue * bool) := Ret (None, false).

(** Two rules on the address, one on the process, and the rest. *)
Definition ip_rules : list Rule :=
  [IPCIDR (mkPrefix (Addr4 (10 * 2 ^ 24)) 8) "G" false false; GEOIP "lan" "G" false false;
   ProcessRule "curl" "G" RT.ProcessName; ProcessRule "/bin/sh" "G" RT.ProcessPath; MatchRule "DIRECT"].

Definition resolved_conn : outcome (result (option px * option Rule) * (list RuleWrapper * (Metadata * closure))) :=
  resolveMetadata small_world proxies sub_rules 0 (λ _ _, Some (Addr4 16843009)) (λ _ _ _, Some (0, "/usr/bin/wget"))
    (λ _, None) false no_hosts (λ _, 0%nat) 9 RuleMode FindProcessStrict (NewRuleWrapper <$> ip_rules)
    (set_Host "h.com" zeroMetadata).

Lemma tunnel_resolves_once_witness :
  ∃ res rs m s, resolved_conn = Ret (res, (rs, (m, s))) ∧ res = Ok (Some Direct, Some (MatchRule "DIRECT")) ∧
    DstIP m = Addr4 16843009 ∧ Process m = "wget" ∧ (dnsQueries s ≤ 1 ∧ processLookups s ≤ 1)%nat.
Proof.
  do 4 eexists. split; [vm_compute; reflexivity|]. do 3 (split; [reflexivity|]).
  eapply (tunnel_resolves_once small_world px px_ops proxies sub_rules 0 (λ _ _, Some (Addr4 16843009))
    (λ _ _ _, Some (0, "/usr/bin/wget")) (λ _, None) false no_hosts (λ _, 0%nat) 9 RuleMode FindProcessStrict
    (NewRuleWrapper <$> ip_rules) (set_Host "h.com" zeroMetadata)).
  - by intros ? ? ? ? ? ? ? ? [=].
  - vm_compute. reflexivity.
Defined.

Abbreviation LL := (list (nat * positive)).
Abbreviation EE := (nat * positive)%type.

(** An enhancer with a pool of three addresses. *)
Definition fake_enhancer : ResolverEnhancer (S := MS) (L := LL) (elem := EE) :=
  NewEnhancer (mkEnhancerConfig false DNSFakeIP (Some (pool_of net_a 2)) None
    (Some (mkSkipper [] [] FilterBlackList)) 1 true).

Lemma pool_a_fake : pool_fake (pool_of net_a 2) 3323068420 3323068423.
Proof.
  intros v Hv. assert (v = 3323068420 ∨ v = 3323068421 ∨ v = 3323068422) as [->|[->| ->]] by lia; reflexivity.
Qed.

Definition no_upstream (r : unit) (m : Msg) : outcome (result Msg * unit) := Ret (Err EOF, r).
Definition query_a : Msg := mkMsg 9 false false 0 [mkQuestion "Example.COM." 1 1] [] [] [].

Lemma dns_fakeip_connection_witness :
  ∃ msg s' v, newHandler set_rcode unit no_upstream small_world ∅ no_hosts 1 0 fake_enhancer
      (mkSt unit "" fake_enhancer tt) query_a = Ret (Ok msg, s') ∧
    msgToIP msg = [Addr4 v] ∧ 3323068420 ≤ v < 3323068423 ∧
    ∀ m, Host m = "" → DstIP m = Addr4 v →
      ∃ m' e', preHandleMetadata 0 no_hosts (λ _, 0%nat) no_text (Some (enh unit s')) m = Ret (Ok tt, m', Some e') ∧
        Host m' = "example.com" ∧ DstIP m' = AddrZero ∧ DNSMode_ m' = DNSFakeIP.
Proof.
  apply (dns_fakeip_connection small_world ∅ 0 set_rcode (λ _ _ _, eq_refl) unit no_upstream no_hosts (λ _, 0%nat) no_text
    1 (mkSt unit "" fake_enhancer tt) (pool_of net_a 2) 3323068420 3323068423 3323068419 ∅
    (mkSkipper [] [] FilterBlackList) (mkQuestion "Example.COM." 1 1) [] query_a); try reflexivity.
  - apply (pool_a_at 2).
  - apply pool_a_fake.
Defined.

(** The enhancer and the dispatcher after the connection to an address without record. *)
Definition enhancer_after : ResolverEnhancer (S := MS) (L := LL) (elem := EE) :=
  match FindHostByIP fake_enhancer 0 (DstIP to_443) with Ret (_, _, e) => e | _ => fake_enhancer end.
Definition dispatcher_after : Dispatcher (L := LL) (elem := EE) :=
  match TCPSniff any_name (Ok 30) peek_flight 0 dispatcher to_443 with Ret (_, _, d) => d | _ => dispatcher end.

Lemma sniffs_to_443 :
  TCPSniff any_name (Ok 30) peek_flight 0 dispatcher to_443 =
    Ret (true, replaceDomain "a.io" false to_443, dispatcher_after).
Proof.
  unfold dispatcher_after. set (r := TCPSniff _ _ _ _ _ _).
  assert (match r with Ret (b, m, _) => Some (b, m) | _ => None end =
    Some (true, replaceDomain "a.io" false to_443)) as Hr by (vm_compute; reflexivity).
  clearbody r. destruct r as [[[b m] d]| |]; [|discriminate Hr..]. by injection Hr as -> ->.
Qed.

Lemma sniff_dials_fake_address_witness :
  ∃ dm, handleTCPConn small_world proxies sub_rules 0 (λ _ _, None) (λ _ _ _, None) (λ _, None) false no_hosts
      (λ _, 0%nat) (λ _, None) no_text (TCPSniff any_name (Ok 30) peek_flight 0) 9 Running DirectMode FindProcessOff []
      (Some fake_enhancer) (Some dispatcher) to_443 = Ret (Dial (proxies !! "DIRECT") None dm, [], Some enhancer_after, Some dispatcher_after) ∧
    Host dm = "" ∧ DstIP dm = Addr4 3323068421 ∧ IsFakeIP enhancer_after (DstIP dm) = true.
Proof.
  apply (sniff_dials_fake_address small_world px px_ops proxies sub_rules 0 (λ _ _, None) (λ _ _ _, None)
    (λ _, None) false no_hosts (λ _, 0%nat) (λ _, None) no_text MS memory_store LL EE list_DList any_name (Ok 30) peek_flight
    9 [] fake_enhancer enhancer_after dispatcher dispatcher_after "a.io" "" to_443).
  11: exact sniffs_to_443.
  all: vm_compute; reflexivity.
Defined.
End Examples.
