(* ===== verification/GoFloat.v ===== *)
(** * Floating point numbers and their text

    Go's [float64] and [float32] as the binary formats of [SpecFloat], their
    conversions from and to integers, [math.Mod], and what [strconv] and [fmt] do with
    numbers: [ParseInt] in a base, [ParseFloat], and the shortest text that is read
    back as the same number.  Everything computes. *)

From Stdlib Require Import Ascii.
From Corelib Require Import Floats.SpecFloat.
From S2P Require Import Prelude GoStrings.

Abbreviation float := spec_float.

(** Precision and largest exponent of a format. *)
Record format := mkFormat { fprec : Z; femax : Z; fdigits : nat }.
Definition binary64 : format := mkFormat 53 1024 17.
Definition binary32 : format := mkFormat 24 128 9.

(** ** Arithmetic *)

Definition fadd : float → float → float := SFadd 53 1024.
Definition fsub : float → float → float := SFsub 53 1024.
Definition fmul : float → float → float := SFmul 53 1024.
Definition fdiv : float → float → float := SFdiv 53 1024.

(** [float64(z)]. *)
Definition float_of_Z (z : Z) : float := binary_normalize 53 1024 z 0 false.

Definition signed (neg : bool) (z : Z) : Z := if neg then - z else z.

(** The integer part of a finite number. *)
Definition trunc (f : float) : option Z :=
  match f with
  | S754_zero _ => Some 0
  | S754_finite neg m e => Some (signed neg (Z.shiftl (Z.pos m) e))
  | _ => None
  end.

(** [int(f)].  When the integer part does not fit, Go leaves the result to the
    implementation: it is the one of amd64. *)
Definition int_of_float (f : float) : Z :=
  match trunc f with
  | Some z => if (- 2 ^ 63 <=? z) && (z <? 2 ^ 63) then z else - 2 ^ 63
  | None => - 2 ^ 63
  end.

(** [math.Mod]. *)
Definition fmod (x y : float) : float :=
  match x, y with
  | S754_nan, _ | _, S754_nan | S754_infinity _, _ | _, S754_zero _ => S754_nan
  | S754_zero _, _ | _, S754_infinity _ => x
  | S754_finite neg mx ex, S754_finite _ my ey =>
    let e := Z.min ex ey in
    let r := Z.shiftl (Z.pos mx) (ex - e) mod Z.shiftl (Z.pos my) (ey - e) in
    binary_normalize 53 1024 (signed neg r) e neg
  end.

(** ** Integers in a base *)

Definition byte_val (a : ascii) : Z := Z.of_nat (nat_of_ascii a).

Definition base_digit (base : Z) (a : ascii) : option Z :=
  let n := byte_val a in
  let d :=
    if (48 <=? n) && (n <=? 57) then Some (n - 48)
    else if (97 <=? n) && (n <=? 122) then Some (n - 87)
    else if (65 <=? n) && (n <=? 90) then Some (n - 55)
    else None in
  match d with
  | Some d => if d <? base then Some d else None
  | None => None
  end.

Fixpoint base_digits (base : Z) (s : string) (acc : Z) : option Z :=
  match s with
  | EmptyString => Some acc
  | String a s =>
    match base_digit base a with
    | Some d => base_digits base s (acc * base + d)
    | None => None
    end
  end.

(** [strconv.ParseInt(s, base, 64)] for a base other than 0. *)
Definition ParseIntBase (s : string) (base : Z) : option Z :=
  let '(neg, s) := match s with
                   | String "-" s => (true, s)
                   | String "+" s => (false, s)
                   | _ => (false, s)
                   end in
  if bool_decide (s = "") then None
  else
    match base_digits base s 0 with
    | Some v =>
      if negb neg && (2 ^ 63 <=? v) then None
      else if neg && (2 ^ 63 <? v) then None
      else Some (signed neg v)
    | None => None
    end.

(** ** Reading floating point numbers *)

(** The nearest number to [m * 10^e]. *)
Definition round_decimal (f : format) (neg : bool) (m : Z) (e : Z) : float :=
  match m with
  | Z.pos p =>
    if 0 <=? e then binary_normalize (fprec f) (femax f) (signed neg (m * 10 ^ e)) 0 neg
    else
      let '(q, e', l) := SFdiv_core_binary (fprec f) (femax f) m 0 (10 ^ (- e)) 0 in
      binary_round_aux (fprec f) (femax f) neg q e' l
  | _ => S754_zero neg
  end.

Definition lower (a : ascii) : ascii := lower_byte a.

(** What [readFloat] has seen of the mantissa. *)
Record mantissa := mkMantissa {
  mant : Z;             (* the digits *)
  fraction : Z;         (* the number of them after the point *)
  sawdot : bool;
  sawdigits : bool;
}.

Definition is_hex_digit (a : ascii) : bool :=
  match base_digit 16 a with Some _ => true | None => false end.

Fixpoint read_mantissa (base : Z) (s : string) (st : mantissa) : mantissa * string :=
  match s with
  | EmptyString => (st, s)
  | String "_" r => read_mantissa base r st
  | String "." r =>
    if sawdot st then (st, s) else read_mantissa base r (mkMantissa (mant st) (fraction st) true (sawdigits st))
  | String a r =>
    match base_digit base a with
    | Some d =>
      read_mantissa base r
        (mkMantissa (mant st * base + d) (if sawdot st then fraction st + 1 else fraction st) (sawdot st) true)
    | None => (st, s)
    end
  end.

(** The digits of an exponent; more than five of them make no difference. *)
Fixpoint read_exponent (s : string) (e : Z) : Z * string :=
  match s with
  | EmptyString => (e, s)
  | String "_" r => read_exponent r e
  | String a r =>
    match digit a with
    | Some d => read_exponent r (if e <? 10000 then e * 10 + d else e)
    | None => (e, s)
    end
  end.

(** [underscoreOK]: the last character was a digit, an underscore or neither. *)
Inductive saw := SawNone | SawDigit | SawUnderscore | SawOther.

Fixpoint underscore_loop (hex : bool) (s : string) (last : saw) : bool :=
  match s with
  | EmptyString => match last with SawUnderscore => false | _ => true end
  | String a r =>
    if is_digit a || (hex && is_hex_digit a) then underscore_loop hex r SawDigit
    else if Ascii.eqb a "_" then
      match last with SawDigit => underscore_loop hex r SawUnderscore | _ => false end
    else match last with SawUnderscore => false | _ => underscore_loop hex r SawOther end
  end.

Definition strip_sign (s : string) : bool * string :=
  match s with
  | String "-" r => (true, r)
  | String "+" r => (false, r)
  | _ => (false, s)
  end.

Definition underscoreOK (s : string) : bool :=
  match (strip_sign s).2 with
  | String "0" (String b r as r0) as s =>
    if bool_decide (lower b ∈ ["b"; "o"; "x"]%char) then underscore_loop (Ascii.eqb (lower b) "x") r SawDigit
    else underscore_loop false s SawNone
  | s => underscore_loop false s SawNone
  end.

Definition special_float (s : string) : option float :=
  let '(neg, r) := strip_sign s in
  let r := ToLower r in
  if bool_decide (r = "inf") || bool_decide (r = "infinity") then Some (S754_infinity neg)
  else if bool_decide (ToLower s = "nan") then Some S754_nan
  else None.

(** [readFloat] and the rounding of what it read; the base is 16 after "0x". *)
Definition read_float (f : format) (s : string) : option float :=
  let '(neg, r) := strip_sign s in
  let '(base, r) := match r with
                    | String "0" (String x (String _ _ as r')) =>
                      if Ascii.eqb (lower x) "x" then (16, r') else (10, r)
                    | _ => (10, r)
                    end in
  let '(st, r) := read_mantissa base r (mkMantissa 0 0 false false) in
  if negb (sawdigits st) then None
  else
    let expChar := if base =? 16 then "p"%char else "e"%char in
    let exponent :=
      match r with
      | String c r' =>
        if Ascii.eqb (lower c) expChar then
          let '(eneg, r') := strip_sign r' in
          match r' with
          | String d _ =>
            if is_digit d then let '(e, r'') := read_exponent r' 0 in Some (signed eneg e, r'') else None
          | EmptyString => None
          end
        else if base =? 16 then None else Some (0, r)
      | EmptyString => if base =? 16 then None else Some (0, r)
      end in
    match exponent with
    | Some (e, EmptyString) =>
      if has_byte "_" s && negb (underscoreOK s) then None
      else if base =? 16 then
        Some (binary_normalize (fprec f) (femax f) (signed neg (mant st)) (e - 4 * fraction st) neg)
      else Some (round_decimal f neg (mant st) (e - fraction st))
    | _ => None
    end.

(** [strconv.ParseFloat(s, 64)]; a number that is too large is an error. *)
Definition ParseFloat (s : string) : option float :=
  match special_float s with
  | Some f => Some f
  | None =>
    match read_float binary64 s with
    | Some (S754_infinity _) => None
    | r => r
    end
  end.

(** ** Printing floating point numbers *)

(** The position of the decimal point: the number is below [10^k] and not below
    [10^(k-1)], for a fraction of two integers. *)
Fixpoint point_up (fuel : nat) (num den : Z) (k : Z) : Z :=
  match fuel with
  | O => k
  | S fuel => if den * 10 ^ k <=? num then point_up fuel num den (k + 1) else k
  end.

Fixpoint point_down (fuel : nat) (num den : Z) (k : Z) : Z :=
  match fuel with
  | O => k
  | S fuel => if num * 10 ^ (1 - k) <? den then point_down fuel num den (k - 1) else k
  end.

Definition decimal_point (num den : Z) : Z :=
  if den <=? num then point_up 400 num den 1 else point_down 400 num den 0.

(** [n] digits of a fraction below [10^k]: the lower one, the upper one, and which of
    them is nearer (the even one when neither is). *)
Definition digit_candidates (num den k : Z) (n : nat) : Z * Z :=
  let s := Z.of_nat n - k in
  let '(num, den) := if 0 <=? s then (num * 10 ^ s, den) else (num, den * 10 ^ (- s)) in
  let q := num / den in
  let r := num mod den in
  if (2 * r <? den) || ((2 * r =? den) && Z.even q) then (q, q + 1) else (q + 1, q).

(** The fewest digits that are read back as the number, the nearest of them first. *)
Fixpoint shortest (f : format) (x : float) (num den k : Z) (n todo : nat) : Z * nat :=
  let '(a, b) := digit_candidates num den k n in
  let back d := SFeqb (round_decimal f false d (k - Z.of_nat n)) x in
  match todo with
  | O => (a, n)
  | S todo =>
    if back a then (a, n) else if back b then (b, n) else shortest f x num den k (S n) todo
  end.

Fixpoint strip_zeros (n : nat) (q : Z) : Z :=
  match n with
  | O => q
  | S n => if q mod 10 =? 0 then strip_zeros n (q / 10) else q
  end.

(** Digits and decimal point of a positive number: 0.d1d2d3... times [10^point]. *)
Definition shortest_decimal (f : format) (m : positive) (e : Z) : string * Z :=
  let num := Z.shiftl (Z.pos m) (Z.max e 0) in
  let den := Z.shiftl 1 (Z.max (- e) 0) in
  let k := decimal_point num den in
  let '(q, n) := shortest f (S754_finite false m e) num den k 1 (pred (fdigits f)) in
  let digits := FormatUint q in
  (FormatUint (strip_zeros n q), k + Z.of_nat (String.length digits) - Z.of_nat n).

Fixpoint zeros (n : nat) : string :=
  match n with O => "" | S n => String "0" (zeros n) end.

(** [%e] with the digits that are given, and [%f]. *)
Definition format_e (digits : string) (point : Z) : string :=
  let exp := point - 1 in
  let body :=
    match digits with
    | String d EmptyString => String d ""
    | String d r => String d ("." +:+ r)
    | EmptyString => ""
    end in
  let a := Z.abs exp in
  body +:+ "e" +:+ (if exp <? 0 then "-" else "+") +:+ (if a <? 10 then "0" else "") +:+ FormatUint a.

Definition format_f (digits : string) (point : Z) : string :=
  let n := Z.of_nat (String.length digits) in
  if point <=? 0 then "0." +:+ zeros (Z.to_nat (- point)) +:+ digits
  else if n <=? point then digits +:+ zeros (Z.to_nat (point - n))
  else
    String.substring 0 (Z.to_nat point) digits +:+ "." +:+
    String.substring (Z.to_nat point) (String.length digits) digits.

(** [fmt.Sprint(x)]: [%g] with the shortest digits, where an exponent below -4 or of
    6 and more is written out. *)
Definition FormatFloat (f : format) (x : float) : string :=
  match x with
  | S754_nan => "NaN"
  | S754_infinity neg => if neg then "-Inf" else "+Inf"
  | S754_zero neg => if neg then "-0" else "0"
  | S754_finite neg m e =>
    let '(digits, point) := shortest_decimal f m e in
    let exp := point - 1 in
    (if neg then "-" else "") +:+
    (if (exp <? -4) || (6 <=? exp) then format_e digits point else format_f digits point)
  end.
