(* ===== verification/ExprValue.v ===== *)
(** * Values of override expressions (src/adapter/provider/override_expr.go)

    The values that a decoded proxy holds: null, booleans, numbers of Go's types,
    strings, arrays and mappings; and the marker [overrideNoMatch] of an expression
    without a result.  A mapping is a list of its entries in the order of the keys, so
    that equality of mappings is equality of lists; the invariant is [sorted_keys].
    Values that YAML decodes to other Go types (times, mappings with keys that are not
    strings) are left out.

    The file holds the operations on values: type names, numbers, equality, order,
    containment, merging, flattening, and the binary operators. *)

From Stdlib Require Import Ascii.
From Corelib Require Import Floats.SpecFloat.
From stdpp Require Import sorting.
From S2P Require Import Prelude Wire GoStrings GoFloat Runes.

(** ** Values *)

(** Go's integer types. *)
Inductive intkind : Type :=
| Int | Int8 | Int16 | Int32 | Int64 | Uint | Uint8 | Uint16 | Uint32 | Uint64.

#[global] Instance intkind_eq_dec : EqDecision intkind.
Proof. solve_decision. Defined.

Definition kind_name (k : intkind) : string :=
  match k with
  | Int => "int" | Int8 => "int8" | Int16 => "int16" | Int32 => "int32" | Int64 => "int64"
  | Uint => "uint" | Uint8 => "uint8" | Uint16 => "uint16" | Uint32 => "uint32" | Uint64 => "uint64"
  end.

(** The Go interface type [any], for the values above. *)
Inductive any : Type :=
| ANil
| ABool (b : bool)
| AInt (k : intkind) (z : Z)
| AFloat64 (f : float)
| AFloat32 (f : float)
| AStr (s : string)
| ASeq (l : list any)
| AMap (m : list (string * any))
| ANoMatch.

Section any_ind.
Context (P : any → Prop).
Context (HNil : P ANil) (HBool : ∀ b, P (ABool b)) (HInt : ∀ k z, P (AInt k z)) (H64 : ∀ f, P (AFloat64 f))
  (H32 : ∀ f, P (AFloat32 f)) (HStr : ∀ s, P (AStr s)) (HSeq : ∀ l, Forall P l → P (ASeq l))
  (HMap : ∀ m, Forall (λ e, P e.2) m → P (AMap m)) (HNo : P ANoMatch).

(** Induction into arrays and mappings. *)
Fixpoint any_ind' (v : any) : P v :=
  match v with
  | ANil => HNil
  | ABool b => HBool b
  | AInt k z => HInt k z
  | AFloat64 f => H64 f
  | AFloat32 f => H32 f
  | AStr s => HStr s
  | ASeq l =>
    HSeq l ((fix go l : Forall P l :=
      match l with
      | [] => Forall_nil_2 _
      | v :: l => Forall_cons_2 _ _ _ (any_ind' v) (go l)
      end) l)
  | AMap m =>
    HMap m ((fix go m : Forall (λ e, P e.2) m :=
      match m with
      | [] => Forall_nil_2 _
      | e :: m => Forall_cons_2 _ _ _ (any_ind' e.2) (go m)
      end) m)
  | ANoMatch => HNo
  end.
End any_ind.

#[global] Instance spec_float_eq_dec : EqDecision spec_float.
Proof. solve_decision. Defined.

(** ** Mappings *)

(** The order of [sort.Strings]. *)
Fixpoint string_ltb (s t : string) : bool :=
  match s, t with
  | _, EmptyString => false
  | EmptyString, String _ _ => true
  | String a s, String b t =>
    if Ascii.eqb a b then string_ltb s t else (nat_of_ascii a <? nat_of_ascii b)%nat
  end.

Definition mapping : Type := list (string * any).

(** [m[key]] with its second result, and without it. *)
Fixpoint mget {A} (m : list (string * A)) (key : string) : option A :=
  match m with
  | [] => None
  | (k, v) :: m => if bool_decide (k = key) then Some v else mget m key
  end.

Definition mindex (m : mapping) (key : string) : any := default ANil (mget m key).

(** [m[key] = v]. *)
Fixpoint mset {A} (m : list (string * A)) (key : string) (v : A) : list (string * A) :=
  match m with
  | [] => [(key, v)]
  | (k, x) :: r =>
    if bool_decide (k = key) then (key, v) :: r
    else if string_ltb key k then (key, v) :: m
    else (k, x) :: mset r key v
  end.

(** [delete(m, key)]. *)
Fixpoint mdelete {A} (m : list (string * A)) (key : string) : list (string * A) :=
  match m with
  | [] => []
  | (k, x) :: r => if bool_decide (k = key) then r else (k, x) :: mdelete r key
  end.

(** ** Types and numbers *)

Definition overrideNumber (value : any) : option (float * bool) :=
  match value with
  | AInt _ z => Some (float_of_Z z, true)
  | AFloat32 f | AFloat64 f => Some (f, false)
  | _ => None
  end.

Definition isOverrideScalar (value : any) : bool :=
  match value with
  | ANil | ABool _ | AStr _ => true
  | _ => match overrideNumber value with Some _ => true | None => false end
  end.

Definition overrideTruthy (value : any) : bool :=
  match value with
  | ANil => false
  | ABool b => b
  | _ => true
  end.

Definition overrideType (value : any) : string :=
  match value with
  | ANil => "!!null"
  | ABool _ => "!!bool"
  | AStr _ => "!!str"
  | ASeq _ => "!!seq"
  | AMap _ => "!!map"
  | AFloat32 _ | AFloat64 _ => "!!float"
  | AInt _ _ => "!!int"
  | ANoMatch => "provider.overrideNoMatch"
  end.

(** [fmt.Sprint] of a value that is neither an array nor a mapping. *)
Definition Sprint (value : any) : string :=
  match value with
  | ANil => "<nil>"
  | ABool b => if b then "true" else "false"
  | AInt _ z => FormatInt z
  | AFloat64 f => FormatFloat binary64 f
  | AFloat32 f => FormatFloat binary32 f
  | AStr s => s
  | _ => "{}"
  end.

(** ** Equality and order *)

(** [reflect.DeepEqual]: the types are equal, and numbers are compared by [==]. *)
Fixpoint DeepEqual (left right : any) {struct left} : bool :=
  match left, right with
  | ANil, ANil => true
  | ABool a, ABool b => bool_decide (a = b)
  | AInt k a, AInt k' b => bool_decide (k = k') && (a =? b)
  | AFloat64 a, AFloat64 b => SFeqb a b
  | AFloat32 a, AFloat32 b => SFeqb a b
  | AStr a, AStr b => bool_decide (a = b)
  | ASeq a, ASeq b =>
    (fix go a b := match a, b with
                   | [], [] => true
                   | x :: a, y :: b => DeepEqual x y && go a b
                   | _, _ => false
                   end) a b
  | AMap a, AMap b =>
    (fix go (a b : mapping) := match a, b with
                   | [], [] => true
                   | (k, x) :: a, (k', y) :: b => bool_decide (k = k') && DeepEqual x y && go a b
                   | _, _ => false
                   end) a b
  | ANoMatch, ANoMatch => true
  | _, _ => false
  end.

Definition overrideEqual (left right : any) : bool :=
  match overrideNumber left with
  | Some (leftNumber, leftInteger) =>
    match overrideNumber right with
    | Some (rightNumber, rightInteger) => bool_decide (leftInteger = rightInteger) && SFeqb leftNumber rightNumber
    | None => false
    end
  | None => DeepEqual left right
  end.

Definition is_nil (value : any) : bool := match value with ANil => true | _ => false end.

Definition overrideYQEqual (left right : any) : bool :=
  if negb (isOverrideScalar left) || negb (isOverrideScalar right) then false
  else if is_nil left || is_nil right then is_nil left && is_nil right
  else
    match overrideNumber left, overrideNumber right with
    | Some (leftNumber, leftInteger), Some (rightNumber, rightInteger) =>
      bool_decide (leftInteger = rightInteger) && SFeqb leftNumber rightNumber
    | _, _ => bool_decide (Sprint left = Sprint right)
    end.

(** [strings.Compare]. *)
Definition string_compare (s t : string) : Z :=
  if bool_decide (s = t) then 0 else if string_ltb s t then -1 else 1.

Definition compareOverrideValues (left right : any) : result Z :=
  match overrideNumber left with
  | Some (leftNumber, _) =>
    match overrideNumber right with
    | None => Err (ErrMsg ("cannot compare number and " +:+ overrideType right))
    | Some (rightNumber, _) =>
      if SFltb leftNumber rightNumber then Ok (-1) else if SFltb rightNumber leftNumber then Ok 1 else Ok 0
    end
  | None =>
    match left, right with
    | AStr leftString, AStr rightString => Ok (string_compare leftString rightString)
    | _, _ => Err (ErrMsg ("cannot compare " +:+ overrideType left +:+ " and " +:+ overrideType right))
    end
  end.

Definition sort_rank (value : any) : Z :=
  match value with
  | ANil => 0
  | ABool _ => 1
  | AStr _ => 3
  | ASeq _ | AMap _ => 4
  | _ => match overrideNumber value with Some _ => 2 | None => 4 end
  end.

Definition compareOverrideSortValues (left right : any) : result Z :=
  let leftRank := sort_rank left in
  let rightRank := sort_rank right in
  if negb (leftRank =? rightRank) then if leftRank <? rightRank then Ok (-1) else Ok 1
  else if leftRank =? 0 then Ok 0
  else if leftRank =? 1 then
    match left, right with
    | ABool leftBool, ABool rightBool =>
      if bool_decide (leftBool = rightBool) then Ok 0 else if negb leftBool then Ok (-1) else Ok 1
    | _, _ => Ok 0
    end
  else if (leftRank =? 2) || (leftRank =? 3) then compareOverrideValues left right
  else Err (ErrMsg "sort only supports scalar array values in override-expr").

(** ** Collections *)

Fixpoint cloneOverrideValue (value : any) : any :=
  match value with
  | AMap m => AMap ((λ e, (e.1, cloneOverrideValue e.2)) <$> m)
  | ASeq l => ASeq (cloneOverrideValue <$> l)
  | _ => value
  end.

Fixpoint overrideContains (container contained : any) {struct container} : bool :=
  match container with
  | AStr s => match contained with AStr value => GoStrings.Contains s value | _ => false end
  | ASeq l =>
    let values := match contained with ASeq values => values | _ => [contained] end in
    forallb (λ wanted, existsb (λ candidate, overrideEqual candidate wanted || overrideContains candidate wanted) l)
      values
  | AMap m =>
    match contained with
    | AMap values =>
      forallb (λ e,
        (fix find (m : mapping) := match m with
         | [] => false
         | (k, candidate) :: m =>
           if bool_decide (k = e.1) then overrideEqual candidate e.2 || overrideContains candidate e.2 else find m
         end) m) values
    | _ => false
    end
  | _ => false
  end.

(** [mergeOverrideMaps(left, right)], by recursion into [right]; the entries of [right]
    do not depend on each other, so their order makes no difference. *)
Fixpoint merge_values (left right : any) {struct right} : any :=
  match left, right with
  | AMap leftMap, AMap rightMap =>
    AMap ((fix go (result rightMap : mapping) :=
      match rightMap with
      | [] => result
      | (key, rightValue) :: rightMap => go (mset result key (merge_values (mindex result key) rightValue)) rightMap
      end) ((λ e, (e.1, cloneOverrideValue e.2)) <$> leftMap) rightMap)
  | _, _ => cloneOverrideValue right
  end.

Definition mergeOverrideMaps (left right : mapping) : any := merge_values (AMap left) (AMap right).

(** A negative [depth] is no limit. *)
Fixpoint flatten_value (depth : Z) (value : any) {struct value} : list any :=
  match value with
  | ASeq children =>
    if depth =? 0 then [cloneOverrideValue value]
    else
      let nextDepth := if 0 <? depth then depth - 1 else depth in
      mjoin (flatten_value nextDepth <$> children)
  | _ => [cloneOverrideValue value]
  end.

Definition flattenOverrideArray (values : list any) (depth : Z) : list any :=
  mjoin (flatten_value depth <$> values).

Definition overrideCollectionValues (input : any) : result (list any) :=
  match input with
  | ASeq l => Ok l
  | AMap m => Ok m.*2
  | _ => Err (ErrMsg ("expected array or mapping, got " +:+ overrideType input))
  end.

Definition entry (key value : any) : any := AMap [("key", key); ("value", cloneOverrideValue value)].

(** None for null. *)
Definition toOverrideEntries (input : any) : result (option (list any)) :=
  match input with
  | ANil => Ok None
  | ASeq l => Ok (Some (imap (λ idx item, entry (AInt Int (Z.of_nat idx)) item) l))
  | AMap m => Ok (Some ((λ e, entry (AStr e.1) e.2) <$> m))
  | _ => Err (ErrMsg (overrideType input +:+ " has no keys"))
  end.

Fixpoint from_entries_loop (idx : Z) (entries : list any) (m : mapping) : result mapping :=
  match entries with
  | [] => Ok m
  | item :: entries =>
    let at_ := "entry " +:+ FormatInt idx in
    match item with
    | AMap e =>
      match mget e "key" with
      | None => Err (ErrMsg (at_ +:+ " has no key"))
      | Some key =>
        match mget e "value" with
        | None => Err (ErrMsg (at_ +:+ " has no value"))
        | Some value =>
          match key with
          | AStr keyString => from_entries_loop (idx + 1) entries (mset m keyString (cloneOverrideValue value))
          | _ => Err (ErrMsg (at_ +:+ " key must be a string in override-expr"))
          end
        end
      end
    | _ => Err (ErrMsg (at_ +:+ " must be a mapping"))
    end
  end.

Definition fromOverrideEntries (input : any) : result mapping :=
  match input with
  | ASeq entries => from_entries_loop 0 entries []
  | _ => Err (ErrMsg "from_entries only supports arrays")
  end.

(** ** Strings *)

(** The size of the first rune of a string that is not empty; 1 for a malformed one. *)
Definition rune_size (s : list Z) : nat :=
  match s with
  | b0 :: b1 :: b2 :: b3 :: _ =>
    if lead2 b0 && cont b1 then 2
    else if lead3 b0 && second b0 b1 && cont b2 then 3
    else if lead4 b0 && second b0 b1 && cont b2 && cont b3 then 4
    else 1
  | [b0; b1; b2] =>
    if lead2 b0 && cont b1 then 2
    else if lead3 b0 && second b0 b1 && cont b2 then 3
    else 1
  | [b0; b1] => if lead2 b0 && cont b1 then 2 else 1
  | _ => 1
  end.

(** One string for every rune. *)
Fixpoint explode (fuel : nat) (s : string) : list string :=
  match fuel, s with
  | S fuel, String _ _ =>
    let n := rune_size (sbytes s) in
    String.substring 0 n s :: explode fuel (String.substring n (String.length s) s)
  | _, _ => []
  end.

(** [skip] bytes of a separator are left to pass over. *)
Fixpoint split_loop (sep : string) (skip : nat) (s part : string) : list string :=
  match s with
  | EmptyString => [part]
  | String a r =>
    match skip with
    | S skip => split_loop sep skip r part
    | O =>
      if HasPrefix s sep then part :: split_loop sep (pred (String.length sep)) r ""
      else split_loop sep 0 r (part +:+ String a "")
    end
  end.

(** [strings.Split]. *)
Definition SplitString (s sep : string) : list string :=
  if bool_decide (sep = "") then explode (String.length s) s else split_loop sep 0 s "".

(** [strings.Join]. *)
Fixpoint JoinString (parts : list string) (sep : string) : string :=
  match parts with
  | [] => ""
  | [p] => p
  | p :: parts => p +:+ sep +:+ JoinString parts sep
  end.

(** [strings.Repeat]. *)
Fixpoint Repeat (s : string) (count : nat) : string :=
  match count with
  | O => ""
  | S count => s +:+ Repeat s count
  end.

(** ** Operators *)

(** [%q] for an operator, which has nothing to escape. *)
Definition quoted (operator : string) : string := String "034" operator +:+ String "034" "".

Definition evaluateOverrideNumbers (operator : string) (left right : any) : result any :=
  match overrideNumber left, overrideNumber right with
  | Some (leftNumber, leftInteger), Some (rightNumber, rightInteger) =>
    let integers := leftInteger && rightInteger in
    let l := int_of_float leftNumber in
    let r := int_of_float rightNumber in
    if bool_decide (operator = "+") then
      Ok (if integers then AInt Int (i64 (l + r)) else AFloat64 (fadd leftNumber rightNumber))
    else if bool_decide (operator = "-") then
      Ok (if integers then AInt Int (i64 (l - r)) else AFloat64 (fsub leftNumber rightNumber))
    else if bool_decide (operator = "*") then
      Ok (if integers then AInt Int (i64 (l * r)) else AFloat64 (fmul leftNumber rightNumber))
    else if bool_decide (operator = "/") then Ok (AFloat64 (fdiv leftNumber rightNumber))
    else if bool_decide (operator = "%") then
      if integers then
        if SFeqb rightNumber (S754_zero false) then Err (ErrMsg "cannot modulo by zero")
        else Ok (AInt Int (i64 (Z.rem l r)))
      else Ok (AFloat64 (fmod leftNumber rightNumber))
    else Err (ErrMsg ("unsupported numeric operator " +:+ quoted operator))
  | _, _ =>
    Err (ErrMsg ("operator " +:+ operator +:+ " cannot be used with " +:+ overrideType left +:+ " and " +:+
      overrideType right))
  end.

(** A string times a number. *)
Definition multiply_string (value : string) (count : any) : result any :=
  match overrideNumber count with
  | Some (count, true) =>
    if SFltb count (S754_zero false) then Err (ErrMsg "string multiplier must be a non-negative integer")
    else if SFltb (float_of_Z 10000000) count then Err (ErrMsg "string multiplier cannot exceed 10 million")
    else Ok (AStr (Repeat value (Z.to_nat (int_of_float count))))
  | _ => Err (ErrMsg "string multiplier must be a non-negative integer")
  end.

Definition evaluate_compare (operator : string) (left right : any) : result any :=
  if negb (isOverrideScalar left) || negb (isOverrideScalar right) then
    Err (ErrMsg ("cannot compare " +:+ overrideType left +:+ " and " +:+ overrideType right))
  else if is_nil left || is_nil right then
    let bothNull := is_nil left && is_nil right in
    Ok (ABool (bothNull && (bool_decide (operator = "<=") || bool_decide (operator = ">="))))
  else
    comparison ← compareOverrideValues left right;
    Ok (ABool (if bool_decide (operator = "<") then comparison <? 0
               else if bool_decide (operator = "<=") then comparison <=? 0
               else if bool_decide (operator = ">") then 0 <? comparison
               else 0 <=? comparison)).

Definition evaluate_add (left right : any) : result any :=
  match left with
  | ANil => Ok (cloneOverrideValue right)
  | AStr leftString =>
    if is_nil right then Ok (AStr leftString)
    else if negb (isOverrideScalar right) then Err (ErrMsg ("cannot add string and " +:+ overrideType right))
    else Ok (AStr (leftString +:+ Sprint right))
  | ASeq leftArray =>
    match right with
    | ANil => Ok (ASeq leftArray)
    | ASeq rightArray => Ok (ASeq (leftArray ++ (cloneOverrideValue <$> rightArray)))
    | _ => Ok (ASeq (leftArray ++ [cloneOverrideValue right]))
    end
  | AMap leftMap =>
    match right with
    | AMap rightMap =>
      Ok (AMap (foldl (λ result e, mset result e.1 (cloneOverrideValue e.2))
        ((λ e, (e.1, cloneOverrideValue e.2)) <$> leftMap) rightMap))
    | _ => Err (ErrMsg ("cannot add mapping and " +:+ overrideType right))
    end
  | _ =>
    match right with
    | AStr rightString =>
      if isOverrideScalar left then Ok (AStr (Sprint left +:+ rightString))
      else evaluateOverrideNumbers "+" left right
    | _ => evaluateOverrideNumbers "+" left right
    end
  end.

Definition evaluate_subtract (left right : any) : result any :=
  match left with
  | ANil => Ok (cloneOverrideValue right)
  | ASeq leftArray =>
    match right with
    | ASeq rightArray => Ok (ASeq (filter (λ item, existsb (overrideEqual item) rightArray = false) leftArray))
    | _ => Err (ErrMsg (overrideType right +:+ " cannot be subtracted from !!seq"))
    end
  | _ => evaluateOverrideNumbers "-" left right
  end.

Definition evaluate_multiply (left right : any) : result any :=
  match left, right with
  | _, ANil => Ok (cloneOverrideValue left)
  | ANil, ASeq _ | ANil, AMap _ => Ok (cloneOverrideValue right)
  | AMap leftMap, AMap rightMap => Ok (mergeOverrideMaps leftMap rightMap)
  | AMap _, _ => Err (ErrMsg ("cannot multiply mapping and " +:+ overrideType right))
  | ASeq _, ASeq rightArray => Ok (ASeq (cloneOverrideValue <$> rightArray))
  | AStr value, _ => multiply_string value right
  | _, AStr value => multiply_string value left
  | _, _ => evaluateOverrideNumbers "*" left right
  end.

Definition evaluate_divide (left right : any) : result any :=
  match left with
  | AStr leftString =>
    match right with
    | AStr rightString =>
      if bool_decide (leftString = "") then Ok (ASeq [])
      else Ok (ASeq (AStr <$> SplitString leftString rightString))
    | _ => Err (ErrMsg ("operator / cannot be used with !!str and " +:+ overrideType right))
    end
  | _ => evaluateOverrideNumbers "/" left right
  end.

Definition evaluateOverrideBinary (operator : string) (left right : any) : result any :=
  if bool_decide (operator = "and") then Ok (ABool (overrideTruthy left && overrideTruthy right))
  else if bool_decide (operator = "or") then Ok (ABool (overrideTruthy left || overrideTruthy right))
  else if bool_decide (operator = "//") then Ok (if overrideTruthy left then left else right)
  else if bool_decide (operator = "==") then Ok (ABool (overrideYQEqual left right))
  else if bool_decide (operator = "!=") then Ok (ABool (negb (overrideYQEqual left right)))
  else if bool_decide (operator ∈ ["<"; "<="; ">"; ">="]) then evaluate_compare operator left right
  else if bool_decide (operator = "+") then evaluate_add left right
  else if bool_decide (operator = "-") then evaluate_subtract left right
  else if bool_decide (operator = "*") then evaluate_multiply left right
  else if bool_decide (operator = "/") then evaluate_divide left right
  else if bool_decide (operator = "%") then evaluateOverrideNumbers operator left right
  else Err (ErrMsg ("unsupported operator " +:+ quoted operator)).
