(* ===== verification/ExprParse.v ===== *)
(** * Lexer and parser of override expressions (src/adapter/provider/override_expr.go)

    An expression is a byte string.  The parser's state is the list of tokens that are
    left and the token at the end, which is never consumed.  Recursion goes through
    [parseValueExpression] only; its fuel is the number of bytes that the tokens stand
    for, as every recursive call is made on fewer of them (an interpolated expression
    is a part of a string token). *)

From Stdlib Require Import Ascii.
From S2P Require Import Prelude Wire GoStrings GoFloat Runes ExprValue.

(** ** Quoting ([strconv.Quote], [strconv.QuoteRune]) *)

(** [strconv.IsPrint] for runes beyond ASCII, a table of the Unicode standard. *)
Class Unicode := IsPrintRune : Z → bool.

Definition hex_char (d : Z) : ascii := ascii_of (if d <? 10 then 48 + d else 87 + d).

Fixpoint hex_digits (n : nat) (v : Z) : string :=
  match n with
  | O => ""
  | S n => String (hex_char (Z.shiftr v (4 * Z.of_nat n) mod 16)) (hex_digits n v)
  end.

Definition backslash : ascii := "\"%char.
Definition dquote : ascii := "034"%char.
Definition quote1 : ascii := "'"%char.

Section quote.
Context `{Unicode}.

Definition IsPrint (r : Z) : bool :=
  if r <? 128 then (32 <=? r) && (r <? 127) else IsPrintRune r.

Definition escape_rune (quote : ascii) (r : Z) : string :=
  let esc c := String backslash (String c "") in
  if (r =? byte_of quote) || (r =? byte_of backslash) then esc (ascii_of r)
  else if IsPrint r then of_bytes (encodeRune r)
  else if r =? 7 then esc "a"%char
  else if r =? 8 then esc "b"%char
  else if r =? 12 then esc "f"%char
  else if r =? 10 then esc "n"%char
  else if r =? 13 then esc "r"%char
  else if r =? 9 then esc "t"%char
  else if r =? 11 then esc "v"%char
  else if (r <? 32) || (r =? 127) then String backslash (String "x" (hex_digits 2 r))
  else if r <? 65536 then String backslash (String "u" (hex_digits 4 r))
  else String backslash (String "U" (hex_digits 8 r)).

(** A malformed byte is written as such. *)
Fixpoint quote_loop (fuel : nat) (s : string) : string :=
  match fuel, s with
  | S fuel, String a r =>
    let n := rune_size (sbytes s) in
    let rune := hd RuneError (runes (sbytes s)) in
    if (n =? 1)%nat && (128 <=? byte_of a) then
      String backslash (String "x" (hex_digits 2 (byte_of a))) +:+ quote_loop fuel r
    else escape_rune dquote rune +:+ quote_loop fuel (String.substring n (String.length s) s)
  | _, _ => ""
  end.

Definition Quote (s : string) : string :=
  String dquote (quote_loop (String.length s) s) +:+ String dquote "".

(** [%q] of a byte. *)
Definition QuoteByte (b : Z) : string :=
  String quote1 (escape_rune quote1 b) +:+ String quote1 "".
End quote.

(** ** Tokens *)

Inductive overrideTokenKind : Type :=
| TokenEOF | TokenDot | TokenIdentifier | TokenString | TokenNumber
| TokenLeftParen | TokenRightParen | TokenLeftBracket | TokenRightBracket | TokenLeftBrace | TokenRightBrace
| TokenComma | TokenSemicolon | TokenColon | TokenPipe
| TokenAssign | TokenUpdateAssign | TokenAddAssign | TokenSubtractAssign | TokenMultiplyAssign
| TokenPlus | TokenMinus | TokenMultiply | TokenDivide | TokenModulo | TokenAlternative
| TokenEqual | TokenNotEqual | TokenLess | TokenLessEqual | TokenGreater | TokenGreaterEqual.

#[global] Instance overrideTokenKind_eq_dec : EqDecision overrideTokenKind.
Proof. solve_decision. Defined.

Record overrideToken := mkToken {
  kind : overrideTokenKind;
  text : string;
  pos : Z;
}.

(** ** The lexer *)

(** [unicode.IsSpace], [IsLetter] and [IsDigit] of a byte taken as a rune. *)
Definition IsSpaceByte (a : ascii) : bool :=
  let b := byte_of a in (9 <=? b) && (b <=? 13) || (b =? 32) || (b =? 133) || (b =? 160).

Definition IsLetterByte (a : ascii) : bool :=
  let b := byte_of a in
  (65 <=? b) && (b <=? 90) || (97 <=? b) && (b <=? 122) || (b =? 170) || (b =? 181) || (b =? 186) ||
  (192 <=? b) && (b <=? 214) || (216 <=? b) && (b <=? 246) || (248 <=? b) && (b <=? 255).

Definition isOverrideIdentifierStart (a : ascii) : bool := Ascii.eqb a "_" || IsLetterByte a.
Definition isOverrideIdentifierPart (a : ascii) : bool :=
  Ascii.eqb a "_" || Ascii.eqb a "-" || IsLetterByte a || is_digit a.

(** The longest prefix of bytes that satisfy [f], and the rest. *)
Fixpoint span (f : ascii → bool) (s : string) : string * string :=
  match s with
  | EmptyString => ("", "")
  | String a r => if f a then let '(p, r') := span f r in (String a p, r') else ("", s)
  end.

(** The text before the closing quote and the rest after it. *)
Fixpoint scanOverrideString (s : string) : option (string * string) :=
  match s with
  | EmptyString => None
  | String a r =>
    if Ascii.eqb a backslash then
      match r with
      | EmptyString => None
      | String b r' => match scanOverrideString r' with
                       | Some (p, q) => Some (String a (String b p), q)
                       | None => None
                       end
      end
    else if Ascii.eqb a dquote then Some ("", r)
    else match scanOverrideString r with Some (p, q) => Some (String a p, q) | None => None end
  end.

Definition one_of (a : ascii) (s : string) : bool := has_byte a s.

(** The fraction and the exponent of a number, and the rest. *)
Definition scan_fraction (s : string) : string * string :=
  match s with
  | String c r =>
    if Ascii.eqb c "." then let '(d, r') := span is_digit r in (String c d, r') else ("", s)
  | EmptyString => ("", s)
  end.

Definition scan_sign (s : string) : string * string :=
  match s with
  | String d r => if one_of d "+-" then (String d "", r) else ("", s)
  | EmptyString => ("", s)
  end.

Definition scan_exponent (s : string) : string * string :=
  match s with
  | String c r =>
    if one_of c "eE" then
      let '(sign, r') := scan_sign r in
      let '(d, r'') := span is_digit r' in
      (String c (sign +:+ d), r'')
    else ("", s)
  | EmptyString => ("", s)
  end.

Definition scan_decimal (s : string) : string * string :=
  let '(int, r) := span is_digit s in
  let '(frac, r) := scan_fraction r in
  let '(exp, r) := scan_exponent r in
  (int +:+ frac +:+ exp, r).

(** The text of a number and the rest. *)
Definition scanOverrideNumber (s : string) : string * string :=
  match s with
  | String "0" (String x r) =>
    if one_of x "xX" then let '(d, r') := span is_hex_digit r in (String "0" (String x d), r') else scan_decimal s
  | _ => scan_decimal s
  end.

(** The operators of one or two bytes: the token for the byte, and with a second byte. *)
Definition operator_token (a : ascii) : option (overrideTokenKind * option (ascii * overrideTokenKind)) :=
  match a with
  | "." => Some (TokenDot, None)
  | "(" => Some (TokenLeftParen, None)
  | ")" => Some (TokenRightParen, None)
  | "[" => Some (TokenLeftBracket, None)
  | "]" => Some (TokenRightBracket, None)
  | "{" => Some (TokenLeftBrace, None)
  | "}" => Some (TokenRightBrace, None)
  | "," => Some (TokenComma, None)
  | ";" => Some (TokenSemicolon, None)
  | ":" => Some (TokenColon, None)
  | "|" => Some (TokenPipe, Some ("="%char, TokenUpdateAssign))
  | "+" => Some (TokenPlus, Some ("="%char, TokenAddAssign))
  | "-" => Some (TokenMinus, Some ("="%char, TokenSubtractAssign))
  | "*" => Some (TokenMultiply, Some ("="%char, TokenMultiplyAssign))
  | "/" => Some (TokenDivide, Some ("/"%char, TokenAlternative))
  | "%" => Some (TokenModulo, None)
  | "=" => Some (TokenAssign, Some ("="%char, TokenEqual))
  | "<" => Some (TokenLess, Some ("="%char, TokenLessEqual))
  | ">" => Some (TokenGreater, Some ("="%char, TokenGreaterEqual))
  | "~" => Some (TokenIdentifier, None)
  | _ => None
  end%char.

Section lexer.
Context `{Unicode}.

(** One round of the loop: the token at [pos] and the rest. *)
Definition lex_token (pos : Z) (a : ascii) (r : string) : result (overrideToken * string) :=
  match operator_token a with
  | Some (k, two) =>
    match two, r with
    | Some (b, k2), String c r' =>
      if Ascii.eqb c b then Ok (mkToken k2 (String a (String c "")) pos, r')
      else Ok (mkToken k (String a "") pos, r)
    | _, _ => Ok (mkToken k (String a "") pos, r)
    end
  | None =>
    let unexpected :=
      Err (ErrMsg ("unexpected " +:+ QuoteByte (byte_of a) +:+ " at column " +:+ FormatInt (pos + 1))) in
    if Ascii.eqb a "!" then
      match r with
      | String "=" r' => Ok (mkToken TokenNotEqual "!=" pos, r')
      | _ => unexpected
      end
    else if Ascii.eqb a dquote then
      match scanOverrideString r with
      | Some (value, next) => Ok (mkToken TokenString value pos, next)
      | None => Err (ErrMsg ("unterminated string at column " +:+ FormatInt (pos + 1)))
      end
    else if is_digit a then
      let '(t, r') := scanOverrideNumber (String a r) in Ok (mkToken TokenNumber t pos, r')
    else if isOverrideIdentifierStart a then
      let '(t, r') := span isOverrideIdentifierPart r in Ok (mkToken TokenIdentifier (String a t) pos, r')
    else unexpected
  end.

Fixpoint lex_loop (fuel : nat) (pos : Z) (s : string) : outcome (result (list overrideToken * Z)) :=
  match fuel with
  | O => OutOfFuel
  | S fuel =>
    match s with
    | EmptyString => Ret (Ok ([], pos))
    | String a r =>
      if IsSpaceByte a then lex_loop fuel (pos + 1) r
      else if Ascii.eqb a "#" then Ret (Ok ([], pos + Z.of_nat (String.length s)))
      else
        match lex_token pos a r with
        | Err e => Ret (Err e)
        | Ok (t, r') =>
          rest ← lex_loop fuel (pos + Z.of_nat (String.length s - String.length r')) r';
          Ret (tokens ← rest; Ok (t :: tokens.1, tokens.2))
        end
    end
  end.

(** The tokens before the end, and the token at the end. *)
Record overrideExprParser := mkParser { rest : list overrideToken; eof : overrideToken }.

(** [lexOverrideExpr] and the parser that is made of its tokens. *)
Definition lexOverrideExpr (source : string) : outcome (result overrideExprParser) :=
  r ← lex_loop (S (String.length source)) 0 source;
  Ret (tokens ← r; Ok (mkParser tokens.1 (mkToken TokenEOF "" tokens.2))).
End lexer.

(** ** Syntax *)

Inductive overridePathSegment : Type :=
| PathField (key : string)
| PathIndex (index : Z)
| PathWildcard.

#[global] Instance overridePathSegment_eq_dec : EqDecision overridePathSegment.
Proof. solve_decision. Defined.

Definition overridePath : Type := list overridePathSegment.

Inductive overrideValueExpr : Type :=
| PipelineExpr (stages : list overrideValueExpr)
| UnionExpr (values : list overrideValueExpr)
| LiteralExpr (value : any)
| StringExpr (parts : list (string * option overrideValueExpr))     (* a literal or an expression *)
| PathExpr (path : overridePath)
| ArrayExpr (values : list overrideValueExpr)
| MapExpr (entries : list (string * overrideValueExpr))
| ValueUpdateExpr (path : overridePath) (operator : overrideTokenKind) (value : overrideValueExpr)
| BinaryExpr (operator : string) (left right : overrideValueExpr)
| FunctionExpr (name : string) (args : list overrideValueExpr)
| StreamFunctionExpr (name : string) (args : list overrideValueExpr).

(** A stage of a conditional target: a path or a condition. *)
Inductive overrideTargetStage : Type :=
| StagePath (path : overridePath)
| StageCondition (condition : overrideValueExpr).

Inductive overrideStatement : Type :=
| AssignStatement (path : overridePath) (target : option (list overrideTargetStage)) (operator : overrideTokenKind)
    (value : overrideValueExpr)
| FilterStatement (expression : overrideValueExpr)
| DeleteStatement (paths : list overridePath).

Record OverrideExpr := mkExpr { source : string; statements : list overrideStatement }.

(** ** The parser's state *)

Definition parser (A : Type) : Type := overrideExprParser → outcome (result (A * overrideExprParser)).

#[global] Instance parser_ret : MRet parser := λ A a p, Ret (Ok (a, p)).
#[global] Instance parser_bind : MBind parser := λ A B f m p,
  match m p with
  | Ret (Ok (a, p')) => f a p'
  | Ret (Err e) => Ret (Err e)
  | Panic msg => Panic msg
  | OutOfFuel => OutOfFuel
  end.

Definition pfail {A} (e : goerr) : parser A := λ _, Ret (Err e).
Definition pfuel {A} : parser A := λ _, OutOfFuel.
Definition plift {A} (r : result A) : parser A := λ p, Ret (a ← r; Ok (a, p)).

Definition peek_token (p : overrideExprParser) : overrideToken := hd (eof p) (rest p).

Definition peek : parser overrideToken := λ p, Ret (Ok (peek_token p, p)).

Definition next : parser overrideToken := λ p, Ret (Ok (peek_token p, mkParser (tail (rest p)) (eof p))).

Definition match_ (k : overrideTokenKind) : parser bool :=
  token ← peek;
  if bool_decide (kind token = k) then _ ← next; mret true else mret false.

Definition errorf (token : overrideToken) (msg : string) : goerr :=
  ErrMsg ("column " +:+ FormatInt (pos token + 1) +:+ ": " +:+ msg).

Definition expect (k : overrideTokenKind) (message : string) : parser overrideToken :=
  token ← next;
  if bool_decide (kind token = k) then mret token else pfail (errorf token message).

Definition is_identifier (token : overrideToken) (value : string) : bool :=
  bool_decide (kind token = TokenIdentifier) && bool_decide (text token = value).

Definition isOverrideAssignmentToken (k : overrideTokenKind) : bool :=
  match k with
  | TokenAssign | TokenUpdateAssign | TokenAddAssign | TokenSubtractAssign | TokenMultiplyAssign => true
  | _ => false
  end.

(** ** Literals and paths *)

Fixpoint decode_loop (raw : string) (column : Z) : result string :=
  match raw with
  | EmptyString => Ok ""
  | String a r =>
    if Ascii.eqb a backslash then
      match r with
      | EmptyString => Err (ErrMsg ("invalid string escape at column " +:+ FormatInt column))
      | String b r' =>
        s ← decode_loop r' (column + 2);
        Ok (if Ascii.eqb b dquote then String dquote s
            else if Ascii.eqb b "n" then String "010" s
            else if Ascii.eqb b backslash then String backslash s
            else String backslash (String b s))
      end
    else s ← decode_loop r (column + 1); Ok (String a s)
  end.

Definition decodeOverrideString (raw : string) (column : Z) : result string := decode_loop raw column.

Definition pathField (token : overrideToken) : result string :=
  if bool_decide (kind token = TokenIdentifier) then Ok (text token)
  else
    match decodeOverrideString (text token) (pos token + 1) with
    | Ok value => Ok value
    | Err e => Err (errorf token (Error e))
    end.

Section parser.
Context `{Unicode}.

(** What is between the brackets of a path; the closing one follows. *)
Definition path_bracket (token : overrideToken) : parser overridePathSegment :=
  match kind token with
  | TokenString | TokenIdentifier => key ← plift (pathField token); mret (PathField key)
  | TokenNumber | TokenMinus =>
    text_ ← (if bool_decide (kind token = TokenMinus) then
               number ← expect TokenNumber "expected array index after '-'"; mret (text token +:+ text number)
             else mret (text token));
    match ParseIntBase text_ 10 with
    | Some index => mret (PathIndex index)
    | None => pfail (errorf token ("invalid array index " +:+ Quote text_))
    end
  | _ => pfail (errorf token "expected field name or array index")
  end.

Fixpoint path_loop (fuel : nat) (segments : overridePath) : parser overridePath :=
  match fuel with
  | O => pfuel
  | S fuel =>
    token ← peek;
    match kind token with
    | TokenDot =>
      _ ← next;
      token ← next;
      if bool_decide (kind token ≠ TokenIdentifier) && bool_decide (kind token ≠ TokenString)
      then pfail (errorf token "expected field name after '.'")
      else
        key ← plift (pathField token);
        path_loop fuel (segments ++ [PathField key])
    | TokenLeftBracket =>
      _ ← next;
      wildcard ← match_ TokenRightBracket;
      if (wildcard : bool) then path_loop fuel (segments ++ [PathWildcard])
      else
        token ← next;
        segment ← path_bracket token;
        _ ← expect TokenRightBracket "expected ']' after path index";
        path_loop fuel (segments ++ [segment])
    | _ => mret segments
    end
  end.

(** A round takes a token at least. *)
Definition parsePath : parser overridePath :=
  _ ← expect TokenDot "expected path starting with '.'";
  token ← peek;
  segments ← (if bool_decide (kind token = TokenIdentifier) || bool_decide (kind token = TokenString) then
                token ← next;
                key ← plift (pathField token);
                mret [PathField key]
              else mret []);
  (λ p, path_loop (S (length (rest p))) segments p) : parser overridePath.

Definition parseNumber (token : overrideToken) : result overrideValueExpr :=
  let invalid := Err (errorf token ("invalid number " +:+ Quote (text token))) in
  if has_byte "." (text token) || has_byte "e" (text token) || has_byte "E" (text token) then
    match ParseFloat (text token) with
    | Some value => Ok (LiteralExpr (AFloat64 value))
    | None => invalid
    end
  else
    let '(base, t) := if HasPrefix (text token) "0x" || HasPrefix (text token) "0X"
                      then (16, String.substring 2 (String.length (text token)) (text token))
                      else (10, text token) in
    match ParseIntBase t base with
    | Some value => Ok (LiteralExpr (AInt Int value))
    | None => invalid
    end.
End parser.

(** ** Strings with interpolation *)

(** The text before the parenthesis that closes an interpolation, and the text after
    it; [in_string] inside of quotes. *)
Fixpoint findOverrideInterpolationEnd (raw : string) (depth : nat) (in_string : bool) : option (string * string) :=
  match raw with
  | EmptyString => None
  | String a r =>
    let cont d q := match findOverrideInterpolationEnd r d q with
                    | Some (x, y) => Some (String a x, y)
                    | None => None
                    end in
    if Ascii.eqb a backslash then
      match r with
      | EmptyString => None
      | String b r' => match findOverrideInterpolationEnd r' depth in_string with
                       | Some (x, y) => Some (String a (String b x), y)
                       | None => None
                       end
      end
    else if in_string then cont depth (negb (Ascii.eqb a dquote))
    else if Ascii.eqb a dquote then cont depth true
    else if Ascii.eqb a "(" then cont (S depth) false
    else if Ascii.eqb a ")" then
      match depth with
      | O => Some ("", r)
      | S depth => cont depth false
      end
    else cont depth false
  end.

(** [strings.ReplaceAll(s, `\"`, `"`)]. *)
Fixpoint unescape_quotes (s : string) : string :=
  match s with
  | EmptyString => EmptyString
  | String a r =>
    match r with
    | String b r' =>
      if Ascii.eqb a backslash && Ascii.eqb b dquote then String dquote (unescape_quotes r')
      else String a (unescape_quotes r)
    | EmptyString => String a ""
    end
  end.

Definition literal_part (literal : string) : list (string * option overrideValueExpr) :=
  if bool_decide (literal = "") then [] else [(literal, None)].

Section strings.
Context (parse_source : string → outcome (result overrideValueExpr)).

(** [raw] is the text that is left, [lit] the raw literal before it, which starts at
    [start]; every round takes a byte at least. *)
Fixpoint string_loop (fuel : nat) (token : overrideToken) (raw lit : string) (start : Z)
    (parts : list (string * option overrideValueExpr)) : outcome (result overrideValueExpr) :=
  match fuel with
  | O => OutOfFuel
  | S fuel =>
    match raw with
    | EmptyString =>
      Ret (literal ← decodeOverrideString lit (pos token + 1 + start);
           Ok (match parts with
               | [] => LiteralExpr (AStr literal)
               | _ => StringExpr (parts ++ literal_part literal)
               end))
    | String a r =>
      match (if Ascii.eqb a backslash then r else EmptyString) with
      | EmptyString => string_loop fuel token r (lit +:+ String a "") start parts
      | String b r' =>
        if negb (Ascii.eqb b "(") then string_loop fuel token r' (lit +:+ String a (String b "")) start parts
        else
          match decodeOverrideString lit (pos token + 1 + start) with
          | Err e => Ret (Err e)
          | Ok literal =>
            match findOverrideInterpolationEnd r' 0 false with
            | None => Ret (Err (errorf token "unterminated interpolation"))
            | Some (expressionText, raw') =>
              expression ← parse_source (unescape_quotes expressionText);
              match expression with
              | Err e => Ret (Err (errorf token ("invalid interpolation: " +:+ Error e)))
              | Ok expression =>
                string_loop fuel token raw' "" (Z.of_nat (String.length (text token) - String.length raw'))
                  (parts ++ literal_part literal ++ [("", Some expression)])
              end
            end
          end
      end
    end
  end.

Definition parseString (token : overrideToken) : outcome (result overrideValueExpr) :=
  string_loop (S (String.length (text token))) token (text token) "" 0 [].
End strings.

(** ** Functions *)

Definition isOverrideFunction (name : string) : bool :=
  bool_decide (name ∈ ["length"; "type"; "keys"; "has"; "contains"; "select"; "sub"; "test"; "split"; "join"; "upcase";
    "downcase"; "trim"; "tostring"; "tonumber"; "not"; "reverse"; "sort"; "unique"; "flatten"; "any"; "all"; "map";
    "map_values"; "filter"; "to_entries"; "from_entries"; "with_entries"; "any_c"; "all_c"]).

Definition isOverrideStreamFunction (name : string) : bool :=
  bool_decide (name ∈ ["map"; "map_values"; "filter"; "to_entries"; "from_entries"; "with_entries"; "any_c"; "all_c"]).

(** ** Expressions *)

Section expressions.
Context `{Unicode}.

(** The recursive calls: [parseValueExpression] on the tokens that are left, and
    [parseOverrideValueExpr] on an interpolated text. *)
Context (parse_value : bool → parser overrideValueExpr).
Context (parse_source : string → outcome (result overrideValueExpr)).

(** [item (separator item)*]; the separator is consumed. *)
Fixpoint more_items {A} (fuel : nat) (item : parser A) (separators : list overrideTokenKind) (items : list A) :
    parser (list A) :=
  match fuel with
  | O => pfuel
  | S fuel =>
    token ← peek;
    if bool_decide (kind token ∈ separators) then
      _ ← next;
      x ← item;
      more_items fuel item separators (items ++ [x])
    else mret items
  end.

Definition separated {A} (item : parser A) (separators : list overrideTokenKind) : parser (list A) :=
  x ← item;
  (λ p, more_items (S (length (rest p))) item separators [x] p) : parser (list A).

Definition map_entry : parser (string * overrideValueExpr) :=
  key ← next;
  if bool_decide (kind key ≠ TokenString) then pfail (errorf key "expected quoted map key")
  else
    _ ← expect TokenColon "expected ':' after map key";
    keyValue ← plift (decodeOverrideString (text key) (pos key + 1));
    value ← parse_value true;
    mret (keyValue, value).

Definition parseUnionExpression (allowLowPrecedence : bool) : parser overrideValueExpr :=
  values ← separated (parse_value allowLowPrecedence) [TokenComma];
  match values with
  | [first] => mret first
  | _ => mret (UnionExpr values)
  end.

Definition function_args : parser (list overrideValueExpr) :=
  open ← match_ TokenLeftParen;
  if (open : bool) then
    close ← match_ TokenRightParen;
    if (close : bool) then mret []
    else
      args ← separated (parse_value true) [TokenComma; TokenSemicolon];
      _ ← expect TokenRightParen "expected ')' after function arguments";
      mret args
  else mret [].

Definition parse_identifier (token : overrideToken) : parser overrideValueExpr :=
  if bool_decide (text token = "true") then mret (LiteralExpr (ABool true))
  else if bool_decide (text token = "false") then mret (LiteralExpr (ABool false))
  else if bool_decide (text token ∈ ["null"; "~"]) then mret (LiteralExpr ANil)
  else
    args ← function_args;
    if negb (isOverrideFunction (text token)) then pfail (errorf token ("unknown function " +:+ Quote (text token)))
    else if isOverrideStreamFunction (text token) then mret (StreamFunctionExpr (text token) args)
    else mret (FunctionExpr (text token) args).

Definition parsePrimary : parser overrideValueExpr :=
  token ← peek;
  match kind token with
  | TokenDot => path ← parsePath; mret (PathExpr path)
  | TokenString =>
    _ ← next;
    (λ p, r ← parseString parse_source token; Ret (e ← r; Ok (e, p)))
  | TokenNumber => _ ← next; plift (parseNumber token)
  | TokenLeftParen =>
    _ ← next;
    value ← parseUnionExpression true;
    _ ← expect TokenRightParen "expected ')'";
    mret value
  | TokenLeftBracket =>
    _ ← next;
    empty ← match_ TokenRightBracket;
    if (empty : bool) then mret (ArrayExpr [])
    else
      values ← separated (parse_value true) [TokenComma];
      _ ← expect TokenRightBracket "expected ']' after array";
      mret (ArrayExpr values)
  | TokenLeftBrace =>
    _ ← next;
    empty ← match_ TokenRightBrace;
    if (empty : bool) then mret (MapExpr [])
    else
      entries ← separated map_entry [TokenComma];
      _ ← expect TokenRightBrace "expected '}' after map";
      mret (MapExpr entries)
  | TokenIdentifier => _ ← next; parse_identifier token
  | _ => pfail (errorf token "expected value")
  end.

Definition parseUnary : parser overrideValueExpr :=
  token ← peek;
  if bool_decide (kind token = TokenMinus) then
    minus ← next;
    number ← next;
    if bool_decide (kind number ≠ TokenNumber)
    then pfail (errorf minus "unary '-' is only supported for number literals")
    else plift (parseNumber (mkToken (kind number) ("-" +:+ text number) (pos number)))
  else parsePrimary.

(** [operand (operator operand)*] from the left; [accepts] gives the name of an
    operator of the level. *)
Fixpoint binary_loop (fuel : nat) (operand : parser overrideValueExpr) (accepts : overrideToken → option string)
    (left : overrideValueExpr) : parser overrideValueExpr :=
  match fuel with
  | O => pfuel
  | S fuel =>
    token ← peek;
    match accepts token with
    | Some operator =>
      _ ← next;
      right ← operand;
      binary_loop fuel operand accepts (BinaryExpr operator left right)
    | None => mret left
    end
  end.

Definition binary_level (operand : parser overrideValueExpr) (accepts : overrideToken → option string) :
    parser overrideValueExpr :=
  left ← operand;
  (λ p, binary_loop (S (length (rest p))) operand accepts left p) : parser overrideValueExpr.

Definition parseMultiplicative : parser overrideValueExpr :=
  binary_level parseUnary (λ token,
    match kind token with
    | TokenMultiply | TokenDivide | TokenModulo => Some (text token)
    | _ => None
    end).

Definition parseAdditive : parser overrideValueExpr :=
  binary_level parseMultiplicative (λ token,
    match kind token with
    | TokenPlus | TokenMinus => Some (text token)
    | _ => None
    end).

Definition parseComparison : parser overrideValueExpr :=
  binary_level parseAdditive (λ token,
    match kind token with
    | TokenEqual | TokenNotEqual | TokenLess | TokenLessEqual | TokenGreater | TokenGreaterEqual => Some (text token)
    | _ => None
    end).

Definition parseAlternative : parser overrideValueExpr :=
  binary_level parseComparison (λ token,
    match kind token with TokenAlternative => Some "//" | _ => None end).

Definition parseAnd : parser overrideValueExpr :=
  binary_level parseAlternative (λ token, if is_identifier token "and" then Some (text token) else None).

Definition parseOr : parser overrideValueExpr :=
  binary_level parseAnd (λ token, if is_identifier token "or" then Some (text token) else None).

(** None when the tokens are not a path and an assignment; nothing is consumed then. *)
Definition parseValueUpdateExpression : parser (option overrideValueExpr) := λ p,
  match kind (peek_token p) with
  | TokenDot =>
    match parsePath p with
    | Ret (Ok (path, p')) =>
      if isOverrideAssignmentToken (kind (peek_token p')) then
        (operator ← next;
         value ← parse_value false;
         mret (Some (ValueUpdateExpr path (kind operator) value))) p'
      else Ret (Ok (None, p))
    | Ret (Err _) => Ret (Ok (None, p))
    | Panic msg => Panic msg
    | OutOfFuel => OutOfFuel
    end
  | _ => Ret (Ok (None, p))
  end.

Definition parse_stage (other : parser overrideValueExpr) : parser overrideValueExpr :=
  update ← parseValueUpdateExpression;
  match update with
  | Some expression => mret expression
  | None => other
  end.

Definition value_body (allowLowPrecedence : bool) : parser overrideValueExpr :=
  if allowLowPrecedence then
    first ← parse_stage parseOr;
    stages ← (λ p, more_items (S (length (rest p))) (parse_stage parseOr) [TokenPipe] [first] p)
      : parser (list overrideValueExpr);
    match stages with
    | [first] => mret first
    | _ => mret (PipelineExpr stages)
    end
  else parse_stage parseAlternative.
End expressions.

Section parse.
Context `{Unicode}.

(** [parseOverrideValueExpr] for a given [parseValueExpression]. *)
Definition source_body (parse_value : bool → parser overrideValueExpr) (source : string) :
    outcome (result overrideValueExpr) :=
  tokens ← lexOverrideExpr source;
  match tokens with
  | Err e => Ret (Err e)
  | Ok p =>
    r ← parseUnionExpression parse_value true p;
    Ret ('(expression, p) ← r;
         let token := peek_token p in
         if bool_decide (kind token ≠ TokenEOF) then Err (errorf token ("unexpected " +:+ Quote (text token)))
         else Ok expression)
  end.

Fixpoint parse_fuel (fuel : nat) (allowLowPrecedence : bool) : parser overrideValueExpr :=
  match fuel with
  | O => pfuel
  | S fuel => value_body (parse_fuel fuel) (source_body (parse_fuel fuel)) allowLowPrecedence
  end.

(** The bytes that a token stands for, and those of the tokens that are left. *)
Definition token_weight (t : overrideToken) : nat :=
  match kind t with
  | TokenString => S (S (String.length (text t)))
  | _ => Nat.max 1 (String.length (text t))
  end.

Definition weight (p : overrideExprParser) : nat := sum_list (token_weight <$> rest p).

Definition parseValueExpression (allowLowPrecedence : bool) : parser overrideValueExpr := λ p,
  parse_fuel (S (weight p)) allowLowPrecedence p.

(** ** Statements *)

(** The statement starts with a path, or with a target in parentheses, and an
    assignment follows. *)
Fixpoint target_end (tokens : list overrideToken) (depth : Z) : bool :=
  match tokens with
  | [] => false
  | t :: tokens =>
    match kind t with
    | TokenLeftParen => target_end tokens (depth + 1)
    | TokenRightParen =>
      if depth - 1 =? 0 then
        match tokens with t' :: _ => isOverrideAssignmentToken (kind t') | [] => false end
      else target_end tokens (depth - 1)
    | _ => target_end tokens depth
    end
  end.

Definition startsAssignmentStatement (p : overrideExprParser) : outcome bool :=
  match kind (peek_token p) with
  | TokenDot =>
    r ← parsePath p;
    Ret (match r with
         | Ok (_, p') => isOverrideAssignmentToken (kind (peek_token p'))
         | Err _ => false
         end)
  | TokenLeftParen => Ret (target_end (rest p ++ [eof p]) 0)
  | _ => Ret false
  end.

Definition target_stage : parser overrideTargetStage :=
  token ← peek;
  if is_identifier token "select" then
    _ ← next;
    _ ← expect TokenLeftParen "expected '(' after select";
    condition ← parseValueExpression true;
    _ ← expect TokenRightParen "expected ')' after select condition";
    mret (StageCondition condition)
  else path ← parsePath; mret (StagePath path).

Definition is_path_stage (s : overrideTargetStage) : bool :=
  match s with StagePath _ => true | StageCondition _ => false end.

Definition parseAssignmentTarget : parser (list overrideTargetStage) :=
  _ ← expect TokenLeftParen "expected '('";
  stages ← separated target_stage [TokenPipe];
  _ ← expect TokenRightParen "expected ')' after assignment path";
  if existsb is_path_stage stages then mret stages
  else
    token ← peek;
    pfail (errorf token "conditional assignment must select a path").

Definition parse_delete : parser overrideStatement :=
  _ ← next;
  _ ← expect TokenLeftParen "expected '(' after del";
  paths ← separated parsePath [TokenComma];
  _ ← expect TokenRightParen "expected ')' after del arguments";
  if existsb (λ path, bool_decide (path = [])) paths then
    token ← peek;
    pfail (errorf token "del(.) cannot be represented by a mapping override")
  else mret (DeleteStatement paths).

Definition parse_assignment : parser overrideStatement :=
  token ← peek;
  '(path, target) ← (if bool_decide (kind token = TokenLeftParen) then
                       target ← parseAssignmentTarget; mret ([], Some target)
                     else path ← parsePath; mret (path, None));
  op ← next;
  if negb (isOverrideAssignmentToken (kind op)) then pfail (errorf op "expected assignment operator after path")
  else
    value ← parseValueExpression false;
    mret (AssignStatement path target (kind op) value).

Definition parseStatement : parser overrideStatement := λ p,
  if is_identifier (peek_token p) "del" then parse_delete p
  else
    assignment ← startsAssignmentStatement p;
    if (assignment : bool) then parse_assignment p
    else (expression ← parseUnionExpression parseValueExpression true; mret (FilterStatement expression)) p.

(** The statement after a pipe. *)
Definition piped_statement : parser overrideStatement :=
  token ← peek;
  if bool_decide (kind token = TokenEOF) then pfail (errorf token "expected expression after pipe")
  else parseStatement.

Definition parse : parser (list overrideStatement) :=
  token ← peek;
  if bool_decide (kind token = TokenEOF) then pfail (ErrMsg "expression is empty")
  else
    first ← parseStatement;
    statements ← (λ p, more_items (S (length (rest p))) piped_statement [TokenPipe] [first] p)
      : parser (list overrideStatement);
    token ← peek;
    if bool_decide (kind token ≠ TokenEOF) then pfail (errorf token ("unexpected " +:+ Quote (text token)))
    else mret statements.

Definition NewOverrideExpr (source : string) : outcome (result OverrideExpr) :=
  tokens ← lexOverrideExpr source;
  match tokens with
  | Err e => Ret (Err e)
  | Ok p =>
    r ← parse p;
    Ret ('(statements, _) ← r; Ok (mkExpr source statements))
  end.
End parse.
