(* ===== verification/ExprStore.v ===== *)
(** * Shared values of override expressions (src/adapter/provider/override_expr.go)

    Mappings and arrays are references: an update changes the object that every holder
    of the reference sees.  A value is a scalar, a slice header (array, length; the
    capacity is the size of the array) or a reference to a map, and a store holds the
    objects.  [denote] reads the tree that a value stands for; operations of the code
    that only read, or that copy what they read, are the ones on trees of [ExprValue].

    The file holds the operations that share or change objects: cloning, appending,
    binary operators, and reading, updating, deleting and expanding paths.  Memory is not
    limited but for [extend], which makes an array of a length that the user chose. *)

From Stdlib Require Import Ascii.
From S2P Require Import Prelude Wire GoStrings GoFloat ExprValue ExprParse.

(** ** Stores *)

Inductive val : Type :=
| Scalar (a : any)          (* neither an array nor a mapping *)
| Slice (l n : nat)
| MapRef (l : nat).

#[global] Instance val_inhabited : Inhabited val := populate (Scalar ANil).

Inductive object : Type :=
| OArray (items : list val)
| OMap (m : list (string * val)).

Record store := mkStore { cells : gmap nat object; fresh : nat }.

Abbreviation VNil := (Scalar ANil).
Abbreviation VNoMatch := (Scalar ANoMatch).

(** The value without what is in it, for questions about its type. *)
Definition shape (v : val) : any :=
  match v with
  | Scalar a => a
  | Slice _ _ => ASeq []
  | MapRef _ => AMap []
  end.

Definition isOverrideNoMatch (v : val) : bool := match v with VNoMatch => true | _ => false end.

(** Code that runs on a store. *)
Definition M (A : Type) : Type := store → outcome (result (A * store)).

#[global] Instance M_ret : MRet M := λ A a h, Ret (Ok (a, h)).
#[global] Instance M_bind : MBind M := λ A B f m h,
  match m h with
  | Ret (Ok (a, h')) => f a h'
  | Ret (Err e) => Ret (Err e)
  | Panic msg => Panic msg
  | OutOfFuel => OutOfFuel
  end.

Definition fail {A} (msg : string) : M A := λ _, Ret (Err (ErrMsg msg)).
Definition lift {A} (r : result A) : M A := λ h, Ret (a ← r; Ok (a, h)).
Definition mfuel {A} : M A := λ _, OutOfFuel.
Definition mpanic {A} (msg : string) : M A := λ _, Panic msg.

Fixpoint mapM_ {A B} (f : A → M B) (l : list A) : M (list B) :=
  match l with
  | [] => mret []
  | x :: l => y ← f x; ys ← mapM_ f l; mret (y :: ys)
  end.

(** The results of all calls, one after the other. *)
Definition concatM {A B} (f : A → M (list B)) (l : list A) : M (list B) :=
  ys ← mapM_ f l; mret (mjoin ys).

(** ** Objects *)

Definition get_array (h : store) (l : nat) : list val :=
  match cells h !! l with Some (OArray items) => items | _ => [] end.

Definition get_map (h : store) (l : nat) : list (string * val) :=
  match cells h !! l with Some (OMap m) => m | _ => [] end.

Definition items_of (h : store) (l n : nat) : list val := take n (get_array h l).

Definition slice_items (l n : nat) : M (list val) := λ h, Ret (Ok (items_of h l n, h)).
Definition map_entries (l : nat) : M (list (string * val)) := λ h, Ret (Ok (get_map h l, h)).

Definition put (l : nat) (o : object) : M unit := λ h, Ret (Ok (tt, mkStore (<[l := o]> (cells h)) (fresh h))).

Definition alloc (o : object) : M nat := λ h,
  Ret (Ok (fresh h, mkStore (<[fresh h := o]> (cells h)) (S (fresh h)))).

(** A change of the map or of the array that is at a place now. *)
Definition modify_map (l : nat) (f : list (string * val) → list (string * val)) : M unit := λ h,
  put l (OMap (f (get_map h l))) h.
Definition modify_array (l : nat) (f : list val → list val) : M unit := λ h,
  put l (OArray (f (get_array h l))) h.

(** A slice with its items and an array of the given capacity. *)
Definition alloc_slice (capacity : nat) (items : list val) : M val :=
  l ← alloc (OArray (items ++ replicate (capacity - length items) VNil));
  mret (Slice l (length items)).

Definition alloc_map (m : list (string * val)) : M val := l ← alloc (OMap m); mret (MapRef l).

Definition vindex (m : list (string * val)) (key : string) : val := default VNil (mget m key).

(** ** Reading and copying *)

Fixpoint denote (fuel : nat) (h : store) (v : val) : outcome any :=
  match fuel with
  | O => OutOfFuel
  | S fuel =>
    match v with
    | Scalar a => Ret a
    | Slice l n =>
      ts ← (fix go (vs : list val) : outcome (list any) :=
        match vs with
        | [] => Ret []
        | v :: vs => t ← denote fuel h v; ts ← go vs; Ret (t :: ts)
        end) (items_of h l n);
      Ret (ASeq ts)
    | MapRef l =>
      ts ← (fix go (m : list (string * val)) : outcome mapping :=
        match m with
        | [] => Ret []
        | (k, v) :: m => t ← denote fuel h v; ts ← go m; Ret ((k, t) :: ts)
        end) (get_map h l);
      Ret (AMap ts)
    end
  end.

(** The tree that a value stands for.  A chain of references passes through different
    objects, so that their number is enough fuel. *)
Definition read (v : val) : M any := λ h, t ← denote (S (S (fresh h))) h v; Ret (Ok (t, h)).

(** A tree of new objects. *)
Fixpoint alloc_tree (t : any) : M val :=
  match t with
  | ASeq ts =>
    vs ← (fix go (ts : list any) : M (list val) :=
      match ts with
      | [] => mret []
      | t :: ts => v ← alloc_tree t; vs ← go ts; mret (v :: vs)
      end) ts;
    alloc_slice (length vs) vs
  | AMap m =>
    vs ← (fix go (m : mapping) : M (list (string * val)) :=
      match m with
      | [] => mret []
      | (k, t) :: m => v ← alloc_tree t; vs ← go m; mret ((k, v) :: vs)
      end) m;
    alloc_map vs
  | _ => mret (Scalar t)
  end.

(** [cloneOverrideValue]. *)
Definition clone (v : val) : M val := t ← read v; alloc_tree (cloneOverrideValue t).

(** What the runtime decides: the capacity of an array that grows, and the order in
    which a range over a map visits the entries. *)
Class GoRuntime := {
  growslice : nat → nat → nat;               (* the old capacity and the new length *)
  map_range : list (string * val) → list (string * val);
}.

(** A capacity holds the new length, and is not more than some multiple of it: the
    runtime doubles small arrays and rounds up to the next size of a block. *)
Class GoRuntimeSpec (rt : GoRuntime) : Prop := {
  growslice_enough : ∀ c n, (n ≤ growslice c n)%nat;
  growslice_limit : ∀ c n, (c < n)%nat → Z.of_nat (growslice c n) ≤ 4 * Z.of_nat n + 1024;
  map_range_all : ∀ m, map_range m ≡ₚ m;
}.

(** The runtime panics when an array would need more than 2^48 bytes; a value of type
    [any] has 16. *)
Definition maxItems : Z := 2 ^ 44.
Definition growslice_panic : string := "growslice: len out of range".

Section store.
Context {rt : GoRuntime}.

(** The capacity after appending batches of the given sizes. *)
Fixpoint grown (capacity length : nat) (batches : list nat) : nat :=
  match batches with
  | [] => capacity
  | b :: batches =>
    let n := (length + b)%nat in
    grown (if (n <=? capacity)%nat then capacity else growslice capacity n) n batches
  end.

(** [for ... { result = append(result, batch...) }] from [make([]any, 0, capacity)]. *)
Definition append_all (capacity : nat) (batches : list (list val)) : M val :=
  alloc_slice (grown capacity 0 (length <$> batches)) (mjoin batches).

(** [append(s, nil)], [todo] times.  The machine's memory is not limited in this model,
    but the size of an array that a short text can ask for here is. *)
Fixpoint extend (todo : nat) (l n : nat) : M (nat * nat) :=
  match todo with
  | O => mret (l, n)
  | S todo =>
    λ h,
      let items := get_array h l in
      if (n <? length items)%nat
      then (_ ← put l (OArray (<[n := VNil]> items)); extend todo l (S n)) h
      else
        let c := growslice (length items) (S n) in
        if maxItems <? Z.of_nat c then Panic growslice_panic
        else (l' ← alloc (OArray (take n items ++ replicate (c - n) VNil)); extend todo l' (S n)) h
  end.

(** ** Binary operators *)

Definition store_add_slice (l n : nat) (right : val) : M val :=
  leftArray ← slice_items l n;
  match right with
  | VNil => append_all 0 [leftArray]
  | Slice lr nr =>
    copied ← clone right;
    match copied with
    | Slice lc nc => items ← slice_items lc nc; append_all 0 [leftArray; items]
    | _ => append_all 0 [leftArray]
    end
  | _ => copied ← clone right; append_all 0 [leftArray; [copied]]
  end.

Definition store_subtract_slice (l n : nat) (right : val) : M val :=
  leftArray ← slice_items l n;
  match right with
  | Slice lr nr =>
    trees ← mapM_ read leftArray;
    tr ← read right;
    let rightTrees := match tr with ASeq ts => ts | _ => [] end in
    let kept := filter (λ e, existsb (overrideEqual e.2) rightTrees = false) (zip leftArray trees) in
    alloc_slice n kept.*1
  | _ => fail (overrideType (shape right) +:+ " cannot be subtracted from !!seq")
  end.

(** [evaluateOverrideBinary].  The operators copy what they use of their operands,
    except that "//" returns one of them, and that the items of the array on the left
    of "+" and "-" are shared with the result. *)
Definition store_binary (operator : string) (left right : val) : M val :=
  if bool_decide (operator = "//") then mret (if overrideTruthy (shape left) then left else right)
  else
    match left with
    | Slice l n =>
      if bool_decide (operator = "+") then store_add_slice l n right
      else if bool_decide (operator = "-") then store_subtract_slice l n right
      else tl ← read left; tr ← read right; t ← lift (evaluateOverrideBinary operator tl tr); alloc_tree t
    | _ => tl ← read left; tr ← read right; t ← lift (evaluateOverrideBinary operator tl tr); alloc_tree t
    end.

(** ** Paths *)

Fixpoint lookupOverridePathStream (value : val) (path : overridePath) {struct path} : M (list val) :=
  match path with
  | [] => mret [value]
  | PathField key :: path =>
    match value with
    | MapRef l => m ← map_entries l; lookupOverridePathStream (vindex m key) path
    | _ => mret [VNil]
    end
  | PathIndex i :: path =>
    match value with
    | Slice l n =>
      let index := if i <? 0 then i + Z.of_nat n else i in
      if (index <? 0) || (Z.of_nat n <=? index) then mret [VNil]
      else items ← slice_items l n; lookupOverridePathStream (nth (Z.to_nat index) items VNil) path
    | _ => mret [VNil]
    end
  | PathWildcard :: path =>
    match value with
    | Slice l n => items ← slice_items l n; concatM (λ item, lookupOverridePathStream item path) items
    | MapRef l => m ← map_entries l; concatM (λ e, lookupOverridePathStream e.2 path) m
    | _ => mret []
    end
  end.

(** [value[idx] = updated] for every index, the array being read anew each time. *)
Fixpoint update_items (update : val → M val) (l : nat) (todo i : nat) : M unit :=
  match todo with
  | O => mret tt
  | S todo =>
    items ← slice_items l (S i);
    updated ← update (nth i items VNil);
    _ ← modify_array l (<[i := updated]>);
    update_items update l todo (S i)
  end.

(** [value[key] = updated] for the entries, which a range has taken from the map. *)
Fixpoint update_entries (update : val → M val) (l : nat) (keys : list string) : M unit :=
  match keys with
  | [] => mret tt
  | key :: keys =>
    m ← map_entries l;
    updated ← update (vindex m key);
    _ ← modify_map l (λ m, mset m key updated);
    update_entries update l keys
  end.

Fixpoint updateOverridePath (node : val) (path : overridePath) (updater : val → M val) {struct path} : M val :=
  match path with
  | [] => updater node
  | PathField key :: path =>
    node ← (match node with VNil => alloc_map [] | _ => mret node end);
    match node with
    | MapRef l =>
      m ← map_entries l;
      value ← updateOverridePath (vindex m key) path updater;
      _ ← modify_map l (λ m, mset m key value);
      mret node
    | _ => mret node
    end
  | PathIndex i :: path =>
    node ← (match node with VNil => alloc_slice 0 [] | _ => mret node end);
    match node with
    | Slice l n =>
      let index := if i <? 0 then i + Z.of_nat n else i in
      if index <? 0 then fail ("array index " +:+ FormatInt i +:+ " is out of range")
      else
        '(l, n) ← extend (Z.to_nat (index + 1) - n) l n;
        items ← slice_items l n;
        value ← updateOverridePath (nth (Z.to_nat index) items VNil) path updater;
        _ ← modify_array l (<[Z.to_nat index := value]>);
        mret (Slice l n)
    | _ => mret node
    end
  | PathWildcard :: path =>
    match node with
    | Slice l n => _ ← update_items (λ v, updateOverridePath v path updater) l n 0; mret node
    | MapRef l =>
      m ← map_entries l;
      _ ← update_entries (λ v, updateOverridePath v path updater) l (map_range m).*1;
      mret node
    | _ => mret node
    end
  end.

(** ** Deleting *)

(** What the paths ask of the entry of a map: None to remove it, or what to delete in
    it. *)
Fixpoint field_tails (key : string) (paths : list overridePath) : option (list overridePath) :=
  match paths with
  | [] => Some []
  | (segment :: tail_) :: paths =>
    if bool_decide (segment = PathWildcard) || bool_decide (segment = PathField key) then
      match tail_ with
      | [] => None
      | _ => (tail_ ::.) <$> field_tails key paths
      end
    else field_tails key paths
  | [] :: paths => field_tails key paths
  end.

(** What the paths ask of an item of an array of length [n]. *)
Definition index_matches (n : nat) (idx : nat) (segment : overridePathSegment) : bool :=
  match segment with
  | PathWildcard => true
  | PathIndex i => (if i <? 0 then i + Z.of_nat n else i) =? Z.of_nat idx
  | PathField _ => false
  end.

Definition index_removed (n idx : nat) (paths : list overridePath) : bool :=
  existsb (λ path, match path with [segment] => index_matches n idx segment | _ => false end) paths.

Definition index_tails (n idx : nat) (paths : list overridePath) : list overridePath :=
  omap (λ path, match path with
                | segment :: (_ :: _) as tail_ => if index_matches n idx segment then Some tail_ else None
                | _ => None
                end) paths.

Section delete.
Context (delete_in : val → list overridePath → M val).

Fixpoint delete_entries (l : nat) (keys : list string) (paths : list overridePath) : M unit :=
  match keys with
  | [] => mret tt
  | key :: keys =>
    m ← map_entries l;
    _ ← (match field_tails key paths with
         | None => modify_map l (λ m, mdelete m key)
         | Some [] => mret tt
         | Some tails =>
           updated ← delete_in (vindex m key) tails;
           modify_map l (λ m, mset m key updated)
         end);
    delete_entries l keys paths
  end.

(** The items that are kept, from index [i] on. *)
Fixpoint delete_items (l n todo i : nat) (paths : list overridePath) : M (list val) :=
  match todo with
  | O => mret []
  | S todo =>
    items ← slice_items l n;
    if index_removed n i paths then delete_items l n todo (S i) paths
    else
      child ← (match index_tails n i paths with
               | [] => mret (nth i items VNil)
               | tails => delete_in (nth i items VNil) tails
               end);
      kept ← delete_items l n todo (S i) paths;
      mret (child :: kept)
  end.
End delete.

(** A call is made for paths that are shorter by a segment. *)
Fixpoint delete_paths (fuel : nat) (node : val) (paths : list overridePath) : M val :=
  match fuel with
  | O => mfuel
  | S fuel =>
    match node with
    | MapRef l => m ← map_entries l; _ ← delete_entries (delete_paths fuel) l (map_range m).*1 paths; mret node
    | Slice l n => kept ← delete_items (delete_paths fuel) l n n 0 paths; alloc_slice n kept
    | _ => mret node
    end
  end.

Definition deleteOverridePaths (node : val) (paths : list overridePath) : M val :=
  delete_paths (S (list_max (length <$> paths))) node paths.

(** ** Targets of conditional assignments *)

(** The objects below a selection that a path leads to, with their paths. *)
Fixpoint expandOverrideTargetPath (value : val) (at_ : overridePath) (path : overridePath) {struct path} :
    M (list (val * overridePath)) :=
  match path with
  | [] => mret [(value, at_)]
  | PathField key :: path =>
    match value with
    | VNil => expandOverrideTargetPath VNil (at_ ++ [PathField key]) path
    | MapRef l => m ← map_entries l; expandOverrideTargetPath (vindex m key) (at_ ++ [PathField key]) path
    | _ => mret []
    end
  | PathIndex i :: path =>
    match value with
    | VNil => expandOverrideTargetPath VNil (at_ ++ [PathIndex i]) path
    | Slice l n =>
      let index := if i <? 0 then i + Z.of_nat n else i in
      if index <? 0 then mret []
      else
        items ← slice_items l n;
        expandOverrideTargetPath (nth (Z.to_nat index) items VNil) (at_ ++ [PathIndex index]) path
    | _ => mret []
    end
  | PathWildcard :: path =>
    match value with
    | Slice l n =>
      items ← slice_items l n;
      concatM (λ e, expandOverrideTargetPath e.2 (at_ ++ [PathIndex (Z.of_nat e.1)]) path)
        (imap (λ i v, (i, v)) items)
    | MapRef l =>
      m ← map_entries l;
      concatM (λ e, expandOverrideTargetPath e.2 (at_ ++ [PathField e.1]) path) m
    | _ => mret []
    end
  end.

(** [overridePath.String]. *)
Definition path_String (path : overridePath) : string :=
  "." +:+ String.concat "" (imap (λ idx segment,
    match segment with
    | PathField key => (if (0 <? idx)%nat then "." else "") +:+ key
    | PathIndex i => "[" +:+ FormatInt i +:+ "]"
    | PathWildcard => "[]"
    end) path).
End store.
