(* ===== verification/ExprEval.v ===== *)
(** * Evaluation of override expressions (src/adapter/provider/override_expr.go)

    An expression is evaluated on a stream of inputs and gives a stream of results;
    the cases of [evalInputs] are the [eval], [evalAll] and [evalAllInputs] methods.
    [Apply] runs the statements on the mapping of a proxy, which they change in place.
    At the end the other overrides of a provider (src/adapter/provider/override.go). *)

From Stdlib Require Import Ascii.
From Corelib Require Import Floats.SpecFloat.
From S2P Require Import Prelude Wire GoStrings GoFloat ExprValue ExprParse ExprStore.

(** Regular expressions and the YAML library. *)
Class ExprLib := {
  Regexp : Type;
  regexp_Compile : string → result Regexp;
  MatchString : Regexp → string → bool;
  ReplaceAllString : Regexp → string → string → string;
  yaml_Marshal : any → result string;
}.

(** The evaluation of an expression on inputs. *)
Abbreviation evaluator := (list val → M (list val)).

Definition evalOverrideStream (expression : evaluator) (input : val) : M (list val) := expression [input].

Definition evalOverrideSingle (expression : evaluator) (input : val) : M val :=
  values ← evalOverrideStream expression input;
  match values with
  | [] => mret VNoMatch
  | [v] => mret v
  | _ => fail ("expression produced " +:+ FormatInt (len values) +:+ " results; collect them with [...]")
  end.

(** An expression with one result, which may be [overrideNoMatch]. *)
Definition one_result (eval : val → M val) (input : val) : M (list val) :=
  value ← eval input;
  mret (if isOverrideNoMatch value then [] else [value]).

Definition evalOverrideExpressionList (expressions : list evaluator) (input : val) : M (list val) :=
  concatM (λ expression, evalOverrideStream expression input) expressions.

(** [fmt.Errorf(prefix + ": %w", err)]. *)
Definition wrap_error {A} (prefix : string) (m : M A) : M A := λ h,
  match m h with
  | Ret (Err e) => Ret (Err (ErrMsg (prefix +:+ ": " +:+ Error e)))
  | r => r
  end.

(** [strings.TrimSuffix(s, "\n")]. *)
Definition trim_newline (s : string) : string :=
  if HasSuffix s (String "010" "") then String.substring 0 (String.length s - 1) s else s.

Section eval.
Context {rt : GoRuntime} `{Unicode} {lib : ExprLib}.

(** ** Expressions *)

Definition marshal (v : val) : M string :=
  t ← read v;
  encoded ← lift (yaml_Marshal t);
  mret (trim_newline encoded).

Definition string_part (part : string * option evaluator) (input : val) : M string :=
  match part.2 with
  | None => mret part.1
  | Some expression =>
    values ← evalOverrideStream expression input;
    match values with
    | [] => mret ""
    | value :: _ =>
      if isOverrideScalar (shape value) then mret (if is_nil (shape value) then "null" else Sprint (shape value))
      else marshal value
    end
  end.

Definition string_eval (parts : list (string * option evaluator)) (input : val) : M val :=
  texts ← mapM_ (λ part, string_part part input) parts;
  mret (Scalar (AStr (String.concat "" texts))).

Definition array_eval (values : list evaluator) (input : val) : M val :=
  items ← mapM_ (λ value, evalOverrideStream value input) values;
  append_all (length values) items.

Definition map_eval (entries : list (string * evaluator)) (input : val) : M val :=
  values ← mapM_ (λ entry, values ← evalOverrideStream entry.2 input; mret (entry.1, values)) entries;
  alloc_map (foldl (λ m e, match last e.2 with Some v => mset m e.1 v | None => m end) [] values).

(** The operator of a compound assignment. *)
Definition compound_operator (k : overrideTokenKind) : string :=
  match k with
  | TokenAddAssign => "+"
  | TokenSubtractAssign => "-"
  | TokenMultiplyAssign => "*"
  | _ => ""
  end.

(** The result on the old value; the old value when there is none. *)
Definition update_with (value : evaluator) (old : val) : M val :=
  v ← evalOverrideSingle value old;
  mret (if isOverrideNoMatch v then old else v).

Definition value_update_eval (path : overridePath) (operator : overrideTokenKind) (value : evaluator) (input : val) :
    M val :=
  root ← clone input;
  let run updater := wrap_error ("update " +:+ path_String path) (updateOverridePath root path updater) in
  match operator with
  | TokenAssign =>
    v ← evalOverrideSingle value root;
    if isOverrideNoMatch v then mret root else run (λ _, clone v)
  | TokenUpdateAssign => run (update_with value)
  | _ =>
    v ← evalOverrideSingle value root;
    run (λ old, store_binary (compound_operator operator) old v)
  end.

(** [and] and [or] look at the right side when a value on the left asks for it. *)
Definition needs_right (operator : string) (leftValues : list val) : bool :=
  if bool_decide (operator = "and") then existsb (λ left, overrideTruthy (shape left)) leftValues
  else if bool_decide (operator = "or") then existsb (λ left, negb (overrideTruthy (shape left))) leftValues
  else true.

Definition alternative_evalAll (left right : evaluator) (input : val) : M (list val) :=
  leftValues ← evalOverrideStream left input;
  match leftValues with
  | [] => evalOverrideStream right input
  | _ =>
    concatM (λ l, if overrideTruthy (shape l) then mret [l] else evalOverrideStream right input) leftValues
  end.

Definition binary_evalAll (operator : string) (left right : evaluator) (input : val) : M (list val) :=
  if bool_decide (operator = "//") then alternative_evalAll left right input
  else
    leftValues ← evalOverrideStream left input;
    if negb (needs_right operator leftValues) then
      mret ((λ l, Scalar (ABool (bool_decide (operator = "or") && overrideTruthy (shape l)))) <$> leftValues)
    else
      rightValues ← evalOverrideStream right input;
      concatM (λ l,
        if bool_decide (operator = "and") && negb (overrideTruthy (shape l)) then mret [Scalar (ABool false)]
        else if bool_decide (operator = "or") && overrideTruthy (shape l) then mret [Scalar (ABool true)]
        else mapM_ (λ r, store_binary operator l r) rightValues) leftValues.

(** ** Functions on streams *)

(** The values of an array, or of a mapping in the order of its keys. *)
Definition collection_values (input : val) : M (list val) :=
  match input with
  | Slice l n => slice_items l n
  | MapRef l => m ← map_entries l; mret m.*2
  | _ => fail ("expected array or mapping, got " +:+ overrideType (shape input))
  end.

Definition expects (name what : string) : string := name +:+ " expects " +:+ what.

Definition map_evalAll (args : list evaluator) (input : val) : M (list val) :=
  match args with
  | [] => fail (expects "map" "an expression")
  | _ =>
    values ← wrap_error "map" (collection_values input);
    items ← mapM_ (λ expression, expression values) args;
    result ← append_all (length values) items;
    mret [result]
  end.

Definition filter_evalAll (args : list evaluator) (input : val) : M (list val) :=
  match args with
  | [] => fail (expects "filter" "an expression")
  | _ =>
    values ← wrap_error "filter" (collection_values input);
    kept ← concatM (λ value,
      items ← evalOverrideExpressionList args value;
      if existsb (λ item, overrideTruthy (shape item)) items then copied ← clone value; mret [copied] else mret [])
      values;
    result ← alloc_slice (length values) kept;
    mret [result]
  end.

(** The first result replaces an element. *)
Definition first_result (args : list evaluator) (old : val) : M val :=
  items ← evalOverrideExpressionList args old;
  match items with
  | item :: _ => clone item
  | [] => mret old
  end.

Definition map_values_evalAll (args : list evaluator) (input : val) : M (list val) :=
  match args with
  | [] => fail (expects "map_values" "an expression")
  | _ =>
    match input with
    | Scalar _ => fail ("map_values only supports arrays and mappings, got " +:+ overrideType (shape input))
    | _ =>
      result ← clone input;
      match result with
      | Slice l n => _ ← update_items (first_result args) l n 0; mret [result]
      | MapRef l => m ← map_entries l; _ ← update_entries (first_result args) l (map_range m).*1; mret [result]
      | Scalar _ => mret [result]
      end
    end
  end.

Definition to_entries_evalAll (args : list evaluator) (input : val) : M (list val) :=
  match args with
  | _ :: _ => fail (expects "to_entries" "no arguments")
  | [] =>
    t ← read input;
    entries ← lift (toOverrideEntries t);
    match entries with
    | None => mret []
    | Some es => v ← alloc_tree (ASeq es); mret [v]
    end
  end.

Definition from_entries_evalAll (args : list evaluator) (input : val) : M (list val) :=
  match args with
  | _ :: _ => fail (expects "from_entries" "no arguments")
  | [] =>
    t ← read input;
    m ← lift (fromOverrideEntries t);
    v ← alloc_tree (AMap m);
    mret [v]
  end.

Definition with_entries_evalAll (args : list evaluator) (input : val) : M (list val) :=
  match args with
  | [] => fail (expects "with_entries" "an expression")
  | _ =>
    match input with
    | MapRef _ =>
      t ← read input;
      es ← lift (toOverrideEntries t);
      entries ← mapM_ alloc_tree (default [] es);
      transformed ← concatM (evalOverrideExpressionList args) entries;
      ts ← mapM_ read transformed;
      m ← lift (fromOverrideEntries (ASeq ts));
      v ← alloc_tree (AMap m);
      mret [v]
    | _ => fail ("with_entries only supports mappings, got " +:+ overrideType (shape input))
    end
  end.

(** [any_c] looks for a true result, [all_c] for one that is not. *)
Fixpoint condition_loop (any_ : bool) (args : list evaluator) (values : list val) : M bool :=
  match values with
  | [] => mret (negb any_)
  | value :: values =>
    items ← evalOverrideExpressionList args value;
    match items with
    | [] => condition_loop any_ args values
    | item :: _ =>
      if bool_decide (overrideTruthy (shape item) = any_) then mret any_ else condition_loop any_ args values
    end
  end.

Definition condition_evalAll (name : string) (args : list evaluator) (input : val) : M (list val) :=
  match args with
  | [] => fail (expects name "a condition")
  | _ =>
    match input with
    | Slice l n =>
      values ← slice_items l n;
      b ← condition_loop (bool_decide (name = "any_c")) args values;
      mret [Scalar (ABool b)]
    | _ => fail (name +:+ " only supports arrays, got " +:+ overrideType (shape input))
    end
  end.

Definition stream_function_evalAll (name : string) (args : list evaluator) (input : val) : M (list val) :=
  if bool_decide (name = "map") then map_evalAll args input
  else if bool_decide (name = "filter") then filter_evalAll args input
  else if bool_decide (name = "map_values") then map_values_evalAll args input
  else if bool_decide (name = "to_entries") then to_entries_evalAll args input
  else if bool_decide (name = "from_entries") then from_entries_evalAll args input
  else if bool_decide (name = "with_entries") then with_entries_evalAll args input
  else if bool_decide (name ∈ ["any_c"; "all_c"]) then condition_evalAll name args input
  else fail ("unsupported stream function " +:+ Quote name).

(** ** Functions *)

(** [%v] of a slice of numbers. *)
Definition print_counts (want : list nat) : string :=
  "[" +:+ JoinString ((λ n, FormatInt (Z.of_nat n)) <$> want) " " +:+ "]".

Definition argCount {A} (name : string) (want : list nat) (args : list val) (k : M A) : M A :=
  if bool_decide (length args ∈ want) then k
  else fail (name +:+ " expects " +:+ print_counts want +:+ " arguments, got " +:+ FormatInt (len args)).

Definition stringArg (name : string) (args : list val) (index : nat) : M string :=
  match args !! index with
  | Some (Scalar (AStr value)) => mret value
  | _ => fail (name +:+ " argument " +:+ FormatInt (Z.of_nat index + 1) +:+ " must be a string")
  end.

(** The items of an array input, or the error of the function. *)
Definition array_input (what : string) (input : val) : M (list val) :=
  match input with
  | Slice l n => slice_items l n
  | _ => fail (what +:+ ", got " +:+ overrideType (shape input))
  end.

Definition fn_select (args : list val) (input : val) : M val :=
  argCount "select" [1%nat] args
    (match args with
     | [arg] => mret (if isOverrideNoMatch arg || negb (overrideTruthy (shape arg)) then VNoMatch else input)
     | _ => mret VNoMatch
     end).

Definition fn_reverse (args : list val) (input : val) : M val :=
  argCount "reverse" [0%nat] args
    (_ ← array_input "reverse only supports arrays" input;
     t ← read input;
     alloc_tree (match t with ASeq ts => ASeq (reverse ts) | _ => t end)).

(** Insertion sort, which is what [sort.SliceStable] does with up to 20 items; a stable
    sort has one result.  [prefix] holds the sorted items from the last to the first,
    and an item moves before those that it is less than.  The first error is kept. *)
Fixpoint sort_insert (x : any) (prefix : list any) (err : option goerr) : list any * option goerr :=
  match prefix with
  | [] => ([x], err)
  | y :: prefix' =>
    match compareOverrideSortValues x y with
    | Ok c =>
      if c <? 0 then let '(p, err) := sort_insert x prefix' err in (y :: p, err)
      else (x :: prefix, err)
    | Err e => (x :: prefix, match err with None => Some e | Some _ => err end)
    end
  end.

Definition sort_values (values : list any) : result (list any) :=
  let '(prefix, err) := foldl (λ st x, sort_insert x st.1 st.2) ([], None) values in
  match err with
  | Some e => Err e
  | None => Ok (reverse prefix)
  end.

Definition fn_sort (args : list val) (input : val) : M val :=
  argCount "sort" [0%nat] args
    (_ ← array_input "sort only supports arrays in override-expr" input;
     t ← read input;
     ts ← lift (sort_values (match t with ASeq ts => ts | _ => [] end));
     alloc_tree (ASeq ts)).

Definition overrideUniqueKey (value : any) : result string :=
  if isOverrideScalar value then Ok (if is_nil value then "null" else Sprint value) else yaml_Marshal value.

Fixpoint unique_loop (values : list any) (seen : list string) : result (list any) :=
  match values with
  | [] => Ok []
  | value :: values =>
    key ← overrideUniqueKey value;
    if bool_decide (key ∈ seen) then unique_loop values seen
    else kept ← unique_loop values (key :: seen); Ok (cloneOverrideValue value :: kept)
  end.

Definition fn_unique (args : list val) (input : val) : M val :=
  argCount "unique" [0%nat] args
    (items ← array_input "unique only supports arrays" input;
     ts ← mapM_ read items;
     kept ← lift (unique_loop ts []);
     vs ← mapM_ alloc_tree kept;
     alloc_slice (length items) vs).

(** The sizes in which a flattened array grows are those of its parts. *)
Definition fn_flatten (args : list val) (input : val) : M val :=
  argCount "flatten" [0; 1]%nat args
    (items ← array_input "flatten only supports arrays" input;
     depth ← (match args with
              | [] => mret (-1)
              | arg :: _ =>
                match overrideNumber (shape arg) with
                | Some (number, true) =>
                  if SFltb number (S754_zero false) then fail "flatten depth must be a non-negative integer"
                  else mret (int_of_float number)
                | _ => fail "flatten depth must be a non-negative integer"
                end
              end);
     ts ← mapM_ read items;
     parts ← mapM_ (λ t, mapM_ alloc_tree (flatten_value depth t)) ts;
     append_all (length items) parts).

(** [any] and [all]. *)
Definition fn_any_all (name : string) (args : list val) (input : val) : M val :=
  argCount name [0%nat] args
    (values ← array_input (name +:+ " only supports arrays") input;
     mret (Scalar (ABool (if bool_decide (name = "any") then existsb (λ v, overrideTruthy (shape v)) values
                          else forallb (λ v, overrideTruthy (shape v)) values)))).

Definition int_value (z : Z) : val := Scalar (AInt Int z).

Definition fn_length (args : list val) (input : val) : M val :=
  argCount "length" [0%nat] args
    (match input with
     | Slice _ n => mret (int_value (Z.of_nat n))
     | MapRef l => m ← map_entries l; mret (int_value (len m))
     | Scalar ANil => mret (int_value 0)
     | Scalar (AStr s) => mret (int_value (Z.of_nat (String.length s)))
     | Scalar a =>
       if isOverrideScalar a then mret (int_value (Z.of_nat (String.length (Sprint a))))
       else fail ("length cannot be used with " +:+ overrideType a)
     end).

Definition fn_keys (args : list val) (input : val) : M val :=
  argCount "keys" [0%nat] args
    (match input with
     | MapRef l => m ← map_entries l; alloc_slice (length m) ((λ e, Scalar (AStr e.1)) <$> m)
     | Slice _ n => alloc_slice n ((λ i, int_value (Z.of_nat i)) <$> seq 0 n)
     | _ => fail ("keys cannot be used with " +:+ overrideType (shape input))
     end).

Definition fn_has (args : list val) (input : val) : M val :=
  argCount "has" [1%nat] args
    (match input with
     | MapRef l =>
       key ← stringArg "has" args 0;
       m ← map_entries l;
       mret (Scalar (ABool (match mget m key with Some _ => true | None => false end)))
     | Slice _ n =>
       match args with
       | arg :: _ =>
         match overrideNumber (shape arg) with
         | Some (number, true) =>
           let index := int_of_float number in
           let index := if index <? 0 then index + Z.of_nat n else index in
           mret (Scalar (ABool ((0 <=? index) && (index <? Z.of_nat n))))
         | _ => mret (Scalar (ABool false))
         end
       | [] => mret (Scalar (ABool false))
       end
     | _ => mret (Scalar (ABool false))
     end).

Definition fn_contains (args : list val) (input : val) : M val :=
  argCount "contains" [1%nat] args
    (let arg := hd VNil args in
     let contained t := (c ← read arg; mret (Scalar (ABool (overrideContains t c)))) : M val in
     match input with
     | Scalar (AStr value) =>
       needle ← stringArg "contains" args 0;
       mret (Scalar (ABool (GoStrings.Contains value needle)))
     | Slice _ _ =>
       match arg with
       | Slice _ _ => t ← read input; contained t
       | _ => fail (overrideType (shape arg) +:+ " cannot check contained in !!seq")
       end
     | MapRef _ =>
       match arg with
       | MapRef _ => t ← read input; contained t
       | _ => fail (overrideType (shape arg) +:+ " cannot check contained in !!map")
       end
     | Scalar a =>
       if negb (isOverrideScalar (shape arg)) then
         fail (overrideType (shape arg) +:+ " cannot check contained in " +:+ overrideType a)
       else if bool_decide (overrideType a ≠ overrideType (shape arg)) then mret (Scalar (ABool false))
       else mret (Scalar (ABool (overrideEqual a (shape arg))))
     end).

(** The options of [test] are only checked. *)
Definition test_options (args : list val) : M unit :=
  match args with
  | [_; _] =>
    options ← stringArg "test" args 1;
    if bool_decide (Trim options "g" ≠ "") then fail ("unsupported test options " +:+ Quote options) else mret tt
  | _ => mret tt
  end.

Definition fn_regexp (name : string) (args : list val) (input : val) : M val :=
  argCount name (if bool_decide (name = "test") then [1; 2]%nat else [2%nat]) args
    (_ ← (if bool_decide (name = "test") then test_options args else mret tt);
     match input with
     | Scalar (AStr value) =>
       pattern ← stringArg name args 0;
       match regexp_Compile pattern with
       | Err e => fail ("invalid regular expression: " +:+ Error e)
       | Ok re =>
         if bool_decide (name = "test") then mret (Scalar (ABool (MatchString re value)))
         else
           replacement ← stringArg name args 1;
           mret (Scalar (AStr (ReplaceAllString re value replacement)))
       end
     | _ => fail (name +:+ " requires string input")
     end).

Definition fn_split (args : list val) (input : val) : M val :=
  argCount "split" [1%nat] args
    (match input with
     | VNil => mret VNoMatch
     | Scalar (AStr value) =>
       separator ← stringArg "split" args 0;
       let parts := SplitString value separator in
       alloc_slice (length parts) ((λ p, Scalar (AStr p)) <$> parts)
     | _ => fail "split requires string input"
     end).

Definition join_part (v : val) : string :=
  match v with
  | Slice _ _ | MapRef _ | VNil => ""
  | Scalar a => Sprint a
  end.

Definition fn_join (args : list val) (input : val) : M val :=
  argCount "join" [1%nat] args
    (match input with
     | Slice l n =>
       values ← slice_items l n;
       separator ← stringArg "join" args 0;
       mret (Scalar (AStr (JoinString (join_part <$> values) separator)))
     | _ => fail "join requires array input"
     end).

Definition fn_case (name : string) (args : list val) (input : val) : M val :=
  argCount name [0%nat] args
    (match input with
     | Scalar (AStr value) =>
       mret (Scalar (AStr (if bool_decide (name = "upcase") then ToUpper value
                           else if bool_decide (name = "downcase") then ToLower value
                           else TrimSpace value)))
     | _ => fail (name +:+ " requires string input")
     end).

Definition fn_tostring (args : list val) (input : val) : M val :=
  argCount "tostring" [0%nat] args
    (match input with
     | Scalar (AStr value) => mret (Scalar (AStr value))
     | _ => s ← marshal input; mret (Scalar (AStr s))
     end).

Definition text_number (value : string) : M val :=
  let error := fail ("cannot convert " +:+ Quote value +:+ " to number") in
  let without_prefix := String.substring 2 (String.length value) value in
  let convert base integerValue :=
    match ParseIntBase integerValue base with
    | Some integer => mret (int_value integer)
    | None =>
      match ParseFloat value with
      | Some number => mret (Scalar (AFloat64 number))
      | None => error
      end
    end in
  if HasPrefix value "0x" || HasPrefix value "0X" then convert 16 without_prefix
  else if HasPrefix value "0o" then convert 8 without_prefix
  else if HasPrefix value "0b" || HasPrefix value "0B" then error
  else convert 10 value.

Definition fn_tonumber (args : list val) (input : val) : M val :=
  argCount "tonumber" [0%nat] args
    (match overrideNumber (shape input) with
     | Some _ => mret input
     | None =>
       match input with
       | Scalar (AStr value) => text_number value
       | _ => fail "tonumber requires string or number input"
       end
     end).

Definition call_function (name : string) (args : list val) (input : val) : M val :=
  if bool_decide (name = "select") then fn_select args input
  else if bool_decide (name = "not") then
    argCount "not" [0%nat] args (mret (Scalar (ABool (negb (overrideTruthy (shape input))))))
  else if bool_decide (name = "reverse") then fn_reverse args input
  else if bool_decide (name = "sort") then fn_sort args input
  else if bool_decide (name = "unique") then fn_unique args input
  else if bool_decide (name = "flatten") then fn_flatten args input
  else if bool_decide (name ∈ ["any"; "all"]) then fn_any_all name args input
  else if bool_decide (name = "length") then fn_length args input
  else if bool_decide (name = "type") then
    argCount "type" [0%nat] args (mret (Scalar (AStr (overrideType (shape input)))))
  else if bool_decide (name = "keys") then fn_keys args input
  else if bool_decide (name = "has") then fn_has args input
  else if bool_decide (name = "contains") then fn_contains args input
  else if bool_decide (name ∈ ["sub"; "test"]) then fn_regexp name args input
  else if bool_decide (name = "split") then fn_split args input
  else if bool_decide (name = "join") then fn_join args input
  else if bool_decide (name ∈ ["upcase"; "downcase"; "trim"]) then fn_case name args input
  else if bool_decide (name = "tostring") then fn_tostring args input
  else if bool_decide (name = "tonumber") then fn_tonumber args input
  else fail ("unsupported function " +:+ Quote name).

Definition function_eval (name : string) (args : list evaluator) (input : val) : M val :=
  if isOverrideNoMatch input then mret input
  else
    args ← mapM_ (λ arg, evalOverrideSingle arg input) args;
    call_function name args input.

(** ** Evaluation *)

Fixpoint evalInputs (e : overrideValueExpr) (inputs : list val) {struct e} : M (list val) :=
  match e with
  | UnionExpr values => concatM (λ value, evalInputs value inputs) values
  | PipelineExpr stages =>
    concatM (λ input,
      (fix go (stages : list overrideValueExpr) (values : list val) : M (list val) :=
         match stages with
         | [] => mret values
         | stage :: stages => next_ ← evalInputs stage values; go stages next_
         end) stages [input]) inputs
  | LiteralExpr value => concatM (λ input, one_result (λ _, alloc_tree (cloneOverrideValue value)) input) inputs
  | StringExpr parts =>
    concatM (one_result (string_eval ((λ part, (part.1, option_map evalInputs part.2)) <$> parts))) inputs
  | PathExpr path => concatM (λ input, lookupOverridePathStream input path) inputs
  | ArrayExpr values => concatM (one_result (array_eval (evalInputs <$> values))) inputs
  | MapExpr entries => concatM (one_result (map_eval ((λ entry, (entry.1, evalInputs entry.2)) <$> entries))) inputs
  | ValueUpdateExpr path operator value => concatM (one_result (value_update_eval path operator (evalInputs value))) inputs
  | BinaryExpr operator l r => concatM (binary_evalAll operator (evalInputs l) (evalInputs r)) inputs
  | FunctionExpr name args => concatM (one_result (function_eval name (evalInputs <$> args))) inputs
  | StreamFunctionExpr name args => concatM (stream_function_evalAll name (evalInputs <$> args)) inputs
  end.

(** ** Statements *)

(** [replaceOverrideMapping]: the map itself stays, with other entries. *)
Definition replaceOverrideMapping (mapping replacement : nat) : M unit :=
  copied ← clone (MapRef replacement);
  match copied with
  | MapRef l => m ← map_entries l; modify_map mapping (λ _, m)
  | _ => mret tt
  end.

Definition filter_apply (expression : overrideValueExpr) (mapping : nat) : M unit :=
  value ← evalOverrideSingle (evalInputs expression) (MapRef mapping);
  if isOverrideNoMatch value then fail "filter expression produced no result; a mapping is required"
  else
    match value with
    | MapRef l => replaceOverrideMapping mapping l
    | _ => fail ("filter expression must produce a mapping, got " +:+ overrideType (shape value))
    end.

(** [overrideAssignmentTarget.resolve]. *)
Fixpoint resolve (stages : list overrideTargetStage) (selections : list (val * overridePath)) :
    M (list (val * overridePath)) :=
  match stages with
  | [] => mret selections
  | StagePath path :: stages =>
    next_ ← concatM (λ s, expandOverrideTargetPath s.1 s.2 path) selections;
    resolve stages next_
  | StageCondition condition :: stages =>
    next_ ← concatM (λ s,
      matches ← evalOverrideStream (evalInputs condition) s.1;
      mret (if existsb (λ v, overrideTruthy (shape v)) matches then [s] else [])) selections;
    resolve stages next_
  end.

(** The update of the root at a path; the whole mapping is replaced when the path is
    empty. *)
Definition update_root (mapping : nat) (path : overridePath) (prefix : string) (updater : val → M val) : M unit :=
  updated ← wrap_error prefix (updateOverridePath (MapRef mapping) path updater);
  match updated with
  | MapRef l => match path with [] => replaceOverrideMapping mapping l | _ => mret tt end
  | _ => fail ("root expression must produce a mapping, got " +:+ overrideType (shape updated))
  end.

Fixpoint update_selections (mapping : nat) (selections : list (val * overridePath)) (updater : val → M val) : M unit :=
  match selections with
  | [] => mret tt
  | s :: selections =>
    _ ← update_root mapping s.2 "update selected path" updater;
    update_selections mapping selections updater
  end.

Definition run_update (mapping : nat) (path : overridePath) (target : option (list overrideTargetStage))
    (updater : val → M val) : M unit :=
  match target with
  | Some stages =>
    selections ← resolve stages [(MapRef mapping, [])];
    update_selections mapping selections updater
  | None => update_root mapping path ("update " +:+ path_String path) updater
  end.

Definition assign_apply (path : overridePath) (target : option (list overrideTargetStage)) (operator : overrideTokenKind)
    (value : overrideValueExpr) (mapping : nat) : M unit :=
  let root := MapRef mapping in
  match operator with
  | TokenAssign =>
    v ← evalOverrideSingle (evalInputs value) root;
    if isOverrideNoMatch v then mret tt else run_update mapping path target (λ _, clone v)
  | TokenUpdateAssign => run_update mapping path target (update_with (evalInputs value))
  | _ =>
    v ← evalOverrideSingle (evalInputs value) root;
    if isOverrideNoMatch v then mret tt
    else run_update mapping path target (λ old, store_binary (compound_operator operator) old v)
  end.

Definition delete_apply (paths : list overridePath) (mapping : nat) : M unit :=
  updated ← deleteOverridePaths (MapRef mapping) paths;
  match updated with
  | MapRef _ => mret tt
  | _ => fail "root expression must produce a mapping"
  end.

Definition statement_apply (s : overrideStatement) (mapping : nat) : M unit :=
  match s with
  | AssignStatement path target operator value => assign_apply path target operator value mapping
  | FilterStatement expression => filter_apply expression mapping
  | DeleteStatement paths => delete_apply paths mapping
  end.

(** [OverrideExpr.Apply]. *)
Fixpoint Apply (statements : list overrideStatement) (mapping : nat) : M unit :=
  match statements with
  | [] => mret tt
  | s :: statements => _ ← statement_apply s mapping; Apply statements mapping
  end.
End eval.

(** * The overrides of a provider (src/adapter/provider/override.go) *)

(** [%s] of a value: the type and the value of what is no string. *)
Definition bad_verb (type value : string) : string := "%!s(" +:+ type +:+ "=" +:+ value +:+ ")".

Fixpoint format_s (nested : bool) (t : any) : string :=
  match t with
  | AStr s => s
  | ANil => if nested then "<nil>" else "%!s(<nil>)"
  | ABool _ => bad_verb "bool" (Sprint t)
  | AInt k _ => bad_verb (kind_name k) (Sprint t)
  | AFloat64 _ => bad_verb "float64" (Sprint t)
  | AFloat32 _ => bad_verb "float32" (Sprint t)
  | ASeq l => "[" +:+ JoinString (format_s true <$> l) " " +:+ "]"
  | AMap m => "map[" +:+ JoinString ((λ e, e.1 +:+ ":" +:+ format_s true e.2) <$> m) " " +:+ "]"
  | ANoMatch => "{}"
  end.

(** [strings.EqualFold] with a text of ASCII letters: two runes beyond ASCII fold to
    letters, the long s and the sign of the kelvin. *)
Fixpoint fold_letters (s : string) : string :=
  match s with
  | String "197" (String "191" r) => String "s" (fold_letters r)
  | String "226" (String "132" (String "170" r)) => String "k" (fold_letters r)
  | String a r => String (lower_byte a) (fold_letters r)
  | EmptyString => EmptyString
  end.

Definition EqualFold (s letters : string) : bool := bool_decide (fold_letters s = ToLower letters).

(** The third-party regular expressions of names: compiling, whether a text matches, and
    the replacement of all matches. *)
Class Regexp2 := {
  Pattern : Type;
  Pattern_Compile : string → result Pattern;
  Pattern_Match : Pattern → string → bool;
  Pattern_Replace : Pattern → string → string → result string;
}.

Section schema.
Context {rt : GoRuntime} `{Unicode} {lib : ExprLib} {re2 : Regexp2}.

Record overrideSchema := mkSchema {
  TFO : option bool;
  MPTcp : option bool;
  UDP : option bool;
  UDPOverTCP : option bool;
  Up : option string;
  Down : option string;
  DialerProxy : option string;
  SkipCertVerify : option bool;
  NameCertVerify : option string;
  Interface : option string;
  RoutingMark : option Z;
  IPVersion : option string;
  XrayMux : option (list (string * val));
  AdditionalPrefix : option string;
  AdditionalSuffix : option string;
  ProxyName : list (Pattern * string);
  OverrideExprs : list OverrideExpr;
}.

(** [if o.X != nil { mapping[key] = *o.X }]. *)
Definition set_some {A} (mapping : nat) (key : string) (f : A → any) (o : option A) : M unit :=
  match o with
  | Some x => modify_map mapping (λ m, mset m key (Scalar (f x)))
  | None => mret tt
  end.

(** The fields that are set as they are, in the order of the code. *)
Definition set_fields (o : overrideSchema) (mapping : nat) : M unit :=
  _ ← set_some mapping "tfo" ABool (TFO o);
  _ ← set_some mapping "mptcp" ABool (MPTcp o);
  _ ← set_some mapping "udp" ABool (UDP o);
  _ ← set_some mapping "udp-over-tcp" ABool (UDPOverTCP o);
  _ ← set_some mapping "up" AStr (Up o);
  _ ← set_some mapping "down" AStr (Down o);
  _ ← set_some mapping "dialer-proxy" AStr (DialerProxy o);
  _ ← set_some mapping "skip-cert-verify" ABool (SkipCertVerify o);
  _ ← set_some mapping "name-cert-verify" AStr (NameCertVerify o);
  _ ← set_some mapping "interface-name" AStr (Interface o);
  _ ← set_some mapping "routing-mark" (AInt Int) (RoutingMark o);
  set_some mapping "ip-version" AStr (IPVersion o).

(** The replacements of the name; it is taken to be a string. *)
Fixpoint replace_names (mapping : nat) (patterns : list (Pattern * string)) : M unit :=
  match patterns with
  | [] => mret tt
  | (pattern, target) :: patterns =>
    m ← map_entries mapping;
    match vindex m "name" with
    | Scalar (AStr name) =>
      match Pattern_Replace pattern name target with
      | Err e => fail ("proxy name replace error: " +:+ Error e)
      | Ok newName =>
        _ ← modify_map mapping (λ m, mset m "name" (Scalar (AStr newName)));
        replace_names mapping patterns
      end
    | _ => mpanic "interface conversion: interface {} is not string"
    end
  end.

Definition add_to_name (mapping : nat) (f : string → string) : M unit :=
  m ← map_entries mapping;
  name ← read (vindex m "name");
  modify_map mapping (λ m, mset m "name" (Scalar (AStr (f (format_s false name))))).

Definition change_name (o : overrideSchema) (mapping : nat) : M unit :=
  _ ← replace_names mapping (ProxyName o);
  _ ← (match AdditionalPrefix o with Some prefix => add_to_name mapping (λ n, prefix +:+ n) | None => mret tt end);
  match AdditionalSuffix o with Some suffix => add_to_name mapping (λ n, n +:+ suffix) | None => mret tt end.

Fixpoint apply_exprs (idx : Z) (exprs : list OverrideExpr) (mapping : nat) : M unit :=
  match exprs with
  | [] => mret tt
  | e :: exprs =>
    _ ← wrap_error ("override-expr[" +:+ FormatInt idx +:+ "] " +:+ Quote (source e)) (Apply (statements e) mapping);
    apply_exprs (idx + 1) exprs mapping
  end.

(** [s, _ := m[key].(string)]. *)
Definition string_field (m : list (string * val)) (key : string) : string :=
  match vindex m key with Scalar (AStr s) => s | _ => "" end.

Definition isRawTCPVless (m : list (string * val)) : bool :=
  if negb (EqualFold (TrimSpace (string_field m "type")) "vless") then false
  else if bool_decide (TrimSpace (string_field m "flow") ≠ "") then false
  else
    let network := TrimSpace (string_field m "network") in
    bool_decide (network = "") || EqualFold network "tcp".

Definition set_mux (o : overrideSchema) (mapping : nat) : M unit :=
  match XrayMux o with
  | None => mret tt
  | Some mux =>
    m ← map_entries mapping;
    if isRawTCPVless m then
      copied ← alloc_map mux;
      modify_map mapping (λ m, mset m "xray-mux" copied)
    else modify_map mapping (λ m, mdelete m "xray-mux")
  end.

Definition schema_Apply (o : overrideSchema) (mapping : nat) : M unit :=
  _ ← set_fields o mapping;
  _ ← change_name o mapping;
  _ ← apply_exprs 0 (OverrideExprs o) mapping;
  set_mux o mapping.
End schema.
