(* ===== verification/ExprParseSpec.v ===== *)
(** * Parsing an override expression returns

    Every parser leaves a suffix of the tokens, and a recursive call is made on tokens
    of fewer bytes, so that the fuel of the parser is enough: [NewOverrideExpr] returns
    an expression or an error for every text. *)

From Stdlib Require Import Ascii.
From S2P Require Import Prelude Wire GoStrings GoFloat Runes ExprValue ExprParse.

(** ** What a parser leaves *)

Definition at_end (p : overrideExprParser) : Prop := kind (eof p) = TokenEOF.

(** [p'] is what is left of [p]. *)
Definition left_of (p' p : overrideExprParser) : Prop := eof p' = eof p ∧ rest p' `suffix_of` rest p.

#[global] Instance left_of_preorder : PreOrder left_of.
Proof.
  split; [by split|]. intros p q r [He Hs] [He' Hs']. split; [congruence|]. by etrans.
Qed.

Lemma left_of_end p' p : left_of p' p → at_end p → at_end p'.
Proof. unfold at_end. by intros [-> _]. Qed.

Lemma left_of_weight p' p : left_of p' p → (weight p' ≤ weight p)%nat.
Proof. intros [_ [k Hk]]. unfold weight. rewrite Hk, fmap_app, sum_list_with_app. lia. Qed.

Lemma left_of_length p' p : left_of p' p → (length (rest p') ≤ length (rest p))%nat.
Proof. intros [_ [k Hk]]. rewrite Hk, length_app. lia. Qed.

(** The parser returns on [p], and leaves a suffix. *)
Definition good {A} (m : parser A) (p : overrideExprParser) : Prop :=
  match m p with
  | Ret (Ok (_, p')) => left_of p' p
  | Ret (Err _) => True
  | _ => False
  end.

Lemma good_bind {A B} (m : parser A) (f : A → parser B) p :
  good m p → (∀ a p', m p = Ret (Ok (a, p')) → left_of p' p → good (f a) p') → good (m ≫= f) p.
Proof.
  unfold good. intros Hm Hf. unfold mbind, parser_bind. destruct (m p) as [[[a p']|e]| |]; [|done..].
  specialize (Hf a p' eq_refl Hm). destruct (f a p') as [[[b p'']|e]| |]; [|done..]. by etrans.
Qed.

Lemma good_eq {A} (m m' : parser A) p : m p = m' p → good m' p → good m p.
Proof. unfold good. by intros ->. Qed.

(** On all tokens of at most, and of less than, [N] bytes. *)
Definition good_upto {A} (N : nat) (m : parser A) : Prop :=
  ∀ p, at_end p → (weight p ≤ N)%nat → good m p.
Definition good_below {A} (N : nat) (m : parser A) : Prop :=
  ∀ p, at_end p → (weight p < N)%nat → good m p.
Definition good_always {A} (m : parser A) : Prop := ∀ p, at_end p → good m p.

Lemma always_upto {A} N (m : parser A) : good_always m → good_upto N m.
Proof. intros Hm p Hp _. by apply Hm. Qed.
Lemma always_below {A} N (m : parser A) : good_always m → good_below N m.
Proof. intros Hm p Hp _. by apply Hm. Qed.
Lemma upto_below {A} N (m : parser A) : good_upto N m → good_below N m.
Proof. intros Hm p Hp Hw. apply Hm; [done|lia]. Qed.

Lemma always_bind {A B} (m : parser A) (f : A → parser B) :
  good_always m → (∀ a, good_always (f a)) → good_always (m ≫= f).
Proof.
  intros Hm Hf p Hp. apply good_bind; [by apply Hm|]. intros a p' _ Hl. apply Hf. by eapply left_of_end.
Qed.

Lemma upto_bind {A B} N (m : parser A) (f : A → parser B) :
  good_upto N m → (∀ a, good_upto N (f a)) → good_upto N (m ≫= f).
Proof.
  intros Hm Hf p Hp Hw. apply good_bind; [by apply Hm|]. intros a p' _ Hl.
  apply Hf; [by eapply left_of_end|]. apply left_of_weight in Hl. lia.
Qed.

Lemma below_bind {A B} N (m : parser A) (f : A → parser B) :
  good_below N m → (∀ a, good_below N (f a)) → good_below N (m ≫= f).
Proof.
  intros Hm Hf p Hp Hw. apply good_bind; [by apply Hm|]. intros a p' _ Hl.
  apply Hf; [by eapply left_of_end|]. apply left_of_weight in Hl. lia.
Qed.

(** ** The basic parsers *)

Lemma always_ret {A} (a : A) : good_always (mret a).
Proof. intros p _. unfold good, mret, parser_ret. reflexivity. Qed.

Lemma always_fail {A} e : good_always (pfail e : parser A).
Proof. done. Qed.

Lemma always_lift {A} (r : result A) : good_always (plift r).
Proof. intros p _. unfold good, plift. destruct r; simpl; [reflexivity|done]. Qed.

Lemma always_peek : good_always peek.
Proof. intros p _. unfold good, peek. reflexivity. Qed.

Lemma left_of_tail p : left_of (mkParser (tail (rest p)) (eof p)) p.
Proof. split; [done|]. destruct (rest p) as [|t l]; [reflexivity|]. by exists [t]. Qed.

Lemma always_next : good_always next.
Proof. intros p _. unfold good, next. apply left_of_tail. Qed.

Lemma token_weight_pos t : (0 < token_weight t)%nat.
Proof. unfold token_weight. destruct (kind t); lia. Qed.

(** A token that is not the end is taken from the list. *)
Lemma next_strict p :
  at_end p → kind (peek_token p) ≠ TokenEOF →
  (weight (mkParser (tail (rest p)) (eof p)) + token_weight (peek_token p) = weight p)%nat ∧
  (length (tail (rest p)) < length (rest p))%nat.
Proof.
  intros He Hk. unfold peek_token, weight, at_end in *. destruct (rest p) as [|t l]; [done|].
  cbn [rest tail hd]. rewrite fmap_cons. cbn [sum_list sum_list_with id length]. unfold sum_list. lia.
Qed.

Lemma always_match k : good_always (match_ k).
Proof.
  unfold match_. apply always_bind; [apply always_peek|]. intros t. case_bool_decide.
  - apply always_bind; [apply always_next|]. intros _. apply always_ret.
  - apply always_ret.
Qed.

Lemma always_expect k msg : good_always (expect k msg).
Proof.
  unfold expect. apply always_bind; [apply always_next|]. intros t. case_bool_decide; [apply always_ret|done].
Qed.

Create HintDb parser.
#[global] Hint Resolve always_ret always_fail always_lift always_peek always_next always_match always_expect : parser.
#[global] Hint Resolve always_upto always_below upto_below : parser.

(** Splits a parser into its parts. *)
Ltac parts :=
  intros; repeat (match goal with
    | |- good_always (_ ≫= _) => apply always_bind; [|intros ?]
    | |- good_upto _ (_ ≫= _) => apply upto_bind; [|intros ?]
    | |- good_below _ (_ ≫= _) => apply below_bind; [|intros ?]
    | |- context [bool_decide ?P] => destruct (bool_decide P)
    | |- context [if ?b then _ else _] => destruct b
    | |- context [match kind ?t with _ => _ end] => destruct (kind t)
    end); eauto 3 with parser.

(** The part after a token that is not the end. *)
Lemma good_next {A} (k : overrideToken → parser A) p :
  at_end p → kind (peek_token p) ≠ TokenEOF →
  (∀ p', at_end p' → (weight p' + token_weight (peek_token p) = weight p)%nat →
    (length (rest p') < length (rest p))%nat → good (k (peek_token p)) p') →
  good (next ≫= k) p.
Proof.
  intros Hp Hk Hf. destruct (next_strict p Hp Hk) as [Hw Hl]. apply good_bind; [by apply always_next|].
  intros a p' [= <- <-] _. by apply Hf.
Qed.

Lemma good_peek {A} (k : overrideToken → parser A) p : good (k (peek_token p)) p → good (peek ≫= k) p.
Proof. done. Qed.

(** ** Paths *)

Section paths.
Context `{Unicode}.

Lemma always_bracket token : good_always (path_bracket token).
Proof.
  unfold path_bracket. parts; destruct (ParseIntBase _ _); eauto with parser.
Qed.
Hint Resolve always_bracket : parser.

Lemma good_path_loop fuel segments p :
  at_end p → (length (rest p) < fuel)%nat → good (path_loop fuel segments) p.
Proof.
  revert segments p. induction fuel as [|fuel IH]; intros segments p Hp Hl; [lia|]. cbn [path_loop]. apply good_peek.
  assert (∀ s p', left_of p' p → (length (rest p') < length (rest p))%nat → good (path_loop fuel s) p') as Hrec.
  { intros s p' Hp' Hlt. apply IH; [by eapply left_of_end|lia]. }
  clear IH. destruct (kind (peek_token p)) eqn:Hk; try by apply always_ret.
  - apply good_bind; [by apply always_next|]. intros _ p1 [= <- <-] H1.
    destruct (next_strict p Hp ltac:(by rewrite Hk)) as [_ Hlt]. pose proof (left_of_end _ _ H1 Hp) as Hp1.
    apply good_bind; [by apply always_next|]. intros t p2 Ht H2.
    apply left_of_length in H2 as Hlen. cbn [rest] in Hlen.
    destruct (_ && _); [done|]. apply good_bind; [apply always_lift; by eapply left_of_end|].
    intros key p3 Hkey H3. apply left_of_length in H3 as Hlen3.
    apply Hrec; [by etrans; [done|]; etrans|lia].
  - apply good_bind; [by apply always_next|]. intros _ p1 [= <- <-] H1.
    destruct (next_strict p Hp ltac:(by rewrite Hk)) as [_ Hlt]. pose proof (left_of_end _ _ H1 Hp) as Hp1.
    apply good_bind; [by apply always_match|]. intros w p2 Hw H2.
    apply left_of_length in H2 as Hlen. cbn [rest] in Hlen. pose proof (left_of_end _ _ H2 Hp1) as Hp2.
    destruct w; [apply Hrec; [by etrans|lia]|].
    apply good_bind; [by apply always_next|]. intros t p3 _ H3. pose proof (left_of_end _ _ H3 Hp2) as Hp3.
    apply good_bind; [by apply always_bracket|]. intros s p4 _ H4. pose proof (left_of_end _ _ H4 Hp3) as Hp4.
    apply good_bind; [by apply always_expect|]. intros _ p5 _ H5.
    assert (left_of p5 p2) as H52 by (by etrans; [done|]; etrans). apply left_of_length in H52 as Hlen5.
    apply Hrec; [by etrans; [done|]; etrans|lia].
Qed.

Lemma always_path : good_always parsePath.
Proof.
  unfold parsePath. apply always_bind; [apply always_expect|]. intros _. apply always_bind; [apply always_peek|].
  intros t. apply always_bind; [parts|]. intros segments p Hp. change (good (path_loop (S (length (rest p))) segments) p).
  apply good_path_loop; [done|lia].
Qed.
End paths.
#[global] Hint Resolve always_path : parser.

(** ** The lexer *)

Lemma span_length f s : (String.length (span f s).1 + String.length (span f s).2 = String.length s)%nat.
Proof.
  induction s as [|a s IH]; [done|]. cbn [span]. destruct (f a); [|done].
  destruct (span f s) as [p r]. cbn in *. lia.
Qed.

Lemma scanString_length s p q :
  scanOverrideString s = Some (p, q) → (String.length p + String.length q < String.length s)%nat.
Proof.
  remember (String.length s) as n eqn:Hn. revert s p q Hn.
  induction (lt_wf n) as [n _ IH]; intros s p q ->. destruct s as [|a r]; [done|]. cbn [scanOverrideString].
  destruct (Ascii.eqb a backslash).
  - destruct r as [|b r]; [done|]. destruct (scanOverrideString r) as [[p' q']|] eqn:E; [|done].
    intros [= <- <-]. apply (IH (String.length r)) in E; [|simpl; lia|done]. simpl. lia.
  - destruct (Ascii.eqb a dquote); [intros [= <- <-]; simpl; lia|].
    destruct (scanOverrideString r) as [[p' q']|] eqn:E; [|done].
    intros [= <- <-]. apply (IH (String.length r)) in E; [|simpl; lia|done]. simpl. lia.
Qed.

(** The pieces of a text have its length. *)
Definition pieces (s : string) (r : string * string) : Prop :=
  (String.length r.1 + String.length r.2 = String.length s)%nat.

Lemma fraction_pieces s : pieces s (scan_fraction s).
Proof.
  unfold pieces. destruct s as [|c r]; [done|]. cbn [scan_fraction]. destruct (Ascii.eqb c "."); [|done].
  pose proof (span_length is_digit r). destruct (span _ _). simpl in *. lia.
Qed.

Lemma exponent_pieces s : pieces s (scan_exponent s).
Proof.
  unfold pieces. destruct s as [|c r]; [done|]. cbn [scan_exponent]. destruct (one_of c "eE"); [|done].
  assert (pieces r (scan_sign r)) as Hs.
  { destruct r as [|d r]; [done|]. unfold pieces. cbn [scan_sign]. by destruct (one_of d "+-"). }
  unfold pieces in Hs. destruct (scan_sign r) as [sign r']. cbn [fst snd] in Hs.
  pose proof (span_length is_digit r'). destruct (span _ _). cbn [fst snd] in *.
  cbn [String.length]. rewrite string_app_length. lia.
Qed.

Lemma decimal_pieces s : pieces s (scan_decimal s).
Proof.
  unfold pieces, scan_decimal. pose proof (span_length is_digit s). destruct (span _ _) as [int r].
  pose proof (fraction_pieces r) as Hf. unfold pieces in Hf. destruct (scan_fraction r) as [frac r1].
  pose proof (exponent_pieces r1) as He. unfold pieces in He. destruct (scan_exponent r1) as [exp r2].
  cbn [fst snd] in *. rewrite !string_app_length. lia.
Qed.

(** A number is decimal or starts with "0x". *)
Lemma scanNumber_cases s :
  scanOverrideNumber s = scan_decimal s ∨
  ∃ x r, s = String "0" (String x r) ∧ one_of x "xX" = true ∧
    scanOverrideNumber s = (String "0" (String x (span is_hex_digit r).1), (span is_hex_digit r).2).
Proof.
  destruct s as [|a [|x r]]; [by left|by left; destruct a as [[][][][][][][][]]|].
  destruct (decide (a = "0"%char)) as [->|Ha]; [|left; by destruct a as [[][][][][][][][]]].
  cbn [scanOverrideNumber]. destruct (one_of x "xX") eqn:Hx; [|by left]. right. exists x, r.
  split_and!; [done..|]. by destruct (span _ _).
Qed.

Lemma number_pieces s : pieces s (scanOverrideNumber s).
Proof.
  destruct (scanNumber_cases s) as [->|(x & r & -> & _ & ->)]; [apply decimal_pieces|].
  unfold pieces. pose proof (span_length is_hex_digit r). simpl. lia.
Qed.

Lemma number_nonempty a r : is_digit a = true → (0 < String.length (scanOverrideNumber (String a r)).1)%nat.
Proof.
  intros Ha. destruct (scanNumber_cases (String a r)) as [->|(x & r' & _ & _ & ->)]; [|simpl; lia].
  unfold scan_decimal. cbn [span]. rewrite Ha. destruct (span is_digit r) as [int r1].
  destruct (scan_fraction r1) as [frac r2], (scan_exponent r2) as [exp r3]. simpl. lia.
Qed.

Lemma token_weight_other k t p : k ≠ TokenString → token_weight (mkToken k t p) = Nat.max 1 (String.length t).
Proof. unfold token_weight. simpl. by destruct k. Qed.

Lemma operator_token_other a k two :
  operator_token a = Some (k, two) → k ≠ TokenString ∧ ∀ b k2, two = Some (b, k2) → k2 ≠ TokenString.
Proof.
  destruct a as [[][][][][][][][]]; try done; intros [= <- <-]; split; try done; by intros ?? [= <- <-].
Qed.

Section lexer.
Context `{Unicode}.

(** A token stands for no more bytes than it takes. *)
Lemma lex_token_weight position a r t r' :
  lex_token position a r = Ok (t, r') → (token_weight t + String.length r' ≤ S (String.length r))%nat.
Proof.
  unfold lex_token. destruct (operator_token a) as [[k two]|] eqn:Hop.
  { apply operator_token_other in Hop as [Hk Hk2].
    destruct two as [[b k2]|], r as [|c r1]; try destruct (Ascii.eqb c b); intros [= <- <-];
      (rewrite token_weight_other; [simpl; lia|]); [done|by eapply Hk2|done..]. }
  destruct (Ascii.eqb a "!").
  { destruct r as [|c r1]; [done|]. destruct (decide (c = "="%char)) as [->|Hc].
    - intros [= <- <-]. rewrite token_weight_other by done. simpl. lia.
    - destruct c as [[][][][][][][][]]; try done. }
  destruct (Ascii.eqb a dquote).
  { destruct (scanOverrideString r) as [[value next]|] eqn:E; [|done]. intros [= <- <-].
    apply scanString_length in E. unfold token_weight. simpl. lia. }
  destruct (is_digit a) eqn:Ha.
  { pose proof (number_pieces (String a r)) as Hn. pose proof (number_nonempty a r Ha). unfold pieces in Hn.
    destruct (scanOverrideNumber (String a r)) as [t' r2]. intros [= <- <-]. cbn [fst snd String.length] in *.
    rewrite token_weight_other by done. cbn [String.length]. lia. }
  destruct (isOverrideIdentifierStart a); [|done].
  pose proof (span_length isOverrideIdentifierPart r) as Hs. destruct (span _ _) as [t' r2].
  intros [= <- <-]. rewrite token_weight_other by done. simpl in *. lia.
Qed.

Lemma lex_loop_returns fuel position s :
  (String.length s < fuel)%nat →
  ∃ r, lex_loop fuel position s = Ret r ∧
    ∀ tokens n, r = Ok (tokens, n) → (sum_list (token_weight <$> tokens) ≤ String.length s)%nat.
Proof.
  revert position s. induction fuel as [|fuel IH]; intros position s Hl; [lia|]. cbn [lex_loop].
  destruct s as [|a r]; [eexists; split; [done|]; by intros ?? [= <- <-]|]. cbn [String.length] in Hl.
  destruct (IsSpaceByte a).
  { destruct (IH (position + 1) r) as (x & -> & Hx); [lia|]. exists x. split; [done|].
    intros tokens n ->. specialize (Hx _ _ eq_refl). simpl. lia. }
  destruct (Ascii.eqb a "#"); [eexists; split; [done|]; intros ?? [= <- <-]; simpl; lia|].
  destruct (lex_token position a r) as [[t r']|e] eqn:Ht; [|by eexists].
  apply lex_token_weight in Ht. pose proof (token_weight_pos t).
  destruct (IH (position + Z.of_nat (String.length (String a r) - String.length r')) r') as (x & -> & Hx); [lia|].
  run. eexists. split; [done|]. intros tokens n. destruct x as [[ts m]|e]; [|done]. intros [= <- <-].
  specialize (Hx _ _ eq_refl). rewrite fmap_cons. cbn [sum_list sum_list_with id fst]. unfold sum_list in *.
  cbn [String.length]. lia.
Qed.

Lemma lex_returns source :
  ∃ r, lexOverrideExpr source = Ret r ∧
    ∀ p, r = Ok p → at_end p ∧ (weight p ≤ String.length source)%nat.
Proof.
  unfold lexOverrideExpr. destruct (lex_loop_returns (S (String.length source)) 0 source) as (r & -> & Hr); [lia|].
  run. eexists. split; [done|]. intros p. destruct r as [[tokens n]|e]; [|done]. intros [= <-].
  split; [done|]. unfold weight. simpl. by apply (Hr _ n).
Qed.
End lexer.

(** ** Strings *)

Lemma interpolation_length raw depth q x y :
  findOverrideInterpolationEnd raw depth q = Some (x, y) →
  (String.length x + String.length y < String.length raw)%nat.
Proof.
  remember (String.length raw) as n eqn:Hn. revert raw depth q x y Hn.
  induction (lt_wf n) as [n _ IH]; intros raw depth q x y ->. destruct raw as [|a r]; [done|].
  cbn [findOverrideInterpolationEnd].
  assert (∀ d' q', match findOverrideInterpolationEnd r d' q' with
    | Some (x, y) => Some (String a x, y) | None => None end = Some (x, y) →
    (String.length x + String.length y < String.length (String a r))%nat) as Hcont.
  { intros d' q'. destruct (findOverrideInterpolationEnd r d' q') as [[x' y']|] eqn:E; [|done]. intros [= <- <-].
    apply (IH (String.length r)) in E; [|simpl; lia|done]. simpl. lia. }
  destruct (Ascii.eqb a backslash).
  { destruct r as [|b r]; [done|]. destruct (findOverrideInterpolationEnd r depth q) as [[x' y']|] eqn:E; [|done].
    intros [= <- <-]. apply (IH (String.length r)) in E; [|simpl; lia|done]. simpl. lia. }
  destruct q; [apply Hcont|]. destruct (Ascii.eqb a dquote); [apply Hcont|].
  destruct (Ascii.eqb a "("); [apply Hcont|]. destruct (Ascii.eqb a ")"); [|apply Hcont].
  destruct depth; [|apply Hcont]. intros [= <- <-]. simpl. lia.
Qed.

Lemma unescape_length s : (String.length (unescape_quotes s) ≤ String.length s)%nat.
Proof.
  remember (String.length s) as n eqn:Hn. revert s Hn.
  induction (lt_wf n) as [n _ IH]; intros s ->. destruct s as [|a [|b r]]; [done|done|].
  change (unescape_quotes (String a (String b r))) with
    (if Ascii.eqb a backslash && Ascii.eqb b dquote then String dquote (unescape_quotes r)
     else String a (unescape_quotes (String b r))).
  pose proof (IH (String.length r) ltac:(simpl; lia) r eq_refl).
  pose proof (IH (String.length (String b r)) ltac:(simpl; lia) (String b r) eq_refl).
  destruct (_ && _); simpl in *; lia.
Qed.

(** The interpolated texts are shorter than the string. *)
Lemma string_loop_returns src fuel token raw lit start parts :
  (∀ s, (String.length s < String.length raw)%nat → ∃ r, src s = Ret r) → (String.length raw < fuel)%nat →
  ∃ r, string_loop src fuel token raw lit start parts = Ret r.
Proof.
  revert raw lit start parts. induction fuel as [|fuel IH]; intros raw lit start parts Hsrc Hl; [lia|].
  cbn [string_loop]. destruct raw as [|a r]; [by eexists|]. cbn [String.length] in *.
  assert (∀ raw' lit start parts, (String.length raw' ≤ String.length r)%nat →
    ∃ x, string_loop src fuel token raw' lit start parts = Ret x) as Hrec.
  { intros raw' lit' start' parts' Hr. apply IH; [|lia]. intros s Hs. apply Hsrc. lia. }
  destruct (if Ascii.eqb a backslash then r else EmptyString) as [|b r'] eqn:Hr; [by apply Hrec|].
  assert (r = String b r') as -> by (by destruct (Ascii.eqb a backslash)). cbn [String.length] in *.
  destruct (negb (Ascii.eqb b "(")); [apply Hrec; lia|].
  destruct (decodeOverrideString lit _) as [literal|e]; [|by eexists].
  destruct (findOverrideInterpolationEnd r' 0 false) as [[x y]|] eqn:E; [|by eexists].
  apply interpolation_length in E. pose proof (unescape_length x).
  destruct (Hsrc (unescape_quotes x)) as [[expression|e] ->]; [lia| |]; run; [|by eexists]. apply Hrec. lia.
Qed.

Lemma parseString_returns src token :
  (∀ s, (String.length s < String.length (text token))%nat → ∃ r, src s = Ret r) →
  ∃ r, parseString src token = Ret r.
Proof. intros Hsrc. apply string_loop_returns; [done|lia]. Qed.

(** ** Expressions *)

(** The end separates nothing. *)
Ltac no_end := apply (bool_decide_unpack _); vm_compute; exact I.

Section expressions.
Context `{Unicode} (N : nat).
Context (parse_value : bool → parser overrideValueExpr) (src : string → outcome (result overrideValueExpr)).
Hypothesis rec_value : ∀ allow, good_below N (parse_value allow).
Hypothesis rec_source : ∀ s, (String.length s < N)%nat → ∃ r, src s = Ret r.
Hint Resolve rec_value : parser.

(** The loops take a token in every round. *)
Lemma good_more_items {A} fuel (item : parser A) separators items p :
  TokenEOF ∉ separators → at_end p → (length (rest p) < fuel)%nat →
  (∀ p', at_end p' → left_of p' p → (weight p' < weight p)%nat → good item p') →
  good (more_items fuel item separators items) p.
Proof using Type.
  intros Hsep. revert items p. induction fuel as [|fuel IH]; intros items p Hp Hl Hitem; [lia|].
  cbn [more_items]. apply good_peek. case_bool_decide as Hk; [|by apply always_ret].
  assert (kind (peek_token p) ≠ TokenEOF) as Hne by congruence.
  destruct (next_strict p Hp Hne) as [Hw Hlt]. pose proof (token_weight_pos (peek_token p)).
  apply good_bind; [by apply always_next|]. intros _ p1 [= <- <-] H1.
  apply good_bind; [apply Hitem; [by eapply left_of_end|done|lia]|]. intros x p2 _ H2.
  apply left_of_length in H2 as Hlen. apply left_of_weight in H2 as Hw2. cbn [rest] in Hlen.
  apply IH; [by eapply left_of_end; [etrans|]|lia|]. intros p3 Hp3 H3 Hw3.
  apply Hitem; [done|by etrans; [done|]; etrans|lia].
Qed.

Lemma below_separated {A} (item : parser A) separators :
  TokenEOF ∉ separators → good_below N item → good_below N (separated item separators).
Proof using Type.
  intros Hsep Hitem. unfold separated. apply below_bind; [done|]. intros x p Hp Hw.
  change (good (more_items (S (length (rest p))) item separators [x]) p).
  apply good_more_items; [done|done|lia|]. intros p' Hp' _ Hw'. apply Hitem; [done|lia].
Qed.

Lemma below_union allow : good_below N (parseUnionExpression parse_value allow).
Proof using rec_value.
  unfold parseUnionExpression. apply below_bind; [apply below_separated; [no_end|auto with parser]|].
  intros [|v [|v2 vs]]; auto with parser.
Qed.

Lemma below_map_entry : good_below N (map_entry parse_value).
Proof using rec_value. unfold map_entry. parts. Qed.

Lemma below_function_args : good_below N (function_args parse_value).
Proof using rec_value.
  unfold function_args. parts. apply below_separated; [no_end|auto with parser].
Qed.
Hint Resolve below_union below_map_entry below_function_args : parser.

Lemma below_identifier token : good_below N (parse_identifier parse_value token).
Proof using rec_value.
  unfold parse_identifier. repeat case_bool_decide; auto with parser.
  apply below_bind; [auto with parser|]. intros args. destruct (negb _); [|destruct (isOverrideStreamFunction (text token))]; auto with parser.
Qed.

Lemma upto_primary : good_upto N (parsePrimary parse_value src).
Proof using rec_source rec_value.
  intros p Hp Hw. unfold parsePrimary. apply good_peek.
  assert (∀ A (k : parser A), kind (peek_token p) ≠ TokenEOF → good_below N k → good (next ≫= λ _, k) p) as Hnext.
  { intros A k Hk Hb. apply good_next; [done..|]. intros p' Hp' Hw' _. pose proof (token_weight_pos (peek_token p)).
    apply Hb; [done|lia]. }
  destruct (kind (peek_token p)) eqn:Hk; try done.
  - apply good_bind; [by apply always_path|]. intros path p' _ Hl. apply always_ret. by eapply left_of_end.
  - apply Hnext; [done|]. by apply below_identifier.
  - apply good_next; [by rewrite ?Hk..|]. intros p' Hp' Hw' _. unfold good.
    destruct (parseString_returns src (peek_token p)) as [[e|e] ->]; [|cbn; reflexivity|done].
    intros s Hs. apply rec_source. unfold token_weight in Hw'. rewrite Hk in Hw'. lia.
  - apply Hnext; [done|]. auto with parser.
  - apply Hnext; [done|]. parts.
  - apply Hnext; [done|]. parts. apply below_separated; [no_end|auto with parser].
  - apply Hnext; [done|]. parts. apply below_separated; [no_end|auto with parser].
Qed.

Lemma upto_unary : good_upto N (parseUnary parse_value src).
Proof using rec_source rec_value.
  unfold parseUnary. apply upto_bind; [auto with parser|]. intros t. case_bool_decide; [|apply upto_primary].
  parts.
Qed.

Lemma upto_binary operand accepts :
  (∀ t, kind t = TokenEOF → accepts t = None) → good_upto N operand → good_upto N (binary_level operand accepts).
Proof using Type.
  intros Heof Hop. unfold binary_level. apply upto_bind; [done|]. intros l p Hp Hw.
  change (good (binary_loop (S (length (rest p))) operand accepts l) p).
  assert (length (rest p) < S (length (rest p)))%nat as Hl by lia. revert Hl.
  generalize (S (length (rest p))) as fuel. intros fuel. revert l p Hp Hw.
  induction fuel as [|fuel IH]; intros l p Hp Hw Hl; [lia|]. cbn [binary_loop]. apply good_peek.
  destruct (accepts (peek_token p)) as [operator|] eqn:Ha; [|by apply always_ret].
  assert (kind (peek_token p) ≠ TokenEOF) as Hne by (intros ?%Heof; congruence).
  apply good_next; [done..|]. intros p' Hp' Hw' Hl'. apply good_bind; [apply Hop; [done|lia]|].
  intros r p2 _ H2. apply left_of_length in H2 as Hlen. apply left_of_weight in H2 as Hw2.
  apply IH; [by eapply left_of_end|lia|lia].
Qed.

Lemma upto_alternative : good_upto N (parseAlternative parse_value src).
Proof using rec_source rec_value.
  do 4 (apply upto_binary; [by intros t ->|]). apply upto_unary.
Qed.

Lemma identifier_end t name : kind t = TokenEOF → is_identifier t name = false.
Proof using Type. unfold is_identifier. by intros ->. Qed.

Lemma upto_or : good_upto N (parseOr parse_value src).
Proof using rec_source rec_value.
  do 2 (apply upto_binary; [intros t Ht; by rewrite identifier_end|]). apply upto_alternative.
Qed.

Lemma upto_update : good_upto N (parseValueUpdateExpression parse_value).
Proof using rec_value.
  intros p Hp Hw. unfold good, parseValueUpdateExpression.
  destruct (kind (peek_token p)) eqn:Hk; try (cbn; reflexivity).
  pose proof (always_path p Hp) as Hg. unfold good in Hg.
  destruct (parsePath p) as [[[path p']|e]| |] eqn:E; try done; try (cbn; reflexivity).
  destruct (isOverrideAssignmentToken (kind (peek_token p'))) eqn:Ha; [|cbn; reflexivity].
  assert (kind (peek_token p') ≠ TokenEOF) as Hne by (intros Hx; by rewrite Hx in Ha).
  pose proof (left_of_end _ _ Hg Hp) as Hp'. pose proof (left_of_weight _ _ Hg) as Hw'.
  assert (good (operator ← next; value ← parse_value false;
    mret (Some (ValueUpdateExpr path (kind operator) value))) p') as Hgood.
  { apply good_next; [done..|]. intros p2 Hp2 Hw2 _. pose proof (token_weight_pos (peek_token p')).
    apply good_bind; [apply rec_value; [done|lia]|]. intros v p3 _ H3. apply always_ret. by eapply left_of_end. }
  unfold good in Hgood. destruct ((operator ← next; _) p') as [[[v p2]|e2]| |]; try done. by etrans.
Qed.

Lemma upto_stage other : good_upto N other → good_upto N (parse_stage parse_value other).
Proof using rec_value.
  intros Ho. unfold parse_stage. apply upto_bind; [apply upto_update|]. intros [e|]; auto with parser.
Qed.

Lemma upto_body allow : good_upto N (value_body parse_value src allow).
Proof using rec_source rec_value.
  unfold value_body. destruct allow; [|apply upto_stage, upto_alternative].
  apply upto_bind; [apply upto_stage, upto_or|]. intros first.
  apply upto_bind; [|intros [|s [|s2 ss]]; auto with parser]. intros p Hp Hw.
  change (good (more_items (S (length (rest p))) (parse_stage parse_value (parseOr parse_value src)) [TokenPipe] [first]) p).
  apply good_more_items; [no_end|done|lia|]. intros p' Hp' _ Hw'. apply upto_stage; [apply upto_or|done|lia].
Qed.
End expressions.

(** ** Texts *)

Section texts.
Context `{Unicode}.

Lemma source_body_returns n s :
  (∀ allow, good_below n (parse_fuel n allow)) → (String.length s < n)%nat →
  ∃ r, source_body (parse_fuel n) s = Ret r.
Proof.
  intros Hrec Hs. unfold source_body. destruct (lex_returns s) as (r & -> & Hr). run.
  destruct r as [p|e]; [|by eexists]. destruct (Hr p eq_refl) as [Hp Hw].
  pose proof (below_union n (parse_fuel n) Hrec true p Hp ltac:(lia)) as Hg. unfold good in Hg.
  destruct (parseUnionExpression _ true p) as [[[e p']|e]| |]; [..|done|done]; run; by eexists.
Qed.

(** A byte of the tokens is a round of the recursion. *)
Lemma parse_fuel_good n allow : good_below n (parse_fuel n allow).
Proof.
  revert allow. induction n as [|n IH]; intros allow p Hp Hw; [lia|].
  change (parse_fuel (S n) allow) with (value_body (parse_fuel n) (source_body (parse_fuel n)) allow).
  apply (upto_body n); [done| |done|lia]. intros s Hs. by apply source_body_returns.
Qed.

Lemma always_value allow : good_always (parseValueExpression allow).
Proof.
  intros p Hp. apply (good_eq _ (parse_fuel (S (weight p)) allow)); [reflexivity|].
  apply parse_fuel_good; [done|apply Nat.lt_succ_diag_r].
Qed.
Hint Resolve always_value : parser.

Lemma always_of_below {A} (m : parser A) : (∀ N, good_below N m) → good_always m.
Proof. intros Hm p Hp. apply (Hm (S (weight p))); [done|lia]. Qed.

Lemma always_separated {A} (item : parser A) separators :
  TokenEOF ∉ separators → good_always item → good_always (separated item separators).
Proof. intros Hs Hi. apply always_of_below. intros N. apply below_separated; [done|]. by apply always_below. Qed.

Lemma always_union allow : good_always (parseUnionExpression parseValueExpression allow).
Proof. apply always_of_below. intros N. apply below_union. intros a. apply always_below, always_value. Qed.
Hint Resolve always_union : parser.

Lemma always_stage : good_always target_stage.
Proof. unfold target_stage. parts. Qed.

Lemma always_target : good_always parseAssignmentTarget.
Proof.
  unfold parseAssignmentTarget. parts. apply always_separated; [no_end|apply always_stage].
Qed.
Hint Resolve always_target : parser.

Lemma always_delete : good_always parse_delete.
Proof. unfold parse_delete. parts. apply always_separated; [no_end|apply always_path]. Qed.

Lemma always_assignment : good_always parse_assignment.
Proof.
  unfold parse_assignment. apply always_bind; [auto with parser|]. intros t. apply always_bind; [parts|].
  intros [path target]. parts.
Qed.

Lemma always_statement : good_always parseStatement.
Proof.
  intros p Hp. unfold good, parseStatement. destruct (is_identifier (peek_token p) "del"); [by apply always_delete|].
  assert (∃ b, startsAssignmentStatement p = Ret b) as [b ->].
  { unfold startsAssignmentStatement. destruct (kind (peek_token p)); try by eexists.
    pose proof (always_path p Hp) as Hg. unfold good in Hg.
    destruct (parsePath p) as [[[path p']|e]| |]; [..|done|done]; run; by eexists. }
  run. destruct b; [by apply always_assignment|].
  apply (always_bind (parseUnionExpression parseValueExpression true)
    (λ expression, mret (FilterStatement expression))); auto with parser.
Qed.
Hint Resolve always_statement : parser.

Lemma always_parse : good_always parse.
Proof.
  unfold parse. apply always_bind; [auto with parser|]. intros t. case_bool_decide; [done|].
  apply always_bind; [auto with parser|]. intros first. apply always_bind; [|parts]. intros p Hp.
  change (good (more_items (S (length (rest p))) piped_statement [TokenPipe] [first]) p).
  apply good_more_items; [no_end|done|lia|]. intros p' Hp' _ _. unfold piped_statement. apply good_peek.
  case_bool_decide; [done|]. by apply always_statement.
Qed.

Lemma more_items_nonempty {A} fuel (item : parser A) separators items p items' p' :
  more_items fuel item separators items p = Ret (Ok (items', p')) → items ≠ [] → items' ≠ [].
Proof.
  revert items p. induction fuel as [|fuel IH]; intros items p; [done|]. cbn [more_items].
  unfold peek, mbind, parser_bind. cbn. case_bool_decide; [|by intros [= <- <-]].
  destruct (item _) as [[[x p1]|e]| |]; [|done..]. intros Hm _. apply (IH _ _ Hm). by destruct items.
Qed.

Lemma parse_nonempty p l p' : parse p = Ret (Ok (l, p')) → l ≠ [].
Proof.
  unfold parse, mbind, parser_bind, peek. case_bool_decide; [done|].
  destruct (parseStatement p) as [[[first p1]|e]| |]; [|done..].
  destruct (more_items _ _ _ [first] p1) as [[[items p2]|e]| |] eqn:E; [|done..].
  case_bool_decide; [done|]. intros [= <- <-]. by apply more_items_nonempty in E.
Qed.

Lemma parse_returns text : ∃ r, NewOverrideExpr text = Ret r ∧ ∀ e, r = Ok e → source e = text ∧ statements e ≠ [].
Proof.
  unfold NewOverrideExpr. destruct (lex_returns text) as (r & -> & Hr). run.
  destruct r as [p|e]; [|by eexists]. destruct (Hr p eq_refl) as [Hp _].
  pose proof (always_parse p Hp) as Hg. unfold good in Hg.
  destruct (parse p) as [[[l p']|e]| |] eqn:E; [..|done|done]; run; [|by eexists].
  eexists; split; [done|]. intros ? [= <-]. split; [done|]. by apply parse_nonempty in E.
Qed.

End texts.
