(* ===== verification/ExprStoreSpec.v ===== *)
(** * Stores of override expressions stay well formed

    A store is [valid] when its references lead to objects of it and never lead back,
    so that the tree of a value can be read.  [safe n D W m] says that the code [m],
    run on a valid store, returns a result or an error or stops with a panic of [Stops],
    changes only objects of [W], and
    leads to nothing but objects of [D]; both sets hold all objects that are made after
    the first [n].  The operations of [ExprStore] are shown to be safe: an update goes
    through an object only after everything below it, which does not hold it. *)

From Stdlib Require Import Ascii.
From S2P Require Import Prelude Wire GoStrings GoFloat ExprValue ExprParse ExprStore.

(** ** References *)

Definition locs (v : val) : list nat :=
  match v with
  | Scalar _ => []
  | Slice l _ => [l]
  | MapRef l => [l]
  end.

Definition object_vals (o : object) : list val :=
  match o with
  | OArray items => items
  | OMap m => m.*2
  end.

(** The object at [l] holds a reference to [c]. *)
Definition points (h : store) (l c : nat) : Prop :=
  ∃ o v, cells h !! l = Some o ∧ v ∈ object_vals o ∧ c ∈ locs v.

Record valid (h : store) : Prop := {
  valid_dom : ∀ l, is_Some (cells h !! l) → (l < fresh h)%nat;
  valid_refs : ∀ l c, points h l c → (c < fresh h)%nat;
  valid_acyclic : ∀ l, Acc (λ c p, points h p c) l;
}.

(** A value whose references are in [D], to objects of a store with [n] objects. *)
Definition inside (D : nat → Prop) (n : nat) (v : val) : Prop := ∀ c, c ∈ locs v → D c ∧ (c < n)%nat.

Definition closed (D : nat → Prop) (h : store) : Prop := ∀ l c, D l → points h l c → D c.

Record inv (D W : nat → Prop) (h : store) : Prop := {
  inv_valid : valid h;
  inv_closed : closed D h;
  inv_new : ∀ l, (fresh h ≤ l)%nat → D l ∧ W l;
}.

(** The values in a result. *)
Class Within (A : Type) := {
  within : (val → Prop) → A → Prop;
  within_impl : ∀ (P Q : val → Prop) a, (∀ v, P v → Q v) → within P a → within Q a;
}.

#[export] Instance within_val : Within val.
Proof. refine {| within P v := P v |}. auto. Defined.
#[export] Instance within_list {A} `{Within A} : Within (list A).
Proof. refine {| within P l := Forall (within P) l |}. intros P Q l HPQ Hl. eapply Forall_impl; [done|]. intros ?. by apply within_impl. Defined.
#[export] Instance within_prod {A B} `{Within A, Within B} : Within (A * B).
Proof. refine {| within P e := within P e.1 ∧ within P e.2 |}. intros P Q e HPQ [? ?]. split; by eapply within_impl. Defined.
#[export] Instance within_option {A} `{Within A} : Within (option A).
Proof. refine {| within P o := from_option (within P) True o |}. intros P Q [a|] HPQ; [|done]. by apply within_impl. Defined.

Definition within_nothing (A : Type) : Within A := {| within P a := True; within_impl P Q a _ _ := I |}.
#[export] Instance within_unit : Within unit := within_nothing _.
#[export] Instance within_bool : Within bool := within_nothing _.
#[export] Instance within_Z : Within Z := within_nothing _.
#[export] Instance within_string : Within string := within_nothing _.
#[export] Instance within_any : Within any := within_nothing _.
#[export] Instance within_segment : Within overridePathSegment := within_nothing _.
(** An array and a length, of a slice. *)
#[export] Instance within_slice : Within (nat * nat).
Proof. refine {| within P e := P (Slice e.1 e.2) |}. auto. Defined.

(** The panics that are put up with. *)
Class Stops := stops : string → Prop.

Definition safe `{Stops} {A} `{Within A} (n : nat) (D W : nat → Prop) (m : M A) : Prop :=
  ∀ h, (n ≤ fresh h)%nat → inv D W h →
  match m h with
  | Ret (Ok (a, h')) =>
    inv D W h' ∧ (fresh h ≤ fresh h')%nat ∧ (∀ l, W l ∨ cells h' !! l = cells h !! l) ∧
    within (inside D (fresh h')) a
  | Ret (Err _) => True
  | Panic msg => stops msg
  | OutOfFuel => False
  end.

Section safe.
Context `{Stops}.

Lemma inside_mono (D D' : nat → Prop) n n' v :
  inside D n v → (∀ l, D l → D' l) → (n ≤ n')%nat → inside D' n' v.
Proof. intros Hv HD Hn c Hc. destruct (Hv c Hc). split; [auto|lia]. Qed.

Lemma within_later {A} `{Within A} D n n' (a : A) :
  within (inside D n) a → (n ≤ n')%nat → within (inside D n') a.
Proof. intros Ha Hn. eapply within_impl; [|done]. intros v Hv. by eapply inside_mono. Qed.

Lemma safe_later {A} `{Within A} n n' D W (m : M A) : safe n D W m → (n ≤ n')%nat → safe n' D W m.
Proof. intros Hm Hn h Hh. apply Hm. lia. Qed.

Lemma safe_bind {A B} `{Within A, Within B} n D W (m : M A) (f : A → M B) :
  safe n D W m →
  (∀ a n', (n ≤ n')%nat → within (inside D n') a → safe n' D W (f a)) → safe n D W (m ≫= f).
Proof.
  intros Hm Hf h Hn Hi. specialize (Hm h Hn Hi). unfold mbind, M_bind.
  destruct (m h) as [[[a h']|e]| |]; [|done..]. destruct Hm as (Hi' & Hle & Hu & Ha).
  specialize (Hf a (fresh h') ltac:(lia) Ha h' ltac:(lia) Hi').
  destruct (f a h') as [[[b h'']|e]| |]; [|done..]. destruct Hf as (Hi'' & Hle' & Hu' & Hb).
  split_and!; [done|lia| |done]. intros l. destruct (Hu' l) as [?|Hl]; [by left|]. rewrite Hl. apply Hu.
Qed.

Lemma safe_ret {A} `{Within A} n D W (a : A) : within (inside D n) a → safe n D W (mret a).
Proof. intros Ha h Hn Hi. split_and!; [done|lia|by right|]. by eapply within_later. Qed.

Lemma safe_fail {A} `{Within A} n D W msg : safe n D W (fail msg : M A).
Proof. done. Qed.

Lemma safe_lift {A} `{Within A} n D W (r : result A) : (∀ a, within (inside D n) a) → safe n D W (lift r).
Proof. intros Ha h Hn Hi. unfold lift. destruct r as [a|e]; cbn; [|done]. split_and!; [done|lia|by right|]. by eapply within_later. Qed.

Lemma safe_mapM {A B} `{Within A, Within B} n D W (f : A → M B) l :
  within (inside D n) l →
  (∀ x n', (n ≤ n')%nat → within (inside D n') x → safe n' D W (f x)) → safe n D W (mapM_ f l).
Proof.
  intros Hl Hf. revert n Hl Hf. induction l as [|x l IH]; intros n Hl Hf; [apply safe_ret; constructor|].
  apply Forall_cons in Hl as [Hx Hl]. cbn [mapM_]. apply safe_bind; [by apply Hf|]. intros y n' Hn' Hy.
  apply safe_bind.
  { apply IH; [by apply (within_later (A := list A) D n)|]. intros z n'' Hn'' Hz. apply Hf; [lia|done]. }
  intros ys n'' Hn'' Hys. apply safe_ret. constructor; [|done]. by eapply within_later.
Qed.

Lemma within_join {A} `{Within A} P (ls : list (list A)) : within P ls → within P (mjoin ls).
Proof.
  intros Hl. induction ls as [|l ls IH]; [constructor|]. apply Forall_cons in Hl as [Hl Hls].
  apply Forall_app. split; [done|by apply IH].
Qed.

Lemma safe_concatM {A B} `{Within A, Within B} n D W (f : A → M (list B)) l :
  within (inside D n) l →
  (∀ x n', (n ≤ n')%nat → within (inside D n') x → safe n' D W (f x)) → safe n D W (concatM f l).
Proof.
  intros Hl Hf. unfold concatM. apply safe_bind; [by apply safe_mapM|].
  intros ys n' Hn' Hys. apply safe_ret. by apply within_join.
Qed.

Lemma safe_wrap {A} `{Within A} n D W (m m' : M A) :
  (∀ h, match m h with Ret (Err _) => ∃ e, m' h = Ret (Err e) | r => m' h = r end) → safe n D W m → safe n D W m'.
Proof.
  intros Hw Hm h Hn Hi. specialize (Hm h Hn Hi). specialize (Hw h).
  destruct (m h) as [[[a h']|e]| |]; try (by rewrite Hw). by destruct Hw as [e' ->].
Qed.

(** ** Reading *)

(** A slice and a map are read when what they hold is. *)
Lemma denote_slice fuel h l n :
  (∀ v, v ∈ get_array h l → ∃ t, denote fuel h v = Ret t) → ∃ t, denote (S fuel) h (Slice l n) = Ret t.
Proof.
  intros Hv. cbn [denote].
  match goal with |- ∃ t, (?go _ ≫= _) = _ => assert (∀ vs, (∀ v, v ∈ vs → v ∈ get_array h l) → ∃ ts, go vs = Ret ts) as Hgo end.
  { induction vs as [|v vs IH]; intros Hin; [by eexists|].
    destruct (Hv v) as [t Ht]; [apply Hin; left|].
    destruct IH as [ts Hts]; [intros w Hw; apply Hin; by right|].
    rewrite Ht. run. rewrite Hts. by eexists. }
  destruct (Hgo (items_of h l n)) as [ts ->]; [|by eexists].
  intros v Hin. unfold items_of in Hin. by eapply elem_of_take in Hin as (i & Hi & _); eapply list_elem_of_lookup_2.
Qed.

Lemma denote_map fuel h l :
  (∀ v, v ∈ (get_map h l).*2 → ∃ t, denote fuel h v = Ret t) → ∃ t, denote (S fuel) h (MapRef l) = Ret t.
Proof.
  intros Hv. cbn [denote].
  match goal with |- ∃ t, (?go _ ≫= _) = _ => assert (∀ m, (∀ v, v ∈ m.*2 → v ∈ (get_map h l).*2) → ∃ ts, go m = Ret ts) as Hgo end.
  { induction m as [|[k v] m IH]; intros Hin; [by eexists|].
    destruct (Hv v) as [t Ht]; [apply Hin; left|].
    destruct IH as [ts Hts]; [intros w Hw; apply Hin; by right|].
    rewrite Ht. run. rewrite Hts. by eexists. }
  destruct (Hgo (get_map h l)) as [ts ->]; [done|by eexists].
Qed.

Lemma get_array_points h l v c : v ∈ get_array h l → c ∈ locs v → points h l c.
Proof.
  unfold get_array. destruct (cells h !! l) as [[items|m]|] eqn:E; [|by intros ?%not_elem_of_nil..].
  intros Hv Hc. by exists (OArray items), v.
Qed.

Lemma get_map_points h l v c : v ∈ (get_map h l).*2 → c ∈ locs v → points h l c.
Proof.
  unfold get_map. destruct (cells h !! l) as [[items|m]|] eqn:E; [by intros ?%not_elem_of_nil| |by intros ?%not_elem_of_nil].
  intros Hv Hc. by exists (OMap m), v.
Qed.

Lemma acyclic_irrefl h l : Acc (λ c p, points h p c) l → ¬ tc (points h) l l.
Proof.
  intros Hacc. induction Hacc as [l _ IH]. intros Hl.
  inversion Hl as [|? c ? Hc Hcl]; subst; [by apply (IH l)|]. apply (IH c Hc). eapply tc_r; done.
Qed.

(** The objects above a location are different and in the store. *)
Lemma above_length (N : nat) (above : list nat) :
  NoDup above → (∀ x, x ∈ above → (x < N)%nat) → (length above ≤ N)%nat.
Proof.
  intros Hnd Hlt. rewrite <- (length_seq N 0). apply submseteq_length, NoDup_submseteq; [done|].
  intros x Hx. apply elem_of_seq. specialize (Hlt x Hx). lia.
Qed.

Lemma denote_returns_at h (Hh : valid h) l : Acc (λ c p, points h p c) l →
  ∀ above fuel v, NoDup above → (∀ x, x ∈ above → (x < fresh h)%nat ∧ tc (points h) x l) →
  (fresh h + 2 ≤ fuel + length above)%nat → locs v = [l] → ∃ t, denote fuel h v = Ret t.
Proof.
  intros Hacc. induction Hacc as [l Hl IH]. intros above fuel v Hnd Habove Hfuel Hv.
  assert (length above ≤ fresh h)%nat as Hlen by (apply above_length; [done|]; intros x Hx; by apply Habove).
  destruct fuel as [|fuel]; [lia|].
  assert (∀ o w, cells h !! l = Some o → w ∈ object_vals o → ∃ t, denote fuel h w = Ret t) as Hw.
  { intros o w Ho Hw. assert (l < fresh h)%nat as Hlt by (apply (valid_dom _ Hh); by eexists).
    assert (l ∉ above) as Hni.
    { intros Hin. destruct (Habove l Hin) as [_ Htc]. revert Htc. by apply acyclic_irrefl, (valid_acyclic _ Hh). }
    assert (length (l :: above) ≤ fresh h)%nat as Hlen'.
    { apply above_length; [by constructor|]. intros x [->|Hx]%elem_of_cons; [done|by apply Habove]. }
    cbn in Hlen'. destruct w as [a|l' n|l']; [destruct fuel; [lia|by eexists]|..].
    all: assert (points h l l') as Hp by (exists o; eexists; split_and!; [done|done|by left]);
      apply (IH l' Hp (l :: above)); [by constructor| |cbn; lia|done].
    all: intros x [->|Hx]%elem_of_cons; [split; [done|by apply tc_once]|].
    all: destruct (Habove x Hx); split; [done|by eapply tc_r]. }
  destruct v as [a|l' n|l']; cbn in Hv; simplify_eq.
  - apply denote_slice. intros w Hin. unfold get_array in Hin.
    destruct (cells h !! l) as [[items|m]|] eqn:E; [by eapply Hw|by apply not_elem_of_nil in Hin..].
  - apply denote_map. intros w Hin. unfold get_map in Hin.
    destruct (cells h !! l) as [[items|m]|] eqn:E; [by apply not_elem_of_nil in Hin|by eapply Hw|by apply not_elem_of_nil in Hin].
Qed.

Lemma denote_returns h v : valid h → ∃ t, denote (S (S (fresh h))) h v = Ret t.
Proof.
  intros Hh. destruct v as [a|l n|l] eqn:Ev; [by eexists|..].
  all: apply (denote_returns_at h Hh l (valid_acyclic _ Hh l) []);
    [constructor|by intros ? ?%not_elem_of_nil|cbn; lia|done].
Qed.

Lemma safe_read n D W v : safe n D W (read v).
Proof.
  intros h Hn Hi. unfold read. destruct (denote_returns h v (inv_valid _ _ _ Hi)) as [t ->]. run.
  split_and!; [done|lia|by right|done].
Qed.

Lemma inside_array D W h l v : inv D W h → D l → v ∈ get_array h l → inside D (fresh h) v.
Proof.
  intros Hi Hl Hv c Hc. assert (points h l c) as Hp by by eapply get_array_points.
  split; [by eapply (inv_closed _ _ _ Hi)|by eapply valid_refs; [apply Hi|]].
Qed.

Lemma inside_map D W h l v : inv D W h → D l → v ∈ (get_map h l).*2 → inside D (fresh h) v.
Proof.
  intros Hi Hl Hv c Hc. assert (points h l c) as Hp by by eapply get_map_points.
  split; [by eapply (inv_closed _ _ _ Hi)|by eapply valid_refs; [apply Hi|]].
Qed.

Lemma safe_slice_items n D W l k : inside D n (Slice l k) → safe n D W (slice_items l k).
Proof.
  intros Hl h Hn Hi. split_and!; [done|lia|by right|]. apply Forall_forall. intros v Hv.
  destruct (Hl l) as [HD _]; [by left|]. apply (inside_array D W h l v Hi HD).
  unfold items_of in Hv. by eapply elem_of_take in Hv as (i & Hi' & _); eapply list_elem_of_lookup_2.
Qed.

Lemma safe_map_entries n D W l : inside D n (MapRef l) → safe n D W (map_entries l).
Proof.
  intros Hl h Hn Hi. split_and!; [done|lia|by right|]. apply Forall_forall. intros [k v] Hv. split; [done|].
  destruct (Hl l) as [HD _]; [by left|]. apply (inside_map D W h l v Hi HD). by apply (list_elem_of_fmap_2 snd _ (k, v)).
Qed.

(** ** New objects *)

Lemma points_alloc h o l c :
  points (mkStore (<[fresh h := o]> (cells h)) (S (fresh h))) l c →
  (l = fresh h ∧ ∃ v, v ∈ object_vals o ∧ c ∈ locs v) ∨ (l ≠ fresh h ∧ points h l c).
Proof.
  intros (o' & v & Ho & Hv & Hc). cbn in Ho. destruct (decide (l = fresh h)) as [->|Hne].
  - rewrite lookup_insert_eq in Ho. simplify_eq. left. eauto.
  - rewrite lookup_insert_ne in Ho by done. right. split; [done|]. by exists o', v.
Qed.

Lemma valid_alloc h o :
  valid h → (∀ v c, v ∈ object_vals o → c ∈ locs v → (c < fresh h)%nat) →
  valid (mkStore (<[fresh h := o]> (cells h)) (S (fresh h))).
Proof.
  intros [Hd Hr Ha] Ho. assert (∀ l, (l < fresh h)%nat →
    Acc (λ c p, points (mkStore (<[fresh h := o]> (cells h)) (S (fresh h))) p c) l) as Hold.
  { intros l. induction (Ha l) as [l _ IH]. intros Hl. constructor. intros c.
    intros [[-> _]|[_ Hp]]%points_alloc; [lia|]. apply IH; [done|by eapply Hr]. }
  split; cbn.
  - intros l [o' Ho']. destruct (decide (l = fresh h)) as [->|Hne]; [lia|].
    rewrite lookup_insert_ne in Ho' by done. enough (l < fresh h)%nat by lia. apply Hd. by eexists.
  - intros l c [[-> (v & Hv & Hc)]|[_ Hp]]%points_alloc; [by specialize (Ho v c Hv Hc); lia|].
    apply Hr in Hp. lia.
  - intros l. constructor. intros c [[-> (v & Hv & Hc)]|[_ Hp]]%points_alloc; apply Hold; [by eapply Ho|by eapply Hr].
Qed.

(** A result that carries the reference to a new object. *)
Lemma safe_alloc n D W o (ref : nat → val) :
  Forall (inside D n) (object_vals o) → (∀ l, locs (ref l) = [l]) →
  safe n D W (l ← alloc o; mret (ref l)).
Proof.
  intros Ho Href h Hn Hi. cbn. rewrite Forall_forall in Ho.
  assert (∀ v c, v ∈ object_vals o → c ∈ locs v → D c ∧ (c < fresh h)%nat) as Hc.
  { intros v c Hv Hc. destruct (Ho v Hv c Hc). split; [done|lia]. }
  destruct (inv_new _ _ _ Hi (fresh h)) as [HD HW]; [lia|]. split_and!.
  - split; [|intros l c Hl|intros l Hl; apply (inv_new _ _ _ Hi); cbn in Hl; lia].
    + apply valid_alloc; [apply Hi|]. intros v c Hv Hc'. by eapply Hc.
    + intros [[-> (v & Hv & Hc')]|[_ Hp]]%points_alloc; [by eapply Hc|by eapply (inv_closed _ _ _ Hi)].
  - cbn. lia.
  - intros l. cbn. destruct (decide (l = fresh h)) as [->|Hne]; [by left|right]. by rewrite lookup_insert_ne.
  - intros c Hc'. rewrite Href in Hc'. apply list_elem_of_singleton in Hc' as ->. split; [done|cbn; lia].
Qed.

Lemma inside_scalar D n a : inside D n (Scalar a).
Proof. by intros c ?%not_elem_of_nil. Qed.

Lemma within_replicate D n k : Forall (inside D n) (replicate k VNil).
Proof. apply Forall_replicate, inside_scalar. Qed.

Lemma safe_alloc_slice n D W capacity items :
  within (inside D n) items → safe n D W (alloc_slice capacity items).
Proof.
  intros Hi. apply (safe_alloc n D W (OArray _) (λ l, Slice l (length items))); [|done].
  apply Forall_app. split; [done|apply within_replicate].
Qed.

Lemma within_snd P (m : list (string * val)) : within P m ↔ within P m.*2.
Proof.
  cbn. rewrite Forall_fmap. apply Forall_proper; [|done]. intros [k v]. cbn. split; [by intros [_ ?]|done].
Qed.

Lemma safe_alloc_map n D W m : within (inside D n) m → safe n D W (alloc_map m).
Proof.
  intros Hm. apply (safe_alloc n D W (OMap m) MapRef); [|done]. by apply within_snd in Hm.
Qed.

Lemma safe_alloc_tree n D W t : safe n D W (alloc_tree t).
Proof.
  revert n. induction t as [| | | | | |l Hl|m Hm|] using any_ind'; intros n;
    try (by apply safe_ret, inside_scalar); cbn [alloc_tree].
  - apply safe_bind; [|intros vs n' Hn' Hvs; by apply safe_alloc_slice].
    revert n. induction Hl as [|t l Ht Hl IH]; intros n; [apply safe_ret; constructor|].
    apply safe_bind; [apply Ht|]. intros v n' Hn' Hv. apply safe_bind; [apply IH|].
    intros vs n'' Hn'' Hvs. apply safe_ret. constructor; [by apply (within_later D n')|done].
  - apply safe_bind; [|intros vs n' Hn' Hvs; by apply safe_alloc_map].
    revert n. induction Hm as [|[k t] m Ht Hm IH]; intros n; [apply safe_ret; constructor|].
    apply safe_bind; [apply Ht|]. intros v n' Hn' Hv. apply safe_bind; [apply IH|].
    intros vs n'' Hn'' Hvs. apply safe_ret. constructor; [|done]. split; [done|by apply (within_later D n')].
Qed.

Lemma safe_clone n D W v : safe n D W (clone v).
Proof. apply safe_bind; [apply safe_read|]. intros t n' _ _. apply safe_alloc_tree. Qed.

(** ** Changed objects *)

(** What is reached from [l], and what is not there yet. *)
Definition below (h : store) (l c : nat) : Prop := tc (points h) l c ∨ (fresh h ≤ c)%nat.

Lemma below_irrefl h l : valid h → (l < fresh h)%nat → ¬ below h l l.
Proof. intros Hh Hl [Ht|]; [|lia]. revert Ht. apply acyclic_irrefl, (valid_acyclic _ Hh). Qed.

Lemma inv_below h l : valid h → inv (below h l) (below h l) h.
Proof.
  intros Hh. split; [done| |intros c Hc; by split; right]. intros p c [Hp|Hp] Hc.
  - left. by eapply tc_r.
  - destruct Hc as (o & v & Ho & _). assert (p < fresh h)%nat by (apply (valid_dom _ Hh); by eexists). lia.
Qed.

Lemma below_in D W h l c : inv D W h → D l → below h l c → D c.
Proof.
  intros Hi Hl [Hc|Hc]; [|by apply (inv_new _ _ _ Hi)].
  revert Hl. induction Hc as [p c Hc|p q c Hpq _ IH]; intros Hp; [by eapply (inv_closed _ _ _ Hi)|].
  by apply IH; eapply (inv_closed _ _ _ Hi).
Qed.

Lemma points_put h l o p c :
  points (mkStore (<[l := o]> (cells h)) (fresh h)) p c →
  (p = l ∧ ∃ v, v ∈ object_vals o ∧ c ∈ locs v) ∨ (p ≠ l ∧ points h p c).
Proof.
  intros (o' & v & Ho & Hv & Hc). cbn in Ho. destruct (decide (p = l)) as [->|Hne].
  - rewrite lookup_insert_eq in Ho. simplify_eq. left. eauto.
  - rewrite lookup_insert_ne in Ho by done. right. split; [done|]. by exists o', v.
Qed.

(** The new content of an object does not lead back to it. *)
Lemma valid_put D h l o :
  valid h → (l < fresh h)%nat → closed D h → ¬ D l → Forall (inside D (fresh h)) (object_vals o) →
  valid (mkStore (<[l := o]> (cells h)) (fresh h)).
Proof.
  intros [Hd Hr Ha] Hl HD HDl Ho. rewrite Forall_forall in Ho.
  assert (∀ p, D p → Acc (λ c p, points (mkStore (<[l := o]> (cells h)) (fresh h)) p c) p) as Hin.
  { intros p. induction (Ha p) as [p _ IH]. intros Hp. constructor. intros c.
    intros [[-> _]|[_ Hc]]%points_put; [done|]. by apply IH, (HD p). }
  assert (Acc (λ c p, points (mkStore (<[l := o]> (cells h)) (fresh h)) p c) l) as Hat.
  { constructor. intros c [[_ (v & Hv & Hc)]|[Hne _]]%points_put; [|done]. by apply Hin, (Ho v Hv). }
  split; cbn.
  - intros p [o' Ho']. destruct (decide (p = l)) as [->|Hne]; [done|].
    rewrite lookup_insert_ne in Ho' by done. apply Hd. by eexists.
  - intros p c [[-> (v & Hv & Hc)]|[_ Hp]]%points_put; [by apply (Ho v Hv)|by eapply Hr].
  - intros p. induction (Ha p) as [p _ IH]. constructor. intros c.
    intros Hpc. apply points_put in Hpc as Hpc'. destruct Hpc' as [[-> _]|[_ Hc]]; [|by apply IH].
    by apply (Acc_inv Hat).
Qed.

(** An object of [D] is given back what was made of its content below it. *)
Lemma inv_put D W h h' l o :
  inv D W h → D l → (l < fresh h)%nat → (∀ c, D c → W c) →
  inv (below h l) (below h l) h' → (fresh h ≤ fresh h')%nat →
  (∀ p, below h l p ∨ cells h' !! p = cells h !! p) →
  Forall (inside (below h l) (fresh h')) (object_vals o) →
  let h'' := mkStore (<[l := o]> (cells h')) (fresh h') in
  inv D W h'' ∧ (∀ p, W p ∨ cells h'' !! p = cells h !! p).
Proof.
  intros Hi Hl Hlt HDW Hb Hle Hu Ho h''. pose proof (inv_valid _ _ _ Hi) as Hh.
  assert (¬ below h l l) as Hnl by by apply below_irrefl.
  assert (∀ c, below h l c → D c) as HbD by (intros c; by eapply below_in).
  split; [split|].
  - eapply valid_put; [apply Hb|lia|apply Hb|done|done].
  - intros p c Hp [[-> (v & Hv & Hc)]|[Hne Hc]]%points_put.
    + rewrite Forall_forall in Ho. by apply HbD, (Ho v Hv).
    + destruct (Hu p) as [Hb'|He]; [by eapply HbD, (inv_closed _ _ _ Hb)|].
      apply (inv_closed _ _ _ Hi p c Hp). unfold points in *. by rewrite <- He.
  - intros p Hp. apply (inv_new _ _ _ Hi). cbn in Hp. lia.
  - intros p. cbn. destruct (decide (p = l)) as [->|Hne]; [left; auto|]. rewrite lookup_insert_ne by done.
    destruct (Hu p); auto.
Qed.

(** Code that changes what is below a value, in a store with [n] objects or more. *)
Definition updating (n : nat) (update : val → M val) : Prop :=
  ∀ n' D v, (n ≤ n')%nat → inside D n' v → safe n' D D (update v).

Lemma updating_later n n' update : updating n update → (n ≤ n')%nat → updating n' update.
Proof. intros Hu Hn m D v Hm. apply Hu. lia. Qed.

Lemma safe_weaken {A} `{Within A} n (D W : nat → Prop) (m : M A) :
  safe n D D m → (∀ c, D c → W c) → safe n D W m.
Proof.
  intros Hm HDW h Hn Hi. assert (inv D D h) as Hi'.
  { split; [apply Hi|apply Hi|]. intros l Hl. split; by apply (inv_new _ _ _ Hi). }
  specialize (Hm h Hn Hi'). destruct (m h) as [[[a h']|e]| |]; [|done..]. destruct Hm as (Hi'' & Hle & Hu & Ha).
  split_and!; [|done| |done].
  - split; [apply Hi''|apply Hi''|]. intros l Hl. apply (inv_new _ _ _ Hi). lia.
  - intros l. destruct (Hu l); auto.
Qed.

Lemma safe_ext {A} `{Within A} n D W (m m' : M A) : (∀ h, m' h = m h) → safe n D W m → safe n D W m'.
Proof. intros He Hm h. rewrite He. apply Hm. Qed.

Definition object_at (h : store) (l : nat) : list val := from_option object_vals [] (cells h !! l).

Lemma inside_below h l v : valid h → v ∈ object_at h l → inside (below h l) (fresh h) v.
Proof.
  intros Hh Hv c Hc. unfold object_at in Hv. destruct (cells h !! l) as [o|] eqn:E; cbn in Hv; [|by apply not_elem_of_nil in Hv].
  assert (points h l c) as Hp by by exists o, v. split; [left; by apply tc_once|by eapply valid_refs].
Qed.

Lemma get_array_at h l v : v ∈ get_array h l → v ∈ object_at h l.
Proof. unfold get_array, object_at. destruct (cells h !! l) as [[items|m]|]; [done|by intros ?%not_elem_of_nil..]. Qed.

Lemma get_map_at h l v : v ∈ (get_map h l).*2 → v ∈ object_at h l.
Proof.
  unfold get_map, object_at. destruct (cells h !! l) as [[items|m]|];
    [by intros ?%not_elem_of_nil|done|by intros ?%not_elem_of_nil].
Qed.

Lemma inside_object D W h l v : inv D W h → D l → v ∈ object_at h l → inside D (fresh h) v.
Proof.
  intros Hi Hl Hv c Hc. unfold object_at in Hv. destruct (cells h !! l) as [o|] eqn:E; cbn in Hv; [|by apply not_elem_of_nil in Hv].
  assert (points h l c) as Hp by by exists o, v.
  split; [by eapply (inv_closed _ _ _ Hi)|by eapply valid_refs; [apply Hi|]].
Qed.

Definition put_back (l : nat) (child : store → val) (update : val → M val) (content : val → store → object) : M unit :=
  λ h, match update (child h) h with
       | Ret (Ok (v, h')) => put l (content v h') h'
       | Ret (Err e) => Ret (Err e)
       | Panic msg => Panic msg
       | OutOfFuel => OutOfFuel
       end.

(** A value of an object is updated, and the object then changed to hold it. *)
Lemma safe_put_back n D W l (child : store → val) update (content : val → store → object) :
  D l → (l < n)%nat → (∀ c, D c → W c) → updating n update →
  (∀ h, child h ∈ object_at h l ∨ child h = VNil) →
  (∀ h v w, w ∈ object_vals (content v h) → w = v ∨ w ∈ object_at h l ∨ ∃ c, c ∈ locs v ∧ w ∈ object_at h c) →
  safe n D W (put_back l child update content).
Proof.
  intros Hl Hln HDW Hu Hchild Hcontent h Hn Hi. pose proof (inv_valid _ _ _ Hi) as Hh.
  assert (inside (below h l) (fresh h) (child h)) as Hc.
  { destruct (Hchild h) as [Hc| ->]; [by apply inside_below|apply inside_scalar]. }
  specialize (Hu (fresh h) (below h l) (child h) Hn Hc h ltac:(lia) (inv_below h l Hh)).
  unfold put_back. destruct (update (child h) h) as [[[v h']|e]| |]; [|done..].
  destruct Hu as (Hi' & Hle & Hu & Hv). destruct (inv_put D W h h' l (content v h')) as [Hi'' Hu'']; [done|done|lia|done|done|done|done| |by split_and!].
  apply Forall_forall. intros w [->|[Hw|(c & Hcv & Hw)]]%Hcontent; [done| |].
  2: { eapply inside_object; [exact Hi'| |exact Hw]. by apply Hv. }
  destruct (Hu l) as [Hb|He].
  { by apply below_irrefl in Hb; [|done|lia]. }
  unfold object_at in Hw. rewrite He in Hw. eapply inside_mono; [by apply inside_below|done|done].
Qed.

Lemma safe_then {A} `{Within A} n D W (m : M unit) (k : M A) :
  safe n D W m → (∀ n', (n ≤ n')%nat → safe n' D W k) → safe n D W (_ ← m; k).
Proof. intros Hm Hk. apply safe_bind; [done|]. intros _ n' Hn' _. by apply Hk. Qed.

Lemma elem_of_mset {A} (m : list (string * A)) key v w : w ∈ (mset m key v).*2 → w = v ∨ w ∈ m.*2.
Proof.
  induction m as [|[k x] m IH]; cbn; [set_solver|]. case_bool_decide; [set_solver|].
  destruct (string_ltb key k); [set_solver|]. cbn. set_solver.
Qed.

Lemma elem_of_mdelete {A} (m : list (string * A)) key w : w ∈ (mdelete m key).*2 → w ∈ m.*2.
Proof. induction m as [|[k x] m IH]; cbn; [done|]. case_bool_decide; cbn; set_solver. Qed.

Lemma elem_of_vindex m key : vindex m key ∈ m.*2 ∨ vindex m key = VNil.
Proof.
  unfold vindex. induction m as [|[k x] m IH]; cbn; [by right|]. case_bool_decide; cbn; [left; left|].
  destruct IH; [left; by right|by right].
Qed.

Lemma elem_of_nth (items : list val) i : nth i items VNil ∈ items ∨ nth i items VNil = VNil.
Proof.
  destruct (decide (i < length items)%nat); [left|right; apply nth_overflow; lia].
  apply list_elem_of_In, nth_In. done.
Qed.

Lemma safe_update_map {A} `{Within A} n D W l key update (k : M A) :
  inside D n (MapRef l) → (∀ c, D c → W c) → updating n update → (∀ n', (n ≤ n')%nat → safe n' D W k) →
  safe n D W (m ← map_entries l; v ← update (vindex m key); _ ← modify_map l (λ m, mset m key v); k).
Proof.
  intros Hl HDW Hu Hk. destruct (Hl l) as [HD Hn]; [by left|].
  eapply safe_ext, (safe_then n D W); [|apply (safe_put_back n D W l (λ h, vindex (get_map h l) key) update
    (λ v h, OMap (mset (get_map h l) key v)))|exact Hk]; try done.
  - intros h. unfold mbind, M_bind, map_entries, modify_map, put_back. by destruct (update _ _) as [[[v h']|e]| |].
  - intros h. destruct (elem_of_vindex (get_map h l) key); [left; by apply get_map_at|by right].
  - intros h v w [->|Hw]%elem_of_mset; [by left|right; left; by apply get_map_at].
Qed.

Lemma elem_of_list_update (items : list val) i v w : w ∈ <[i := v]> items → w = v ∨ w ∈ items.
Proof.
  intros [j Hj]%list_elem_of_lookup. destruct (decide (i = j)) as [<-|Hne].
  - apply lookup_lt_Some in Hj as Hlt. rewrite length_insert in Hlt. rewrite list_lookup_insert_eq in Hj by done.
    left. congruence.
  - rewrite list_lookup_insert_ne in Hj by done. right. by eapply list_elem_of_lookup_2.
Qed.

Lemma elem_of_items_of h l n v : v ∈ items_of h l n → v ∈ get_array h l.
Proof. intros Hv. unfold items_of in Hv. by eapply elem_of_take in Hv as (i & Hi' & _); eapply list_elem_of_lookup_2. Qed.

Lemma safe_update_array {A} `{Within A} n D W l len_ i update (k : M A) :
  inside D n (Slice l len_) → (∀ c, D c → W c) → updating n update → (∀ n', (n ≤ n')%nat → safe n' D W k) →
  safe n D W (items ← slice_items l len_; v ← update (nth i items VNil); _ ← modify_array l (<[i := v]>); k).
Proof.
  intros Hl HDW Hu Hk. destruct (Hl l) as [HD Hn]; [by left|].
  eapply safe_ext, (safe_then n D W); [|apply (safe_put_back n D W l (λ h, nth i (items_of h l len_) VNil) update
    (λ v h, OArray (<[i := v]> (get_array h l))))|exact Hk]; try done.
  - intros h. unfold mbind, M_bind, slice_items, modify_array, put_back. by destruct (update _ _) as [[[v h']|e]| |].
  - intros h. destruct (elem_of_nth (items_of h l len_) i); [left|by right]. by eapply get_array_at, elem_of_items_of.
  - intros h v w [->|Hw]%elem_of_list_update; [by left|right; left; by apply get_array_at].
Qed.

(** An object that holds fewer values than before. *)
Lemma safe_shrink n (D W : nat → Prop) l (content : store → object) :
  D l → (l < n)%nat → (∀ c, D c → W c) →
  (∀ h w, w ∈ object_vals (content h) → w ∈ object_at h l ∨ ∃ a, w = Scalar a) →
  safe n D W (λ h, put l (content h) h).
Proof.
  intros Hl Hn HDW Hc h Hh Hi. pose proof (inv_valid _ _ _ Hi) as Hv.
  destruct (inv_put D W h h l (content h)) as [Hi' Hu]; [done|done|lia|done|by apply inv_below|done|by right| |by split_and!].
  apply Forall_forall. intros w Hw. destruct (Hc h w Hw) as [Hw'|[a ->]]; [by apply inside_below|apply inside_scalar].
Qed.

Lemma safe_delete_key n (D W : nat → Prop) l key :
  inside D n (MapRef l) → (∀ c, D c → W c) → safe n D W (modify_map l (λ m, mdelete m key)).
Proof.
  intros Hl HDW. destruct (Hl l) as [HD Hn]; [by left|].
  apply (safe_shrink n D W l (λ h, OMap (mdelete (get_map h l) key))); [done..|].
  intros h w Hw%elem_of_mdelete. left. by apply get_map_at.
Qed.

Lemma safe_set_scalar n (D W : nat → Prop) l key a :
  inside D n (MapRef l) → (∀ c, D c → W c) → safe n D W (modify_map l (λ m, mset m key (Scalar a))).
Proof.
  intros Hl HDW. destruct (Hl l) as [HD Hn]; [by left|].
  apply (safe_shrink n D W l (λ h, OMap (mset (get_map h l) key (Scalar a)))); [done..|].
  intros h w [->|Hw]%elem_of_mset; [right; by eexists|]. left. by apply get_map_at.
Qed.

End safe.

(** ** Operations *)

Create HintDb safe.
#[export] Hint Resolve safe_ret safe_fail safe_read safe_clone safe_alloc_tree safe_alloc_slice safe_alloc_map : safe.
#[export] Hint Resolve safe_slice_items safe_map_entries inside_scalar : safe.

Lemma within_nth P (items : list val) i : within P items → P VNil → P (nth i items VNil).
Proof.
  intros Hi HP. destruct (elem_of_nth items i) as [Hn| ->]; [|done]. cbn in Hi. rewrite Forall_forall in Hi. by apply Hi.
Qed.

Lemma within_vindex P (m : list (string * val)) key : within P m → P VNil → P (vindex m key).
Proof.
  intros Hm HP. apply within_snd in Hm. destruct (elem_of_vindex m key) as [Hn| ->]; [|done].
  cbn in Hm. rewrite Forall_forall in Hm. by apply Hm.
Qed.

Lemma within_mset P (m : list (string * val)) key v : within P m → P v → within P (mset m key v).
Proof.
  rewrite !within_snd. cbn. rewrite !Forall_forall. intros Hm Hv w [->|Hw]%elem_of_mset; [done|by apply Hm].
Qed.

Lemma within_one {A} `{Within A} P (a : A) : within P a → within P [a].
Proof. intros Ha. by apply Forall_singleton. Qed.

Lemma within_cons {A} `{Within A} P (a : A) l : within P a → within P l → within P (a :: l).
Proof. intros Ha Hl. by constructor. Qed.

Lemma within_two {A} `{Within A} P (a b : A) : within P a → within P b → within P [a; b].
Proof. intros Ha Hb. apply Forall_cons. split; [done|by apply Forall_singleton]. Qed.

(** Paths whose indices are small enough for an array to be filled up to them. *)
Definition maxIndex : Z := 2 ^ 40.

Definition small_segment (segment : overridePathSegment) : bool :=
  match segment with PathIndex i => i <? maxIndex | _ => true end.

Definition small_path (path : overridePath) : bool := forallb small_segment path.

Section operations.
Context `{Stops} {rt : GoRuntime} {rts : GoRuntimeSpec rt}.

(** Either the path is small, or the panic of an array that is too large is allowed. *)
Definition extends (path : overridePath) : Prop := small_path path = true ∨ stops growslice_panic.

Lemma safe_append_all n D W capacity batches :
  within (inside D n) batches → safe n D W (append_all capacity batches).
Proof. intros Hb. apply safe_alloc_slice. by apply within_join. Qed.
Hint Resolve safe_append_all : safe.

Lemma small_growth c n : (c < n)%nat → Z.of_nat n ≤ maxIndex → Z.of_nat (growslice c n) ≤ maxItems.
Proof using rts. intros Hc Hn. pose proof (growslice_limit c n Hc). unfold maxIndex, maxItems in *. lia. Qed.

Lemma safe_extend n (D W : nat → Prop) todo l k :
  inside D n (Slice l k) → (∀ c, D c → W c) →
  todo = 0%nat ∨ Z.of_nat (k + todo) ≤ maxIndex ∨ stops growslice_panic → safe n D W (extend todo l k).
Proof using rts.
  intros Hl HDW. revert n l k Hl. induction todo as [|todo IH]; intros n l k Hl Hsm; cbn [extend]; [by apply safe_ret|].
  destruct Hsm as [|Hsm]; [done|].
  assert (todo = 0%nat ∨ Z.of_nat (S k + todo) ≤ maxIndex ∨ stops growslice_panic) as Hsm'.
  { right. destruct Hsm; [left; lia|by right]. }
  destruct (Hl l) as [HD Hn]; [by left|]. intros h Hh Hi. destruct (Nat.ltb_spec k (length (get_array h l))) as [Hk|Hk].
  - assert (safe n D W (_ ← (λ h, put l (OArray (<[k := VNil]> (get_array h l))) h : outcome (result (unit * store)));
      extend todo l (S k))) as Hs; [|by apply Hs].
    apply safe_then.
    + apply (safe_shrink n D W l (λ h, OArray (<[k := VNil]> (get_array h l)))); [done..|].
      intros h' w [->|Hw]%elem_of_list_update; [right; by eexists|left; by apply get_array_at].
    + intros n' Hn'. apply IH; [by eapply inside_mono|done].
  - destruct (Z.ltb_spec maxItems (Z.of_nat (growslice (length (get_array h l)) (S k)))) as [Hbig|_].
    { destruct Hsm as [Hsm|Hsm]; [|exact Hsm]. pose proof (small_growth (length (get_array h l)) (S k)). lia. }
    set (items := take k (get_array h l) ++ replicate (growslice (length (get_array h l)) (S k) - k) VNil).
    assert (safe (fresh h) D W (v ← (l' ← alloc (OArray items); mret (MapRef l'));
      match v with MapRef l' => extend todo l' (S k) | _ => mret (l, k) end)) as Hs; [|by apply Hs].
    apply safe_bind.
    + apply safe_alloc; [|done]. apply Forall_app. split; [|apply within_replicate].
      apply Forall_forall. intros v Hv. apply (inside_array D W h l v Hi HD). by apply (elem_of_items_of h l k).
    + intros v n' Hn' Hv. destruct v; try (apply safe_ret; eapply inside_mono; [done|done|lia]). by apply IH.
Qed.

(** ** Binary operators *)

Lemma safe_add_slice n D W l k right : inside D n (Slice l k) → safe n D W (store_add_slice l k right).
Proof.
  intros Hl. apply safe_bind; [by apply safe_slice_items|]. intros items n' Hn' Hi.
  assert (∀ v, safe n' D W (copied ← clone v; append_all 0 [items; [copied]])) as Hone.
  { intros v. apply safe_bind; [apply safe_clone|]. intros c n'' Hn'' Hc.
    apply safe_append_all, within_two; [by apply (within_later (A := list val) D n')|by apply within_one]. }
  destruct right as [[]| |]; auto; [by apply safe_append_all, within_one|].
  apply safe_bind; [apply safe_clone|]. intros c n'' Hn'' Hc.
  assert (within (inside D n'') items) as Hi' by by apply (within_later (A := list val) D n').
  destruct c as [| |]; try by apply safe_append_all, within_one.
  apply safe_bind; [by apply safe_slice_items|]. intros more n3 Hn3 Hm.
  apply safe_append_all, within_two; [by apply (within_later (A := list val) D n'')|done].
Qed.

Lemma within_kept P (items : list val) (trees : list any) keep `{∀ e, Decision (keep e)} :
  within P items → within P (filter keep (zip items trees)).*1.
Proof.
  cbn. rewrite !Forall_forall. intros Hi v Hv. apply list_elem_of_fmap in Hv as ([v' t] & -> & Hv).
  apply list_elem_of_filter in Hv as [_ Hv]. by apply elem_of_zip_l in Hv; apply Hi.
Qed.

Lemma safe_subtract_slice n D W l k right : inside D n (Slice l k) → safe n D W (store_subtract_slice l k right).
Proof.
  intros Hl. apply safe_bind; [by apply safe_slice_items|]. intros items n' Hn' Hi.
  destruct right as [a|lr nr|]; [done| |done].
  apply safe_bind; [apply safe_mapM; [done|]; intros; apply safe_read|]. intros trees n2 Hn2 _.
  apply safe_bind; [apply safe_read|]. intros tr n3 Hn3 _. apply safe_alloc_slice, within_kept.
  apply (within_later (A := list val) D n'); [done|lia].
Qed.

(** The result of an operator holds nothing of the right side but copies, unless it is
    "//". *)
Lemma safe_binary n D W operator left right :
  inside D n left → operator ≠ "//" ∨ inside D n right → safe n D W (store_binary operator left right).
Proof.
  intros Hl Hr. unfold store_binary. case_bool_decide as Hop.
  { apply safe_ret. destruct (overrideTruthy _); [done|]. by destruct Hr. }
  assert (safe n D W (tl ← read left; tr ← read right; t ← lift (evaluateOverrideBinary operator tl tr); alloc_tree t)) as Ht.
  { apply safe_bind; [apply safe_read|]. intros tl n1 _ _. apply safe_bind; [apply safe_read|]. intros tr n2 _ _.
    apply safe_bind; [by apply safe_lift|]. intros t n3 _ _. apply safe_alloc_tree. }
  destruct left as [a|l k|l]; [done| |done].
  case_bool_decide; [by apply safe_add_slice|]. case_bool_decide; [by apply safe_subtract_slice|done].
Qed.

(** ** Paths *)

Lemma safe_lookup n D W value path :
  inside D n value → safe n D W (lookupOverridePathStream value path).
Proof.
  assert (∀ n, safe n D W (mret [VNil])) as Hnil by (intros ?; apply safe_ret, within_one, inside_scalar).
  revert n value. induction path as [|[key|i|] path IH]; intros n value Hv; cbn [lookupOverridePathStream].
  - by apply safe_ret, within_one.
  - destruct value as [a|l k|l]; [apply Hnil..|]. apply safe_bind; [by apply safe_map_entries|].
    intros m n' Hn' Hm. apply IH, within_vindex; [done|apply inside_scalar].
  - destruct value as [a|l k|l]; [apply Hnil| |apply Hnil]. destruct (_ || _); [apply Hnil|].
    apply safe_bind; [by apply safe_slice_items|].
    intros items n' Hn' Hi. apply IH, within_nth; [done|apply inside_scalar].
  - destruct value as [a|l k|l]; [by apply safe_ret; constructor|..].
    + apply safe_bind; [by apply safe_slice_items|]. intros items n' Hn' Hi. apply safe_concatM; [done|].
      intros v n'' _ Hv'. by apply IH.
    + apply safe_bind; [by apply safe_map_entries|]. intros m n' Hn' Hm. apply safe_concatM; [done|].
      intros [key v] n'' _ [_ Hv']. by apply IH.
Qed.

Lemma safe_update_items n (D W : nat → Prop) update l k todo i :
  inside D n (Slice l k) → (∀ c, D c → W c) → updating n update → safe n D W (update_items update l todo i).
Proof.
  intros Hl HDW. revert n i Hl. induction todo as [|todo IH]; intros n i Hl Hu; cbn [update_items]; [by apply safe_ret|].
  apply safe_update_array; [done|done|done|]. intros n' Hn'. apply IH; [by eapply inside_mono|by eapply updating_later].
Qed.

Lemma safe_update_entries n (D W : nat → Prop) update l keys :
  inside D n (MapRef l) → (∀ c, D c → W c) → updating n update → safe n D W (update_entries update l keys).
Proof.
  intros Hl HDW. revert n Hl. induction keys as [|key keys IH]; intros n Hl Hu; cbn [update_entries]; [by apply safe_ret|].
  apply safe_update_map; [done|done|done|]. intros n' Hn'. apply IH; [by eapply inside_mono|by eapply updating_later].
Qed.

Lemma extends_tail segment path : extends (segment :: path) → extends path.
Proof. intros [Hs|Hs]; [left|by right]. by apply andb_true_iff in Hs as [_ Hs]. Qed.

(** The items that an index asks for. *)
Lemma extends_index i path n : extends (PathIndex i :: path) →
  let index := if i <? 0 then i + Z.of_nat n else i in
  let todo := (Z.to_nat (index + 1) - n)%nat in
  todo = 0%nat ∨ Z.of_nat (n + todo) ≤ maxIndex ∨ stops growslice_panic.
Proof.
  intros [Hs|Hs] index todo; [|by right; right]. apply andb_true_iff in Hs as [Hs%Z.ltb_lt _].
  destruct (decide (todo = 0%nat)) as [|Hne]; [by left|]. right. left. unfold todo, index in *.
  destruct (Z.ltb_spec i 0); lia.
Qed.

Lemma updating_path n path updater :
  extends path → updating n updater → updating n (λ node, updateOverridePath node path updater).
Proof.
  revert n. induction path as [|segment path IH]; intros n Hs Hu n' D node Hn' Hnode; [by apply Hu|].
  assert (updating n' (λ node, updateOverridePath node path updater)) as Hup.
  { apply IH; [by eapply extends_tail|by eapply updating_later]. }
  destruct segment as [key|i|]; cbn [updateOverridePath].
  - apply safe_bind.
    { destruct node as [[]| |]; try (by apply safe_ret). apply safe_alloc_map. constructor. }
    intros v n2 Hn2 Hv. destruct v as [a|l k|l]; [by apply safe_ret..|].
    apply (safe_update_map n2 D D l key (λ node, updateOverridePath node path updater));
      [done|done|by eapply updating_later|]. intros n3 Hn3. by apply safe_ret, (within_later (A := val) D n2).
  - apply safe_bind.
    { destruct node as [[]| |]; try (by apply safe_ret). apply safe_alloc_slice. constructor. }
    intros v n2 Hn2 Hv. destruct v as [a|l k|l]; [by apply safe_ret| |by apply safe_ret].
    destruct (_ <? 0); [done|]. apply safe_bind; [apply safe_extend; [done|done|by eapply extends_index]|]. intros [l' k'] n3 Hn3 Hl'.
    apply (safe_update_array n3 D D l' k' _ (λ node, updateOverridePath node path updater));
      [done|done|eapply updating_later; [done|lia]|]. intros n4 Hn4. by apply safe_ret, (within_later (A := val) D n3).
  - destruct node as [a|l k|l]; [by apply safe_ret|..].
    + apply safe_then; [by eapply safe_update_items|]. intros n2 Hn2. by apply safe_ret, (within_later (A := val) D n').
    + apply safe_bind; [by apply safe_map_entries|]. intros m n2 Hn2 _.
      apply safe_then; [apply safe_update_entries; [by eapply inside_mono|done|by eapply updating_later]|].
      intros n3 Hn3. apply safe_ret, (within_later (A := val) D n'); [done|lia].
Qed.

(** ** Deleting *)

(** What is to be deleted in a child are paths of [paths] without their first segment. *)
Definition shorter (tails paths : list overridePath) : Prop :=
  ∀ t, t ∈ tails → t ≠ [] ∧ ∃ p, p ∈ paths ∧ length p = S (length t).

Lemma field_tails_shorter key paths tails : field_tails key paths = Some tails → shorter tails paths.
Proof.
  revert tails. induction paths as [|[|segment tail_] paths IH]; intros tails; cbn.
  - by intros [= <-] t ?%not_elem_of_nil.
  - intros Ht t Hin. destruct (IH _ Ht t Hin) as (Hne & p & Hp & Hl). split; [done|]. exists p. by split; [right|].
  - destruct (_ || _).
    + destruct tail_ as [|s tail_]; [done|]. destruct (field_tails key paths) as [ts|] eqn:E; [|done].
      intros [= <-] t [->|Hin]%elem_of_cons.
      * split; [done|]. exists (segment :: s :: tail_). by split; [left|].
      * destruct (IH _ eq_refl t Hin) as (Hne & p & Hp & Hl). split; [done|]. exists p. by split; [right|].
    + intros Ht t Hin. destruct (IH _ Ht t Hin) as (Hne & p & Hp & Hl). split; [done|]. exists p. by split; [right|].
Qed.

Lemma index_tails_shorter n idx paths : shorter (index_tails n idx paths) paths.
Proof.
  intros t Hin. unfold index_tails in Hin. apply list_elem_of_omap in Hin as (p & Hp & Ht).
  destruct p as [|segment [|s p]]; [done..|]. destruct (index_matches _ _ _); simplify_eq.
  split; [done|]. eexists. by split; [exact Hp|].
Qed.

Section delete.
Context (delete_in : val → list overridePath → M val) (paths : list overridePath) (n0 : nat).
Context (Hdelete : ∀ tails, tails ≠ [] → shorter tails paths → updating n0 (λ v, delete_in v tails)).

Lemma safe_delete_entries n (D W : nat → Prop) l keys :
  (n0 ≤ n)%nat → inside D n (MapRef l) → (∀ c, D c → W c) → safe n D W (delete_entries delete_in l keys paths).
Proof using Hdelete.
  intros Hn Hl HDW. revert n Hn Hl. induction keys as [|key keys IH]; intros n Hn Hl; cbn [delete_entries]; [by apply safe_ret|].
  assert (∀ n', (n ≤ n')%nat → safe n' D W (delete_entries delete_in l keys paths)) as Hk.
  { intros n' Hn'. apply IH; [lia|by eapply inside_mono]. }
  destruct (field_tails key paths) as [tails|] eqn:E.
  - destruct tails as [|t tails].
    { apply safe_bind; [by apply safe_map_entries|]. intros m n' Hn' _. apply safe_then; [by apply safe_ret|].
      intros n'' Hn''. apply Hk. lia. }
    eapply safe_ext, (safe_update_map n D W l key (λ v, delete_in v (t :: tails))); [|done|done|..|exact Hk].
    + intros h. unfold mbind, M_bind, map_entries. by destruct (delete_in _ _ _) as [[[v h']|e]| |].
    + eapply updating_later; [|exact Hn]. apply Hdelete; [done|]. by eapply field_tails_shorter.
  - apply safe_bind; [by apply safe_map_entries|]. intros m n' Hn' _.
    apply safe_then; [apply safe_delete_key; [by eapply inside_mono|done]|]. intros n'' Hn''. apply Hk. lia.
Qed.

Lemma safe_delete_items n (D W : nat → Prop) l k todo i :
  (n0 ≤ n)%nat → inside D n (Slice l k) → (∀ c, D c → W c) → safe n D W (delete_items delete_in l k todo i paths).
Proof using Hdelete.
  intros Hn Hl HDW. revert n i Hn Hl. induction todo as [|todo IH]; intros n i Hn Hl; cbn [delete_items];
    [apply safe_ret; constructor|].
  apply safe_bind; [by apply safe_slice_items|]. intros items n' Hn' Hi.
  assert (inside D n' (nth i items VNil)) as Hc by (apply within_nth; [done|apply inside_scalar]).
  destruct (index_removed k i paths); [apply IH; [lia|by eapply inside_mono]|].
  apply safe_bind.
  { destruct (index_tails k i paths) as [|t tails] eqn:E; [by apply safe_ret|].
    apply safe_weaken; [|done]. apply Hdelete; [done| |lia|done]. rewrite <- E. apply index_tails_shorter. }
  intros child n2 Hn2 Hchild. apply safe_bind; [apply IH; [lia|eapply inside_mono; [done|done|lia]]|].
  intros kept n3 Hn3 Hkept. apply safe_ret, within_cons; [by apply (within_later D n2)|done].
Qed.
End delete.

Lemma updating_delete_paths fuel paths :
  (0 < fuel)%nat → (∀ p, p ∈ paths → (length p < fuel)%nat) →
  ∀ n, updating n (λ node, delete_paths fuel node paths).
Proof.
  revert paths. induction fuel as [|fuel IH]; intros paths Hf Hp n n' D node Hn Hnode; [lia|]. cbn [delete_paths].
  assert (∀ tails, tails ≠ [] → shorter tails paths → updating n' (λ v, delete_paths fuel v tails)) as Hd.
  { intros tails Hne Hs. apply IH.
    - destruct tails as [|t tails]; [done|]. destruct (Hs t) as (Ht & p & Hin & Hl); [by left|].
      specialize (Hp p Hin). destruct t; [done|]. cbn in Hl. lia.
    - intros t Ht. destruct (Hs t Ht) as (_ & p & Hin & Hl). specialize (Hp p Hin). lia. }
  destruct node as [a|l k|l]; [by apply safe_ret|..].
  - apply safe_bind; [by eapply safe_delete_items|]. intros kept n2 Hn2 Hk. by apply safe_alloc_slice.
  - apply safe_bind; [by apply safe_map_entries|]. intros m n2 Hn2 _. apply safe_then.
    + eapply safe_delete_entries; [exact Hd|lia|by eapply inside_mono|done].
    + intros n3 Hn3. apply safe_ret, (within_later (A := val) D n'); [done|lia].
Qed.

Lemma updating_delete n paths : updating n (λ node, deleteOverridePaths node paths).
Proof.
  apply updating_delete_paths; [lia|]. intros p Hp. apply (list_elem_of_fmap_2 length) in Hp.
  apply list_max_elem in Hp. lia.
Qed.

(** ** Targets *)

Lemma within_path P (path : overridePath) : within P path.
Proof. by apply Forall_true. Qed.

Lemma within_selection D n v (path : overridePath) : inside D n v → within (inside D n) (v, path).
Proof. intros Hv. split; [done|apply within_path]. Qed.

Lemma within_imap P (items : list val) :
  within P items → Forall (λ e : nat * val, P e.2) (imap (λ i v, (i, v)) items).
Proof.
  intros Hi. apply Forall_lookup. intros i e He. rewrite list_lookup_imap in He. destruct (items !! i) eqn:E; simplify_eq/=.
  by eapply Forall_lookup_1 in Hi.
Qed.

#[local] Instance within_indexed : Within (nat * val).
Proof. refine {| within P e := P e.2 |}. auto. Defined.

Lemma safe_expand n D W value at_ path :
  inside D n value → safe n D W (expandOverrideTargetPath value at_ path).
Proof.
  assert (∀ n, safe n D W (mret ([] : list (val * overridePath)))) as Hnil by (intros ?; apply safe_ret; constructor).
  revert n value at_. induction path as [|[key|i|] path IH]; intros n value at_ Hv; cbn [expandOverrideTargetPath].
  - apply safe_ret, within_one. by apply within_selection.
  - destruct value as [a|l k|l]; [destruct a; try apply Hnil; by apply IH|apply Hnil|].
    apply safe_bind; [by apply safe_map_entries|]. intros m n' Hn' Hm. apply IH, within_vindex; [done|apply inside_scalar].
  - destruct value as [a|l k|l]; [destruct a; try apply Hnil; by apply IH| |apply Hnil].
    destruct (_ <? 0); [apply Hnil|]. apply safe_bind; [by apply safe_slice_items|].
    intros items n' Hn' Hi. apply IH, within_nth; [done|apply inside_scalar].
  - destruct value as [a|l k|l]; [apply Hnil|..].
    + apply safe_bind; [by apply safe_slice_items|]. intros items n' Hn' Hi.
      apply safe_concatM; [by apply within_imap|]. intros [j v] n'' _ Hv'. by apply IH.
    + apply safe_bind; [by apply safe_map_entries|]. intros m n' Hn' Hm. apply safe_concatM; [done|].
      intros [key v] n'' _ [_ Hv']. by apply IH.
Qed.
End operations.
