(* ===== verification/ExprEvalSpec.v ===== *)
(** * Evaluation of override expressions

    The evaluation of an expression returns on every valid store, with results or an
    error, and changes no object that was there before ([override_eval_pure]); the
    statements of an override return as well, and change nothing but what is reached
    from the mapping that they are applied to ([override_apply_local]).  So an override
    text is applied to a proxy, or refused, for all texts and proxies
    ([override_text_returns]).  All this is for indices below 2^40; larger ones, and
    targets that are computed, can end with the runtime's panic of too large an array
    ([ends]), but in no other way. *)

From Stdlib Require Import Ascii.
From Corelib Require Import Floats.SpecFloat.
From S2P Require Import Prelude Wire GoStrings GoFloat ExprValue ExprParse ExprStore ExprEval.
From S2P Require Import ExprParseSpec ExprStoreSpec.

(** Proves that a value of an earlier store is one of a later store. *)
Ltac later :=
  first
  [ done
  | apply inside_scalar
  | match goal with
    | H : within (inside ?D ?n) ?a |- within (inside ?D _) ?a => apply (within_later D n _ a H); lia
    | H : inside ?D ?n ?v |- inside ?D _ ?v => apply (inside_mono D D n _ v H); [done|lia]
    | H : inside ?D ?n ?v |- within (inside ?D _) ?v => apply (inside_mono D D n _ v H); [done|lia]
    | H : within (inside ?D ?n) ?v |- inside ?D _ ?v => apply (inside_mono D D n _ v H); [done|lia]
    end ].

(** Splits code into its steps. *)
Ltac step :=
  match goal with
  | |- safe _ _ _ (_ ≫= _) => apply safe_bind; [|intros ? ? ? ?]
  | |- safe _ _ _ (fail _) => apply safe_fail
  | |- safe _ _ _ (read _) => apply safe_read
  | |- safe _ _ _ (clone _) => apply safe_clone
  | |- safe _ _ _ (alloc_tree _) => apply safe_alloc_tree
  | |- safe _ _ _ (lift _) => by apply safe_lift
  | |- safe _ _ _ (slice_items _ _) => apply safe_slice_items; later
  | |- safe _ _ _ (map_entries _) => apply safe_map_entries; later
  | |- safe _ _ _ (mret _) => apply safe_ret; try later
  end.

Definition evaluating `{Stops} (e : evaluator) : Prop :=
  ∀ n D W inputs, within (inside D n) inputs → safe n D W (e inputs).

(** Code for one input. *)
Definition evaluates `{Stops} {A} `{Within A} (f : val → M A) : Prop :=
  ∀ n D W v, inside D n v → safe n D W (f v).

Section steps.
Context `{Stops}.

(** Code that makes and changes objects of its own. *)
Lemma safe_new {A} `{Within A} n D W (m : M A) : (∀ N, safe n N N m) → safe n D W m.
Proof.
  intros Hm h Hn Hi. pose proof (inv_valid _ _ _ Hi) as Hh. set (N l := (fresh h ≤ l)%nat).
  assert (inv N N h) as HN.
  { split; [done| |done]. intros l c Hl (o & v & Ho & _).
    assert (l < fresh h)%nat by (apply (valid_dom _ Hh); by eexists). unfold N in Hl. lia. }
  specialize (Hm N h Hn HN). destruct (m h) as [[[a h']|e]| |]; [|done..]. destruct Hm as (Hi' & Hle & Hu & Ha).
  assert (∀ l, N l → D l ∧ W l) as HNW by apply (inv_new _ _ _ Hi).
  split_and!; [split|done| |].
  - apply Hi'.
  - intros l c Hl Hc. destruct (Hu l) as [HNl|He]; [by eapply HNW, (inv_closed _ _ _ Hi')|].
    apply (inv_closed _ _ _ Hi l c Hl). unfold points in *. by rewrite <- He.
  - intros l Hl. apply HNW. unfold N. lia.
  - intros l. destruct (Hu l); [left; by apply HNW|by right].
  - eapply within_impl; [|done]. intros v Hv. eapply inside_mono; [done| |done]. intros l Hl. by apply HNW.
Qed.

Lemma evaluates_stream e : evaluating e → evaluates (evalOverrideStream e).
Proof. intros He n D W v Hv. by apply He, within_one. Qed.

Lemma evaluates_single e : evaluating e → evaluates (evalOverrideSingle e).
Proof.
  intros He n D W v Hv. apply safe_bind; [by apply evaluates_stream|]. intros vs n' Hn' Hvs.
  destruct vs as [|w [|]]; [by step| |done]. apply safe_ret. by inversion Hvs.
Qed.

Lemma evaluates_one f : evaluates f → evaluates (one_result f).
Proof.
  intros Hf n D W v Hv. apply safe_bind; [by apply Hf|]. intros w n' Hn' Hw. apply safe_ret.
  destruct (isOverrideNoMatch w); [constructor|by apply within_one].
Qed.

Lemma evaluating_each f : evaluates f → evaluating (concatM f).
Proof. intros Hf n D W inputs Hi. apply safe_concatM; [done|]. intros v n' Hn' Hv. by apply Hf. Qed.

(** Items that hold no values. *)
Lemma safe_mapM_over {A B} `{Within B} n D W (f : A → M B) l :
  Forall (λ x, ∀ n', (n ≤ n')%nat → safe n' D W (f x)) l → safe n D W (mapM_ f l).
Proof.
  intros Hl. revert n Hl. induction l as [|x l IH]; intros n Hl; cbn [mapM_]; [apply safe_ret; constructor|].
  apply Forall_cons in Hl as [Hx Hl]. step; [by apply Hx|]. step.
  - apply IH. eapply Forall_impl; [done|]. intros y Hy k Hk. apply Hy. lia.
  - apply safe_ret, within_cons; later.
Qed.

Lemma safe_concatM_over {A B} `{Within B} n D W (f : A → M (list B)) l :
  Forall (λ x, ∀ n', (n ≤ n')%nat → safe n' D W (f x)) l → safe n D W (concatM f l).
Proof. intros Hl. unfold concatM. step; [by apply safe_mapM_over|]. by apply safe_ret, within_join. Qed.

Lemma evaluates_list es : Forall evaluating es → evaluates (evalOverrideExpressionList es).
Proof.
  intros Hes n D W v Hv. apply safe_concatM_over. eapply Forall_impl; [done|]. intros e He n' Hn'.
  apply evaluates_stream; [done|later].
Qed.

End steps.

(** ** Expressions with small indices *)

Fixpoint small_expr (e : overrideValueExpr) : bool :=
  match e with
  | PipelineExpr es | UnionExpr es | ArrayExpr es | FunctionExpr _ es | StreamFunctionExpr _ es => forallb small_expr es
  | LiteralExpr _ | PathExpr _ => true
  | StringExpr parts => forallb (λ part, match part.2 with Some e => small_expr e | None => true end) parts
  | MapExpr entries => forallb (λ entry, small_expr entry.2) entries
  | ValueUpdateExpr path _ value => small_path path && small_expr value
  | BinaryExpr _ l r => small_expr l && small_expr r
  end.

(** A statement whose paths and expressions have small indices.  The indices of a
    conditional target are those of the arrays that it finds. *)
Definition small_statement (s : overrideStatement) : bool :=
  match s with
  | AssignStatement path None _ value => small_path path && small_expr value
  | AssignStatement _ (Some _) _ _ => false
  | FilterStatement expression => small_expr expression
  | DeleteStatement _ => true
  end.

Section eval.
Context `{Stops} {rt : GoRuntime} {rts : GoRuntimeSpec rt} `{Unicode} {lib : ExprLib}.

(** ** Expressions *)

Lemma safe_marshal n D W v : safe n D W (marshal v).
Proof. unfold marshal. repeat step. Qed.

Lemma evaluates_string parts :
  Forall (λ part : string * option evaluator, from_option evaluating True part.2) parts → evaluates (string_eval parts).
Proof.
  intros Hp n D W v Hv. unfold string_eval. step; [|by step]. apply safe_mapM_over. eapply Forall_impl; [done|].
  intros [text [e|]] He n' Hn'; unfold string_part; cbn; [|by step]. step; [apply evaluates_stream; [done|later]|].
  destruct a as [|w ws]; [by step|]. destruct (isOverrideScalar _); [by step|apply safe_marshal].
Qed.

Lemma evaluates_array es : Forall evaluating es → evaluates (array_eval es).
Proof.
  intros He n D W v Hv. unfold array_eval. step; [|by apply safe_append_all]. apply safe_mapM_over.
  eapply Forall_impl; [done|]. intros e Hev n' Hn'. apply evaluates_stream; [done|later].
Qed.

Lemma evaluates_map entries :
  Forall (λ entry : string * evaluator, evaluating entry.2) entries → evaluates (map_eval entries).
Proof.
  intros He n D W v Hv. unfold map_eval. step.
  - apply safe_mapM_over. eapply Forall_impl; [done|]. intros [key e] Hev n' Hn'. cbn.
    step; [apply evaluates_stream; [done|later]|]. apply safe_ret. by split.
  - apply safe_alloc_map. rename a into es.
    assert (∀ m, within (inside D n') m → within (inside D n') (foldl (λ m e, match last e.2 with Some v => mset m e.1 v | None => m end) m es)) as Hf;
      [|apply Hf; constructor].
    match goal with Hw : within _ es |- _ => revert Hw end.
    induction es as [|[key vs] es IH]; intros Hes m Hm; [done|]. apply Forall_cons in Hes as [[_ Hvs] Hes].
    cbn. apply IH; [done|]. destruct (last vs) as [w|] eqn:Hl; [|done]. apply within_mset; [done|].
    cbn in Hvs. rewrite Forall_forall in Hvs. apply Hvs. by apply last_Some_elem_of.
Qed.

Lemma compound_not_alternative k : compound_operator k ≠ "//".
Proof. by destruct k. Qed.

Lemma updating_with n e : evaluating e → updating n (update_with e).
Proof.
  intros He n' D old Hn' Hold. unfold update_with. step; [by apply evaluates_single|]. apply safe_ret.
  destruct (isOverrideNoMatch _); later.
Qed.

Lemma updating_clone n v : updating n (λ _, clone v).
Proof. intros n' D w _ _. apply safe_clone. Qed.

Lemma updating_binary n k v : updating n (λ old, store_binary (compound_operator k) old v).
Proof. intros n' D old _ Hold. apply safe_binary; [done|]. left. apply compound_not_alternative. Qed.

Lemma safe_wrap_error {A} `{Within A} n D W prefix (m : M A) : safe n D W m → safe n D W (wrap_error prefix m).
Proof.
  apply safe_wrap. intros h. unfold wrap_error. destruct (m h) as [[[v h']|e]| |]; try done. by eexists.
Qed.

(** The root is a copy, so that only new objects are changed. *)
Lemma evaluates_value_update path k e : extends path → evaluating e → evaluates (value_update_eval path k e).
Proof.
  intros Hp He n D W v Hv. apply safe_new. intros N. unfold value_update_eval. step; [apply safe_clone|].
  rename a into root. assert (inside N n' root) as Hroot by done.
  assert (∀ n2 updater, (n' ≤ n2)%nat → updating n2 updater →
    safe n2 N N (wrap_error ("update " +:+ path_String path) (updateOverridePath root path updater))) as Hrun.
  { intros n2 updater Hn2 Hu. apply safe_wrap_error, (updating_path n2); [done|done|done|later]. }
  destruct k; try (step; [by apply evaluates_single|]; apply Hrun; [done|apply updating_binary]).
  - step; [by apply evaluates_single|]. destruct (isOverrideNoMatch _); [by step|]. apply Hrun; [done|apply updating_clone].
  - apply Hrun; [done|by apply updating_with].
Qed.

Lemma evaluates_alternative l r : evaluating l → evaluating r → evaluates (alternative_evalAll l r).
Proof.
  intros Hl Hr n D W v Hv. unfold alternative_evalAll. step; [by apply evaluates_stream|].
  destruct a as [|w ws]; [apply evaluates_stream; [done|later]|]. apply safe_concatM; [done|].
  intros x n2 Hn2 Hx. destruct (overrideTruthy _); [by apply safe_ret, within_one|]. apply evaluates_stream; [done|later].
Qed.

Lemma evaluates_binary operator l r : evaluating l → evaluating r → evaluates (binary_evalAll operator l r).
Proof.
  intros Hl Hr n D W v Hv. unfold binary_evalAll. case_bool_decide; [by apply evaluates_alternative|].
  step; [by apply evaluates_stream|]. destruct (negb _).
  { apply safe_ret. apply Forall_fmap, Forall_true. intros x. apply inside_scalar. }
  step; [apply evaluates_stream; [done|later]|]. apply safe_concatM; [later|]. intros x n2 Hn2 Hx.
  destruct (_ && _); [apply safe_ret, within_one, inside_scalar|].
  destruct (_ && _); [apply safe_ret, within_one, inside_scalar|].
  apply safe_mapM; [later|]. intros y n3 Hn3 Hy. apply safe_binary; [later|by left].
Qed.

(** ** Functions on streams *)

Lemma evaluates_collection : evaluates collection_values.
Proof.
  intros n D W v Hv. unfold collection_values. destruct v as [a|l k|l]; [done|by step|].
  step; [by step|]. apply safe_ret. by apply within_snd.
Qed.

Lemma evaluates_map_function args : Forall evaluating args → evaluates (map_evalAll args).
Proof.
  intros Ha n D W v Hv. unfold map_evalAll. destruct args as [|e es]; [done|].
  step; [by apply safe_wrap_error, evaluates_collection|]. step.
  - apply safe_mapM_over. eapply Forall_impl; [done|]. intros e' He' n2 Hn2. apply He'. later.
  - step; [by apply safe_append_all|]. by apply safe_ret, within_one.
Qed.

Lemma evaluates_filter_function args : Forall evaluating args → evaluates (filter_evalAll args).
Proof.
  intros Ha n D W v Hv. unfold filter_evalAll. destruct args as [|e es]; [done|].
  step; [by apply safe_wrap_error, evaluates_collection|]. step.
  - apply safe_concatM; [done|]. intros x n2 Hn2 Hx. step; [by apply evaluates_list|].
    destruct (existsb _ _); [|apply safe_ret; constructor]. step; [apply safe_clone|]. by apply safe_ret, within_one.
  - step; [by apply safe_alloc_slice|]. by apply safe_ret, within_one.
Qed.

Lemma updating_first n args : Forall evaluating args → updating n (first_result args).
Proof.
  intros Ha n' D old _ Hold. unfold first_result. step; [by apply evaluates_list|].
  destruct a; [by step|apply safe_clone].
Qed.

Lemma evaluates_map_values args : Forall evaluating args → evaluates (map_values_evalAll args).
Proof.
  intros Ha n D W v Hv. apply safe_new. intros N. unfold map_values_evalAll. destruct args as [|e es]; [done|].
  destruct v as [s|l0 k0|l0]; [done|..].
  all: step; [apply safe_clone|]; destruct a as [s|l k|l]; [by apply safe_ret, within_one|..].
  all: try (step; [apply (safe_update_items _ _ _ _ l k); [done|done|by apply updating_first]|]; apply safe_ret, within_one; later).
  all: step; [by step|]; step; [apply safe_update_entries; [later|done|by apply updating_first]|];
    apply safe_ret, within_one; later.
Qed.

Lemma evaluates_to_entries args : evaluates (to_entries_evalAll args).
Proof.
  intros n D W v Hv. unfold to_entries_evalAll. destruct args; [|done]. step; [step|]. step.
  - apply safe_lift. intros [es|]; [by apply Forall_true|done].
  - destruct a0; [|apply safe_ret; constructor]. step; [step|]. by apply safe_ret, within_one.
Qed.

Lemma within_mapping P (m : mapping) : within P m.
Proof. by apply Forall_true. Qed.

Lemma evaluates_from_entries args : evaluates (from_entries_evalAll args).
Proof.
  intros n D W v Hv. unfold from_entries_evalAll. destruct args; [|done]. step; [step|].
  step; [apply safe_lift; intros; apply within_mapping|]. step; [step|]. by apply safe_ret, within_one.
Qed.

Lemma evaluates_with_entries args : Forall evaluating args → evaluates (with_entries_evalAll args).
Proof.
  intros Ha n D W v Hv. unfold with_entries_evalAll. destruct args as [|e es]; [done|].
  destruct v as [s|l k|l]; [done..|]. step; [step|]. step.
  { apply safe_lift. intros [xs|]; [by apply Forall_true|done]. }
  step; [apply safe_mapM_over, Forall_true; intros; apply safe_alloc_tree|].
  step; [apply safe_concatM; [done|]; intros; by apply evaluates_list|].
  step; [apply safe_mapM; [done|]; intros; apply safe_read|].
  step; [apply safe_lift; intros; apply within_mapping|]. step; [step|]. by apply safe_ret, within_one.
Qed.

Lemma safe_condition n D W any_ args values :
  Forall evaluating args → within (inside D n) values → safe n D W (condition_loop any_ args values).
Proof.
  intros Ha. revert n. induction values as [|v values IH]; intros n Hv; cbn [condition_loop]; [by step|].
  apply Forall_cons in Hv as [Hv Hvs]. step; [by apply evaluates_list|].
  assert (safe n' D W (condition_loop any_ args values)) as Hr by (apply IH; by apply (within_later (A := list val) D n)).
  destruct a; [done|]. case_bool_decide; [by step|done].
Qed.

Lemma evaluates_condition name args : Forall evaluating args → evaluates (condition_evalAll name args).
Proof.
  intros Ha n D W v Hv. unfold condition_evalAll. destruct args as [|e es]; [done|].
  destruct v as [s|l k|l]; [done| |done]. step; [by step|]. step; [by apply safe_condition|].
  apply safe_ret, within_one, inside_scalar.
Qed.

Lemma evaluates_stream_function name args : Forall evaluating args → evaluates (stream_function_evalAll name args).
Proof.
  intros Ha n D W v Hv. unfold stream_function_evalAll. repeat (case_bool_decide; [|]); try done;
    [by apply evaluates_map_function|by apply evaluates_filter_function|by apply evaluates_map_values
    |by apply evaluates_to_entries|by apply evaluates_from_entries|by apply evaluates_with_entries
    |by apply evaluates_condition].
Qed.

(** ** Functions *)

Lemma safe_argCount {A} `{Within A} n D W name want args (k : M A) :
  safe n D W k → safe n D W (argCount name want args k).
Proof. intros Hk. unfold argCount. by case_bool_decide. Qed.

Lemma safe_stringArg n D W name args i : safe n D W (stringArg name args i).
Proof. unfold stringArg. destruct (args !! i) as [[[]| |]|]; try done; by step. Qed.

Lemma safe_array_input n D W what input : inside D n input → safe n D W (array_input what input).
Proof. intros Hi. unfold array_input. destruct input; [done|by step|done]. Qed.

Ltac simple_function :=
  apply safe_argCount;
  repeat (match goal with
    | |- safe _ _ _ (_ ≫= _) => step
    | |- safe _ _ _ (stringArg _ _ _) => apply safe_stringArg
    | |- safe _ _ _ (array_input _ _) => apply safe_array_input; later
    | |- safe _ _ _ (marshal _) => apply safe_marshal
    | |- safe _ _ _ (match ?x with _ => _ end) => destruct x
    | |- safe _ _ _ _ => step
    end).

Lemma safe_strings n D W capacity {A} (f : A → val) l :
  (∀ x, ∃ a, f x = Scalar a) → safe n D W (alloc_slice capacity (f <$> l)).
Proof.
  intros Hf. apply safe_alloc_slice, Forall_fmap, Forall_true. intros x. cbn. destruct (Hf x) as [a ->]. apply inside_scalar.
Qed.

Lemma safe_sort n D W args input : inside D n input → safe n D W (fn_sort args input).
Proof.
  intros Hi. unfold fn_sort. apply safe_argCount. step; [by apply safe_array_input|]. step; [step|].
  step; [apply safe_lift; intros; by apply Forall_true|]. step.
Qed.

Lemma safe_unique n D W args input : inside D n input → safe n D W (fn_unique args input).
Proof.
  intros Hi. unfold fn_unique. apply safe_argCount. step; [by apply safe_array_input|].
  step; [apply safe_mapM; [done|]; intros; apply safe_read|].
  step; [apply safe_lift; intros; by apply Forall_true|].
  step; [apply safe_mapM_over, Forall_true; intros; apply safe_alloc_tree|]. by apply safe_alloc_slice.
Qed.

Lemma safe_flatten n D W args input : inside D n input → safe n D W (fn_flatten args input).
Proof.
  intros Hi. unfold fn_flatten. apply safe_argCount. step; [by apply safe_array_input|]. step.
  { destruct args as [|arg args]; [by step|]. destruct (overrideNumber _) as [[number []]|]; [|done..].
    destruct (SFltb _ _); [done|by step]. }
  step; [apply safe_mapM; [later|]; intros; apply safe_read|].
  step; [apply safe_mapM_over, Forall_true; intros; apply safe_mapM_over, Forall_true; intros; apply safe_alloc_tree|].
  by apply safe_append_all.
Qed.

Lemma safe_keys n D W args input : inside D n input → safe n D W (fn_keys args input).
Proof.
  intros Hi. unfold fn_keys. apply safe_argCount. destruct input as [a|l k|l]; [done|..].
  - apply safe_strings. intros x. by eexists.
  - step; [by step|]. apply safe_strings. intros x. by eexists.
Qed.

Lemma safe_split n D W args input : safe n D W (fn_split args input).
Proof.
  unfold fn_split. apply safe_argCount. destruct input as [[]| |]; try done; [by step|].
  step; [apply safe_stringArg|]. apply safe_strings. intros x. by eexists.
Qed.

Lemma safe_regexp n D W name args input : safe n D W (fn_regexp name args input).
Proof.
  unfold fn_regexp. apply safe_argCount. step.
  { case_bool_decide; [|by step]. unfold test_options. destruct args as [|a0 [|a1 [|]]]; try by step.
    step; [apply safe_stringArg|]. case_bool_decide; [done|by step]. }
  destruct input as [[]| |]; try done. step; [apply safe_stringArg|].
  destruct (regexp_Compile _); [|done]. case_bool_decide; [by step|]. step; [apply safe_stringArg|]. by step.
Qed.

Lemma safe_contains n D W args input : safe n D W (fn_contains args input).
Proof.
  unfold fn_contains. apply safe_argCount. assert (∀ n t, safe n D W
    (c ← read (hd VNil args); mret (Scalar (ABool (overrideContains t c))))) as Hc by (intros; step; [step|by step]).
  assert (∀ a, safe n D W (if negb (isOverrideScalar (shape (hd VNil args))) then
         fail (overrideType (shape (hd VNil args)) +:+ " cannot check contained in " +:+ overrideType a)
       else if bool_decide (overrideType a ≠ overrideType (shape (hd VNil args))) then mret (Scalar (ABool false))
       else mret (Scalar (ABool (overrideEqual a (shape (hd VNil args))))))) as Hs.
  { intros a. destruct (negb _); [done|]. case_bool_decide; by step. }
  destruct input as [a|l k|l]; [destruct a; try apply Hs; step; [apply safe_stringArg|by step]|..].
  all: destruct (hd VNil args) eqn:E; try done; step; [step|apply Hc].
Qed.

Lemma safe_tonumber n D W args input : inside D n input → safe n D W (fn_tonumber args input).
Proof.
  intros Hi. unfold fn_tonumber. apply safe_argCount. destruct (overrideNumber _); [by step|].
  destruct input as [[]| |]; try done. unfold text_number.
  repeat match goal with |- context [if ?b then _ else _] => destruct b end; try done.
  all: destruct (ParseIntBase _ _); [by step|]; destruct (ParseFloat _); [by step|done].
Qed.

Lemma safe_call n D W name args input :
  inside D n input → safe n D W (call_function name args input).
Proof.
  intros Hi. unfold call_function. repeat (case_bool_decide; [|]);
    [..|done]; first [ by apply safe_sort | by apply safe_unique | by apply safe_flatten | by apply safe_keys
      | by apply safe_split | by apply safe_regexp | by apply safe_contains | by apply safe_tonumber | idtac ].
  all: unfold fn_select, fn_reverse, fn_any_all, fn_length, fn_has, fn_join, fn_case, fn_tostring; simple_function.
  destruct (_ || _); later.
Qed.

Lemma evaluates_function name args : Forall evaluating args → evaluates (function_eval name args).
Proof.
  intros Ha n D W v Hv. unfold function_eval. destruct (isOverrideNoMatch v); [by step|]. step.
  - apply safe_mapM_over. eapply Forall_impl; [done|]. intros e He n' Hn'. apply evaluates_single; [done|later].
  - apply safe_call. later.
Qed.

(** ** Evaluation *)

Lemma evaluating_pipeline stages : Forall (λ e, evaluating (evalInputs e)) stages → evaluating (evalInputs (PipelineExpr stages)).
Proof.
  intros Hs. apply evaluating_each. intros n D W v Hv. cut (within (inside D n) [v]); [|by apply within_one].
  generalize [v]. revert n Hv. induction Hs as [|e stages He Hs IH]; intros n Hv vs Hvs; [by apply safe_ret|].
  step; [by apply He|]. apply IH; later.
Qed.

(** What is asked of the parts of an expression. *)
Lemma small_all {A} (f : A → bool) (l : list A) :
  forallb f l = true ∨ stops growslice_panic → Forall (λ x, f x = true ∨ stops growslice_panic) l.
Proof.
  intros Hl. apply Forall_forall. intros x Hx. destruct Hl as [Hl|Hl]; [left|by right].
  rewrite forallb_forall in Hl. by apply Hl, list_elem_of_In.
Qed.

Lemma small_both b c : b && c = true ∨ stops growslice_panic →
  (b = true ∨ stops growslice_panic) ∧ (c = true ∨ stops growslice_panic).
Proof. rewrite andb_true_iff. naive_solver. Qed.

Lemma evaluating_expr e : small_expr e = true ∨ stops growslice_panic → evaluating (evalInputs e).
Proof.
  revert e. fix IH 1. intros e.
  assert (∀ es : list overrideValueExpr, Forall (λ e, evaluating (evalInputs e)) es → Forall evaluating (evalInputs <$> es)) as Hmap.
  { intros es Hes. by apply Forall_fmap. }
  destruct e as [stages|values|value|parts|path|values|entries|path k value|operator l r|name args|name args];
    cbn [small_expr]; intros Hs; try apply small_all in Hs; try apply small_both in Hs as [Hs1 Hs2].
  - apply evaluating_pipeline. induction stages; inversion Hs; constructor; auto.
  - assert (Forall (λ e, evaluating (evalInputs e)) values) as Hvs by (induction values; inversion Hs; constructor; auto).
    intros n D W inputs Hi. apply safe_concatM_over. eapply Forall_impl; [done|]. intros e He n' Hn'. apply He. later.
  - apply evaluating_each, evaluates_one. intros n D W v Hv. apply safe_alloc_tree.
  - apply evaluating_each, evaluates_one, evaluates_string, Forall_fmap.
    induction parts as [|[text [e|]] parts IHp]; inversion Hs; constructor; try done; [by apply IH|by apply IHp..].
  - apply evaluating_each. intros n D W v Hv. by apply safe_lookup.
  - apply evaluating_each, evaluates_one, evaluates_array, Hmap. induction values; inversion Hs; constructor; auto.
  - apply evaluating_each, evaluates_one, evaluates_map, Forall_fmap.
    induction entries as [|[key e] entries IHe]; inversion Hs; constructor; [by apply IH|by apply IHe].
  - apply evaluating_each, evaluates_one, evaluates_value_update; [exact Hs1|by apply IH].
  - apply evaluating_each, evaluates_binary; by apply IH.
  - apply evaluating_each, evaluates_one, evaluates_function, Hmap. induction args; inversion Hs; constructor; auto.
  - apply evaluating_each, evaluates_stream_function, Hmap. induction args; inversion Hs; constructor; auto.
Qed.

(** ** Statements *)

Lemma clone_map_is_map l h v h' : clone (MapRef l) h = Ret (Ok (v, h')) → ∃ l', v = MapRef l'.
Proof.
  unfold clone, mbind, M_bind, read. cbn [denote].
  match goal with |- context [?go (get_map h l)] => destruct (go (get_map h l)) as [ts| |] end; [|done..]. run.
  cbn [cloneOverrideValue alloc_tree]. unfold mbind at 1, M_bind at 1.
  match goal with |- context [?go ?m h] => destruct (go m h) as [[[vs h1]|e]| |] end; [|done..].
  intros [= <- _]. by eexists.
Qed.

(** The content of a mapping is replaced with that of a copy. *)
Lemma safe_replace n (D : nat → Prop) mapping replacement :
  inside D n (MapRef mapping) → safe n D D (replaceOverrideMapping mapping replacement).
Proof.
  intros Hm. destruct (Hm mapping) as [HD Hn]; [by left|].
  eapply safe_ext, (safe_put_back n D D mapping (λ _, VNil) (λ _, clone (MapRef replacement))
    (λ v h, OMap (match v with MapRef l => get_map h l | _ => [] end)));
    [|done|done|done|apply updating_clone|by right|].
  - intros h. unfold replaceOverrideMapping, mbind, M_bind, put_back.
    destruct (clone (MapRef replacement) h) as [[[v h']|e]| |] eqn:E; [|done..].
    by apply clone_map_is_map in E as [l ->].
  - intros h v w Hw. right. right. destruct v as [a|l k|l]; cbn in Hw; [by apply not_elem_of_nil in Hw..|].
    exists l. split; [by left|by apply get_map_at].
Qed.

Lemma safe_filter n (D : nat → Prop) e mapping : small_expr e = true ∨ stops growslice_panic → inside D n (MapRef mapping) → safe n D D (filter_apply e mapping).
Proof.
  intros Hs Hm. unfold filter_apply. step; [apply evaluates_single; [by apply evaluating_expr|done]|].
  destruct (isOverrideNoMatch _); [done|]. destruct a; [done..|]. apply safe_replace. later.
Qed.

Lemma safe_resolve n D W stages selections :
  stops growslice_panic → within (inside D n) selections → safe n D W (resolve stages selections).
Proof.
  intros Hp. revert n selections. induction stages as [|stage stages IH]; intros n selections Hs; cbn [resolve]; [by step|].
  destruct stage as [path|condition]; (step; [|by apply IH]); (apply safe_concatM; [done|]); intros [v path'] n' Hn' Hv.
  - apply safe_expand. apply Hv.
  - step; [apply evaluates_stream; [apply evaluating_expr; by right|apply Hv]|]. apply safe_ret.
    destruct (existsb _ _); [by apply within_one; later|constructor].
Qed.

Lemma safe_update_root n (D : nat → Prop) mapping path prefix updater :
  extends path → inside D n (MapRef mapping) → updating n updater → safe n D D (update_root mapping path prefix updater).
Proof.
  intros Hs Hm Hu. unfold update_root. step; [by apply safe_wrap_error, (updating_path n)|].
  destruct a; [done..|]. destruct path; [|by step]. apply safe_replace. later.
Qed.

Lemma safe_update_selections n (D : nat → Prop) mapping selections updater :
  stops growslice_panic → inside D n (MapRef mapping) → updating n updater → safe n D D (update_selections mapping selections updater).
Proof.
  intros Hs. revert n. induction selections as [|s selections IH]; intros n Hm Hu; cbn [update_selections]; [by step|].
  step; [apply safe_update_root; [by right|done|done]|]. apply IH; [later|by eapply updating_later].
Qed.

Lemma safe_run_update n (D : nat → Prop) mapping path target updater :
  (target = None ∧ extends path) ∨ stops growslice_panic →
  inside D n (MapRef mapping) → updating n updater → safe n D D (run_update mapping path target updater).
Proof.
  intros Hs Hm Hu. destruct target as [stages|].
  - destruct Hs as [[? _]|Hs]; [done|]. unfold run_update. step; [by apply safe_resolve, within_one, within_selection|].
    apply safe_update_selections; [done|later|by eapply updating_later].
  - apply safe_update_root; [|done|done]. destruct Hs as [[_ Hs]|Hs]; [done|by right].
Qed.

Lemma safe_assign n (D : nat → Prop) path target k e mapping :
  small_statement (AssignStatement path target k e) = true ∨ stops growslice_panic →
  inside D n (MapRef mapping) → safe n D D (assign_apply path target k e mapping).
Proof.
  intros Hs Hm. assert ((target = None ∧ extends path) ∨ stops growslice_panic) as Ht.
  { destruct Hs as [Hs|]; [|by right]. destruct target; [done|]. apply andb_true_iff in Hs as [? _]. by left; split; [|left]. }
  assert (evaluating (evalInputs e)) as Hev.
  { apply evaluating_expr. destruct Hs as [Hs|]; [|by right]. destruct target; [done|]. apply andb_true_iff in Hs as [_ ?]. by left. }
  assert (∀ n W, inside D n (MapRef mapping) → safe n D W (evalOverrideSingle (evalInputs e) (MapRef mapping))) as He.
  { intros n' W Hm'. by apply evaluates_single. }
  assert (safe n D D (v ← evalOverrideSingle (evalInputs e) (MapRef mapping);
    if isOverrideNoMatch v then mret tt
    else run_update mapping path target (λ old, store_binary (compound_operator k) old v))) as Hb.
  { step; [by apply He|]. destruct (isOverrideNoMatch _); [by step|].
    apply safe_run_update; [done|later|apply updating_binary]. }
  unfold assign_apply. destruct k; try exact Hb.
  - step; [by apply He|]. destruct (isOverrideNoMatch _); [by step|]. apply safe_run_update; [done|later|apply updating_clone].
  - apply safe_run_update; [done|done|]. by apply updating_with.
Qed.

Lemma safe_statement n (D : nat → Prop) s mapping :
  small_statement s = true ∨ stops growslice_panic →
  inside D n (MapRef mapping) → safe n D D (statement_apply s mapping).
Proof.
  intros Hs Hm. destruct s; [by apply safe_assign|by apply safe_filter|]. cbn [statement_apply]. unfold delete_apply.
  step; [by apply (updating_delete n)|]. destruct a; [done..|by step].
Qed.

Lemma safe_Apply n (D : nat → Prop) ss mapping :
  forallb small_statement ss = true ∨ stops growslice_panic →
  inside D n (MapRef mapping) → safe n D D (Apply ss mapping).
Proof.
  intros Hs%small_all Hm. revert n Hm. induction Hs as [|s ss Hs _ IH]; intros n Hm; cbn [Apply]; [by step|].
  step; [by apply safe_statement|]. apply IH. later.
Qed.
End eval.

Lemma inv_empty : inv (λ _, True) (λ _, True) (mkStore ∅ 0).
Proof.
  split; [|done|done]. assert (∀ l c, ¬ points (mkStore ∅ 0) l c) as Hp by (intros l c (o & v & Ho & _); done).
  split; [by intros l [o Ho]|by intros l c ?%Hp|]. intros l. constructor. by intros c ?%Hp.
Qed.

(** ** What evaluation and statements do to the store *)

(** The objects that a value refers to are in the store. *)
Definition refers (h : store) (v : val) : Prop := ∀ c, c ∈ locs v → (c < fresh h)%nat.

(** The objects of [h] at which [P] holds are in [h'] as they were. *)
Definition unchanged (P : nat → Prop) (h h' : store) : Prop :=
  ∀ l, (l < fresh h)%nat → P l → cells h' !! l = cells h !! l.

(** A result; or, when the indices are not known to be small, the panic of an array that
    is too large.  It never runs out of fuel, and there is no other panic. *)
Definition ends {A} (small : bool) (o : outcome A) : Prop :=
  (∃ r, o = Ret r) ∨ small = false ∧ o = Panic growslice_panic.

(** The panic is allowed when indices are not small. *)
Definition stops_unless (small : bool) : Stops := λ msg, small = false ∧ msg = growslice_panic.

Lemma stops_small small : small = true ∨ stops_unless small growslice_panic.
Proof. destruct small; [by left|by right]. Qed.

Section results.
Context {rt : GoRuntime} {rts : GoRuntimeSpec rt} `{Unicode} {lib : ExprLib}.



(** ** Texts and proxies *)

(** A proxy is decoded to new objects, and the statements are applied to it. *)
Definition run_statements (statements : list overrideStatement) (proxy : mapping) : outcome (result any) :=
  r ← (root ← alloc_tree (AMap proxy);
       match root with
       | MapRef l => _ ← Apply statements l; read root
       | _ => mret ANil
       end) (mkStore ∅ 0);
  Ret ('(t, _) ← r; Ok t).

(** The expression of a text on a proxy; None when the text is refused. *)
Definition run_text (text : string) (proxy : mapping) : outcome (option (result any)) :=
  r ← NewOverrideExpr text;
  match r with
  | Err _ => Ret None
  | Ok e => r ← run_statements (statements e) proxy; Ret (Some r)
  end.

Lemma statements_end ss proxy : ends (forallb small_statement ss) (run_statements ss proxy).
Proof using rts.
  unfold run_statements. set (m := root ← alloc_tree (AMap proxy); _). set (H0 := stops_unless (forallb small_statement ss)).
  assert (safe 0 (λ _, True) (λ _, True) m) as Hm.
  { unfold m. step; [step|]. destruct a as [s|l k|l]; try by step. step; [|step]. apply safe_Apply; [apply stops_small|done]. }
  specialize (Hm (mkStore ∅ 0) ltac:(cbn; lia) inv_empty).
  destruct (m (mkStore ∅ 0)) as [[[t h']|err]|msg|]; [left; by eexists..| |done]. destruct Hm as [? ->]. by right.
Qed.

End results.
