(* ===== verification/ExprRep.v ===== *)
(** * Proxies whose objects are held once

    [rep h v t L]: in the store [h] the value [v] stands for the tree [t], and the objects
    of the tree are those at [L], each of them once.  Updates of such a value change
    nothing that others hold ([change]), so that they can be described on trees:
    [implements] says that code does to a value what a function does to its tree. *)

From Stdlib Require Import Ascii Sorting.Sorted.
From S2P Require Import Prelude Wire GoStrings GoFloat ExprValue ExprParse ExprStore.
From S2P Require Import ExprStoreSpec.

(** ** Mappings in the order of their keys *)

Lemma string_ltb_irrefl s : string_ltb s s = false.
Proof. induction s as [|a s IH]; [done|]. cbn. by rewrite Ascii.eqb_refl. Qed.

Lemma string_ltb_trans s t u : string_ltb s t = true → string_ltb t u = true → string_ltb s u = true.
Proof.
  revert t u. induction s as [|a s IH]; intros [|b t] [|c u]; try done. cbn [string_ltb].
  destruct (Ascii.eqb_spec a b) as [->|Hab], (Ascii.eqb_spec b c) as [->|Hbc]; try done.
  - apply IH.
  - destruct (Ascii.eqb_spec a c); done.
  - rewrite !Nat.ltb_lt. destruct (Ascii.eqb_spec a c) as [->|Hac]; [lia|]. rewrite Nat.ltb_lt. lia.
Qed.

Lemma string_ltb_total s t : s ≠ t → string_ltb t s = false → string_ltb s t = true.
Proof.
  revert t. induction s as [|a s IH]; intros [|b t]; try done. cbn [string_ltb].
  destruct (Ascii.eqb_spec a b) as [->|Hab].
  - rewrite Ascii.eqb_refl. intros Hne. apply IH. congruence.
  - destruct (Ascii.eqb_spec b a) as [->|_]; [done|]. rewrite Nat.ltb_nlt, Nat.ltb_lt. intros _ Hn.
    assert (nat_of_ascii a ≠ nat_of_ascii b) by (intros E; by apply (f_equal ascii_of_nat) in E; rewrite !ascii_nat_embedding in E). lia.
Qed.

Definition key_lt (s t : string) : Prop := string_ltb s t = true.

(** The keys are different, and in order. *)
Definition sorted {A} (m : list (string * A)) : Prop := StronglySorted key_lt m.*1.

Lemma sorted_cons {A} k (x : A) m : sorted ((k, x) :: m) ↔ (∀ k', k' ∈ m.*1 → key_lt k k') ∧ sorted m.
Proof.
  unfold sorted. cbn. split; [intros [Hs Hf]%StronglySorted_inv|intros [Hf Hs]; constructor; [done|]].
  - by rewrite Forall_forall in Hf.
  - by rewrite Forall_forall.
Qed.

Lemma mget_in {A} (m : list (string * A)) key x : mget m key = Some x → key ∈ m.*1.
Proof.
  induction m as [|[k y] m IH]; cbn; [done|]. case_bool_decide as Hk; [intros _; subst; left|intros Hg; right; auto].
Qed.

Lemma key_lt_irrefl k : ¬ key_lt k k.
Proof. unfold key_lt. by rewrite string_ltb_irrefl. Qed.

Lemma mget_before {A} (m : list (string * A)) key k x :
  sorted ((k, x) :: m) → key_lt key k → mget m key = None.
Proof.
  intros [Hk _]%sorted_cons Hlt. destruct (mget m key) as [y|] eqn:E; [|done]. apply mget_in in E.
  destruct (key_lt_irrefl key). eapply string_ltb_trans; [exact Hlt|by apply Hk].
Qed.

Lemma elem_of_mset_keys {A} (m : list (string * A)) key x k : k ∈ (mset m key x).*1 → k = key ∨ k ∈ m.*1.
Proof.
  induction m as [|[k' y] m IH]; cbn; [set_solver|]. case_bool_decide; [cbn; set_solver|].
  destruct (string_ltb key k'); cbn; set_solver.
Qed.

Lemma mset_sorted {A} (m : list (string * A)) key x : sorted m → sorted (mset m key x).
Proof.
  induction m as [|[k y] m IH]; intros Hs; cbn [mset]; [apply sorted_cons; split; [by intros ? ?%not_elem_of_nil|constructor]|].
  case_bool_decide as Hk; [by subst|]. destruct (string_ltb key k) eqn:E.
  - apply sorted_cons. split; [|done]. intros k' [->|Hk']%elem_of_cons; [done|].
    apply sorted_cons in Hs as [Hlt _]. eapply string_ltb_trans; [exact E|by apply Hlt].
  - apply sorted_cons in Hs as [Hlt Hs]. apply sorted_cons. split; [|by apply IH].
    intros k' [->|Hk']%elem_of_mset_keys; [|by apply Hlt]. by apply string_ltb_total.
Qed.

Lemma mdelete_keys {A} (m : list (string * A)) key k : k ∈ (mdelete m key).*1 → k ∈ m.*1.
Proof. induction m as [|[k' y] m IH]; cbn; [done|]. case_bool_decide; cbn; set_solver. Qed.

Lemma mdelete_sorted {A} (m : list (string * A)) key : sorted m → sorted (mdelete m key).
Proof.
  induction m as [|[k y] m IH]; intros Hs; [done|]. cbn [mdelete]. apply sorted_cons in Hs as [Hlt Hs].
  case_bool_decide; [done|]. apply sorted_cons. split; [|by apply IH]. intros k' Hk'%mdelete_keys. by apply Hlt.
Qed.

(** The maps inside of a value are in order. *)
Fixpoint canonical (t : any) : Prop :=
  match t with
  | ASeq ts => (fix go ts := match ts with [] => True | t :: ts => canonical t ∧ go ts end) ts
  | AMap m => sorted m ∧ (fix go (m : mapping) := match m with [] => True | (_, t) :: m => canonical t ∧ go m end) m
  | _ => True
  end.

Lemma canonical_seq ts : canonical (ASeq ts) ↔ Forall canonical ts.
Proof.
  cbn. induction ts as [|t ts IH]; [done|]. rewrite Forall_cons, IH. done.
Qed.

Lemma canonical_map m : canonical (AMap m) ↔ sorted m ∧ Forall canonical m.*2.
Proof.
  cbn. apply and_iff_compat_l. induction m as [|[k t] m IH]; [done|]. cbn. rewrite Forall_cons, IH. done.
Qed.

(** ** Values whose objects are held once *)

Definition simple (a : any) : Prop := match a with ASeq _ | AMap _ => False | _ => True end.

(** The value stands for a tree, whose objects are at the locations of the list. *)
Inductive rep (h : store) : val → any → list nat → Prop :=
| rep_scalar a : simple a → rep h (Scalar a) a []
| rep_slice l n arr ts L :
    cells h !! l = Some (OArray arr) → (n ≤ length arr)%nat → reps h (take n arr) ts L →
    rep h (Slice l n) (ASeq ts) (l :: L)
| rep_mapref l es m L :
    cells h !! l = Some (OMap es) → sorted m → repm h es m L → rep h (MapRef l) (AMap m) (l :: L)
with reps (h : store) : list val → list any → list nat → Prop :=
| reps_nil : reps h [] [] []
| reps_cons v vs t ts L L' : rep h v t L → reps h vs ts L' → reps h (v :: vs) (t :: ts) (L ++ L')
with repm (h : store) : list (string * val) → mapping → list nat → Prop :=
| repm_nil : repm h [] [] []
| repm_cons k v es t m L L' : rep h v t L → repm h es m L' → repm h ((k, v) :: es) ((k, t) :: m) (L ++ L').

Scheme rep_mut := Induction for rep Sort Prop
  with reps_mut := Induction for reps Sort Prop
  with repm_mut := Induction for repm Sort Prop.
Combined Scheme rep_reps_repm from rep_mut, reps_mut, repm_mut.

Definition same_on (L : list nat) (h h' : store) : Prop := ∀ l, l ∈ L → cells h' !! l = cells h !! l.

Lemma same_on_app L L' h h' : same_on (L ++ L') h h' ↔ same_on L h h' ∧ same_on L' h h'.
Proof. unfold same_on. set_solver. Qed.

Lemma rep_frame_all h h' :
  (∀ v t L, rep h v t L → same_on L h h' → rep h' v t L) ∧
  (∀ vs ts L, reps h vs ts L → same_on L h h' → reps h' vs ts L) ∧
  (∀ es m L, repm h es m L → same_on L h h' → repm h' es m L).
Proof.
  apply rep_reps_repm.
  - intros. by constructor.
  - intros l n arr ts L Hl Hn _ IH Hs. econstructor; [rewrite Hs; [done|left]|done|]. apply IH. intros l' Hl'. apply Hs. by right.
  - intros l es m L Hl Hm _ IH Hs. econstructor; [rewrite Hs; [done|left]|done|]. apply IH. intros l' Hl'. apply Hs. by right.
  - intros _. constructor.
  - intros v vs t ts L L' _ IH _ IH' [H1 H2]%same_on_app. constructor; auto.
  - intros _. constructor.
  - intros k v es t m L L' _ IH _ IH' [H1 H2]%same_on_app. constructor; auto.
Qed.

Definition rep_frame h h' := proj1 (rep_frame_all h h').
Definition reps_frame h h' := proj1 (proj2 (rep_frame_all h h')).
Definition repm_frame h h' := proj2 (proj2 (rep_frame_all h h')).

(** The tree is read with a round for every object. *)
Lemma rep_denote_all h :
  (∀ v t L, rep h v t L → ∀ fuel, (length L < fuel)%nat → denote fuel h v = Ret t) ∧
  (∀ vs ts L, reps h vs ts L → ∀ fuel, (length L < fuel)%nat →
     (fix go (vs : list val) : outcome (list any) :=
        match vs with
        | [] => Ret []
        | v :: vs => t ← denote fuel h v; ts ← go vs; Ret (t :: ts)
        end) vs = Ret ts) ∧
  (∀ es m L, repm h es m L → ∀ fuel, (length L < fuel)%nat →
     (fix go (m : list (string * val)) : outcome mapping :=
        match m with
        | [] => Ret []
        | (k, v) :: m => t ← denote fuel h v; ts ← go m; Ret ((k, t) :: ts)
        end) es = Ret m).
Proof.
  apply rep_reps_repm.
  - intros a _ [|fuel] Hf; [lia|done].
  - intros l n arr ts L Hl Hn _ IH [|fuel] Hf; [lia|]. cbn in Hf. cbn [denote]. unfold items_of, get_array. rewrite Hl, IH by lia. done.
  - intros l es m L Hl Hm _ IH [|fuel] Hf; [lia|]. cbn in Hf. cbn [denote]. unfold get_map. rewrite Hl, IH by lia. done.
  - done.
  - intros v vs t ts L L' _ IH _ IH' fuel Hf. rewrite length_app in Hf. rewrite IH by lia. run. rewrite IH' by lia. done.
  - done.
  - intros k v es t m L L' _ IH _ IH' fuel Hf. rewrite length_app in Hf. rewrite IH by lia. run. rewrite IH' by lia. done.
Qed.

(** All objects are below [fresh]. *)
Definition bounded (h : store) : Prop := ∀ l, is_Some (cells h !! l) → (l < fresh h)%nat.

Lemma rep_bounded_all h (Hb : bounded h) :
  (∀ v t L, rep h v t L → ∀ l, l ∈ L → (l < fresh h)%nat) ∧
  (∀ vs ts L, reps h vs ts L → ∀ l, l ∈ L → (l < fresh h)%nat) ∧
  (∀ es m L, repm h es m L → ∀ l, l ∈ L → (l < fresh h)%nat).
Proof.
  assert (∀ l o L, cells h !! l = Some o → (∀ l', l' ∈ L → (l' < fresh h)%nat) → ∀ l', l' ∈ l :: L → (l' < fresh h)%nat) as Hc.
  { intros l o L Hl HL l' [->|Hl']%elem_of_cons; [|auto]. apply Hb. by eexists. }
  apply rep_reps_repm; try (by intros; eapply Hc); try (by intros ? ?%not_elem_of_nil).
  - by intros a _ l ?%not_elem_of_nil.
  - intros v vs t ts L L' _ IH _ IH' l [|]%elem_of_app; auto.
  - intros k v es t m L L' _ IH _ IH' l [|]%elem_of_app; auto.
Qed.

Lemma read_rep h v t L : bounded h → rep h v t L → NoDup L → read v h = Ret (Ok (t, h)).
Proof.
  intros Hb Hr Hnd. unfold read. assert (length L ≤ fresh h)%nat as Hl.
  { apply above_length; [done|]. by eapply (proj1 (rep_bounded_all h Hb)). }
  rewrite (proj1 (rep_denote_all h) v t L Hr) by lia. done.
Qed.

(** ** Focus on an item *)

Lemma same_on_refl L h : same_on L h h.
Proof. by intros l. Qed.

(** The item at an index, which can be exchanged. *)
Lemma reps_focus h vs ts L i :
  reps h vs ts L → (i < length vs)%nat →
  ∃ Li L1 L2, L = L1 ++ Li ++ L2 ∧ rep h (nth i vs VNil) (nth i ts ANil) Li ∧
    ∀ h' v t Li', same_on (L1 ++ L2) h h' → rep h' v t Li' →
      reps h' (<[i := v]> vs) (<[i := t]> ts) (L1 ++ Li' ++ L2).
Proof.
  intros Hr. revert i. induction Hr as [|v0 vs t0 ts L0 L' Hv Hvs IH]; intros i Hi; cbn in Hi; [lia|].
  destruct i as [|i].
  - exists L0, [], L'. split_and!; [done|done|]. intros h' v t Li' Hs Hr'. cbn [app] in *. constructor; [done|by eapply reps_frame].
  - destruct (IH i) as (Li & L1 & L2 & -> & Hi' & Hback); [lia|].
    exists Li, (L0 ++ L1), L2. split_and!; [by rewrite <- app_assoc|done|].
    intros h' v t Li' Hs Hr'. rewrite <- app_assoc in Hs |- *. apply same_on_app in Hs as [Hs0 Hs].
    constructor; [by eapply rep_frame|by apply Hback].
Qed.

(** The value of a key, nil when there is none, which can be exchanged or deleted. *)
Lemma repm_focus h es m L key :
  repm h es m L → sorted m →
  ∃ Lk L1 L2, L = L1 ++ Lk ++ L2 ∧ rep h (vindex es key) (mindex m key) Lk ∧
    (∀ h' v t Lk', same_on (L1 ++ L2) h h' → rep h' v t Lk' →
      repm h' (mset es key v) (mset m key t) (L1 ++ Lk' ++ L2)) ∧
    repm h (mdelete es key) (mdelete m key) (L1 ++ L2).
Proof.
  intros Hr. induction Hr as [|k v0 es t0 m L0 L' Hv Hes IH]; intros Hs.
  { exists [], [], []. split_and!; [done|by constructor| |constructor].
    intros h' v t Lk' _ Hr'. cbn. constructor; [done|constructor]. }
  apply sorted_cons in Hs as Hs'. destruct Hs' as [Hlt Hs'].
  cbn [mget mset mdelete]. unfold vindex, mindex. cbn [mget].
  case_bool_decide as Hk.
  - subst. exists L0, [], L'. split_and!; [done|done| |done].
    intros h' v t Lk' Hsame Hr'. cbn [app] in *. constructor; [done|by eapply repm_frame].
  - destruct (IH Hs') as (Lk & L1 & L2 & -> & Hk' & Hback & Hdel).
    destruct (string_ltb key k) eqn:E.
    + assert (mget m key = None) as Hm by by eapply mget_before.
      unfold vindex, mindex in Hk'. rewrite Hm in Hk' |- *. assert (Lk = []) as -> by by inversion Hk'.
      exists [], [], (L0 ++ L1 ++ [] ++ L2). split_and!; [done|exact Hk'| |].
      * intros h' v t Lk' Hsame Hr'. cbn [app] in *. constructor; [done|].
        apply same_on_app in Hsame as [Hs0 Hs1]. constructor; [by eapply rep_frame|by eapply repm_frame].
      * cbn. constructor; [done|]. by cbn in Hdel.
    + exists Lk, (L0 ++ L1), L2. split_and!; [by rewrite <- app_assoc|done| |].
      * intros h' v t Lk' Hsame Hr'. rewrite <- app_assoc in Hsame |- *. apply same_on_app in Hsame as [Hs0 Hsame].
        constructor; [by eapply rep_frame|by apply Hback].
      * rewrite <- app_assoc. by constructor.
Qed.

(** ** Changes of the objects of a value *)

(** From [h] to [h'], a value that had the objects [L] has the objects [L']; no others
    are changed, and objects that come in are new. *)
Record change (h h' : store) (L L' : list nat) : Prop := {
  change_fresh : (fresh h ≤ fresh h')%nat;
  change_bounded : bounded h';
  change_others : ∀ l, (l < fresh h)%nat → l ∉ L → cells h' !! l = cells h !! l;
  change_nodup : NoDup L';
  change_new : ∀ l, l ∈ L' → (l ∈ L ∨ (fresh h ≤ l)%nat) ∧ (l < fresh h')%nat;
}.

Lemma change_refl h L : bounded h → NoDup L → (∀ l, l ∈ L → (l < fresh h)%nat) → change h h L L.
Proof. intros Hb Hnd Hl. split; [lia|done|done|done|]. intros l Hl'. split; [by left|auto]. Qed.

Lemma change_trans h h1 h2 L L1 L2 : change h h1 L L1 → change h1 h2 L1 L2 → change h h2 L L2.
Proof.
  intros [Hf Hb Ho Hn Hw] [Hf' Hb' Ho' Hn' Hw']. split; [lia|done| |done|].
  - intros l Hl Hni. rewrite Ho'; [by apply Ho|lia|]. intros [[|] _]%Hw; [done|lia].
  - intros l Hl. destruct (Hw' l Hl) as [[Hl1|Hl1] Hlt]; [|split; [right; lia|done]].
    destruct (Hw l Hl1) as [[|] _]; (split; [|done]); [by left|by right].
Qed.

Lemma change_same h h' L L' K :
  change h h' L L' → (∀ l, l ∈ K → (l < fresh h)%nat ∧ l ∉ L) → same_on K h h'.
Proof. intros Hc HK l Hl. destruct (HK l Hl). by apply Hc. Qed.

(** The objects of one part are exchanged. *)
Lemma change_part h h' L1 L2 L L' :
  change h h' L L' → NoDup (L1 ++ L ++ L2) → (∀ l, l ∈ L1 ++ L ++ L2 → (l < fresh h)%nat) →
  change h h' (L1 ++ L ++ L2) (L1 ++ L' ++ L2) ∧ same_on (L1 ++ L2) h h'.
Proof.
  intros Hc Hnd Hlt. destruct Hc as [Hf Hb Ho Hn Hw].
  assert (∀ l, l ∈ L1 ++ L2 → l ∉ L) as Hni.
  { intros l Hl HL. rewrite (Permutation_app_swap_app L1 L L2) in Hnd. apply NoDup_app in Hnd as (_ & Hd & _). by apply (Hd l). }
  assert (∀ l, l ∈ L1 ++ L2 → (l < fresh h)%nat) as Hlt' by (intros l Hl; apply Hlt; set_solver).
  split; [split|]; try done.
  - intros l Hl Hnl. apply Ho; [done|set_solver].
  - rewrite (Permutation_app_swap_app L1 L' L2). rewrite (Permutation_app_swap_app L1 L L2) in Hnd.
    apply NoDup_app in Hnd as (_ & _ & Hnd). apply NoDup_app. split_and!; [done| |done].
    intros l Hl Hl12. destruct (Hw l Hl) as [[HL|HL] _]; [by apply (Hni l)|]. specialize (Hlt' l Hl12). lia.
  - intros l Hl. destruct (decide (l ∈ L1 ++ L2)) as [H12|H12].
    + split; [left; set_solver|]. specialize (Hlt' l H12). lia.
    + assert (l ∈ L') as HL' by set_solver. destruct (Hw l HL') as [[|] ?]; (split; [|done]); [left; set_solver|by right].
  - intros l Hl. apply Ho; auto.
Qed.

Lemma change_alloc h h1 L L' o :
  change h h1 L L' →
  change h (mkStore (<[fresh h1 := o]> (cells h1)) (S (fresh h1))) L (fresh h1 :: L').
Proof.
  intros [Hf Hb Ho Hn Hw]. split; cbn; [lia| | | |].
  - intros l [o' Hl]. cbn in *. destruct (decide (l = fresh h1)) as [->|Hne]; [lia|].
    rewrite lookup_insert_ne in Hl by done. enough (l < fresh h1)%nat by lia. apply Hb. by eexists.
  - intros l Hl Hni. rewrite lookup_insert_ne by lia. by apply Ho.
  - constructor; [|done]. intros [_ Hlt]%Hw. lia.
  - intros l [->|Hl]%elem_of_cons; [lia|]. destruct (Hw l Hl). split; [done|lia].
Qed.

(** A held object is given another content. *)
Lemma change_put h h1 L L' l o :
  change h h1 L (l :: L') → change h (mkStore (<[l := o]> (cells h1)) (fresh h1)) L (l :: L').
Proof.
  intros [Hf Hb Ho Hn Hw]. destruct (Hw l) as [Hl Hlt]; [by left|]. split; cbn; [done| | |done|done].
  - intros l' [o' Hl']. cbn in *. destruct (decide (l' = l)) as [->|Hne]; [done|].
    rewrite lookup_insert_ne in Hl' by done. apply Hb. by eexists.
  - intros l' Hl' Hni. rewrite lookup_insert_ne; [by apply Ho|]. intros <-. destruct Hl as [|]; [done|lia].
Qed.

(** ** New trees *)

Lemma M_bind_ok {A B} (m : M A) (f : A → M B) h a h' : m h = Ret (Ok (a, h')) → (m ≫= f) h = f a h'.
Proof. intros E. unfold mbind, M_bind. by rewrite E. Qed.

Lemma change_nil h h1 h2 L1 L2 :
  change h h1 [] L1 → change h1 h2 [] L2 → change h h2 [] (L1 ++ L2) ∧ same_on L1 h1 h2.
Proof.
  intros [Hf Hb Ho Hn Hw] [Hf' Hb' Ho' Hn' Hw'].
  assert (∀ l, l ∈ L2 → (fresh h1 ≤ l)%nat) as Hl2 by (intros l Hl; destruct (Hw' l Hl) as [[?%not_elem_of_nil|] _]; done).
  split; [split|]; [lia|done| | | |].
  - intros l Hl _. rewrite Ho' by (lia || apply not_elem_of_nil). apply Ho; [done|apply not_elem_of_nil].
  - apply NoDup_app. split_and!; [done| |done]. intros l [_ Hlt]%Hw Hl%Hl2. lia.
  - intros l [Hl|Hl]%elem_of_app.
    + destruct (Hw l Hl) as [[?%not_elem_of_nil|] Hlt]; [done|]. split; [by right|lia].
    + split; [right; specialize (Hl2 l Hl); lia|by apply Hw'].
  - intros l Hl. apply Ho'; [by apply Hw|apply not_elem_of_nil].
Qed.

Lemma alloc_slice_rep h h1 vs ts L capacity :
  change h h1 [] L → reps h1 vs ts L →
  ∃ v h2 L', alloc_slice capacity vs h1 = Ret (Ok (v, h2)) ∧ change h h2 [] L' ∧ rep h2 v (ASeq ts) L'.
Proof.
  intros Hc Hr. eexists _, _, (fresh h1 :: L). split_and!; [done|by apply change_alloc|].
  eapply rep_slice; cbn; [apply lookup_insert_eq|rewrite length_app; lia|]. rewrite take_app_length.
  eapply reps_frame; [done|]. intros l Hl. cbn. rewrite lookup_insert_ne; [done|].
  destruct (change_new _ _ _ _ Hc l Hl). lia.
Qed.

Lemma alloc_map_rep h h1 es m L :
  change h h1 [] L → sorted m → repm h1 es m L →
  ∃ v h2 L', alloc_map es h1 = Ret (Ok (v, h2)) ∧ change h h2 [] L' ∧ rep h2 v (AMap m) L'.
Proof.
  intros Hc Hm Hr. eexists _, _, (fresh h1 :: L). split_and!; [done|by apply change_alloc|].
  eapply rep_mapref; cbn; [apply lookup_insert_eq|done|].
  eapply repm_frame; [done|]. intros l Hl. cbn. rewrite lookup_insert_ne; [done|].
  destruct (change_new _ _ _ _ Hc l Hl). lia.
Qed.

Lemma change_none h : bounded h → change h h [] [].
Proof. intros Hb. apply change_refl; [done|constructor|by intros ? ?%not_elem_of_nil]. Qed.

(** A tree is allocated as new objects. *)
Lemma alloc_tree_rep t : canonical t → ∀ h, bounded h →
  ∃ v h' L, alloc_tree t h = Ret (Ok (v, h')) ∧ change h h' [] L ∧ rep h' v t L.
Proof.
  induction t as [| | | | | |ts Hts|m Hm|] using any_ind'; intros Hcan h Hb;
    try (eexists _, h, []; split_and!; [done|by apply change_none|by constructor]); cbn [alloc_tree].
  - apply canonical_seq in Hcan. match goal with |- context [?go ts ≫= _] => assert (∀ h, bounded h → ∃ vs h' L,
      go ts h = Ret (Ok (vs, h')) ∧ change h h' [] L ∧ reps h' vs ts L) as Hgo end.
    { clear h Hb. induction Hts as [|t ts Ht Hts IH]; intros h Hb.
      { eexists _, h, []. split_and!; [done|by apply change_none|constructor]. }
      apply Forall_cons in Hcan as [Hct Hcs].
      destruct (Ht Hct h Hb) as (v & h1 & L1 & E1 & C1 & R1).
      destruct (IH Hcs h1 (change_bounded _ _ _ _ C1)) as (vs & h2 & L2 & E2 & C2 & R2).
      destruct (change_nil h h1 h2 L1 L2 C1 C2) as [C Hs].
      exists (v :: vs), h2, (L1 ++ L2). split_and!; [|done|constructor; [by eapply rep_frame|done]].
      cbn beta iota fix. by rewrite (M_bind_ok _ _ _ _ _ E1), (M_bind_ok _ _ _ _ _ E2). }
    destruct (Hgo h Hb) as (vs & h1 & L & E & C & R). rewrite (M_bind_ok _ _ _ _ _ E). by eapply alloc_slice_rep.
  - apply canonical_map in Hcan as [Hs Hcan]. match goal with |- context [?go m ≫= _] => assert (∀ h, bounded h → ∃ es h' L,
      go m h = Ret (Ok (es, h')) ∧ change h h' [] L ∧ repm h' es m L) as Hgo end.
    { clear h Hb Hs. induction Hm as [|[k t] m Ht Hm IH]; intros h Hb.
      { eexists _, h, []. split_and!; [done|by apply change_none|constructor]. }
      apply Forall_cons in Hcan as [Hct Hcs].
      destruct (Ht Hct h Hb) as (v & h1 & L1 & E1 & C1 & R1).
      destruct (IH Hcs h1 (change_bounded _ _ _ _ C1)) as (es & h2 & L2 & E2 & C2 & R2).
      destruct (change_nil h h1 h2 L1 L2 C1 C2) as [C Hs].
      exists ((k, v) :: es), h2, (L1 ++ L2). split_and!; [|done|constructor; [by eapply rep_frame|done]].
      cbn beta iota fix. by rewrite (M_bind_ok _ _ _ _ _ E1), (M_bind_ok _ _ _ _ _ E2). }
    destruct (Hgo h Hb) as (es & h1 & L & E & C & R). rewrite (M_bind_ok _ _ _ _ _ E). by eapply alloc_map_rep.
Qed.

Lemma clone_value_id t : cloneOverrideValue t = t.
Proof.
  induction t as [| | | | | |ts Hts|m Hm|] using any_ind'; try done; cbn; f_equal.
  - induction Hts as [|t ts Ht _ IH]; [done|]. rewrite fmap_cons. by f_equal.
  - induction Hm as [|[k t] m Ht _ IH]; [done|]. rewrite fmap_cons. cbn in *. rewrite Ht. by f_equal.
Qed.

Lemma rep_canonical_all h :
  (∀ v t L, rep h v t L → canonical t) ∧ (∀ vs ts L, reps h vs ts L → Forall canonical ts) ∧
  (∀ es m L, repm h es m L → Forall canonical m.*2).
Proof.
  apply rep_reps_repm; intros; try by constructor.
  - by destruct a.
  - by apply canonical_seq.
  - by apply canonical_map.
Qed.

Lemma clone_rep h v t L :
  bounded h → rep h v t L → NoDup L →
  ∃ v' h' L', clone v h = Ret (Ok (v', h')) ∧ change h h' [] L' ∧ rep h' v' t L'.
Proof.
  intros Hb Hr Hnd. unfold clone, mbind, M_bind. rewrite (read_rep h v t L Hb Hr Hnd), clone_value_id.
  apply alloc_tree_rep; [by eapply (proj1 (rep_canonical_all h))|done].
Qed.

(** ** Updaters *)

Section updaters.
(** Objects that are read and stay as they are in [h0]. *)
Context (F : list nat) (h0 : store).

Definition intact (h : store) : Prop := ∀ l, l ∈ F → (l < fresh h)%nat ∧ cells h !! l = cells h0 !! l.

Lemma intact_change h h' L L' : intact h → change h h' L L' → (∀ l, l ∈ L → l ∉ F) → intact h' ∧ (∀ l, l ∈ L' → l ∉ F).
Proof.
  intros Hi Hc HL. split.
  - intros l Hl. destruct (Hi l Hl) as [Hlt He]. pose proof (change_fresh _ _ _ _ Hc). split; [lia|].
    rewrite <- He. apply Hc; [done|]. intros Hin. by apply (HL l).
  - intros l Hl HF. destruct (change_new _ _ _ _ Hc l Hl) as [[|] _]; [by apply (HL l)|]. destruct (Hi l HF). lia.
Qed.

(** The outcome of code on a value with objects [L], when its tree should become that of
    [r]: it is changed to it, or the code fails. *)
Definition becomes (h : store) (L : list nat) (r : result any) (o : outcome (result (val * store))) : Prop :=
  match r with
  | Ok t => ∃ v h' L', o = Ret (Ok (v, h')) ∧ change h h' L L' ∧ rep h' v t L'
  | Err _ => ∃ e, o = Ret (Err e)
  end.

(** The code does to every value what the function does to its tree. *)
Definition implements (update : val → M val) (f : any → result any) : Prop :=
  ∀ h v t L, bounded h → intact h → NoDup L → (∀ l, l ∈ L → l ∉ F) → rep h v t L → becomes h L (f t) (update v h).

(** The same for code on an object that stays where it is. *)
Definition object_becomes (h : store) (v : val) (L : list nat) (r : result any) (o : outcome (result (unit * store))) : Prop :=
  match r with
  | Ok t => ∃ h' L', o = Ret (Ok (tt, h')) ∧ change h h' L L' ∧ rep h' v t L'
  | Err _ => ∃ e, o = Ret (Err e)
  end.

Definition update_key (update : val → M val) (l : nat) (key : string) : M unit :=
  m ← map_entries l; v ← update (vindex m key); modify_map l (λ m, mset m key v).

Definition update_index (update : val → M val) (l n i : nat) : M unit :=
  items ← slice_items l n; v ← update (nth i items VNil); modify_array l (<[i := v]>).

Definition tree_key (f : any → result any) (m : mapping) (key : string) : result any :=
  x ← f (mindex m key); Ok (AMap (mset m key x)).

Definition tree_index (f : any → result any) (ts : list any) (i : nat) : result any :=
  x ← f (nth i ts ANil); Ok (ASeq (<[i := x]> ts)).

Lemma update_key_rep update f h l m L key :
  implements update f → bounded h → intact h → NoDup L → (∀ l, l ∈ L → l ∉ F) → rep h (MapRef l) (AMap m) L →
  object_becomes h (MapRef l) L (tree_key f m key) (update_key update l key h).
Proof.
  intros Hu Hb Hi Hnd HF Hr. pose proof (proj1 (rep_bounded_all h Hb) _ _ _ Hr) as Hlt.
  inversion Hr as [| |l' es m' L' Hl Hs Hm]; subst.
  destruct (repm_focus h es m L' key Hm Hs) as (Lk & L1 & L2 & -> & Hk & Hback & _).
  apply NoDup_cons in Hnd as Hnd'. destruct Hnd' as [Hnl HndL].
  assert (NoDup Lk) as Hndk by (apply NoDup_app in HndL as (_ & _ & HndL); by apply NoDup_app in HndL as (? & _)).
  specialize (Hu h _ _ Lk Hb Hi Hndk ltac:(intros l' ?; apply HF; set_solver) Hk).
  unfold tree_key, update_key, mbind, M_bind, map_entries, get_map. rewrite Hl. cbn [result_bind].
  destruct (f (mindex m key)) as [t|e]; cbn in Hu |- *; [|destruct Hu as [e' ->]; by eexists].
  destruct Hu as (v & h1 & Lk' & -> & Hc & Hr1).
  destruct (change_part h h1 (l :: L1) L2 Lk Lk') as [Hc' Hsame]; [done|done|done|].
  assert (cells h1 !! l = Some (OMap es)) as Hl1 by (rewrite Hsame; [done|left]).
  eexists _, (l :: L1 ++ Lk' ++ L2). split_and!; [done|by apply change_put|].
  unfold get_map. rewrite Hl1. eapply rep_mapref; cbn; [apply lookup_insert_eq|by apply mset_sorted|].
  eapply (repm_frame h1); [eapply Hback; [|done]|].
  - intros l' Hl'. apply Hsame. by right.
  - intros l' Hl'. cbn. rewrite lookup_insert_ne; [done|]. intros <-.
    pose proof (change_nodup _ _ _ _ Hc') as Hnd'. by apply NoDup_cons in Hnd' as [? _].
Qed.

Lemma update_index_rep update f h l n ts L i :
  implements update f → bounded h → intact h → NoDup L → (∀ l, l ∈ L → l ∉ F) → rep h (Slice l n) (ASeq ts) L → (i < n)%nat →
  object_becomes h (Slice l n) L (tree_index f ts i) (update_index update l n i h).
Proof.
  intros Hu Hb Hi Hnd HF Hr Hin. pose proof (proj1 (rep_bounded_all h Hb) _ _ _ Hr) as Hlt.
  inversion Hr as [|l' n' arr ts' L' Hl Hn Hm|]; subst.
  destruct (reps_focus h (take n arr) ts L' i Hm) as (Lk & L1 & L2 & -> & Hk & Hback); [rewrite length_take; lia|].
  apply NoDup_cons in Hnd as Hnd'. destruct Hnd' as [Hnl HndL].
  assert (NoDup Lk) as Hndk by (apply NoDup_app in HndL as (_ & _ & HndL); by apply NoDup_app in HndL as (? & _)).
  specialize (Hu h _ _ Lk Hb Hi Hndk ltac:(intros l' ?; apply HF; set_solver) Hk).
  unfold tree_index, update_index, mbind, M_bind, slice_items, items_of, get_array. rewrite Hl. cbn [result_bind].
  destruct (f (nth i ts ANil)) as [t|e]; cbn in Hu |- *; [|destruct Hu as [e' ->]; by eexists].
  destruct Hu as (v & h1 & Lk' & -> & Hc & Hr1).
  destruct (change_part h h1 (l :: L1) L2 Lk Lk') as [Hc' Hsame]; [done|done|done|].
  assert (cells h1 !! l = Some (OArray arr)) as Hl1 by (rewrite Hsame; [done|left]).
  eexists _, (l :: L1 ++ Lk' ++ L2). split_and!; [done|by apply change_put|].
  unfold get_array. rewrite Hl1. eapply rep_slice; cbn; [apply lookup_insert_eq|by rewrite length_insert|].
  rewrite take_insert_lt by done. eapply (reps_frame h1); [eapply Hback; [|done]|].
  - intros l' Hl'. apply Hsame. by right.
  - intros l' Hl'. cbn. rewrite lookup_insert_ne; [done|]. intros <-.
    pose proof (change_nodup _ _ _ _ Hc') as Hnd'. by apply NoDup_cons in Hnd' as [? _].
Qed.
End updaters.
