(* ===== verification/ExprRefine.v ===== *)
(** * What the statements of an override do to a proxy

    The statements write to shared objects in place, in the order in which the runtime
    ranges over maps, into arrays whose capacity the runtime chooses.  Here their effect
    is described on trees, without any of this: [tree_update] and [tree_delete].  A proxy
    whose objects are held once is changed by assignments of literals and by deletions
    as the trees say ([override_statements_refine]). *)

From Stdlib Require Import Ascii Sorting.Sorted.
From Corelib Require Import Floats.SpecFloat.
From S2P Require Import Prelude Wire GoStrings GoFloat ExprValue ExprParse ExprStore ExprEval.
From S2P Require Import ExprParseSpec ExprStoreSpec ExprEvalSpec ExprRep.

(** ** Statements on trees *)

(** An index from the start or from the end. *)
Definition position (i : Z) (n : nat) : Z := if i <? 0 then i + Z.of_nat n else i.

(** The array with the index, filled up with nil. *)
Definition filled (ts : list any) (index : Z) : list any :=
  ts ++ replicate (Z.to_nat (index + 1) - length ts) ANil.

(** What an update by [f] at a path makes of a tree: fields and items that are missing
    are made, anything but a mapping or an array on the way is left as it is. *)
Fixpoint tree_update (path : overridePath) (f : any → result any) (t : any) {struct path} : result any :=
  match path with
  | [] => f t
  | PathField key :: path =>
    match t with
    | ANil => tree_key (tree_update path f) [] key
    | AMap m => tree_key (tree_update path f) m key
    | _ => Ok t
    end
  | PathIndex i :: path =>
    let at_ ts :=
      let index := position i (length ts) in
      if index <? 0 then Err (ErrMsg ("array index " +:+ FormatInt i +:+ " is out of range"))
      else tree_index (tree_update path f) (filled ts index) (Z.to_nat index) in
    match t with
    | ANil => at_ []
    | ASeq ts => at_ ts
    | _ => Ok t
    end
  | PathWildcard :: path =>
    match t with
    | ASeq ts => ts' ← mapM (tree_update path f) ts; Ok (ASeq ts')
    | AMap m => m' ← mapM (λ e, x ← tree_update path f e.2; Ok (e.1, x)) m; Ok (AMap m')
    | _ => Ok t
    end
  end.

(** What is left of a tree when paths are deleted. *)
Fixpoint tree_delete (t : any) (paths : list overridePath) {struct t} : any :=
  match t with
  | AMap m =>
    AMap ((fix go (m : mapping) : mapping :=
      match m with
      | [] => []
      | (k, x) :: m =>
        match field_tails k paths with
        | None => go m
        | Some [] => (k, x) :: go m
        | Some tails => (k, tree_delete x tails) :: go m
        end
      end) m)
  | ASeq ts =>
    let n := length ts in
    ASeq ((fix go (i : nat) (ts : list any) : list any :=
      match ts with
      | [] => []
      | x :: ts =>
        if index_removed n i paths then go (S i) ts
        else (match index_tails n i paths with [] => x | tails => tree_delete x tails end) :: go (S i) ts
      end) O ts)
  | _ => t
  end.

(** ** Arrays that grow *)

Section refine.
Context {rt : GoRuntime} {rts : GoRuntimeSpec rt}.

Lemma reps_app h vs ts L vs' ts' L' : reps h vs ts L → reps h vs' ts' L' → reps h (vs ++ vs') (ts ++ ts') (L ++ L').
Proof. intros Hr Hr'. induction Hr; [done|]. cbn. rewrite <- app_assoc. by constructor. Qed.

Lemma reps_one h v t L : rep h v t L → reps h [v] [t] L.
Proof. intros Hr. rewrite <- (app_nil_r L). constructor; [done|constructor]. Qed.

Lemma reps_length h vs ts L : reps h vs ts L → length vs = length ts.
Proof. induction 1; cbn; congruence. Qed.

Lemma change_sub h h' L l L' : change h h' L (l :: L') → change h h' L L'.
Proof.
  intros [Hf Hb Ho Hn Hw]. apply NoDup_cons in Hn as [_ Hn]. split; try done. intros l' Hl'. apply Hw. by right.
Qed.

Lemma change_weaken h h' K L L' : change h h' K L' → (∀ l, l ∈ K → l ∈ L) → change h h' L L'.
Proof.
  intros [Hf Hb Ho Hn Hw] HK. split; try done.
  - intros l Hl Hni. apply Ho; [done|auto].
  - intros l Hl. destruct (Hw l Hl) as [[|] ?]; (split; [|done]); [left; auto|by right].
Qed.

Lemma change_start h v t L : bounded h → NoDup L → rep h v t L → change h h L L.
Proof. intros Hb Hn Hr. apply change_refl; [done|done|]. by eapply (proj1 (rep_bounded_all h Hb)). Qed.

(** One more item, in the array or in a new one. *)
Lemma extend_one h l n ts L :
  Z.of_nat (S n) ≤ maxIndex → bounded h → NoDup L → rep h (Slice l n) (ASeq ts) L →
  ∃ l' h' L', (∀ todo, extend (S todo) l n h = extend todo l' (S n) h') ∧
    change h h' L L' ∧ rep h' (Slice l' (S n)) (ASeq (ts ++ [ANil])) L'.
Proof.
  intros Hsmall Hb Hnd Hr. pose proof (change_start h _ _ L Hb Hnd Hr) as Hc.
  inversion Hr as [|l0 n0 arr ts0 L0 Hl Hn Hm|]; subst. pose proof (rep_bounded_all h Hb) as (_ & Hlt & _). specialize (Hlt _ _ _ Hm).
  apply NoDup_cons in Hnd as [Hni _].
  assert (∀ h', same_on L0 h h' → reps h' (take n arr ++ [VNil]) (ts ++ [ANil]) L0) as Hone.
  { intros h' Hs. rewrite <- (app_nil_r L0). apply reps_app; [by eapply reps_frame|]. apply reps_one. by constructor. }
  cbn [extend]. unfold get_array. rewrite Hl. destruct (Nat.ltb_spec n (length arr)) as [Hlen|Hlen].
  - eexists l, _, (l :: L0). split_and!; [done|by apply change_put|].
    eapply rep_slice; cbn; [apply lookup_insert_eq|rewrite length_insert; lia|].
    replace (take (S n) (<[n:=VNil]> arr)) with (take n arr ++ [VNil]).
    + apply Hone. intros l' Hl'. cbn. rewrite lookup_insert_ne; [done|]. by intros <-.
    + rewrite insert_take_drop by done. rewrite take_app_ge by (rewrite length_take; lia).
      rewrite length_take, Nat.min_l by lia. by replace (S n - n)%nat with 1%nat by lia.
  - assert (n = length arr) as -> by lia. rewrite (proj2 (Z.ltb_ge _ _)) by (apply small_growth; lia). pose proof (growslice_enough (length arr) (S (length arr))) as Hg.
    eexists (fresh h), _, (fresh h :: L0). split_and!; [done|apply change_alloc; by eapply change_sub|].
    eapply rep_slice; cbn [cells]; [apply lookup_insert_eq|rewrite length_app, length_take, length_replicate; lia|].
    replace (take (S (length arr)) _) with (take (length arr) arr ++ [VNil]).
    + apply Hone. intros l' Hl'. cbn. rewrite lookup_insert_ne; [done|]. specialize (Hlt l' Hl'). lia.
    + rewrite take_app_ge by (rewrite length_take; lia). rewrite length_take, Nat.min_id. f_equal.
      replace (S (length arr) - length arr)%nat with 1%nat by lia. destruct (growslice _ _ - length arr)%nat eqn:E; [lia|done].
Qed.

Lemma extend_rep todo h l n ts L :
  todo = 0%nat ∨ Z.of_nat (n + todo) ≤ maxIndex → bounded h → NoDup L → rep h (Slice l n) (ASeq ts) L →
  ∃ l' h' L', extend todo l n h = Ret (Ok ((l', (n + todo)%nat), h')) ∧
    change h h' L L' ∧ rep h' (Slice l' (n + todo)) (ASeq (ts ++ replicate todo ANil)) L'.
Proof.
  revert h l n ts L. induction todo as [|todo IH]; intros h l n ts L Hsmall Hb Hnd Hr.
  - exists l, h, L. rewrite Nat.add_0_r, app_nil_r. split_and!; [done|by eapply change_start|done].
  - destruct Hsmall as [|Hsmall]; [done|].
    destruct (extend_one h l n ts L ltac:(lia) Hb Hnd Hr) as (l1 & h1 & L1 & E1 & C1 & R1).
    destruct (IH h1 l1 (S n) (ts ++ [ANil]) L1) as (l2 & h2 & L2 & E2 & C2 & R2); [right; lia|apply C1|apply C1|done|].
    exists l2, h2, L2. rewrite E1, E2, <- Nat.add_succ_comm. split_and!; [done|by eapply change_trans|].
    by rewrite <- app_assoc in R2.
Qed.

(** ** Updates *)

Section update.
Context (F : list nat) (h0 : store).
#[local] Abbreviation intact := (intact F h0).
#[local] Abbreviation implements := (implements F h0).

(** Two results that are the same, or both errors. *)
Definition agree {A} (r r' : result A) : Prop :=
  match r, r' with
  | Ok a, Ok a' => a = a'
  | Err _, Err _ => True
  | _, _ => False
  end.

Lemma agree_refl {A} (r : result A) : agree r r.
Proof. by destruct r. Qed.

Lemma object_becomes_agree h v L r r' o : agree r r' → object_becomes h v L r' o → object_becomes h v L r o.
Proof. by destruct r, r'; intros Ha; cbn in Ha; subst. Qed.

Lemma nth_take_lt {A} (l : list A) n i d : (i < n)%nat → nth i (take n l) d = nth i l d.
Proof. intros Hi. rewrite !nth_lookup. by rewrite lookup_take_lt. Qed.

Lemma update_items_step update l n i todo h :
  (i < n)%nat →
  update_items update l (S todo) i h = (_ ← update_index update l n i; update_items update l todo (S i)) h.
Proof.
  intros Hi. cbn [update_items]. unfold update_index, mbind, M_bind, slice_items, items_of.
  rewrite !nth_take_lt by lia. by destruct (update _ _) as [[[v h']|e]| |].
Qed.

(** The items from [i] on are updated. *)
Lemma update_items_rep update f l n : implements update f → ∀ todo i h ts L,
  (i + todo = n)%nat → bounded h → intact h → NoDup L → (∀ l, l ∈ L → l ∉ F) → rep h (Slice l n) (ASeq ts) L →
  object_becomes h (Slice l n) L (ts' ← mapM f (drop i ts); Ok (ASeq (take i ts ++ ts'))) (update_items update l todo i h).
Proof.
  intros Hu. induction todo as [|todo IH]; intros i h ts L Hin Hb Hi Hnd HF Hr.
  all: assert (length ts = n) as Hlen by (inversion Hr as [|? ? arr ? ? ? ? Hm|]; subst; apply reps_length in Hm; rewrite length_take in Hm; lia).
  { rewrite drop_ge, take_ge by lia. cbn. rewrite app_nil_r. exists h, L. split_and!; [done|by eapply change_start|done]. }
  rewrite (update_items_step update l n) by lia.
  pose proof (update_index_rep F h0 update f h l n ts L i Hu Hb Hi Hnd HF Hr ltac:(lia)) as Hs.
  destruct (lookup_lt_is_Some_2 ts i ltac:(lia)) as [x Hx]. rewrite (drop_S ts x i Hx). cbn [mapM].
  unfold tree_index in Hs. rewrite (nth_lookup_Some _ _ _ x Hx) in Hs.
  destruct (f x) as [y|e]; cbn in Hs |- *.
  2: { destruct Hs as [e' Hs]. exists e'. unfold mbind, M_bind. by rewrite Hs. }
  destruct Hs as (h1 & L1 & E1 & C1 & R1). rewrite (M_bind_ok _ _ _ _ _ E1).
  destruct (intact_change F h0 h h1 L L1 Hi C1 HF) as [Hi1 HF1].
  specialize (IH (S i) h1 _ L1 ltac:(lia) (change_bounded _ _ _ _ C1) Hi1 (change_nodup _ _ _ _ C1) HF1 R1).
  rewrite drop_insert_lt in IH by lia.
  replace (take (S i) (<[i:=y]> ts)) with (take i ts ++ [y]) in IH.
  2: { rewrite insert_take_drop by lia. rewrite take_app_ge by (rewrite length_take; lia).
       rewrite length_take, Nat.min_l by lia. by replace (S i - i)%nat with 1%nat by lia. }
  destruct (mapM f (drop (S i) ts)) as [ts2|e]; cbn in IH |- *; [|done].
  destruct IH as (h2 & L2 & -> & C2 & R2). exists h2, L2. split_and!; [done|by eapply change_trans|by rewrite <- app_assoc in R2].
Qed.

(** The entries of some keys are updated. *)
Definition tree_entries (f : any → result any) (keys : list string) (m : mapping) : result mapping :=
  mapM (λ e, x ← (if bool_decide (e.1 ∈ keys) then f e.2 else Ok e.2); Ok (e.1, x)) m.

Lemma tree_entries_ext f keys keys' m :
  (∀ k, k ∈ m.*1 → k ∈ keys ↔ k ∈ keys') → tree_entries f keys m = tree_entries f keys' m.
Proof.
  induction m as [|[k x] m IH]; intros Hk; [done|]. unfold tree_entries in *. cbn [mapM fst snd].
  rewrite (bool_decide_ext (k ∈ keys) (k ∈ keys')) by (apply Hk; left).
  destruct (if bool_decide (k ∈ keys') then _ else _); [|done]. cbn. rewrite IH; [done|]. intros k' Hk'. apply Hk. by right.
Qed.

Lemma tree_entries_step f key keys m :
  sorted m → key ∈ m.*1 → key ∉ keys →
  agree (tree_entries f (key :: keys) m) (x ← f (mindex m key); tree_entries f keys (mset m key x)).
Proof.
  induction m as [|[k x] m IH]; intros Hs Hin Hni; [by apply not_elem_of_nil in Hin|].
  apply sorted_cons in Hs as [Hlt Hs]. unfold mindex. cbn [mget mset]. case_bool_decide as Hk.
  - subst k. cbn [default]. assert (tree_entries f (key :: keys) m = tree_entries f keys m) as Hm.
    { apply tree_entries_ext. intros k' Hk'. rewrite elem_of_cons. split; [|by right].
      intros [->|]; [|done]. destruct (key_lt_irrefl key). by apply Hlt. }
    unfold tree_entries in *. cbn [mapM fst snd]. rewrite bool_decide_true by left. unfold default, from_option, id.
    destruct (f x) as [y|e]; [|done]. cbn. rewrite bool_decide_false by done. cbn. rewrite Hm. apply agree_refl.
  - assert (key ∈ m.*1) as Hin' by (cbn in Hin; apply elem_of_cons in Hin as [|]; congruence).
    assert (string_ltb key k = false) as ->.
    { destruct (string_ltb key k) eqn:E; [|done]. destruct (key_lt_irrefl k). eapply string_ltb_trans; [by apply Hlt|done]. }
    specialize (IH Hs Hin' Hni). unfold mindex in IH. fold (mindex m key) in IH |- *.
    unfold tree_entries in *. cbn [mapM fst snd] in *.
    rewrite (bool_decide_ext (k ∈ key :: keys) (k ∈ keys)) by (rewrite elem_of_cons; naive_solver).
    destruct (f (mindex m key)) as [y|e]; cbn in IH |- *.
    + destruct (if bool_decide (k ∈ keys) then _ else _); [|done]. cbn.
      destruct (mapM _ m) as [m1|], (mapM _ (mset m key y)) as [m2|]; cbn in IH |- *; try done. congruence.
    + destruct (if bool_decide (k ∈ keys) then _ else _); [|done]. cbn. by destruct (mapM _ m) as [m1|].
Qed.

Lemma update_entries_step update l key keys h :
  update_entries update l (key :: keys) h = (_ ← update_key update l key; update_entries update l keys) h.
Proof.
  cbn [update_entries]. unfold update_key, mbind, M_bind, map_entries. by destruct (update _ _) as [[[v h']|e]| |].
Qed.

Lemma tree_entries_nil f m : tree_entries f [] m = Ok m.
Proof.
  unfold tree_entries. induction m as [|[k x] m IH]; [done|]. cbn [mapM fst snd]. rewrite bool_decide_false by apply not_elem_of_nil.
  cbn. by rewrite IH.
Qed.

Lemma mset_keys {A} (m : list (string * A)) key x k : k = key ∨ k ∈ m.*1 → k ∈ (mset m key x).*1.
Proof.
  induction m as [|[k' y] m IH]; cbn; [set_solver|]. case_bool_decide; [subst; cbn; set_solver|].
  destruct (string_ltb key k'); cbn; set_solver.
Qed.

Lemma update_entries_rep update f l : implements update f → ∀ keys h m L,
  NoDup keys → (∀ k, k ∈ keys → k ∈ m.*1) →
  bounded h → intact h → NoDup L → (∀ l, l ∈ L → l ∉ F) → rep h (MapRef l) (AMap m) L →
  object_becomes h (MapRef l) L (m' ← tree_entries f keys m; Ok (AMap m')) (update_entries update l keys h).
Proof.
  intros Hu. induction keys as [|key keys IH]; intros h m L Hk Hsub Hb Hi Hnd HF Hr.
  { rewrite tree_entries_nil. exists h, L. split_and!; [done|by eapply change_start|done]. }
  apply NoDup_cons in Hk as [Hni Hk]. assert (sorted m) as Hs by by inversion Hr.
  eapply (object_becomes_agree _ _ _ _ (x ← f (mindex m key); m' ← tree_entries f keys (mset m key x); Ok (AMap m'))).
  { pose proof (tree_entries_step f key keys m Hs ltac:(apply Hsub; left) Hni) as Ha.
    destruct (f (mindex m key)) as [x|e]; cbn in Ha |- *.
    - destruct (tree_entries f (key :: keys) m), (tree_entries f keys (mset m key x)); cbn in *; try done. by subst.
    - by destruct (tree_entries f (key :: keys) m). }
  rewrite update_entries_step. pose proof (update_key_rep F h0 update f h l m L key Hu Hb Hi Hnd HF Hr) as Hk1.
  unfold tree_key in Hk1. destruct (f (mindex m key)) as [x|e]; cbn in Hk1 |- *.
  2: { destruct Hk1 as [e' Hk1]. exists e'. unfold mbind, M_bind. by rewrite Hk1. }
  destruct Hk1 as (h1 & L1 & E1 & C1 & R1). rewrite (M_bind_ok _ _ _ _ _ E1).
  destruct (intact_change F h0 h h1 L L1 Hi C1 HF) as [Hi1 HF1].
  specialize (IH h1 _ L1 Hk ltac:(intros k Hk'; apply mset_keys; right; apply Hsub; by right) (change_bounded _ _ _ _ C1) Hi1
    (change_nodup _ _ _ _ C1) HF1 R1).
  destruct (tree_entries f keys (mset m key x)) as [m'|e]; cbn in IH |- *; [|done].
  destruct IH as (h2 & L2 & -> & C2 & R2). exists h2, L2. split_and!; [done|by eapply change_trans|done].
Qed.

Lemma tree_entries_all f keys m :
  (∀ k, k ∈ m.*1 → k ∈ keys) → tree_entries f keys m = mapM (λ e, x ← f e.2; Ok (e.1, x)) m.
Proof.
  induction m as [|[k x] m IH]; intros Hk; [done|]. unfold tree_entries in *. cbn [mapM fst snd].
  rewrite bool_decide_true by (apply Hk; left). destruct (f x); [|done]. cbn. rewrite IH; [done|].
  intros k' Hk'. apply Hk. by right.
Qed.

Lemma repm_keys h es m L : repm h es m L → es.*1 = m.*1.
Proof. induction 1; cbn; congruence. Qed.

Lemma sorted_nodup {A} (m : list (string * A)) : sorted m → NoDup m.*1.
Proof.
  induction m as [|[k x] m IH]; intros Hs; [constructor|]. apply sorted_cons in Hs as [Hlt Hs]. constructor; [|auto].
  intros Hin. destruct (key_lt_irrefl k). by apply Hlt.
Qed.

(** The keys in the order of the runtime. *)
Lemma range_keys es m h L :
  repm h es m L → sorted m → NoDup (map_range es).*1 ∧ ∀ k, k ∈ (map_range es).*1 ↔ k ∈ m.*1.
Proof.
  intros Hr Hs. rewrite <- (repm_keys h es m L Hr). pose proof (map_range_all es) as Hp.
  assert ((map_range es).*1 ≡ₚ es.*1) as Hk by by rewrite Hp. rewrite Hk.
  split; [rewrite (repm_keys h es m L Hr); by apply sorted_nodup|]. intros k. by rewrite Hk.
Qed.

Lemma becomes_object h v L r (m : M unit) :
  object_becomes h v L r (m h) → becomes h L r ((_ ← m; (mret v : M val)) h).
Proof.
  destruct r as [t|e]; cbn.
  - intros (h' & L' & E & C & R). rewrite (M_bind_ok _ _ _ _ _ E). by eexists _, _, _.
  - intros [e' E]. unfold mbind, M_bind. rewrite E. by eexists.
Qed.

Lemma becomes_same h v t L : bounded h → NoDup L → rep h v t L → becomes h L (Ok t) ((mret v : M val) h).
Proof. intros Hb Hn Hr. eexists v, h, L. split_and!; [done|by eapply change_start|done]. Qed.

Lemma becomes_after h h1 L L1 r o : change h h1 L L1 → becomes h1 L1 r o → becomes h L r o.
Proof.
  intros Hc. destruct r as [t|e]; [|done]. intros (v & h' & L' & -> & C & R). eexists _, _, _.
  split_and!; [done|by eapply change_trans|done].
Qed.

Lemma map_entries_at h l es : cells h !! l = Some (OMap es) → map_entries l h = Ret (Ok (es, h)).
Proof. intros Hl. unfold map_entries, get_map. by rewrite Hl. Qed.

Lemma update_wildcard update f h v t L :
  implements update f → bounded h → intact h → NoDup L → (∀ l, l ∈ L → l ∉ F) → rep h v t L →
  becomes h L
    (match t with
     | ASeq ts => ts' ← mapM f ts; Ok (ASeq ts')
     | AMap m => m' ← mapM (λ e, x ← f e.2; Ok (e.1, x)) m; Ok (AMap m')
     | _ => Ok t
     end)
    ((match v with
      | Slice l n => _ ← update_items update l n 0; mret v
      | MapRef l => m ← map_entries l; _ ← update_entries update l (map_range m).*1; mret v
      | _ => mret v
      end : M val) h).
Proof.
  intros Hu Hb Hi Hnd HF Hr. inversion Hr as [a Ha|l n arr ts L' Hl Hn Hm|l es m L' Hl Hs Hm]; subst.
  - destruct t; try done; by apply becomes_same.
  - apply becomes_object. pose proof (update_items_rep update f l n Hu n 0 h ts _ ltac:(lia) Hb Hi Hnd HF Hr) as Hit.
    by rewrite drop_0 in Hit.
  - rewrite (M_bind_ok _ _ _ _ _ (map_entries_at h l es Hl)). apply becomes_object.
    destruct (range_keys es m h L' Hm Hs) as [Hk1 Hk2].
    rewrite <- (tree_entries_all f (map_range es).*1) by (intros; by apply Hk2).
    apply (update_entries_rep update f l Hu); try done. intros k. by apply Hk2.
Qed.

(** At a field of a mapping, and at an index of an array. *)
Lemma update_field_rep update f h l m L key :
  implements update f → bounded h → intact h → NoDup L → (∀ l, l ∈ L → l ∉ F) → rep h (MapRef l) (AMap m) L →
  becomes h L (tree_key f m key)
    ((m ← map_entries l; v ← update (vindex m key); _ ← modify_map l (λ m, mset m key v); (mret (MapRef l) : M val)) h).
Proof.
  intros Hu Hb Hi Hnd HF Hr. pose proof (update_key_rep F h0 update f h l m L key Hu Hb Hi Hnd HF Hr) as Hk.
  apply (becomes_object _ (MapRef l)) in Hk. unfold update_key, mbind, M_bind, map_entries in *.
  by destruct (update _ _) as [[[v h']|e]| |].
Qed.

Lemma update_slot_rep update f h l n ts L i :
  implements update f → bounded h → intact h → NoDup L → (∀ l, l ∈ L → l ∉ F) → rep h (Slice l n) (ASeq ts) L →
  let index := position i n in i < maxIndex → 0 <= index →
  becomes h L (tree_index f (filled ts index) (Z.to_nat index))
    (('(l, n) ← extend (Z.to_nat (index + 1) - n) l n;
      items ← slice_items l n;
      v ← update (nth (Z.to_nat index) items VNil);
      _ ← modify_array l (<[Z.to_nat index := v]>);
      (mret (Slice l n) : M val)) h).
Proof.
  intros Hu Hb Hi Hnd HF Hr index Hsmall Hindex.
  assert (length ts = n) as Hlen by (inversion Hr as [|? ? arr ? ? ? ? Hm|]; subst; apply reps_length in Hm; rewrite length_take in Hm; lia).
  destruct (extend_rep (Z.to_nat (index + 1) - n) h l n ts L) as (l1 & h1 & L1 & E1 & C1 & R1); [|done..|].
  { unfold index, position in *. destruct (Z.ltb_spec i 0); lia. }
  rewrite (M_bind_ok _ _ _ _ _ E1). eapply becomes_after; [exact C1|].
  destruct (intact_change F h0 h h1 L L1 Hi C1 HF) as [Hi1 HF1]. unfold filled. rewrite Hlen.
  pose proof (update_index_rep F h0 update f h1 l1 _ _ L1 (Z.to_nat index) Hu (change_bounded _ _ _ _ C1) Hi1
    (change_nodup _ _ _ _ C1) HF1 R1 ltac:(lia)) as Hs.
  apply (becomes_object _ (Slice l1 (n + (Z.to_nat (index + 1) - n)))) in Hs. unfold update_index, mbind, M_bind, slice_items in *.
  by destruct (update _ _) as [[[v h']|e]| |].
Qed.

Lemma intact_none h h' L : intact h → change h h' [] L → intact h' ∧ (∀ l, l ∈ L → l ∉ F).
Proof. intros Hi Hc. apply (intact_change F h0 h h' [] L Hi Hc). by intros l ?%not_elem_of_nil. Qed.

(** The code of updates at paths does what [tree_update] does to trees. *)
Lemma update_path_rep path updater f :
  small_path path → implements updater f → implements (λ v, updateOverridePath v path updater) (tree_update path f).
Proof.
  intros Hsmall Hu. induction path as [|[key|i|] path IH]; [done|..];
    apply andb_prop_elim in Hsmall as [Hseg Hsmall]; specialize (IH Hsmall); intros h v t L Hb Hi Hnd HF Hr;
    cbn [updateOverridePath tree_update]; [..|by apply update_wildcard].
  - inversion Hr as [a Ha|l n arr ts L' Hl Hn Hm|l es m L' Hl Hs Hm]; subst.
    + destruct t; try done; try by apply becomes_same.
      destruct (alloc_map_rep h h [] [] []) as (v & h1 & L1 & E1 & C1 & R1); [by apply change_none|constructor|constructor|].
      rewrite (M_bind_ok _ _ _ _ _ E1). eapply becomes_after; [exact C1|]. inversion R1; subst; [done|].
      destruct (intact_none h h1 _ Hi C1) as [Hi1 HF1].
      apply (update_field_rep (λ v, updateOverridePath v path updater)); try done; apply C1.
    + by apply becomes_same.
    + by apply (update_field_rep (λ v, updateOverridePath v path updater)).
  - apply Is_true_true, Z.ltb_lt in Hseg. inversion Hr as [a Ha|l n arr ts L' Hl Hn Hm|l es m L' Hl Hs Hm]; subst.
    + destruct t; try done; try by apply becomes_same.
      destruct (alloc_slice_rep h h [] [] [] 0) as (v & h1 & L1 & E1 & C1 & R1); [by apply change_none|constructor|].
      rewrite (M_bind_ok _ _ _ _ _ E1). inversion E1; subst v h1. cbn [length].
      change (if i <? 0 then i + Z.of_nat 0 else i) with (position i 0).
      destruct (Z.ltb_spec (position i 0) 0); [by eexists|].
      eapply becomes_after; [exact C1|]. destruct (intact_none h _ _ Hi C1) as [Hi1 HF1].
      apply (update_slot_rep (λ v, updateOverridePath v path updater)); try done; apply C1.
    + assert (length ts = n) as Hlen by (apply reps_length in Hm; rewrite length_take in Hm; lia).
      rewrite Hlen. unfold mbind at 1, M_bind at 1. cbn [mret M_ret].
      change (if i <? 0 then i + Z.of_nat n else i) with (position i n).
      destruct (Z.ltb_spec (position i n) 0); [by eexists|].
      by apply (update_slot_rep (λ v, updateOverridePath v path updater)).
    + by apply becomes_same.
Qed.

(** ** Deletions *)

(** What the paths leave of the entry of a key. *)
Definition delete_entry (del : any → list overridePath → any) (paths : list overridePath) (k : string) (x : any) : option any :=
  match field_tails k paths with
  | None => None
  | Some [] => Some x
  | Some tails => Some (del x tails)
  end.

Definition delete_keys del paths (keys : list string) (m : mapping) : mapping :=
  omap (λ e, if bool_decide (e.1 ∈ keys) then pair e.1 <$> delete_entry del paths e.1 e.2 else Some e) m.

(** The mapping after one key. *)
Definition delete_key del paths (m : mapping) (key : string) : mapping :=
  match delete_entry del paths key (mindex m key) with
  | None => mdelete m key
  | Some x => mset m key x
  end.

Lemma delete_keys_ext del paths keys keys' m :
  (∀ k, k ∈ m.*1 → k ∈ keys ↔ k ∈ keys') → delete_keys del paths keys m = delete_keys del paths keys' m.
Proof.
  unfold delete_keys. induction m as [|[k x] m IH]; intros Hk; [done|]. cbn [omap list_omap fst snd].
  rewrite (bool_decide_ext (k ∈ keys) (k ∈ keys')) by (apply Hk; left).
  assert (∀ k', k' ∈ m.*1 → k' ∈ keys ↔ k' ∈ keys') as Hk' by (intros k' ?; apply Hk; by right).
  by rewrite (IH Hk').
Qed.

Lemma delete_keys_step del paths key keys m :
  sorted m → key ∈ m.*1 → key ∉ keys →
  delete_keys del paths (key :: keys) m = delete_keys del paths keys (delete_key del paths m key).
Proof.
  induction m as [|[k x] m IH]; intros Hs Hin Hni; [by apply not_elem_of_nil in Hin|].
  apply sorted_cons in Hs as [Hlt Hs]. unfold delete_key, mindex in *. cbn [mget mset mdelete]. case_bool_decide as Hk.
  - subst k. assert (delete_keys del paths (key :: keys) m = delete_keys del paths keys m) as Hm.
    { apply delete_keys_ext. intros k' Hk'. rewrite elem_of_cons. split; [|by right].
      intros [->|]; [|done]. destruct (key_lt_irrefl key). by apply Hlt. }
    unfold delete_keys in *. cbn [omap list_omap fst snd]. rewrite bool_decide_true by left. unfold default, from_option, id.
    destruct (delete_entry del paths key x) as [y|]; cbn [fmap option_fmap option_map]; [|by rewrite Hm].
    cbn [omap list_omap fst snd]. rewrite bool_decide_false by done. by rewrite Hm.
  - assert (key ∈ m.*1) as Hin' by (cbn in Hin; apply elem_of_cons in Hin as [|]; congruence).
    assert (string_ltb key k = false) as ->.
    { destruct (string_ltb key k) eqn:E; [|done]. destruct (key_lt_irrefl k). eapply string_ltb_trans; [by apply Hlt|done]. }
    specialize (IH Hs Hin' Hni). unfold delete_keys in *. cbn [omap list_omap fst snd].
    rewrite (bool_decide_ext (k ∈ key :: keys) (k ∈ keys)) by (rewrite elem_of_cons; naive_solver). rewrite IH.
    by destruct (delete_entry del paths key _).
Qed.

Lemma delete_keys_all del paths keys m :
  (∀ k, k ∈ m.*1 → k ∈ keys) → delete_keys del paths keys m = omap (λ e, pair e.1 <$> delete_entry del paths e.1 e.2) m.
Proof.
  unfold delete_keys. induction m as [|[k x] m IH]; intros Hk; [done|]. cbn [omap list_omap fst snd].
  rewrite bool_decide_true by (apply Hk; left). assert (∀ k', k' ∈ m.*1 → k' ∈ keys) as Hk' by (intros k' ?; apply Hk; by right).
  by rewrite (IH Hk').
Qed.

Lemma mdelete_rep h l m L key :
  bounded h → NoDup L → rep h (MapRef l) (AMap m) L →
  object_becomes h (MapRef l) L (Ok (AMap (mdelete m key))) (modify_map l (λ m, mdelete m key) h).
Proof.
  intros Hb Hnd Hr. pose proof (change_start h _ _ L Hb Hnd Hr) as Hc.
  inversion Hr as [| |l' es m' L' Hl Hs Hm]; subst.
  destruct (repm_focus h es m L' key Hm Hs) as (Lk & L1 & L2 & -> & _ & _ & Hdel).
  apply NoDup_cons in Hnd as [Hnl Hnd].
  eexists _, (l :: L1 ++ L2). unfold modify_map, get_map. rewrite Hl. split_and!; [done| |].
  - apply change_put. destruct Hc as [Hf Hb' Ho Hn Hw]. split; [done|done|done| |intros l' Hl'; apply Hw; set_solver].
    constructor; [set_solver|]. apply NoDup_app in Hnd as (H1 & H2 & H3). apply NoDup_app in H3 as (H4 & H5 & H6).
    apply NoDup_app. split_and!; [done|set_solver|done].
  - eapply rep_mapref; cbn; [apply lookup_insert_eq|by apply mdelete_sorted|].
    eapply (repm_frame h); [done|]. intros l' Hl'. cbn. rewrite lookup_insert_ne; [done|]. intros <-. set_solver.
Qed.

Section delete.
Context (delete_in : val → list overridePath → M val) (del : any → list overridePath → any) (paths : list overridePath).
Context (Hdel : ∀ tails, tails ≠ [] → shorter tails paths → implements (λ v, delete_in v tails) (λ t, Ok (del t tails))).

Lemma mset_same {A} (m : list (string * A)) key x : sorted m → mget m key = Some x → mset m key x = m.
Proof.
  induction m as [|[k y] m IH]; cbn; [done|]. intros [Hlt Hs]%sorted_cons. case_bool_decide as Hk; [congruence|].
  intros Hg. destruct (string_ltb key k) eqn:E; [|by rewrite IH]. apply mget_in in Hg.
  destruct (key_lt_irrefl key). eapply string_ltb_trans; [exact E|by apply Hlt].
Qed.

Lemma mget_some {A} (m : list (string * A)) key : key ∈ m.*1 → ∃ x, mget m key = Some x.
Proof.
  induction m as [|[k y] m IH]; cbn; [by intros ?%not_elem_of_nil|]. case_bool_decide; [by eexists|].
  intros [|]%elem_of_cons; [congruence|auto].
Qed.

Definition delete_in_key (l : nat) (key : string) : M unit :=
  m ← map_entries l;
  match field_tails key paths with
  | None => modify_map l (λ m, mdelete m key)
  | Some [] => mret tt
  | Some tails => updated ← delete_in (vindex m key) tails; modify_map l (λ m, mset m key updated)
  end.

Lemma delete_key_rep l h m L key :
  key ∈ m.*1 → bounded h → intact h → NoDup L → (∀ l, l ∈ L → l ∉ F) → rep h (MapRef l) (AMap m) L →
  object_becomes h (MapRef l) L (Ok (AMap (delete_key del paths m key))) (delete_in_key l key h).
Proof using Hdel rt rts.
  intros Hin Hb Hi Hnd HF Hr. assert (sorted m) as Hs by by inversion Hr. destruct (mget_some m key Hin) as [x Hx].
  unfold delete_key, delete_entry, delete_in_key. destruct (field_tails key paths) as [[|t tails]|] eqn:E.
  - exists h, L. unfold mindex. rewrite Hx. cbn. rewrite (mset_same m key x Hs Hx). split_and!; [done|by eapply change_start|done].
  - apply (update_key_rep F h0 (λ v, delete_in v (t :: tails)) _ h l m L key
      (Hdel (t :: tails) ltac:(done) (field_tails_shorter _ _ _ E)) Hb Hi Hnd HF Hr).
  - by apply (mdelete_rep h l m L key).
Qed.

Lemma mdelete_keys_others {A} (m : list (string * A)) key k : k ≠ key → k ∈ m.*1 → k ∈ (mdelete m key).*1.
Proof. intros Hne. induction m as [|[k' y] m IH]; cbn; [done|]. case_bool_decide; cbn; set_solver. Qed.

Lemma delete_key_others m key k : k ≠ key → k ∈ m.*1 → k ∈ (delete_key del paths m key).*1.
Proof.
  intros Hne Hk. unfold delete_key. destruct (delete_entry _ _ _ _); [apply mset_keys; by right|by apply mdelete_keys_others].
Qed.

Lemma delete_entries_rep l : ∀ keys h m L,
  NoDup keys → (∀ k, k ∈ keys → k ∈ m.*1) →
  bounded h → intact h → NoDup L → (∀ l, l ∈ L → l ∉ F) → rep h (MapRef l) (AMap m) L →
  object_becomes h (MapRef l) L (Ok (AMap (delete_keys del paths keys m))) (delete_entries delete_in l keys paths h).
Proof using Hdel rt rts.
  induction keys as [|key keys IH]; intros h m L Hk Hsub Hb Hi Hnd HF Hr.
  { replace (delete_keys del paths [] m) with m; [exists h, L; split_and!; [done|by eapply change_start|done]|].
    clear. unfold delete_keys. induction m as [|e m IH]; [done|]. cbn. rewrite bool_decide_false by apply not_elem_of_nil. by f_equal. }
  apply NoDup_cons in Hk as [Hni Hk]. assert (sorted m) as Hs by by inversion Hr.
  destruct (delete_key_rep l h m L key ltac:(apply Hsub; left) Hb Hi Hnd HF Hr) as (h1 & L1 & E1 & C1 & R1).
  rewrite (delete_keys_step del paths key keys m Hs ltac:(apply Hsub; left) Hni).
  destruct (intact_change F h0 h h1 L L1 Hi C1 HF) as [Hi1 HF1].
  assert (∀ k, k ∈ keys → k ∈ (delete_key del paths m key).*1) as Hsub1.
  { intros k Hk'. apply delete_key_others; [by intros ->|apply Hsub; by right]. }
  destruct (IH h1 _ L1 Hk Hsub1 (change_bounded _ _ _ _ C1) Hi1 (change_nodup _ _ _ _ C1) HF1 R1) as (h2 & L2 & E2 & C2 & R2).
  exists h2, L2. split_and!; [|by eapply change_trans|done]. rewrite <- E2, <- (M_bind_ok _ (λ _, _) _ _ _ E1).
  cbn [delete_entries]. unfold delete_in_key, mbind, M_bind, map_entries.
  destruct (field_tails key paths) as [[|t tails]|]; [done|by destruct (delete_in _ _ _) as [[[v h']|e]| |]|done].
Qed.

(** The items from index [i] on that the paths leave. *)
Fixpoint kept_items (n i : nat) (ts : list any) : list any :=
  match ts with
  | [] => []
  | x :: ts =>
    if index_removed n i paths then kept_items n (S i) ts
    else (match index_tails n i paths with [] => x | tails => del x tails end) :: kept_items n (S i) ts
  end.

Lemma change_append h h1 h2 L1 L2 L1' L2' :
  change h h1 L1 L1' → change h1 h2 L2 L2' → NoDup (L1 ++ L2) → (∀ l, l ∈ L1 ++ L2 → (l < fresh h)%nat) →
  change h h2 (L1 ++ L2) (L1' ++ L2') ∧ same_on L1' h1 h2.
Proof.
  intros C1 C2 Hnd Hlt. destruct (change_part h h1 [] L2 L1 L1' C1 Hnd Hlt) as [C1' _]. cbn [app] in C1'.
  destruct (change_part h1 h2 L1' [] L2 L2') as [C2' Hs]; rewrite ?app_nil_r in *; [done|apply (change_nodup _ _ _ _ C1')|intros l Hl; by apply (change_new _ _ _ _ C1')|].
  split; [by eapply change_trans|done].
Qed.

Lemma delete_items_rep l n arr : ∀ todo i h ts L,
  (i + todo = n)%nat → (n ≤ length arr)%nat → cells h !! l = Some (OArray arr) → (l < fresh h)%nat →
  bounded h → intact h → NoDup L → l ∉ L → (∀ l, l ∈ L → l ∉ F) → reps h (drop i (take n arr)) ts L →
  ∃ kept h' L', delete_items delete_in l n todo i paths h = Ret (Ok (kept, h')) ∧ change h h' L L' ∧
    reps h' kept (kept_items n i ts) L'.
Proof using Hdel rt rts.
  induction todo as [|todo IH]; intros i h ts L Hin Hn Hl Hlf Hb Hi Hnd Hni HF Hr.
  { rewrite drop_ge in Hr by (rewrite length_take; lia). inversion Hr; subst. eexists _, h, [].
    split_and!; [done|by apply change_none|constructor]. }
  pose proof (proj1 (proj2 (rep_bounded_all h Hb)) _ _ _ Hr) as Hlt.
  destruct (lookup_lt_is_Some_2 (take n arr) i) as [v Hv]; [rewrite length_take; lia|].
  rewrite (drop_S _ v i Hv) in Hr. inversion Hr as [|v0 vs t ts' Lv Ls Hvr Hvs]; subst.
  apply NoDup_app in Hnd as Hnd'. destruct Hnd' as (Hndv & Hdj & Hnds).
  cbn [delete_items kept_items]. unfold mbind at 1, M_bind at 1, slice_items, items_of, get_array. rewrite Hl.
  rewrite (nth_lookup_Some _ _ VNil v Hv). destruct (index_removed _ i paths).
  { destruct (IH (S i) h ts' Ls) as (kept & h' & L' & -> & C & R); try done; [lia|set_solver..|].
    exists kept, h', L'. split_and!; [done| |done]. eapply change_weaken; [done|set_solver]. }
  assert (∃ w h1 Lv', (match index_tails (i + S todo) i paths with [] => mret v | tails => delete_in v tails end : M val) h = Ret (Ok (w, h1)) ∧
    change h h1 Lv Lv' ∧ rep h1 w (match index_tails (i + S todo) i paths with [] => t | tails => del t tails end) Lv') as (w & h1 & Lv' & E1 & C1 & R1).
  { destruct (index_tails (i + S todo) i paths) as [|p ps] eqn:E; [by eexists v, h, Lv; split_and!; [done|by eapply change_start|done]|].
    apply (Hdel (p :: ps)); try done; [rewrite <- E; apply index_tails_shorter|set_solver]. }
  destruct (intact_change F h0 h h1 Lv Lv' Hi C1) as [Hi1 _]; [set_solver|].
  assert (cells h1 !! l = Some (OArray arr)) as Hl1 by (rewrite (change_others _ _ _ _ C1); [done|done|set_solver]).
  pose proof (change_fresh _ _ _ _ C1) as Hf1.
  destruct (IH (S i) h1 ts' Ls) as (kept & h2 & Ls' & E2 & C2 & R2); try done; [lia|lia|apply C1|set_solver|set_solver| |].
  { eapply reps_frame; [done|]. eapply change_same; [done|]. intros l' Hl'. split; [apply Hlt; set_solver|]. intros Hl2. by apply (Hdj l'). }
  destruct (change_append h h1 h2 Lv Ls Lv' Ls' C1 C2 Hnd Hlt) as [C Hs].
  exists (w :: kept), h2, (Lv' ++ Ls'). split_and!; [|done|constructor; [by eapply rep_frame|done]].
  rewrite (M_bind_ok _ _ _ _ _ E1), (M_bind_ok _ _ _ _ _ E2). done.
Qed.
End delete.

Lemma tree_delete_map m paths :
  tree_delete (AMap m) paths = AMap (omap (λ e, pair e.1 <$> delete_entry tree_delete paths e.1 e.2) m).
Proof.
  cbn [tree_delete]. f_equal. induction m as [|[k x] m IH]; [done|]. cbn [omap list_omap fst snd]. unfold delete_entry at 1.
  rewrite IH. by destruct (field_tails k paths) as [[|]|].
Qed.

Lemma tree_delete_seq ts paths :
  tree_delete (ASeq ts) paths = ASeq (kept_items tree_delete paths (length ts) 0 ts).
Proof.
  cbn [tree_delete]. f_equal. generalize (length ts) as n, O as i. intros n i. revert i.
  induction ts as [|x ts IH]; intros i; [done|]. cbn [kept_items]. by rewrite !IH.
Qed.

Lemma alloc_slice_part h h1 vs ts L L' capacity :
  change h h1 L L' → reps h1 vs ts L' → becomes h L (Ok (ASeq ts)) (alloc_slice capacity vs h1).
Proof.
  intros Hc Hr. eexists _, _, (fresh h1 :: L'). split_and!; [done|by apply change_alloc|].
  eapply rep_slice; cbn; [apply lookup_insert_eq|rewrite length_app; lia|]. rewrite take_app_length.
  eapply reps_frame; [done|]. intros l Hl. cbn. rewrite lookup_insert_ne; [done|].
  destruct (change_new _ _ _ _ Hc l Hl). lia.
Qed.

(** The code of deletions does what [tree_delete] does to trees. *)
Lemma delete_paths_rep fuel : ∀ paths,
  (0 < fuel)%nat → (∀ p, p ∈ paths → (length p < fuel)%nat) →
  implements (λ v, delete_paths fuel v paths) (λ t, Ok (tree_delete t paths)).
Proof.
  induction fuel as [|fuel IH]; intros paths Hf Hp h v t L Hb Hi Hnd HF Hr; [lia|]. cbn [delete_paths].
  assert (∀ tails, tails ≠ [] → shorter tails paths → implements (λ v, delete_paths fuel v tails) (λ t, Ok (tree_delete t tails))) as Hd.
  { intros tails Hne Hs. apply IH.
    - destruct tails as [|p tails]; [done|]. destruct (Hs p) as (Hp' & q & Hin & Hl); [by left|].
      specialize (Hp q Hin). destruct p; [done|]. cbn in Hl. lia.
    - intros p Hp'. destruct (Hs p Hp') as (_ & q & Hin & Hl). specialize (Hp q Hin). lia. }
  pose proof (proj1 (rep_bounded_all h Hb) _ _ _ Hr) as Hlt.
  inversion Hr as [a Ha|l n arr ts L' Hl Hn Hm|l es m L' Hl Hs Hm]; subst.
  - destruct t; try done; by apply becomes_same.
  - apply NoDup_cons in Hnd as [Hni Hnd]. pose proof (reps_length _ _ _ _ Hm) as Hlen. rewrite length_take in Hlen.
    destruct (delete_items_rep (delete_paths fuel) tree_delete paths Hd l n arr n 0 h ts L') as (kept & h1 & L1 & E1 & C1 & R1); try done.
    { apply Hlt. left. }
    { intros l' Hl'. apply HF. by right. }
    rewrite (M_bind_ok _ _ _ _ _ E1), tree_delete_seq. replace (length ts) with n by lia.
    eapply alloc_slice_part; [|done]. eapply change_weaken; [done|]. intros l' Hl'. by right.
  - rewrite tree_delete_map, (M_bind_ok _ _ _ _ _ (map_entries_at h l es Hl)). apply becomes_object.
    destruct (range_keys es m h L' Hm Hs) as [Hk1 Hk2].
    rewrite <- (delete_keys_all tree_delete paths (map_range es).*1) by (intros; by apply Hk2).
    apply (delete_entries_rep (delete_paths fuel) tree_delete paths Hd l); try done. intros k. by apply Hk2.
Qed.

Lemma delete_rep paths : implements (λ v, deleteOverridePaths v paths) (λ t, Ok (tree_delete t paths)).
Proof.
  apply delete_paths_rep; [lia|]. intros p Hp. apply (list_elem_of_fmap_2 length) in Hp. apply list_max_elem in Hp. lia.
Qed.
End update.
End refine.
