(* ===== verification/ExprBinary.v ===== *)
(** * Binary operators on proxies whose objects are held once

    The operators of compound assignments share the items of an array on their left
    with the result, and copy the rest.  On values whose objects are held once they are
    the operators on trees. *)

From Stdlib Require Import Ascii.
From Corelib Require Import Floats.SpecFloat.
From S2P Require Import Prelude Wire GoStrings GoFloat ExprValue ExprParse ExprStore.
From S2P Require Import ExprStoreSpec ExprRep ExprRefine.

(** ** Results have their maps in order *)

Lemma canonical_numbers operator l r t : evaluateOverrideNumbers operator l r = Ok t → canonical t.
Proof.
  unfold evaluateOverrideNumbers. destruct (overrideNumber l) as [[x xi]|], (overrideNumber r) as [[y yi]|]; [|done..].
  repeat case_bool_decide; try done; destruct (xi && yi); try (by intros [= <-]). destruct (SFeqb _ _); by intros [= <-].
Qed.

Lemma canonical_multiply_string s n t : multiply_string s n = Ok t → canonical t.
Proof.
  unfold multiply_string. destruct (overrideNumber n) as [[x []]|]; [|done..].
  destruct (SFltb _ _); [done|]. destruct (SFltb _ _); [done|]. by intros [= <-].
Qed.

Lemma canonical_mset m key x : canonical (AMap m) → canonical x → canonical (AMap (mset m key x)).
Proof.
  rewrite !canonical_map. intros [Hs Hm] Hx. split; [by apply mset_sorted|]. rewrite Forall_forall in Hm |- *.
  intros t [->|Ht]%elem_of_mset; auto.
Qed.

Lemma canonical_mindex m key : canonical (AMap m) → canonical (mindex m key).
Proof.
  intros [_ Hm]%canonical_map. unfold mindex. induction m as [|[k x] m IH]; cbn; [done|].
  apply Forall_cons in Hm as [Hx Hm]. case_bool_decide; [done|auto].
Qed.

Lemma clone_entries_id (m : mapping) : (λ e, (e.1, cloneOverrideValue e.2)) <$> m = m.
Proof. induction m as [|[k x] m IH]; [done|]. rewrite fmap_cons. cbn. rewrite clone_value_id. by f_equal. Qed.

Lemma clone_items_id (ts : list any) : cloneOverrideValue <$> ts = ts.
Proof. induction ts as [|t ts IH]; [done|]. rewrite fmap_cons, clone_value_id. by f_equal. Qed.

Lemma canonical_add_maps leftMap rightMap :
  canonical (AMap leftMap) → canonical (AMap rightMap) →
  canonical (AMap (foldl (λ result e, mset result e.1 (cloneOverrideValue e.2)) leftMap rightMap)).
Proof.
  intros Hl [_ Hr]%canonical_map. revert leftMap Hl. induction rightMap as [|[k x] m IH]; intros leftMap Hl; [done|].
  apply Forall_cons in Hr as [Hx Hr]. cbn. rewrite clone_value_id. apply IH; [done|]. by apply canonical_mset.
Qed.

Lemma canonical_merge r l : canonical l → canonical r → canonical (merge_values l r).
Proof.
  revert l. induction r as [| | | | | |ts Hts|m Hm|] using any_ind'; intros l Hl Hr;
    try (destruct l; cbn [merge_values]; by rewrite clone_value_id).
  destruct l as [| | | | | | |leftMap|]; cbn [merge_values]; try by rewrite clone_value_id.
  rewrite clone_entries_id. apply canonical_map in Hr as [_ Hr]. revert leftMap Hl.
  induction Hm as [|[k x] m Hx Hm IH]; intros leftMap Hl; [done|].
  apply Forall_cons in Hr as [Hcx Hr]. apply IH; [done|]. apply canonical_mset; [done|].
  apply Hx; [by apply canonical_mindex|done].
Qed.

Lemma canonical_add l r t :
  canonical l → canonical r → evaluate_add l r = Ok t → (∀ ts, l ≠ ASeq ts) → canonical t.
Proof.
  intros Hl Hr He Hns. unfold evaluate_add in He.
  assert (∀ u, (match r with
    | AStr rightString => if isOverrideScalar u then Ok (AStr (Sprint u +:+ rightString)) else evaluateOverrideNumbers "+" u r
    | _ => evaluateOverrideNumbers "+" u r
    end) = Ok t → canonical t) as Hnum.
  { intros u. destruct r; try apply canonical_numbers. destruct (isOverrideScalar u); [by intros [= <-]|apply canonical_numbers]. }
  destruct l as [|b|k z|x|x|s|ts|m|]; try exact (Hnum _ He); [..|by destruct (Hns ts)|].
  - rewrite clone_value_id in He. by simplify_eq.
  - destruct (is_nil r); [by simplify_eq|]. destruct (negb _); by simplify_eq.
  - destruct r; try done. rewrite clone_entries_id in He. simplify_eq. by apply canonical_add_maps.
Qed.

Lemma canonical_subtract l r t :
  canonical r → evaluate_subtract l r = Ok t → (∀ ts, l ≠ ASeq ts) → canonical t.
Proof.
  intros Hr He Hns. unfold evaluate_subtract in He.
  destruct l as [|b|k z|x|x|s|ts|m|]; try (by eapply canonical_numbers); [|by destruct (Hns ts)].
  rewrite clone_value_id in He. by simplify_eq.
Qed.

Lemma canonical_multiply l r t : canonical l → canonical r → evaluate_multiply l r = Ok t → canonical t.
Proof.
  intros Hl Hr He. unfold evaluate_multiply in He. rewrite !clone_value_id in He.
  destruct l as [|b|k z|x|x|s|ts|m|], r as [|b'|k' z'|x'|x'|s'|ts'|m'|]; try (by simplify_eq);
    try (by eapply canonical_numbers); try (by eapply canonical_multiply_string).
  - rewrite clone_items_id in He. by simplify_eq.
  - simplify_eq. by apply canonical_merge.
Qed.

Lemma binary_is_add l r : evaluateOverrideBinary "+" l r = evaluate_add l r.
Proof. done. Qed.
Lemma binary_is_subtract l r : evaluateOverrideBinary "-" l r = evaluate_subtract l r.
Proof. done. Qed.
Lemma binary_is_multiply l r : evaluateOverrideBinary "*" l r = evaluate_multiply l r.
Proof. done. Qed.

(** ** Operators on stores *)

Section binary.
Context {rt : GoRuntime} {rts : GoRuntimeSpec rt}.
(** The value on the right, whose objects are not changed. *)
Context (h0 : store) (right : val) (tr : any) (F : list nat).
Context (Hright : rep h0 right tr F) (HFn : NoDup F).

Lemma right_rep h : intact F h0 h → rep h right tr F.
Proof using Hright. intros Hi. eapply rep_frame; [exact Hright|]. intros l Hl. by apply Hi. Qed.

(** The operands are read and the result is allocated. *)
Lemma allocated_rep operator h left tl L :
  (∀ t, evaluateOverrideBinary operator tl tr = Ok t → canonical t) →
  bounded h → intact F h0 h → NoDup L → rep h left tl L →
  becomes h L (evaluateOverrideBinary operator tl tr)
    ((tl ← read left; tr ← read right; t ← lift (evaluateOverrideBinary operator tl tr); alloc_tree t) h).
Proof using Hright HFn.
  intros Hc Hb Hi Hnd Hr. rewrite (M_bind_ok _ _ _ _ _ (read_rep h left tl L Hb Hr Hnd)).
  rewrite (M_bind_ok _ _ _ _ _ (read_rep h right tr F Hb (right_rep h Hi) HFn)).
  destruct (evaluateOverrideBinary operator tl tr) as [t|e]; [|by eexists].
  destruct (alloc_tree_rep t (Hc t eq_refl) h Hb) as (v & h' & L' & E & C & R).
  exists v, h', L'. split_and!; [exact E| |done]. eapply change_weaken; [done|]. by intros l ?%not_elem_of_nil.
Qed.

Lemma items_rep h l n ts L :
  rep h (Slice l n) (ASeq ts) L → ∃ vs L', slice_items l n h = Ret (Ok (vs, h)) ∧ L = l :: L' ∧ reps h vs ts L'.
Proof using Type.
  intros Hr. inversion Hr as [|l' n' arr ts' L' Hl Hn Hm|]; subst. unfold slice_items, items_of, get_array. rewrite Hl. by eexists _, _.
Qed.

(** Items of a value with new items behind them. *)
Lemma append_rep h h1 L0 l vs ts L vs' ts' L' capacity batches :
  mjoin batches = vs ++ vs' → NoDup (l :: L) → L0 = l :: L → (∀ k, k ∈ L0 → (k < fresh h)%nat) →
  reps h vs ts L → change h h1 [] L' → reps h1 vs' ts' L' →
  becomes h L0 (Ok (ASeq (ts ++ ts'))) (append_all capacity batches h1).
Proof using Type.
  intros Hj Hnd -> Hlt Hr C1 R1. unfold append_all. rewrite Hj. apply NoDup_cons in Hnd as [Hni Hnd].
  eapply (alloc_slice_part h h1 (vs ++ vs') (ts ++ ts') (l :: L) (L ++ L')).
  - destruct (change_part h h1 L [] [] L' C1) as [C _]; rewrite ?app_nil_r in *; [done|intros k Hk; apply Hlt; by right|].
    eapply change_weaken; [exact C|]. intros k Hk. by right.
  - apply reps_app; [|done]. eapply reps_frame; [done|]. eapply change_same; [exact C1|].
    intros k Hk. split; [apply Hlt; by right|apply not_elem_of_nil].
Qed.

Lemma add_slice_rep h l n ts L :
  bounded h → intact F h0 h → NoDup L → rep h (Slice l n) (ASeq ts) L →
  becomes h L (evaluate_add (ASeq ts) tr) (store_add_slice l n right h).
Proof using Hright HFn.
  intros Hb Hi Hnd Hr. pose proof (proj1 (rep_bounded_all h Hb) _ _ _ Hr) as Hlt.
  destruct (items_rep h l n ts L Hr) as (vs & L' & E & -> & Hvs). unfold store_add_slice. rewrite (M_bind_ok _ _ _ _ _ E).
  pose proof (right_rep h Hi) as HR.
  destruct (clone_rep h right tr F Hb HR HFn) as (c & h1 & Lc & Ec & Cc & Rc).
  assert (becomes h (l :: L') (Ok (ASeq (ts ++ [tr]))) ((copied ← clone right; append_all 0 [vs; [copied]]) h)) as Hone.
  { rewrite (M_bind_ok _ _ _ _ _ Ec). eapply append_rep; [reflexivity|done|done|done|done|exact Cc|by apply reps_one]. }
  cbn [evaluate_add]. rewrite !clone_value_id.
  inversion HR as [a Ha|lr nr arr rs Lr Hlr Hnr Hmr|lr es m Lr Hlr Hsr Hmr]; subst; [|clear Hone|done].
  - destruct tr; try done. rewrite <- (app_nil_r ts).
    eapply append_rep; [reflexivity|done|done|done|done|by apply change_none|constructor].
  - rewrite (M_bind_ok _ _ _ _ _ Ec), clone_items_id. inversion Rc as [a Ha|lc nc arrc rsc Lc' Hlc Hnc Hmc|]; subst; [done|].
    destruct (items_rep h1 lc nc rs _ Rc) as (cs & Lc2 & E2 & [= <-] & Hcs). rewrite (M_bind_ok _ _ _ _ _ E2).
    eapply append_rep; [cbn; by rewrite app_nil_r|done|done|done|done|by eapply change_sub|done].
Qed.

(** The items that are kept. *)
Lemma reps_filter h vs ts L (keep : val * any → Prop) `{∀ e, Decision (keep e)} (keept : any → Prop) `{∀ t, Decision (keept t)} :
  (∀ v t, keep (v, t) ↔ keept t) → reps h vs ts L → NoDup L →
  ∃ L', reps h (filter keep (zip vs ts)).*1 (filter keept ts) L' ∧ (∀ l, l ∈ L' → l ∈ L) ∧ NoDup L'.
Proof using Type.
  clear rts Hright HFn.
  intros Hk Hr. induction Hr as [|v vs t ts Lv L Hv Hvs IH]; intros Hnd; [exists []; split_and!; [constructor|done|constructor]|].
  apply NoDup_app in Hnd as (Hnv & Hdj & Hnd). destruct (IH Hnd) as (L' & HL' & Hsub & Hnd'). cbn [zip zip_with].
  rewrite !filter_cons. destruct (decide (keep (v, t))) as [Hd|Hd], (decide (keept t)) as [Hd'|Hd'].
  - exists (Lv ++ L'). split_and!; [by constructor|set_solver|]. apply NoDup_app. split_and!; [done|set_solver|done].
  - by destruct Hd'; apply (Hk v).
  - by destruct Hd; apply Hk.
  - exists L'. split_and!; [done|set_solver|done].
Qed.

Lemma read_items_rep h vs ts L : bounded h → reps h vs ts L → NoDup L → mapM_ read vs h = Ret (Ok (ts, h)).
Proof using Type.
  intros Hb Hr. induction Hr as [|v vs t ts Lv L Hv Hvs IH]; intros Hnd; [done|]. apply NoDup_app in Hnd as (Hnv & _ & Hnd).
  cbn [mapM_]. rewrite (M_bind_ok _ _ _ _ _ (read_rep h v t Lv Hb Hv Hnv)), (M_bind_ok _ _ _ _ _ (IH Hnd)). done.
Qed.

Lemma subtract_slice_rep h l n ts L :
  bounded h → intact F h0 h → NoDup L → rep h (Slice l n) (ASeq ts) L →
  becomes h L (evaluate_subtract (ASeq ts) tr) (store_subtract_slice l n right h).
Proof using Hright HFn.
  intros Hb Hi Hnd Hr. pose proof (change_start h _ _ L Hb Hnd Hr) as Hc.
  destruct (items_rep h l n ts L Hr) as (vs & L' & E & -> & Hvs). unfold store_subtract_slice. rewrite (M_bind_ok _ _ _ _ _ E).
  pose proof (right_rep h Hi) as HR. cbn [evaluate_subtract]. apply NoDup_cons in Hnd as [Hni Hnd].
  inversion HR as [a Ha|lr nr arr rs Lr Hlr Hnr Hmr|lr es m Lr Hlr Hsr Hmr]; subst; [by destruct tr; try done; eexists| |by eexists].
  rewrite (M_bind_ok _ _ _ _ _ (read_items_rep h vs ts L' Hb Hvs Hnd)), (M_bind_ok _ _ _ _ _ (read_rep h _ _ _ Hb HR HFn)).
  destruct (reps_filter h vs ts L' (λ e, existsb (overrideEqual e.2) rs = false) (λ item, existsb (overrideEqual item) rs = false))
    as (K & HK & Hsub & HndK); [done|done|done|].
  eapply alloc_slice_part; [|exact HK]. destruct Hc as [Hf Hb' Ho Hn Hw]. split; [done|done|done|done|].
  intros k Hk. apply Hw. right. by apply Hsub.
Qed.

(** A compound assignment does to a value what its operator does to its tree. *)
Lemma binary_rep operator :
  operator ∈ ["+"; "-"; "*"] → canonical tr →
  implements F h0 (λ old, store_binary operator old right) (λ t, evaluateOverrideBinary operator t tr).
Proof using Hright HFn.
  intros Hop Htr h left tl L Hb Hi Hnd _ Hr.
  assert (canonical tl) as Hcl by by eapply (proj1 (rep_canonical_all h)).
  rewrite !elem_of_cons, elem_of_nil in Hop. destruct Hop as [->|[->|[->|[]]]]; unfold store_binary;
    (rewrite bool_decide_false by done).
  - destruct left as [a|l n|l].
    2: { inversion Hr; subst. rewrite bool_decide_true by done. by apply add_slice_rep. }
    all: apply allocated_rep; [|done..]; intros t He; eapply canonical_add; [| |exact He|]; [done|done|].
    all: intros ts ->; by inversion Hr.
  - destruct left as [a|l n|l].
    2: { inversion Hr; subst. rewrite bool_decide_false, bool_decide_true by done. by apply subtract_slice_rep. }
    all: apply allocated_rep; [|done..]; intros t He; eapply canonical_subtract; [|exact He|]; [done|].
    all: intros ts ->; by inversion Hr.
  - assert (becomes h L (evaluateOverrideBinary "*" tl tr)
      ((tl ← read left; tr ← read right; t ← lift (evaluateOverrideBinary "*" tl tr); alloc_tree t) h)) as Ha.
    { apply allocated_rep; [|done..]. intros t He. eapply canonical_multiply; [| |exact He]; done. }
    destruct left as [a|l n|l]; [done| |done]. by rewrite !bool_decide_false by done.
Qed.
End binary.
