(* ===== verification/ExprStatements.v ===== *)
(** * Statements on proxies are statements on trees

    Assignments of constants at any paths, plain and compound, and deletions are applied
    to a decoded proxy as [tree_statement] says, whatever the runtime does.  At the end
    cases in which the code does not do what it should, as runs of it. *)

From Stdlib Require Import Ascii.
From Corelib Require Import Floats.SpecFloat.
From S2P Require Import Prelude Wire GoStrings GoFloat ExprValue ExprParse ExprStore ExprEval.
From S2P Require Import ExprParseSpec ExprStoreSpec ExprEvalSpec ExprRep ExprRefine ExprBinary.

(** ** Constants *)

(** The value of an expression that does not look at its input. *)
Fixpoint constant (e : overrideValueExpr) : option any :=
  match e with
  | LiteralExpr (ASeq _) | LiteralExpr (AMap _) | LiteralExpr ANoMatch => None
  | LiteralExpr x => Some x
  | ArrayExpr es =>
    ASeq <$> (fix go (es : list overrideValueExpr) : option (list any) :=
      match es with
      | [] => Some []
      | e :: es => x ← constant e; xs ← go es; Some (x :: xs)
      end) es
  | MapExpr entries =>
    (λ kxs, AMap (foldl (λ m e, mset m e.1 e.2) [] kxs)) <$>
      (fix go (entries : list (string * overrideValueExpr)) : option mapping :=
        match entries with
        | [] => Some []
        | (k, e) :: entries => x ← constant e; kxs ← go entries; Some ((k, x) :: kxs)
        end) entries
  | _ => None
  end.

(** ** Statements on trees *)

Definition literal_update (operator : overrideTokenKind) (x : any) (t : any) : result any :=
  match operator with
  | TokenAssign => Ok x
  | _ => evaluateOverrideBinary (compound_operator operator) t x
  end.

Definition tree_statement (s : overrideStatement) (t : any) : result any :=
  match s with
  | AssignStatement path _ operator e => tree_update path (literal_update operator (default ANil (constant e))) t
  | DeleteStatement paths => Ok (tree_delete t paths)
  | FilterStatement _ => Ok t
  end.

Fixpoint tree_statements (ss : list overrideStatement) (t : any) : result any :=
  match ss with
  | [] => Ok t
  | s :: ss => t' ← tree_statement s t; tree_statements ss t'
  end.

(** Assignments of constants below the root, at indices to which an array can be filled
    up, and deletions. *)
Definition plain (s : overrideStatement) : bool :=
  match s with
  | AssignStatement ((_ :: _) as path) None operator e =>
    small_path path && bool_decide (operator ∈ [TokenAssign; TokenAddAssign; TokenSubtractAssign; TokenMultiplyAssign]) &&
    bool_decide (is_Some (constant e))
  | DeleteStatement _ => true
  | _ => false
  end.

Section statements.
Context {rt : GoRuntime} {rts : GoRuntimeSpec rt} `{Unicode} {lib : ExprLib}.

(** ** The evaluation of constants *)

(** A new value of the tree. *)
Definition makes (h : store) (x : any) (o : outcome (result (list val * store))) : Prop :=
  ∃ v h' L, o = Ret (Ok ([v], h')) ∧ change h h' [] L ∧ rep h' v x L.

Lemma each_one f input h x :
  x ≠ ANoMatch → (∃ v h' L, f input h = Ret (Ok (v, h')) ∧ change h h' [] L ∧ rep h' v x L) →
  makes h x (concatM (one_result f) [input] h).
Proof.
  intros Hx (v & h' & L & E & C & R). exists v, h', L. split_and!; [|done|done].
  unfold concatM, one_result. cbn [mapM_]. unfold mbind, M_bind. rewrite E.
  assert (isOverrideNoMatch v = false) as ->; [|done]. destruct v as [[]| |]; try done. by inversion R; subst.
Qed.

Lemma foldl_mset_rep h es m L vs (kxs : mapping) K :
  repm h es m L → sorted m → NoDup (L ++ K) → repm h vs kxs K →
  ∃ L', repm h (foldl (λ m e, mset m e.1 e.2) es vs) (foldl (λ m e, mset m e.1 e.2) m kxs) L' ∧
    (∀ l, l ∈ L' → l ∈ L ++ K) ∧ NoDup L' ∧ sorted (foldl (λ m e, mset m e.1 e.2) m kxs).
Proof.
  intros Hm Hs Hnd Hv. revert es m L Hm Hs Hnd. induction Hv as [|k v vs x kxs Lv K Hx Hv IH]; intros es m L Hm Hs Hnd.
  { exists L. rewrite app_nil_r in *. by split_and!. }
  destruct (repm_focus h es m L k Hm Hs) as (Lk & L1 & L2 & -> & _ & Hback & _).
  specialize (Hback h v x Lv (same_on_refl _ h) Hx).
  destruct (IH (mset es k v) (mset m k x) (L1 ++ Lv ++ L2) Hback) as (L' & HL' & Hsub & Hnd' & Hs'); [by apply mset_sorted| |].
  { rewrite !NoDup_app in *. set_solver. }
  exists L'. split_and!; [done| |done|done]. intros l Hl%Hsub. set_solver.
Qed.

Definition constants : list overrideValueExpr → option (list any) :=
  fix go (es : list overrideValueExpr) : option (list any) :=
    match es with
    | [] => Some []
    | e :: es => x ← constant e; xs ← go es; Some (x :: xs)
    end.

Definition constant_entries : list (string * overrideValueExpr) → option mapping :=
  fix go (entries : list (string * overrideValueExpr)) : option mapping :=
    match entries with
    | [] => Some []
    | (k, e) :: entries => x ← constant e; kxs ← go entries; Some ((k, x) :: kxs)
    end.

Lemma constant_not_nomatch e x : constant e = Some x → x ≠ ANoMatch.
Proof.
  destruct e as [| |value| | |es|entries| | | |]; cbn; try done; [destruct value; by intros [= <-]| |].
  - destruct (_ es); by intros [= <-].
  - destruct (_ entries); by intros [= <-].
Qed.

(** The expression makes a new value of the tree on every input. *)
Definition making (e : overrideValueExpr) : Prop :=
  ∀ x, constant e = Some x → ∀ input h, bounded h → makes h x (evalInputs e [input] h).

Lemma makes_items es input : Forall making es → ∀ xs h, constants es = Some xs → bounded h →
  ∃ vs h' L, mapM_ (λ value, evalOverrideStream value input) (evalInputs <$> es) h = Ret (Ok ((λ v, [v]) <$> vs, h')) ∧
    change h h' [] L ∧ reps h' vs xs L.
Proof.
  induction 1 as [|e es He Hes IH]; intros xs h Hc Hb; cbn [constants] in Hc.
  { simplify_eq. exists [], h, []. split_and!; [done|by apply change_none|constructor]. }
  destruct (constant e) as [x|] eqn:Ex; [|done]. destruct (constants es) as [xs'|]; [|done]. cbn in Hc. simplify_eq.
  destruct (He x Ex input h Hb) as (v & h1 & L1 & E1 & C1 & R1).
  destruct (IH xs' h1 eq_refl (change_bounded _ _ _ _ C1)) as (vs & h2 & L2 & E2 & C2 & R2).
  destruct (change_nil h h1 h2 L1 L2 C1 C2) as [C Hs].
  exists (v :: vs), h2, (L1 ++ L2). split_and!; [|done|constructor; [by eapply rep_frame|done]].
  rewrite !fmap_cons. cbn [mapM_]. unfold evalOverrideStream at 1.
  by rewrite (M_bind_ok _ _ _ _ _ E1), (M_bind_ok _ _ _ _ _ E2).
Qed.

Lemma makes_entries entries input : Forall (λ entry, making entry.2) entries → ∀ kxs h, constant_entries entries = Some kxs → bounded h →
  ∃ es h' L, mapM_ (λ entry, values ← evalOverrideStream entry.2 input; mret (entry.1, values))
      ((λ entry, (entry.1, evalInputs entry.2)) <$> entries) h = Ret (Ok ((λ e, (e.1, [e.2])) <$> es, h')) ∧
    change h h' [] L ∧ repm h' es kxs L.
Proof.
  induction 1 as [|[k e] es He Hes IH]; intros kxs h Hc Hb; cbn [constant_entries] in Hc.
  { simplify_eq. exists [], h, []. split_and!; [done|by apply change_none|constructor]. }
  destruct (constant e) as [x|] eqn:Ex; [|done]. destruct (constant_entries es) as [kxs'|]; [|done]. cbn in Hc, He. simplify_eq.
  destruct (He x Ex input h Hb) as (v & h1 & L1 & E1 & C1 & R1).
  destruct (IH kxs' h1 eq_refl (change_bounded _ _ _ _ C1)) as (vs & h2 & L2 & E2 & C2 & R2).
  destruct (change_nil h h1 h2 L1 L2 C1 C2) as [C Hs].
  exists ((k, v) :: vs), h2, (L1 ++ L2). split_and!; [|done|constructor; [by eapply rep_frame|done]].
  assert ((values ← evalOverrideStream (evalInputs e) input; (mret (k, values) : M (string * list val))) h = Ret (Ok ((k, [v]), h1))) as E1'.
  { unfold evalOverrideStream. by rewrite (M_bind_ok _ _ _ _ _ E1). }
  rewrite !fmap_cons. cbn [mapM_ fst snd]. by rewrite (M_bind_ok _ _ _ _ _ E1'), (M_bind_ok _ _ _ _ _ E2).
Qed.

Lemma join_singletons {A} (vs : list A) : mjoin ((λ v, [v]) <$> vs) = vs.
Proof. induction vs as [|v vs IH]; [done|]. rewrite fmap_cons. cbn. by f_equal. Qed.

Lemma foldl_last (es : list (string * val)) m :
  foldl (λ m e, match last e.2 with Some v => mset m e.1 v | None => m end) m ((λ e, (e.1, [e.2])) <$> es) =
  foldl (λ m e, mset m e.1 e.2) m es.
Proof. revert m. induction es as [|e es IH]; intros m; [done|]. rewrite fmap_cons. cbn. apply IH. Qed.

Lemma making_expr e : making e.
Proof.
  revert e. fix IH 1. intros e x Hc input h Hb. pose proof (constant_not_nomatch e x Hc) as Hx.
  destruct e as [| |value| | |es|entries| | | |]; try done.
  - apply each_one; [done|]. rewrite clone_value_id. destruct value; try done; cbn in Hc; simplify_eq;
      (eexists _, h, []; split_and!; [done|by apply change_none|by constructor]).
  - assert (Forall making es) as Hes by (clear -IH; induction es; constructor; auto).
    cbn [constant] in Hc. fold constants in Hc. destruct (constants es) as [xs|] eqn:Exs; [|done]. cbn in Hc. simplify_eq.
    apply each_one; [done|]. destruct (makes_items es input Hes xs h Exs Hb) as (vs & h1 & L & E & C & R).
    unfold array_eval, append_all. rewrite (M_bind_ok _ _ _ _ _ E), join_singletons. by eapply alloc_slice_rep.
  - assert (Forall (λ entry, making entry.2) entries) as Hes by (clear -IH; induction entries as [|[k e] entries IHe]; constructor; [apply IH|done]).
    cbn [constant] in Hc. fold constant_entries in Hc. destruct (constant_entries entries) as [kxs|] eqn:Exs; [|done]. cbn in Hc. simplify_eq.
    apply each_one; [done|]. destruct (makes_entries entries input Hes kxs h Exs Hb) as (es & h1 & L & E & C & R).
    unfold map_eval. rewrite (M_bind_ok _ _ _ _ _ E), foldl_last.
    destruct (foldl_mset_rep h1 [] [] [] es kxs L) as (L' & HL' & Hsub & Hnd & Hs); [constructor|constructor|apply C|done|].
    eapply (alloc_map_rep h h1); [|done|done]. destruct C as [Hf Hb' Ho Hn Hw]. split; try done. intros l Hl%Hsub. by apply Hw.
Qed.

(** ** Statements *)

Lemma single_constant e x input h :
  constant e = Some x → bounded h →
  ∃ v h' L, evalOverrideSingle (evalInputs e) input h = Ret (Ok (v, h')) ∧ change h h' [] L ∧ rep h' v x L ∧ isOverrideNoMatch v = false.
Proof.
  intros Hc Hb. destruct (making_expr e x Hc input h Hb) as (v & h' & L & E & C & R). exists v, h', L.
  unfold evalOverrideSingle, evalOverrideStream. rewrite (M_bind_ok _ _ _ _ _ E). split_and!; [done|done|done|].
  apply constant_not_nomatch in Hc. destruct v as [[]| |]; try done. by inversion R; subst.
Qed.

(** The updater of an assignment, for the value that has been evaluated. *)
Definition assign_updater (operator : overrideTokenKind) (v : val) : val → M val :=
  match operator with
  | TokenAssign => λ _, clone v
  | _ => λ old, store_binary (compound_operator operator) old v
  end.

Lemma assign_updater_rep operator h v x L :
  operator ∈ [TokenAssign; TokenAddAssign; TokenSubtractAssign; TokenMultiplyAssign] → NoDup L → rep h v x L →
  implements L h (assign_updater operator v) (literal_update operator x).
Proof.
  intros Hop Hnd Hr. assert (canonical x) as Hc by by eapply (proj1 (rep_canonical_all h)).
  assert (implements L h (λ _, clone v) (λ _, Ok x)) as Hclone.
  { intros h1 old t K Hb Hi _ _ _. destruct (clone_rep h1 v x L Hb (right_rep h v x L Hr h1 Hi) Hnd) as (w & h2 & L' & E & C & R).
    exists w, h2, L'. split_and!; [done| |done]. eapply change_weaken; [done|]. by intros l ?%not_elem_of_nil. }
  rewrite !elem_of_cons, elem_of_nil in Hop. destruct Hop as [->|[->|[->|[->|[]]]]]; [exact Hclone|..];
    apply (binary_rep h v x L Hr Hnd); try done; set_solver.
Qed.

Lemma update_keeps_map path l updater h v h' :
  path ≠ [] → updateOverridePath (MapRef l) path updater h = Ret (Ok (v, h')) → v = MapRef l.
Proof.
  destruct path as [|[key|i|] path]; [done|..]; intros _; cbn [updateOverridePath].
  - unfold mbind, M_bind, map_entries, mret, M_ret. destruct (updateOverridePath _ _ _ _) as [[[w h1]|e]| |]; [|done..].
    by intros [= <- _].
  - by intros [= <- _].
  - unfold mbind, M_bind, map_entries, mret, M_ret. destruct (update_entries _ _ _ _) as [[[w h1]|e]| |]; [|done..].
    by intros [= <- _].
Qed.

(** The mapping stands for the tree of the result, or the statement fails. *)
Definition proxy_becomes (h : store) (l : nat) (r : result any) (o : outcome (result (unit * store))) : Prop :=
  match r with
  | Ok t => ∃ m h' L, t = AMap m ∧ o = Ret (Ok (tt, h')) ∧ bounded h' ∧ NoDup L ∧ rep h' (MapRef l) (AMap m) L
  | Err _ => ∃ e, o = Ret (Err e)
  end.

Lemma assign_rep path operator e x h l m L :
  path ≠ [] → small_path path → operator ∈ [TokenAssign; TokenAddAssign; TokenSubtractAssign; TokenMultiplyAssign] → constant e = Some x →
  bounded h → NoDup L → rep h (MapRef l) (AMap m) L →
  proxy_becomes h l (tree_update path (literal_update operator x) (AMap m)) (assign_apply path None operator e l h).
Proof.
  intros Hpath Hsmall Hop Hc Hb Hnd Hr. pose proof (proj1 (rep_bounded_all h Hb) _ _ _ Hr) as Hlt.
  destruct (single_constant e x (MapRef l) h Hc Hb) as (v & h1 & Lv & E & C & R & Hno).
  assert (assign_apply path None operator e l h = update_root l path ("update " +:+ path_String path) (assign_updater operator v) h1) as ->.
  { unfold assign_apply, run_update. rewrite !elem_of_cons, elem_of_nil in Hop.
    destruct Hop as [->|[->|[->|[->|[]]]]]; rewrite (M_bind_ok _ _ _ _ _ E), Hno; done. }
  assert (rep h1 (MapRef l) (AMap m) L) as Hr1.
  { eapply rep_frame; [done|]. eapply change_same; [done|]. intros k Hk. split; [auto|apply not_elem_of_nil]. }
  assert (intact Lv h1 h1) as Hi by (intros k Hk; split; [by apply (change_new _ _ _ _ C)|done]).
  assert (∀ k, k ∈ L → k ∉ Lv) as HF.
  { intros k Hk HkL. destruct (change_new _ _ _ _ C k HkL) as [[?%not_elem_of_nil|] _]; [done|]. specialize (Hlt k Hk). lia. }
  pose proof (update_path_rep Lv h1 path _ _ Hsmall (assign_updater_rep operator h1 v x Lv Hop (change_nodup _ _ _ _ C) R)
    h1 _ _ L (change_bounded _ _ _ _ C) Hi Hnd HF Hr1) as Hu. unfold update_root, mbind, M_bind, wrap_error.
  destruct (tree_update path _ (AMap m)) as [t|err]; cbn in Hu |- *; [|destruct Hu as [err' ->]; by eexists].
  destruct Hu as (w & h2 & L2 & E2 & C2 & R2). rewrite E2. apply update_keeps_map in E2 as ->; [|done].
  destruct path as [|segment path]; [done|]. inversion R2; subst. eexists _, h2, _. split_and!; [done|done|apply C2|apply C2|done].
Qed.

Lemma delete_rep_statement paths h l m L :
  bounded h → NoDup L → rep h (MapRef l) (AMap m) L →
  proxy_becomes h l (Ok (tree_delete (AMap m) paths)) (delete_apply paths l h).
Proof.
  intros Hb Hnd Hr. destruct (delete_rep [] h paths h (MapRef l) (AMap m) L Hb) as (v & h' & L' & E & C & R); try done.
  { by intros k ?%not_elem_of_nil. }
  { intros k _. apply not_elem_of_nil. }
  unfold delete_apply. rewrite (M_bind_ok _ _ _ _ _ E). assert (v = MapRef l) as ->.
  { revert E. unfold deleteOverridePaths. cbn [delete_paths]. unfold mbind, M_bind, map_entries, mret, M_ret.
    destruct (delete_entries _ _ _ _ _) as [[[w h1]|e]| |]; [|done..]. by intros [= <- _]. }
  inversion R; subst. eexists _, h', _. split_and!; [done|done|apply C|apply C|done].
Qed.

Lemma statement_rep s h l m L :
  plain s → bounded h → NoDup L → rep h (MapRef l) (AMap m) L →
  proxy_becomes h l (tree_statement s (AMap m)) (statement_apply s l h).
Proof.
  intros Hp. destruct s as [path target operator e|e|paths]; [|done|by apply delete_rep_statement].
  destruct path as [|segment path]; [done|]. destruct target; [done|]. cbn [plain] in Hp.
  apply andb_prop_elim in Hp as [[Hsmall Hop%bool_decide_unpack]%andb_prop_elim [x Hx]%bool_decide_unpack].
  cbn [tree_statement statement_apply]. rewrite Hx. by apply assign_rep.
Qed.

Lemma statements_rep ss h l m L :
  Forall (λ s, plain s) ss → bounded h → NoDup L → rep h (MapRef l) (AMap m) L →
  proxy_becomes h l (tree_statements ss (AMap m)) (Apply ss l h).
Proof.
  intros Hp. revert h m L. induction Hp as [|s ss Hs Hss IH]; intros h m L Hb Hnd Hr; cbn [tree_statements Apply].
  { eexists _, h, _. by split_and!. }
  pose proof (statement_rep s h l m L Hs Hb Hnd Hr) as H1.
  destruct (tree_statement s (AMap m)) as [t|err]; cbn in H1 |- *.
  - destruct H1 as (m1 & h1 & L1 & -> & E1 & Hb1 & Hnd1 & Hr1). rewrite (M_bind_ok _ _ _ _ _ E1). by eapply IH.
  - destruct H1 as [err' E1]. exists err'. unfold mbind, M_bind. by rewrite E1.
Qed.

Lemma statements_run ss proxy :
  Forall (λ s, plain s) ss → canonical (AMap proxy) →
  match tree_statements ss (AMap proxy) with
  | Ok t => run_statements ss proxy = Ret (Ok t)
  | Err _ => ∃ e, run_statements ss proxy = Ret (Err e)
  end.
Proof.
  intros Hp Hc. assert (bounded (mkStore ∅ 0)) as Hb by (by intros l [o Ho]).
  destruct (alloc_tree_rep (AMap proxy) Hc _ Hb) as (v & h & L & E & C & R). inversion R as [| |l es m L' Hl Hs Hm]; subst; [done|].
  pose proof (statements_rep ss h l proxy (l :: L') Hp (change_bounded _ _ _ _ C) (change_nodup _ _ _ _ C) R) as Hss.
  unfold run_statements. rewrite (M_bind_ok _ _ _ _ _ E).
  destruct (tree_statements ss (AMap proxy)) as [t|err]; cbn in Hss.
  - destruct Hss as (m1 & h1 & L1 & -> & E1 & Hb1 & Hnd1 & Hr1). rewrite (M_bind_ok _ _ _ _ _ E1).
    by rewrite (read_rep h1 _ _ L1 Hb1 Hr1 Hnd1).
  - destruct Hss as [err' E1]. exists err'.
    assert ((_ ← Apply ss l; read (MapRef l)) h = Ret (Err err')) as Er by (unfold mbind, M_bind; by rewrite E1).
    by rewrite Er.
Qed.

(** C6: assignments of constants, plain and compound, at paths with fields, indices from
    either end (below 2^40, as the runtime cannot make arrays of any length) and
    wildcards, and deletions of any paths, change a decoded proxy as they
    change its tree: although the code writes to objects in place, shares items, lets
    arrays grow and ranges over maps in an order of the runtime, the result is that of
    [tree_statement] for every runtime, and the statements fail when it fails. *)
Theorem override_statements_refine ss proxy :
  Forall (λ s, plain s) ss → canonical (AMap proxy) →
  match tree_statements ss (AMap proxy) with
  | Ok t => run_statements ss proxy = Ret (Ok t)
  | Err _ => ∃ e, run_statements ss proxy = Ret (Err e)
  end.
Proof. apply statements_run. Qed.

(** ** Fields *)

(** The value at keys, one below the other. *)
Fixpoint field_at (keys : list string) (t : any) : any :=
  match keys with
  | [] => t
  | key :: keys => field_at keys (match t with AMap m => mindex m key | _ => ANil end)
  end.

(** Nothing but mappings is on the way, as far as it goes. *)
Fixpoint way_open (keys : list string) (t : any) : bool :=
  match keys with
  | [] => true
  | key :: keys =>
    match t with
    | ANil => true
    | AMap m => way_open keys (mindex m key)
    | _ => false
    end
  end.

Lemma mget_mset {A} (m : list (string * A)) key x : mget (mset m key x) key = Some x.
Proof.
  induction m as [|[k y] m IH]; cbn; [by rewrite bool_decide_true|]. case_bool_decide as Hk; cbn; [by rewrite bool_decide_true|].
  destruct (string_ltb key k); cbn; [by rewrite bool_decide_true|]. by rewrite bool_decide_false.
Qed.

Lemma mget_mset_ne {A} (m : list (string * A)) key x k : k ≠ key → mget (mset m key x) k = mget m k.
Proof.
  intros Hne. induction m as [|[k' y] m IH]; cbn; [by rewrite bool_decide_false by congruence|].
  case_bool_decide as Hk; cbn.
  - subst. by rewrite !(bool_decide_false (key = k)) by congruence.
  - destruct (string_ltb key k'); cbn; [by rewrite (bool_decide_false (key = k)) by congruence|]. by rewrite IH.
Qed.

Lemma way_open_nil keys : way_open keys ANil = true.
Proof. by destruct keys. Qed.

Lemma update_fields keys x t :
  way_open keys t → ∃ t', tree_update (PathField <$> keys) (λ _, Ok x) t = Ok t' ∧ field_at keys t' = x ∧
    ∀ keys', ¬ keys `prefix_of` keys' → ¬ keys' `prefix_of` keys → field_at keys' t' = field_at keys' t.
Proof.
  revert t. induction keys as [|key keys IH]; intros t Hw.
  { exists x. split_and!; [done|done|]. intros keys' Hp. destruct Hp. apply prefix_nil. }
  assert (∃ m, (t = ANil ∧ m = [] ∨ t = AMap m) ∧ way_open keys (mindex m key)) as (m & Ht & Hm).
  { destruct t as [| | | | | | |m|]; try done; [exists []|exists m]; split; [by left|apply Is_true_true, way_open_nil|by right|done]. }
  destruct (IH (mindex m key) Hm) as (t' & E & Hat & Hothers). exists (AMap (mset m key t')).
  assert (∀ k, (match t with AMap m => mindex m k | _ => ANil end) = mindex m k) as Hk by (intros k; by destruct Ht as [[-> ->]| ->]).
  split_and!.
  - rewrite fmap_cons. cbn [tree_update]. unfold tree_key. by destruct Ht as [[-> ->]| ->]; rewrite E.
  - cbn. unfold mindex. by rewrite mget_mset.
  - intros [|k keys'] Hn1 Hn2; [destruct Hn2; apply prefix_nil|]. cbn. rewrite Hk. unfold mindex in *.
    destruct (decide (k = key)) as [->|Hne]; [|by rewrite mget_mset_ne]. rewrite mget_mset. cbn. apply Hothers.
    + intros Hp. apply Hn1. by apply prefix_cons.
    + intros Hp. apply Hn2. by apply prefix_cons.
Qed.

(** Something other than a mapping on the way, and nothing is changed. *)
Lemma update_blocked keys x t :
  canonical t → way_open keys t = false → tree_update (PathField <$> keys) (λ _, Ok x) t = Ok t.
Proof.
  revert t. induction keys as [|key keys IH]; intros t Hc Hw; [done|]. rewrite fmap_cons. cbn [tree_update].
  destruct t as [| | | | | | |m|]; try done. cbn [way_open] in Hw. unfold tree_key.
  rewrite (IH (mindex m key)) by (done || by apply canonical_mindex). cbn. f_equal. f_equal. unfold mindex in *.
  destruct (mget m key) as [y|] eqn:E; [|by rewrite way_open_nil in Hw].
  apply canonical_map in Hc as [Hs _]. by apply mset_same.
Qed.

(** C24: after the assignment of a constant at a field, however deep, when there is
    nothing but mappings on the way to it, the field has the value, mappings that were
    missing on the way have been made, and all fields that are not above or below it have
    the values that they had.  When a scalar or an array is on the way, the proxy is
    unchanged, without an error. *)
Theorem override_assign_field keys e x proxy :
  keys ≠ [] → constant e = Some x → canonical (AMap proxy) →
  ∃ t, run_statements [AssignStatement (PathField <$> keys) None TokenAssign e] proxy = Ret (Ok t) ∧
    if way_open keys (AMap proxy)
    then field_at keys t = x ∧
      ∀ keys', ¬ keys `prefix_of` keys' → ¬ keys' `prefix_of` keys → field_at keys' t = field_at keys' (AMap proxy)
    else t = AMap proxy.
Proof.
  intros Hk Hc Hp. assert (Forall (λ s, plain s) [AssignStatement (PathField <$> keys) None TokenAssign e]) as Hpl.
  { apply Forall_singleton. destruct keys as [|key keys]; [done|]. cbn [fmap list_fmap plain]. rewrite Hc.
    apply andb_prop_intro. split; [|done]. apply andb_prop_intro. split; [|done]. clear. induction keys; [done|exact IHkeys]. }
  pose proof (statements_run _ proxy Hpl Hp) as Hrun. cbn [tree_statements tree_statement literal_update] in Hrun.
  rewrite Hc in Hrun. cbn [default from_option] in Hrun.
  change (literal_update TokenAssign (id x)) with (λ _ : any, Ok x) in Hrun.
  destruct (way_open keys (AMap proxy)) eqn:Hw.
  - destruct (update_fields keys x (AMap proxy)) as (t & E & Hat & Hothers); [by rewrite Hw|]. exists t. by rewrite E in Hrun.
  - exists (AMap proxy). split; [|done]. by rewrite update_blocked in Hrun.
Qed.

(** ** Indices that are too large *)

Lemma extend_panics todo : ∀ h l n,
  (n ≤ length (get_array h l))%nat → Z.of_nat (length (get_array h l)) ≤ maxItems → maxItems < Z.of_nat (n + todo) →
  extend todo l n h = Panic growslice_panic.
Proof using rts.
  induction todo as [|todo IH]; intros h l n Hn Hl Ht; [lia|]. cbn [extend].
  destruct (Nat.ltb_spec n (length (get_array h l))) as [Hlt|Hge].
  - unfold mbind, M_bind, put. cbn [cells fresh].
    assert (get_array (mkStore (<[l:=OArray (<[n:=VNil]> (get_array h l))]> (cells h)) (fresh h)) l = <[n:=VNil]> (get_array h l)) as Hg.
    { unfold get_array at 1. cbn. by rewrite lookup_insert_eq. }
    apply IH; rewrite ?Hg, ?length_insert; lia.
  - pose proof (growslice_enough (length (get_array h l)) (S n)) as Hc. destruct (Z.ltb_spec maxItems (Z.of_nat (growslice (length (get_array h l)) (S n)))); [done|].
    set (c := growslice _ _) in *. unfold mbind, M_bind, alloc.
    set (items := take n (get_array h l) ++ replicate (c - n) VNil).
    assert (length items = c) as Hi by (unfold items; rewrite length_app, length_take, length_replicate; lia).
    assert (get_array (mkStore (<[fresh h:=OArray items]> (cells h)) (S (fresh h))) (fresh h) = items) as Hg.
    { unfold get_array at 1. cbn. by rewrite lookup_insert_eq. }
    apply IH; rewrite ?Hg, ?Hi; lia.
Qed.

Lemma repm_mget_None h es m L key : repm h es m L → mget m key = None → vindex es key = VNil.
Proof.
  intros Hr. unfold vindex. induction Hr as [|k v es t m L0 L' Hv Hes IH]; [done|]. cbn [mget]. by case_bool_decide.
Qed.

(** A constant that is assigned to an item of a new array, at an index that the runtime
    cannot fill an array up to: the array is filled without a check of the index, and the
    runtime panics. *)
Theorem override_index_panics key i e x proxy :
  canonical (AMap proxy) → mget proxy key = None → constant e = Some x → maxItems ≤ i →
  run_statements [AssignStatement [PathField key; PathIndex i] None TokenAssign e] proxy = Panic growslice_panic.
Proof.
  intros Hcan Hkey Hc Hi. assert (bounded (mkStore ∅ 0)) as Hb by (by intros l [o Ho]).
  destruct (alloc_tree_rep (AMap proxy) Hcan _ Hb) as (v & h & L & E & C & R).
  inversion R as [| |l es m L' Hl Hs Hm]; subst; [done|]. pose proof (change_bounded _ _ _ _ C) as Hbh.
  destruct (single_constant e x (MapRef l) h Hc Hbh) as (w & h1 & Lv & E1 & C1 & R1 & Hno).
  assert (l < fresh h)%nat as Hlt by (apply Hbh; rewrite Hl; by eexists).
  assert (cells h1 !! l = Some (OMap es)) as Hl1 by (rewrite (change_others _ _ _ _ C1); [done|done|apply not_elem_of_nil]).
  unfold run_statements. rewrite (M_bind_ok _ _ _ _ _ E).
  assert (assign_apply [PathField key; PathIndex i] None TokenAssign e l h = Panic growslice_panic) as Hp.
  { unfold assign_apply. rewrite (M_bind_ok _ _ _ _ _ E1), Hno. unfold run_update, update_root, wrap_error.
    cbn [updateOverridePath]. unfold mbind, M_bind, map_entries, mret, M_ret, get_map. rewrite Hl1.
    rewrite (repm_mget_None h es proxy L' key Hm Hkey). 
    change (alloc_slice 0 [] h1) with (@Ret (result (val * store)) (Ok (Slice (fresh h1) 0, mkStore (<[fresh h1 := OArray []]> (cells h1)) (S (fresh h1))))).
    unfold maxItems in *. rewrite !(proj2 (Z.ltb_ge i 0)) by lia. rewrite extend_panics; [done|cbn; lia| |].
    - unfold get_array. cbn. rewrite lookup_insert_eq. cbn. unfold maxItems. lia.
    - unfold maxItems. lia. }
  assert (∀ A (m : M A), (_ ← Apply [AssignStatement [PathField key; PathIndex i] None TokenAssign e] l; m) h = Panic growslice_panic) as Hk.
  { intros A m. cbn [Apply statement_apply]. unfold mbind, M_bind. by rewrite Hp. }
  by rewrite Hk.
Qed.
End statements.

(** ** Runs *)

Module ExprExamples.
#[export] Instance printable : Unicode := λ _, true.
#[export] Instance example_lib : ExprLib :=
  {| Regexp := string; regexp_Compile := Ok; MatchString re s := bool_decide (re = s);
     ReplaceAllString re s r := if bool_decide (re = s) then r else s; yaml_Marshal t := Ok (Sprint t) |}.

(** A runtime that makes arrays as large as they must be, and ranges over maps in the
    order of their keys; and one that doubles them and ranges backwards. *)
Definition forwards : GoRuntime := {| growslice c n := n; map_range m := m |}.
Definition backwards : GoRuntime := {| growslice c n := (n + n)%nat; map_range m := reverse m |}.

Lemma forwards_spec : GoRuntimeSpec forwards.
Proof. split; [intros c n; cbn; lia|intros c n _; cbn; lia|done]. Qed.
Lemma backwards_spec : GoRuntimeSpec backwards.
Proof. split; [intros c n; cbn; lia|intros c n _; cbn; lia|intros m; apply reverse_Permutation]. Qed.

Definition small : store := mkStore {[ 0%nat := OMap [("a", Scalar (AInt Int 1))] ]} 1.

Lemma small_points l c : ¬ points small l c.
Proof.
  intros (o & v & Ho & Hv & Hc). unfold small in Ho. cbn in Ho. apply lookup_singleton_Some in Ho as [<- <-].
  cbn in Hv. apply list_elem_of_singleton in Hv as ->. by apply not_elem_of_nil in Hc.
Qed.

Lemma small_valid : valid small.
Proof.
  split.
  - intros l [o Ho]. unfold small in Ho. cbn in Ho. apply lookup_singleton_Some in Ho as [<- _]. cbn. lia.
  - by intros l c ?%small_points.
  - intros l. constructor. by intros c ?%small_points.
Qed.

(** An update inside of an expression, at an index. *)
Definition example_update : overrideValueExpr :=
  ValueUpdateExpr [PathField "b"; PathIndex 2] TokenAssign (LiteralExpr (AInt Int 7)).


Definition example_changes : list overrideStatement :=
  [AssignStatement [PathField "b"; PathIndex 1] None TokenAssign (PathExpr [PathField "a"]); DeleteStatement [[PathField "a"]]].



(** The largest index of a text. *)
Definition huge_text : string := ".a[9223372036854775807] = 1".
Definition huge_statement : overrideStatement :=
  AssignStatement [PathField "a"; PathIndex 9223372036854775807] None TokenAssign (LiteralExpr (AInt Int 1)).

Lemma override_index_panics_witness :
  NewOverrideExpr huge_text = Ret (Ok (mkExpr huge_text [huge_statement])) ∧
  @run_statements backwards _ _ [huge_statement] [] = Panic growslice_panic.
Proof.
  split; [vm_compute; reflexivity|].
  apply (@override_index_panics backwards backwards_spec _ _ "a" 9223372036854775807 (LiteralExpr (AInt Int 1)) (AInt Int 1) []);
    [split; constructor|reflexivity|reflexivity|vm_compute; discriminate].
Defined.

Definition example_proxy : mapping := [("a", AMap [("x", AInt Int 1); ("y", AInt Int 2)]); ("l", ASeq [AStr "p"])].

Definition example_statements : list overrideStatement :=
  [AssignStatement [PathField "a"; PathWildcard] None TokenAddAssign (LiteralExpr (AInt Int 10));
   AssignStatement [PathField "l"; PathIndex 2] None TokenAssign (LiteralExpr (AStr "q"));
   DeleteStatement [[PathField "a"; PathField "x"]]].

Lemma example_plain : Forall (λ s, plain s) example_statements.
Proof. repeat constructor. Qed.

Lemma example_canonical : canonical (AMap example_proxy).
Proof. cbn. repeat split; repeat constructor. Qed.

Lemma override_statements_refine_witness :
  Forall (λ s, plain s) example_statements ∧ canonical (AMap example_proxy) ∧
  @run_statements backwards _ _ example_statements example_proxy =
    Ret (Ok (AMap [("a", AMap [("y", AInt Int 12)]); ("l", ASeq [AStr "p"; ANil; AStr "q"])])).
Proof.
  split; [exact example_plain|]. split; [exact example_canonical|].
  pose proof (@override_statements_refine backwards backwards_spec _ _ example_statements example_proxy example_plain example_canonical) as Hr.
  vm_compute in Hr |- *. exact Hr.
Defined.

Lemma override_assign_field_witness :
  canonical (AMap example_proxy) ∧ way_open ["n"; "m"] (AMap example_proxy) ∧
  ∃ t, @run_statements backwards _ _ [AssignStatement (PathField <$> ["n"; "m"]) None TokenAssign (LiteralExpr (ABool true))] example_proxy = Ret (Ok t) ∧
    field_at ["n"; "m"] t = ABool true ∧
    ∀ keys', ¬ ["n"; "m"] `prefix_of` keys' → ¬ keys' `prefix_of` ["n"; "m"] → field_at keys' t = field_at keys' (AMap example_proxy).
Proof.
  split; [exact example_canonical|]. split; [exact I|].
  refine (@override_assign_field backwards backwards_spec _ _ ["n"; "m"] (LiteralExpr (ABool true)) (ABool true) example_proxy _ eq_refl example_canonical).
  discriminate.
Defined.

(** Constants are needed for this: an assignment to all values of a mapping whose
    right side is the mapping itself is refused by none of the checks, but each value is
    given what the mapping holds at that time, so that the result depends on the order in
    which the runtime ranges over the map. *)
Example override_live_right :
  GoRuntimeSpec forwards ∧ GoRuntimeSpec backwards ∧
  ∃ t t', @run_text forwards _ _ ".x[] = .x" [("x", AMap [("a", AInt Int 1); ("b", AInt Int 2)])] = Ret (Some (Ok t)) ∧
    @run_text backwards _ _ ".x[] = .x" [("x", AMap [("a", AInt Int 1); ("b", AInt Int 2)])] = Ret (Some (Ok t')) ∧
    t ≠ t'.
Proof.
  split; [exact forwards_spec|]. split; [exact backwards_spec|].
  eexists _, _. split; [vm_compute; reflexivity|]. split; [vm_compute; reflexivity|]. discriminate.
Qed.

(** Items of an array that "|=" has made of one value are one object, and are changed
    together. *)
Example update_shares :
  @run_text forwards _ _ ".a |= [., .] | .a[0].x = 1" [("a", AMap [])] =
    Ret (Some (Ok (AMap [("a", ASeq [AMap [("x", AInt Int 1)]; AMap [("x", AInt Int 1)]])]))).
Proof. vm_compute. reflexivity. Qed.

(** The mark of an expression without a result gets into the proxy. *)
Example nomatch_leaks :
  @run_text forwards _ _ ". | .new += select(false)" [] = Ret (Some (Ok (AMap [("new", ANoMatch)]))).
Proof. vm_compute. reflexivity. Qed.

(** Hexadecimal numbers are read, unless they have the digit e. *)
Example hexadecimal_numbers :
  @run_text forwards _ _ ".x = 0x1d" [] = Ret (Some (Ok (AMap [("x", AInt Int 29)]))) ∧
  @run_text forwards _ _ ".x = 0x1e" [] = Ret None.
Proof. split; vm_compute; reflexivity. Qed.

(** Integers pass through 64-bit floating point numbers. *)
Example large_integers :
  @run_text forwards _ _ ".x += 0" [("x", AInt Int 9007199254740993)] =
    Ret (Some (Ok (AMap [("x", AInt Int 9007199254740992)]))).
Proof. vm_compute. reflexivity. Qed.
End ExprExamples.
