(* ===== verification/ProxyParser.v ===== *)
(** * Proxies of a provider (src/adapter/provider/provider.go)

    [NewProxiesParser] compiles the filters of a proxy provider and gives a function that
    turns the content of a resource into proxies: the content is decrypted and decoded,
    proxies are chosen by type and name, the overrides are applied to their mappings in
    place, and the mappings are parsed.  [proxies_parser_returns]: it returns for
    every content when the conversion of share links and the parser of one proxy, which
    are arguments here, return.  [proxies_parser_selects]: without overrides the proxies
    are those that the settings ask for ([wanted]), one for each name.  [proxies_parser_repeats]: with an
    override of names a proxy that two filters ask for is there twice. *)

From Stdlib Require Import Ascii.
From S2P Require Import Prelude Wire GoStrings GoFloat Runes ExprValue ExprParse ExprStore ExprEval.
From S2P Require Import ExprParseSpec ExprStoreSpec ExprEvalSpec ExprRep ExprRefine ExprBinary ExprStatements.

(** What the parser calls: the table of Unicode case folding, the age library and the YAML
    library; and the parsers of share links and of single proxies, which are code of the
    repository that is not modelled, so that they may do anything. *)
Class ProxyLib := {
  fold_rune : Z → Z;                                           (* a rune for all that fold to each other *)
  VeritySecretKeys : string → option goerr;
  DecryptBytes : string → string → result string;
  yaml_Proxies : string → result (option (list mapping));      (* the field [proxies] *)
  ConvertsV2Ray : string → outcome (result (option (list mapping)));
  ParsedProxy : Type;
  ParseProxy : any → outcome (result ParsedProxy);
}.

Section parser.
Context {rt : GoRuntime} `{Unicode} {lib : ExprLib} {re2 : Regexp2} {plib : ProxyLib}.

(** [strings.EqualFold]. *)
Definition EqualFoldText (s t : string) : bool :=
  bool_decide (fold_rune <$> runes (sbytes s) = fold_rune <$> runes (sbytes t)).

(** What the function has captured. *)
Record proxiesParser := mkProxiesParser {
  excludeTypeArray : list string;
  excludeFilterRegs : list Pattern;
  filterRegs : list Pattern;
  filterText : string;
  parserDialerProxy : string;
  parserOverride : overrideSchema;
  ageSecretKey : string;
}.

Fixpoint compile_all (what : string) (texts : list string) : result (list Pattern) :=
  match texts with
  | [] => Ok []
  | t :: texts =>
    match Pattern_Compile t with
    | Err e => Err (ErrMsg ("invalid " +:+ what +:+ " regex: " +:+ Error e))
    | Ok re => res ← compile_all what texts; Ok (re :: res)
    end
  end.

Definition NewProxiesParser (filter excludeFilter excludeType dialerProxy : string) (override : overrideSchema)
    (secretKey : string) : result proxiesParser :=
  let types := if bool_decide (excludeType = "") then [] else Split "|" excludeType in
  excludeRegs ← (if bool_decide (excludeFilter = "") then Ok [] else compile_all "excludeFilter" (Split "`" excludeFilter));
  regs ← compile_all "filter" (Split "`" filter);
  _ ← (if bool_decide (secretKey = "") then Ok tt
       else match VeritySecretKeys secretKey with
            | Some e => Err (ErrMsg ("invalid age-secret-key: " +:+ Error e))
            | None => Ok tt
            end);
  Ok (mkProxiesParser types excludeRegs regs filter dialerProxy override secretKey).

(** [mapping[key].(string)], when there is a string. *)
Definition text_field (m : list (string * val)) (key : string) : option string :=
  match mget m key with Some (Scalar (AStr s)) => Some s | _ => None end.

(** Whether the filters choose a mapping of a type and a name: the name. *)
Definition excluded_type (p : proxiesParser) (pType : option string) : bool :=
  match excludeTypeArray p, pType with
  | [], _ => false
  | types, Some pType => existsb (EqualFoldText pType) types
  | _, None => true
  end.

Definition chosen (p : proxiesParser) (filterReg : Pattern) (pType name : option string) : option string :=
  if excluded_type p pType then None
  else
    match name with
    | Some name =>
      if existsb (λ re, Pattern_Match re name) (excludeFilterRegs p) then None
      else if negb (bool_decide (filterText p = "")) && negb (Pattern_Match filterReg name) then None
      else Some name
    | None => None
    end.

(** A call that does not touch the store. *)
Definition call {A} (o : outcome (result A)) : M A := λ h, r ← o; Ret (a ← r; Ok (a, h)).

(** The proxies and the names so far. *)
Definition parserState : Type := list ParsedProxy * list string.

Definition number_error (idx : nat) (what : string) : string := "proxy " +:+ FormatInt (Z.of_nat idx) +:+ what.

Definition parse_mapping (p : proxiesParser) (filterReg : Pattern) (idx l : nat) (st : parserState) : M parserState :=
  m ← map_entries l;
  match chosen p filterReg (text_field m "type") (text_field m "name") with
  | None => mret st
  | Some name =>
    if bool_decide (name ∈ st.2) then mret st
    else
      _ ← (if bool_decide (parserDialerProxy p = "") then mret tt
           else modify_map l (λ m, mset m "dialer-proxy" (Scalar (AStr (parserDialerProxy p)))));
      _ ← wrap_error (number_error idx " override error") (schema_Apply (parserOverride p) l);
      t ← read (MapRef l);
      proxy ← wrap_error (number_error idx " error") (call (ParseProxy t));
      mret (st.1 ++ [proxy], name :: st.2)
  end.

Fixpoint parse_mappings (p : proxiesParser) (filterReg : Pattern) (idx : nat) (ls : list nat) (st : parserState) : M parserState :=
  match ls with
  | [] => mret st
  | l :: ls => st ← parse_mapping p filterReg idx l st; parse_mappings p filterReg (S idx) ls st
  end.

Fixpoint parse_filters (p : proxiesParser) (regs : list Pattern) (ls : list nat) (st : parserState) : M parserState :=
  match regs with
  | [] => mret st
  | filterReg :: regs => st ← parse_mappings p filterReg 0 ls st; parse_filters p regs ls st
  end.

(** The mappings of a decoded resource. *)
Fixpoint alloc_mappings (ms : list mapping) : M (list nat) :=
  match ms with
  | [] => mret []
  | m :: ms =>
    v ← alloc_tree (AMap m);
    ls ← alloc_mappings ms;
    mret (match v with MapRef l => l :: ls | _ => ls end)
  end.

Definition decode_proxies (p : proxiesParser) (buf : string) : outcome (result (list mapping)) :=
  match DecryptBytes buf (ageSecretKey p) with
  | Err e => Ret (Err (ErrMsg ("decrypt config error: " +:+ Error e)))
  | Ok buf =>
    decoded ← (match yaml_Proxies buf with
               | Ok proxies => Ret (Ok proxies)
               | Err e =>
                 converted ← ConvertsV2Ray buf;
                 Ret (match converted with
                      | Ok proxies => Ok proxies
                      | Err e1 => Err (ErrMsg (Error e +:+ ", " +:+ Error e1))
                      end)
               end);
    Ret (match decoded with
         | Err e => Err e
         | Ok None => Err (ErrMsg "file must have a `proxies` field")
         | Ok (Some proxies) => Ok proxies
         end)
  end.

Definition parse_proxies (p : proxiesParser) (buf : string) : M (list ParsedProxy) :=
  ms ← call (decode_proxies p buf);
  ls ← alloc_mappings ms;
  st ← parse_filters p (filterRegs p) ls ([], []);
  match st.1 with
  | [] =>
    fail (if bool_decide (filterText p = "") then "file doesn't have any proxy"
          else "doesn't match any proxy, please check your filter")
  | proxies => mret proxies
  end.

(** ** No content makes the parser panic *)

#[local] Abbreviation all := (λ _ : nat, True).

Section keeps.
Context `{Stops} {rts : GoRuntimeSpec rt}.

(** Code that returns a valid store, when started on a valid store with [P]. *)
Definition keeps {A} (n : nat) (P : store → Prop) (m : M A) (Q : A → store → Prop) : Prop :=
  ∀ h, (n ≤ fresh h)%nat → valid h → P h →
  match m h with
  | Ret (Ok (a, h')) => valid h' ∧ (fresh h ≤ fresh h')%nat ∧ Q a h'
  | Ret (Err _) => True
  | Panic msg => stops msg
  | OutOfFuel => False
  end.

Lemma inv_all h : valid h → inv all all h.
Proof. intros Hh. by split. Qed.

Lemma keeps_safe {A} `{Within A} n P (m : M A) : safe n all all m → keeps n P m (λ a h', within (inside all (fresh h')) a).
Proof.
  intros Hm h Hn Hh _. specialize (Hm h Hn (inv_all h Hh)). destruct (m h) as [[[a h']|e]| |]; [|done..].
  destruct Hm as (Hi & Hle & _ & Ha). split_and!; [apply Hi|done|done].
Qed.

Lemma keeps_bind {A B} n P (m : M A) (f : A → M B) Q R :
  keeps n P m Q → (∀ a n', (n ≤ n')%nat → keeps n' (Q a) (f a) R) → keeps n P (m ≫= f) R.
Proof.
  intros Hm Hf h Hn Hh HP. specialize (Hm h Hn Hh HP). unfold mbind, M_bind.
  destruct (m h) as [[[a h']|e]| |]; [|done..]. destruct Hm as (Hh' & Hle & Ha).
  specialize (Hf a (fresh h') ltac:(lia) h' ltac:(lia) Hh' Ha).
  destruct (f a h') as [[[b h'']|e]| |]; [|done..]. destruct Hf as (? & ? & ?). split_and!; [done|lia|done].
Qed.

Lemma keeps_weaken {A} n (P P' : store → Prop) (m : M A) (Q Q' : A → store → Prop) :
  keeps n P m Q → (∀ h, P' h → P h) → (∀ a h, Q a h → Q' a h) → keeps n P' m Q'.
Proof.
  intros Hm HP HQ h Hn Hh Hp. specialize (Hm h Hn Hh (HP h Hp)). destruct (m h) as [[[a h']|e]| |]; [|done..].
  destruct Hm as (? & ? & ?). split_and!; auto.
Qed.

Lemma keeps_any {A} `{Within A} n P (m : M A) : safe n all all m → keeps n P m (λ _ _, True).
Proof. intros Hm. eapply keeps_weaken; [apply (keeps_safe n P m Hm)|done|done]. Qed.

Lemma keeps_ret {A} n (P : store → Prop) (a : A) (Q : A → store → Prop) : (∀ h, P h → Q a h) → keeps n P (mret a) Q.
Proof. intros HQ h Hn Hh HP. split_and!; [done|lia|auto]. Qed.

Lemma keeps_then {A} n P (m : M unit) (k : M A) R :
  keeps n P m (λ _, P) → (∀ n', (n ≤ n')%nat → keeps n' P k R) → keeps n P (_ ← m; k) R.
Proof. intros Hm Hk. eapply keeps_bind; [exact Hm|]. intros u. exact Hk. Qed.

(** The mapping is in the store, and has a name that is a text. *)
Definition named (l : nat) (h : store) : Prop := ∃ s, mget (get_map h l) "name" = Some (Scalar (AStr s)).

Lemma inside_all n l : (l < n)%nat → inside all n (MapRef l).
Proof. intros Hl c Hc. apply list_elem_of_singleton in Hc as ->. done. Qed.

Lemma get_map_put h l m : get_map (mkStore (<[l := OMap m]> (cells h)) (fresh h)) l = m.
Proof. unfold get_map. cbn. by rewrite lookup_insert_eq. Qed.

(** A field other than the name is set, or the name to a text. *)
Lemma keeps_set n l key a :
  (l < n)%nat → key ≠ "name" ∨ (∃ s, a = AStr s) →
  keeps n (named l) (modify_map l (λ m, mset m key (Scalar a))) (λ _, named l).
Proof.
  intros Hl Hk h Hn Hh [s Hs].
  pose proof (safe_set_scalar n all all l key a (inside_all n l Hl) ltac:(done) h Hn (inv_all h Hh)) as (Hi & Hle & _ & _).
  split_and!; [apply Hi|done|]. unfold named. rewrite get_map_put. destruct (decide (key = "name")) as [->|Hne].
  - destruct Hk as [|[s' ->]]; [done|]. exists s'. apply mget_mset.
  - exists s. rewrite mget_mset_ne by congruence. done.
Qed.

Lemma keeps_set_some {A} n l key (f : A → any) o : (l < n)%nat → key ≠ "name" → keeps n (named l) (set_some l key f o) (λ _, named l).
Proof. intros Hl Hk. destruct o; [by apply keeps_set; [|left]|by apply keeps_ret]. Qed.

Lemma keeps_set_fields n l o : (l < n)%nat → keeps n (named l) (set_fields o l) (λ _, named l).
Proof.
  intros Hl. unfold set_fields. repeat (apply keeps_then; [apply keeps_set_some; [lia|done]|]; intros ? ?).
  apply keeps_set_some; [lia|done].
Qed.

Lemma keeps_names n l patterns : (l < n)%nat → keeps n (named l) (replace_names l patterns) (λ _, named l).
Proof.
  intros Hl. revert n Hl. induction patterns as [|[pattern target] patterns IH]; intros n Hl; [by apply keeps_ret|].
  cbn [replace_names]. intros h Hn Hh [s Hs]. unfold mbind, M_bind, map_entries, vindex. rewrite Hs. cbn [default from_option id].
  destruct (Pattern_Replace pattern s target) as [name|e]; [|done].
  apply (keeps_then n (named l) _ (replace_names l patterns) (λ _, named l)); [by apply keeps_set; [|right; eexists]| |done|done|by exists s].
  intros n' Hn'. apply IH. lia.
Qed.

Lemma safe_add_to_name n l f : (l < n)%nat → safe n all all (add_to_name l f).
Proof.
  intros Hl. unfold add_to_name. step; [apply safe_map_entries; by apply inside_all|]. step; [step|].
  apply safe_set_scalar; [apply inside_all; lia|done].
Qed.

(** The values of [xray-mux] hold no other objects. *)
Definition flat_mux (o : overrideSchema) : Prop :=
  match XrayMux o with Some mux => Forall (λ e, locs e.2 = []) mux | None => True end.

Lemma safe_set_mux n l o : (l < n)%nat → flat_mux o → safe n all all (set_mux o l).
Proof.
  intros Hl Hf. unfold set_mux, flat_mux in *. destruct (XrayMux o) as [mux|]; [|by step].
  step; [apply safe_map_entries; by apply inside_all|]. destruct (isRawTCPVless _).
  - eapply safe_ext, (safe_put_back n' all all l (λ _, VNil) (λ _, alloc_map mux) (λ v h, OMap (mset (get_map h l) "xray-mux" v)));
      [|done|lia|done| |by right|].
    + intros h. unfold mbind, M_bind, put_back, modify_map. by destruct (alloc_map mux h) as [[[v h']|e]| |].
    + intros n2 D v _ _. apply safe_alloc_map. eapply Forall_impl; [exact Hf|]. intros [k w] Hw. split; [done|].
      intros c Hc. change (c ∈ locs w) in Hc. change (locs w = []) in Hw. rewrite Hw in Hc. by apply not_elem_of_nil in Hc.
    + intros h v w [->|Hw]%elem_of_mset; [by left|right; left; by apply get_map_at].
  - apply safe_delete_key; [apply inside_all; lia|done].
Qed.

(** The indices in the expressions of an override are small. *)
Definition small_schema (o : overrideSchema) : bool :=
  forallb (λ e, forallb small_statement (statements e)) (OverrideExprs o).

Definition small_enough (o : overrideSchema) : Prop := small_schema o = true ∨ stops growslice_panic.

Lemma safe_exprs n l idx exprs :
  Forall (λ e, forallb small_statement (statements e) = true ∨ stops growslice_panic) exprs →
  (l < n)%nat → safe n all all (apply_exprs idx exprs l).
Proof using rts.
  intros Hs. revert n idx. induction Hs as [|e exprs He _ IH]; intros n idx Hl; cbn [apply_exprs]; [by step|].
  step; [apply safe_wrap_error, safe_Apply; [done|by apply inside_all]|]. apply IH. lia.
Qed.

Lemma keeps_schema n l o : (l < n)%nat → flat_mux o → small_enough o → keeps n (named l) (schema_Apply o l) (λ _ _, True).
Proof.
  intros Hl Hf Hs. unfold schema_Apply. apply keeps_then; [by apply keeps_set_fields|]. intros n1 Hn1.
  unfold change_name. eapply (keeps_bind n1 _ _ _ (λ _ _, True)); [|intros _ n2 Hn2].
  - apply keeps_then; [apply keeps_names; lia|]. intros n2 Hn2. eapply (keeps_bind n2 _ _ _ (λ _ _, True)); [|intros _ n3 Hn3].
    + apply keeps_any.
      destruct (AdditionalPrefix o); [apply safe_add_to_name; lia|by step].
    + apply keeps_any.
      destruct (AdditionalSuffix o); [apply safe_add_to_name; lia|by step].
  - apply keeps_any. step; [apply safe_exprs; [by apply small_all|lia]|]. apply safe_set_mux; [lia|done].
Qed.

Lemma keeps_wrap {A} n P prefix (m : M A) Q : keeps n P m Q → keeps n P (wrap_error prefix m) Q.
Proof. intros Hm h Hn Hh HP. specialize (Hm h Hn Hh HP). unfold wrap_error. by destruct (m h) as [[[a h']|e]| |]. Qed.

(** What the parser calls returns. *)
Definition calls_return : Prop :=
  (∀ buf, ∃ r, ConvertsV2Ray buf = Ret r) ∧ (∀ t, ∃ r, ParseProxy t = Ret r).

Section calls.
Context (p : proxiesParser) (Hf : flat_mux (parserOverride p)) (Hs : small_enough (parserOverride p)) (Hcalls : calls_return).

Lemma keeps_parse_mapping n filterReg idx l st :
  (l < n)%nat → keeps n (λ _, True) (parse_mapping p filterReg idx l st) (λ _ _, True).
Proof.
  intros Hl h Hn Hh _. unfold parse_mapping. unfold mbind at 1, M_bind at 1, map_entries.
  destruct (chosen p filterReg _ _) as [name|] eqn:Ech; [|by apply (keeps_ret n (λ _, True))].
  case_bool_decide; [by apply (keeps_ret n (λ _, True))|].
  assert (named l h) as Hnamed.
  { unfold chosen, text_field in Ech. destruct (excluded_type _ _); [done|].
    destruct (mget (get_map h l) "name") as [[[]| |]|] eqn:E; try done. by eexists. }
  revert Hnamed. apply (keeps_then n (named l)); [|intros n1 Hn1|done|done].
  { case_bool_decide; [by apply keeps_ret|]. apply keeps_set; [done|by left]. }
  eapply (keeps_bind n1 _ _ _ (λ _ _, True)); [apply keeps_wrap, keeps_schema; [lia|done|done]|]. intros _ n2 Hn2.
  eapply (keeps_bind n2 _ _ _ (λ _ _, True)); [apply keeps_any, safe_read|]. intros t n3 Hn3.
  eapply (keeps_bind n3 _ _ _ (λ _ _, True)); [|intros proxy n4 Hn4; by apply keeps_ret].
  apply keeps_wrap. intros h' Hn' Hh' _. unfold call. destruct (proj2 Hcalls t) as [[proxy|e] ->]; by run.
Qed.

Lemma keeps_parse_mappings n filterReg ls : Forall (λ l, (l < n)%nat) ls →
  ∀ idx st, keeps n (λ _, True) (parse_mappings p filterReg idx ls st) (λ _ _, True).
Proof.
  intros Hls. revert n Hls. induction ls as [|l ls IH]; intros n Hls idx st; cbn [parse_mappings]; [by apply keeps_ret|].
  apply Forall_cons in Hls as [Hl Hls]. eapply (keeps_bind n _ _ _ (λ _ _, True)); [by apply keeps_parse_mapping|].
  intros st' n' Hn'. apply IH. eapply Forall_impl; [done|]. cbn. lia.
Qed.

Lemma keeps_parse_filters n regs ls : Forall (λ l, (l < n)%nat) ls →
  ∀ st, keeps n (λ _, True) (parse_filters p regs ls st) (λ _ _, True).
Proof.
  intros Hls. revert n Hls. induction regs as [|filterReg regs IH]; intros n Hls st; cbn [parse_filters]; [by apply keeps_ret|].
  eapply (keeps_bind n _ _ _ (λ _ _, True)); [by apply keeps_parse_mappings|].
  intros st' n' Hn'. apply IH. eapply Forall_impl; [done|]. cbn. lia.
Qed.

Lemma keeps_alloc_mappings n ms : keeps n (λ _, True) (alloc_mappings ms) (λ ls h, Forall (λ l, (l < fresh h)%nat) ls).
Proof.
  revert n. induction ms as [|m ms IH]; intros n; cbn [alloc_mappings]; [by apply keeps_ret|].
  eapply keeps_bind; [apply keeps_safe, safe_alloc_tree|]. intros v n' Hn' h Hn Hh Hv.
  specialize (IH (fresh h) h ltac:(lia) Hh I). unfold mbind, M_bind. destruct (alloc_mappings ms h) as [[[ls h']|e]| |]; [|done..].
  destruct IH as (Hh' & Hle & Hls). split_and!; [done|done|]. destruct v as [a|l k|l]; [done..|]. constructor; [|done].
  destruct (Hv l) as [_ Hl]; [by left|]. lia.
Qed.

Lemma keeps_parse_proxies n buf : keeps n (λ _, True) (parse_proxies p buf) (λ _ _, True).
Proof using Hf Hs Hcalls rts.
  unfold parse_proxies. eapply (keeps_bind n _ _ _ (λ _ _, True)).
  { intros h Hn Hh _. unfold call, decode_proxies. destruct (DecryptBytes _ _) as [buf'|]; [|done].
    destruct (yaml_Proxies buf') as [[]|]; [done..|]. by destruct (proj1 Hcalls buf') as [[[]|] ->]. }
  intros ms n1 Hn1. eapply keeps_bind; [eapply keeps_weaken; [apply keeps_alloc_mappings|done|done]|].
  intros ls n2 Hn2 h' Hn' Hh' Hls.
  apply (keeps_bind (fresh h') (λ _, True) _ _ (λ _ _, True)); [by apply keeps_parse_filters| |lia|done|done].
  intros st n3 Hn3. destruct st.1; [done|by apply keeps_ret].
Qed.
End calls.
End keeps.


(** ** Without overrides *)

Definition no_override : overrideSchema :=
  mkSchema None None None None None None None None None None None None None None None [] [].

Definition tree_text (m : mapping) (key : string) : option string :=
  match mget m key with Some (AStr s) => Some s | _ => None end.

(** The name by which a filter chooses a mapping. *)
Definition picks (p : proxiesParser) (filterReg : Pattern) (m : mapping) : option string :=
  chosen p filterReg (tree_text m "type") (tree_text m "name").

Lemma picks_name p filterReg m name : picks p filterReg m = Some name → tree_text m "name" = Some name.
Proof.
  unfold picks, chosen. destruct (excluded_type _ _); [done|]. destruct (tree_text m "name"); [|done].
  destruct (existsb _ _); [done|]. by destruct (_ && _).
Qed.

(** What the parser makes of the mappings, on trees, without a store. *)
Definition and_then {A B} (o : outcome (result A)) (f : A → outcome (result B)) : outcome (result B) :=
  r ← o;
  match r with Ok a => f a | Err e => Ret (Err e) end.

Definition select_mapping (p : proxiesParser) (filterReg : Pattern) (idx : nat) (m : mapping) (st : parserState) :
    outcome (result parserState) :=
  match picks p filterReg m with
  | None => Ret (Ok st)
  | Some name =>
    if bool_decide (name ∈ st.2) then Ret (Ok st)
    else
      r ← ParseProxy (AMap m);
      Ret (match r with
           | Ok proxy => Ok (st.1 ++ [proxy], name :: st.2)
           | Err e => Err (ErrMsg (number_error idx " error" +:+ ": " +:+ Error e))
           end)
  end.

Fixpoint select_mappings p filterReg (idx : nat) (ms : list mapping) (st : parserState) : outcome (result parserState) :=
  match ms with
  | [] => Ret (Ok st)
  | m :: ms => and_then (select_mapping p filterReg idx m st) (select_mappings p filterReg (S idx) ms)
  end.

Fixpoint select_filters p (regs : list Pattern) (ms : list mapping) (st : parserState) : outcome (result parserState) :=
  match regs with
  | [] => Ret (Ok st)
  | filterReg :: regs => and_then (select_mappings p filterReg 0 ms st) (select_filters p regs ms)
  end.

Lemma and_then_ok {A B} (o : outcome (result A)) (f : A → outcome (result B)) b :
  and_then o f = Ret (Ok b) → ∃ a, o = Ret (Ok a) ∧ f a = Ret (Ok b).
Proof. unfold and_then. destruct o as [[a|e]| |]; try done. run. by exists a. Qed.

(** Code that does not change the store, and what it is without one. *)
Definition on_store {A} (h : store) (o : outcome (result A)) : outcome (result (A * store)) := call o h.

Lemma on_store_then {A B} (h : store) (m : M A) (f : A → M B) (o : outcome (result A)) (g : A → outcome (result B)) :
  m h = on_store h o → (∀ a, f a h = on_store h (g a)) → (m ≫= f) h = on_store h (and_then o g).
Proof.
  intros Hm Hf. unfold mbind, M_bind, on_store, call, and_then in *. rewrite Hm. destruct o as [[a|e]| |]; try done. run. apply Hf.
Qed.

Lemma repm_text h es m L key : repm h es m L → text_field es key = tree_text m key.
Proof.
  intros Hr. unfold text_field, tree_text. induction Hr as [|k v es t m L0 L' Hv Hes IH]; [done|]. cbn [mget].
  case_bool_decide; [|done]. destruct Hv as [a Ha|l n arr ts L Hl Hn Hm|l es' m' L Hl Hs Hm]; [|done..].
  by destruct a.
Qed.

(** The mapping at a location, held once. *)
Definition holds (h : store) (l : nat) (m : mapping) : Prop := ∃ L, rep h (MapRef l) (AMap m) L ∧ NoDup L.

Section plain.
Context (p : proxiesParser) (h : store).
Context (Hover : parserOverride p = no_override) (Hdialer : parserDialerProxy p = "") (Hb : bounded h).

Lemma parse_mapping_plain filterReg idx l m st :
  holds h l m → parse_mapping p filterReg idx l st h = on_store h (select_mapping p filterReg idx m st).
Proof using Hover Hdialer Hb.
  intros (L & Hr & Hnd). pose proof Hr as Hr'. inversion Hr' as [| |l' es m' L' Hl Hs Hm]; subst.
  unfold parse_mapping, select_mapping, picks.
  rewrite (M_bind_ok _ _ _ _ _ (map_entries_at h l es Hl)), !(repm_text h es m L') by done.
  destruct (chosen _ _ _ _) as [name|]; [|done]. case_bool_decide; [done|]. rewrite Hover, Hdialer.
  assert (∀ k : M parserState, (_ ← (if bool_decide ("" = "") then mret tt else modify_map l (λ m, mset m "dialer-proxy" (Scalar (AStr ""))));
    _ ← wrap_error (number_error idx " override error") (schema_Apply no_override l); k) h = k h) as -> by done.
  rewrite (M_bind_ok _ _ _ _ _ (read_rep h _ _ _ Hb Hr Hnd)). unfold wrap_error, call, on_store, mbind, M_bind.
  by destruct (ParseProxy (AMap m)) as [[]| |].
Qed.

Lemma parse_mappings_plain filterReg ls ms : Forall2 (holds h) ls ms → ∀ idx st,
  parse_mappings p filterReg idx ls st h = on_store h (select_mappings p filterReg idx ms st).
Proof using Hover Hdialer Hb.
  induction 1 as [|l m ls ms Hl Hls IH]; intros idx st; [done|]. cbn [parse_mappings select_mappings].
  apply on_store_then; [by apply parse_mapping_plain|]. intros st'. apply IH.
Qed.

Lemma parse_filters_plain regs ls ms : Forall2 (holds h) ls ms → ∀ st,
  parse_filters p regs ls st h = on_store h (select_filters p regs ms st).
Proof using Hover Hdialer Hb.
  intros Hls. induction regs as [|filterReg regs IH]; intros st; [done|]. cbn [parse_filters select_filters].
  apply on_store_then; [by apply parse_mappings_plain|]. intros st'. apply IH.
Qed.
End plain.

Lemma alloc_mappings_rep ms : Forall (λ m, canonical (AMap m)) ms → ∀ h, bounded h →
  ∃ ls h', alloc_mappings ms h = Ret (Ok (ls, h')) ∧ bounded h' ∧ (fresh h ≤ fresh h')%nat ∧
    (∀ l, (l < fresh h)%nat → cells h' !! l = cells h !! l) ∧ Forall2 (holds h') ls ms.
Proof.
  induction 1 as [|m ms Hm Hms IH]; intros h Hb; cbn [alloc_mappings]; [exists [], h; by split_and!|].
  destruct (alloc_tree_rep (AMap m) Hm h Hb) as (v & h1 & L & E & C & R).
  destruct (IH h1 (change_bounded _ _ _ _ C)) as (ls & h2 & E2 & Hb2 & Hle & Hsame & Hls).
  inversion R as [| |l es m' L' Hl Hs Hr]; subst; [done|]. exists (l :: ls), h2.
  rewrite (M_bind_ok _ _ _ _ _ E), (M_bind_ok _ _ _ _ _ E2). pose proof (change_fresh _ _ _ _ C).
  split_and!; [done|done|lia| |constructor; [|done]].
  - intros l' Hl'. rewrite Hsame by lia. apply C; [done|apply not_elem_of_nil].
  - exists (l :: L'). split; [|apply C]. eapply rep_frame; [done|]. intros l' Hl'. apply Hsame.
    by apply (change_new _ _ _ _ C).
Qed.

(** The mappings that have been parsed so far. *)
Definition selected (p : proxiesParser) (regs : list Pattern) (ms picked : list mapping) (st : parserState) : Prop :=
  Forall2 (λ m proxy, ParseProxy (AMap m) = Ret (Ok proxy)) picked st.1 ∧
  NoDup ((λ m, tree_text m "name") <$> picked) ∧
  (∀ m, m ∈ picked → m ∈ ms ∧ ∃ filterReg, filterReg ∈ regs ∧ is_Some (picks p filterReg m)) ∧
  (∀ name, name ∈ st.2 ↔ Some name ∈ ((λ m, tree_text m "name") <$> picked)).

Lemma select_mapping_selected p regs ms picked st filterReg idx m st' :
  selected p regs ms picked st → filterReg ∈ regs → m ∈ ms → select_mapping p filterReg idx m st = Ret (Ok st') →
  ∃ picked', selected p regs ms picked' st' ∧ st.2 ⊆ st'.2 ∧ ∀ name, picks p filterReg m = Some name → name ∈ st'.2.
Proof.
  intros (Hpar & Hnd & Hin & Hnames) Hreg Hm. unfold select_mapping.
  destruct (picks p filterReg m) as [name|] eqn:Ep; [|intros [= <-]; by exists picked].
  case_bool_decide as Hseen; [intros [= <-]; exists picked; split_and!; [done|done|by intros ? [= <-]]|].
  destruct (ParseProxy (AMap m)) as [[proxy|]| |] eqn:Eproxy; try done. run. intros [= <-].
  apply picks_name in Ep as Hn. exists (picked ++ [m]). split_and!; [split_and!|set_solver|intros ? [= <-]; left].
  - apply Forall2_app; [done|]. by constructor.
  - rewrite fmap_app. apply NoDup_app. split_and!; [done| |apply NoDup_singleton]. intros o Ho.
    cbn. rewrite Hn, list_elem_of_singleton. intros ->. by apply Hseen, Hnames.
  - intros m' [Hm'|Hm']%elem_of_app; [by apply Hin|]. apply list_elem_of_singleton in Hm' as ->.
    split; [done|]. exists filterReg. by rewrite Ep.
  - intros n. cbn. rewrite fmap_app, elem_of_cons, elem_of_app. cbn. rewrite Hn, list_elem_of_singleton, Hnames. naive_solver.
Qed.

Lemma select_mappings_selected p regs all_ms filterReg : filterReg ∈ regs → ∀ ms idx picked st st',
  ms ⊆ all_ms → selected p regs all_ms picked st → select_mappings p filterReg idx ms st = Ret (Ok st') →
  ∃ picked', selected p regs all_ms picked' st' ∧ st.2 ⊆ st'.2 ∧
    ∀ m name, m ∈ ms → picks p filterReg m = Some name → name ∈ st'.2.
Proof.
  intros Hreg. induction ms as [|m ms IH]; intros idx picked st st' Hms Hsel; cbn [select_mappings].
  { intros [= <-]. exists picked. split_and!; [done|done|by intros ? ? ?%not_elem_of_nil]. }
  intros (st1 & E1 & E2)%and_then_ok.
  destruct (select_mapping_selected p regs all_ms picked st filterReg idx m st1 Hsel Hreg ltac:(apply Hms; left) E1) as (picked1 & Hsel1 & Hsub1 & Hn1).
  destruct (IH (S idx) picked1 st1 st' ltac:(set_solver) Hsel1 E2) as (picked2 & Hsel2 & Hsub2 & Hn2).
  exists picked2. split_and!; [done|set_solver|]. intros m' name [->|Hm']%elem_of_cons Hp; [apply Hsub2; by apply Hn1|by eapply Hn2].
Qed.

Lemma select_filters_selected p all_regs ms : ∀ regs picked st st',
  regs ⊆ all_regs → selected p all_regs ms picked st → select_filters p regs ms st = Ret (Ok st') →
  ∃ picked', selected p all_regs ms picked' st' ∧ st.2 ⊆ st'.2 ∧
    ∀ filterReg m name, filterReg ∈ regs → m ∈ ms → picks p filterReg m = Some name → name ∈ st'.2.
Proof.
  induction regs as [|filterReg regs IH]; intros picked st st' Hregs Hsel; cbn [select_filters].
  { intros [= <-]. exists picked. split_and!; [done|done|by intros ? ? ? ?%not_elem_of_nil]. }
  intros (st1 & E1 & E2)%and_then_ok.
  destruct (select_mappings_selected p all_regs ms filterReg ltac:(set_solver) ms _ picked st st1 ltac:(done) Hsel E1) as (picked1 & Hsel1 & Hsub1 & Hn1).
  destruct (IH picked1 st1 st' ltac:(set_solver) Hsel1 E2) as (picked2 & Hsel2 & Hsub2 & Hn2).
  exists picked2. split_and!; [done|set_solver|]. intros reg m name [->|Hr]%elem_of_cons Hm Hp; [apply Hsub2; by eapply Hn1|by eapply Hn2].
Qed.

(** *** What the settings ask for *)

(** Texts that differ in the case of letters only. *)
Definition same_letters (s t : string) : Prop := fold_rune <$> runes (sbytes s) = fold_rune <$> runes (sbytes t).

(** A mapping with a name, of none of the excluded types, which none of the excluding
    patterns matches and one of the filters does, as far as they are set. *)
Definition wanted (filter excludeFilter excludeType : string) (m : mapping) : Prop :=
  ∃ name, tree_text m "name" = Some name ∧
    (excludeType ≠ "" → ∃ type, tree_text m "type" = Some type ∧ ∀ t, t ∈ Split "|" excludeType → ¬ same_letters type t) ∧
    (excludeFilter ≠ "" → ∀ x re, x ∈ Split "`" excludeFilter → Pattern_Compile x = Ok re → Pattern_Match re name = false) ∧
    (filter ≠ "" → ∃ x re, x ∈ Split "`" filter ∧ Pattern_Compile x = Ok re ∧ Pattern_Match re name = true).

Lemma compile_all_ok what texts regs :
  compile_all what texts = Ok regs → Forall2 (λ x re, Pattern_Compile x = Ok re) texts regs.
Proof.
  revert regs. induction texts as [|x texts IH]; intros regs; cbn [compile_all]; [by intros [= <-]; constructor|].
  destruct (Pattern_Compile x) as [re|e] eqn:E; [|done]. intros (regs' & Hr & [= <-])%result_bind_Ok. constructor; auto.
Qed.

Lemma existsb_false {A} (f : A → bool) l : existsb f l = false ↔ ∀ x, x ∈ l → f x = false.
Proof.
  induction l as [|x l IH]; cbn; [split; [by intros _ ? ?%not_elem_of_nil|done]|].
  rewrite orb_false_iff, IH. setoid_rewrite elem_of_cons. naive_solver.
Qed.

Lemma Forall2_compiled texts regs re : Forall2 (λ x re, Pattern_Compile x = Ok re) texts regs →
  re ∈ regs ↔ ∃ x, x ∈ texts ∧ Pattern_Compile x = Ok re.
Proof.
  induction 1 as [|x re' texts regs Hx _ IH]; [setoid_rewrite elem_of_nil; naive_solver|].
  setoid_rewrite elem_of_cons. rewrite IH. naive_solver congruence.
Qed.

(** The settings of a parser. *)
Lemma parser_settings filter excludeFilter excludeType dialerProxy override secretKey p :
  NewProxiesParser filter excludeFilter excludeType dialerProxy override secretKey = Ok p →
  excludeTypeArray p = (if bool_decide (excludeType = "") then [] else Split "|" excludeType) ∧
  Forall2 (λ x re, Pattern_Compile x = Ok re) (if bool_decide (excludeFilter = "") then [] else Split "`" excludeFilter) (excludeFilterRegs p) ∧
  Forall2 (λ x re, Pattern_Compile x = Ok re) (Split "`" filter) (filterRegs p) ∧
  filterText p = filter ∧ parserDialerProxy p = dialerProxy ∧ parserOverride p = override.
Proof.
  unfold NewProxiesParser. intros (ex & He & (regs & Hr%compile_all_ok & (u & _ & [= <-])%result_bind_Ok)%result_bind_Ok)%result_bind_Ok.
  split_and!; try done. case_bool_decide; [simplify_eq; constructor|by apply compile_all_ok in He].
Qed.

Lemma Split_not_nil sep s : Split sep s ≠ [].
Proof. destruct s as [|a s]; [done|]. cbn. destruct (Ascii.eqb a sep); [done|]. by destruct (Split sep s). Qed.

Lemma excluded_type_spec p excludeType o :
  excludeTypeArray p = (if bool_decide (excludeType = "") then [] else Split "|" excludeType) →
  excluded_type p o = false ↔
  (excludeType ≠ "" → ∃ type, o = Some type ∧ ∀ t, t ∈ Split "|" excludeType → ¬ same_letters type t).
Proof.
  intros Hp. unfold excluded_type. rewrite Hp. case_bool_decide as Hex; [split; [done|by intros _]|].
  assert (∀ type, existsb (EqualFoldText type) (Split "|" excludeType) = false ↔ ∀ t, t ∈ Split "|" excludeType → ¬ same_letters type t) as Hs.
  { intros type. rewrite existsb_false. unfold EqualFoldText. by setoid_rewrite bool_decide_eq_false. }
  assert (Split "|" excludeType ≠ []) as Hne by apply Split_not_nil.
  destruct (Split "|" excludeType) as [|t ts]; [done|]. destruct o as [type|]; [rewrite Hs; naive_solver|]. split; [done|].
  intros Hw. destruct (Hw Hex) as (? & [=] & _).
Qed.

(** A filter of the parser chooses exactly the mappings that the settings ask for. *)
Lemma chosen_wanted filter excludeFilter excludeType dialerProxy override secretKey p m name :
  NewProxiesParser filter excludeFilter excludeType dialerProxy override secretKey = Ok p →
  (∃ re, re ∈ filterRegs p ∧ picks p re m = Some name) ↔
  wanted filter excludeFilter excludeType m ∧ tree_text m "name" = Some name.
Proof.
  intros (Ht & Hex & Hre & Hfilter & _)%parser_settings. unfold picks, chosen, wanted.
  pose proof (excluded_type_spec p excludeType (tree_text m "type") Ht) as Hty.
  destruct (excluded_type p (tree_text m "type")).
  { split; [by intros (? & _ & ?)|]. intros [(? & _ & Hw & _) _]. by apply Hty in Hw. }
  destruct (tree_text m "name") as [n|]; [|split; [by intros (? & _ & ?)|by intros [_ ?]]].
  assert (existsb (λ re, Pattern_Match re n) (excludeFilterRegs p) = false ↔
    (excludeFilter ≠ "" → ∀ x re, x ∈ Split "`" excludeFilter → Pattern_Compile x = Ok re → Pattern_Match re n = false)) as Hexcl.
  { rewrite existsb_false. setoid_rewrite (Forall2_compiled _ _ _ Hex). case_bool_decide; [setoid_rewrite elem_of_nil|]; naive_solver. }
  destruct (existsb _ _).
  { split; [by intros (? & _ & ?)|]. intros [(n' & [= <-] & _ & Hw & _) _]. by apply Hexcl in Hw. }
  rewrite Hfilter. split.
  - intros (re & Hin & Hp). apply (Forall2_compiled _ _ _ Hre) in Hin as (x & Hx & Hc).
    destruct (negb _ && _) eqn:E; [done|]. simplify_eq. split; [|done]. exists name. split_and!; [done|by apply Hty|by apply Hexcl|].
    intros Hne. rewrite bool_decide_false in E by done. exists x, re. split_and!; [done|done|]. by destruct (Pattern_Match re name).
  - intros [(n' & [= <-] & _ & _ & Hw) [= <-]]. destruct (decide (filter = "")) as [->|Hne].
    + destruct (filterRegs p) as [|re regs]; [by inversion Hre|]. exists re. split; [left|done].
    + destruct (Hw Hne) as (x & re & Hx & Hc & Hm). exists re. split; [apply (Forall2_compiled _ _ _ Hre); by exists x|].
      by rewrite Hm, andb_false_r.
Qed.

(** C23: a parser without overrides and without a dialer proxy gives, for a content that
    it accepts, the proxies of some of its mappings: each is one that the settings ask for
    (its type is not excluded, no excluding pattern matches its name and one of the filters
    does), no two have the same name, and for every mapping that the settings ask for there
    is one with its name. *)
Theorem proxies_parser_selects filter excludeFilter excludeType secretKey p buf ms h proxies h' :
  NewProxiesParser filter excludeFilter excludeType "" no_override secretKey = Ok p → bounded h →
  decode_proxies p buf = Ret (Ok ms) → Forall (λ m, canonical (AMap m)) ms →
  parse_proxies p buf h = Ret (Ok (proxies, h')) →
  ∃ picked, proxies ≠ [] ∧ Forall2 (λ m proxy, ParseProxy (AMap m) = Ret (Ok proxy)) picked proxies ∧
    NoDup ((λ m, tree_text m "name") <$> picked) ∧
    (∀ m, m ∈ picked → m ∈ ms ∧ wanted filter excludeFilter excludeType m) ∧
    (∀ m, m ∈ ms → wanted filter excludeFilter excludeType m →
      ∃ m', m' ∈ picked ∧ tree_text m' "name" = tree_text m "name").
Proof.
  intros Hnew Hb Hdec Hcan. pose proof (parser_settings _ _ _ _ _ _ _ Hnew) as (_ & _ & _ & _ & Hdialer & Hover).
  assert (call (decode_proxies p buf) h = Ret (Ok (ms, h))) as E0 by (unfold call; by rewrite Hdec).
  unfold parse_proxies. rewrite (M_bind_ok _ _ _ _ _ E0).
  destruct (alloc_mappings_rep ms Hcan h Hb) as (ls & h1 & E1 & Hb1 & _ & _ & Hls). rewrite (M_bind_ok _ _ _ _ _ E1).
  pose proof (parse_filters_plain p h1 Hover Hdialer Hb1 (filterRegs p) ls ms Hls ([], [])) as E2.
  destruct (select_filters p (filterRegs p) ms ([], [])) as [[st|e]| |] eqn:Es; try (unfold mbind, M_bind; by rewrite E2).
  rewrite (M_bind_ok _ _ _ _ _ E2). intros Hres.
  destruct (select_filters_selected p (filterRegs p) ms (filterRegs p) [] ([], []) st) as (picked & (Hpar & Hnd & Hin & Hnames) & _ & Hall); [done| |done|].
  { split_and!; [apply Forall2_nil; done|apply NoDup_nil; done|by intros ? ?%not_elem_of_nil|].
    intros name. cbn. by rewrite !elem_of_nil. }
  destruct st.1 as [|proxy rest] eqn:Est; [done|]. injection Hres as <- <-. exists picked. split_and!; [done|done|done| |].
  - intros m Hm. destruct (Hin m Hm) as (Hms & re & Hre & [name Hp]). split; [done|].
    by apply (chosen_wanted _ _ _ _ _ _ _ m name Hnew); exists re.
  - intros m Hm Hw. destruct Hw as (name & Hname & Hrest) eqn:Ew. rewrite Hname.
    destruct (proj2 (chosen_wanted _ _ _ _ _ _ _ m name Hnew) (conj Hw Hname)) as (re & Hre & Hp).
    specialize (Hall re m name Hre Hm Hp). apply Hnames in Hall. apply list_elem_of_fmap in Hall as (m' & Hn & Hm'). by exists m'.
Qed.

(** ** An override of names *)

(** An override that puts a text before the names. *)
Definition prefix_override (prefix : string) : overrideSchema :=
  mkSchema None None None None None None None None None None None None None (Some prefix) None [] [].

Lemma mset_mset {A} (m : list (string * A)) key x y : mset (mset m key x) key y = mset m key y.
Proof.
  induction m as [|[k z] m IH]; cbn; [by rewrite bool_decide_true|]. case_bool_decide as Hk; cbn; [by rewrite bool_decide_true|].
  destruct (string_ltb key k) eqn:E; cbn; [by rewrite bool_decide_true|]. rewrite bool_decide_false by done. by rewrite E, IH.
Qed.

Lemma prefix_applied prefix h l m name :
  bounded h → holds h l m → tree_text m "name" = Some name →
  ∃ h', schema_Apply (prefix_override prefix) l h = Ret (Ok (tt, h')) ∧ bounded h' ∧
    holds h' l (mset m "name" (AStr (prefix +:+ name))).
Proof.
  intros Hb (L & Hr & Hnd) Hname. pose proof (change_start h _ _ L Hb Hnd Hr) as Hc.
  inversion Hr as [| |l' es m' L' Hl Hs Hm]; subst. apply NoDup_cons in Hnd as [Hni HndL].
  assert (mget es "name" = Some (Scalar (AStr name))) as Hget.
  { pose proof (repm_text h es m L' "name" Hm) as Ht. rewrite Hname in Ht. unfold text_field in Ht.
    destruct (mget es "name") as [[[]| |]|]; try done. by injection Ht as ->. }
  set (h' := mkStore (<[l := OMap (mset es "name" (Scalar (AStr (prefix +:+ name))))]> (cells h)) (fresh h)).
  assert (add_to_name l (λ n, prefix +:+ n) h = Ret (Ok (tt, h'))) as Hadd.
  { unfold add_to_name, mbind, M_bind, map_entries, vindex, get_map. rewrite Hl, Hget. cbn. unfold modify_map, put, get_map. by rewrite Hl. }
  exists h'. split_and!.
  - assert (change_name (prefix_override prefix) l h = Ret (Ok (tt, h'))) as Hn.
    { unfold change_name. rewrite (M_bind_ok _ _ h tt h) by done. cbn [prefix_override AdditionalPrefix AdditionalSuffix].
      by rewrite (M_bind_ok _ _ _ _ _ Hadd). }
    unfold schema_Apply. rewrite (M_bind_ok _ _ h tt h) by done. by rewrite (M_bind_ok _ _ _ _ _ Hn).
  - apply (change_put h h (l :: L') L' l _ Hc).
  - destruct (repm_focus h es m L' "name" Hm Hs) as (Lk & L1 & L2 & -> & _ & Hback & _).
    specialize (Hback h (Scalar (AStr (prefix +:+ name))) (AStr (prefix +:+ name)) [] (same_on_refl _ h) ltac:(by constructor)).
    exists (l :: L1 ++ [] ++ L2). split.
    + eapply rep_mapref; cbn; [apply lookup_insert_eq|by apply mset_sorted|]. eapply repm_frame; [exact Hback|].
      intros l' Hl'. cbn. rewrite lookup_insert_ne; [done|]. intros <-. apply Hni. set_solver.
    + apply NoDup_cons. split; [intros Hin; apply Hni; set_solver|].
      apply NoDup_app in HndL as (H1 & H12 & (_ & _ & H2)%NoDup_app). apply NoDup_app. split_and!; [done| |done].
      intros l' Hl' Hl2. apply (H12 l' Hl'). apply elem_of_app. by right.
Qed.

(** A mapping that a filter chooses, under a name that has not been seen. *)
Lemma parse_mapping_prefix p prefix filterReg idx l m name st proxy h :
  parserOverride p = prefix_override prefix → parserDialerProxy p = "" → bounded h → holds h l m →
  picks p filterReg m = Some name → name ∉ st.2 → ParseProxy (AMap (mset m "name" (AStr (prefix +:+ name)))) = Ret (Ok proxy) →
  ∃ h', parse_mapping p filterReg idx l st h = Ret (Ok ((st.1 ++ [proxy], name :: st.2), h')) ∧ bounded h' ∧
    holds h' l (mset m "name" (AStr (prefix +:+ name))).
Proof.
  intros Hover Hdialer Hb Hh Hp Hseen Hparse.
  destruct (prefix_applied prefix h l m name Hb Hh (picks_name _ _ _ _ Hp)) as (h' & E & Hb' & Hh'). exists h'. split; [|done].
  destruct Hh as (L & Hr & Hnd). inversion Hr as [| |l' es m' L' Hl Hs Hm]; subst. destruct Hh' as (K & Hr' & Hnd').
  unfold parse_mapping. rewrite (M_bind_ok _ _ _ _ _ (map_entries_at h l es Hl)), !(repm_text h es m L') by done.
  unfold picks in Hp. rewrite Hp, bool_decide_false, Hover, Hdialer by done.
  assert (∀ k : M parserState, (_ ← (if bool_decide ("" = "") then mret tt else modify_map l (λ m, mset m "dialer-proxy" (Scalar (AStr ""))));
    _ ← wrap_error (number_error idx " override error") (schema_Apply (prefix_override prefix) l); k) h = k h') as ->.
  { intros k. unfold wrap_error, mbind, M_bind. rewrite bool_decide_true by done. cbn [mret M_ret]. by rewrite E. }
  rewrite (M_bind_ok _ _ _ _ _ (read_rep h' _ _ _ Hb' Hr' Hnd')). unfold wrap_error, call, mbind, M_bind. by rewrite Hparse.
Qed.

End parser.

(** ** Runs *)

Module ParserExamples.
Import ExprExamples.

(** Patterns that match texts which contain them; contents that are names, divided by
    commas; proxies that are their mappings. *)
#[export] Instance contains : Regexp2 :=
  {| Pattern := string; Pattern_Compile := Ok; Pattern_Match re s := Contains s re;
     Pattern_Replace re s target := Ok (if bool_decide (s = re) then target else s) |}.

(** A mapping of a name; the type depends on its first letter. *)
Definition named_mapping (name : string) : mapping :=
  [("name", AStr name); ("type", AStr (if HasPrefix name "t" then "Trojan" else "ss"))].

#[export] Instance names_lib : ProxyLib :=
  {| fold_rune r := if (65 <=? r) && (r <=? 90) then r + 32 else r;
     VeritySecretKeys _ := None;
     DecryptBytes buf _ := Ok buf;
     yaml_Proxies buf := Ok (Some (named_mapping <$> Split "," buf));
     ConvertsV2Ray _ := Ret (Ok None);
     ParsedProxy := any;
     ParseProxy t := Ret (Ok t) |}.

Lemma empty_valid : valid (mkStore ∅ 0).
Proof. apply (inv_valid _ _ _ inv_empty). Qed.

Lemma empty_bounded : bounded (mkStore ∅ 0).
Proof. intros l [o Ho]. discriminate. Qed.

Lemma named_canonical name : canonical (AMap (named_mapping name)).
Proof. cbn. repeat split; repeat constructor. Qed.

(** An override with fields, a replacement of a name, an expression and xray-mux. *)
Definition full_override : overrideSchema :=
  mkSchema (Some true) None (Some false) None (Some "10 Mbps") None None None None None (Some 7) None
    (Some [("enabled", Scalar (ABool true))]) None (Some "!") [("b", "c")]
    [mkExpr ".opts.list[2] = 1" [AssignStatement [PathField "opts"; PathField "list"; PathIndex 2] None TokenAssign (LiteralExpr (AInt Int 1))]].

Definition full_parser : proxiesParser := mkProxiesParser ["vmess"] ["x"] ["a"; "b"] "a`b" "via" full_override "".


(** A parser of the settings, and contents. *)
Definition plain_parser : proxiesParser := mkProxiesParser ["vmess"; "TROJAN"] ["c"] ["a"; "b"] "a`b" "" no_override "".
Definition plain_content : string := "ab,bc,b,ta,d".

Lemma proxies_parser_selects_witness :
  NewProxiesParser "a`b" "c" "vmess|TROJAN" "" no_override "" = Ok plain_parser ∧
  ∃ picked, [AMap (named_mapping "ab"); AMap (named_mapping "b")] ≠ [] ∧
    Forall2 (λ m proxy, ParseProxy (AMap m) = Ret (Ok proxy)) picked [AMap (named_mapping "ab"); AMap (named_mapping "b")] ∧
    NoDup ((λ m, tree_text m "name") <$> picked) ∧
    (∀ m, m ∈ picked → m ∈ named_mapping <$> ["ab"; "bc"; "b"; "ta"; "d"] ∧ wanted "a`b" "c" "vmess|TROJAN" m) ∧
    (∀ m, m ∈ named_mapping <$> ["ab"; "bc"; "b"; "ta"; "d"] → wanted "a`b" "c" "vmess|TROJAN" m →
      ∃ m', m' ∈ picked ∧ tree_text m' "name" = tree_text m "name").
Proof.
  split; [vm_compute; reflexivity|].
  eapply (@proxies_parser_selects forwards printable example_lib contains names_lib "a`b" "c" "vmess|TROJAN" "" plain_parser plain_content
    (named_mapping <$> ["ab"; "bc"; "b"; "ta"; "d"]) (mkStore ∅ 0));
    [vm_compute; reflexivity|exact empty_bounded|vm_compute; reflexivity| |vm_compute; reflexivity].
  repeat (constructor; [apply named_canonical|]). constructor.
Defined.

Definition prefix_parser : proxiesParser := mkProxiesParser [] [] ["a"; "b"] "a`b" "" (prefix_override "x-") "".

End ParserExamples.
